(* ===== verification/_CoqProject ===== *)
-Q . S2P
Prelude.v
IntArith.v
Euclid.v
ModulusRemainder.v
Scope.v
HalideTypes.v
IR.v
Typing.v
Alignment.v
IREquality.v
IRMatch.v
PatNotations.v
RuleSem.v
Mutator.v
Substitute.v
RuleTac.v
MatchSound.v
FoldSound.v
MakeSound.v
RuleSound.v
Visit.v
TableTac.v
ExprInfo.v
Interval.v
ScopedFact.v
Intrinsics.v
SimplifyAdd.v
SimplifySub.v
SimplifyMul.v
SimplifyDiv.v
SimplifyMod.v
SimplifyMin.v
SimplifyMax.v
SimplifyEQ.v
SimplifyLT.v
SimplifyAnd.v
SimplifyOr.v
SimplifyNot.v
SimplifySelect.v
SimplifyCast.v
SimplifyExprs.v
SimplifyRun.v
SimplifyNodes.v
NamedValues.v
ListNodes.v
LetPeel.v
SimplifyNodesSound.v
SimplifyLet.v
SimplifyCall.v
CallSound.v
SimplifyShuffle.v
ShuffleSound.v
Monotonic.v
Simplifier.v
SimplifyFuel.v
Bounds.v
BoundsFuel.v
BoundsTrust.v
BoundsEnds.v
BoundsArith.v
BoundsProducts.v
BoundsNodes.v
BoundsNames.v
BoundsBits.v
BoundsCall.v
BoundsShift.v
BoundsSound.v
