(* ===== verification/Prelude.v ===== *)
(** * Vyasa / Halide: the expression simplifier and the analyses around it

    Vyasa is a Halide compiler with a back end for spatial arrays.  The part of
    it this library models is the one all lowering passes rest on: the integer
    expression IR of src/IR.h, the rewriting engine of src/IRMatch.h with its
    rule tables, the visit methods of [Simplify], and the analyses and mutators
    on expressions they use.

    ** The parts and their files

    - Machine integers: IntArith.v (div_imp, mod_imp, the overflow tests of
      src/Util.cpp, gcd and lcm, the normalization of immediates); Euclid.v
      holds the theory of Euclidean division the rules for / and % need.
    - The congruence domain: ModulusRemainder.v (the operators of
      src/ModulusRemainder.cpp); Alignment.v (its visitor on expressions).
    - Scopes: Scope.v (src/Scope.h), stacks of values by name, a containing
      scope, and a state monad for visitors that push and pop.
    - Types and expressions: HalideTypes.v (src/Type.h, src/Type.cpp) and IR.v
      (src/IR.h, src/IR.cpp, the constant helpers of src/IROperator.cpp), with
      well-formedness [wf], evaluation [ev], absence of undefined behaviour
      [ok] and of overflow [fits].  Typing.v has the discipline for variables
      and calls that analyses of let nodes need.
    - Mutators: Mutator.v (src/IRMutator.cpp) and Substitute.v
      (src/Substitute.cpp, src/ExprUsesVar.h).
    - Comparison: IREquality.v (src/IREquality.cpp), the order the fact sets of
      the simplifier are kept in.
    - The rewriting engine: IRMatch.v (src/IRMatch.h, src/IRMatch.cpp): the
      pattern templates are the constructors of [Pat], a template's [match],
      [make], [make_folded_const] and predicates are functions on patterns, and
      [rewrite] tries the rules of a table in order.  PatNotations.v lets the
      tables read like the source.
    - The meaning of rules: RuleSem.v judges a rule at a valuation of its
      wildcards; MatchSound.v, FoldSound.v, MakeSound.v and RuleSound.v prove
      that the engine realizes that meaning; RuleTac.v and TableTac.v decide
      single rules and whole tables.
    - The simplifier, one node at a time: ExprInfo.v (bounds and alignment, the
      ExprInfo of src/Simplify_Internal.h), Visit.v (what the visit methods
      share), ScopedFact.v (what is learned from a condition, and its
      destructor), and one file for each of src/Simplify_Add.cpp, Sub, Mul, Div,
      Mod, Min, Max, EQ, LT, And, Or, Not, Select, Cast and Exprs, with every rule
      of the source, the bounds computed, and the early returns.
    - The simplifier as a whole: SimplifyRun.v (the state of a run, and what
      [mutate] promises), SimplifyNodes.v and SimplifyNodesSound.v (the visit
      methods from the unsimplified node on), LetPeel.v and SimplifyLet.v
      (src/Simplify_Let.cpp; NamedValues.v and ListNodes.v hold the theory of
      names and of nodes with lists), Intrinsics.v, SimplifyCall.v and CallSound.v
      (src/Simplify_Call.cpp), SimplifyShuffle.v and ShuffleSound.v
      (src/Simplify_Shuffle.cpp), and Simplifier.v: the dispatch, the constructor
      and [simplify] of src/Simplify.cpp; SimplifyFuel.v compares runs of
      different fuel.
    - Intervals of expressions: Interval.v (src/Interval.h, src/Interval.cpp).
    - Monotonicity: Monotonic.v (src/Monotonic.cpp).
    - Bounds inference on expressions (src/Bounds.cpp): Bounds.v has the visitor
      with every visit method, and the entry points.  BoundsTrust.v gives the
      events of a run their meaning, and says when an interval of expressions
      encloses the values of an expression; BoundsEnds.v, BoundsArith.v,
      BoundsProducts.v, BoundsNodes.v, BoundsNames.v, BoundsBits.v, BoundsCall.v and
      BoundsShift.v prove the visit methods, BoundsSound.v the visitor and the
      entry points; BoundsFuel.v compares runs of different fuel.

    ** How they interact

    A visit method mutates its operands, which report their [ExprInfo], puts
    the operands of a commutative node in order, and tries two tables of rules:
    the result of the first is returned ([Returned]), that of the second is
    mutated again ([Mutated]), and if none fires the node is remade ([Kept]).
    Rules may ask [can_prove], which mutates a condition: the class [Prover] of
    IRMatch.v is the interface, the rules are proved against what it promises
    ([frames], [trusts] and [leads] of MakeSound.v), and [run_prover] of
    SimplifyRun.v implements it with [mutate] itself.

    A [Run] is the state of a [Simplify] object: what is known of variables,
    bounds and facts, the flags, whether an internal error was raised, and the
    trace of the steps taken.  [mutates] is the contract of [mutate]: knowledge is
    left as it was, the result is well formed and of the same type, and on a
    [calm] run it stands for the expression, and the bounds reported hold.  A run
    is calm when it raised no internal error and the steps in its trace met no
    undefined behaviour: the expressions made to be simplified are defined
    where the given one is, constants folded do not overflow, bounds put together
    do not wrap, and no rule known to be unsound was used.

    The visitor of bounds inference threads a [BoundsState]: the scope of
    intervals, the flag const_bound, a counter for unique names, whether the run met
    an internal error or what the model has no value for ([void]), and the list of
    what it relied on ([Trust]): that the expressions it made have no undefined
    behaviour, that answers of simplify and can_prove are true, that amounts of
    shifts are in range, that what the source takes not to wrap does not.
    simplify, can_prove, same_as, the fresh names and the bounds of functions are
    arguments of the visitor.  Each visit method is proved [safe]: it restores the
    scope, and if what it relied on holds its interval encloses the expression.

    ** What the theorems show

    - [simplify_correct] and [simplify_typed]: the simplifier as a whole refines
      evaluation, and keeps types whatever happens; [simplify_fuel]: the fuel
      does not matter once it suffices.
    - [rewriter_correct], and [visit_*_correct] for each visit method: the
      expression a visit ends with is well formed, of the same type, and, where
      the given one is free of undefined behaviour and the facts and bounds
      used hold, of the same value.  The tables are proved rule by rule; the
      rules that are not sound are named in the exceptions of their table.
    - [*_bounds_sound]: the interval and the alignment a visit reports contain
      the value; [intersect_info_correct] for the intersection of reports.
    - [scoped_fact_sound] and [scoped_fact_roundtrip] for the facts learned,
      [peel_value_ends] for the loop of lets, [interval_sets] for intervals,
      [is_monotonic_sound] for monotonicity.
    - [bounds_of_expr_sound]: the interval inferred encloses the values of the
      expression in all lanes; [find_constant_bounds_sound] for constant bounds;
      [bounds_fuel] for fuel.
    - The operators of the congruence domain, its visitor, substitution, uses of
      variables, the elimination of lets, scopes, the total order on
      expressions, equality, the fact sets, constant folding with its overflow
      flags, the round trips of immediates, gcd.
    - Counterexamples ([*_unsound], [*_wrong], [*_negative],
      [lt_ramp_rules_dead], [shift_by_ramp_never_ends], ...):
      instances where the source does not do what it means to.

    ** Choices of semantics

    - A value is an integer in each lane.  Arithmetic of signed types of 32
      bits and more is the mathematical one ([norm] is the identity), as the
      simplifier assumes: overflow there is undefined, and [fits] says that none
      occurs.  Narrow signed types and unsigned types wrap around.
    - [exact] says that the constants folded into a replacement do not overflow;
      the engine marks such folds with [signed_integer_overflow] instead.
    - Division and remainder are Euclidean; by zero they are undefined ([ok]).
      The smallest 64-bit integer divided by -1 is taken to wrap around.
    - Floating point, string and handle expressions are matched, compared and
      folded, but have no value: [wf] excludes them.
    - Lane counts are below 2^14, since the matcher keeps flags above.
    - [masks_keep_zero] assumes that the intrinsics bool_to_mask and cast_mask
      map zero to zero, which [is_zero] relies on.

    ** Bounds and fuel

    [gcd_loop] is the only loop on a measure: its fuel is the number of bits
    of its arguments, doubled, and [gcd_terminates] shows it enough.  The loop
    that peels a let value has [peel_fuel] steps, enough by [peel_value_ends].
    [mutate] goes on with what a rule made of its node, so it has fuel, which no
    measure of the expression bounds in the source either; a run out of fuel is
    marked as failed.  A run that was enough is the run of any larger fuel
    ([simplify_fuel]).  The visitor of bounds has fuel too, for it visits expressions
    it makes itself: on those where it does not ([direct]) more than the [weight] of
    the expression is enough ([bounds_fuel]), and [shift_by_ramp_never_ends] shows
    one of the others on which the source does not end either.
    Every other recursion is structural.

    ** Not modelled

    - Of src/Simplify_Call.cpp: floating point folding, stringify, prefetch and
      require; a run that meets them is void.
    - Of src/Bounds.cpp: the bounds of scalar parameters, floating point, and the
      boxes touched by statements.
    - Statements, and with them all lowering passes on statements; bounds
      inference of pipelines and the solver.
    - The front end, the schedulers, code generation and the runtime, which
      build object graphs, call LLVM and vendor libraries, or talk to drivers.
    - Node identity (same_as, reference counts, memo tables of visitors),
      printing, and internal error messages. *)

From Stdlib Require Import ZArith Lia Bool List String.
Import ListNotations.
Open Scope Z_scope.

(** ** Booleans as the 0/1 integers of the IR *)

Abbreviation b2z := Z.b2z.
#[global] Arguments Z.b2z !b : simpl nomatch.

Definition nz (z : Z) : bool := negb (z =? 0).

Lemma nz_b2z b : nz (b2z b) = b.
Proof. now destruct b. Qed.

Lemma b2z_inj a b : b2z a = b2z b <-> a = b.
Proof. destruct a, b; cbn; intuition congruence. Qed.

Lemma nz_true z : nz z = true <-> z <> 0.
Proof. unfold nz. rewrite negb_true_iff, Z.eqb_neq. reflexivity. Qed.

Lemma nz_false z : nz z = false <-> z = 0.
Proof. unfold nz. rewrite negb_false_iff, Z.eqb_eq. reflexivity. Qed.

(** ** Tactics *)

(** Splits every conjunction, existential and boolean conjunction of the context. *)
Ltac destr_and :=
  repeat match goal with
  | H : _ /\ _ |- _ => destruct H
  | H : exists _, _ |- _ => destruct H
  | H : andb _ _ = true |- _ => apply andb_true_iff in H
  end.

(** Turns boolean tests on integers into propositions, everywhere. *)
Ltac zify_bool :=
  repeat match goal with
  | H : andb _ _ = true |- _ => apply andb_true_iff in H; destruct H
  | H : orb _ _ = false |- _ => apply orb_false_iff in H; destruct H
  | H : negb _ = true |- _ => apply negb_true_iff in H
  | H : negb _ = false |- _ => apply negb_false_iff in H
  | H : (_ =? _) = true |- _ => apply Z.eqb_eq in H
  | H : (_ =? _) = false |- _ => apply Z.eqb_neq in H
  | H : (_ <? _) = true |- _ => apply Z.ltb_lt in H
  | H : (_ <? _) = false |- _ => apply Z.ltb_ge in H
  | H : (_ <=? _) = true |- _ => apply Z.leb_le in H
  | H : (_ <=? _) = false |- _ => apply Z.leb_gt in H
  end.

(** Case analysis on the innermost [if] or [match] discriminee of the goal. *)
Ltac case_goal :=
  match goal with
  | |- context [match ?x with _ => _ end] =>
      lazymatch x with context [match _ with _ => _ end] => fail | _ => destruct x eqn:? end
  end.

(** ** Generic facts on options and lists *)

Lemma option_some_inj {A} (x y : A) : Some x = Some y -> x = y.
Proof. congruence. Qed.

(** The first element of a list on which a partial function is defined. *)
Fixpoint first_some {A B} (f : A -> option B) (l : list A) : option B :=
  match l with
  | [] => None
  | a :: l' => match f a with Some b => Some b | None => first_some f l' end
  end.

Lemma first_some_In {A B} (f : A -> option B) l b :
  first_some f l = Some b -> exists a, In a l /\ f a = Some b.
Proof.
  induction l as [|a l IH]; cbn; [discriminate|].
  destruct (f a) eqn:E; intros H.
  - exists a. injection H as <-. auto.
  - destruct (IH H) as (a' & ? & ?). exists a'. auto.
Qed.

Lemma first_some_app {A B} (f : A -> option B) l1 l2 :
  first_some f (l1 ++ l2) =
  match first_some f l1 with Some b => Some b | None => first_some f l2 end.
Proof. induction l1 as [|a l1 IH]; cbn; [reflexivity|]. destruct (f a); auto. Qed.

(** Rules guarded by a type test: the [&&] in front of a group of rewrites. *)
Definition when {A} (b : bool) (l : list A) : list A := if b then l else [].

Lemma Forall_when {A} (P : A -> Prop) b l :
  (b = true -> Forall P l) -> Forall P (when b l).
Proof. destruct b; cbn; auto. Qed.

Create HintDb halide discriminated.
#[export] Hint Resolve Forall_nil Forall_cons Forall_when : halide.

(** ** Powers of two *)

Lemma pow2_pos n : 0 <= n -> 0 < 2 ^ n.
Proof. intros. apply Z.pow_pos_nonneg; lia. Qed.

Lemma pow2_half n : 0 < n -> 2 ^ n = 2 * 2 ^ (n - 1).
Proof. intros. rewrite <- Z.pow_succ_r by lia. f_equal. lia. Qed.

#[export] Hint Resolve pow2_pos : halide.
