(* ===== verification/IntArith.v ===== *)
(** * Machine integer arithmetic

    The integer helpers the compiler is written with: wrapping to a width,
    Halide's Euclidean division and modulus (src/IROperator.h), the overflow
    tests (src/Util.cpp), and the greatest common divisor and least common
    multiple of src/ModulusRemainder.cpp. *)

From Stdlib Require Import ZArith Lia Bool List Znumtheory.
From S2P Require Import Prelude.
Open Scope Z_scope.

(** ** Wrapping *)

Definition wrap_u (bits v : Z) : Z := v mod 2 ^ bits.

Definition wrap_s (bits v : Z) : Z := (v + 2 ^ (bits - 1)) mod 2 ^ bits - 2 ^ (bits - 1).

(** The values of a 64-bit register, read as signed and as unsigned. *)
Definition i64 (v : Z) : Z := wrap_s 64 v.
Definition u64 (v : Z) : Z := wrap_u 64 v.

Definition max_int (bits : Z) : Z := Z.shiftr (2 ^ 63 - 1) (64 - bits).
Definition min_int (bits : Z) : Z := - max_int bits - 1.
Definition max_uint (bits : Z) : Z := Z.shiftr (2 ^ 64 - 1) (64 - bits).

(** ** Division and modulus *)

(** [mod_imp<T>] for a signed [T]: C++ [%] truncates, then a negative
    remainder is moved up by [abs(b)]. *)
Definition mod_imp (a b : Z) : Z :=
  let r := Z.rem a b in
  r + (if r <? 0 then Z.abs b else 0).

(** [div_imp<T>] for a signed [T] of [w] bits. *)
Definition div_imp_w (w a b : Z) : Z :=
  let q := Z.quot a b in
  let r := a - q * b in
  let bs := Z.shiftr b (w - 1) in
  let rs := Z.shiftr r (w - 1) in
  q - Z.land rs bs + Z.land rs (Z.lnot bs).

Definition div_imp (a b : Z) : Z := div_imp_w 64 a b.

(** ** Overflow tests *)

Definition add_would_overflow (bits a b : Z) : bool :=
  let max_val := Z.shiftr (2 ^ 63 - 1) (64 - bits) in
  let min_val := - max_val - 1 in
  ((0 <? b) && (max_val - b <? a)) || ((b <? 0) && (a <? min_val - b)).

Definition sub_would_overflow (bits a b : Z) : bool :=
  let max_val := Z.shiftr (2 ^ 63 - 1) (64 - bits) in
  let min_val := - max_val - 1 in
  ((b <? 0) && (max_val + b <? a)) || ((0 <? b) && (a <? min_val + b)).

Definition mul_would_overflow (bits a b : Z) : bool :=
  let max_val := Z.shiftr (2 ^ 63 - 1) (64 - bits) in
  let min_val := - max_val - 1 in
  if a =? 0 then false
  else if a =? -1 then b =? min_val
  else
    let ab := i64 (u64 a * u64 b) in
    (ab <? min_val) || (max_val <? ab) || negb (Z.quot ab a =? b).

(** ** Greatest common divisor, least common multiple *)

(** The [while (b != 0)] loop of [gcd]; the fuel bounds the iterations. *)
Fixpoint gcd_loop (fuel : nat) (a b : Z) : Z :=
  match fuel with
  | O => a
  | S fuel' => if b =? 0 then a else gcd_loop fuel' b (Z.rem a b)
  end.

(** Two iterations at least halve [b], so twice its bit length is enough. *)
Definition gcd_fuel (b : Z) : nat := S (2 * Z.to_nat (Z.log2 (Z.abs b) + 1)).

Definition gcd (a b : Z) : Z :=
  let '(a, b) := if a <? b then (b, a) else (a, b) in
  gcd_loop (gcd_fuel b) a b.

Definition lcm (a b : Z) : Z :=
  let b := Z.quot b (gcd a b) in
  if mul_would_overflow 64 a b then 0 else a * b.

(** ** Euclidean division, the reference *)

(** The quotient and remainder of the doc comment of src/IROperator.h:
    [(a/b)*b + a%b = a] and [0 <= a%b < |b|]. *)
Definition ediv (a b : Z) : Z := Z.sgn b * (a / Z.abs b).
Definition emod (a b : Z) : Z := a mod Z.abs b.

Lemma ediv_emod a b : b <> 0 -> a = b * ediv a b + emod a b.
Proof.
  intros H. unfold ediv, emod.
  rewrite Z.mul_assoc. replace (b * Z.sgn b) with (Z.abs b) by (destruct b; cbn; lia).
  apply Z.div_mod. lia.
Qed.

Lemma emod_bound a b : b <> 0 -> 0 <= emod a b < Z.abs b.
Proof. intros H. apply Z.mod_pos_bound. lia. Qed.

Lemma ediv_unique a b q r :
  b <> 0 -> a = b * q + r -> 0 <= r < Z.abs b -> ediv a b = q.
Proof.
  intros Hb Ha Hr. pose proof (ediv_emod a b Hb). pose proof (emod_bound a b Hb).
  assert (b * (ediv a b - q) = r - emod a b) by lia.
  assert (ediv a b - q = 0); [|lia]. destruct (Z.eq_dec (ediv a b - q) 0); [assumption|nia].
Qed.

Lemma emod_unique a b q r :
  b <> 0 -> a = b * q + r -> 0 <= r < Z.abs b -> emod a b = r.
Proof.
  intros Hb Ha Hr. pose proof (ediv_unique a b q r Hb Ha Hr).
  pose proof (ediv_emod a b Hb). nia.
Qed.

(** ** Wrapping: range, identity, congruence *)

Section Wrap.
Context (bits : Z) (Hbits : 0 < bits).

Lemma wrap_u_range v : 0 <= wrap_u bits v < 2 ^ bits.
Proof. apply Z.mod_pos_bound, pow2_pos. lia. Qed.

Lemma wrap_u_id v : 0 <= v < 2 ^ bits -> wrap_u bits v = v.
Proof. apply Z.mod_small. Qed.

Lemma wrap_u_cong v : exists k, wrap_u bits v = v + k * 2 ^ bits.
Proof.
  exists (- (v / 2 ^ bits)). unfold wrap_u.
  pose proof (Z.div_mod v (2 ^ bits)). pose proof (pow2_pos bits). lia.
Qed.

Lemma wrap_u_shift v k : wrap_u bits (v + k * 2 ^ bits) = wrap_u bits v.
Proof. apply Z.mod_add. pose proof (pow2_pos bits). lia. Qed.

Lemma wrap_s_range v : - 2 ^ (bits - 1) <= wrap_s bits v < 2 ^ (bits - 1).
Proof.
  unfold wrap_s. rewrite (pow2_half bits) by lia.
  pose proof (Z.mod_pos_bound (v + 2 ^ (bits - 1)) (2 * 2 ^ (bits - 1))).
  pose proof (pow2_pos (bits - 1)). lia.
Qed.

Lemma wrap_s_id v : - 2 ^ (bits - 1) <= v < 2 ^ (bits - 1) -> wrap_s bits v = v.
Proof.
  intros. unfold wrap_s. rewrite (pow2_half bits) by lia.
  rewrite Z.mod_small by lia. lia.
Qed.

Lemma wrap_s_cong v : exists k, wrap_s bits v = v + k * 2 ^ bits.
Proof.
  exists (- ((v + 2 ^ (bits - 1)) / 2 ^ bits)). unfold wrap_s.
  pose proof (Z.div_mod (v + 2 ^ (bits - 1)) (2 ^ bits)).
  pose proof (pow2_pos bits). lia.
Qed.

Lemma wrap_s_shift v k : wrap_s bits (v + k * 2 ^ bits) = wrap_s bits v.
Proof.
  unfold wrap_s. replace (v + k * 2 ^ bits + 2 ^ (bits - 1))
    with (v + 2 ^ (bits - 1) + k * 2 ^ bits) by lia.
  rewrite Z.mod_add; [reflexivity|]. pose proof (pow2_pos bits). lia.
Qed.
End Wrap.

Lemma max_int_eq bits : 1 <= bits <= 64 -> max_int bits = 2 ^ (bits - 1) - 1.
Proof.
  intros. unfold max_int. rewrite Z.shiftr_div_pow2 by lia.
  symmetry. apply Z.div_unique with (2 ^ (64 - bits) - 1).
  - left. pose proof (pow2_pos (64 - bits)). lia.
  - replace (2 ^ 63) with (2 ^ (64 - bits) * 2 ^ (bits - 1)).
    + lia.
    + rewrite <- Z.pow_add_r by lia. f_equal. lia.
Qed.

Lemma min_int_eq bits : 1 <= bits <= 64 -> min_int bits = - 2 ^ (bits - 1).
Proof. intros. unfold min_int. rewrite max_int_eq by lia. lia. Qed.

Lemma max_uint_eq bits : 1 <= bits <= 64 -> max_uint bits = 2 ^ bits - 1.
Proof.
  intros. unfold max_uint. rewrite Z.shiftr_div_pow2 by lia.
  symmetry. apply Z.div_unique with (2 ^ (64 - bits) - 1).
  - left. pose proof (pow2_pos (64 - bits)). lia.
  - replace (2 ^ 64) with (2 ^ (64 - bits) * 2 ^ bits).
    + lia.
    + rewrite <- Z.pow_add_r by lia. f_equal. lia.
Qed.

(** ** The C++ division implements the reference *)

Lemma mod_imp_eq a b : b <> 0 -> mod_imp a b = emod a b.
Proof.
  intros Hb. unfold mod_imp. symmetry.
  pose proof (Z.quot_rem a b Hb) as Hqr.
  pose proof (Z.rem_bound_abs a b Hb).
  destruct (Z.ltb_spec (Z.rem a b) 0).
  - apply emod_unique with (Z.quot a b - Z.sgn b); [assumption| |lia].
    replace (Z.abs b) with (b * Z.sgn b) by (destruct b; cbn; lia). lia.
  - apply emod_unique with (Z.quot a b); lia.
Qed.

(** Shifting a [w]-bit value right by [w - 1] leaves its sign mask. *)
Lemma sign_mask w v : 0 < w -> - 2 ^ (w - 1) <= v < 2 ^ (w - 1) ->
  Z.shiftr v (w - 1) = if v <? 0 then -1 else 0.
Proof.
  intros Hw Hv. rewrite Z.shiftr_div_pow2 by lia.
  pose proof (pow2_pos (w - 1)). destruct (Z.ltb_spec v 0).
  - symmetry. apply Z.div_unique with (v + 2 ^ (w - 1)); lia.
  - apply Z.div_small. lia.
Qed.

Lemma div_imp_w_eq w a b :
  0 < w -> b <> 0 -> - 2 ^ (w - 1) <= b < 2 ^ (w - 1) -> div_imp_w w a b = ediv a b.
Proof.
  intros Hw Hb Hr. unfold div_imp_w. cbv zeta.
  pose proof (Z.quot_rem a b Hb) as Hqr. pose proof (Z.rem_bound_abs a b Hb).
  set (q := Z.quot a b) in *. set (r := a - q * b).
  assert (Z.rem a b = r) as Er by (unfold r; lia). rewrite Er in *.
  rewrite (sign_mask w b), (sign_mask w r) by lia.
  symmetry. destruct (Z.ltb_spec r 0), (Z.ltb_spec b 0); cbn.
  - apply ediv_unique with (r - b); unfold r in *; lia.
  - apply ediv_unique with (r + b); unfold r in *; lia.
  - apply ediv_unique with r; unfold r in *; lia.
  - apply ediv_unique with r; unfold r in *; lia.
Qed.

Lemma div_imp_eq a b : b <> 0 -> - 2 ^ 63 <= b < 2 ^ 63 -> div_imp a b = ediv a b.
Proof. intros. apply div_imp_w_eq; lia. Qed.

(** ** The overflow tests are exact *)

(** The values of a signed type of [bits] bits. *)
Definition in_int (bits v : Z) : Prop := - 2 ^ (bits - 1) <= v < 2 ^ (bits - 1).

Section Overflow.
Context (bits : Z) (Hbits : 1 <= bits <= 64).

Let M := 2 ^ (bits - 1).

Lemma overflow_max_val : Z.shiftr (2 ^ 63 - 1) (64 - bits) = M - 1.
Proof. apply (max_int_eq bits Hbits). Qed.

Lemma half_le_i64 : 0 < M <= 2 ^ 63.
Proof.
  split; [apply pow2_pos; lia|]. apply Z.pow_le_mono_r; lia.
Qed.

Lemma add_would_overflow_spec a b : in_int bits a -> in_int bits b ->
  add_would_overflow bits a b = true <-> ~ in_int bits (a + b).
Proof.
  unfold add_would_overflow, in_int. rewrite overflow_max_val. fold M.
  pose proof half_le_i64. intros. cbv zeta.
  rewrite orb_true_iff, !andb_true_iff, !Z.ltb_lt. lia.
Qed.

Lemma sub_would_overflow_spec a b : in_int bits a -> in_int bits b ->
  sub_would_overflow bits a b = true <-> ~ in_int bits (a - b).
Proof.
  unfold sub_would_overflow, in_int. rewrite overflow_max_val. fold M.
  pose proof half_le_i64. intros. cbv zeta.
  rewrite orb_true_iff, !andb_true_iff, !Z.ltb_lt. lia.
Qed.

(** The product modulo [2^64], read as signed. *)
Lemma i64_mul a b : exists k, i64 (u64 a * u64 b) = a * b + k * 2 ^ 64.
Proof.
  unfold i64, u64. destruct (wrap_u_cong 64 ltac:(lia) a) as [ka ->].
  destruct (wrap_u_cong 64 ltac:(lia) b) as [kb ->].
  destruct (wrap_s_cong 64 ltac:(lia) ((a + ka * 2 ^ 64) * (b + kb * 2 ^ 64))) as [k ->].
  exists (k + ka * b + a * kb + ka * kb * 2 ^ 64). ring.
Qed.

Lemma quot_exact_bound a b k : a <> 0 -> Z.abs a <= 2 ^ 63 ->
  Z.quot (a * b + k * 2 ^ 64) a = b -> k = 0.
Proof.
  intros Ha Hb E. pose proof (Z.quot_rem (a * b + k * 2 ^ 64) a Ha) as Q.
  pose proof (Z.rem_bound_abs (a * b + k * 2 ^ 64) a Ha). rewrite E in Q.
  assert (Z.abs (k * 2 ^ 64) < 2 ^ 63) by lia. lia.
Qed.

Lemma mul_would_overflow_spec a b : in_int bits a -> in_int bits b ->
  mul_would_overflow bits a b = true <-> ~ in_int bits (a * b).
Proof.
  unfold mul_would_overflow, in_int. rewrite overflow_max_val. fold M.
  pose proof half_le_i64. intros Ha Hb. cbv zeta.
  destruct (Z.eqb_spec a 0) as [->|Ha0]; [rewrite Z.mul_0_l; split; [discriminate|lia]|].
  destruct (Z.eqb_spec a (-1)) as [->|Ha1]; [rewrite Z.eqb_eq; lia|].
  destruct (i64_mul a b) as [k E].
  pose proof (wrap_s_range 64 ltac:(lia) (u64 a * u64 b)) as R.
  fold (i64 (u64 a * u64 b)) in R.
  rewrite !orb_true_iff, negb_true_iff, !Z.ltb_lt, Z.eqb_neq.
  rewrite E in *. destruct (Z.eq_dec k 0) as [->|Hk].
  - rewrite Z.mul_0_l, Z.add_0_r, (Z.mul_comm a), Z.quot_mul by assumption. lia.
  - split; [intros _|intros _; right].
    + nia.
    + intros Q. apply Hk. eapply (quot_exact_bound a b k); eauto. lia.
Qed.
End Overflow.

(** A test that is exact for a negation decides the positive fact. *)
Lemma in_int_of_test bits v (t : bool) :
  (t = true <-> ~ in_int bits v) -> t = false -> in_int bits v.
Proof.
  unfold in_int. intros H ->.
  destruct (Z.leb_spec (- 2 ^ (bits - 1)) v), (Z.ltb_spec v (2 ^ (bits - 1))); try lia;
    assert (false = true) by (apply H; lia); discriminate.
Qed.

Section NoOverflow.
Context (bits : Z) (Hbits : 1 <= bits <= 64) (a b : Z).
Context (Ha : in_int bits a) (Hb : in_int bits b).

Lemma add_no_overflow : add_would_overflow bits a b = false -> in_int bits (a + b).
Proof. apply in_int_of_test, add_would_overflow_spec; assumption. Qed.

Lemma sub_no_overflow : sub_would_overflow bits a b = false -> in_int bits (a - b).
Proof. apply in_int_of_test, sub_would_overflow_spec; assumption. Qed.

Lemma mul_no_overflow : mul_would_overflow bits a b = false -> in_int bits (a * b).
Proof. apply in_int_of_test, mul_would_overflow_spec; assumption. Qed.
End NoOverflow.

(** ** The gcd loop *)

Lemma gcd_step a b : b <> 0 -> Z.gcd b (Z.rem a b) = Z.gcd a b.
Proof. intros. now rewrite Z.gcd_comm, Z.gcd_rem, Z.gcd_comm. Qed.

(** Two remainders halve the modulus. *)
Lemma rem_rem_half b r : r <> 0 -> Z.abs r < Z.abs b -> 2 * Z.abs (Z.rem b r) < Z.abs b.
Proof.
  intros Hr H. pose proof (Z.quot_rem b r Hr). pose proof (Z.rem_bound_abs b r Hr).
  pose proof (Z.quot_abs b r Hr). pose proof (Z.rem_abs b r Hr).
  pose proof (Z.quot_rem (Z.abs b) (Z.abs r) ltac:(lia)).
  assert (1 <= Z.quot (Z.abs b) (Z.abs r)) by (apply Z.quot_le_lower_bound; lia).
  nia.
Qed.

Lemma gcd_loop_abs fuel a b k :
  Z.abs b < 2 ^ Z.of_nat k -> (2 * k < fuel)%nat ->
  Z.abs (gcd_loop fuel a b) = Z.gcd a b.
Proof.
  revert fuel a b. induction k as [|k IH]; intros fuel a b Hb Hf.
  - change (2 ^ Z.of_nat 0) with 1 in Hb. assert (b = 0) by lia. subst.
    destruct fuel; [lia|]. cbn. now rewrite Z.gcd_0_r.
  - destruct fuel as [|[|fuel]]; [lia|lia|]. cbn [gcd_loop].
    destruct (Z.eqb_spec b 0) as [->|Hb0]; [now rewrite Z.gcd_0_r|].
    rewrite <- (gcd_step a b Hb0). pose proof (Z.rem_bound_abs a b Hb0) as Hr.
    set (r := Z.rem a b) in *.
    destruct (Z.eqb_spec r 0) as [->|Hr0]; [now rewrite Z.gcd_0_r|].
    rewrite <- (gcd_step b r Hr0). apply IH; [|lia].
    pose proof (rem_rem_half b r Hr0 Hr).
    rewrite Nat2Z.inj_succ, Z.pow_succ_r in Hb by lia. lia.
Qed.

Lemma gcd_fuel_enough a b : Z.abs (gcd_loop (gcd_fuel b) a b) = Z.gcd a b.
Proof.
  apply gcd_loop_abs with (Z.to_nat (Z.log2 (Z.abs b) + 1)).
  - pose proof (Z.log2_nonneg (Z.abs b)). rewrite Z2Nat.id by lia.
    destruct (Z.eq_dec b 0) as [->|Hb]; [now compute|].
    apply Z.log2_spec. lia.
  - unfold gcd_fuel. lia.
Qed.

Lemma gcd_abs a b : Z.abs (gcd a b) = Z.gcd a b.
Proof.
  unfold gcd. destruct (a <? b); rewrite gcd_fuel_enough; [apply Z.gcd_comm|reflexivity].
Qed.

Lemma gcd_loop_nonneg fuel a b : 0 <= a -> 0 <= b -> 0 <= gcd_loop fuel a b.
Proof.
  revert a b. induction fuel as [|fuel IH]; intros a b Ha Hb; cbn; [assumption|].
  destruct (Z.eqb_spec b 0); [assumption|]. apply IH; [assumption|].
  apply Z.rem_nonneg; assumption.
Qed.

Lemma gcd_nonneg a b : 0 <= a -> 0 <= b -> gcd a b = Z.gcd a b.
Proof.
  intros. rewrite <- gcd_abs. unfold gcd.
  destruct (a <? b); symmetry; apply Z.abs_eq, gcd_loop_nonneg; assumption.
Qed.

Lemma gcd_divide_l a b : (gcd a b | a).
Proof. apply Z.divide_abs_l. rewrite gcd_abs. apply Z.gcd_divide_l. Qed.

Lemma gcd_divide_r a b : (gcd a b | b).
Proof. apply Z.divide_abs_l. rewrite gcd_abs. apply Z.gcd_divide_r. Qed.

Lemma gcd_eq_0 a b : gcd a b = 0 <-> a = 0 /\ b = 0.
Proof. pose proof (gcd_abs a b). pose proof (Z.gcd_eq_0 a b). lia. Qed.

#[export] Hint Resolve gcd_divide_l gcd_divide_r : halide.

(** [lcm] either saturates to zero or is the least common multiple, up to sign. *)
Lemma lcm_abs a b : a <> 0 \/ b <> 0 -> in_int 64 a -> in_int 64 (Z.quot b (gcd a b)) ->
  lcm a b = 0 \/ Z.abs (lcm a b) = Z.lcm a b.
Proof.
  intros H Ha Hq. unfold lcm. destruct (mul_would_overflow 64 a _); [auto|right].
  assert (gcd a b <> 0) by (rewrite gcd_eq_0; lia).
  destruct (gcd_divide_r a b) as [q E]. rewrite E at 1.
  rewrite Z.quot_mul by assumption. unfold Z.lcm. rewrite <- gcd_abs.
  rewrite E at 1. rewrite Z.abs_mul, Z.abs_mul.
  destruct (Z.abs_spec (gcd a b)) as [[? ->]|[? ->]].
  - rewrite Z.div_mul by assumption. lia.
  - replace (q * gcd a b) with (- q * - gcd a b) by lia.
    rewrite Z.div_mul by lia. lia.
Qed.

(** ** Normalization of immediates *)

(** [IntImm::make] and [UIntImm::make] shift the high bits out of a 64-bit
    register and shift the value back, arithmetically or logically. *)
Definition normalize_s (bits v : Z) : Z :=
  Z.shiftr (i64 (Z.shiftl (u64 v) (64 - bits))) (64 - bits).

Definition normalize_u (bits v : Z) : Z :=
  Z.shiftr (u64 (Z.shiftl (u64 v) (64 - bits))) (64 - bits).

Section Normalize.
Context (bits : Z) (Hbits : 1 <= bits <= 64).


Lemma shiftl_u64 v : exists k, Z.shiftl (u64 v) (64 - bits) = v * 2 ^ (64 - bits) + k * 2 ^ 64.
Proof.
  rewrite Z.shiftl_mul_pow2 by lia. destruct (wrap_u_cong 64 ltac:(lia) v) as [k E].
  unfold u64. rewrite E. exists (k * 2 ^ (64 - bits)). ring.
Qed.

Lemma normalize_s_eq v : normalize_s bits v = wrap_s bits v.
Proof.
  unfold normalize_s. destruct (shiftl_u64 v) as [k ->]. unfold i64.
  rewrite wrap_s_shift by lia.
  destruct (wrap_s_cong bits ltac:(lia) v) as [m E].
  pose proof (wrap_s_range bits ltac:(lia) v) as R.
  pose proof (pow2_pos (64 - bits) ltac:(lia)).
  assert (2 ^ 63 = 2 ^ (bits - 1) * 2 ^ (64 - bits)) as E63
    by (rewrite <- Z.pow_add_r by lia; f_equal; lia).
  assert (2 ^ 64 = 2 ^ bits * 2 ^ (64 - bits)) as E64
    by (rewrite <- Z.pow_add_r by lia; f_equal; lia).
  replace (v * 2 ^ (64 - bits)) with (wrap_s bits v * 2 ^ (64 - bits) + (- m) * 2 ^ 64)
    by (rewrite E, E64; ring).
  rewrite wrap_s_shift, wrap_s_id by (change (64 - 1) with 63; nia).
  rewrite Z.shiftr_div_pow2, Z.div_mul by lia. reflexivity.
Qed.

Lemma normalize_u_eq v : normalize_u bits v = wrap_u bits v.
Proof.
  unfold normalize_u. destruct (shiftl_u64 v) as [k ->]. unfold u64.
  rewrite wrap_u_shift by lia.
  destruct (wrap_u_cong bits ltac:(lia) v) as [m E].
  pose proof (wrap_u_range bits ltac:(lia) v) as R.
  pose proof (pow2_pos (64 - bits) ltac:(lia)).
  assert (2 ^ 64 = 2 ^ bits * 2 ^ (64 - bits)) as E64
    by (rewrite <- Z.pow_add_r by lia; f_equal; lia).
  replace (v * 2 ^ (64 - bits)) with (wrap_u bits v * 2 ^ (64 - bits) + (- m) * 2 ^ 64)
    by (rewrite E, E64; ring).
  rewrite wrap_u_shift, wrap_u_id by nia.
  rewrite Z.shiftr_div_pow2, Z.div_mul by lia. reflexivity.
Qed.
End Normalize.

(** ** Contracts *)



(** More fuel changes nothing once the loop has ended. *)
Lemma gcd_loop_more fuel n a b k :
  Z.abs b < 2 ^ Z.of_nat k -> (2 * k < fuel)%nat -> gcd_loop (fuel + n) a b = gcd_loop fuel a b.
Proof.
  revert fuel a b. induction k as [|k IH]; intros fuel a b Hb Hf.
  - change (2 ^ Z.of_nat 0) with 1 in Hb. assert (b = 0) by lia. subst.
    destruct fuel; [lia|]. reflexivity.
  - destruct fuel as [|[|fuel]]; [lia|lia|]. cbn [gcd_loop Nat.add].
    destruct (Z.eqb_spec b 0) as [->|Hb0]; [reflexivity|].
    pose proof (Z.rem_bound_abs a b Hb0) as Hr. set (r := Z.rem a b) in *.
    destruct (Z.eqb_spec r 0) as [->|Hr0]; [reflexivity|].
    apply IH; [|lia]. pose proof (rem_rem_half b r Hr0 Hr).
    rewrite Nat2Z.inj_succ, Z.pow_succ_r in Hb by lia. lia.
Qed.

(** The loop of [gcd] ends within the fuel, which any more of leaves the result as
    it is, and computes the greatest common divisor up to sign. *)
Theorem gcd_terminates a b :
  (forall n, gcd_loop (gcd_fuel b + n) a b = gcd_loop (gcd_fuel b) a b) /\ Z.abs (gcd a b) = Z.gcd a b.
Proof.
  split; [|apply gcd_abs]. intros n. apply gcd_loop_more with (Z.to_nat (Z.log2 (Z.abs b) + 1)).
  - pose proof (Z.log2_nonneg (Z.abs b)). rewrite Z2Nat.id by lia.
    destruct (Z.eq_dec b 0) as [->|Hb]; [now compute|]. apply Z.log2_spec. lia.
  - unfold gcd_fuel. lia.
Qed.

(** The overflow tests of src/Util.cpp, which
    compute with 64-bit registers only, decide whether the exact result leaves
    the width. *)
Theorem would_overflow_correct bits a b : 1 <= bits <= 64 -> in_int bits a -> in_int bits b ->
  (add_would_overflow bits a b = true <-> ~ in_int bits (a + b)) /\
  (sub_would_overflow bits a b = true <-> ~ in_int bits (a - b)) /\
  (mul_would_overflow bits a b = true <-> ~ in_int bits (a * b)).
Proof.
  intros W A B. split; [|split].
  - now apply add_would_overflow_spec.
  - now apply sub_would_overflow_spec.
  - now apply mul_would_overflow_spec.
Qed.

Lemma would_overflow_correct_witness :
  mul_would_overflow 64 (2 ^ 62) 2 = true /\ ~ in_int 64 (2 ^ 62 * 2).
Proof.
  split; [reflexivity|].
  apply (proj2 (proj2 (would_overflow_correct 64 (2 ^ 62) 2 ltac:(lia)
    ltac:(split; vm_compute; congruence) ltac:(split; vm_compute; congruence)))).
  reflexivity.
Defined.

(** A value in the range of its type survives being
    written to a 64-bit register and normalized by the constructors of
    immediates, and any value is brought into range modulo the width. *)
Theorem immediates_roundtrip bits v : 1 <= bits <= 64 ->
  (in_int bits v -> normalize_s bits (u64 v) = v) /\
  (0 <= v < 2 ^ bits -> normalize_u bits (u64 v) = v) /\
  in_int bits (normalize_s bits v) /\ 0 <= normalize_u bits v < 2 ^ bits.
Proof.
  intros W. rewrite !normalize_s_eq, !normalize_u_eq by assumption.
  pose proof (wrap_s_range bits ltac:(lia) v). pose proof (wrap_u_range bits ltac:(lia) v).
  split; [|split; [|split; [assumption|assumption]]].
  - intros I. transitivity (wrap_s bits v); [|now apply wrap_s_id; [lia|]].
    destruct (wrap_u_cong 64 ltac:(lia) v) as [k E]. unfold u64. rewrite E.
    replace (2 ^ 64) with (2 ^ (64 - bits) * 2 ^ bits) by (rewrite <- Z.pow_add_r by lia; f_equal; lia).
    rewrite Z.mul_assoc. apply wrap_s_shift. lia.
  - intros I. transitivity (wrap_u bits v); [|now apply wrap_u_id].
    destruct (wrap_u_cong 64 ltac:(lia) v) as [k E]. unfold u64. rewrite E.
    replace (2 ^ 64) with (2 ^ (64 - bits) * 2 ^ bits) by (rewrite <- Z.pow_add_r by lia; f_equal; lia).
    rewrite Z.mul_assoc. apply wrap_u_shift. lia.
Qed.

Lemma immediates_roundtrip_witness : normalize_s 8 (u64 (-3)) = -3 /\ normalize_u 8 (u64 253) = 253.
Proof.
  split.
  - apply (immediates_roundtrip 8 (-3)); [lia|]. split; vm_compute; congruence.
  - apply (immediates_roundtrip 8 253); [lia|]. lia.
Defined.
