(* ===== verification/Euclid.v ===== *)
(** * Euclidean division: congruences and monotonicity

    The facts on [ediv] and [emod] that the division rules of the simplifier
    rest on, collected in the hint database [euclid], and the tactics that
    replace quotients and remainders by their defining inequalities. *)

From Stdlib Require Import ZArith Lia Bool.
From S2P Require Import Prelude.
From S2P Require Import IntArith.
Open Scope Z_scope.

Create HintDb euclid discriminated.

(** ** Quotients and remainders as variables *)

Lemma euclid a b : b <> 0 ->
  exists q r, ediv a b = q /\ emod a b = r /\ a = b * q + r /\ 0 <= r /\
    (0 < b /\ r < b \/ b < 0 /\ r < - b).
Proof.
  intros H. exists (ediv a b), (emod a b). pose proof (ediv_emod a b H).
  pose proof (emod_bound a b H). repeat split; lia.
Qed.

Ltac non_zero := first [assumption | lia | congruence].

(** Replaces quotients and remainders by variables with their defining
    inequalities, innermost first. *)
Ltac euclid_step :=
  let go a b :=
    lazymatch a with context [ediv _ _] => fail | context [emod _ _] => fail | _ =>
    lazymatch b with context [ediv _ _] => fail | context [emod _ _] => fail | _ =>
      let N := fresh "N" in assert (N : b <> 0) by non_zero;
      let q := fresh "q" in let r := fresh "r" in
      destruct (euclid a b N) as (q & r & ? & ? & ? & ? & ?);
      repeat match goal with
      | E : ediv a b = q |- _ => try rewrite E in *; clear E
      | E : emod a b = r |- _ => try rewrite E in *; clear E
      end
    end end in
  match goal with
  | |- context [ediv ?a ?b] => go a b
  | |- context [emod ?a ?b] => go a b
  | H : context [ediv ?a ?b] |- _ => go a b
  | H : context [emod ?a ?b] |- _ => go a b
  end.

Ltac euclid_all := repeat euclid_step.

(** A multiple of [c] smaller than [c] is zero. *)
Lemma small_multiple c d : Z.abs (c * d) < Z.abs c -> d = 0.
Proof. rewrite Z.abs_mul. nia. Qed.

(** An equation between quotients by [c], up to a multiple of [c]. *)
Ltac by_multiple :=
  match goal with
  | N : ?c <> 0 |- ?l = ?r =>
      cut (l - r = 0); [lia|]; apply (small_multiple c); lia
  end.

(** ** Simple quotients *)

Lemma ediv_1_r a : ediv a 1 = a.
Proof. unfold ediv. cbn. rewrite Z.div_1_r. now destruct a. Qed.
Lemma emod_1_r a : emod a 1 = 0.
Proof. apply Z.mod_1_r. Qed.
Lemma ediv_0_l a : ediv 0 a = 0.
Proof. unfold ediv. rewrite Zdiv_0_l. apply Z.mul_0_r. Qed.
Lemma emod_0_l a : emod 0 a = 0.
Proof. apply Zmod_0_l. Qed.
Lemma ediv_same a : a <> 0 -> ediv a a = 1.
Proof. intros. apply ediv_unique with 0; lia. Qed.
Lemma emod_same a : a <> 0 -> emod a a = 0.
Proof. intros. apply emod_unique with 1; lia. Qed.

Ltac trivial_quotients :=
  rewrite ?ediv_1_r, ?emod_1_r, ?ediv_0_l, ?emod_0_l;
  repeat match goal with
  | H : ?a <> 0 |- context [ediv ?a ?a] => rewrite (ediv_same a H)
  | H : ?a <> 0 |- context [emod ?a ?a] => rewrite (emod_same a H)
  end.

(** An intermediate lane of a ramp is between the first and the last one. *)
Lemma ramp_between a i m : 0 <= i <= m -> 0 <= i * a <= a * m \/ a * m <= i * a <= 0.
Proof. intros. destruct (Z.le_ge_cases 0 a); [left|right]; nia. Qed.

(** ** Congruence *)

Section Congruence.
Context (c : Z) (Hc : c <> 0).

Lemma emod_cong a b k : a = b + c * k -> emod a c = emod b c.
Proof.
  intros ->. pose proof (ediv_emod b c Hc). pose proof (emod_bound b c Hc).
  apply emod_unique with (ediv b c + k); lia.
Qed.

Lemma ediv_shift a b k : a = b + c * k -> ediv a c = ediv b c + k.
Proof.
  intros ->. pose proof (ediv_emod b c Hc). pose proof (emod_bound b c Hc).
  apply ediv_unique with (emod b c); lia.
Qed.

Lemma emod_0_mult a : emod a c = 0 -> a = c * ediv a c.
Proof. intros E. pose proof (ediv_emod a c Hc). lia. Qed.

Lemma emod_sub a : emod a c = a - c * ediv a c.
Proof. pose proof (ediv_emod a c Hc). lia. Qed.

Lemma emod_mul_emod x a : emod (x * emod a c) c = emod (x * a) c.
Proof. apply emod_cong with (- (x * ediv a c)). rewrite emod_sub. ring. Qed.

Lemma emod_add_emod x a : emod (x + emod a c) c = emod (x + a) c.
Proof. apply emod_cong with (- ediv a c). rewrite emod_sub. ring. Qed.

Lemma emod_ramp_mul x a i b :
  emod (x * emod a c + i * emod b c) c = emod (x * a + i * b) c.
Proof. apply emod_cong with (- (x * ediv a c) - i * ediv b c). rewrite !emod_sub. ring. Qed.

Lemma emod_ramp_add x a i b :
  emod (x + emod a c + i * emod b c) c = emod (x + a + i * b) c.
Proof. apply emod_cong with (- ediv a c - i * ediv b c). rewrite !emod_sub. ring. Qed.

Section Multiple.
Context (a : Z) (Ha : emod a c = 0).

Ltac drop k := symmetry; apply emod_cong with k; rewrite (emod_0_mult a Ha) at 1;
  rewrite ?emod_sub; ring.

Lemma emod_drop_add_l x y : emod y c = emod (x * a + y) c.
Proof. drop (x * ediv a c). Qed.
Lemma emod_drop_add_r x y : emod y c = emod (y + x * a) c.
Proof. drop (x * ediv a c). Qed.
Lemma emod_drop_sub_l x y : emod (0 - y) c = emod (x * a - y) c.
Proof. drop (x * ediv a c). Qed.
Lemma emod_drop_sub_r x y : emod y c = emod (y - x * a) c.
Proof. drop (- (x * ediv a c)). Qed.
Lemma emod_drop_ramp x i : emod x c = emod (x + i * a) c.
Proof. drop (i * ediv a c). Qed.
Lemma emod_drop_ramp_l x y i b : emod (y + i * emod b c) c = emod (x * a + y + i * b) c.
Proof. drop (x * ediv a c + i * ediv b c). Qed.
Lemma emod_drop_ramp_r x y i b : emod (y + i * emod b c) c = emod (y + x * a + i * b) c.
Proof. drop (x * ediv a c + i * ediv b c). Qed.
End Multiple.

(** A ramp whose first and last lane have the same quotient. *)
Lemma ramp_quotient x a i n :
  ediv (emod x c + a * (n - 1)) c = 0 -> 0 <= i <= n - 1 ->
  ediv x c = ediv (x + i * a) c /\ emod x c + i * a = emod (x + i * a) c.
Proof.
  intros Q Hi. pose proof (ediv_emod x c Hc). pose proof (emod_bound x c Hc).
  pose proof (emod_bound (emod x c + a * (n - 1)) c Hc) as B.
  rewrite (emod_sub (emod x c + a * (n - 1))), Q, Z.mul_0_r, Z.sub_0_r in B.
  assert (0 <= emod x c + i * a < Z.abs c)
    by (pose proof (ramp_between a i (n - 1) ltac:(lia)); lia).
  split; symmetry; [apply ediv_unique with (emod x c + i * a)
                   |apply emod_unique with (ediv x c)]; lia.
Qed.

Lemma ramp_ediv x a i n :
  ediv (emod x c + a * (n - 1)) c = 0 -> 0 <= i -> i <= n - 1 ->
  ediv x c = ediv (x + i * a) c.
Proof. intros Q ? ?. now destruct (ramp_quotient x a i n Q). Qed.

Lemma ramp_emod x a i n :
  ediv (emod x c + a * (n - 1)) c = 0 -> 0 <= i -> i <= n - 1 ->
  emod x c + i * a = emod (x + i * a) c.
Proof. intros Q ? ?. now destruct (ramp_quotient x a i n Q). Qed.
End Congruence.

#[export] Hint Resolve emod_mul_emod emod_add_emod emod_ramp_mul emod_ramp_add
  emod_drop_add_l emod_drop_add_r emod_drop_sub_l emod_drop_sub_r emod_drop_ramp
  emod_drop_ramp_l emod_drop_ramp_r : euclid.

(** The modulus of a multiple. *)
Lemma emod_mul_mul x a c : c <> 0 -> 0 < a -> emod c a = 0 ->
  emod x (ediv c a) * a = emod (x * a) c.
Proof.
  intros Hc Ha E. pose proof (emod_0_mult a ltac:(lia) c E) as M.
  revert M. generalize (ediv c a) as k. intros k ->. assert (k <> 0) as Hk by nia.
  pose proof (ediv_emod x k Hk). pose proof (emod_bound x k Hk).
  symmetry. apply emod_unique with (ediv x k); [assumption|nia|].
  rewrite Z.abs_mul. nia.
Qed.

(** Rounding up to a multiple of [c]. *)
Lemma round_up_sub x a c : 0 < c -> a + 1 = c -> emod (0 - x) c = ediv (x + a) c * c - x.
Proof.
  intros Hc Ha. pose proof (ediv_emod (x + a) c ltac:(lia)).
  pose proof (emod_bound (x + a) c ltac:(lia)).
  apply emod_unique with (- ediv (x + a) c); lia.
Qed.

(** Differences of quotients by the same divisor (src/Simplify_Sub.cpp). *)
Section Differences.
Context (c : Z) (Hc : 0 < c).
Let Hc' : c <> 0. Proof. lia. Qed.

Lemma ediv_sub_add x y a :
  ediv (emod (x + emod a c) c + (y - a)) c = ediv (x + y) c - ediv (x + a) c.
Proof.
  rewrite (emod_add_emod c Hc'), (emod_sub c Hc').
  rewrite (ediv_shift c Hc' _ (x + y) (- ediv (x + a) c)) by ring. ring.
Qed.

Lemma ediv_sub_sub x y a :
  ediv (emod (x + emod a c) c - y - a) c = ediv (x - y) c - ediv (x + a) c.
Proof.
  rewrite (emod_add_emod c Hc'), (emod_sub c Hc').
  rewrite (ediv_shift c Hc' _ (x - y) (- ediv (x + a) c)) by ring. ring.
Qed.

(** The quotient of an opposite. *)
Lemma ediv_opp x : ediv (c - 1 - x) c = - ediv x c.
Proof.
  pose proof (ediv_emod x c Hc'). pose proof (emod_bound x c Hc').
  apply ediv_unique with (c - 1 - emod x c); lia.
Qed.

Lemma ediv_sub_add' x y a :
  ediv (c + a - 1 - y - emod (x + emod a c) c) c = ediv (x + a) c - ediv (x + y) c.
Proof.
  rewrite (emod_add_emod c Hc'), (emod_sub c Hc').
  rewrite (ediv_shift c Hc' _ (c - 1 - (x + y)) (ediv (x + a) c)) by ring.
  rewrite ediv_opp. ring.
Qed.

Lemma ediv_sub_sub' x y a :
  ediv (y + (c + a - 1) - emod (x + emod a c) c) c = ediv (x + a) c - ediv (x - y) c.
Proof.
  rewrite (emod_add_emod c Hc'), (emod_sub c Hc').
  rewrite (ediv_shift c Hc' _ (c - 1 - (x - y)) (ediv (x + a) c)) by ring.
  rewrite ediv_opp. ring.
Qed.
End Differences.

#[export] Hint Resolve emod_mul_mul round_up_sub ediv_sub_add ediv_sub_sub ediv_sub_add'
  ediv_sub_sub' : euclid.

(** Comparing a ramp of multiples with a multiple (src/Simplify_LT.cpp). *)
Lemma multiple_lt x p s z c : 0 < c -> 0 <= s < c -> (c * x + c * p + s <? z * c) = (x + p <? z).
Proof. intros. apply eq_true_iff_eq. rewrite !Z.ltb_lt. nia. Qed.

Section RampLT.
Context (x a b i d m z c : Z) (Hc : 0 < c) (Ha : emod a c = 0) (Hi : 0 <= i) (Hm : i <= m).
Let Hc' : c <> 0. Proof. lia. Qed.

Lemma ramp_lt : emod b c + d * m < c -> 0 <= emod b c + d * m ->
  b2z (x * ediv a c + ediv b c <? z) = b2z (x * a + b + i * d <? z * c).
Proof.
  intros U L. f_equal. pose proof (ramp_between d i m ltac:(lia)).
  pose proof (emod_bound b c Hc').
  rewrite <- (multiple_lt _ _ (emod b c + i * d) z c) by lia. f_equal.
  rewrite (emod_0_mult c Hc' a Ha) at 2. rewrite (emod_sub c Hc' b). ring.
Qed.

Lemma ramp_lt_0 : d * m < c -> 0 <= d * m ->
  b2z (x * ediv a c <? z) = b2z (x * a + i * d <? z * c).
Proof.
  intros U L. f_equal. pose proof (ramp_between d i m ltac:(lia)).
  rewrite <- (Z.add_0_r (x * ediv a c)), <- (multiple_lt _ _ (i * d) z c) by lia. f_equal.
  rewrite (emod_0_mult c Hc' a Ha) at 2. ring.
Qed.
End RampLT.

(** The hints with side conditions found in the context. *)
#[export] Hint Resolve ramp_ediv ramp_emod ramp_lt ramp_lt_0 : euclid.
