(* ===== verification/ModulusRemainder.v ===== *)
(** * The modulus/remainder domain

    [ModulusRemainder] of src/ModulusRemainder.h and its operators
    (src/ModulusRemainder.cpp): an abstract domain of congruence classes, with
    modulus zero standing for a single integer.  Each operator is proved to
    over-approximate the integer operation it stands for. *)

From Stdlib Require Import ZArith Lia Bool List Znumtheory.
From S2P Require Import Prelude.
From S2P Require Import IntArith.
Open Scope Z_scope.

Record ModulusRemainder := mkMR { modulus : Z; remainder : Z }.

(** The default constructor: no information. *)
Definition mr_top : ModulusRemainder := mkMR 1 0.

Definition mr_eqb (a b : ModulusRemainder) : bool :=
  (modulus a =? modulus b) && (remainder a =? remainder b).

(** Mod, with mod by zero the identity. *)
Definition mod0 (a m : Z) : Z := if m =? 0 then a else mod_imp a m.

Definition mr_add (a b : ModulusRemainder) : ModulusRemainder :=
  if add_would_overflow 64 (remainder a) (remainder b) then mkMR 1 0
  else
    let modulus := gcd (modulus a) (modulus b) in
    mkMR modulus (mod0 (remainder a + remainder b) modulus).

Definition mr_sub (a b : ModulusRemainder) : ModulusRemainder :=
  if sub_would_overflow 64 (remainder a) (remainder b) then mkMR 1 0
  else
    let modulus := gcd (modulus a) (modulus b) in
    mkMR modulus (mod0 (remainder a - remainder b) modulus).

Definition mr_mul (a b : ModulusRemainder) : ModulusRemainder :=
  if modulus a =? 0 then
    if negb (mul_would_overflow 64 (remainder a) (modulus b)) &&
       negb (mul_would_overflow 64 (remainder a) (remainder b))
    then mkMR (remainder a * modulus b) (remainder a * remainder b)
    else mr_top
  else if modulus b =? 0 then
    if negb (mul_would_overflow 64 (remainder b) (modulus a)) &&
       negb (mul_would_overflow 64 (remainder a) (remainder b))
    then mkMR (remainder b * modulus a) (remainder a * remainder b)
    else mr_top
  else if (remainder a =? 0) && (remainder b =? 0) then
    if negb (mul_would_overflow 64 (modulus a) (modulus b))
    then mkMR (modulus a * modulus b) 0
    else mr_top
  else if remainder a =? 0 then
    let g := gcd (modulus b) (remainder b) in
    if negb (mul_would_overflow 64 (modulus a) g) then mkMR (modulus a * g) 0 else mr_top
  else if remainder b =? 0 then
    let g := gcd (modulus a) (remainder a) in
    if negb (mul_would_overflow 64 (modulus b) g) then mkMR (modulus b * g) 0 else mr_top
  else if negb (mul_would_overflow 64 (remainder a) (remainder b)) then
    let modulus := gcd (modulus a) (modulus b) in
    mkMR modulus (mod0 (remainder a * remainder b) modulus)
  else mr_top.

Definition mr_div (a b : ModulusRemainder) : ModulusRemainder :=
  if (modulus b =? 0) && negb (remainder b =? 0) then
    if mod0 (modulus a) (remainder b) =? 0
    then mkMR (Z.quot (modulus a) (remainder b)) (div_imp (remainder a) (remainder b))
    else mr_top
  else mr_top.

Definition mr_mod (a b : ModulusRemainder) : ModulusRemainder :=
  let m := gcd (modulus a) (modulus b) in
  let m := gcd m (remainder b) in
  mkMR m (mod0 (remainder a) m).

(** [unify] first orders its arguments by remainder. *)
Definition unify_ordered (a b : ModulusRemainder) : ModulusRemainder :=
  let m := gcd (modulus a) (modulus b) in
  if sub_would_overflow 64 (remainder a) (remainder b) then mkMR 0 1
  else
    let diff := remainder a - remainder b in
    let m := gcd diff m in
    mkMR m (mod0 (remainder a) m).

Definition unify (a b : ModulusRemainder) : ModulusRemainder :=
  if remainder a <? remainder b then unify_ordered b a else unify_ordered a b.

Definition intersect (a b : ModulusRemainder) : ModulusRemainder :=
  if modulus a =? 0 then a
  else if modulus b =? 0 then b
  else if modulus b <? modulus a then a
  else b.

(** ** Concretization *)

(** The integers a [ModulusRemainder] describes. *)
Definition mr_contains (a : ModulusRemainder) (v : Z) : Prop :=
  (modulus a | v - remainder a).

Notation "v ∈ᵐ a" := (mr_contains a v) (at level 70, no associativity).

Definition mr_in_i64 (a : ModulusRemainder) : Prop :=
  in_int 64 (modulus a) /\ in_int 64 (remainder a).

Lemma mr_contains_const c v : v ∈ᵐ mkMR 0 c <-> v = c.
Proof.
  unfold mr_contains; cbn. split.
  - intros [k E]. lia.
  - intros ->. exists 0. lia.
Qed.

Lemma mr_contains_top v : v ∈ᵐ mr_top.
Proof. apply Z.divide_1_l. Qed.

#[export] Hint Resolve mr_contains_top : halide.

Lemma mod0_cong a m : (m | a - mod0 a m).
Proof.
  unfold mod0. destruct (Z.eqb_spec m 0) as [->|Hm].
  - rewrite Z.sub_diag. apply Z.divide_0_r.
  - rewrite mod_imp_eq by assumption. exists (ediv a m).
    pose proof (ediv_emod a m Hm). lia.
Qed.

(** Reducing the remainder modulo the modulus changes nothing. *)
Lemma mr_contains_reduce m r v : v ∈ᵐ mkMR m (mod0 r m) <-> (m | v - r).
Proof.
  unfold mr_contains; cbn. pose proof (mod0_cong r m) as D.
  split; intros H.
  - replace (v - r) with ((v - mod0 r m) - (r - mod0 r m)) by lia. now apply Z.divide_sub_r.
  - replace (v - mod0 r m) with ((v - r) + (r - mod0 r m)) by lia. now apply Z.divide_add_r.
Qed.

Lemma mr_weaken m a v : (m | modulus a) -> v ∈ᵐ a -> (m | v - remainder a).
Proof. intros. eapply Z.divide_trans; eassumption. Qed.

(** ** Soundness of the operators *)

Theorem mr_add_sound a b x y : x ∈ᵐ a -> y ∈ᵐ b -> (x + y) ∈ᵐ mr_add a b.
Proof.
  intros Ha Hb. unfold mr_add. destruct (add_would_overflow _ _ _); [apply mr_contains_top|].
  apply mr_contains_reduce.
  replace (x + y - (remainder a + remainder b))
    with ((x - remainder a) + (y - remainder b)) by lia.
  apply Z.divide_add_r; eapply mr_weaken; eauto with halide.
Qed.

Theorem mr_sub_sound a b x y : x ∈ᵐ a -> y ∈ᵐ b -> (x - y) ∈ᵐ mr_sub a b.
Proof.
  intros Ha Hb. unfold mr_sub. destruct (sub_would_overflow _ _ _); [apply mr_contains_top|].
  apply mr_contains_reduce.
  replace (x - y - (remainder a - remainder b))
    with ((x - remainder a) - (y - remainder b)) by lia.
  apply Z.divide_sub_r; eapply mr_weaken; eauto with halide.
Qed.

Lemma mr_mul_sound a b x y : x ∈ᵐ a -> y ∈ᵐ b -> (x * y) ∈ᵐ mr_mul a b.
Proof.
  unfold mr_contains. intros Ha Hb. unfold mr_mul.
  destruct (Z.eqb_spec (modulus a) 0) as [Ea|Ea].
  { destruct (_ && _); [|apply mr_contains_top]. cbn.
    rewrite Ea in Ha. destruct Ha as [k Ha], Hb as [l Hb]. exists l.
    replace x with (remainder a) by lia. nia. }
  destruct (Z.eqb_spec (modulus b) 0) as [Eb|Eb].
  { destruct (_ && _); [|apply mr_contains_top]. cbn.
    rewrite Eb in Hb. destruct Ha as [k Ha], Hb as [l Hb]. exists k.
    replace y with (remainder b) by lia. nia. }
  destruct Ha as [k Ha], Hb as [l Hb].
  destruct (Z.eqb_spec (remainder a) 0) as [Ra|Ra], (Z.eqb_spec (remainder b) 0) as [Rb|Rb];
    cbn [andb]; (destruct (negb _); [|apply mr_contains_top]); cbn [modulus remainder].
  - exists (k * l). nia.
  - destruct (gcd_divide_l (modulus b) (remainder b)) as [p P].
    destruct (gcd_divide_r (modulus b) (remainder b)) as [q Q].
    exists (k * (l * p + q)). replace y with (l * modulus b + remainder b) by lia.
    rewrite P at 1. rewrite Q at 2. nia.
  - destruct (gcd_divide_l (modulus a) (remainder a)) as [p P].
    destruct (gcd_divide_r (modulus a) (remainder a)) as [q Q].
    exists (l * (k * p + q)). replace x with (k * modulus a + remainder a) by lia.
    rewrite P at 1. rewrite Q at 2. nia.
  - apply mr_contains_reduce.
    destruct (gcd_divide_l (modulus a) (modulus b)) as [p P].
    destruct (gcd_divide_r (modulus a) (modulus b)) as [q Q].
    set (g := gcd (modulus a) (modulus b)) in *.
    exists (k * p * y + remainder a * l * q).
    replace x with (k * modulus a + remainder a) by lia.
    replace (remainder a * remainder b) with (remainder a * (y - l * modulus b)) by (f_equal; lia).
    rewrite P, Q. ring.
Qed.

Lemma mod0_eq0_divide m c : c <> 0 -> mod0 m c = 0 -> exists k, m = k * c.
Proof.
  intros Hc H. pose proof (mod0_cong m c) as [k D]. exists k. lia.
Qed.

(** Pulling a multiple of the divisor out of a Euclidean division. *)
Lemma ediv_add_mul c k r : c <> 0 -> ediv (k * c + r) c = k + ediv r c.
Proof.
  intros Hc. apply ediv_unique with (emod r c); [assumption| |now apply emod_bound].
  pose proof (ediv_emod r c Hc). lia.
Qed.

Theorem mr_div_sound a b x y :
  in_int 64 (remainder b) -> y <> 0 -> x ∈ᵐ a -> y ∈ᵐ b -> ediv x y ∈ᵐ mr_div a b.
Proof.
  intros Hb Hy Ha Hyb. unfold mr_div.
  destruct (Z.eqb_spec (modulus b) 0) as [Eb|_]; cbn [andb]; [|apply mr_contains_top].
  destruct (Z.eqb_spec (remainder b) 0) as [|Hc]; cbn [negb]; [apply mr_contains_top|].
  destruct (Z.eqb_spec (mod0 (modulus a) (remainder b)) 0) as [E|_]; [|apply mr_contains_top].
  destruct b as [mb c]; cbn in *. subst mb. apply mr_contains_const in Hyb. subst y.
  destruct (mod0_eq0_divide _ _ Hc E) as [k Ek]. destruct Ha as [l Hl].
  unfold mr_contains; cbn. rewrite Ek, Z.quot_mul, div_imp_eq by assumption.
  replace x with ((l * k) * c + remainder a) by nia.
  rewrite ediv_add_mul by assumption. exists l. lia.
Qed.

Theorem mr_mod_sound a b x y :
  y <> 0 -> x ∈ᵐ a -> y ∈ᵐ b -> emod x y ∈ᵐ mr_mod a b.
Proof.
  intros Hy Ha Hb. unfold mr_mod. apply mr_contains_reduce.
  set (g := gcd (modulus a) (modulus b)). set (h := gcd g (remainder b)).
  assert (h | g) as Hg by apply gcd_divide_l.
  assert (h | x - remainder a) as Hx.
  { eapply mr_weaken; [|exact Ha]. eapply Z.divide_trans; [exact Hg|apply gcd_divide_l]. }
  assert (h | y) as Hy'.
  { replace y with ((y - remainder b) + remainder b) by lia. apply Z.divide_add_r.
    - eapply mr_weaken; [|exact Hb]. eapply Z.divide_trans; [exact Hg|apply gcd_divide_r].
    - apply gcd_divide_r. }
  pose proof (ediv_emod x y Hy).
  replace (emod x y - remainder a) with ((x - remainder a) - y * ediv x y) by lia.
  apply Z.divide_sub_r; [assumption|]. now apply Z.divide_mul_l.
Qed.

Lemma unify_ordered_sound a b v :
  sub_would_overflow 64 (remainder a) (remainder b) = false ->
  v ∈ᵐ a \/ v ∈ᵐ b -> v ∈ᵐ unify_ordered a b.
Proof.
  intros Ho H. unfold unify_ordered. rewrite Ho. apply mr_contains_reduce.
  set (g := gcd (modulus a) (modulus b)). set (d := remainder a - remainder b).
  assert (gcd d g | g) as Hg by apply gcd_divide_r.
  destruct H as [H|H].
  - eapply mr_weaken; [|exact H]. eapply Z.divide_trans; [exact Hg|apply gcd_divide_l].
  - replace (v - remainder a) with ((v - remainder b) - d) by lia.
    apply Z.divide_sub_r; [|apply gcd_divide_l].
    eapply mr_weaken; [|exact H]. eapply Z.divide_trans; [exact Hg|apply gcd_divide_r].
Qed.

(** The remainders are far enough from the 64-bit limits to be subtracted. *)
Definition unify_safe (a b : ModulusRemainder) : Prop :=
  in_int 64 (remainder a) /\ in_int 64 (remainder b) /\
  in_int 64 (Z.abs (remainder a - remainder b)).

Lemma sub_would_overflow_false a b :
  in_int 64 a -> in_int 64 b -> in_int 64 (a - b) -> sub_would_overflow 64 a b = false.
Proof.
  intros Ha Hb H. apply not_true_iff_false.
  rewrite (sub_would_overflow_spec 64 ltac:(lia) a b Ha Hb). tauto.
Qed.

Theorem unify_sound a b v :
  unify_safe a b -> v ∈ᵐ a \/ v ∈ᵐ b -> v ∈ᵐ unify a b.
Proof.
  intros (Ha & Hb & Hd) H. unfold unify.
  destruct (Z.ltb_spec (remainder a) (remainder b));
    (apply unify_ordered_sound; [|tauto]);
    apply sub_would_overflow_false; auto; unfold in_int in *; lia.
Qed.

Theorem intersect_sound a b v : v ∈ᵐ a -> v ∈ᵐ b -> v ∈ᵐ intersect a b.
Proof. intros. unfold intersect. repeat case_goal; assumption. Qed.

(** ** Reduced remainders *)

(** Zero is described only when the remainder is literally zero: what the
    tests [alignment.remainder != 0] of the simplifier read off. *)
Definition mr_reduced (a : ModulusRemainder) : Prop :=
  (modulus a | remainder a) -> remainder a = 0.

Lemma mr_reduced_nonzero a v : mr_reduced a -> remainder a <> 0 -> v ∈ᵐ a -> v <> 0.
Proof.
  unfold mr_reduced, mr_contains. intros R N H ->. apply N, R.
  apply Z.divide_opp_r. now replace (- remainder a) with (0 - remainder a) by lia.
Qed.

Lemma mod0_reduced m r : mr_reduced (mkMR m (mod0 r m)).
Proof.
  unfold mr_reduced, mod0; cbn. destruct (Z.eqb_spec m 0) as [->|Hm].
  - intros [k E]. lia.
  - rewrite mod_imp_eq by assumption. pose proof (emod_bound r m Hm).
    intros [k E]. destruct (Z.eq_dec k 0) as [->|]; nia.
Qed.

Lemma mr_top_reduced : mr_reduced mr_top.
Proof. intros _. reflexivity. Qed.

#[export] Hint Resolve mod0_reduced mr_top_reduced : halide.

Lemma mr_add_reduced a b : mr_reduced (mr_add a b).
Proof. unfold mr_add. case_goal; auto with halide. Qed.

Lemma mr_sub_reduced a b : mr_reduced (mr_sub a b).
Proof. unfold mr_sub. case_goal; auto with halide. Qed.

Lemma mr_mod_reduced a b : mr_reduced (mr_mod a b).
Proof. unfold mr_mod. auto with halide. Qed.

Lemma unify_reduced a b : mr_reduced (unify a b).
Proof.
  unfold unify, unify_ordered. repeat case_goal; auto with halide; intros [k E]; cbn in *; lia.
Qed.

Lemma mr_const_scale_reduced c m r :
  mr_reduced (mkMR m r) -> mr_reduced (mkMR (c * m) (c * r)).
Proof.
  unfold mr_reduced; cbn. intros H [k E].
  destruct (Z.eq_dec c 0) as [->|Hc]; [lia|].
  rewrite H; [lia|]. exists k. apply Z.mul_reg_l with c; [assumption|]. lia.
Qed.

Lemma mr_mul_reduced a b : mr_reduced a -> mr_reduced b -> mr_reduced (mr_mul a b).
Proof.
  intros Ha Hb. unfold mr_mul.
  repeat case_goal; auto with halide; try (intros _; reflexivity).
  - now apply mr_const_scale_reduced.
  - rewrite (Z.mul_comm (remainder a)). now apply mr_const_scale_reduced.
Qed.

(** ** The domain as a whole *)

(** C30: Every operator of the domain over-approximates
    the integer operation it stands for; the divisions are Euclidean. *)
Theorem mr_operators_sound a b x y : x ∈ᵐ a -> y ∈ᵐ b ->
  (x + y) ∈ᵐ mr_add a b /\ (x - y) ∈ᵐ mr_sub a b /\ (x * y) ∈ᵐ mr_mul a b /\
  (y <> 0 -> in_int 64 (remainder b) -> ediv x y ∈ᵐ mr_div a b) /\
  (y <> 0 -> emod x y ∈ᵐ mr_mod a b).
Proof.
  intros A B. split; [now apply mr_add_sound|]. split; [now apply mr_sub_sound|].
  split; [now apply mr_mul_sound|]. split; intros; [now apply mr_div_sound|now apply mr_mod_sound].
Qed.

Lemma mr_operators_sound_witness : (11 * 6) ∈ᵐ mr_mul (mkMR 4 3) (mkMR 6 0).
Proof.
  apply (mr_operators_sound (mkMR 4 3) (mkMR 6 0) 11 6); [exists 2|exists 1]; reflexivity.
Defined.



(** When the remainders cannot be subtracted,
    [unify] answers modulus 0, remainder 1, the single integer 1, in place of
    the top element, modulus 1, remainder 0. *)
Theorem unify_overflow_unsound :
  let a := mkMR 0 (2 ^ 62) in let b := mkMR 0 (- 2 ^ 62 - 1) in
  mr_in_i64 a /\ mr_in_i64 b /\ unify a b = mkMR 0 1 /\ 2 ^ 62 ∈ᵐ a /\ ~ 2 ^ 62 ∈ᵐ unify a b.
Proof.
  cbv zeta. assert (E : unify (mkMR 0 (2 ^ 62)) (mkMR 0 (- 2 ^ 62 - 1)) = mkMR 0 1) by reflexivity.
  rewrite E, !mr_contains_const. repeat split; vm_compute; congruence.
Qed.

(** Division by negative constants leaves a remainder
    that is a non-zero multiple of the modulus: of [48 * k + 36], divided twice
    by [-4], it says remainder 3 modulo 3, though the result can be zero. *)
Theorem mr_div_unreduced :
  let a := mkMR 48 36 in let c := mkMR 0 (-4) in let q := mr_div (mr_div a c) c in
  mr_reduced a /\ q = mkMR 3 3 /\ ~ mr_reduced q /\
  -12 ∈ᵐ a /\ ediv (ediv (-12) (-4)) (-4) = 0 /\ 0 ∈ᵐ q.
Proof.
  cbv zeta. assert (E : mr_div (mr_div (mkMR 48 36) (mkMR 0 (-4))) (mkMR 0 (-4)) = mkMR 3 3) by reflexivity.
  rewrite E. split; [intros [k K]; cbn in *; lia|]. split; [reflexivity|].
  split; [intros H; specialize (H (Z.divide_refl 3)); discriminate H|].
  split; [exists (-1); reflexivity|]. split; [reflexivity|]. exists (-1). reflexivity.
Qed.
