(* ===== verification/Scope.v ===== *)
(** * Scopes

    [SmallStack], [Scope] and [ScopedBinding] of src/Scope.h: names mapped to
    stacks of values, with a containing scope that answers for the names the
    table does not have. *)

From Stdlib Require Import String.
From stdpp Require Import base option list gmap strings.

(** ** Stacks that store one item very efficiently *)

(** The vector [_rest] is kept with its last element first. *)
Record SmallStack (T : Type) := mkStack { _top : T; _rest : list T; _empty : bool }.
Arguments mkStack {T}.
Arguments _top {T}.
Arguments _rest {T}.
Arguments _empty {T}.

Section Stack.
Context {T : Type} `{Inhabited T}.

(** The default value of the type is [inhabitant]. *)
Definition new_stack : SmallStack T := mkStack inhabitant [] true.

Definition stack_pop (s : SmallStack T) : SmallStack T :=
  match _rest s with
  | [] => mkStack inhabitant [] true
  | t :: rest => mkStack t rest (_empty s)
  end.

Definition stack_push (s : SmallStack T) (t : T) : SmallStack T :=
  if _empty s then mkStack t (_rest s) false else mkStack t (_top s :: _rest s) false.

(** The items, from the top. *)
Definition items (s : SmallStack T) : list T := if _empty s then [] else _top s :: _rest s.

(** An empty stack holds nothing, not even in the vector. *)
Definition stack_ok (s : SmallStack T) : Prop := _empty s = true -> s = new_stack.

Lemma new_stack_ok : stack_ok new_stack.
Proof. done. Qed.

Lemma push_ok s t : stack_ok (stack_push s t).
Proof. unfold stack_push. by destruct (_empty s). Qed.

Lemma pop_ok s : stack_ok s -> stack_ok (stack_pop s).
Proof.
  destruct s as [t [|u r] []]; unfold stack_ok, stack_pop; cbn; try done.
  intros I. discriminate (I eq_refl).
Qed.

Lemma items_push s t : stack_ok s -> items (stack_push s t) = t :: items s.
Proof.
  destruct s as [u r []]; unfold stack_ok, stack_push, items; cbn; [|done].
  intros I. by injection (I eq_refl) as -> ->.
Qed.

Lemma items_pop s : stack_ok s -> items (stack_pop s) = tail (items s).
Proof.
  destruct s as [t [|u r] []]; unfold stack_ok, stack_pop, items; cbn; try done.
Qed.

Lemma pop_push s t : stack_ok s -> stack_pop (stack_push s t) = s.
Proof.
  destruct s as [u r []]; unfold stack_ok, stack_push, stack_pop; cbn; [|done].
  intros I. by injection (I eq_refl) as -> ->.
Qed.
End Stack.

(** ** Scopes *)

(** A scope and the scopes that contain it. *)
Inductive Scope (T : Type) := mkScope {
  table : gmap string (SmallStack T);
  containing_scope : option (Scope T)
}.
Arguments mkScope {T}.
Arguments table {T}.
Arguments containing_scope {T}.

Section Scope.
Context {T : Type} `{Inhabited T}.

Definition empty_scope : Scope T := mkScope ∅ None.

Definition set_containing_scope (s outer : Scope T) : Scope T := mkScope (table s) (Some outer).

(** [None] is the internal error of a name that is not in scope. *)
Fixpoint get (s : Scope T) (name : string) : option T :=
  let outer := match containing_scope s with Some s' => get s' name | None => None end in
  match table s !! name with
  | Some st => if _empty st then outer else Some (_top st)
  | None => outer
  end.

Fixpoint contains (s : Scope T) (name : string) : bool :=
  let outer := match containing_scope s with Some s' => contains s' name | None => false end in
  match table s !! name with
  | Some st => if _empty st then outer else true
  | None => outer
  end.

(** [ref] does not consider the containing scope. *)
Definition ref (s : Scope T) (name : string) : option T :=
  match table s !! name with
  | Some st => if _empty st then None else Some (_top st)
  | None => None
  end.

(** A change of the entry [ref] refers to. *)
Definition modify (s : Scope T) (name : string) (f : T -> T) : option (Scope T) :=
  match table s !! name with
  | Some st =>
      if _empty st then None
      else Some (mkScope (<[name := mkStack (f (_top st)) (_rest st) (_empty st)]> (table s)) (containing_scope s))
  | None => None
  end.

(** [table[name]] makes an empty stack where there is none. *)
Definition push (s : Scope T) (name : string) (value : T) : Scope T :=
  let st := default new_stack (table s !! name) in
  mkScope (<[name := stack_push st value]> (table s)) (containing_scope s).

(** [None] is the internal error of a name that is not in the table. *)
Definition pop (s : Scope T) (name : string) : option (Scope T) :=
  match table s !! name with
  | None => None
  | Some st =>
      let st' := stack_pop st in
      Some (mkScope (if _empty st' then delete name (table s) else <[name := st']> (table s))
                    (containing_scope s))
  end.

(** Code that holds a scope it may change; [None] is an internal error. *)
Definition ScopeM (A : Type) : Type := Scope T -> option (A * Scope T).

Definition scope_ret {A} (a : A) : ScopeM A := fun s => Some (a, s).
Definition scope_error {A} : ScopeM A := fun _ => None.
Definition scope_bind {A B} (m : ScopeM A) (k : A -> ScopeM B) : ScopeM B := fun s =>
  match m s with Some (a, s') => k a s' | None => None end.

Definition scope_map {A B} (f : A -> B) (a : ScopeM A) : ScopeM B :=
  scope_bind a (fun x => scope_ret (f x)).
Definition scope_map2 {A B C} (f : A -> B -> C) (a : ScopeM A) (b : ScopeM B) : ScopeM C :=
  scope_bind a (fun x => scope_map (f x) b).
Definition scope_map3 {A B C D} (f : A -> B -> C -> D) (a : ScopeM A) (b : ScopeM B) (c : ScopeM C)
  : ScopeM D := scope_bind a (fun x => scope_map2 (f x) b c).

Definition scope_mapM {A B} (f : A -> ScopeM B) : list A -> ScopeM (list B) :=
  fix go l := match l with
    | [] => scope_ret []
    | a :: l' => scope_map2 cons (f a) (go l')
    end.

(** What a [ScopedBinding], or a push paired with a pop, does around the code
    of its lifetime. *)
Definition scoped {A} (name : string) (value : T) (body : ScopeM A) : ScopeM A := fun s =>
  match body (push s name value) with
  | Some (a, s') => match pop s' name with Some s'' => Some (a, s'') | None => None end
  | None => None
  end.

(** No entry of a table is an empty stack. *)
Definition table_ok (m : gmap string (SmallStack T)) : Prop :=
  map_Forall (fun _ st => _empty st = false) m.

Definition scope_ok (s : Scope T) : Prop := table_ok (table s).

Lemma empty_scope_ok : scope_ok empty_scope.
Proof. apply map_Forall_empty. Qed.

Lemma default_stack_ok s name : scope_ok s -> stack_ok (default new_stack (table s !! name)).
Proof.
  intros O. destruct (table s !! name) as [st|] eqn:E; cbn; [|apply new_stack_ok].
  intros Em. pose proof (O name st E). congruence.
Qed.

Lemma push_scope_ok s name v : scope_ok s -> scope_ok (push s name v).
Proof.
  intros O. apply map_Forall_insert_2; [|exact O]. cbn. unfold stack_push. by case_match.
Qed.

Lemma pop_scope_ok s s' name : scope_ok s -> pop s name = Some s' -> scope_ok s'.
Proof.
  unfold pop. intros O. destruct (table s !! name) as [st|] eqn:E; [|done].
  intros [= <-]. destruct (_empty (stack_pop st)) eqn:P.
  - by apply map_Forall_delete.
  - apply map_Forall_insert_2; [exact P|exact O].
Qed.

Lemma pop_push_scope s name v : scope_ok s -> pop (push s name v) name = Some s.
Proof.
  intros O. unfold pop, push. cbn. rewrite lookup_insert_eq.
  rewrite pop_push by (by apply default_stack_ok). destruct s as [m c]; cbn in *.
  destruct (m !! name) as [st|] eqn:E; cbn.
  - rewrite (O name st E). by rewrite insert_insert_eq, insert_id.
  - by rewrite delete_insert_id.
Qed.

Lemma get_ref s n v : ref s n = Some v -> get s n = Some v.
Proof.
  unfold ref. destruct s as [m c]; cbn. destruct (m !! n) as [st|]; [|done]. by destruct (_empty st).
Qed.

Lemma ref_get s n : containing_scope s = None -> ref s n = get s n.
Proof. destruct s as [m c]; cbn. by intros ->. Qed.

Lemma modify_none s n f : ref s n = None -> modify s n f = None.
Proof. unfold ref, modify. destruct (table s !! n) as [st|]; [|done]. by destruct (_empty st). Qed.

Lemma modify_some s n f v : ref s n = Some v -> exists s', modify s n f = Some s' /\
  get s' n = Some (f v) /\ (forall k, k <> n -> get s' k = get s k).
Proof.
  unfold ref, modify. destruct s as [m c]. cbn [table containing_scope].
  destruct (m !! n) as [st|] eqn:E; [|done]. destruct (_empty st) eqn:Em; [done|]. intros [= <-].
  eexists. split; [done|]. split.
  - cbn. by rewrite lookup_insert_eq.
  - intros k N. destruct c; cbn; by rewrite lookup_insert_ne.
Qed.

(** Pops commute with pushes of other names. *)
Lemma pop_push_other s n m v s' : n <> m -> pop s m = Some s' -> pop (push s n v) m = Some (push s' n v).
Proof.
  unfold pop, push. cbn. intros N. rewrite lookup_insert_ne by exact N.
  destruct (table s !! m) as [st|]; [|done]. intros [= <-]. cbn. f_equal. f_equal.
  case_match.
  - rewrite lookup_delete_ne by congruence. by rewrite delete_insert_ne.
  - rewrite lookup_insert_ne by congruence. by rewrite insert_insert_ne.
Qed.

Lemma get_push s name v : get (push s name v) name = Some v.
Proof.
  unfold push. cbn. rewrite lookup_insert_eq. unfold stack_push.
  by destruct (_empty (default new_stack (table s !! name))).
Qed.

Lemma get_push_ne s name v n : n <> name -> get (push s name v) n = get s n.
Proof. intros N. unfold push. destruct s as [m [c|]]; cbn; by rewrite lookup_insert_ne. Qed.

Lemma contains_get s n : contains s n = true <-> is_Some (get s n).
Proof.
  revert s. fix IH 1. intros [m outer]; cbn.
  assert (O : match outer with Some c => contains c n | None => false end = true <->
              is_Some (match outer with Some c => get c n | None => None end)).
  { destruct outer as [c|]; [apply IH|]. split; [done|by intros []]. }
  destruct (m !! n) as [st|]; [|exact O]. destruct (_empty st); [exact O|done].
Qed.

(** What iterating over a scope visits: the names of its table with their values. *)
Definition entries (s : Scope T) : list (string * T) :=
  omap (fun p => if _empty (snd p) then None else Some (fst p, _top (snd p))) (map_to_list (table s)).

Lemma entries_ref s n v : In (n, v) (entries s) -> ref s n = Some v.
Proof.
  unfold entries. rewrite <- list_elem_of_In, list_elem_of_omap. intros ([m st] & M & E).
  apply elem_of_map_to_list in M. cbn in E. destruct (_empty st) eqn:Em; [done|]. injection E as -> <-.
  unfold ref. by rewrite M, Em.
Qed.
End Scope.

(** ** A scope seen through a function on its values *)

Definition map_stack {A B} (f : A -> B) (s : SmallStack A) : SmallStack B :=
  mkStack (f (_top s)) (map f (_rest s)) (_empty s).

Fixpoint map_scope {A B} (f : A -> B) (s : Scope A) : Scope B :=
  mkScope (map_stack f <$> table s)
    (match containing_scope s with Some o => Some (map_scope f o) | None => None end).

Section MapScope.
Context {A B : Type} `{Inhabited A} `{Inhabited B} (f : A -> B) (F : f inhabitant = inhabitant).

Lemma map_stack_default s n :
  default new_stack ((map_stack f <$> table s) !! n) = map_stack f (default new_stack (table s !! n)).
Proof.
  rewrite lookup_fmap. destruct (table s !! n) as [st|]; cbn; [done|]. unfold map_stack, new_stack. cbn. by rewrite F.
Qed.

Lemma map_push s n v : map_scope f (push s n v) = push (map_scope f s) n (f v).
Proof.
  destruct s as [m o]. unfold push. cbn. f_equal. rewrite fmap_insert. f_equal.
  pose proof (map_stack_default (mkScope m o) n) as D. cbn in D. rewrite D.
  unfold stack_push, map_stack. cbn. by destruct (_empty _).
Qed.

Lemma map_pop s n : pop (map_scope f s) n = map_scope f <$> pop s n.
Proof.
  destruct s as [m o]. unfold pop. cbn. rewrite lookup_fmap. destruct (m !! n) as [st|]; cbn; [|done].
  assert (P : stack_pop (map_stack f st) = map_stack f (stack_pop st)).
  { unfold stack_pop, map_stack. cbn. destruct (_rest st); cbn; [|done]. by rewrite F. }
  rewrite P. do 2 f_equal. cbn. destruct (_empty (stack_pop st)); [by rewrite fmap_delete|by rewrite fmap_insert].
Qed.

Lemma map_get s : forall n, get (map_scope f s) n = f <$> get s n.
Proof.
  revert s. fix IH 1. intros [m o] n. cbn. rewrite lookup_fmap.
  assert (O : match (match o with Some c => Some (map_scope f c) | None => None end) with
              | Some c => get c n | None => None end =
              f <$> match o with Some c => get c n | None => None end).
  { destruct o as [c|]; [apply IH|done]. }
  destruct (m !! n) as [st|]; cbn; [|exact O]. by destruct (_empty st).
Qed.

Lemma map_contains s n : contains (map_scope f s) n = contains s n.
Proof.
  apply eq_true_iff_eq. rewrite !contains_get, map_get. by rewrite fmap_is_Some.
Qed.

Lemma map_scope_ok s : scope_ok (map_scope f s) <-> scope_ok s.
Proof.
  destruct s as [m o]. unfold scope_ok, table_ok. cbn. split.
  - intros O n st L. apply (O n (map_stack f st)). by rewrite lookup_fmap, L.
  - intros O n st L. rewrite lookup_fmap in L. destruct (m !! n) as [s0|] eqn:E; [|done].
    cbn in L. injection L as <-. cbn. by apply (O n s0).
Qed.

(** A change that [f] does not see. *)
Lemma map_modify s n g s' : (forall v, f (g v) = f v) -> modify s n g = Some s' ->
  map_scope f s' = map_scope f s.
Proof.
  destruct s as [m o]. unfold modify. cbn. intros G. destruct (m !! n) as [st|] eqn:E; [|done].
  destruct (_empty st) eqn:Em; [done|]. intros [= <-]. cbn. f_equal. rewrite fmap_insert.
  apply insert_id. rewrite lookup_fmap, E. cbn. unfold map_stack. cbn. by rewrite G, Em.
Qed.

(** After a push and changes [f] does not see, a pop leads back. *)
Lemma map_pop_back s n v s' : scope_ok s -> map_scope f s' = map_scope f (push s n v) ->
  exists w s'', get s' n = Some w /\ f w = f v /\ pop s' n = Some s'' /\ map_scope f s'' = map_scope f s.
Proof.
  intros O E. rewrite map_push in E.
  assert (G : f <$> get s' n = Some (f v)) by (rewrite <- map_get, E; apply get_push).
  assert (P : map_scope f <$> pop s' n = Some (map_scope f s)).
  { rewrite <- map_pop, E. apply pop_push_scope. by apply map_scope_ok. }
  destruct (get s' n) as [w|]; [|done]. destruct (pop s' n) as [s''|]; [|done].
  cbn in G, P. injection G as G. injection P as P. by exists w, s''.
Qed.
End MapScope.

(** ** Code that leaves the scope as it found it *)

Section Restores.
Context {T : Type} `{Inhabited T}.

Definition restores {A} (m : ScopeM (T := T) A) : Prop :=
  forall s a s', scope_ok s -> m s = Some (a, s') -> s' = s.

Lemma restores_ret {A} (a : A) : restores (scope_ret a).
Proof. by intros s b s' _ [= _ <-]. Qed.

Lemma restores_error {A} : restores (@scope_error T A).
Proof. by intros s b s' _ [=]. Qed.

Lemma restores_bind {A B} (m : ScopeM A) (k : A -> ScopeM B) :
  restores m -> (forall a, restores (k a)) -> restores (scope_bind m k).
Proof.
  intros M K s b s' O. unfold scope_bind. destruct (m s) as [[a s1]|] eqn:E; [|done].
  pose proof (M s a s1 O E) as ->. by apply K.
Qed.

Lemma restores_map {A B} (f : A -> B) a : restores a -> restores (scope_map f a).
Proof. intros R. apply restores_bind; auto using @restores_ret. Qed.

Lemma restores_map2 {A B C} (f : A -> B -> C) a b :
  restores a -> restores b -> restores (scope_map2 f a b).
Proof. intros Ra Rb. apply restores_bind; auto using @restores_map. Qed.

Lemma restores_map3 {A B C D} (f : A -> B -> C -> D) a b c :
  restores a -> restores b -> restores c -> restores (scope_map3 f a b c).
Proof. intros Ra Rb Rc. apply restores_bind; auto using @restores_map2. Qed.

Lemma restores_scoped {A} n v (body : ScopeM A) : restores body -> restores (scoped n v body).
Proof.
  intros R s a s' O. unfold scoped. destruct (body (push s n v)) as [[b s1]|] eqn:E; [|done].
  pose proof (R _ _ _ (push_scope_ok s n v O) E) as ->.
  rewrite pop_push_scope by exact O. by intros [= _ <-].
Qed.

Lemma scope_map2_some {A B C} (f : A -> B -> C) ma mb s c s' : restores ma -> restores mb ->
  scope_ok s -> scope_map2 f ma mb s = Some (c, s') ->
  exists a b, ma s = Some (a, s) /\ mb s = Some (b, s) /\ c = f a b.
Proof.
  intros Ra Rb O. unfold scope_map2, scope_map, scope_bind, scope_ret.
  destruct (ma s) as [[a s1]|] eqn:Ea; [|done]. pose proof (Ra s a s1 O Ea) as ->.
  destruct (mb s) as [[b s2]|] eqn:Eb; [|done]. pose proof (Rb s b s2 O Eb) as ->.
  intros [= <- _]. eauto.
Qed.
End Restores.

(** ** Theorems *)

(** C37: A binding hides the earlier values of its name
    and no other name; leaving it restores the scope; [get] succeeds on the
    names that are contained, and no table entry is ever an empty stack. *)
Theorem scope_binding_correct {T} `{Inhabited T} (s : Scope T) n (v : T) : scope_ok s ->
  scope_ok (push s n v) /\
  get (push s n v) n = Some v /\ (forall m, m <> n -> get (push s n v) m = get s m) /\
  pop (push s n v) n = Some s /\
  (forall m, contains s m = true <-> is_Some (get s m)) /\
  (forall m s', pop s m = Some s' -> scope_ok s').
Proof.
  intros O. split_and!; auto using push_scope_ok, get_push, pop_push_scope, contains_get.
  - intros m N. by apply get_push_ne.
  - intros m s'. by apply pop_scope_ok.
Qed.

Lemma scope_binding_correct_witness :
  let s := push (push (empty_scope (T := nat)) "x" 1) "x" 2 in
  get s "x" = Some 2 /\ pop s "x" = Some (push empty_scope "x" 1).
Proof.
  destruct (scope_binding_correct (push (empty_scope (T := nat)) "x" 1) "x" 2)
    as (_ & G & _ & P & _); [apply push_scope_ok, empty_scope_ok|]. by split.
Defined.
