(* ===== verification/HalideTypes.v ===== *)
(** * Halide's types

    [halide_type_t] and [Type] of src/Type.h, and the range and
    representability queries of src/Type.cpp. *)

From Stdlib Require Import ZArith Lia Bool List SpecFloat.
From S2P Require Import Prelude.
From S2P Require Import IntArith.
Open Scope Z_scope.

Inductive TypeCode := CInt | CUInt | CFloat | CHandle.

(** The pointer to the C++ type of a handle is not represented. *)
Record HType := mkT { code : TypeCode; bits : Z; lanes : Z }.

Definition Int (bits lanes : Z) : HType := mkT CInt bits lanes.
Definition UInt (bits lanes : Z) : HType := mkT CUInt bits lanes.
Definition Float (bits lanes : Z) : HType := mkT CFloat bits lanes.
Definition BoolT (lanes : Z) : HType := UInt 1 lanes.
Definition Handle (lanes : Z) : HType := mkT CHandle 64 lanes.

(** The default constructor of [halide_type_t]. *)
Definition no_type : HType := mkT CInt 0 0.

Definition code_eqb (a b : TypeCode) : bool :=
  match a, b with
  | CInt, CInt | CUInt, CUInt | CFloat, CFloat | CHandle, CHandle => true
  | _, _ => false
  end.

Definition is_bool (t : HType) : bool := code_eqb (code t) CUInt && (bits t =? 1).
Definition is_vector (t : HType) : bool := negb (lanes t =? 1).
Definition is_scalar (t : HType) : bool := lanes t =? 1.
Definition is_float (t : HType) : bool := code_eqb (code t) CFloat.
Definition is_int (t : HType) : bool := code_eqb (code t) CInt.
Definition is_uint (t : HType) : bool := code_eqb (code t) CUInt.
Definition is_handle (t : HType) : bool := code_eqb (code t) CHandle.

Definition with_lanes (t : HType) (n : Z) : HType := mkT (code t) (bits t) n.
Definition element_of (t : HType) : HType := with_lanes t 1.

Definition type_eqb (a b : HType) : bool :=
  code_eqb (code a) (code b) && (bits a =? bits b) && (lanes a =? lanes b).

(** ** Floating point constants

    A double is a [spec_float] of the standard library; conversions round to
    nearest, ties to even. *)
Definition f64_of_Z (z : Z) : spec_float := binary_normalize 53 1024 z 0 false.

Definition sf_round (prec emax : Z) (f : spec_float) : spec_float :=
  match f with
  | S754_finite s m e => binary_normalize prec emax (if s then Z.neg m else Z.pos m) e s
  | _ => f
  end.

(** A float to integer conversion, toward zero. *)
Definition sf_to_Z (f : spec_float) : Z :=
  match f with
  | S754_finite s m e =>
      let a := if 0 <=? e then Z.pos m * 2 ^ e else Z.pos m / 2 ^ (- e) in
      if s then - a else a
  | _ => 0
  end.

(** Rounding a double to the width of a [Float] type. *)
Definition round_to (bits : Z) (f : spec_float) : spec_float :=
  if bits =? 16 then sf_round 11 16 f
  else if bits =? 32 then sf_round 24 128 f
  else f.

Definition float_represents (bits x : Z) : bool :=
  if bits =? 16 then sf_to_Z (round_to 16 (binary_normalize 24 128 x 0 false)) =? x
  else if bits =? 32 then sf_to_Z (binary_normalize 24 128 x 0 false) =? x
  else if bits =? 64 then sf_to_Z (f64_of_Z x) =? x
  else false.

(** ** Ranges *)

Definition can_represent_type (t other : HType) : bool :=
  if negb (lanes t =? lanes other) then false
  else if is_int t then
    (is_int other && (bits other <=? bits t)) || (is_uint other && (bits other <? bits t))
  else if is_uint t then is_uint other && (bits other <=? bits t)
  else if is_float t then
    (is_float other && (bits other <=? bits t)) ||
    ((bits t =? 64) && (bits other <=? 32)) || ((bits t =? 32) && (bits other <=? 16))
  else false.

(** [can_represent(int64_t)]. *)
Definition can_represent_i64 (t : HType) (x : Z) : bool :=
  if is_int t then (min_int (bits t) <=? x) && (x <=? max_int (bits t))
  else if is_uint t then (0 <=? x) && (u64 x <=? max_uint (bits t))
  else if is_float t then float_represents (bits t) x
  else false.

(** [can_represent(uint64_t)]. *)
Definition can_represent_u64 (t : HType) (x : Z) : bool :=
  if is_int t then x <=? u64 (max_int (bits t))
  else if is_uint t then x <=? max_uint (bits t)
  else if is_float t then float_represents (bits t) x
  else false.

Definition is_max_u64 (t : HType) (x : Z) : bool :=
  if is_int t then x =? u64 (max_int (bits t))
  else if is_uint t then x =? max_uint (bits t)
  else false.

Definition is_max_i64 (t : HType) (x : Z) : bool := (0 <? x) && is_max_u64 t (u64 x).

Definition is_min_i64 (t : HType) (x : Z) : bool :=
  if is_int t then x =? min_int (bits t)
  else if is_uint t then x =? 0
  else false.

(** ** Overflow behaviour (src/Simplify_Internal.h) *)

Definition no_overflow_int (t : HType) : bool := is_int t && (32 <=? bits t).
Definition no_overflow_scalar_int (t : HType) : bool := is_scalar t && no_overflow_int t.
Definition no_overflow (t : HType) : bool := is_float t || no_overflow_int t.

(** ** The integer types of the IR *)

Definition int_type (t : HType) : bool :=
  match code t with
  | CInt => (bits t =? 8) || (bits t =? 16) || (bits t =? 32) || (bits t =? 64)
  | CUInt => (bits t =? 1) || (bits t =? 8) || (bits t =? 16) || (bits t =? 32) || (bits t =? 64)
  | _ => false
  end.

Definition tmin (t : HType) : Z := if is_int t then - 2 ^ (bits t - 1) else 0.
Definition tmax (t : HType) : Z := if is_int t then 2 ^ (bits t - 1) - 1 else 2 ^ bits t - 1.

Definition in_type (t : HType) (v : Z) : Prop := tmin t <= v <= tmax t.

(** The value a cast to [t] leaves: truncation or extension. *)
Definition cast_val (t : HType) (v : Z) : Z :=
  match code t with
  | CInt => wrap_s (bits t) v
  | CUInt => wrap_u (bits t) v
  | _ => v
  end.

(** The result of an arithmetic node of type [t]: unsigned and narrow signed
    types wrap; at 32 bits and above the compiler takes signed arithmetic not
    to overflow, so the result is the mathematical one. *)
Definition norm (t : HType) (v : Z) : Z :=
  if no_overflow_int t then v else cast_val t v.

(** ** Facts *)

Lemma code_eqb_eq a b : code_eqb a b = true <-> a = b.
Proof. destruct a, b; cbn; intuition congruence. Qed.

Lemma type_eqb_eq a b : type_eqb a b = true <-> a = b.
Proof.
  destruct a as [ca ba la], b as [cb bb lb]. unfold type_eqb; cbn.
  rewrite !andb_true_iff, code_eqb_eq, !Z.eqb_eq. split; [intuition congruence|].
  intros [= -> -> ->]. auto.
Qed.

Lemma type_eqb_refl a : type_eqb a a = true.
Proof. now apply type_eqb_eq. Qed.

(** Two types with the same elements. *)
Definition same_elt (a b : HType) : Prop := code a = code b /\ bits a = bits b.

Lemma same_elt_refl a : same_elt a a.
Proof. split; reflexivity. Qed.

#[export] Instance same_elt_equiv : RelationClasses.Equivalence same_elt.
Proof.
  split.
  - intros a. apply same_elt_refl.
  - intros a b [? ?]. split; auto.
  - intros a b c [? ?] [? ?]. split; congruence.
Qed.

Ltac by_elt := intros [c1 b1 l1] [c2 b2 l2] [E1 E2]; cbn in *; subst; reflexivity.

Lemma norm_elt : forall a b, same_elt a b -> forall v, norm a v = norm b v.
Proof. intros a b H v. revert a b H. by_elt. Qed.

Lemma cast_val_elt : forall a b, same_elt a b -> forall v, cast_val a v = cast_val b v.
Proof. intros a b H v. revert a b H. by_elt. Qed.

Lemma int_type_elt : forall a b, same_elt a b -> int_type a = int_type b.
Proof. by_elt. Qed.

Lemma in_type_elt : forall a b, same_elt a b -> forall v, in_type a v -> in_type b v.
Proof. intros a b H v. revert a b H. by_elt || (intros [c1 b1 l1] [c2 b2 l2] [E1 E2]; cbn in *; subst; auto). Qed.

Lemma int_type_bits t : int_type t = true -> 1 <= bits t <= 64.
Proof.
  unfold int_type. destruct (code t); try discriminate;
    rewrite ?orb_true_iff, ?Z.eqb_eq; lia.
Qed.

Lemma int_type_sbits t : int_type t = true -> is_int t = true -> 8 <= bits t <= 64.
Proof.
  unfold int_type, is_int. destruct (code t); cbn; try discriminate;
    rewrite ?orb_true_iff, ?Z.eqb_eq; lia.
Qed.

Lemma int_type_code t : int_type t = true -> is_int t = true \/ is_uint t = true.
Proof. unfold int_type, is_int, is_uint. destruct (code t); cbn; auto; discriminate. Qed.

Lemma no_overflow_int_code t : no_overflow_int t = true -> code t = CInt.
Proof. unfold no_overflow_int, is_int. destruct (code t); cbn; auto; discriminate. Qed.

Lemma norm_no_overflow t v : no_overflow_int t = true -> norm t v = v.
Proof. unfold norm. now intros ->. Qed.

Lemma cast_val_range t v : int_type t = true -> in_type t (cast_val t v).
Proof.
  intros H. pose proof (int_type_bits t H). unfold in_type, tmin, tmax, cast_val, is_int.
  unfold int_type in H. destruct (code t); try discriminate; cbn.
  - pose proof (wrap_s_range (bits t) ltac:(lia) v). lia.
  - pose proof (wrap_u_range (bits t) ltac:(lia) v). lia.
Qed.

Lemma cast_val_id t v : int_type t = true -> in_type t v -> cast_val t v = v.
Proof.
  intros H. pose proof (int_type_bits t H). unfold in_type, tmin, tmax, cast_val, is_int.
  unfold int_type in H. destruct (code t); try discriminate; cbn; intros.
  - apply wrap_s_id; lia.
  - apply wrap_u_id; lia.
Qed.

Lemma norm_id t v : int_type t = true -> in_type t v -> norm t v = v.
Proof. intros. unfold norm. case_goal; [reflexivity|]. now apply cast_val_id. Qed.

(** Arithmetic modulo the width of a type; plain equality when the type does
    not overflow. *)
Definition eqm (t : HType) (a b : Z) : Prop := norm t a = norm t b.

Lemma norm_shift t v k : int_type t = true -> no_overflow_int t = false ->
  norm t (v + k * 2 ^ bits t) = norm t v.
Proof.
  intros H Hn. pose proof (int_type_bits t H). unfold norm. rewrite Hn. unfold cast_val.
  unfold int_type in H. destruct (code t); try discriminate.
  - apply wrap_s_shift; lia.
  - apply wrap_u_shift; lia.
Qed.

Lemma norm_cong t v : int_type t = true -> exists k,
  norm t v = v + k * 2 ^ bits t /\ (no_overflow_int t = true -> k = 0).
Proof.
  intros H. pose proof (int_type_bits t H). unfold norm.
  destruct (no_overflow_int t); [exists 0; split; [lia|auto]|].
  unfold cast_val, int_type in *. destruct (code t); try discriminate.
  - destruct (wrap_s_cong (bits t) ltac:(lia) v) as [k E]. exists k. split; [exact E|discriminate].
  - destruct (wrap_u_cong (bits t) ltac:(lia) v) as [k E]. exists k. split; [exact E|discriminate].
Qed.

Section Norm.
Context (t : HType) (Ht : int_type t = true).

Lemma norm_eq_of_cong a b k :
  a = b + k * 2 ^ bits t -> (no_overflow_int t = true -> k = 0) -> norm t a = norm t b.
Proof.
  intros -> Hk. destruct (no_overflow_int t) eqn:E.
  - rewrite Hk by reflexivity. now rewrite Z.add_0_r.
  - now apply norm_shift.
Qed.

Lemma norm_norm v : norm t (norm t v) = norm t v.
Proof. destruct (norm_cong t v Ht) as (k & E & Hk). now apply norm_eq_of_cong with k. Qed.

Lemma norm_add_l a b : norm t (norm t a + b) = norm t (a + b).
Proof.
  destruct (norm_cong t a Ht) as (k & -> & Hk). apply norm_eq_of_cong with k; [ring|auto].
Qed.

Lemma norm_add_r a b : norm t (a + norm t b) = norm t (a + b).
Proof.
  destruct (norm_cong t b Ht) as (k & -> & Hk). apply norm_eq_of_cong with k; [ring|auto].
Qed.

Lemma norm_sub_l a b : norm t (norm t a - b) = norm t (a - b).
Proof.
  destruct (norm_cong t a Ht) as (k & -> & Hk). apply norm_eq_of_cong with k; [ring|auto].
Qed.

Lemma norm_sub_r a b : norm t (a - norm t b) = norm t (a - b).
Proof.
  destruct (norm_cong t b Ht) as (k & -> & Hk).
  apply norm_eq_of_cong with (- k); [ring|intros; now rewrite Hk].
Qed.

Lemma norm_mul_l a b : norm t (norm t a * b) = norm t (a * b).
Proof.
  destruct (norm_cong t a Ht) as (k & -> & Hk).
  apply norm_eq_of_cong with (k * b); [ring|intros; now rewrite Hk].
Qed.

Lemma norm_mul_r a b : norm t (a * norm t b) = norm t (a * b).
Proof.
  destruct (norm_cong t b Ht) as (k & -> & Hk).
  apply norm_eq_of_cong with (a * k); [ring|intros; rewrite Hk by assumption; ring].
Qed.

(** [eqm t] is a congruence for ring arithmetic. *)
Lemma eqm_norm v : eqm t (norm t v) v.
Proof. apply norm_norm. Qed.
End Norm.

#[export] Instance eqm_equiv t : RelationClasses.Equivalence (eqm t).
Proof. split; unfold eqm; congruence. Qed.

Lemma norm_range t v : int_type t = true -> no_overflow_int t = false -> in_type t (norm t v).
Proof. intros H Hn. unfold norm. rewrite Hn. now apply cast_val_range. Qed.

Lemma in_type_bool l v : in_type (BoolT l) v <-> v = 0 \/ v = 1.
Proof. unfold in_type, tmin, tmax; cbn. lia. Qed.

Lemma is_bool_elt t : is_bool t = true -> code t = CUInt /\ bits t = 1.
Proof. unfold is_bool. rewrite andb_true_iff, code_eqb_eq, Z.eqb_eq. auto. Qed.

Lemma tmin_tmax_width t : int_type t = true -> tmin t <= 0 <= tmax t /\ 1 <= tmax t.
Proof.
  intros H. pose proof (int_type_bits t H). unfold tmin, tmax.
  destruct (is_int t) eqn:E.
  - pose proof (int_type_sbits t H E). pose proof (pow2_pos (bits t - 1)).
    assert (2 ^ 7 <= 2 ^ (bits t - 1)) by (apply Z.pow_le_mono_r; lia). lia.
  - assert (2 ^ 1 <= 2 ^ bits t) by (apply Z.pow_le_mono_r; lia). lia.
Qed.
