(* ===== verification/IR.v ===== *)
(** * The expression IR

    [Expr] and its node types (src/Expr.h, src/IR.h), the assertions of the
    node constructors (src/IR.cpp), the constant helpers of src/IROperator.cpp,
    and the value semantics the simplifier is judged against. *)

From Stdlib Require Import ZArith Lia Bool List String SpecFloat.
From S2P Require Import Prelude.
From S2P Require Import IntArith.
From S2P Require Import ModulusRemainder.
From S2P Require Import HalideTypes.
Import ListNotations.
Open Scope Z_scope.

Inductive BinOp := Add | Sub | Mul | Div | Mod | Min | Max | And | Or.
Inductive CmpOp := EQ | NE | LT | LE | GT | GE.

Inductive CallType :=
  Image | Extern | ExternCPlusPlus | PureExtern | HalideCall | Intrinsic | PureIntrinsic.

(** The binary and comparison nodes are one constructor each, indexed by the
    operator, as the [BinOp] and [CmpOp] templates of the matcher group them.
    The buffer, parameter and function handles of loads, calls and variables
    are not represented. *)
Inductive Expr :=
| IntImm (t : HType) (value : Z)
| UIntImm (t : HType) (value : Z)
| FloatImm (t : HType) (value : spec_float)
| StringImm (value : string)
| Cast (t : HType) (value : Expr)
| EVariable (t : HType) (name : string)
| EBin (op : BinOp) (a b : Expr)
| ECmp (op : CmpOp) (a b : Expr)
| ENot (a : Expr)
| Select (condition true_value false_value : Expr)
| Load (t : HType) (name : string) (predicate index : Expr) (alignment : ModulusRemainder)
| Ramp (base stride : Expr) (n : Z)
| Broadcast (value : Expr) (n : Z)
| ECall (t : HType) (name : string) (args : list Expr) (ct : CallType) (value_index : Z)
| ELet (name : string) (value body : Expr)
| Shuffle (vectors : list Expr) (indices : list Z).

(** Induction with hypotheses for the argument lists. *)
Section ExprInd.
Context (P : Expr -> Prop).
Context (HInt : forall t v, P (IntImm t v)) (HUInt : forall t v, P (UIntImm t v)).
Context (HFloat : forall t v, P (FloatImm t v)) (HString : forall s, P (StringImm s)).
Context (HCast : forall t v, P v -> P (Cast t v)).
Context (HVar : forall t n, P (EVariable t n)).
Context (HBin : forall op a b, P a -> P b -> P (EBin op a b)).
Context (HCmp : forall op a b, P a -> P b -> P (ECmp op a b)).
Context (HNot : forall a, P a -> P (ENot a)).
Context (HSelect : forall c t f, P c -> P t -> P f -> P (Select c t f)).
Context (HLoad : forall t n p i al, P p -> P i -> P (Load t n p i al)).
Context (HRamp : forall b s n, P b -> P s -> P (Ramp b s n)).
Context (HBroadcast : forall v n, P v -> P (Broadcast v n)).
Context (HCall : forall t n args ct vi, Forall P args -> P (ECall t n args ct vi)).
Context (HLet : forall n v b, P v -> P b -> P (ELet n v b)).
Context (HShuffle : forall vs ixs, Forall P vs -> P (Shuffle vs ixs)).

Fixpoint Expr_ind' (e : Expr) : P e :=
  let all := fix all (l : list Expr) : Forall P l :=
    match l with
    | [] => Forall_nil P
    | a :: l' => Forall_cons a (Expr_ind' a) (all l')
    end in
  match e with
  | IntImm t v => HInt t v
  | UIntImm t v => HUInt t v
  | FloatImm t v => HFloat t v
  | StringImm s => HString s
  | Cast t v => HCast t v (Expr_ind' v)
  | EVariable t n => HVar t n
  | EBin op a b => HBin op a b (Expr_ind' a) (Expr_ind' b)
  | ECmp op a b => HCmp op a b (Expr_ind' a) (Expr_ind' b)
  | ENot a => HNot a (Expr_ind' a)
  | Select c t f => HSelect c t f (Expr_ind' c) (Expr_ind' t) (Expr_ind' f)
  | Load t n p i al => HLoad t n p i al (Expr_ind' p) (Expr_ind' i)
  | Ramp b s n => HRamp b s n (Expr_ind' b) (Expr_ind' s)
  | Broadcast v n => HBroadcast v n (Expr_ind' v)
  | ECall t n args ct vi => HCall t n args ct vi (all args)
  | ELet n v b => HLet n v b (Expr_ind' v) (Expr_ind' b)
  | Shuffle vs ixs => HShuffle vs ixs (all vs)
  end.
End ExprInd.

(** ** Types of nodes *)

Fixpoint type_of (e : Expr) : HType :=
  match e with
  | IntImm t _ | UIntImm t _ | FloatImm t _ => t
  | StringImm _ => Handle 1
  | Cast t _ => t
  | EVariable t _ => t
  | EBin (And | Or) a _ => BoolT (lanes (type_of a))
  | EBin _ a _ => type_of a
  | ECmp _ a _ => BoolT (lanes (type_of a))
  | ENot a => BoolT (lanes (type_of a))
  | Select _ t _ => type_of t
  | Load t _ _ _ _ => t
  | Ramp b _ n => with_lanes (type_of b) n
  | Broadcast v n => with_lanes (type_of v) n
  | ECall t _ _ _ _ => t
  | ELet _ _ b => type_of b
  | Shuffle vs ixs =>
      match vs with
      | v :: _ => with_lanes (type_of v) (Z.of_nat (List.length ixs))
      | [] => no_type
      end
  end.

Definition is_bool_op (op : BinOp) : bool := match op with And | Or => true | _ => false end.

(** ** Intrinsics the simplifier knows *)

Definition is_intrinsic (name : string) (ct : CallType) (intrin : string) : bool :=
  match ct with Intrinsic | PureIntrinsic => String.eqb name intrin | _ => false end.

Definition likely_name : string := "likely".
Definition likely_if_innermost_name : string := "likely_if_innermost".
Definition indeterminate_name : string := "indeterminate_expression".
Definition overflow_name : string := "signed_integer_overflow".

Definition is_likely (name : string) (ct : CallType) : bool :=
  is_intrinsic name ct likely_name || is_intrinsic name ct likely_if_innermost_name.

Definition is_poison (name : string) (ct : CallType) : bool :=
  is_intrinsic name ct indeterminate_name || is_intrinsic name ct overflow_name.

(** ** Well-formed integer expressions

    Every assertion of the [make] functions holds, immediates are normalized,
    and all element types are integer types: floating point, handle and string
    nodes are outside the value semantics below. *)

(** Lane counts are below 2^14: the matcher uses the two bits above as flags
    of its folded constants. *)
Definition lanes_limit : Z := 16384.
Definition valid_lanes (t : HType) : bool := (1 <=? lanes t) && (lanes t <? lanes_limit).
Definition vector_lanes (n : Z) : bool := (1 <? n) && (n <? lanes_limit).

Definition in_typeb (t : HType) (v : Z) : bool := (tmin t <=? v) && (v <=? tmax t).

Fixpoint wf (e : Expr) : bool :=
  match e with
  | IntImm t v => is_int t && is_scalar t && int_type t && in_typeb t v
  | UIntImm t v => is_uint t && is_scalar t && int_type t && in_typeb t v
  | FloatImm _ _ | StringImm _ => false
  | Cast t v => wf v && int_type t && (lanes t =? lanes (type_of v))
  | EVariable t _ => int_type t && valid_lanes t
  | EBin op a b =>
      wf a && wf b && type_eqb (type_of a) (type_of b) &&
      (if is_bool_op op then is_bool (type_of a) else true)
  | ECmp _ a b => wf a && wf b && type_eqb (type_of a) (type_of b)
  | ENot a => wf a && is_bool (type_of a)
  | Select c t f =>
      wf c && wf t && wf f && is_bool (type_of c) &&
      type_eqb (type_of t) (type_of f) &&
      (is_scalar (type_of c) || (lanes (type_of c) =? lanes (type_of t)))
  | Load t _ p i _ =>
      wf p && wf i && int_type t && valid_lanes t &&
      (lanes t =? lanes (type_of i)) && (lanes t =? lanes (type_of p))
  | Ramp b s n =>
      wf b && wf s && is_scalar (type_of b) && is_scalar (type_of s) &&
      vector_lanes n && type_eqb (type_of s) (type_of b)
  | Broadcast v n => wf v && is_scalar (type_of v) && vector_lanes n
  | ECall t name args ct _ =>
      forallb wf args && int_type t && valid_lanes t &&
      (if is_likely name ct
       then match args with [a] => type_eqb (type_of a) t | _ => false end
       else true)
  | ELet _ v b => wf v && wf b
  | Shuffle vs ixs =>
      forallb wf vs &&
      match vs with
      | v :: _ =>
          forallb (fun u => type_eqb (element_of (type_of u)) (element_of (type_of v))) vs &&
          valid_lanes (type_of (Shuffle vs ixs)) &&
          forallb (fun i => (0 <=? i) &&
                            (i <? fold_right (fun u n => lanes (type_of u) + n) 0 vs)) ixs
      | [] => false
      end
  end.

(** ** Values

    An expression denotes one integer per vector lane.  Scalar leaves ignore
    the lane, so an expression of scalar type has the same value in all of
    them.  Booleans are 0 and 1.  Memory and calls other than [likely] are
    interpreted by the environment, calls by their name and type. *)

Record Env := mkEnv {
  var : string -> Z -> Z;
  mem : string -> Z -> Z;
  ext : string -> HType -> Z -> list Z -> Z
}.

Definition lane_of (t : HType) (i : Z) : Z := if lanes t =? 1 then 0 else i.

Definition bind (env : Env) (name : string) (f : Z -> Z) : Env :=
  mkEnv (fun n => if String.eqb n name then f else var env n) (mem env) (ext env).

Definition evbin (op : BinOp) (t : HType) (x y : Z) : Z :=
  match op with
  | Add => norm t (x + y)
  | Sub => norm t (x - y)
  | Mul => norm t (x * y)
  | Div => norm t (ediv x y)
  | Mod => emod x y
  | Min => Z.min x y
  | Max => Z.max x y
  | And => b2z (nz x && nz y)
  | Or => b2z (nz x || nz y)
  end.

Definition evcmp (op : CmpOp) (x y : Z) : bool :=
  match op with
  | EQ => x =? y
  | NE => negb (x =? y)
  | LT => x <? y
  | LE => x <=? y
  | GT => y <? x
  | GE => y <=? x
  end.

Fixpoint ev (env : Env) (i : Z) (e : Expr) : Z :=
  match e with
  | IntImm _ v | UIntImm _ v => v
  | FloatImm _ _ | StringImm _ => 0
  | Cast t v => cast_val t (ev env i v)
  | EVariable t n => cast_val t (var env n (lane_of t i))
  | EBin op a b => evbin op (type_of a) (ev env i a) (ev env i b)
  | ECmp op a b => b2z (evcmp op (ev env i a) (ev env i b))
  | ENot a => b2z (negb (nz (ev env i a)))
  | Select c t f => if nz (ev env i c) then ev env i t else ev env i f
  | Load t n _ idx _ => cast_val t (mem env n (ev env i idx))
  | Ramp b s _ => norm (type_of b) (ev env i b + i * ev env i s)
  | Broadcast v _ => ev env i v
  | ECall t n args ct _ =>
      let uninterpreted := cast_val t (ext env n t (lane_of t i) (map (ev env i) args)) in
      match args with
      | [a] => if is_likely n ct then ev env i a else uninterpreted
      | _ => uninterpreted
      end
  | ELet n v b => ev (bind env n (fun j => ev env j v)) i b
  | Shuffle vs ixs =>
      let k := nth (Z.to_nat (if Nat.eqb (List.length ixs) 1 then 0 else i)) ixs 0 in
      (fix pick (l : list Expr) (k : Z) : Z :=
         match l with
         | [] => 0
         | v :: l' =>
             if k <? lanes (type_of v) then ev env k v else pick l' (k - lanes (type_of v))
         end) vs k
  end.

(** The lanes of a type; every lane of a scalar is the same. *)
Definition lane_in (T : HType) (i : Z) : Prop := is_scalar T = true \/ 0 <= i < lanes T.

(** [ok]: no division by zero and no poison intrinsic is evaluated.  The
    predicate of a load is not evaluated for its value. *)
Fixpoint ok (env : Env) (i : Z) (e : Expr) : Prop :=
  match e with
  | IntImm _ _ | UIntImm _ _ | FloatImm _ _ | StringImm _ | EVariable _ _ => True
  | Cast _ v | ENot v | Broadcast v _ => ok env i v
  | EBin op a b =>
      ok env i a /\ ok env i b /\
      match op with Div | Mod => ev env i b <> 0 | _ => True end
  | ECmp _ a b | Ramp a b _ => ok env i a /\ ok env i b
  | Select c t f => ok env i c /\ ok env i t /\ ok env i f
  | Load _ _ _ idx _ => ok env i idx
  | ECall _ n args ct _ =>
      is_poison n ct = false /\
      (fix all (l : list Expr) : Prop :=
         match l with [] => True | a :: l' => ok env i a /\ all l' end) args
  | ELet n v b => (forall j, lane_in (type_of v) j -> ok env j v) /\ ok (bind env n (fun j => ev env j v)) i b
  | Shuffle vs _ =>
      (fix all (l : list Expr) : Prop :=
         match l with [] => True | a :: l' => (forall j, lane_in (type_of a) j -> ok env j a) /\ all l' end) vs
  end.

(** [fits]: moreover every intermediate value is in the range of its type, so
    that no signed overflow occurs. *)
Fixpoint fits (env : Env) (i : Z) (e : Expr) : Prop :=
  in_type (type_of e) (ev env i e) /\
  match e with
  | IntImm _ _ | UIntImm _ _ | FloatImm _ _ | StringImm _ | EVariable _ _ => True
  | Cast _ v | ENot v | Broadcast v _ => fits env i v
  | EBin _ a b | ECmp _ a b => fits env i a /\ fits env i b
  | Ramp a b _ => fits env i a /\ fits env i b
  | Select c t f => fits env i c /\ fits env i t /\ fits env i f
  | Load _ _ _ idx _ => fits env i idx
  | ECall _ n args ct _ =>
      (fix all (l : list Expr) : Prop :=
         match l with [] => True | a :: l' => fits env i a /\ all l' end) args
  | ELet n v b =>
      (forall j, lane_in (type_of v) j -> fits env j v) /\ fits (bind env n (fun j => ev env j v)) i b
  | Shuffle vs _ =>
      (fix all (l : list Expr) : Prop :=
         match l with [] => True | a :: l' => (forall j, lane_in (type_of a) j -> fits env j a) /\ all l' end) vs
  end.

(** An expression evaluates without undefined behaviour. *)
Definition defined (env : Env) (i : Z) (e : Expr) : Prop := ok env i e /\ fits env i e.

(** ** Node types, in order of strength (src/Expr.h) *)

Definition node_type (e : Expr) : Z :=
  match e with
  | IntImm _ _ => 0 | UIntImm _ _ => 1 | FloatImm _ _ => 2 | StringImm _ => 3
  | Broadcast _ _ => 4 | Cast _ _ => 5 | EVariable _ _ => 6
  | EBin Add _ _ => 7 | EBin Sub _ _ => 8 | EBin Mod _ _ => 9 | EBin Mul _ _ => 10
  | EBin Div _ _ => 11 | EBin Min _ _ => 12 | EBin Max _ _ => 13
  | ECmp EQ _ _ => 14 | ECmp NE _ _ => 15 | ECmp LT _ _ => 16
  | ECmp LE _ _ => 17 | ECmp GT _ _ => 18 | ECmp GE _ _ => 19
  | EBin And _ _ => 20 | EBin Or _ _ => 21 | ENot _ => 22
  | Select _ _ _ => 23 | Load _ _ _ _ _ => 24 | Ramp _ _ _ => 25
  | ECall _ _ _ _ _ => 26 | ELet _ _ _ => 27 | Shuffle _ _ => 28
  end.

(** ** Constants *)

Fixpoint is_const (e : Expr) : bool :=
  match e with
  | IntImm _ _ | UIntImm _ _ | FloatImm _ _ | StringImm _ => true
  | Cast _ v => is_const v
  | Ramp b s _ => is_const b && is_const s
  | Broadcast v _ => is_const v
  | _ => false
  end.

Fixpoint as_const_int (e : Expr) : option Z :=
  match e with
  | Broadcast v _ => as_const_int v
  | IntImm _ i => Some i
  | _ => None
  end.

Fixpoint as_const_uint (e : Expr) : option Z :=
  match e with
  | Broadcast v _ => as_const_uint v
  | UIntImm _ i => Some i
  | _ => None
  end.

Fixpoint as_const_float (e : Expr) : option spec_float :=
  match e with
  | Broadcast v _ => as_const_float v
  | FloatImm _ f => Some f
  | _ => None
  end.

Definition bool_to_mask_name : string := "bool_to_mask".
Definition cast_mask_name : string := "cast_mask".

(** [is_zero] and [is_one] differ only in the constant. *)
Fixpoint is_small_const (k : Z) (e : Expr) : bool :=
  match e with
  | IntImm _ v => v =? k
  | UIntImm _ v => v =? k
  | FloatImm _ f => SFeqb f (f64_of_Z k)
  | Cast _ v => is_small_const k v
  | Broadcast v _ => is_small_const k v
  | ECall _ n args ct _ =>
      (is_intrinsic n ct bool_to_mask_name || is_intrinsic n ct cast_mask_name) &&
      match args with a :: _ => is_small_const k a | [] => false end
  | _ => false
  end.

Definition is_zero (e : Expr) : bool := is_small_const 0 e.
Definition is_one (e : Expr) : bool := is_small_const 1 e.

(** [IntImm::make], [UIntImm::make], [FloatImm::make]: values are normalized
    to the width of the type. *)
Definition IntImm_make (t : HType) (v : Z) : Expr := IntImm t (normalize_s (bits t) v).
Definition UIntImm_make (t : HType) (v : Z) : Expr := UIntImm t (normalize_u (bits t) v).
Definition FloatImm_make (t : HType) (f : spec_float) : Expr := FloatImm t (round_to (bits t) f).

(** [make_const(Type, int64_t)]; on a handle type the source reports an
    internal error, here a string node. *)
Definition make_const_scalar (t : HType) (v : Z) : Expr :=
  match code t with
  | CInt => IntImm_make t v
  | CUInt => UIntImm_make t v
  | CFloat => FloatImm_make t (f64_of_Z v)
  | CHandle => StringImm "internal_error"
  end.

Definition make_const (t : HType) (v : Z) : Expr :=
  if is_vector t then Broadcast (make_const_scalar (element_of t) v) (lanes t)
  else make_const_scalar t v.

Definition make_zero (t : HType) : Expr :=
  if is_handle t
  then ECall t "reinterpret" [make_const (UInt 64 1) 0] PureIntrinsic 0
  else make_const t 0.

Definition const_true (w : Z) : Expr := make_const (BoolT w) 1.
Definition const_false (w : Z) : Expr := make_zero (BoolT w).

(** [Type::max] and [Type::min]. *)
Definition float_limit (t : HType) (s : bool) : Expr :=
  if bits t =? 16 then FloatImm_make t (f64_of_Z (if s then -65504 else 65504))
  else FloatImm_make t (S754_infinity s).

Definition type_max (t : HType) : Expr :=
  let scalar t :=
    match code t with
    | CInt => IntImm_make t (max_int (bits t))
    | CUInt => UIntImm_make t (max_uint (bits t))
    | _ => float_limit t false
    end in
  if is_vector t then Broadcast (scalar (element_of t)) (lanes t) else scalar t.

Definition type_min (t : HType) : Expr :=
  let scalar t :=
    match code t with
    | CInt => IntImm_make t (min_int (bits t))
    | CUInt => UIntImm_make t 0
    | _ => float_limit t true
    end in
  if is_vector t then Broadcast (scalar (element_of t)) (lanes t) else scalar t.

(** [cast(Type, Expr)] of src/IROperator.h, on non-handle types. *)
Definition cast_scalar (t : HType) (a : Expr) : Expr :=
  if type_eqb (type_of a) t then a
  else match as_const_int a with
  | Some i => make_const t i
  | None =>
  match as_const_uint a with
  | Some u => make_const t u
  | None => Cast t a
  end end.

Definition cast (t : HType) (a : Expr) : Expr :=
  if type_eqb (type_of a) t then a
  else match as_const_int a with
  | Some i => make_const t i
  | None =>
  match as_const_uint a with
  | Some u => make_const t u
  | None =>
    if is_vector t then
      if is_scalar (type_of a) then Broadcast (cast_scalar (element_of t) a) (lanes t)
      else match a with
           | Broadcast v _ => Broadcast (cast_scalar (element_of t) v) (lanes t)
           | _ => Cast t a
           end
    else Cast t a
  end end.

(** [likely] and [likely_if_innermost]. *)
Definition make_likely (name : string) (e : Expr) : Expr :=
  ECall (type_of e) name [e] PureIntrinsic 0.

(** ** Facts *)

(** Values depend on the environment pointwise. *)
Definition env_eq (a b : Env) : Prop :=
  (forall n i, var a n i = var b n i) /\ mem a = mem b /\ ext a = ext b.

Lemma bind_env_eq a b n f g :
  env_eq a b -> (forall i, f i = g i) -> env_eq (bind a n f) (bind b n g).
Proof.
  intros (Hv & Hm & He) Hfg. split; [|now split]. intros m i. cbn.
  destruct (String.eqb m n); auto.
Qed.

Lemma ev_ext e : forall a b i, env_eq a b -> ev a i e = ev b i e.
Proof.
  induction e using Expr_ind'; intros ea eb i E; cbn;
    repeat match goal with
    | IH : forall a b i, env_eq a b -> ev a i ?x = ev b i ?x |- _ =>
        match goal with |- context [ev ea _ x] => rewrite (IH ea eb _ E) end
    end; try reflexivity.
  - destruct E as [Ev _]. now rewrite Ev.
  - destruct E as (_ & Em & _). now rewrite Em.
  - assert (map (ev ea i) args = map (ev eb i) args) as EA.
    { apply map_ext_Forall. eapply Forall_impl; [|exact H]. cbn. auto. }
    destruct E as (_ & _ & Ee). rewrite Ee, EA.
    destruct args as [|x [|]]; cbn in EA |- *; try reflexivity. injection EA as EA.
    now rewrite EA.
  - apply IHe2, bind_env_eq; auto.
  - generalize (nth (Z.to_nat (if Nat.eqb (List.length ixs) 1 then 0 else i)) ixs 0) as k.
    induction H as [|v l Hv _ IH]; intros k; [reflexivity|]. rewrite IH.
    now rewrite (Hv ea eb k).
Qed.

(** The lane a shuffle picks. *)
Fixpoint pick (env : Env) (l : list Expr) (k : Z) : Z :=
  match l with
  | [] => 0
  | v :: l' => if k <? lanes (type_of v) then ev env k v else pick env l' (k - lanes (type_of v))
  end.

Lemma ev_shuffle env i vs ixs :
  ev env i (Shuffle vs ixs) =
  pick env vs (nth (Z.to_nat (if Nat.eqb (List.length ixs) 1 then 0 else i)) ixs 0).
Proof.
  cbn. generalize (nth (Z.to_nat (if Nat.eqb (List.length ixs) 1 then 0 else i)) ixs 0).
  induction vs as [|v vs IH]; intros k; cbn; [reflexivity|]. now rewrite IH.
Qed.

Lemma fits_in_type env i e : fits env i e -> in_type (type_of e) (ev env i e).
Proof. destruct e; cbn; tauto. Qed.

Lemma in_typeb_spec t v : in_typeb t v = true <-> in_type t v.
Proof. unfold in_typeb, in_type. rewrite andb_true_iff, !Z.leb_le. reflexivity. Qed.

(** The types that occur in well-formed expressions. *)
Definition wf_type (t : HType) : Prop := int_type t = true /\ valid_lanes t = true.

Lemma valid_lanes_with t n : vector_lanes n = true -> valid_lanes (with_lanes t n) = true.
Proof. unfold vector_lanes, valid_lanes; cbn. intros; zify_bool. apply andb_true_iff; split; [apply Z.leb_le|apply Z.ltb_lt]; lia. Qed.

Lemma int_type_with t n : int_type (with_lanes t n) = int_type t.
Proof. apply int_type_elt. split; reflexivity. Qed.

Lemma valid_lanes_scalar t : is_scalar t = true -> valid_lanes t = true.
Proof. unfold is_scalar, valid_lanes. intros. zify_bool. now rewrite H. Qed.

Lemma wf_BoolT t : wf_type t -> wf_type (BoolT (lanes t)).
Proof. intros [_ H]. split; [reflexivity|exact H]. Qed.

Lemma wf_wf_type e : wf e = true -> wf_type (type_of e).
Proof.
  assert (S : forall t, is_scalar t = true -> int_type t = true -> wf_type t).
  { intros t E I. split; [assumption|]. now apply valid_lanes_scalar. }
  induction e using Expr_ind'; cbn; intros W; try discriminate;
    try solve [destr_and; eauto].
  - destr_and. destruct (IHe H) as [_ V]. split; [assumption|].
    unfold valid_lanes in *. apply Z.eqb_eq in H0. now rewrite H0.
  - destr_and. now split.
  - destr_and. destruct op; cbn; auto using wf_BoolT.
  - destr_and. auto using wf_BoolT.
  - destr_and. auto using wf_BoolT.
  - destr_and. now split.
  - destr_and. destruct (IHe1 H) as [I _].
    split; [now rewrite int_type_with|now apply valid_lanes_with].
  - destr_and. destruct (IHe H) as [I _].
    split; [now rewrite int_type_with|now apply valid_lanes_with].
  - destr_and. now split.
  - destruct vs as [|v l]; [destr_and; discriminate|]. cbn in W |- *. destr_and.
    inversion H as [|? ? IHv]; subst. destruct (IHv ltac:(assumption)) as [I _].
    split; [now rewrite int_type_with|assumption].
Qed.

Lemma with_lanes_eta t n : n = lanes t -> with_lanes (element_of t) n = t.
Proof. intros ->. now destruct t. Qed.

Lemma with_lanes_id t : with_lanes t (lanes t) = t.
Proof. now destruct t. Qed.

Lemma element_of_with t n : element_of (with_lanes t n) = element_of t.
Proof. reflexivity. Qed.

Lemma wf_type_element t : wf_type t -> wf_type (element_of t).
Proof. intros [I _]. split; [now rewrite <- I; apply int_type_with|reflexivity]. Qed.

Lemma wf_type_with t n : wf_type t -> valid_lanes (with_lanes t n) = true -> wf_type (with_lanes t n).
Proof. intros [I _] V. split; [now rewrite int_type_with|exact V]. Qed.

Lemma vector_valid t : wf_type t -> is_vector t = true -> vector_lanes (lanes t) = true.
Proof.
  intros [_ V] N. unfold valid_lanes, is_vector, vector_lanes in *. zify_bool.
  apply andb_true_iff; split; [apply Z.ltb_lt|apply Z.ltb_lt]; lia.
Qed.

Lemma same_elt_element t : same_elt (element_of t) t.
Proof. split; reflexivity. Qed.

Lemma in_type_element t v : in_type (element_of t) v <-> in_type t v.
Proof. split; apply in_type_elt; split; reflexivity. Qed.

(** What the constructors of immediates build. *)
Record const_spec (t : HType) (v : Z) (e : Expr) : Prop := {
  const_wf : wf e = true;
  const_type : type_of e = t;
  const_ev : forall env i, ev env i e = v;
  const_ok : forall env i, ok env i e;
  const_no_let : is_const e = true
}.

Lemma broadcast_const t v e : wf_type t -> is_vector t = true ->
  const_spec (element_of t) v e -> const_spec t v (Broadcast e (lanes t)).
Proof.
  intros T N [W TE EV OK C]. pose proof (vector_valid t T N) as L. split; cbn; auto.
  - now rewrite W, TE, L.
  - rewrite TE. now apply with_lanes_eta.
Qed.

Lemma imm_spec t v : wf_type t -> is_scalar t = true -> in_type t v ->
  const_spec t v (if is_int t then IntImm t v else UIntImm t v).
Proof.
  intros [I V] N R. destruct (int_type_code t I) as [E|E].
  - rewrite E. split; cbn; auto. rewrite E, N, I. now apply in_typeb_spec.
  - replace (is_int t) with false by (unfold is_int, is_uint in *; destruct (code t); easy).
    split; cbn; auto. rewrite E, N, I. now apply in_typeb_spec.
Qed.

Lemma make_const_scalar_spec t v : wf_type t -> is_scalar t = true ->
  const_spec t (cast_val t v) (make_const_scalar t v).
Proof.
  intros T N. pose proof (imm_spec t (cast_val t v) T N (cast_val_range t v (proj1 T))) as S.
  pose proof (int_type_bits t (proj1 T)). destruct T as [I V].
  unfold make_const_scalar, IntImm_make, UIntImm_make, cast_val, is_int, int_type in *.
  destruct (code t); cbn in *; try discriminate.
  - now rewrite normalize_s_eq by lia.
  - now rewrite normalize_u_eq by lia.
Qed.

Lemma make_const_spec t v : wf_type t -> const_spec t (cast_val t v) (make_const t v).
Proof.
  intros T. unfold make_const. destruct (is_vector t) eqn:N.
  - apply broadcast_const; auto.
    rewrite <- (cast_val_elt _ _ (same_elt_element t)).
    apply make_const_scalar_spec; [now apply wf_type_element|reflexivity].
  - apply make_const_scalar_spec; [assumption|]. unfold is_vector, is_scalar in *.
    now apply negb_false_iff in N.
Qed.

Lemma cast_val_0 t : int_type t = true -> cast_val t 0 = 0.
Proof. intros I. apply cast_val_id; auto. pose proof (tmin_tmax_width t I). unfold in_type. lia. Qed.

Lemma make_zero_spec t : wf_type t -> const_spec t 0 (make_zero t).
Proof.
  intros T. unfold make_zero. replace (is_handle t) with false.
  - rewrite <- (cast_val_0 t (proj1 T)) at 1. now apply make_const_spec.
  - destruct T as [I _]. unfold is_handle, int_type in *. destruct (code t); easy.
Qed.

Lemma in_type_tmin t : int_type t = true -> in_type t (tmin t).
Proof. intros I. pose proof (tmin_tmax_width t I). unfold in_type. lia. Qed.

Lemma in_type_tmax t : int_type t = true -> in_type t (tmax t).
Proof. intros I. pose proof (tmin_tmax_width t I). unfold in_type. lia. Qed.

(** The limits of a type are the constants of its extreme values. *)
Lemma type_max_const t : wf_type t -> type_max t = make_const t (tmax t).
Proof.
  assert (S : forall t, int_type t = true -> match code t with
      | CInt => IntImm_make t (max_int (bits t))
      | CUInt => UIntImm_make t (max_uint (bits t))
      | _ => float_limit t false
      end = make_const_scalar t (tmax t)).
  { intros u I. pose proof (int_type_bits u I). unfold make_const_scalar, tmax, is_int, int_type in *.
    destruct (code u); try discriminate; cbn; now rewrite ?max_int_eq, ?max_uint_eq by lia. }
  intros [I _]. unfold type_max, make_const. rewrite !S by (rewrite ?int_type_with; exact I).
  reflexivity.
Qed.

Lemma type_min_const t : wf_type t -> type_min t = make_const t (tmin t).
Proof.
  assert (S : forall t, int_type t = true -> match code t with
      | CInt => IntImm_make t (min_int (bits t))
      | CUInt => UIntImm_make t 0
      | _ => float_limit t true
      end = make_const_scalar t (tmin t)).
  { intros u I. pose proof (int_type_bits u I). unfold make_const_scalar, tmin, is_int, int_type in *.
    destruct (code u); try discriminate; cbn; now rewrite ?min_int_eq by lia. }
  intros [I _]. unfold type_min, make_const. rewrite !S by (rewrite ?int_type_with; exact I).
  reflexivity.
Qed.

Lemma type_max_spec t : wf_type t -> const_spec t (tmax t) (type_max t).
Proof.
  intros T. rewrite type_max_const by assumption.
  rewrite <- (cast_val_id t (tmax t) (proj1 T) (in_type_tmax t (proj1 T))) at 1.
  now apply make_const_spec.
Qed.

Lemma type_min_spec t : wf_type t -> const_spec t (tmin t) (type_min t).
Proof.
  intros T. rewrite type_min_const by assumption.
  rewrite <- (cast_val_id t (tmin t) (proj1 T) (in_type_tmin t (proj1 T))) at 1.
  now apply make_const_spec.
Qed.

(** Constants fit their type. *)
Lemma make_const_scalar_fits env i t v : wf_type t -> is_scalar t = true -> fits env i (make_const_scalar t v).
Proof.
  intros T N. pose proof (make_const_scalar_spec t v T N) as [_ Ty E _ _].
  assert (R : in_type (type_of (make_const_scalar t v)) (ev env i (make_const_scalar t v))).
  { rewrite Ty, E. apply cast_val_range, T. }
  destruct T as [I _]. unfold make_const_scalar, int_type in *. destruct (code t); try discriminate; now split.
Qed.

Lemma make_const_fits env i t v : wf_type t -> fits env i (make_const t v).
Proof.
  intros T. pose proof (make_const_spec t v T) as [_ Ty E _ _].
  assert (R : in_type (type_of (make_const t v)) (ev env i (make_const t v))).
  { rewrite Ty, E. apply cast_val_range, T. }
  unfold make_const in *. destruct (is_vector t) eqn:N.
  - split; [exact R|]. apply make_const_scalar_fits; [now apply wf_type_element|reflexivity].
  - apply make_const_scalar_fits; [exact T|]. unfold is_vector, is_scalar in *. now apply negb_false_iff in N.
Qed.
