(* ===== verification/Typing.v ===== *)
(** * Expressions whose variables have the types of their binders

    The node constructors do not relate the type of a variable to the type of
    the value a let node gives it, nor the lanes of a call to those of its
    arguments; the front end does.  [typed] is that discipline, for the analyses
    that look through let nodes. *)

From Stdlib Require Import ZArith Lia Bool List String.
From S2P Require Import Prelude.
From S2P Require Import IntArith.
From S2P Require Import ModulusRemainder.
From S2P Require Import HalideTypes.
From S2P Require Import IR.
Import ListNotations.
Open Scope Z_scope.

(** The let-bound names in scope, innermost first. *)
Definition Ctx : Type := list (string * HType).

Fixpoint ctx_type (g : Ctx) (name : string) : option HType :=
  match g with
  | [] => None
  | (n, t) :: g' => if String.eqb n name then Some t else ctx_type g' name
  end.

(** A name the context does not have is free, of any type. *)
Definition agrees (g : Ctx) (name : string) (t : HType) : bool :=
  match ctx_type g name with Some t' => type_eqb t t' | None => true end.

Fixpoint typed (g : Ctx) (e : Expr) : bool :=
  match e with
  | IntImm _ _ | UIntImm _ _ | FloatImm _ _ | StringImm _ => true
  | EVariable t n => agrees g n t
  | Cast _ v | ENot v | Broadcast v _ => typed g v
  | EBin _ a b | ECmp _ a b | Ramp a b _ => typed g a && typed g b
  | Select c t f => typed g c && typed g t && typed g f
  | Load _ _ p i _ => typed g p && typed g i
  | ECall t _ args _ _ =>
      forallb (typed g) args &&
      forallb (fun a => is_scalar (type_of a) || (lanes (type_of a) =? lanes t)) args
  | ELet n v b => typed g v && typed ((n, type_of v) :: g) b
  | Shuffle vs _ => forallb (typed g) vs
  end.

Lemma agrees_nil n t : agrees [] n t = true.
Proof. reflexivity. Qed.

Lemma agrees_same g n t t' : agrees ((n, t) :: g) n t' = true -> t' = t.
Proof. unfold agrees. cbn. rewrite String.eqb_refl. apply type_eqb_eq. Qed.

Lemma agrees_other g n t m t' : n <> m -> agrees ((n, t) :: g) m t' = agrees g m t'.
Proof. intros N. unfold agrees. cbn. apply String.eqb_neq in N. now rewrite N. Qed.

(** The value of a let-bound variable in the body. *)
Lemma bind_same env n f : var (bind env n f) n = f.
Proof. cbn. now rewrite String.eqb_refl. Qed.

Lemma bind_other env n f m : m <> n -> var (bind env n f) m = var env m.
Proof. intros N. cbn. apply String.eqb_neq in N. now rewrite N. Qed.

(** ** Scalar expressions have one value *)

Lemma forallb_Forall {A} (f : A -> bool) l : forallb f l = true <-> Forall (fun a => f a = true) l.
Proof. rewrite forallb_forall, Forall_forall. reflexivity. Qed.

Lemma scalar_shuffle env i vs ixs : is_scalar (type_of (Shuffle vs ixs)) = true ->
  ev env i (Shuffle vs ixs) = ev env 0 (Shuffle vs ixs).
Proof.
  rewrite !ev_shuffle. destruct vs as [|v vs]; [reflexivity|].
  unfold is_scalar. cbn [type_of with_lanes lanes]. rewrite Z.eqb_eq. intros L.
  now replace (Nat.eqb (List.length ixs) 1) with true by (symmetry; apply Nat.eqb_eq; lia).
Qed.

Lemma not_scalar_with t n : vector_lanes n = true -> is_scalar (with_lanes t n) = false.
Proof. unfold vector_lanes, is_scalar. cbn. intros. zify_bool. lia. Qed.

Lemma scalar_lanes t u : (lanes t =? lanes u) = true -> is_scalar t = true -> is_scalar u = true.
Proof. unfold is_scalar. intros. zify_bool. now apply Z.eqb_eq; lia. Qed.

Lemma scalar_lane t i : is_scalar t = true -> lane_of t i = 0.
Proof. unfold is_scalar, lane_of. now intros ->. Qed.

Lemma wf_binary op a b : wf (EBin op a b) = true ->
  wf a = true /\ wf b = true /\ type_of b = type_of a /\ lanes (type_of (EBin op a b)) = lanes (type_of a).
Proof.
  cbn [wf]. intros W. destr_and. repeat split; auto; [|now destruct op].
  symmetry. now apply type_eqb_eq.
Qed.

Lemma wf_cast t v : wf (Cast t v) = true ->
  wf v = true /\ int_type t = true /\ lanes t = lanes (type_of v).
Proof. cbn [wf]. intros W. destr_and. repeat split; auto. now apply Z.eqb_eq. Qed.

Lemma wf_comparison op a b : wf (ECmp op a b) = true ->
  wf a = true /\ wf b = true /\ type_of b = type_of a.
Proof. cbn [wf]. intros W. destr_and. repeat split; auto. symmetry. now apply type_eqb_eq. Qed.

Lemma wf_select c t f : wf (Select c t f) = true ->
  wf c = true /\ wf t = true /\ wf f = true /\ type_of t = type_of f /\
  (is_scalar (type_of c) = true \/ lanes (type_of c) = lanes (type_of t)).
Proof.
  cbn [wf]. intros W. destr_and. repeat split; auto; [now apply type_eqb_eq|].
  match goal with H : orb _ _ = true |- _ => apply orb_true_iff in H; rewrite Z.eqb_eq in H; exact H end.
Qed.

Lemma wf_load t n p i al : wf (Load t n p i al) = true ->
  wf p = true /\ wf i = true /\ lanes t = lanes (type_of i) /\ lanes t = lanes (type_of p).
Proof. cbn [wf]. intros W. destr_and. repeat split; auto; now apply Z.eqb_eq. Qed.

Lemma typed_call g t n args ct vi : typed g (ECall t n args ct vi) = true ->
  Forall (fun a => typed g a = true /\ (is_scalar (type_of a) = true \/ lanes (type_of a) = lanes t)) args.
Proof.
  cbn [typed]. intros Ty. destr_and. rewrite forallb_forall in *. apply Forall_forall. intros a A.
  split; [auto|]. specialize (H0 a A). apply orb_true_iff in H0. now rewrite Z.eqb_eq in H0.
Qed.

Lemma is_scalar_eq t u : lanes t = lanes u -> is_scalar t = is_scalar u.
Proof. unfold is_scalar. now intros ->. Qed.

(** A scalar expression has the same value in every lane. *)
Lemma scalar_ev e : forall g env i, wf e = true -> typed g e = true -> is_scalar (type_of e) = true ->
  ev env i e = ev env 0 e.
Proof.
  induction e using Expr_ind'; intros g env i W Ty S; try reflexivity; try discriminate W.
  - cbn in W, Ty, S |- *. destr_and. f_equal. apply (IHe g); auto. eapply scalar_lanes; eauto.
  - cbn in *. now rewrite !scalar_lane.
  - destruct (wf_binary _ _ _ W) as (Wa & Wb & T & L). cbn [typed] in Ty. destr_and.
    rewrite (is_scalar_eq _ _ L) in S. cbn [ev].
    rewrite (IHe1 g env i), (IHe2 g env i) by (rewrite ?T; assumption). reflexivity.
  - destruct (wf_comparison _ _ _ W) as (Wa & Wb & T). cbn [typed] in Ty. destr_and.
    change (is_scalar (type_of e1) = true) in S. cbn [ev].
    rewrite (IHe1 g env i), (IHe2 g env i) by (rewrite ?T; assumption). reflexivity.
  - cbn [wf] in W. destr_and. change (is_scalar (type_of e) = true) in S. cbn [ev].
    now rewrite (IHe g env i).
  - destruct (wf_select _ _ _ W) as (Wc & Wt & Wf & T & C). cbn [typed type_of] in *. destr_and.
    assert (Sc : is_scalar (type_of e1) = true) by (destruct C as [C|C]; [exact C|now rewrite (is_scalar_eq _ _ C)]).
    cbn [ev]. rewrite (IHe1 g env i), (IHe2 g env i), (IHe3 g env i) by (rewrite <- ?T; assumption). reflexivity.
  - destruct (wf_load _ _ _ _ _ W) as (Wp & Wi & L & _). cbn [typed type_of] in *. destr_and.
    cbn [ev]. rewrite (IHe2 g env i); auto. now rewrite <- (is_scalar_eq _ _ L).
  - cbn in W, S. destr_and. rewrite not_scalar_with in S by assumption. discriminate S.
  - cbn in W, S. destr_and. rewrite not_scalar_with in S by assumption. discriminate S.
  - pose proof (typed_call _ _ _ _ _ _ Ty) as A. cbn [wf type_of] in W, S.
    assert (E : map (ev env i) args = map (ev env 0) args).
    { destr_and. rewrite forallb_Forall in H0. clear - H A H0 S. apply map_ext_Forall.
      induction args as [|a l IH]; constructor; inversion H; inversion A; inversion H0; subst; [|now apply IH].
      destruct H7 as [Ta [Sa|La]]; [now apply (H3 g)|]. apply (H3 g); auto. now rewrite (is_scalar_eq _ _ La). }
    cbn [ev]. rewrite E, !scalar_lane by assumption. destruct args as [|a [|]]; cbn in E |- *; try reflexivity.
    injection E as E. rewrite E. now case_goal.
  - cbn [wf typed type_of] in *. destr_and. cbn [ev]. eapply IHe2; eauto.
  - now apply scalar_shuffle.
Qed.
