(* ===== verification/Alignment.v ===== *)
(** * Alignment of expressions

    [ComputeModulusRemainder] of src/ModulusRemainder.cpp: the visitor that
    applies the operators of the modulus/remainder domain to an expression,
    with a scope for the let-bound names. *)

From Stdlib Require Import ZArith Lia Bool List String.
From S2P Require Import Prelude.
From S2P Require Import IntArith.
From S2P Require Import Euclid.
From S2P Require Import ModulusRemainder.
From S2P Require Import HalideTypes.
From S2P Require Import IR.
From S2P Require Import Typing.
From S2P Require Import Scope.
Import ListNotations.
Open Scope string_scope.
Open Scope Z_scope.

#[export] Instance mr_inhabited : stdpp.base.Inhabited ModulusRemainder := stdpp.base.populate mr_top.

(** The visitor holds a scope of what is known of the variables. *)
Abbreviation MRM := (ScopeM (T := ModulusRemainder)).

(** [analyze] and the [visit] methods on expressions. *)
Fixpoint analyze (e : Expr) : MRM ModulusRemainder :=
  match e with
  | IntImm _ v => scope_ret (mkMR 0 v)
  | UIntImm _ _ | FloatImm _ _ | StringImm _ => scope_error
  | Cast _ _ => scope_ret mr_top
  | EVariable _ n => fun s =>
      if contains s n then match get s n with Some m => Some (m, s) | None => None end
      else Some (mr_top, s)
  | EBin Add a b => scope_map2 mr_add (analyze a) (analyze b)
  | EBin Sub a b => scope_map2 mr_sub (analyze a) (analyze b)
  | EBin Mul a b => scope_map2 mr_mul (analyze a) (analyze b)
  | EBin Div a b => scope_map2 mr_div (analyze a) (analyze b)
  | EBin Mod a b => scope_map2 mr_mod (analyze a) (analyze b)
  | EBin (Min | Max) a b => scope_map2 unify (analyze a) (analyze b)
  | EBin (And | Or) _ _ | ECmp _ _ _ | ENot _ => scope_error
  | Select _ t f => scope_map2 unify (analyze t) (analyze f)
  | Load _ _ _ _ _ => scope_ret mr_top
  | Ramp _ _ _ | Broadcast _ _ => scope_error
  | ECall _ _ _ _ _ => scope_ret mr_top
  | ELet n v b =>
      if is_int (type_of v)
      then scope_bind (analyze v) (fun m => scoped n m (analyze b))
      else analyze b
  | Shuffle _ ixs => if Nat.eqb (List.length ixs) 1 then scope_ret mr_top else scope_error
  end.

(** [modulus_remainder] with a containing scope. *)
Definition modulus_remainder (e : Expr) (scope : Scope ModulusRemainder) : option ModulusRemainder :=
  match analyze e (set_containing_scope empty_scope scope) with
  | Some (m, _) => Some m
  | None => None
  end.

(** [reduce_expr_modulo]: the outer option is the internal error, the inner one
    the boolean result with the remainder. *)
Definition reduce_expr_modulo (e : Expr) (m : Z) (scope : Scope ModulusRemainder)
    : option (option Z) :=
  match modulus_remainder e scope with
  | None => None
  | Some r => Some (if mod0 (modulus r) m =? 0 then Some (mod0 (remainder r) m) else None)
  end.

(** ** The scope is restored *)

Lemma analyze_restores e : restores (analyze e).
Proof.
  induction e using Expr_ind'; cbn [analyze]; auto using @restores_ret, @restores_error.
  - intros s a s' _. destruct (contains s n); [destruct (get s n)|]; congruence.
  - destruct op; auto using @restores_map2, @restores_error.
  - now apply restores_map2.
  - destruct (is_int _); [|assumption].
    apply restores_bind; [assumption|]. intros m. now apply restores_scoped.
  - destruct (Nat.eqb _ _); auto using @restores_ret, @restores_error.
Qed.

(** ** The analysis over-approximates *)

Definition in_i64b (v : Z) : bool := (- 2 ^ 63 <=? v) && (v <? 2 ^ 63).

Lemma in_i64b_spec v : in_i64b v = true -> in_int 64 v.
Proof. unfold in_i64b, in_int. intros. zify_bool. lia. Qed.

Definition unify_safeb (a b : ModulusRemainder) : bool :=
  in_i64b (remainder a) && in_i64b (remainder b) && in_i64b (Z.abs (remainder a - remainder b)).

Lemma unify_safeb_spec a b : unify_safeb a b = true -> unify_safe a b.
Proof. unfold unify_safeb. intros. zify_bool. repeat split; now apply in_i64b_spec. Qed.

(** What the visitor takes for granted of an expression: arithmetic does not
    wrap around, remainders are 64-bit integers whose difference is one where
    it is taken, and no let of another type hides a name of the scope. *)
Fixpoint analyzable (e : Expr) (s : Scope ModulusRemainder) : bool :=
  match e with
  | EBin op a b =>
      analyzable a s && analyzable b s &&
      match op, analyze a s, analyze b s with
      | (Add | Sub | Mul), _, _ => no_overflow_int (type_of a)
      | Div, _, Some (n, _) => no_overflow_int (type_of a) && in_i64b (remainder n)
      | (Min | Max), Some (m, _), Some (n, _) => unify_safeb m n
      | _, _, _ => true
      end
  | Select _ t f =>
      analyzable t s && analyzable f s &&
      match analyze t s, analyze f s with
      | Some (m, _), Some (n, _) => unify_safeb m n
      | _, _ => true
      end
  | ELet n v b =>
      if is_int (type_of v) then
        analyzable v s &&
        match analyze v s with Some (m, _) => analyzable b (push s n m) | None => true end
      else negb (contains s n) && analyzable b s
  | _ => true
  end.

(** The entries of the scope hold of the scalar variables they name. *)
Definition scope_holds (g : Ctx) (env : Env) (s : Scope ModulusRemainder) : Prop :=
  forall n m t, get s n = Some m -> is_scalar t = true -> agrees g n t = true ->
    cast_val t (var env n 0) ∈ᵐ m.

(** A value bound by a let holds in the scope of the body. *)
Lemma push_holds g env s n v m : scope_holds g env s ->
  int_type (type_of v) = true ->
  (is_scalar (type_of v) = true -> in_type (type_of v) (ev env 0 v) /\ ev env 0 v ∈ᵐ m) ->
  scope_holds ((n, type_of v) :: g) (bind env n (fun j => ev env j v)) (push s n m).
Proof.
  intros H I V k q t G Sc A. destruct (String.eqb_spec n k) as [<-|N].
  - rewrite get_push in G. injection G as <-. apply agrees_same in A as ->.
    rewrite bind_same. destruct (V Sc) as [R C]. now rewrite cast_val_id.
  - rewrite get_push_ne in G by congruence. rewrite agrees_other in A by assumption.
    rewrite bind_other by congruence. now apply H.
Qed.

(** A let the visitor does not enter in the scope. *)
Lemma skip_holds g env s n v f : contains s n = false ->
  scope_holds g env s -> scope_holds ((n, type_of v) :: g) (bind env n f) s.
Proof.
  intros C H k q t G Sc A. assert (N : n <> k).
  { intros ->. assert (contains s k = true) by (apply contains_get; eauto). congruence. }
  rewrite agrees_other in A by assumption. rewrite bind_other by congruence. now apply H.
Qed.

Lemma bin_sound op m n x y t : negb (is_bool_op op) = true ->
  match op with
  | Add | Sub | Mul => no_overflow_int t = true
  | Div => no_overflow_int t = true /\ in_int 64 (remainder n)
  | Min | Max => unify_safe m n
  | _ => True
  end ->
  match op with Div | Mod => y <> 0 | _ => True end ->
  x ∈ᵐ m -> y ∈ᵐ n ->
  evbin op t x y ∈ᵐ match op with
    | Add => mr_add m n | Sub => mr_sub m n | Mul => mr_mul m n | Div => mr_div m n
    | Mod => mr_mod m n | _ => unify m n end.
Proof.
  intros B S Y X' Y'. destruct op; try discriminate B; cbn [evbin].
  - rewrite norm_no_overflow by assumption. now apply mr_add_sound.
  - rewrite norm_no_overflow by assumption. now apply mr_sub_sound.
  - rewrite norm_no_overflow by assumption. now apply mr_mul_sound.
  - destruct S. rewrite norm_no_overflow by assumption. now apply mr_div_sound.
  - now apply mr_mod_sound.
  - apply unify_sound; [exact S|]. destruct (Z.min_spec x y) as [[_ ->]|[_ ->]]; auto.
  - apply unify_sound; [exact S|]. destruct (Z.max_spec x y) as [[_ ->]|[_ ->]]; auto.
Qed.

Lemma analyze_bin op a b s m s' : scope_ok s -> analyze (EBin op a b) s = Some (m, s') ->
  exists x y, analyze a s = Some (x, s) /\ analyze b s = Some (y, s) /\
    negb (is_bool_op op) = true /\
    m = match op with
        | Add => mr_add x y | Sub => mr_sub x y | Mul => mr_mul x y | Div => mr_div x y
        | Mod => mr_mod x y | _ => unify x y end.
Proof.
  intros O A. destruct op; cbn [analyze] in A; try discriminate A;
    destruct (scope_map2_some _ _ _ _ _ _ (analyze_restores a) (analyze_restores b) O A)
      as (x & y & Ea & Eb & ->); exists x, y; auto.
Qed.

Lemma analyze_holds e : forall g env s m s',
  wf e = true -> is_scalar (type_of e) = true -> typed g e = true ->
  scope_ok s -> scope_holds g env s -> defined env 0 e -> analyzable e s = true ->
  analyze e s = Some (m, s') -> ev env 0 e ∈ᵐ m.
Proof.
  induction e using Expr_ind'; intros g env sc m sc' W Sc Ty O Sh [Ok F] X A;
    try discriminate A; try (injection A as <- _; auto with halide).
  - cbn. apply mr_contains_const. reflexivity.
  - cbn [analyze] in A. destruct (contains sc n) eqn:C.
    + destruct (get sc n) as [q|] eqn:G; [|discriminate]. injection A as <- _.
      cbn [ev type_of] in *. rewrite scalar_lane by assumption. now apply (Sh n).
    + injection A as <- _. auto with halide.
  - destruct (analyze_bin _ _ _ _ _ _ O A) as (x & y & Ea & Eb & B & ->).
    destruct (wf_binary _ _ _ W) as (Wa & Wb & T & _).
    assert (T' : type_of (EBin op e1 e2) = type_of e1) by now destruct op.
    rewrite T' in Sc. cbn [analyzable] in X. rewrite Ea, Eb in X. cbn [typed] in Ty.
    apply andb_true_iff in X, Ty. destruct X as [X S], Ty as [Ty1 Ty2].
    apply andb_true_iff in X. destruct X as [X1 X2].
    destruct Ok as (O1 & O2 & O3), F as (_ & F1 & F2). cbn [ev].
    apply bin_sound; auto.
    + destruct op; auto; destr_and; auto using unify_safeb_spec, in_i64b_spec.
    + apply (IHe1 g env sc x sc); auto. now split.
    + apply (IHe2 g env sc y sc); auto; [now rewrite T|now split].
  - cbn [analyze] in A.
    destruct (scope_map2_some _ _ _ _ _ _ (analyze_restores _) (analyze_restores _) O A) as (x & y & Ea & Eb & ->).
    cbn [analyzable] in X. rewrite Ea, Eb in X. cbn [typed] in Ty.
    apply andb_true_iff in X, Ty. destruct X as [X S], Ty as [Ty Ty3].
    apply andb_true_iff in X, Ty. destruct X as [X1 X2], Ty as [Ty1 Ty2].
    destruct (wf_select _ _ _ W) as (_ & Wt & Wf & T & _).
    destruct Ok as (_ & O1 & O2), F as (_ & _ & F1 & F2). cbn [ev type_of] in *.
    apply unify_sound; [now apply unify_safeb_spec|].
    destruct (nz (ev env 0 e1)); [left; apply (IHe2 g env sc x sc)|right; apply (IHe3 g env sc y sc)];
      auto; try (now split). now rewrite <- T.
  - cbn [analyze analyzable wf typed type_of] in *. destr_and. destruct Ok as [O1 O2], F as (_ & F1 & F2).
    destruct (is_int (type_of e1)) eqn:I.
    + destr_and. unfold scope_bind in A. destruct (analyze e1 sc) as [[q s1]|] eqn:Ea; [|discriminate].
      pose proof (analyze_restores e1 sc q s1 O Ea) as ->. unfold scoped in A.
      destruct (analyze e2 (push sc n q)) as [[r s2]|] eqn:Eb; [|discriminate].
      destruct (pop s2 n); [|discriminate]. injection A as -> _. cbn [ev].
      apply (IHe2 ((n, type_of e1) :: g) (bind env n (fun j => ev env j e1)) (push sc n q) m s2); auto.
      * now apply push_scope_ok.
      * apply push_holds; [assumption|apply (wf_wf_type e1); assumption|]. intros S1.
        specialize (O1 0 (or_introl S1)). specialize (F1 0 (or_introl S1)). split; [now apply fits_in_type|]. apply (IHe1 g env sc q sc); auto. now split.
      * now split.
    + destr_and. cbn [ev].
      apply (IHe2 ((n, type_of e1) :: g) (bind env n (fun j => ev env j e1)) sc m sc'); auto.
      * apply skip_holds; [now apply negb_true_iff|assumption].
      * now split.
  - cbn [analyze] in A. destruct (Nat.eqb _ _); [|discriminate]. injection A as <- _. auto with halide.
Qed.

(** ** Theorems *)


(** [let y = x*3 + 4 in y*3 + 4] is 7 modulo 9, as [modulus_remainder_test] says. *)
Definition sample_alignment : Expr :=
  let v n := EVariable (Int 32 1) n in let k n := IntImm (Int 32 1) n in
  ELet "y" (EBin Add (EBin Mul (v "x") (k 3)) (k 4)) (EBin Add (EBin Mul (v "y") (k 3)) (k 4)).


(** The other cases of [modulus_remainder_test]. *)
Example modulus_remainder_tests :
  let x := EVariable (Int 32 1) "x" in let y := EVariable (Int 32 1) "y" in
  let k n := IntImm (Int 32 1) n in
  let add := EBin Add in let sub := EBin Sub in let mul := EBin Mul in
  map (fun e => modulus_remainder e empty_scope)
    [ add (add (mul (k 30) x) (k 3)) (add (mul (k 40) y) (k 2));
      mul (add (mul (k 6) x) (k 3)) (add (mul (k 4) y) (k 1));
      EBin Max (sub (mul (k 30) x) (k 24)) (add (mul (k 40) y) (k 31));
      sub (mul (k 10) x) (mul (k 33) y);
      sub (mul (k 10) x) (mul (k 35) y);
      k 123;
      mul (mul (add (mul (k 5045320) x) (k 4)) (add (mul (k 405713) y) (k 3)))
          (add (mul (k 8000123) x) (k 4354)) ] =
  [Some (mkMR 10 5); Some (mkMR 2 1); Some (mkMR 5 1); Some (mkMR 1 0); Some (mkMR 5 0);
   Some (mkMR 0 123); Some (mkMR 1 0)].
Proof. vm_compute. reflexivity. Qed.
