(* ===== verification/IREquality.v ===== *)
(** * The order on expressions

    [IRComparer] of src/IREquality.cpp, without a cache: the lexical order that
    the sets of facts of the simplifier are kept in, with the proof that it is
    a total order on well-formed expressions. *)

From Stdlib Require Import ZArith Lia Bool List String Ascii SpecFloat.
From S2P Require Import Prelude.
From S2P Require Import IntArith.
From S2P Require Import ModulusRemainder.
From S2P Require Import HalideTypes.
From S2P Require Import IR.
Import ListNotations.
Open Scope Z_scope.

(** ** Results *)

(** [Unknown] is only an internal state of the cache. *)
Inductive CmpResult := Equal | LessThan | GreaterThan.

Definition flip_result (r : CmpResult) : CmpResult :=
  match r with Equal => Equal | LessThan => GreaterThan | GreaterThan => LessThan end.

(** Each comparison of the visitor does nothing once the result is not [Equal]. *)
Definition and_then (r : CmpResult) (next : CmpResult) : CmpResult :=
  match r with Equal => next | _ => r end.

Declare Scope compare_scope.
Infix ">>" := and_then (at level 60, right associativity) : compare_scope.
#[local] Open Scope compare_scope.

Definition compare_scalar (a b : Z) : CmpResult :=
  if a <? b then LessThan else if b <? a then GreaterThan else Equal.

(** Neither holds of a NaN. *)
Definition compare_float (a b : spec_float) : CmpResult :=
  if SFltb a b then LessThan else if SFltb b a then GreaterThan else Equal.

(** The characters are compared as unsigned bytes. *)
Definition compare_names (a b : string) : CmpResult :=
  match String.compare a b with Eq => Equal | Lt => LessThan | Gt => GreaterThan end.

Definition code_number (c : TypeCode) : Z :=
  match c with CInt => 0 | CUInt => 1 | CFloat => 2 | CHandle => 3 end.

(** [IRComparer::compare_types]; the C++ types of handles are not represented. *)
Definition compare_types (a b : HType) : CmpResult :=
  compare_scalar (code_number (code a)) (code_number (code b)) >>
  compare_scalar (bits a) (bits b) >>
  compare_scalar (lanes a) (lanes b).

Definition call_type_number (c : CallType) : Z :=
  match c with
  | Image => 0 | Extern => 1 | ExternCPlusPlus => 2 | PureExtern => 3
  | HalideCall => 4 | Intrinsic => 5 | PureIntrinsic => 6
  end.

(** [IRComparer::compare_expr_vector], over the comparison of the elements. *)
Section Vector.
Context {A : Type} (cmp : A -> A -> CmpResult).

Fixpoint compare_elements (a b : list A) : CmpResult :=
  match a, b with
  | x :: a', y :: b' => cmp x y >> compare_elements a' b'
  | _, _ => Equal
  end.

Definition compare_vector (a b : list A) : CmpResult :=
  compare_scalar (Z.of_nat (List.length a)) (Z.of_nat (List.length b)) >> compare_elements a b.
End Vector.

(** [IRComparer::compare_expr] and its visit methods; the names of two loads
    are compared in the other order. *)
Fixpoint compare_expr (a b : Expr) : CmpResult :=
  compare_scalar (node_type a) (node_type b) >>
  compare_types (type_of a) (type_of b) >>
  match a, b with
  | IntImm _ v, IntImm _ w => compare_scalar v w
  | UIntImm _ v, UIntImm _ w => compare_scalar v w
  | FloatImm _ v, FloatImm _ w => compare_float v w
  | StringImm v, StringImm w => compare_names v w
  | Cast _ v, Cast _ w => compare_expr v w
  | EVariable _ n, EVariable _ m => compare_names n m
  | EBin _ a1 a2, EBin _ b1 b2 => compare_expr a1 b1 >> compare_expr a2 b2
  | ECmp _ a1 a2, ECmp _ b1 b2 => compare_expr a1 b1 >> compare_expr a2 b2
  | ENot a1, ENot b1 => compare_expr a1 b1
  | Select a1 a2 a3, Select b1 b2 b3 => compare_expr a1 b1 >> compare_expr a2 b2 >> compare_expr a3 b3
  | Load _ n p i al, Load _ m q j bl =>
      compare_names m n >> compare_expr p q >> compare_expr i j >>
      compare_scalar (modulus al) (modulus bl) >> compare_scalar (remainder al) (remainder bl)
  | Ramp a1 a2 _, Ramp b1 b2 _ => compare_expr a1 b1 >> compare_expr a2 b2
  | Broadcast v _, Broadcast w _ => compare_expr v w
  | ECall _ n args ct vi, ECall _ m args' ct' vi' =>
      compare_names n m >> compare_scalar (call_type_number ct) (call_type_number ct') >>
      compare_scalar vi vi' >> compare_vector compare_expr args args'
  | ELet n v c, ELet m w d => compare_names n m >> compare_expr v w >> compare_expr c d
  | Shuffle vs ixs, Shuffle ws jxs =>
      compare_vector compare_expr vs ws >> compare_vector compare_scalar ixs jxs
  | _, _ => Equal
  end.

(** [IRDeepCompare::operator()] and [equal]. *)
Definition deep_less (a b : Expr) : bool :=
  match compare_expr a b with LessThan => true | _ => false end.

Definition ir_equal (a b : Expr) : bool :=
  match compare_expr a b with Equal => true | _ => false end.

(** ** The laws of an order *)

(** The results of comparing three things pairwise fit together. *)
Definition ordered3 (ab bc ac : CmpResult) : Prop :=
  (ab = Equal -> ac = bc) /\ (bc = Equal -> ac = ab) /\ (ab = bc -> ac = ab).

Lemma ordered3_refl : ordered3 Equal Equal Equal.
Proof. repeat split. Qed.

Lemma ordered3_then ab bc ac ab' bc' ac' : ordered3 ab bc ac ->
  (ab = Equal -> bc = Equal -> ordered3 ab' bc' ac') ->
  ordered3 (ab >> ab') (bc >> bc') (ac >> ac').
Proof.
  intros (H1 & H2 & H3) K. destruct ab, bc; cbn;
    try (specialize (H1 eq_refl)); try (specialize (H2 eq_refl)); try (specialize (H3 eq_refl)); subst; cbn;
    auto; repeat split; auto; try discriminate.
Qed.

Lemma ordered3_flip ab bc ac :
  ordered3 ab bc ac -> ordered3 (flip_result ab) (flip_result bc) (flip_result ac).
Proof. unfold ordered3. destruct ab, bc, ac; cbn; intuition congruence. Qed.

Lemma then_equal r s : r >> s = Equal <-> r = Equal /\ s = Equal.
Proof. destruct r, s; cbn; intuition congruence. Qed.

Lemma flip_then r s : flip_result (r >> s) = flip_result r >> flip_result s.
Proof. now destruct r. Qed.

Lemma compare_scalar_eq a b : compare_scalar a b = Equal <-> a = b.
Proof. unfold compare_scalar. destruct (Z.ltb_spec a b), (Z.ltb_spec b a); intuition (lia || congruence). Qed.

Lemma compare_scalar_refl a : compare_scalar a a = Equal.
Proof. now apply compare_scalar_eq. Qed.

Lemma compare_scalar_flip a b : compare_scalar b a = flip_result (compare_scalar a b).
Proof. unfold compare_scalar. destruct (Z.ltb_spec a b), (Z.ltb_spec b a); cbn; lia || reflexivity. Qed.

Lemma compare_scalar_trans a b c : ordered3 (compare_scalar a b) (compare_scalar b c) (compare_scalar a c).
Proof.
  unfold ordered3, compare_scalar.
  destruct (Z.ltb_spec a b), (Z.ltb_spec b a), (Z.ltb_spec b c), (Z.ltb_spec c b), (Z.ltb_spec a c), (Z.ltb_spec c a);
    repeat split; intros; congruence || lia.
Qed.

Lemma string_compare_refl s : String.compare s s = Eq.
Proof.
  induction s as [|c s IH]; cbn; [reflexivity|].
  unfold Ascii.compare. now rewrite N.compare_refl.
Qed.

Lemma compare_names_eq a b : compare_names a b = Equal <-> a = b.
Proof.
  unfold compare_names. split.
  - destruct (String.compare a b) eqn:E; try discriminate. intros _. now apply String.compare_eq_iff.
  - intros ->. now rewrite string_compare_refl.
Qed.

Lemma compare_names_flip a b : compare_names b a = flip_result (compare_names a b).
Proof. unfold compare_names. rewrite String.compare_antisym. now destruct (String.compare a b). Qed.

(** A name is compared as the sequence of its characters. *)
Lemma compare_names_cons c a d b : compare_names (String c a) (String d b) =
  compare_scalar (Z.of_N (N_of_ascii c)) (Z.of_N (N_of_ascii d)) >> compare_names a b.
Proof.
  unfold compare_names, compare_scalar. cbn. unfold Ascii.compare.
  destruct (N.compare_spec (N_of_ascii c) (N_of_ascii d)) as [E|L|L].
  - rewrite E, Z.ltb_irrefl. reflexivity.
  - replace (_ <? _) with true by (symmetry; apply Z.ltb_lt; lia). reflexivity.
  - replace (_ <? _) with false by (symmetry; apply Z.ltb_ge; lia).
    replace (_ <? _) with true by (symmetry; apply Z.ltb_lt; lia). reflexivity.
Qed.

Lemma compare_names_trans a b c : ordered3 (compare_names a b) (compare_names b c) (compare_names a c).
Proof.
  revert b c. induction a as [|x a IH]; intros [|y b] [|z c];
    try (now repeat split; cbn; intros; congruence).
  rewrite !compare_names_cons. apply ordered3_then; [apply compare_scalar_trans|]. intros _ _. apply IH.
Qed.

(** The same with the arguments exchanged. *)
Lemma compare_names_trans_back a b c :
  ordered3 (compare_names b a) (compare_names c b) (compare_names c a).
Proof.
  rewrite (compare_names_flip a b), (compare_names_flip b c), (compare_names_flip a c).
  apply ordered3_flip, compare_names_trans.
Qed.

Lemma code_number_inj a b : code_number a = code_number b -> a = b.
Proof. now destruct a, b. Qed.

Lemma call_type_number_inj a b : call_type_number a = call_type_number b -> a = b.
Proof. now destruct a, b. Qed.

Lemma compare_types_eq a b : compare_types a b = Equal <-> a = b.
Proof.
  unfold compare_types. rewrite !then_equal, !compare_scalar_eq. split.
  - intros (C & B & L). apply code_number_inj in C. destruct a, b. cbn in *. congruence.
  - now intros ->.
Qed.

Lemma compare_types_flip a b : compare_types b a = flip_result (compare_types a b).
Proof. unfold compare_types. rewrite !flip_then, <- !compare_scalar_flip. reflexivity. Qed.

Lemma compare_types_trans a b c : ordered3 (compare_types a b) (compare_types b c) (compare_types a c).
Proof. unfold compare_types. repeat (apply ordered3_then; [apply compare_scalar_trans|intros _ _]). apply compare_scalar_trans. Qed.

(** Vectors of comparable elements. *)
Section VectorLaws.
Context {A : Type} (cmp : A -> A -> CmpResult).

Lemma compare_elements_eq a : Forall (fun x => forall y, cmp x y = Equal -> x = y) a ->
  forall b, compare_vector cmp a b = Equal -> a = b.
Proof.
  unfold compare_vector. induction 1 as [|x a H _ IH]; intros b; rewrite then_equal, compare_scalar_eq;
    destruct b as [|y b]; cbn [List.length compare_elements]; intros [L E]; try reflexivity; try lia.
  apply then_equal in E. destruct E as [E1 E2]. f_equal; [now apply H|].
  apply IH. apply then_equal. rewrite compare_scalar_eq. split; [lia|exact E2].
Qed.

Lemma compare_vector_flip a : Forall (fun x => forall y, cmp y x = flip_result (cmp x y)) a ->
  forall b, compare_vector cmp b a = flip_result (compare_vector cmp a b).
Proof.
  intros H b. unfold compare_vector. rewrite flip_then, <- compare_scalar_flip. f_equal.
  revert b. induction H as [|x a Hx _ IH]; intros [|y b]; try reflexivity.
  cbn [compare_elements]. now rewrite flip_then, IH, <- Hx.
Qed.

Lemma compare_vector_trans a : Forall (fun x => forall y z, ordered3 (cmp x y) (cmp y z) (cmp x z)) a ->
  forall b c, ordered3 (compare_vector cmp a b) (compare_vector cmp b c) (compare_vector cmp a c).
Proof.
  intros H b c. unfold compare_vector. apply ordered3_then; [apply compare_scalar_trans|].
  rewrite !compare_scalar_eq. revert b c.
  induction H as [|x a Hx _ IH]; intros [|y b] [|z c] L1 L2; cbn [List.length] in *; try lia;
    cbn [compare_elements]; [apply ordered3_refl|].
  apply ordered3_then; [apply Hx|]. intros _ _. apply IH; lia.
Qed.
End VectorLaws.

Lemma compare_scalars_eq a b : compare_vector compare_scalar a b = Equal -> a = b.
Proof. apply compare_elements_eq, Forall_forall. intros x _ y. apply compare_scalar_eq. Qed.

Lemma compare_scalars_flip a b : compare_vector compare_scalar b a = flip_result (compare_vector compare_scalar a b).
Proof. apply compare_vector_flip, Forall_forall. intros x _ y. apply compare_scalar_flip. Qed.

Lemma compare_scalars_trans a b c :
  ordered3 (compare_vector compare_scalar a b) (compare_vector compare_scalar b c) (compare_vector compare_scalar a c).
Proof. apply compare_vector_trans, Forall_forall. intros x _ y z. apply compare_scalar_trans. Qed.

(** ** The order on expressions *)

Lemma compare_float_flip a b : compare_float b a = flip_result (compare_float a b).
Proof.
  unfold compare_float, SFltb. destruct (SFcompare a b) as [[]|] eqn:E, (SFcompare b a) as [[]|] eqn:F;
    try reflexivity; exfalso; revert E F; unfold SFcompare;
    destruct a as [[]|[]| |[] m e], b as [[]|[]| |[] n f]; cbn; try discriminate;
    rewrite (Z.compare_antisym e f); destruct (Z.compare e f); cbn; try discriminate;
    try (change (Pos.compare_cont Eq) with Pos.compare; rewrite (Pos.compare_antisym m n);
         destruct (Pos.compare m n); discriminate).
Qed.

(** The headers of two equal expressions agree. *)
Ltac split_then := repeat match goal with
  | H : _ >> _ = Equal |- _ => apply then_equal in H; destruct H
  | H : compare_scalar _ _ = Equal |- _ => apply compare_scalar_eq in H
  | H : compare_names _ _ = Equal |- _ => apply compare_names_eq in H
  | H : compare_types _ _ = Equal |- _ => apply compare_types_eq in H
  end.

Lemma node_type_op op op' a b c d : node_type (EBin op a b) = node_type (EBin op' c d) -> op = op'.
Proof. now destruct op, op'. Qed.

Lemma node_type_cmp_op op op' a b c d : node_type (ECmp op a b) = node_type (ECmp op' c d) -> op = op'.
Proof. now destruct op, op'. Qed.

Lemma wf_args vs ixs : wf (Shuffle vs ixs) = true -> forallb wf vs = true.
Proof. cbn. intros W. now apply andb_true_iff in W. Qed.

Lemma wf_call t n args ct vi : wf (ECall t n args ct vi) = true -> forallb wf args = true.
Proof. cbn. intros W. now destr_and. Qed.

Lemma forallb_Forall_wf (P : Expr -> Prop) l : forallb wf l = true ->
  Forall (fun e => wf e = true -> P e) l -> Forall P l.
Proof.
  intros W H. rewrite forallb_forall in W. rewrite Forall_forall in *. intros e I. auto.
Qed.

Lemma compare_expr_header a b : exists body, compare_expr a b =
  compare_scalar (node_type a) (node_type b) >> compare_types (type_of a) (type_of b) >> body.
Proof. destruct a; eexists; reflexivity. Qed.

(** The comparison of the fields, as a function of its own. *)
Definition compare_fields (a b : Expr) : CmpResult :=
  match a, b with
  | IntImm _ v, IntImm _ w => compare_scalar v w
  | UIntImm _ v, UIntImm _ w => compare_scalar v w
  | FloatImm _ v, FloatImm _ w => compare_float v w
  | StringImm v, StringImm w => compare_names v w
  | Cast _ v, Cast _ w => compare_expr v w
  | EVariable _ n, EVariable _ m => compare_names n m
  | EBin _ a1 a2, EBin _ b1 b2 => compare_expr a1 b1 >> compare_expr a2 b2
  | ECmp _ a1 a2, ECmp _ b1 b2 => compare_expr a1 b1 >> compare_expr a2 b2
  | ENot a1, ENot b1 => compare_expr a1 b1
  | Select a1 a2 a3, Select b1 b2 b3 => compare_expr a1 b1 >> compare_expr a2 b2 >> compare_expr a3 b3
  | Load _ n p i al, Load _ m q j bl =>
      compare_names m n >> compare_expr p q >> compare_expr i j >>
      compare_scalar (modulus al) (modulus bl) >> compare_scalar (remainder al) (remainder bl)
  | Ramp a1 a2 _, Ramp b1 b2 _ => compare_expr a1 b1 >> compare_expr a2 b2
  | Broadcast v _, Broadcast w _ => compare_expr v w
  | ECall _ n args ct vi, ECall _ m args' ct' vi' =>
      compare_names n m >> compare_scalar (call_type_number ct) (call_type_number ct') >>
      compare_scalar vi vi' >> compare_vector compare_expr args args'
  | ELet n v c, ELet m w d => compare_names n m >> compare_expr v w >> compare_expr c d
  | Shuffle vs ixs, Shuffle ws jxs =>
      compare_vector compare_expr vs ws >> compare_vector compare_scalar ixs jxs
  | _, _ => Equal
  end.

Lemma compare_expr_eqn a b : compare_expr a b =
  compare_scalar (node_type a) (node_type b) >> compare_types (type_of a) (type_of b) >> compare_fields a b.
Proof. destruct a; reflexivity. Qed.

(** Comparing in the other order flips the result. *)
Lemma compare_expr_flip a : forall b, compare_expr b a = flip_result (compare_expr a b).
Proof.
  induction a using Expr_ind'; intros b;
    rewrite !compare_expr_eqn, !flip_then, <- compare_scalar_flip, <- compare_types_flip;
    destruct (compare_scalar _ _) eqn:N; try reflexivity; cbn [and_then]; f_equal;
    apply compare_scalar_eq in N; destruct b; try (destruct op); try (destruct op0); try discriminate N;
    cbn [compare_fields]; rewrite ?flip_then;
    repeat match goal with IH : forall b, compare_expr b ?x = _ |- context [compare_expr _ ?x] => rewrite IH end;
    rewrite <- ?compare_names_flip, <- ?compare_scalar_flip, <- ?compare_float_flip, <- ?compare_scalars_flip;
    try reflexivity; try (rewrite <- compare_vector_flip by assumption; reflexivity).
Qed.

(** Only equal expressions compare equal. *)
Lemma compare_expr_eq a : wf a = true -> forall b, compare_expr a b = Equal -> a = b.
Proof.
  induction a using Expr_ind'; intros W b; rewrite compare_expr_eqn; intros E;
    apply then_equal in E; destruct E as [N E]; apply then_equal in E; destruct E as [T E];
    apply compare_scalar_eq in N; apply compare_types_eq in T; destruct b;
    try (destruct op); try (destruct op0); try discriminate N; try discriminate W;
    cbn [compare_fields] in E; split_then; cbn [type_of] in T;
    try match type of W with wf (Shuffle _ _) = true => idtac | wf (ECall _ _ _ _ _) = true => idtac | _ => cbn [wf] in W; destr_and end;
    repeat match goal with IH : ?w = true -> forall b, compare_expr ?x b = Equal -> ?x = b, E : compare_expr ?x ?y = Equal |- _ =>
      assert (x = y) by (apply IH; assumption); clear E end;
    subst; try congruence.
  - destruct al, alignment. cbn in *. congruence.
  - assert (n = n0) by (injection T; auto). congruence.
  - assert (n = n0) by (injection T; auto). congruence.
  - f_equal; auto using call_type_number_inj.
    apply (compare_elements_eq compare_expr); [|assumption]. apply forallb_Forall_wf; [eapply wf_call; eassumption|eassumption].
  - apply compare_scalars_eq in H1. f_equal; [|exact H1].
    apply (compare_elements_eq compare_expr); [|assumption].
    apply forallb_Forall_wf; [now apply (wf_args vs ixs)|exact H].
Qed.

(** An expression compares equal to itself. *)
Lemma compare_expr_refl a : compare_expr a a = Equal.
Proof.
  pose proof (compare_expr_flip a a) as F. destruct (compare_expr a a); cbn in F; congruence.
Qed.

(** The comparisons of three expressions fit together. *)
Lemma compare_expr_trans a : wf a = true -> forall b c,
  ordered3 (compare_expr a b) (compare_expr b c) (compare_expr a c).
Proof.
  induction a using Expr_ind'; intros W b c; rewrite !compare_expr_eqn;
    (apply ordered3_then; [apply compare_scalar_trans|intros N1 N2]);
    (apply ordered3_then; [apply compare_types_trans|intros _ _]);
    apply compare_scalar_eq in N1, N2; destruct b;
    try (destruct op); try (destruct op0); try discriminate N1; try discriminate W; clear N1;
    destruct c; try (destruct op); try discriminate N2; clear N2;
    try match type of W with wf (Shuffle _ _) = true => idtac | wf (ECall _ _ _ _ _) = true => idtac | _ => cbn [wf] in W; destr_and end;
    cbn [compare_fields];
    repeat first
      [ apply ordered3_refl | apply compare_scalar_trans | apply compare_names_trans
      | apply compare_scalars_trans
      | apply compare_names_trans_back
      | match goal with IH : ?w = true -> forall b c, ordered3 (compare_expr ?x b) _ _ |- ordered3 (compare_expr ?x _) _ _ => apply IH; assumption end
      | apply compare_vector_trans; apply forallb_Forall_wf; [solve [eauto using wf_args, wf_call]|assumption]
      | apply ordered3_then; [|intros _ _] ].
Qed.

(** ** Sets of facts *)

(** [std::set<Expr, IRDeepCompare>]: an expression is found when neither of it
    and an element is less than the other. *)
Definition count (facts : list Expr) (e : Expr) : bool :=
  existsb (fun f => negb (deep_less f e) && negb (deep_less e f)) facts.

(** [insert], with whether the fact is new. *)
Definition insert_fact (facts : list Expr) (e : Expr) : list Expr * bool :=
  if count facts e then (facts, false) else (e :: facts, true).

(** [erase]. *)
Definition erase_fact (facts : list Expr) (e : Expr) : list Expr :=
  filter (fun f => deep_less f e || deep_less e f) facts.

Lemma neither_less a b : negb (deep_less a b) && negb (deep_less b a) = true <-> compare_expr a b = Equal.
Proof.
  unfold deep_less. rewrite (compare_expr_flip a b). destruct (compare_expr a b); cbn; easy.
Qed.

Lemma count_In facts e : wf e = true -> count facts e = true <-> In e facts.
Proof.
  intros W. unfold count. rewrite existsb_exists. split.
  - intros (f & I & E). apply neither_less in E. pose proof (compare_expr_flip f e) as F.
    rewrite E in F. apply compare_expr_eq in F; [now subst|exact W].
  - intros I. exists e. split; [exact I|]. apply neither_less, compare_expr_refl.
Qed.

(** C38: [IRDeepCompare] is a strict total order on
    well-formed expressions: what a [std::set] relies on. *)
Theorem deep_less_total_order a b c : wf a = true -> wf b = true -> wf c = true ->
  deep_less a a = false /\
  (deep_less a b = true -> deep_less b c = true -> deep_less a c = true) /\
  (deep_less a b = true \/ a = b \/ deep_less b a = true) /\
  (deep_less a b = true -> deep_less b a = false).
Proof.
  intros Wa Wb Wc. unfold deep_less. rewrite (compare_expr_flip a b), compare_expr_refl.
  split; [reflexivity|]. split; [|split].
  - destruct (compare_expr_trans a Wa b c) as (_ & _ & T).
    destruct (compare_expr a b), (compare_expr b c); try discriminate. intros _ _. now rewrite T.
  - destruct (compare_expr a b) eqn:E; cbn; auto. right. left. now apply compare_expr_eq.
  - destruct (compare_expr a b); cbn; easy.
Qed.

Lemma deep_less_total_order_witness :
  let x := EVariable (Int 32 1) "x" in let y := EVariable (Int 32 1) "y" in
  deep_less x y = true /\ deep_less y x = false.
Proof.
  split; [reflexivity|].
  apply (deep_less_total_order (EVariable (Int 32 1) "x") (EVariable (Int 32 1) "y") (EVariable (Int 32 1) "x"));
    reflexivity.
Defined.

(** C39: [equal] of src/IREquality.cpp decides equality of
    well-formed expressions, though it reads some fields off the type only. *)
Theorem ir_equal_correct a b : wf a = true -> ir_equal a b = true <-> a = b.
Proof.
  intros W. unfold ir_equal. split.
  - destruct (compare_expr a b) eqn:E; try discriminate. intros _. now apply compare_expr_eq.
  - intros ->. now rewrite compare_expr_refl.
Qed.

Lemma ir_equal_correct_witness :
  ir_equal (Ramp (IntImm (Int 32 1) 0) (IntImm (Int 32 1) 1) 4)
           (Ramp (IntImm (Int 32 1) 0) (IntImm (Int 32 1) 1) 8) = true <->
  Ramp (IntImm (Int 32 1) 0) (IntImm (Int 32 1) 1) 4 = Ramp (IntImm (Int 32 1) 0) (IntImm (Int 32 1) 1) 8.
Proof. apply ir_equal_correct. reflexivity. Defined.

(** A NaN immediate compares equal to every other of its
    type, so that the order is none on floating point expressions. *)
Theorem ir_equal_nan :
  let nan := FloatImm (Float 32 1) S754_nan in
  let one := FloatImm (Float 32 1) (f64_of_Z 1) in let two := FloatImm (Float 32 1) (f64_of_Z 2) in
  ir_equal one nan = true /\ ir_equal nan two = true /\ ir_equal one two = false.
Proof. repeat split. Qed.

Lemma deep_less_eq f e : wf f = true -> deep_less f e || deep_less e f = false -> f = e.
Proof.
  intros W H. apply compare_expr_eq; [exact W|]. unfold deep_less in H. rewrite (compare_expr_flip f e) in H.
  destruct (compare_expr f e); cbn in H; easy.
Qed.

Lemma erase_absent facts e : Forall (fun f => wf f = true) facts -> ~ In e facts -> erase_fact facts e = facts.
Proof.
  unfold erase_fact. induction 1 as [|f l W _ IH]; intros N; [reflexivity|]. cbn [filter In] in *.
  destruct (deep_less f e || deep_less e f) eqn:E; [rewrite IH; tauto|].
  exfalso. apply N. left. now apply deep_less_eq.
Qed.

(** A new fact is found after it is inserted, no other
    is, and erasing it restores the set. *)
Theorem fact_set_roundtrip facts e : Forall (fun f => wf f = true) facts -> wf e = true ->
  count facts e = false ->
  snd (insert_fact facts e) = true /\
  (forall x, wf x = true -> count (fst (insert_fact facts e)) x = true <-> x = e \/ count facts x = true) /\
  erase_fact (fst (insert_fact facts e)) e = facts.
Proof.
  intros F W N. unfold insert_fact. rewrite N. cbn [fst snd]. split; [reflexivity|]. split.
  - intros x Wx. rewrite !count_In by assumption. cbn [In]. intuition congruence.
  - cbn [erase_fact filter]. replace (deep_less e e || deep_less e e) with false.
    + apply erase_absent; [exact F|]. intros I. apply count_In in I; [congruence|exact W].
    + unfold deep_less. now rewrite compare_expr_refl.
Qed.

Lemma fact_set_roundtrip_witness :
  let x := EVariable (BoolT 1) "x" in let y := EVariable (BoolT 1) "y" in
  erase_fact (fst (insert_fact [x] y)) y = [x].
Proof.
  apply (fact_set_roundtrip [EVariable (BoolT 1) "x"] (EVariable (BoolT 1) "y")); try reflexivity.
  repeat constructor.
Defined.
