(* ===== verification/IRMatch.v ===== *)
(** * The term rewriting engine

    Expression equality ([equal] of src/IRMatch.cpp) and the pattern language
    of src/IRMatch.h: patterns, matching, construction of replacements,
    constant folding of predicates and right hand sides, and the rewriter.
    The template types of the source become the constructors of [Pat]; the
    static [bound] masks become an argument. *)

From Stdlib Require Import ZArith Lia Bool List String SpecFloat.
From S2P Require Import Prelude.
From S2P Require Import IntArith.
From S2P Require Import ModulusRemainder.
From S2P Require Import HalideTypes.
From S2P Require Import IR.
Import ListNotations.
Open Scope Z_scope.

(** ** Equality of expressions *)

Definition call_type_eqb (a b : CallType) : bool :=
  match a, b with
  | Image, Image | Extern, Extern | ExternCPlusPlus, ExternCPlusPlus
  | PureExtern, PureExtern | HalideCall, HalideCall
  | Intrinsic, Intrinsic | PureIntrinsic, PureIntrinsic => true
  | _, _ => false
  end.

Section ListEqb.
Context {A : Type} (f : A -> A -> bool).

(** [equal_helper] on vectors. *)
Fixpoint list_eqb (l1 l2 : list A) : bool :=
  match l1, l2 with
  | [], [] => true
  | a :: l1', b :: l2' => f a b && list_eqb l1' l2'
  | _, _ => false
  end.
End ListEqb.

(** Nodes of equal type and node type are compared by [equal_helper]; the
    predicate and alignment of a load are not. *)
Fixpoint equal (a b : Expr) {struct a} : bool :=
  type_eqb (type_of a) (type_of b) && (node_type a =? node_type b) &&
  match a, b with
  | IntImm _ v, IntImm _ w => v =? w
  | UIntImm _ v, UIntImm _ w => v =? w
  | FloatImm _ v, FloatImm _ w => SFeqb v w
  | StringImm v, StringImm w => String.eqb v w
  | Cast _ v, Cast _ w => equal v w
  | EVariable _ n, EVariable _ m => String.eqb n m
  | EBin _ a1 a2, EBin _ b1 b2 => equal a1 b1 && equal a2 b2
  | ECmp _ a1 a2, ECmp _ b1 b2 => equal a1 b1 && equal a2 b2
  | ENot v, ENot w => equal v w
  | Select c t f, Select c' t' f' => equal c c' && equal t t' && equal f f'
  | Load _ n _ i _, Load _ m _ j _ => String.eqb n m && equal i j
  | Ramp b1 s1 _, Ramp b2 s2 _ => equal b1 b2 && equal s1 s2
  | Broadcast v _, Broadcast w _ => equal v w
  | ECall _ n args ct vi, ECall _ n' args' ct' vi' =>
      String.eqb n n' && call_type_eqb ct ct' && (vi =? vi') && list_eqb equal args args'
  | ELet n v e, ELet n' v' e' => String.eqb n n' && equal v v' && equal e e'
  | Shuffle vs ixs, Shuffle vs' ixs' => list_eqb equal vs vs' && list_eqb Z.eqb ixs ixs'
  | _, _ => false
  end.

(** ** Scalar values *)

(** [halide_scalar_value_t]: a 64-bit union. *)
Inductive ScalarValue := VInt (v : Z) | VFloat (f : spec_float).

Definition bits_of_f64 (f : spec_float) : Z :=
  match f with
  | S754_zero s => if s then 2 ^ 63 else 0
  | S754_infinity s => (if s then 2 ^ 63 else 0) + Z.shiftl 2047 52
  | S754_nan => Z.shiftl 4095 51
  | S754_finite s m e =>
      (if s then 2 ^ 63 else 0) +
      (if 2 ^ 52 <=? Z.pos m then Z.shiftl (e + 1075) 52 + (Z.pos m - 2 ^ 52) else Z.pos m)
  end.

Definition f64_of_bits (b : Z) : spec_float :=
  let s := Z.testbit b 63 in
  let ex := Z.land (Z.shiftr b 52) 2047 in
  let m := Z.land b (2 ^ 52 - 1) in
  let finite m e := binary_normalize 53 1024 (if s then - m else m) e s in
  if ex =? 2047 then (if m =? 0 then S754_infinity s else S754_nan)
  else if ex =? 0 then finite m (-1074)
  else finite (m + 2 ^ 52) (ex - 1075).

Definition as_u64 (v : ScalarValue) : Z :=
  match v with VInt z => u64 z | VFloat f => bits_of_f64 f end.
Definition as_i64 (v : ScalarValue) : Z :=
  match v with VInt z => i64 z | VFloat f => i64 (bits_of_f64 f) end.
Definition as_f64 (v : ScalarValue) : spec_float :=
  match v with VInt z => f64_of_bits (u64 z) | VFloat f => f end.

Definition VBool (b : bool) : ScalarValue := VInt (b2z b).

(** ** Patterns *)

Inductive Pat :=
| PWild (i : nat)
| PConst (i : nat)
| PLit (v : Z)
| PSpecific (e : Expr)
| PArg (k : nat)
| PBin (op : BinOp) (a b : Pat)
| PCmp (op : CmpOp) (a b : Pat)
| PNot (a : Pat)
| PSelect (c t f : Pat)
| PBroadcast (a : Pat) (known_lanes : option Z)
| PRamp (a b : Pat) (known_lanes : option Z)
| PNeg (a : Pat)
| PCast (t : HType) (a : Pat)
| PFold (a : Pat)
| POverflows (a : Pat)
| PIndeterminate
| POverflow
| PIntrin (name : string) (a : Pat)
| PIsConst (a : Pat)
| PIsFloat (a : Pat)
| PCanProve (a : Pat).

(** [std::is_same<A, Const>]. *)
Definition is_lit (p : Pat) : bool := match p with PLit _ => true | _ => false end.

(** The [binds] mask: constants in the low half, wildcards in the high half. *)
Fixpoint binds (p : Pat) : Z :=
  match p with
  | PWild i => Z.shiftl 1 (Z.of_nat i + 16)
  | PConst i => Z.shiftl 1 (Z.of_nat i)
  | PLit _ | PSpecific _ | PArg _ | PIndeterminate | POverflow => 0
  | PBin _ a b | PCmp _ a b | PRamp a b _ => Z.lor (binds a) (binds b)
  | PSelect c t f => Z.lor (Z.lor (binds c) (binds t)) (binds f)
  | PNot a | PBroadcast a _ | PNeg a | PCast _ a | PFold a | POverflows a
  | PIntrin _ a | PIsConst a | PIsFloat a | PCanProve a => binds a
  end.

Definition is_bound (bound : Z) (i : nat) : bool := Z.testbit bound (Z.of_nat i).
Definition is_bound_wild (bound : Z) (i : nat) : bool := Z.testbit bound (Z.of_nat i + 16).

(** ** The matcher's state *)

Record MatcherState := mkState {
  bindings : nat -> Expr;
  bound_const : nat -> ScalarValue;
  bound_const_type : nat -> HType
}.

Definition update {A} (f : nat -> A) (i : nat) (a : A) : nat -> A :=
  fun j => if Nat.eqb j i then a else f j.

Definition set_binding (s : MatcherState) (i : nat) (e : Expr) : MatcherState :=
  mkState (update (bindings s) i e) (bound_const s) (bound_const_type s).

Definition set_bound_const (s : MatcherState) (i : nat) (v : ScalarValue) (t : HType)
    : MatcherState :=
  mkState (bindings s) (update (bound_const s) i v) (update (bound_const_type s) i t).

(** Nothing bound yet.  The arrays of the source are uninitialized; the
    [bound] masks keep unbound entries from being read. *)
Definition initial_state : MatcherState :=
  mkState (fun _ => IntImm no_type 0) (fun _ => VInt 0) (fun _ => no_type).

(** ** Matching *)

Definition binop_eqb (a b : BinOp) : bool :=
  match a, b with
  | Add, Add | Sub, Sub | Mul, Mul | Div, Div | Mod, Mod
  | Min, Min | Max, Max | And, And | Or, Or => true
  | _, _ => false
  end.

Definition cmpop_eqb (a b : CmpOp) : bool :=
  match a, b with
  | EQ, EQ | NE, NE | LT, LT | LE, LE | GT, GT | GE, GE => true
  | _, _ => false
  end.

Definition strip_broadcast (e : Expr) : Expr :=
  match e with Broadcast v _ => v | _ => e end.

(** [WildConst<i>::match]. *)
Definition match_wild_const (bound : Z) (i : nat) (e : Expr) (s : MatcherState)
    : option MatcherState :=
  let op := strip_broadcast e in
  let same := type_eqb (type_of op) (bound_const_type s i) in
  match op with
  | IntImm _ value =>
      if is_bound bound i
      then if same && (value =? as_i64 (bound_const s i)) then Some s else None
      else Some (set_bound_const s i (VInt value) (type_of e))
  | UIntImm _ value =>
      if is_bound bound i
      then if same && (value =? as_u64 (bound_const s i)) then Some s else None
      else Some (set_bound_const s i (VInt value) (type_of e))
  | FloatImm _ value =>
      if is_bound bound i
      then if same && SFeqb value (as_f64 (bound_const s i)) then Some s else None
      else Some (set_bound_const s i (VFloat value) (type_of e))
  | _ => None
  end.

(** [Const::match]. *)
Definition match_lit (v : Z) (e : Expr) : bool :=
  match strip_broadcast e with
  | IntImm _ value => value =? v
  | UIntImm _ value => value =? u64 v
  | FloatImm _ value => SFeqb value (f64_of_Z v)
  | _ => false
  end.

Definition lanes_match (known_lanes : option Z) (n : Z) : bool :=
  match known_lanes with Some l => l =? n | None => true end.

Fixpoint match_pat (bound : Z) (p : Pat) (e : Expr) (s : MatcherState)
    : option MatcherState :=
  match p with
  | PWild i =>
      if is_bound_wild bound i
      then if equal (bindings s i) e then Some s else None
      else Some (set_binding s i e)
  | PConst i => match_wild_const bound i e s
  | PLit v => if match_lit v e then Some s else None
  | PSpecific x => if equal x e then Some s else None
  | PBin op a b =>
      match e with
      | EBin op' ea eb =>
          if binop_eqb op op' then
            match match_pat bound a ea s with
            | Some s' => match_pat (Z.lor bound (binds a)) b eb s'
            | None => None
            end
          else None
      | _ => None
      end
  | PCmp op a b =>
      match e with
      | ECmp op' ea eb =>
          if cmpop_eqb op op' then
            match match_pat bound a ea s with
            | Some s' => match_pat (Z.lor bound (binds a)) b eb s'
            | None => None
            end
          else None
      | _ => None
      end
  | PNot a => match e with ENot ea => match_pat bound a ea s | _ => None end
  | PSelect c t f =>
      match e with
      | Select ec et ef =>
          match match_pat bound c ec s with
          | Some s1 =>
              match match_pat (Z.lor bound (binds c)) t et s1 with
              | Some s2 => match_pat (Z.lor (Z.lor bound (binds c)) (binds t)) f ef s2
              | None => None
              end
          | None => None
          end
      | _ => None
      end
  | PBroadcast a l =>
      match e with
      | Broadcast value n => if lanes_match l n then match_pat bound a value s else None
      | _ => None
      end
  | PRamp a b l =>
      match e with
      | Ramp base stride n =>
          if lanes_match l n then
            match match_pat bound a base s with
            | Some s' => match_pat (Z.lor bound (binds a)) b stride s'
            | None => None
            end
          else None
      | _ => None
      end
  | PNeg a =>
      match e with
      | EBin Sub ea eb =>
          match match_pat bound a eb s with
          | Some s' => if is_zero ea then Some s' else None
          | None => None
          end
      | _ => None
      end
  | PCast t a =>
      match e with
      | Cast t' value => if type_eqb t' t then match_pat bound a value s else None
      | _ => None
      end
  | PIndeterminate =>
      match e with
      | ECall _ n _ ct _ => if is_intrinsic n ct indeterminate_name then Some s else None
      | _ => None
      end
  | POverflow =>
      match e with
      | ECall _ n _ ct _ => if is_intrinsic n ct overflow_name then Some s else None
      | _ => None
      end
  | PIntrin name a =>
      match e with
      | ECall _ n (arg :: _) ct _ =>
          if is_intrinsic n ct name then match_pat bound a arg s else None
      | _ => None
      end
  | PArg _ | PFold _ | POverflows _ | PIsConst _ | PIsFloat _ | PCanProve _ => None
  end.

(** ** Constant folding *)

Definition signed_integer_overflow : Z := 0x8000.
Definition indeterminate_expression : Z := 0x4000.
Definition special_values_mask : Z := 0xc000.

(** [ty.lanes |= flag]. *)
Definition or_lanes (t : HType) (flag : Z) : HType := with_lanes t (Z.lor (lanes t) flag).
Definition flag_if (b : bool) (flag : Z) (t : HType) : HType := if b then or_lanes t flag else t.
Definition special (t : HType) : bool := negb (Z.land (lanes t) special_values_mask =? 0).

(** [constant_fold_bin_op] on signed values.  [INT64_MIN / -1] is undefined in
    the source; it is taken to wrap. *)
Definition fold_bin_int (op : BinOp) (t : HType) (a b : Z) : Z * HType :=
  let wide := 32 <=? bits t in
  match op with
  | Add => (normalize_s (bits t) (u64 a + u64 b),
            flag_if (wide && add_would_overflow (bits t) a b) signed_integer_overflow t)
  | Sub => (normalize_s (bits t) (u64 a - u64 b),
            flag_if (wide && sub_would_overflow (bits t) a b) signed_integer_overflow t)
  | Mul => (normalize_s (bits t) (u64 a * u64 b),
            flag_if (wide && mul_would_overflow (bits t) a b) signed_integer_overflow t)
  | Div => if b =? 0 then (0, or_lanes t indeterminate_expression) else (i64 (div_imp a b), t)
  | Mod => if b =? 0 then (0, or_lanes t indeterminate_expression) else (mod_imp a b, t)
  | Min => (Z.min a b, t)
  | Max => (Z.max a b, t)
  | And => (Z.land (Z.land a b) 1, t)
  | Or => (Z.land (Z.lor a b) 1, t)
  end.

(** ... on unsigned values, ... *)
Definition fold_bin_uint (op : BinOp) (t : HType) (a b : Z) : Z * HType :=
  let ones := Z.shiftr (2 ^ 64 - 1) (64 - bits t) in
  match op with
  | Add => (Z.land (a + b) ones, t)
  | Sub => (Z.land (a - b) ones, t)
  | Mul => (Z.land (a * b) ones, t)
  | Div => if b =? 0 then (0, or_lanes t indeterminate_expression) else (a / b, t)
  | Mod => if b =? 0 then (0, or_lanes t indeterminate_expression) else (a mod b, t)
  | Min => (Z.min a b, t)
  | Max => (Z.max a b, t)
  | And => (Z.land (Z.land a b) 1, t)
  | Or => (Z.land (Z.lor a b) 1, t)
  end.

(** [floor] on doubles. *)
Definition sf_floor (f : spec_float) : spec_float :=
  match f with
  | S754_finite s m e =>
      if 0 <=? e then f
      else f64_of_Z ((if s then Z.neg m else Z.pos m) / 2 ^ (- e))
  | _ => f
  end.

(** ... and on doubles. *)
Definition fold_bin_float (op : BinOp) (t : HType) (a b : spec_float) : spec_float * HType :=
  match op with
  | Add => (SFadd 53 1024 a b, t)
  | Sub => (SFsub 53 1024 a b, t)
  | Mul => (SFmul 53 1024 a b, t)
  | Div => (SFdiv 53 1024 a b, t)
  | Mod => (SFsub 53 1024 a (SFmul 53 1024 b (sf_floor (SFdiv 53 1024 a b))), t)
  | Min => (if SFltb b a then b else a, t)
  | Max => (if SFltb a b then b else a, t)
  | And | Or => (f64_of_Z 0, or_lanes t indeterminate_expression)
  end.

Definition constant_fold_bin_op (op : BinOp) (t : HType) (a b : ScalarValue)
    : ScalarValue * HType :=
  match code t with
  | CInt => let '(v, t') := fold_bin_int op t (as_i64 a) (as_i64 b) in (VInt v, t')
  | CUInt => let '(v, t') := fold_bin_uint op t (as_u64 a) (as_u64 b) in (VInt v, t')
  | CFloat => let '(v, t') := fold_bin_float op t (as_f64 a) (as_f64 b) in (VFloat v, t')
  | CHandle => (a, t)
  end.

Definition sf_cmp (op : CmpOp) (a b : spec_float) : bool :=
  match op with
  | EQ => SFeqb a b | NE => negb (SFeqb a b)
  | LT => SFltb a b | LE => SFleb a b
  | GT => SFltb b a | GE => SFleb b a
  end.

Definition constant_fold_cmp_op (op : CmpOp) (t : HType) (a b : ScalarValue) : ScalarValue :=
  match code t with
  | CInt => VBool (evcmp op (as_i64 a) (as_i64 b))
  | CUInt => VBool (evcmp op (as_u64 a) (as_u64 b))
  | CFloat => VBool (sf_cmp op (as_f64 a) (as_f64 b))
  | CHandle => a
  end.

(** [NegateOp::make_folded_const], after its operand. *)
Definition fold_negate (v : ScalarValue) (t : HType) : ScalarValue * HType :=
  match code t with
  | CInt =>
      if (32 <=? bits t) && negb (as_u64 v =? 0) &&
         (u64 (Z.shiftl (as_u64 v) (65 - bits t)) =? 0)
      then (v, or_lanes t signed_integer_overflow)
      else (VInt (normalize_s (bits t) (- as_i64 v)), t)
  | CUInt => (VInt (normalize_u (bits t) (- as_u64 v)), t)
  | CFloat => (VFloat (SFopp (as_f64 v)), t)
  | CHandle => (v, t)
  end.

(** The short circuits of [BinOp::make_folded_const]. *)
Definition short_circuits (op : BinOp) (v : ScalarValue) : bool :=
  match op with
  | And => as_u64 v =? 0
  | Or => as_u64 v =? 1
  | _ => false
  end.

(** [Const::make_folded_const]. *)
Definition fold_lit (v : Z) (t : HType) : ScalarValue :=
  match code t with
  | CInt => VInt v
  | CUInt => VInt (u64 v)
  | CFloat => VFloat (f64_of_Z v)
  | CHandle => VInt 0
  end.

(** [Wild<i>::make_folded_const]. *)
Definition fold_wild (e : Expr) : ScalarValue :=
  match e with
  | IntImm _ v | UIntImm _ v => VInt v
  | FloatImm _ f => VFloat f
  | _ => VInt 0
  end.

(** ** Making expressions *)

(** The simplifier a rewriter belongs to: its state, the two static counters
    that make poison expressions unique, and its [mutate], which [can_prove]
    calls back. *)
Class Prover := mkProver {
  Simplifier : Type;
  next_indeterminate : Simplifier -> Z * Simplifier;
  next_overflow : Simplifier -> Z * Simplifier;
  prove : Expr -> Simplifier -> Expr * Simplifier
}.

Definition M {prover : Prover} (A : Type) : Type := Simplifier -> A * Simplifier.
Definition ret {prover : Prover} {A} (a : A) : M A := fun c => (a, c).
Notation "'let!' x := m 'in' k" :=
  (fun c => let '(x, c') := m c in k c') (at level 10, x binder, k at level 200).
Notation "'let!' ' x := m 'in' k" :=
  (fun c => let '(x, c') := m c in k c')
  (at level 10, x strict pattern, k at level 200).

Section Poison.
Context {prover : Prover}.

Definition make_indeterminate_expression (t : HType) : M Expr := fun c =>
  let '(n, c') := next_indeterminate c in
  (ECall t indeterminate_name [IntImm_make (Int 32 1) n] Intrinsic 0, c').

Definition make_signed_integer_overflow (t : HType) : M Expr := fun c =>
  let '(n, c') := next_overflow c in
  (ECall t overflow_name [IntImm_make (Int 32 1) n] Intrinsic 0, c').
End Poison.

Section Specials.
Context {prover : Prover}.

Definition make_const_special_expr (t : HType) : M Expr :=
  let flags := Z.land (lanes t) special_values_mask in
  let t := with_lanes t (Z.land (lanes t) (Z.lnot special_values_mask)) in
  if negb (Z.land flags indeterminate_expression =? 0) then make_indeterminate_expression t
  else make_signed_integer_overflow t.

Definition make_const_expr (v : ScalarValue) (t : HType) : M Expr :=
  if special t then make_const_special_expr t
  else
    let st := with_lanes t 1 in
    let e := match code t with
             | CInt => IntImm_make st (as_i64 v)
             | CUInt => UIntImm_make st (as_u64 v)
             | CFloat => FloatImm_make st (as_f64 v)
             | CHandle => StringImm "unreachable"
             end in
    ret (if 1 <? lanes t then Broadcast e (lanes t) else e).
End Specials.

(** The broadcasts inserted where a rule mixes vectors and scalars. *)
Definition match_lanes (ea eb : Expr) : Expr * Expr :=
  let eb := if is_vector (type_of ea) && is_scalar (type_of eb)
            then Broadcast eb (lanes (type_of ea)) else eb in
  let ea := if is_vector (type_of eb) && is_scalar (type_of ea)
            then Broadcast ea (lanes (type_of eb)) else ea in
  (ea, eb).

Definition known_or (known_lanes : option Z) (t : HType) : Z :=
  match known_lanes with Some l => l | None => lanes t end.

Section Make.
Context {prover : Prover}.
(** The operands of the instance being rewritten, and the matcher's state. *)
Context (args : list Expr) (s : MatcherState).

Fixpoint make (p : Pat) (hint : HType) {struct p} : M Expr :=
  match p with
  | PWild i => ret (bindings s i)
  | PConst i => make_const_expr (bound_const s i) (bound_const_type s i)
  | PLit v => ret (make_const hint v)
  | PSpecific e => ret e
  | PArg k => ret (nth k args (StringImm "no such operand"))
  | PBin op a b =>
      if is_lit a then
        let! eb := make b hint in
        let! ea := make a (type_of eb) in
        let '(ea, eb) := match_lanes ea eb in ret (EBin op ea eb)
      else
        let! ea := make a hint in
        let! eb := make b (type_of ea) in
        let '(ea, eb) := match_lanes ea eb in ret (EBin op ea eb)
  | PCmp op a b =>
      if is_lit a then
        let! eb := make b no_type in
        let! ea := make a (type_of eb) in
        let '(ea, eb) := match_lanes ea eb in ret (ECmp op ea eb)
      else
        let! ea := make a no_type in
        let! eb := make b (type_of ea) in
        let '(ea, eb) := match_lanes ea eb in ret (ECmp op ea eb)
  | PNot a => let! ea := make a hint in ret (ENot ea)
  | PSelect c t f =>
      let! ec := make c no_type in
      let! et := make t hint in
      let! ef := make f hint in
      ret (Select ec et ef)
  | PBroadcast a l =>
      let! ea := make a (with_lanes hint 1) in ret (Broadcast ea (known_or l hint))
  | PRamp a b l =>
      if is_lit a then
        let! eb := make b (with_lanes hint 1) in
        let! ea := make a (type_of eb) in ret (Ramp ea eb (known_or l hint))
      else
        let! ea := make a (with_lanes hint 1) in
        let! eb := make b (type_of ea) in ret (Ramp ea eb (known_or l hint))
  | PNeg a => let! ea := make a hint in ret (EBin Sub (make_zero (type_of ea)) ea)
  | PCast t a => let! ea := make a no_type in ret (cast t ea)
  | PFold a => let! '(v, t) := make_folded_const a hint in make_const_expr v t
  | PIndeterminate => make_const_special_expr (or_lanes hint indeterminate_expression)
  | POverflow => make_const_special_expr (or_lanes hint signed_integer_overflow)
  | PIntrin name a =>
      if String.eqb name likely_name || String.eqb name likely_if_innermost_name then
        let! ea := make a hint in ret (make_likely name ea)
      else ret (StringImm "Unhandled intrinsic in IRMatcher")
  | POverflows _ | PIsConst _ | PIsFloat _ | PCanProve _ => ret (StringImm "no make method")
  end

with make_folded_const (p : Pat) (t : HType) {struct p} : M (ScalarValue * HType) :=
  match p with
  | PWild i => ret (fold_wild (bindings s i), type_of (bindings s i))
  | PConst i => ret (bound_const s i, bound_const_type s i)
  | PLit v => ret (fold_lit v t, t)
  | PBin op a b =>
      if is_lit a then
        let! '(vb, t1) := make_folded_const b t in
        if short_circuits op vb then ret (vb, t1)
        else
          let! '(va, t2) := make_folded_const a t1 in
          ret (constant_fold_bin_op op (or_lanes t2 (lanes t1)) va vb)
      else
        let! '(va, t1) := make_folded_const a t in
        if short_circuits op va then ret (va, t1)
        else
          let! '(vb, t2) := make_folded_const b t1 in
          ret (constant_fold_bin_op op (or_lanes t2 (lanes t1)) va vb)
  | PCmp op a b =>
      if is_lit a then
        let! '(vb, t1) := make_folded_const b t in
        let! '(va, t2) := make_folded_const a t1 in
        let t' := or_lanes t2 (lanes t1) in
        ret (constant_fold_cmp_op op t' va vb, BoolT (lanes t'))
      else
        let! '(va, t1) := make_folded_const a t in
        let! '(vb, t2) := make_folded_const b t1 in
        let t' := or_lanes t2 (lanes t1) in
        ret (constant_fold_cmp_op op t' va vb, BoolT (lanes t'))
  | PNot a =>
      let! '(v, t') := make_folded_const a t in
      ret (VInt (Z.land (Z.lnot (as_u64 v)) 1),
           flag_if (is_float t') indeterminate_expression t')
  | PSelect c x f =>
      let! '(vc, ct) := make_folded_const c no_type in
      let! '(v, t') :=
        (if Z.odd (as_u64 vc) then make_folded_const x t else make_folded_const f t) in
      ret (v, or_lanes t' (Z.land (lanes ct) special_values_mask))
  | PBroadcast a l =>
      let! '(v, t') := make_folded_const a t in
      ret (v, with_lanes t' (Z.lor (known_or l t) (Z.land (lanes t') special_values_mask)))
  | PNeg a => let! '(v, t') := make_folded_const a t in ret (fold_negate v t')
  | PFold a => make_folded_const a t
  | POverflows a =>
      let! '(_, t') := make_folded_const a t in ret (VBool (special t'), UInt 64 1)
  | PIndeterminate => ret (VInt 0, or_lanes t indeterminate_expression)
  | POverflow => ret (VInt 0, or_lanes t signed_integer_overflow)
  | PIsConst a => let! e := make a no_type in ret (VBool (is_const e), UInt 64 1)
  | PIsFloat a =>
      let! e := make a no_type in
      ret (VBool (is_float (type_of e)), BoolT (lanes (type_of e)))
  | PCanProve a =>
      let! e := make a no_type in
      let! e' := prove e in
      ret (VBool (is_one e'), BoolT (lanes (type_of e')))
  | PSpecific _ | PArg _ | PRamp _ _ _ | PCast _ _ | PIntrin _ _ => ret (VInt 0, t)
  end.

(** [evaluate_predicate]: an overflow counts as a failed predicate. *)
Definition evaluate_predicate (p : Pat) : M bool :=
  let! '(v, t) := make_folded_const p (BoolT 1) in
  ret (negb (as_u64 v =? 0) && negb (special t)).
End Make.

(** ** Rules and rewriters *)

(** A call [rewrite(before, after, pred)].  An integer result stands for
    [make_const(output_type, after)], an expression for a specific one. *)
Record Rule := mkRule { before : Pat; after : Pat; pred : option Pat }.

Definition operands (e : Expr) : list Expr :=
  match e with
  | EBin _ a b | ECmp _ a b => [a; b]
  | Select c t f => [c; t; f]
  | ENot a => [a]
  | _ => []
  end.

Definition max_wild : nat := 6.

(** [static_assert(i >= 0 && i < max_wild)] of the wildcards. *)
Fixpoint indices_ok (p : Pat) : bool :=
  match p with
  | PWild i | PConst i => Nat.ltb i max_wild
  | PLit _ | PSpecific _ | PArg _ | PIndeterminate | POverflow => true
  | PBin _ a b | PCmp _ a b | PRamp a b _ => indices_ok a && indices_ok b
  | PSelect c t f => indices_ok c && indices_ok t && indices_ok f
  | PNot a | PBroadcast a _ | PNeg a | PCast _ a | PFold a | POverflows a
  | PIntrin _ a | PIsConst a | PIsFloat a | PCanProve a => indices_ok a
  end.

(** The static assertions of [Rewriter::operator()]. *)
Definition binds_within (p q : Pat) : bool := Z.land (binds p) (binds q) =? binds q.

Definition rule_static (r : Rule) : bool :=
  indices_ok (before r) && binds_within (before r) (after r) &&
  match pred r with Some p => binds_within (before r) p | None => true end.

Section Rewrite.
Context {prover : Prover}.

(** [match], then the predicate. *)
Definition rule_fires (e : Expr) (r : Rule) : M (option MatcherState) :=
  match match_pat 0 (before r) e initial_state with
  | None => ret None
  | Some s =>
      match pred r with
      | None => ret (Some s)
      | Some p =>
          let! b := evaluate_predicate (operands e) s p in ret (if b then Some s else None)
      end
  end.

(** The first rule that fires, the state it leaves and the replacement. *)
Fixpoint rewrite (e : Expr) (t : HType) (rules : list Rule)
    : M (option (Rule * MatcherState * Expr)) :=
  match rules with
  | [] => ret None
  | r :: rules' =>
      let! fired := rule_fires e r in
      match fired with
      | Some s => let! e' := make (operands e) s (after r) t in ret (Some (r, s, e'))
      | None => rewrite e t rules'
      end
  end.
End Rewrite.
