(* ===== verification/PatNotations.v ===== *)
(** * Notations for patterns

    The operators and functions of src/IRMatch.h that build patterns, so that
    the rule tables read like the source. *)

From Stdlib Require Import ZArith Bool List String.
From S2P Require Import Prelude.
From S2P Require Import HalideTypes.
From S2P Require Import IR.
From S2P Require Import IRMatch.
Import ListNotations.

Declare Scope pat_scope.
Delimit Scope pat_scope with pat.
Bind Scope pat_scope with Pat.

Definition pat_of_Z (z : Z) : Pat := PLit z.
Definition Z_of_pat (p : Pat) : option Z := match p with PLit z => Some z | _ => None end.
Number Notation Pat pat_of_Z Z_of_pat : pat_scope.

Notation "a + b" := (PBin Add a b) : pat_scope.
Notation "a - b" := (PBin Sub a b) : pat_scope.
Notation "a * b" := (PBin Mul a b) : pat_scope.
Notation "a / b" := (PBin Div a b) : pat_scope.
Notation "a 'mod' b" := (PBin Mod a b) : pat_scope.
Notation "a && b" := (PBin And a b) : pat_scope.
Notation "a || b" := (PBin Or a b) : pat_scope.
Notation "a == b" := (PCmp EQ a b) (at level 70, no associativity) : pat_scope.
Notation "a != b" := (PCmp NE a b) (at level 70, no associativity) : pat_scope.
Notation "a < b" := (PCmp LT a b) : pat_scope.
Notation "a <= b" := (PCmp LE a b) : pat_scope.
Notation "a > b" := (PCmp GT a b) : pat_scope.
Notation "a >= b" := (PCmp GE a b) : pat_scope.
Notation "! a" := (PNot a) (at level 35, right associativity) : pat_scope.
Notation "- a" := (PNeg a) : pat_scope.

(** The functions take their arguments as a tuple, as a C++ call does. *)
Definition select (p : Pat * Pat * Pat) : Pat := let '(c, t, f) := p in PSelect c t f.
Definition min (p : Pat * Pat) : Pat := PBin Min (fst p) (snd p).
Definition max (p : Pat * Pat) : Pat := PBin Max (fst p) (snd p).
Definition broadcast (a : Pat) : Pat := PBroadcast a None.
Definition broadcast2 (p : Pat * Z) : Pat := PBroadcast (fst p) (Some (snd p)).
Definition ramp (p : Pat * Pat) : Pat := PRamp (fst p) (snd p) None.
Definition ramp3 (p : Pat * Pat * Z) : Pat := let '(a, b, n) := p in PRamp a b (Some n).
Definition intrin (p : string * Pat) : Pat := PIntrin (fst p) (snd p).
Abbreviation fold := PFold.
Abbreviation overflows := POverflows.
Abbreviation can_prove := PCanProve.

(** The symbols of [Simplify] (src/Simplify_Internal.h). *)
Abbreviation x := (PWild 0).
Abbreviation y := (PWild 1).
Abbreviation z := (PWild 2).
Abbreviation w := (PWild 3).
Abbreviation u := (PWild 4).
Abbreviation v := (PWild 5).
Abbreviation c0 := (PConst 0).
Abbreviation c1 := (PConst 1).
Abbreviation c2 := (PConst 2).
Abbreviation c3 := (PConst 3).

(** The operands of the instance: the local variables of the visitors. *)
Abbreviation arg_a := (PArg 0).
Abbreviation arg_b := (PArg 1).
Abbreviation arg_true := (PArg 1).
Abbreviation arg_false := (PArg 2).

Notation "l ~> r" := (mkRule l%pat r%pat None) (at level 95, no associativity) : pat_scope.
Notation "l ~> r 'only_if' p" := (mkRule l%pat r%pat (Some p%pat))
  (at level 95, r at next level, p at next level, no associativity) : pat_scope.
