(* ===== verification/RuleSem.v ===== *)
(** * The meaning of patterns and rules

    A rewrite rule is judged at a valuation of its wildcards and constants:
    [lmatch] says what a pattern means on the left, [pev] and [mty] what the
    engine makes of it on the right, and [rule_typed] and [rule_sound] when a
    rule preserves types and values. *)

From Stdlib Require Import ZArith Lia Bool List String.
From S2P Require Import Prelude.
From S2P Require Import IntArith.
From S2P Require Import ModulusRemainder.
From S2P Require Import HalideTypes.
From S2P Require Import IR.
From S2P Require Import IRMatch.
Import ListNotations.
Open Scope Z_scope.

(** Types and values of the wildcards, of the constants and of the operands
    of the instance, at one vector lane. *)
Record Valuation := mkVal {
  venv : Env; lane : Z;
  wty : nat -> HType; wv : nat -> Z;
  cty : nat -> HType; cv : nat -> Z;
  aty : nat -> HType; av : nat -> Z
}.

Definition bin_type (op : BinOp) (t : HType) : HType :=
  if is_bool_op op then BoolT (lanes t) else t.

Definition divides (op : BinOp) : bool := match op with Div | Mod => true | _ => false end.

(** The constants of a pattern; a repeated one is compared with its first
    occurrence by element type only. *)
Fixpoint consts (p : Pat) : list nat :=
  match p with
  | PConst i => [i]
  | PWild _ | PLit _ | PSpecific _ | PArg _ | PIndeterminate | POverflow => []
  | PBin _ a b | PCmp _ a b | PRamp a b _ => consts a ++ consts b
  | PSelect c t f => (consts c ++ consts t) ++ consts f
  | PNot a | PBroadcast a _ | PNeg a | PCast _ a | PFold a | POverflows a
  | PIntrin _ a | PIsConst a | PIsFloat a | PCanProve a => consts a
  end.

Definition is_likely_name (name : string) : bool :=
  String.eqb name likely_name || String.eqb name likely_if_innermost_name.

Section Meaning.
Context (ρ : Valuation).

(** ** Left hand sides

    [lmatch d seen p T v]: the pattern stands for an expression of type [T]
    and value [v]; [d] says that the expression is free of undefined
    behaviour. *)

Definition bin_node (d : bool) (op : BinOp) (Ta : HType) (va vb : Z) (T : HType) (v : Z) : Prop :=
  T = bin_type op Ta /\ v = evbin op Ta va vb /\
  (if is_bool_op op then is_bool Ta = true else True) /\
  (if divides op then d = true -> vb <> 0 else True).

Definition cmp_node (op : CmpOp) (Ta : HType) (va vb : Z) (T : HType) (v : Z) : Prop :=
  T = BoolT (lanes Ta) /\ v = b2z (evcmp op va vb).

Definition select_node (Tc : HType) (vc vt vf : Z) (T : HType) (v : Z) : Prop :=
  is_bool Tc = true /\ (is_scalar Tc = true \/ lanes Tc = lanes T) /\
  v = if nz vc then vt else vf.

Fixpoint lmatch (d : bool) (seen : list nat) (p : Pat) (T : HType) (v : Z) {struct p} : Prop :=
  wf_type T /\ (d = true -> in_type T v) /\
  match p with
  | PWild i => T = wty ρ i /\ v = wv ρ i
  | PConst i =>
      v = cv ρ i /\
      (if existsb (Nat.eqb i) seen
       then element_of (cty ρ i) = element_of T /\ is_scalar (cty ρ i) = true
       else T = cty ρ i)
  | PLit z => v = cast_val T z
  | PSpecific e => T = type_of e /\ v = ev (venv ρ) (lane ρ) e
  | PBin op a b =>
      exists Ta va vb,
        lmatch d seen a Ta va /\ lmatch d (seen ++ consts a) b Ta vb /\
        bin_node d op Ta va vb T v
  | PCmp op a b =>
      exists Ta va vb,
        lmatch d seen a Ta va /\ lmatch d (seen ++ consts a) b Ta vb /\
        cmp_node op Ta va vb T v
  | PNot a =>
      exists va, lmatch d seen a T va /\ is_bool T = true /\ v = b2z (negb (nz va))
  | PSelect c t f =>
      exists Tc vc vt vf,
        lmatch d seen c Tc vc /\ lmatch d (seen ++ consts c) t T vt /\
        lmatch d (seen ++ consts c ++ consts t) f T vf /\
        select_node Tc vc vt vf T v
  | PBroadcast a l =>
      lmatch d seen a (element_of T) v /\ vector_lanes (lanes T) = true /\
      match l with Some n => lanes T = n | None => True end
  | PRamp a b l =>
      exists va vb,
        lmatch d seen a (element_of T) va /\ lmatch d (seen ++ consts a) b (element_of T) vb /\
        vector_lanes (lanes T) = true /\
        match l with Some n => lanes T = n | None => True end /\
        v = norm T (va + lane ρ * vb)
  | PIntrin name a => if is_likely_name name then lmatch d seen a T v else True
  | PCast t a =>
      exists Ta va, lmatch d seen a Ta va /\ T = t /\ lanes Ta = lanes t /\ v = cast_val t va
  | PIndeterminate | POverflow => d = false
  | PNeg _ => True
  | PArg _ | PFold _ | POverflows _ | PIsConst _ | PIsFloat _ | PCanProve _ => False
  end.

(** The instance as a whole; its operands are what a replacement can name.
    [ty] is the type of the operands of a comparison. *)
Definition arg_is (k : nat) (T : HType) (v : Z) : Prop := aty ρ k = T /\ av ρ k = v.

Definition root_match (d : bool) (ty : HType) (p : Pat) (T : HType) (v : Z) : Prop :=
  match p with
  | PBin op a b =>
      wf_type T /\ (d = true -> in_type T v) /\
      exists Ta va vb,
        lmatch d [] a Ta va /\ lmatch d (consts a) b Ta vb /\
        bin_node d op Ta va vb T v /\ arg_is 0 Ta va /\ arg_is 1 Ta vb
  | PCmp op a b =>
      wf_type T /\ (d = true -> in_type T v) /\
      exists va vb,
        lmatch d [] a ty va /\ lmatch d (consts a) b ty vb /\
        cmp_node op ty va vb T v /\ arg_is 0 ty va /\ arg_is 1 ty vb
  | PSelect c t f =>
      wf_type T /\ (d = true -> in_type T v) /\
      exists Tc vc vt vf,
        lmatch d [] c Tc vc /\ lmatch d (consts c) t T vt /\
        lmatch d (consts c ++ consts t) f T vf /\
        select_node Tc vc vt vf T v /\
        arg_is 0 Tc vc /\ arg_is 1 T vt /\ arg_is 2 T vf
  | _ => lmatch d [] p T v
  end.

(** ** Folded constants *)

(** [fty]: the type a fold leaves, flags apart. *)
Fixpoint fty (p : Pat) (t : HType) : HType :=
  match p with
  | PConst i => cty ρ i
  | PBin op a b =>
      if is_lit a then let t1 := fty b t in or_lanes (fty a t1) (lanes t1)
      else let t1 := fty a t in or_lanes (fty b t1) (lanes t1)
  | PCmp op a b =>
      if is_lit a then let t1 := fty b t in BoolT (Z.lor (lanes (fty a t1)) (lanes t1))
      else let t1 := fty a t in BoolT (Z.lor (lanes (fty b t1)) (lanes t1))
  | PNot a | PNeg a | PFold a => fty a t
  | _ => t
  end.

(** The type hints of the two operands. *)
Definition fhint_a (a b : Pat) (t : HType) : HType := if is_lit a then fty b t else t.
Definition fhint_b (a b : Pat) (t : HType) : HType := if is_lit a then t else fty a t.

Definition fbin (op : BinOp) (t : HType) (a b : Z) : Z :=
  match op with
  | Add => norm t (a + b)
  | Sub => norm t (a - b)
  | Mul => norm t (a * b)
  | Div => if is_int t then i64 (ediv a b) else ediv a b
  | Mod => emod a b
  | Min => Z.min a b
  | Max => Z.max a b
  | And => Z.land (Z.land a b) 1
  | Or => Z.land (Z.lor a b) 1
  end.

(** [fval]: the value. *)
Fixpoint fval (p : Pat) (t : HType) : Z :=
  match p with
  | PConst i => cv ρ i
  | PLit v => v
  | PBin op a b => fbin op (fty p t) (fval a (fhint_a a b t)) (fval b (fhint_b a b t))
  | PCmp op a b => b2z (evcmp op (fval a (fhint_a a b t)) (fval b (fhint_b a b t)))
  | PNot a => Z.land (Z.lnot (fval a t)) 1
  | PNeg a => norm (fty a t) (- fval a t)
  | PFold a => fval a t
  | _ => 0
  end.

(** [fclean]: no operation of the fold raises a flag. *)
Definition bin_clean (op : BinOp) (t : HType) (a b : Z) : bool :=
  match op with
  | Add => if no_overflow_int t then in_typeb t (a + b) else true
  | Sub => if no_overflow_int t then in_typeb t (a - b) else true
  | Mul => if no_overflow_int t then in_typeb t (a * b) else true
  | Div | Mod => negb (b =? 0)
  | _ => true
  end.

Fixpoint fclean (p : Pat) (t : HType) : bool :=
  match p with
  | PBin op a b =>
      fclean a (fhint_a a b t) && fclean b (fhint_b a b t) &&
      bin_clean op (fty p t) (fval a (fhint_a a b t)) (fval b (fhint_b a b t))
  | PCmp op a b => fclean a (fhint_a a b t) && fclean b (fhint_b a b t)
  | PNot a => fclean a t
  | PNeg a =>
      fclean a t && (if no_overflow_int (fty a t) then in_typeb (fty a t) (- fval a t) else true)
  | PFold a => fclean a t
  | _ => true
  end.

(** [ranged]: the value cannot leave the type; only a quotient can. *)
Fixpoint ranged (p : Pat) : bool :=
  match p with
  | PBin Div _ _ => false
  | PBin _ a b => ranged a && ranged b
  | PFold a => ranged a
  | _ => true
  end.

(** [fok]: the fold is an integer computation on operands of one type. *)
Fixpoint fok (p : Pat) (t : HType) : Prop :=
  match p with
  | PConst _ => True
  | PLit v => int_type t = true /\ in_type t v
  | PBin op a b =>
      is_bool_op op = false /\ ranged a = true /\ ranged b = true /\
      fok a (fhint_a a b t) /\ fok b (fhint_b a b t) /\
      element_of (fty a (fhint_a a b t)) = element_of (fty b (fhint_b a b t))
  | PCmp op a b =>
      fok a (fhint_a a b t) /\ fok b (fhint_b a b t) /\
      element_of (fty a (fhint_a a b t)) = element_of (fty b (fhint_b a b t))
  | PNot a => fok a t /\ is_bool (fty a t) = true
  | PNeg a => ranged a = true /\ fok a t
  | PFold a => fok a t
  | _ => False
  end.

(** ** Right hand sides *)

Definition join (ta tb : HType) : HType :=
  if is_vector ta then ta else with_lanes ta (lanes tb).

(** [mty]: the type of the expression made from a pattern under a hint. *)
Fixpoint mty (p : Pat) (h : HType) : HType :=
  match p with
  | PWild i => wty ρ i
  | PConst i => cty ρ i
  | PLit _ => h
  | PSpecific e => type_of e
  | PArg k => aty ρ k
  | PBin op a b =>
      if is_lit a then let tb := mty b h in bin_type op (join (mty a tb) tb)
      else let ta := mty a h in bin_type op (join ta (mty b ta))
  | PCmp op a b =>
      if is_lit a then let tb := mty b no_type in BoolT (lanes (join (mty a tb) tb))
      else let ta := mty a no_type in BoolT (lanes (join ta (mty b ta)))
  | PNot a => BoolT (lanes (mty a h))
  | PSelect c t f => mty t h
  | PBroadcast a l => with_lanes (mty a (with_lanes h 1)) (known_or l h)
  | PRamp a b l =>
      if is_lit a
      then let tb := mty b (with_lanes h 1) in with_lanes (mty a tb) (known_or l h)
      else with_lanes (mty a (with_lanes h 1)) (known_or l h)
  | PNeg a => mty a h
  | PCast t a => t
  | PFold a => fty a h
  | PIntrin name a => mty a h
  | _ => h
  end.

Definition hint_a (a b : Pat) (h : HType) : HType := if is_lit a then mty b h else h.
Definition hint_b (a b : Pat) (h : HType) : HType := if is_lit a then h else mty a h.

Definition compatible (ta tb : HType) : Prop :=
  element_of ta = element_of tb /\
  (lanes ta = lanes tb \/ lanes ta = 1 \/ lanes tb = 1).

(** [mok]: the expression made is well formed. *)
Fixpoint mok (p : Pat) (h : HType) : Prop :=
  match p with
  | PWild _ | PConst _ | PArg _ => True
  | PLit _ => wf_type h
  | PSpecific e => wf e = true
  | PBin op a b =>
      mok a (hint_a a b h) /\ mok b (hint_b a b h) /\
      compatible (mty a (hint_a a b h)) (mty b (hint_b a b h)) /\
      (if is_bool_op op then is_bool (mty a (hint_a a b h)) = true else True)
  | PCmp op a b =>
      mok a (hint_a a b no_type) /\ mok b (hint_b a b no_type) /\
      compatible (mty a (hint_a a b no_type)) (mty b (hint_b a b no_type))
  | PNot a => mok a h /\ is_bool (mty a h) = true
  | PSelect c t f =>
      mok c no_type /\ mok t h /\ mok f h /\ is_bool (mty c no_type) = true /\
      mty t h = mty f h /\
      (is_scalar (mty c no_type) = true \/ lanes (mty c no_type) = lanes (mty t h))
  | PBroadcast a l =>
      mok a (with_lanes h 1) /\ is_scalar (mty a (with_lanes h 1)) = true /\
      vector_lanes (known_or l h) = true
  | PRamp a b l =>
      let h1 := with_lanes h 1 in
      mok a (hint_a a b h1) /\ mok b (hint_b a b h1) /\
      mty a (hint_a a b h1) = mty b (hint_b a b h1) /\
      is_scalar (mty a (hint_a a b h1)) = true /\ vector_lanes (known_or l h) = true
  | PNeg a => mok a h
  | PCast t a => mok a no_type /\ wf_type t /\
      (lanes (mty a no_type) = lanes t \/ is_scalar (mty a no_type) = true)
  | PFold a => fok a h /\ wf_type (fty a h)
  | PIntrin name a => is_likely_name name = true /\ mok a h
  | PIndeterminate | POverflow => wf_type h
  | _ => False
  end.

(** [pev]: its value. *)
Fixpoint pev (p : Pat) (h : HType) : Z :=
  match p with
  | PWild i => wv ρ i
  | PConst i => cv ρ i
  | PLit v => cast_val h v
  | PSpecific e => ev (venv ρ) (lane ρ) e
  | PArg k => av ρ k
  | PBin op a b =>
      evbin op (mty a (hint_a a b h)) (pev a (hint_a a b h)) (pev b (hint_b a b h))
  | PCmp op a b =>
      b2z (evcmp op (pev a (hint_a a b no_type)) (pev b (hint_b a b no_type)))
  | PNot a => b2z (negb (nz (pev a h)))
  | PSelect c t f => if nz (pev c no_type) then pev t h else pev f h
  | PBroadcast a _ => pev a (with_lanes h 1)
  | PRamp a b _ =>
      let h1 := with_lanes h 1 in
      norm (mty a (hint_a a b h1)) (pev a (hint_a a b h1) + lane ρ * pev b (hint_b a b h1))
  | PNeg a => norm (mty a h) (0 - pev a h)
  | PCast t a =>
      if type_eqb (element_of (mty a no_type)) (element_of t) then pev a no_type
      else cast_val t (pev a no_type)
  | PFold a => cast_val (fty a h) (fval a h)
  | PIntrin _ a => pev a h
  | _ => 0
  end.

(** [pok]: it divides by no zero and is not a poison value, folds apart. *)
Fixpoint pok (p : Pat) (h : HType) : Prop :=
  match p with
  | PSpecific e => ok (venv ρ) (lane ρ) e
  | PBin op a b =>
      pok a (hint_a a b h) /\ pok b (hint_b a b h) /\
      (if divides op then pev b (hint_b a b h) <> 0 else True)
  | PCmp op a b => pok a (hint_a a b no_type) /\ pok b (hint_b a b no_type)
  | PNot a | PNeg a | PIntrin _ a => pok a h
  | PSelect c t f => pok c no_type /\ pok t h /\ pok f h
  | PBroadcast a _ => pok a (with_lanes h 1)
  | PRamp a b _ =>
      let h1 := with_lanes h 1 in pok a (hint_a a b h1) /\ pok b (hint_b a b h1)
  | PCast _ a => pok a no_type
  | PIndeterminate | POverflow => False
  | _ => True
  end.

(** [exact]: its folds neither overflow nor divide by zero. *)
Definition fexact (p : Pat) (t : HType) : bool :=
  fclean p t &&
  match p with
  | PBin Div a b =>
      in_typeb (fty p t) (ediv (fval a (fhint_a a b t)) (fval b (fhint_b a b t)))
  | _ => true
  end.

Fixpoint exact (p : Pat) (h : HType) : bool :=
  match p with
  | PBin op a b => exact a (hint_a a b h) && exact b (hint_b a b h)
  | PCmp op a b => exact a (hint_a a b no_type) && exact b (hint_b a b no_type)
  | PNot a | PNeg a | PIntrin _ a => exact a h
  | PSelect c t f => exact c no_type && exact t h && exact f h
  | PBroadcast a _ => exact a (with_lanes h 1)
  | PRamp a b _ =>
      let h1 := with_lanes h 1 in exact a (hint_a a b h1) && exact b (hint_b a b h1)
  | PCast _ a => exact a no_type
  | PFold a => fexact a h
  | PIndeterminate | POverflow => false
  | _ => true
  end.

(** ** Predicates *)

(** [pholds]: what a predicate that evaluates to true establishes. *)
Fixpoint pholds (p : Pat) : Prop :=
  match p with
  | PBin And a b => if is_lit a then True else pholds a /\ pholds b
  | PBin Or a b => if is_lit a then True else pholds a \/ pholds b
  | PCmp op a b =>
      fok p no_type ->
      fclean p no_type = true /\
      evcmp op (fval a (fhint_a a b no_type)) (fval b (fhint_b a b no_type)) = true
  | PNot (POverflows a) => fok a no_type -> fclean a no_type = true
  | PCanProve a =>
      mok a no_type -> lane_in (mty a no_type) (lane ρ) ->
      exact a no_type = true -> pok a no_type -> pev a no_type <> 0
  | _ => True
  end.
End Meaning.

(** ** Rules *)

Definition pred_holds (ρ : Valuation) (r : Rule) : Prop :=
  match pred r with Some p => pholds ρ p | None => True end.

(** [ty] is the rewriter's [wildcard_type], [T] its [output_type]. *)
Definition rule_typed (ty T : HType) (r : Rule) : Prop :=
  forall ρ v, root_match ρ false ty (before r) T v ->
  mok ρ (after r) T /\ mty ρ (after r) T = T.

Definition rule_sound (ty T : HType) (r : Rule) : Prop :=
  forall ρ v, root_match ρ true ty (before r) T v -> lane_in T (lane ρ) ->
  pred_holds ρ r -> exact ρ (after r) T = true ->
  pok ρ (after r) T /\ pev ρ (after r) T = v.
