(* ===== verification/Mutator.v ===== *)
(** * Mutators

    [IRMutator] on expressions (src/IRMutator.cpp): the nodes a mutator does
    not treat specially are made again from their mutated children.  Types,
    well-formedness and values carry over from the children to the node. *)

From Stdlib Require Import ZArith Lia Bool List String.
From S2P Require Import Prelude.
From S2P Require Import IntArith.
From S2P Require Import ModulusRemainder.
From S2P Require Import HalideTypes.
From S2P Require Import IR.
From S2P Require Import Typing.
From S2P Require Import RuleSem.
Import ListNotations.
Open Scope Z_scope.

(** [IRMutator::visit] on the nodes a mutator does not treat specially: the
    children are mutated and the node is made again. *)
Section Mutator.
Context (mutate : Expr -> Expr).

Definition visit_children (e : Expr) : Expr :=
  match e with
  | IntImm _ _ | UIntImm _ _ | FloatImm _ _ | StringImm _ | EVariable _ _ => e
  | Cast t v => Cast t (mutate v)
  | EBin op a b => EBin op (mutate a) (mutate b)
  | ECmp op a b => ECmp op (mutate a) (mutate b)
  | ENot a => ENot (mutate a)
  | Select c t f => Select (mutate c) (mutate t) (mutate f)
  | Load t n p i al => Load t n (mutate p) (mutate i) al
  | Ramp b s n => Ramp (mutate b) (mutate s) n
  | Broadcast v n => Broadcast (mutate v) n
  | ECall t n args ct vi => ECall t n (map mutate args) ct vi
  | ELet n v b => ELet n (mutate v) (mutate b)
  | Shuffle vs ixs => Shuffle (map mutate vs) ixs
  end.
End Mutator.

(** The expressions a node is made of. *)
Definition children (e : Expr) : list Expr :=
  match e with
  | IntImm _ _ | UIntImm _ _ | FloatImm _ _ | StringImm _ | EVariable _ _ => []
  | Cast _ v | ENot v | Broadcast v _ => [v]
  | EBin _ a b | ECmp _ a b | Ramp a b _ | Load _ _ a b _ | ELet _ a b => [a; b]
  | Select c t f => [c; t; f]
  | ECall _ _ args _ _ => args
  | Shuffle vs _ => vs
  end.

(** Variables and let nodes are where mutators differ. *)
Definition plain (e : Expr) : bool :=
  match e with EVariable _ _ | ELet _ _ _ => false | _ => true end.

Lemma Expr_children_ind (P : Expr -> Prop) :
  (forall e, Forall P (children e) -> P e) -> forall e, P e.
Proof. intros H e. induction e using Expr_ind'; apply H; cbn; auto. Qed.

Lemma visit_children_ext f g e : (forall a, f a = g a) -> visit_children f e = visit_children g e.
Proof. intros E. destruct e; cbn; rewrite ?E; auto; now rewrite (map_ext _ _ E). Qed.

Lemma visit_children_same f e : Forall (fun a => f a = a) (children e) -> visit_children f e = e.
Proof.
  destruct e; cbn; intros H; repeat match goal with H : Forall _ (_ :: _) |- _ => inversion H; subst; clear H end;
    try congruence; f_equal; induction H; cbn; congruence.
Qed.

(** ** Children *)

Lemma wf_children e : wf e = true -> Forall (fun a => wf a = true) (children e).
Proof.
  destruct e; cbn [wf children]; intros W; try discriminate; destr_and; auto.
  - now apply forallb_Forall.
  - now apply forallb_Forall.
Qed.

Lemma typed_children g e : plain e = true -> typed g e = true ->
  Forall (fun a => typed g a = true) (children e).
Proof.
  destruct e; cbn [typed children plain]; intros N Ty; try discriminate; destr_and; auto.
  - now apply forallb_Forall.
  - now apply forallb_Forall.
Qed.

(** The arguments of a call have its lanes, or are scalars. *)
Definition args_lanes (e : Expr) : Prop :=
  match e with
  | ECall t _ args _ _ => Forall (fun a => is_scalar (type_of a) = true \/ lanes (type_of a) = lanes t) args
  | _ => True
  end.

Lemma typed_args_lanes g e : typed g e = true -> args_lanes e.
Proof.
  intros Ty. destruct e; try exact I. eapply Forall_impl; [|exact (typed_call _ _ _ _ _ _ Ty)]. now intros a [_ S].
Qed.

(** ** Types and well-formedness of the node *)

Section Types.
Context (f : Expr -> Expr).

Definition keeps_type (a : Expr) : Prop := type_of (f a) = type_of a.
Definition keeps_wf (a : Expr) : Prop := wf (f a) = true /\ type_of (f a) = type_of a.

Lemma visit_children_type e : Forall keeps_type (children e) -> type_of (visit_children f e) = type_of e.
Proof.
  unfold keeps_type. destruct e; cbn [children visit_children type_of]; intros H;
    repeat match goal with H : Forall _ (_ :: _) |- _ => inversion H; subst; clear H end;
    rewrite ?length_map; try congruence.
  - destruct op; congruence.
  - destruct H; cbn [map]; congruence.
Qed.

Lemma map_total_lanes vs : Forall keeps_type vs ->
  fold_right (fun u n => lanes (type_of u) + n) 0 (map f vs) =
  fold_right (fun u n => lanes (type_of u) + n) 0 vs.
Proof. unfold keeps_type. induction 1 as [|v vs E _ IH]; cbn; [reflexivity|]. now rewrite E, IH. Qed.

Lemma keeps_wf_type vs : Forall keeps_wf vs -> Forall keeps_type vs.
Proof. apply Forall_impl. now intros a [_ T]. Qed.

Lemma map_wf vs : Forall keeps_wf vs -> forallb wf (map f vs) = true.
Proof. induction 1 as [|v vs [W _] _ IH]; cbn; [reflexivity|]. now rewrite W, IH. Qed.

Lemma visit_shuffle_wf vs ixs : Forall keeps_wf vs -> wf (Shuffle vs ixs) = true ->
  wf (Shuffle (map f vs) ixs) = true.
Proof.
  intros K W. pose proof (keeps_wf_type _ K) as KT. cbn [wf] in *. rewrite map_wf by assumption.
  apply andb_true_iff in W. destruct W as [_ W]. cbn [andb].
  pose proof (visit_children_type (Shuffle vs ixs) KT) as Ty. cbn [visit_children] in Ty.
  destruct vs as [|v vs]; [discriminate|]. rewrite map_total_lanes by assumption. cbn [map] in *.
  rewrite Ty. destr_and.
  match goal with H : forallb (fun u => type_eqb _ _) _ = true |- _ => rename H into E end.
  rewrite !andb_true_iff. split; [split|]; try assumption.
  replace (type_of (f v)) with (type_of v) by (inversion KT; auto).
  change (f v :: map f vs) with (map f (v :: vs)). revert KT E. generalize (v :: vs) as l, (type_of v) as t.
  induction l as [|u l IH]; intros t KT E; [reflexivity|]. inversion KT as [|? ? Tu Kl]; subst.
  cbn in E |- *. destr_and. rewrite Tu, H. cbn. now apply IH.
Qed.

Lemma visit_call_wf t n args ct vi : Forall keeps_wf args -> wf (ECall t n args ct vi) = true ->
  wf (ECall t n (map f args) ct vi) = true.
Proof.
  intros K W. cbn [wf] in *. rewrite map_wf by assumption. destr_and. rewrite !andb_true_iff.
  repeat split; auto. destruct (is_likely n ct); [|reflexivity].
  destruct K as [|a l [_ T] K]; [discriminate|]. destruct K; [|discriminate]. cbn [map]. now rewrite T.
Qed.

Lemma visit_children_wf e : Forall keeps_wf (children e) -> wf e = true ->
  wf (visit_children f e) = true /\ type_of (visit_children f e) = type_of e.
Proof.
  intros K W. split; [|apply visit_children_type, keeps_wf_type, K].
  destruct e; try exact W; try (now apply visit_call_wf); try (now apply visit_shuffle_wf);
    cbn [children] in K; repeat match goal with K : Forall _ (_ :: _) |- _ => inversion K; subst; clear K end;
    unfold keeps_wf in *; destr_and; cbn [visit_children wf] in *;
    repeat match goal with H : wf (f _) = true |- _ => rewrite H; clear H end;
    repeat match goal with H : type_of (f _) = _ |- _ => rewrite H; clear H end;
    destr_and; rewrite ?andb_true_iff; repeat split; auto.
Qed.
End Types.

(** ** Values of the node *)

Section Values.
Context (f : Expr -> Expr) (env1 env2 : Env).
Context (Mem : mem env1 = mem env2) (Ext : ext env1 = ext env2).

(** In the lanes an expression has, the mutated one has its value. *)
Definition keeps_value (a : Expr) : Prop :=
  type_of (f a) = type_of a /\
  forall i, lane_in (type_of a) i -> ev env1 i (f a) = ev env2 i a.

Lemma lane_in_lanes t u i : lanes t = lanes u -> lane_in t i -> lane_in u i.
Proof. unfold lane_in, is_scalar. now intros ->. Qed.

Lemma lane_in_scalar t i : is_scalar t = true -> lane_in t i.
Proof. now left. Qed.

Lemma keeps_value_type vs : Forall keeps_value vs -> Forall (keeps_type f) vs.
Proof. apply Forall_impl. now intros a [T _]. Qed.

(** The lane a shuffle picks is one of its vectors'. *)
Lemma pick_keeps vs : Forall keeps_value vs -> forall k,
  0 <= k < fold_right (fun u n => lanes (type_of u) + n) 0 vs ->
  pick env1 (map f vs) k = pick env2 vs k.
Proof.
  induction 1 as [|v vs [T V] _ IH]; intros k R; [reflexivity|]. cbn [map pick fold_right] in *.
  rewrite T. destruct (Z.ltb_spec k (lanes (type_of v))).
  - apply V. right. lia.
  - apply IH. lia.
Qed.

Lemma shuffle_lane vs ixs i : wf (Shuffle vs ixs) = true -> lane_in (type_of (Shuffle vs ixs)) i ->
  0 <= nth (Z.to_nat (if Nat.eqb (List.length ixs) 1 then 0 else i)) ixs 0 <
    fold_right (fun u n => lanes (type_of u) + n) 0 vs.
Proof.
  intros W L. cbn [wf] in W. destruct vs as [|v vs]; [destr_and; discriminate|]. destr_and.
  set (tot := fold_right _ _ _) in *.
  assert (V : In (nth (Z.to_nat (if Nat.eqb (List.length ixs) 1 then 0 else i)) ixs 0) ixs).
  { apply nth_In. cbn [type_of] in *. unfold lane_in, is_scalar, valid_lanes in *. cbn [with_lanes lanes] in *.
    destruct (Nat.eqb_spec (List.length ixs) 1); [lia|]. zify_bool. rewrite Z.eqb_eq in L. lia. }
  match goal with H : forallb _ ixs = true |- _ => rewrite forallb_forall in H; specialize (H _ V); cbn beta in H end.
  zify_bool. lia.
Qed.

Lemma visit_args_value t args i :
  Forall keeps_value args ->
  Forall (fun a => is_scalar (type_of a) = true \/ lanes (type_of a) = lanes t) args ->
  lane_in t i -> map (ev env1 i) (map f args) = map (ev env2 i) args.
Proof.
  intros K S L. rewrite map_map. apply map_ext_Forall.
  induction K as [|a l [_ V] _ IH]; constructor; inversion S; subst; auto.
  apply V. destruct H1 as [H1|H1]; [now apply lane_in_scalar|now apply (lane_in_lanes t)].
Qed.

Lemma Forall_two {A} (P : A -> Prop) a b : Forall P [a; b] -> P a /\ P b.
Proof. rewrite !Forall_cons_iff. tauto. Qed.

Lemma Forall_three {A} (P : A -> Prop) a b c : Forall P [a; b; c] -> P a /\ P b /\ P c.
Proof. rewrite !Forall_cons_iff. tauto. Qed.

(** Children that keep their values make a node that keeps its value. *)
Lemma visit_children_value e : plain e = true -> wf e = true -> args_lanes e ->
  Forall keeps_value (children e) ->
  forall i, lane_in (type_of e) i -> ev env1 i (visit_children f e) = ev env2 i e.
Proof.
  intros N W Ty K i L. destruct e; try discriminate N; try reflexivity; cbn [children] in K;
    try apply Forall_three in K as ([T1 V1] & [T2 V2] & [T3 V3]);
    try apply Forall_two in K as [[T1 V1] [T2 V2]];
    try (apply Forall_inv in K; destruct K as [T V]); cbn [visit_children].
  - cbn in W, L |- *. destr_and. rewrite V; [reflexivity|]. apply (lane_in_lanes t); [|exact L].
    now apply Z.eqb_eq.
  - destruct (wf_binary _ _ _ W) as (_ & _ & E & Ln). cbn [ev].
    rewrite T1, V1, V2; [reflexivity| |]; (eapply lane_in_lanes; [|exact L]); congruence.
  - destruct (wf_comparison _ _ _ W) as (_ & _ & E). cbn [ev].
    rewrite V1, V2; [reflexivity| |]; (eapply lane_in_lanes; [|exact L]); cbn; congruence.
  - cbn [ev]. rewrite V; [reflexivity|]. now apply (lane_in_lanes (BoolT (lanes (type_of e)))).
  - destruct (wf_select _ _ _ W) as (_ & _ & _ & E & C). cbn [ev type_of] in *.
    rewrite V1, V2, V3; [reflexivity| | |]; auto.
    + now rewrite <- E.
    + destruct C as [C|C]; [now apply lane_in_scalar|]. now apply (lane_in_lanes (type_of e2)).
  - destruct (wf_load _ _ _ _ _ W) as (_ & _ & Li & _). cbn [ev type_of] in *. rewrite Mem, V2; [reflexivity|].
    now apply (lane_in_lanes t).
  - cbn in W. destr_and. cbn [ev]. rewrite T1, V1, V2; [reflexivity| |]; now apply lane_in_scalar.
  - cbn in W. destr_and. cbn [ev]. rewrite V; [reflexivity|]. now apply lane_in_scalar.
  - cbn [args_lanes] in Ty. cbn [type_of] in L.
    assert (E : map (ev env1 i) (map f args) = map (ev env2 i) args).
    { now apply (visit_args_value t). }
    cbn [ev]. rewrite Ext, E. destruct args as [|a [|b l]]; cbn [map] in *; try reflexivity.
    injection E as E. now rewrite E.
  - rewrite !ev_shuffle. apply pick_keeps; [exact K|]. now apply shuffle_lane.
Qed.
End Values.
