(* ===== verification/Substitute.v ===== *)
(** * Substitution

    The substitutions of src/Substitute.cpp and [ExprUsesVars] of
    src/ExprUsesVar.h. *)

From Stdlib Require Import ZArith Lia Bool List String.
From S2P Require Import Prelude.
From S2P Require Import IntArith.
From S2P Require Import ModulusRemainder.
From S2P Require Import Scope.
From S2P Require Import HalideTypes.
From S2P Require Import IR.
From S2P Require Import Typing.
From S2P Require Import Mutator.
From S2P Require Import IRMatch.
From S2P Require Import RuleSem.
Import ListNotations.
Open Scope string_scope.
Open Scope Z_scope.

(** ** Uses of a variable *)

(** [expr_uses_var], with no scope of further definitions: the name of a
    variable, of a buffer, of a function or of a let node. *)
Fixpoint expr_uses_var (e : Expr) (v : string) : bool :=
  match e with
  | IntImm _ _ | UIntImm _ _ | FloatImm _ _ | StringImm _ => false
  | EVariable _ n => String.eqb n v
  | Cast _ a | ENot a | Broadcast a _ => expr_uses_var a v
  | EBin _ a b | ECmp _ a b | Ramp a b _ => expr_uses_var a v || expr_uses_var b v
  | Select c t f => expr_uses_var c v || expr_uses_var t v || expr_uses_var f v
  | Load _ n p i _ => String.eqb n v || (expr_uses_var p v || expr_uses_var i v)
  | ECall _ n args _ _ => String.eqb n v || existsb (fun a => expr_uses_var a v) args
  | ELet n a b => String.eqb n v || (expr_uses_var a v || expr_uses_var b v)
  | Shuffle vs _ => existsb (fun a => expr_uses_var a v) vs
  end.

(** ** The substitutions *)

(** [Substitute]: the visitor holds the map and a scope of hidden names. *)
Section Substitute.
Context (replace : string -> option Expr).

Definition find_replacement (hidden : Scope unit) (s : string) : option Expr :=
  match replace s with
  | Some r => if contains hidden s then None else Some r
  | None => None
  end.

Fixpoint subst_visit (e : Expr) : ScopeM (T := unit) Expr :=
  match e with
  | IntImm _ _ | UIntImm _ _ | FloatImm _ _ | StringImm _ => scope_ret e
  | EVariable _ n => fun h =>
      Some (match find_replacement h n with Some r => r | None => e end, h)
  | Cast t v => scope_map (Cast t) (subst_visit v)
  | EBin op a b => scope_map2 (EBin op) (subst_visit a) (subst_visit b)
  | ECmp op a b => scope_map2 (ECmp op) (subst_visit a) (subst_visit b)
  | ENot a => scope_map ENot (subst_visit a)
  | Select c t f => scope_map3 Select (subst_visit c) (subst_visit t) (subst_visit f)
  | Load t n p i al =>
      scope_map2 (fun p i => Load t n p i al) (subst_visit p) (subst_visit i)
  | Ramp b s n => scope_map2 (fun b s => Ramp b s n) (subst_visit b) (subst_visit s)
  | Broadcast v n => scope_map (fun v => Broadcast v n) (subst_visit v)
  | ECall t n args ct vi =>
      scope_map (fun args => ECall t n args ct vi) (scope_mapM subst_visit args)
  | ELet n v b => scope_map2 (ELet n) (subst_visit v) (scoped n tt (subst_visit b))
  | Shuffle vs ixs => scope_map (fun vs => Shuffle vs ixs) (scope_mapM subst_visit vs)
  end.

(** [substitute(map, expr)]. *)
Definition substitute_map (e : Expr) : option Expr :=
  match subst_visit e empty_scope with Some (e', _) => Some e' | None => None end.
End Substitute.

Definition singleton (name : string) (r : Expr) : string -> option Expr :=
  fun n => if String.eqb n name then Some r else None.

(** [substitute(name, replacement, expr)]. *)
Definition substitute (name : string) (replacement e : Expr) : option Expr :=
  substitute_map (singleton name replacement) e.

(** [SubstituteExpr]: an expression for an equal expression. *)
Fixpoint substitute_expr (find replacement e : Expr) : Expr :=
  if equal e find then replacement else visit_children (substitute_expr find replacement) e.

(** [GraphSubstitute]: the graph mutator remembers what it made of each node. *)
Fixpoint graph_substitute (var : string) (value e : Expr) : Expr :=
  match e with
  | EVariable _ n => if String.eqb n var then value else e
  | ELet n v b =>
      let new_value := graph_substitute var value v in
      if String.eqb n var then ELet n new_value b
      else ELet n new_value (graph_substitute var value b)
  | _ => visit_children (graph_substitute var value) e
  end.

(** [SubstituteInAllLets]. *)
Fixpoint substitute_in_all_lets (e : Expr) : Expr :=
  match e with
  | ELet n v b =>
      graph_substitute n (substitute_in_all_lets v) (substitute_in_all_lets b)
  | _ => visit_children substitute_in_all_lets e
  end.

(** ** Textbook substitution *)

Definition hide (n : string) (r : string -> option Expr) : string -> option Expr :=
  fun m => if String.eqb m n then None else r m.

(** Names bound by a let node are not replaced in its body; nothing is renamed. *)
Fixpoint subst (r : string -> option Expr) (e : Expr) : Expr :=
  match e with
  | EVariable _ n => match r n with Some u => u | None => e end
  | ELet n v b => ELet n (subst r v) (subst (hide n r) b)
  | _ => visit_children (subst r) e
  end.

(** What the hidden names leave of the map. *)
Definition visible (r : string -> option Expr) (h : Scope unit) : string -> option Expr :=
  fun n => find_replacement r h n.

Lemma subst_ext e : forall r q, (forall n, r n = q n) -> subst r e = subst q e.
Proof.
  induction e using Expr_ind'; intros r q E; cbn [subst visit_children]; auto;
    repeat match goal with IH : forall r q, _ -> _ |- _ => rewrite (IH r q E); clear IH end; auto.
  - now rewrite E.
  - f_equal. apply map_ext_Forall. eapply Forall_impl; [|exact H]. cbn. auto.
  - f_equal. apply IHe2. intros m. unfold hide. now case_goal.
  - f_equal. apply map_ext_Forall. eapply Forall_impl; [|exact H]. cbn. auto.
Qed.

Lemma visible_push r h n m : visible r (push h n tt) m = hide n (visible r h) m.
Proof.
  unfold visible, find_replacement, hide. destruct (String.eqb_spec m n) as [->|N].
  - assert (C : contains (push h n tt) n = true) by (apply contains_get; rewrite get_push; eauto).
    rewrite C. now destruct (r n).
  - assert (C : contains (push h n tt) m = contains h m).
    { apply eq_true_iff_eq. rewrite !contains_get. now rewrite get_push_ne by congruence. }
    now rewrite C.
Qed.

(** [m] ends in the scope it began with, with the result [a]. *)
Definition yields {T A} (m : ScopeM (T := T) A) (s : Scope T) (a : A) : Prop := m s = Some (a, s).

Lemma yields_map {T A B} (f : A -> B) (m : ScopeM (T := T) A) s a :
  yields m s a -> yields (scope_map f m) s (f a).
Proof. unfold yields, scope_map, scope_bind. now intros ->. Qed.

Lemma yields_map2 {T A B C} (f : A -> B -> C) (m : ScopeM (T := T) A) k s a b :
  yields m s a -> yields k s b -> yields (scope_map2 f m k) s (f a b).
Proof. unfold yields, scope_map2, scope_map, scope_bind. intros -> ->. reflexivity. Qed.

Lemma yields_map3 {T A B C D} (f : A -> B -> C -> D) (m : ScopeM (T := T) A) k l s a b c :
  yields m s a -> yields k s b -> yields l s c -> yields (scope_map3 f m k l) s (f a b c).
Proof. unfold yields, scope_map3, scope_map2, scope_map, scope_bind. intros -> -> ->. reflexivity. Qed.

Lemma yields_mapM {T A B} (f : A -> ScopeM (T := T) B) (g : A -> B) s l :
  Forall (fun a => yields (f a) s (g a)) l -> yields (scope_mapM f l) s (map g l).
Proof.
  induction 1 as [|a l H _ IH]; [reflexivity|]. cbn [scope_mapM map].
  now apply (yields_map2 cons).
Qed.

Lemma yields_scoped {T A} `{stdpp.base.Inhabited T} n v (m : ScopeM (T := T) A) s a : scope_ok s ->
  yields m (push s n v) a -> yields (scoped n v m) s a.
Proof.
  unfold yields, scoped. intros O ->. now rewrite pop_push_scope.
Qed.

(** The visitor computes textbook substitution with what is not hidden, and
    leaves its scope as it was. *)
Lemma subst_visit_spec r e : forall h, scope_ok h ->
  yields (subst_visit r e) h (subst (visible r h) e).
Proof.
  induction e using Expr_ind'; intros h O; cbn [subst_visit subst visit_children]; try reflexivity.
  - apply yields_map. auto.
  - apply yields_map2; auto.
  - apply yields_map2; auto.
  - apply yields_map. auto.
  - apply yields_map3; auto.
  - apply (yields_map2 (fun p i => Load t n p i al)); auto.
  - apply (yields_map2 (fun b s => Ramp b s n)); auto.
  - apply (yields_map (fun v => Broadcast v n)). auto.
  - apply (yields_map (fun args => ECall t n args ct vi)), yields_mapM.
    eapply Forall_impl; [|exact H]. cbn. auto.
  - apply yields_map2; [auto|]. apply yields_scoped; [exact O|].
    rewrite <- (subst_ext e2 (visible r (push h n tt))) by apply visible_push.
    apply IHe2. now apply push_scope_ok.
  - apply (yields_map (fun vs => Shuffle vs ixs)), yields_mapM.
    eapply Forall_impl; [|exact H]. cbn. auto.
Qed.

(** ** Substitution of a variable is evaluation in another environment *)

(** The names let nodes bind. *)
Fixpoint binders (e : Expr) : list string :=
  match e with
  | IntImm _ _ | UIntImm _ _ | FloatImm _ _ | StringImm _ | EVariable _ _ => []
  | Cast _ a | ENot a | Broadcast a _ => binders a
  | EBin _ a b | ECmp _ a b | Ramp a b _ | Load _ _ a b _ => binders a ++ binders b
  | Select c t f => binders c ++ binders t ++ binders f
  | ECall _ _ args _ _ => List.concat (map binders args)
  | ELet n a b => n :: binders a ++ binders b
  | Shuffle vs _ => List.concat (map binders vs)
  end.

Lemma In_concat_map {A B} (f : A -> list B) l a x : In a l -> In x (f a) -> In x (List.concat (map f l)).
Proof. intros I X. apply in_concat. exists (f a). split; [now apply in_map|exact X]. Qed.

Lemma binders_children e a n : In a (children e) -> In n (binders a) -> In n (binders e).
Proof.
  destruct e; cbn [children binders]; intros I X; try contradiction;
    try (eapply In_concat_map; eassumption); cbn [In] in I; rewrite ?in_app_iff;
    repeat destruct I as [<-|I]; try contradiction; auto using in_cons; right; rewrite in_app_iff; auto.
Qed.

(** A variable an expression does not use does not matter to it. *)
Lemma uses_children e v a : In a (children e) -> expr_uses_var e v = false -> expr_uses_var a v = false.
Proof.
  assert (X : forall l, In a l -> existsb (fun a => expr_uses_var a v) l = false -> expr_uses_var a v = false).
  { intros l I E. apply not_true_iff_false. intros U. rewrite <- not_true_iff_false, existsb_exists in E. eauto. }
  destruct e; cbn [children expr_uses_var]; intros I U; try contradiction;
    rewrite ?orb_false_iff in U; destr_and; cbn [In] in I; eauto;
    repeat destruct I as [<-|I]; try contradiction; auto.
Qed.

(** The environments differ at most in what the name [n] means. *)
Definition agree_off (n : string) (a b : Env) : Prop := forall m, m <> n ->
  (forall j, var a m j = var b m j) /\ (forall k, mem a m k = mem b m k) /\
  (forall t j l, ext a m t j l = ext b m t j l).

Lemma agree_off_bind n a b m f g : agree_off n a b -> (forall j, f j = g j) ->
  agree_off n (bind a m f) (bind b m g).
Proof.
  intros A F k N. destruct (A k N) as (V & M & X). split; [|now split].
  intros j. cbn. now destruct (String.eqb k m).
Qed.

Lemma unused_agree e : forall a b i n, agree_off n a b -> expr_uses_var e n = false -> ev a i e = ev b i e.
Proof.
  induction e using Expr_ind'; intros c d i m A U; cbn [expr_uses_var] in U;
    rewrite ?orb_false_iff in U; destr_and; cbn [ev]; try reflexivity;
    repeat match goal with
    | IH : forall a b i n, _ -> _, U : expr_uses_var _ m = false |- _ => rewrite (IH c d _ m A U); clear IH
    end; try reflexivity.
  - apply String.eqb_neq in U. now rewrite (proj1 (A n U)).
  - apply String.eqb_neq in H. destruct (A n H) as (_ & M & _). now rewrite M.
  - apply String.eqb_neq in H0. destruct (A n H0) as (_ & _ & X).
    assert (E : map (ev c i) args = map (ev d i) args).
    { apply map_ext_in. intros a Ia. rewrite Forall_forall in H. apply (H a Ia c d i m A).
      apply (uses_children (ECall t n args ct vi)); [exact Ia|]. cbn [expr_uses_var].
      rewrite orb_false_iff. split; [now apply String.eqb_neq|assumption]. }
    rewrite X, E. destruct args as [|a [|b l]]; try reflexivity. cbn [map] in E.
    injection E as E. now rewrite E.
  - apply IHe2 with m; [|assumption]. apply agree_off_bind; [exact A|]. intros j. now apply IHe1 with m.
  - change (ev c i (Shuffle vs ixs) = ev d i (Shuffle vs ixs)).
    rewrite !ev_shuffle. generalize (nth (Z.to_nat (if Nat.eqb (List.length ixs) 1 then 0 else i)) ixs 0).
    induction H as [|v l V _ IH]; intros k; [reflexivity|]. cbn [existsb] in U. apply orb_false_iff in U as [U1 U2].
    cbn [pick]. rewrite IH by exact U2. now rewrite (V c d k m A U1).
Qed.

Lemma unused_ev e env i n f : expr_uses_var e n = false -> ev (bind env n f) i e = ev env i e.
Proof.
  apply unused_agree. intros m N. split; [|now split]. intros j. now rewrite bind_other.
Qed.

(** The replacements, in the first environment, are the variables of the
    second; everything else is the same. *)
Record subst_rel (g : Ctx) (r : string -> option Expr) (env1 env2 : Env) : Prop := {
  rel_mem : mem env1 = mem env2;
  rel_ext : ext env1 = ext env2;
  rel_kept : forall n t j, r n = None -> agrees g n t = true -> lane_in t j ->
    cast_val t (var env1 n (lane_of t j)) = cast_val t (var env2 n (lane_of t j));
  rel_type : forall n u t, r n = Some u -> agrees g n t = true -> type_of u = t;
  rel_replaced : forall n u t j, r n = Some u -> agrees g n t = true -> lane_in t j ->
    ev env1 j u = cast_val t (var env2 n (lane_of t j))
}.

(** No let node of [e] captures a variable of a replacement. *)
Definition captures_none (r : string -> option Expr) (e : Expr) : Prop :=
  forall n, In n (binders e) -> forall m u, r m = Some u -> expr_uses_var u n = false.

Lemma captures_children r e : captures_none r e -> Forall (captures_none r) (children e).
Proof.
  intros C. apply Forall_forall. intros a A n I. apply C. now apply (binders_children e a).
Qed.

Lemma captures_hide r n e : captures_none r e -> captures_none (hide n r) e.
Proof. intros C m I k u. unfold hide. destruct (String.eqb k n); [discriminate|]. now apply C. Qed.

Lemma lane_in_lane_of t j : lane_in t j -> lane_in t (lane_of t j).
Proof. unfold lane_of, lane_in, is_scalar. intros L. destruct (Z.eqb_spec (lanes t) 1); auto. Qed.

(** Under a let, with the value in the mutated and in the given expression. *)
Lemma subst_rel_bind g r env1 env2 n v v' : subst_rel g r env1 env2 ->
  (forall m u, hide n r m = Some u -> expr_uses_var u n = false) ->
  (forall j, lane_in (type_of v) j -> ev env1 j v' = ev env2 j v) ->
  subst_rel ((n, type_of v) :: g) (hide n r) (bind env1 n (fun j => ev env1 j v')) (bind env2 n (fun j => ev env2 j v)).
Proof.
  intros [Mem Ext K Tr R] U V. split; try assumption; intros m; unfold hide in *;
    destruct (String.eqb_spec m n) as [->|N]; try discriminate.
  - intros t j _ A L. apply agrees_same in A as ->. rewrite !bind_same. f_equal.
    now apply V, lane_in_lane_of.
  - intros t j H A L. rewrite !bind_other by assumption. rewrite agrees_other in A by congruence. now apply K.
  - intros u t H A. rewrite agrees_other in A by congruence. now apply (Tr m).
  - intros u t j H A L. rewrite agrees_other in A by congruence.
    assert (Un : expr_uses_var u n = false).
    { apply (U m). apply String.eqb_neq in N. now rewrite N. }
    rewrite unused_ev, bind_other by assumption. now apply (R m).
Qed.

Lemma subst_plain r e : plain e = true -> subst r e = visit_children (subst r) e.
Proof. now destruct e. Qed.

Lemma keeps_value_eq f g env1 env2 e : f e = g e -> keeps_value g env1 env2 e -> keeps_value f env1 env2 e.
Proof. unfold keeps_value. now intros ->. Qed.

Lemma subst_keeps_value e : forall g r env1 env2, wf e = true -> typed g e = true ->
  subst_rel g r env1 env2 -> captures_none r e -> keeps_value (subst r) env1 env2 e.
Proof.
  induction e as [e IH] using Expr_children_ind. intros g r env1 env2 W Ty S C.
  pose proof (wf_children e W) as Ws. pose proof (captures_children r e C) as Cs.
  rewrite Forall_forall in IH, Ws, Cs. destruct (plain e) eqn:N.
  - apply (keeps_value_eq _ (visit_children (subst r))); [now apply subst_plain|].
    pose proof (typed_children g e N Ty) as Ts. rewrite Forall_forall in Ts.
    assert (K : Forall (keeps_value (subst r) env1 env2) (children e)).
    { apply Forall_forall. intros a A. now apply (IH a A g); auto. }
    split; [now apply visit_children_type, (keeps_value_type _ env1 env2)|].
    destruct S. apply (visit_children_value _ env1 env2); auto. now apply (typed_args_lanes g).
  - destruct e; try discriminate N; cbn [typed children] in *; unfold keeps_value; cbn [subst type_of ev].
    + destruct S as [_ _ K Tr R]. destruct (r name) as [u|] eqn:E;
        [|split; [reflexivity|intros i L; now apply K]].
      split; [now apply (Tr name)|]. intros i L. now apply R.
    + destr_and. destruct (IH e1 (or_introl eq_refl) g r env1 env2) as [T1 V1]; auto.
      { apply Ws. now left. } { apply Cs. now left. }
      destruct (IH e2 (or_intror (or_introl eq_refl)) ((name, type_of e1) :: g) (hide name r)
        (bind env1 name (fun j => ev env1 j (subst r e1))) (bind env2 name (fun j => ev env2 j e1))) as [T2 V2]; auto.
      * apply Ws. right. now left.
      * apply subst_rel_bind; auto. intros m u Hu. apply (C name (or_introl eq_refl) m).
        unfold hide in Hu. now destruct (String.eqb m name).
      * apply captures_hide, Cs. right. now left.
Qed.

(** The mutated expression is well formed when the replacements are. *)
Lemma subst_keeps_wf e : forall g r, wf e = true -> typed g e = true ->
  (forall n u t, r n = Some u -> agrees g n t = true -> wf u = true /\ type_of u = t) ->
  keeps_wf (subst r) e.
Proof.
  induction e as [e IH] using Expr_children_ind. intros g r W Ty R.
  pose proof (wf_children e W) as Ws. rewrite Forall_forall in IH, Ws. unfold keeps_wf.
  destruct (plain e) eqn:N.
  - rewrite subst_plain by exact N. apply visit_children_wf; [|exact W].
    pose proof (typed_children g e N Ty) as Ts. rewrite Forall_forall in Ts.
    apply Forall_forall. intros a A. now apply (IH a A g); auto.
  - destruct e; try discriminate N; cbn [typed children] in *; cbn [subst type_of].
    + destruct (r name) as [u|] eqn:E; [now apply (R name)|now split].
    + destr_and. destruct (IH e1 (or_introl eq_refl) g r) as [W1 T1]; auto.
      { apply Ws. now left. }
      destruct (IH e2 (or_intror (or_introl eq_refl)) ((name, type_of e1) :: g) (hide name r)) as [W2 T2]; auto.
      { apply Ws. right. now left. }
      { intros n u t. unfold hide. destruct (String.eqb_spec n name); [discriminate|].
        rewrite agrees_other by congruence. apply R. }
      split; [|exact T2]. cbn [wf]. now rewrite W1, W2.
Qed.

(** ** Replacing one name *)

Lemma hide_singleton n v u m : hide n (singleton v u) m = if String.eqb n v then None else singleton v u m.
Proof.
  unfold hide, singleton. destruct (String.eqb_spec m n), (String.eqb_spec n v), (String.eqb_spec m v); congruence.
Qed.

Lemma subst_none e r : (forall n, r n = None) -> subst r e = e.
Proof.
  revert r. induction e as [e IH] using Expr_children_ind. intros r R. destruct (plain e) eqn:N.
  - rewrite subst_plain by exact N. apply visit_children_same.
    eapply Forall_impl; [|exact IH]. cbn. auto.
  - destruct e; try discriminate N; cbn [subst children] in *; [now rewrite R|].
    apply Forall_two in IH as [I1 I2]. rewrite I1 by exact R. rewrite I2; [reflexivity|].
    intros n. unfold hide. now rewrite R, Tauto.if_same.
Qed.

(** The graph mutator computes the same substitution. *)
(** What does not use the names is left alone. *)
Lemma subst_unused e : forall r, (forall n, expr_uses_var e n = true -> r n = None) -> subst r e = e.
Proof.
  induction e as [e IH] using Expr_children_ind. intros r U. rewrite Forall_forall in IH.
  assert (C : forall a, In a (children e) -> forall n, expr_uses_var a n = true -> r n = None).
  { intros a A n Un. apply U. destruct (expr_uses_var e n) eqn:X; [reflexivity|].
    now rewrite (uses_children e n a A X) in Un. }
  destruct (plain e) eqn:P.
  - rewrite subst_plain by exact P. apply visit_children_same, Forall_forall. eauto.
  - destruct e; try discriminate P; cbn [subst].
    + rewrite (U name); [reflexivity|]. cbn. apply String.eqb_refl.
    + cbn [children In] in *. rewrite (IH e1) by eauto. rewrite (IH e2); eauto.
      intros n Un. unfold hide. destruct (String.eqb n name); [reflexivity|eauto].
Qed.

Lemma subst_fresh v u e : expr_uses_var e v = false -> subst (singleton v u) e = e.
Proof.
  intros F. apply subst_unused. intros n U. unfold singleton. destruct (String.eqb_spec n v) as [->|]; congruence.
Qed.

(** [substitute] always answers. *)
Lemma substitute_subst v u e : substitute v u e = Some (subst (singleton v u) e).
Proof.
  pose proof (subst_visit_spec (singleton v u) e empty_scope empty_scope_ok) as Y.
  assert (E : subst (visible (singleton v u) empty_scope) e = subst (singleton v u) e).
  { apply subst_ext. intros n. unfold visible, find_replacement. now destruct (singleton v u n). }
  rewrite E in Y. unfold yields in Y. unfold substitute, substitute_map. now rewrite Y.
Qed.

Lemma graph_substitute_subst v u e : graph_substitute v u e = subst (singleton v u) e.
Proof.
  induction e as [e IH] using Expr_children_ind. destruct (plain e) eqn:N.
  - rewrite subst_plain by exact N.
    replace (graph_substitute v u e) with (visit_children (graph_substitute v u) e) by (now destruct e).
    destruct e; try discriminate N; cbn [visit_children children] in *; try reflexivity;
      try apply Forall_three in IH as (? & ? & ?); try apply Forall_two in IH as (? & ?);
      try (apply Forall_inv in IH); try congruence; f_equal; apply map_ext_Forall; exact IH.
  - destruct e; try discriminate N; cbn [graph_substitute subst children] in *.
    + unfold singleton. now destruct (String.eqb name v).
    + apply Forall_two in IH as [I1 I2]. rewrite I1. destruct (String.eqb name v) eqn:E.
      * rewrite (subst_none e2); [reflexivity|]. intros n. now rewrite hide_singleton, E.
      * rewrite I2. f_equal. apply subst_ext. intros n. now rewrite hide_singleton, E.
Qed.

(** Replacing [n] by [u] where [f] is the value of [u]. *)
Lemma subst_rel_singleton g n u env f :
  (forall j, lane_in (type_of u) j -> ev env j u = cast_val (type_of u) (f (lane_of (type_of u) j))) ->
  subst_rel ((n, type_of u) :: g) (singleton n u) env (bind env n f).
Proof.
  intros V. split; try reflexivity; unfold singleton; intros m; destruct (String.eqb_spec m n) as [->|N]; try discriminate.
  - intros t j _ _ _. now rewrite bind_other.
  - intros w t [= <-] A. symmetry. now apply agrees_same in A.
  - intros w t j [= <-] A L. apply agrees_same in A as ->. rewrite bind_same. now apply V.
Qed.

(** The value of a well-typed expression in range, through a variable. *)
Lemma variable_value g env u j : wf u = true -> typed g u = true ->
  (forall j, lane_in (type_of u) j -> in_type (type_of u) (ev env j u)) -> lane_in (type_of u) j ->
  ev env j u = cast_val (type_of u) (ev env (lane_of (type_of u) j) u).
Proof.
  intros W Ty R L. rewrite cast_val_id; [|apply (wf_wf_type u W)|now apply R, lane_in_lane_of].
  unfold lane_of. destruct (Z.eqb_spec (lanes (type_of u)) 1) as [E|]; [|reflexivity].
  apply (scalar_ev u g); auto. now apply Z.eqb_eq.
Qed.

Lemma captures_let_free r e : binders e = [] -> captures_none r e.
Proof. intros B n. now rewrite B. Qed.

(** ** Eliminating every let *)

Lemma visit_children_binders f e : plain e = true -> Forall (fun a => binders (f a) = []) (children e) ->
  binders (visit_children f e) = [].
Proof.
  assert (X : forall l, Forall (fun a => binders (f a) = []) l -> List.concat (map binders (map f l)) = []).
  { induction 1 as [|a l E _ IH]; cbn; [reflexivity|]. now rewrite E, IH. }
  destruct e; cbn [plain children visit_children binders]; intros N H; try discriminate; auto;
    try apply Forall_three in H as (-> & -> & ->); try apply Forall_two in H as (-> & ->);
    try (apply Forall_inv in H); auto.
Qed.

Lemma visit_children_typed g0 g f e : plain e = true -> typed g0 e = true ->
  Forall (fun a => typed g (f a) = true /\ type_of (f a) = type_of a) (children e) ->
  typed g (visit_children f e) = true.
Proof.
  destruct e; cbn [plain children visit_children]; intros N Ty H; try discriminate; auto;
    try apply Forall_three in H as ([H1 _] & [H2 _] & [H3 _]); try apply Forall_two in H as ([H1 _] & [H2 _]);
    try (apply Forall_inv in H as [H1 _]); cbn [typed] in *; rewrite ?H1, ?H2, ?H3; auto.
  - destr_and. apply andb_true_iff. split.
    + clear - H. induction H as [|a l [T _] _ IH]; cbn; [reflexivity|]. now rewrite T, IH.
    + clear - H H1. induction H as [|a l [_ T] _ IH]; cbn in *; [reflexivity|].
      destr_and. rewrite T, H. now apply IH.
  - clear - H. induction H as [|a l [T _] _ IH]; cbn; [reflexivity|]. now rewrite T, IH.
Qed.

Lemma binders_nil_children e : plain e = true -> binders e = [] -> Forall (fun a => binders a = []) (children e).
Proof.
  intros _ B. apply Forall_forall. intros a A. destruct (binders a) as [|n l] eqn:E; [reflexivity|].
  exfalso. assert (I : In n (binders e)) by (apply (binders_children e a); [exact A|rewrite E; now left]).
  rewrite B in I. exact I.
Qed.

(** Substituting in a let-free expression for a let-bound name. *)
Lemma subst_let_free e : forall g n u, wf e = true -> typed ((n, type_of u) :: g) e = true ->
  wf u = true -> typed g u = true -> binders e = [] -> binders u = [] ->
  let e' := subst (singleton n u) e in
  wf e' = true /\ type_of e' = type_of e /\ typed g e' = true /\ binders e' = [].
Proof.
  induction e as [e IH] using Expr_children_ind. intros g n u W Ty Wu Tu Be Bu.
  pose proof (wf_children e W) as Ws. rewrite Forall_forall in IH, Ws.
  destruct (plain e) eqn:N; cbv zeta.
  - rewrite subst_plain by exact N. pose proof (typed_children _ e N Ty) as Ts.
    pose proof (binders_nil_children e N Be) as Bs. rewrite Forall_forall in Ts, Bs.
    assert (K : Forall (fun a => let e' := subst (singleton n u) a in
      wf e' = true /\ type_of e' = type_of a /\ typed g e' = true /\ binders e' = []) (children e)).
    { apply Forall_forall. intros a A. apply (IH a A g n u); auto. }
    cbv zeta in K.
    destruct (visit_children_wf (subst (singleton n u)) e) as [We Te]; [|exact W|].
    { eapply Forall_impl; [|exact K]. now intros a (? & ? & _). }
    split; [exact We|]. split; [exact Te|]. split.
    + apply (visit_children_typed ((n, type_of u) :: g)); auto.
      eapply Forall_impl; [|exact K]. now intros a (_ & ? & ? & _).
    + apply visit_children_binders; [exact N|]. eapply Forall_impl; [|exact K]. now intros a (_ & _ & _ & ?).
  - destruct e; try discriminate N; [|discriminate Be]. cbn [typed subst] in *. unfold singleton.
    destruct (String.eqb_spec name n) as [->|Ne].
    + apply agrees_same in Ty. cbn [type_of]. auto.
    + rewrite agrees_other in Ty by congruence. auto.
Qed.

(** Every let-bound value is in the range of its type, in all of its lanes. *)
Fixpoint lets_fit (env : Env) (e : Expr) : Prop :=
  match e with
  | IntImm _ _ | UIntImm _ _ | FloatImm _ _ | StringImm _ | EVariable _ _ => True
  | Cast _ a | ENot a | Broadcast a _ => lets_fit env a
  | EBin _ a b | ECmp _ a b | Ramp a b _ | Load _ _ a b _ => lets_fit env a /\ lets_fit env b
  | Select c t f => lets_fit env c /\ lets_fit env t /\ lets_fit env f
  | ECall _ _ args _ _ =>
      (fix all (l : list Expr) : Prop :=
         match l with [] => True | a :: l' => lets_fit env a /\ all l' end) args
  | ELet n v b =>
      lets_fit env v /\
      (forall j, lane_in (type_of v) j -> in_type (type_of v) (ev env j v)) /\
      lets_fit (bind env n (fun j => ev env j v)) b
  | Shuffle vs _ =>
      (fix all (l : list Expr) : Prop :=
         match l with [] => True | a :: l' => lets_fit env a /\ all l' end) vs
  end.

Lemma lets_fit_children env e : plain e = true -> lets_fit env e -> Forall (lets_fit env) (children e).
Proof.
  assert (X : forall l, (fix all (l : list Expr) : Prop :=
         match l with [] => True | a :: l' => lets_fit env a /\ all l' end) l -> Forall (lets_fit env) l).
  { induction l as [|a l IH]; constructor; tauto. }
  destruct e; cbn [plain lets_fit children]; intros N L; try discriminate; destr_and; auto.
Qed.

(** What eliminating lets keeps of an expression. *)
Record inlined (g : Ctx) (env : Env) (e e' : Expr) : Prop := {
  inlined_wf : wf e' = true;
  inlined_type : type_of e' = type_of e;
  inlined_typed : typed g e' = true;
  inlined_free : binders e' = [];
  inlined_value : forall i, lane_in (type_of e) i -> ev env i e' = ev env i e
}.

Lemma substitute_in_all_lets_spec e : forall g env, wf e = true -> typed g e = true -> lets_fit env e ->
  inlined g env e (substitute_in_all_lets e).
Proof.
  induction e as [e IH] using Expr_children_ind. intros g env W Ty L.
  pose proof (wf_children e W) as Ws. rewrite Forall_forall in IH, Ws. destruct (plain e) eqn:N.
  - replace (substitute_in_all_lets e) with (visit_children substitute_in_all_lets e) by (now destruct e).
    pose proof (typed_children _ e N Ty) as Ts. pose proof (lets_fit_children env e N L) as Ls.
    rewrite Forall_forall in Ts, Ls.
    assert (K : Forall (fun a => inlined g env a (substitute_in_all_lets a)) (children e)).
    { apply Forall_forall. intros a A. apply (IH a A); auto. }
    destruct (visit_children_wf substitute_in_all_lets e) as [We Te]; [|exact W|].
    { eapply Forall_impl; [|exact K]. now intros a []. }
    split; auto.
    + apply (visit_children_typed g); auto. eapply Forall_impl; [|exact K]. now intros a [].
    + apply visit_children_binders; [exact N|]. eapply Forall_impl; [|exact K]. now intros a [].
    + apply (visit_children_value _ env env); auto; [now apply (typed_args_lanes g)|].
      eapply Forall_impl; [|exact K]. now intros a [].
  - destruct e; try discriminate N; [now split|].
    cbn [substitute_in_all_lets typed lets_fit children] in *. destr_and.
    destruct (IH e1 (or_introl eq_refl) g env) as [Wv Tv Yv Bv Vv]; auto.
    { apply Ws. now left. }
    destruct (IH e2 (or_intror (or_introl eq_refl)) ((name, type_of e1) :: g) (bind env name (fun j => ev env j e1)))
      as [Wb Tb Yb Bb Vb]; auto.
    { apply Ws. right. now left. }
    set (v' := substitute_in_all_lets e1) in *. set (b' := substitute_in_all_lets e2) in *.
    rewrite graph_substitute_subst, <- Tv in *.
    destruct (subst_let_free b' g name v') as (We & Te & Ye & Be); auto.
    assert (S : subst_rel ((name, type_of v') :: g) (singleton name v') env (bind env name (fun j => ev env j e1))).
    { apply subst_rel_singleton. intros j J. rewrite <- Vv by now apply lane_in_lane_of.
      apply (variable_value g); auto. intros k K. rewrite Vv; auto. }
    destruct (subst_keeps_value b' ((name, type_of v') :: g) (singleton name v') _ _ Wb Yb S) as [T V].
    { now apply captures_let_free. }
    split; auto; [now rewrite Te|]. intros i I. rewrite V by now rewrite Tb. now apply Vb.
Qed.

(** ** Theorems *)

(** C36: An expression that does not use a name has the same
    value whatever the name means, as a variable, a buffer or a function. *)
Theorem uses_var_sound e n a b i :
  expr_uses_var e n = false -> agree_off n a b -> ev a i e = ev b i e.
Proof. intros U A. now apply unused_agree with n. Qed.

Definition sample_let : Expr :=
  let v n := EVariable (Int 32 1) n in
  ELet "x" (EBin Add (v "y") (IntImm (Int 32 1) 1)) (EBin Mul (v "x") (v "y")).

Lemma uses_var_sound_witness :
  let env := mkEnv (fun _ _ => 5) (fun _ _ => 0) (fun _ _ _ _ => 0) in
  ev (bind env "z" (fun _ => 9)) 0 sample_let = ev env 0 sample_let.
Proof.
  cbv zeta. apply (uses_var_sound sample_let "z"); [reflexivity|].
  intros m N. split; [|now split]. intros j. now apply (f_equal (fun f => f j)), bind_other.
Defined.

(** C35: [substitute] answers, with its scope of hidden
    names empty again, what textbook substitution gives, and so does the graph
    mutator; where no let captures a variable of the replacement, the result is
    well formed, has the type of the expression, and the value the expression
    has with the name bound to the replacement. *)
Theorem substitute_correct v u e env :
  wf e = true -> wf u = true -> typed [] u = true -> typed [(v, type_of u)] e = true ->
  (forall j, lane_in (type_of u) j -> in_type (type_of u) (ev env j u)) ->
  (forall n, In n (binders e) -> expr_uses_var u n = false) ->
  exists e', substitute v u e = Some e' /\ graph_substitute v u e = e' /\
    subst_visit (singleton v u) e empty_scope = Some (e', empty_scope) /\
    wf e' = true /\ type_of e' = type_of e /\
    forall i, lane_in (type_of e) i -> ev env i e' = ev (bind env v (fun j => ev env j u)) i e.
Proof.
  intros W Wu Tu Ty R C. exists (subst (singleton v u) e).
  pose proof (subst_visit_spec (singleton v u) e empty_scope empty_scope_ok) as Y.
  assert (E : subst (visible (singleton v u) empty_scope) e = subst (singleton v u) e).
  { apply subst_ext. intros n. unfold visible, find_replacement. now destruct (singleton v u n). }
  rewrite E in Y. unfold yields in Y. split; [unfold substitute, substitute_map; now rewrite Y|].
  split; [apply graph_substitute_subst|]. split; [exact Y|].
  destruct (subst_keeps_wf e [(v, type_of u)] (singleton v u) W Ty) as [We Te].
  { intros n w t. unfold singleton. destruct (String.eqb_spec n v) as [->|]; [|discriminate].
    intros [= <-] A. apply agrees_same in A as ->. auto. }
  split; [exact We|]. split; [exact Te|].
  apply (subst_keeps_value e [(v, type_of u)] (singleton v u)); auto.
  - apply subst_rel_singleton. intros j J. now apply (variable_value []).
  - intros n I m w. unfold singleton. destruct (String.eqb m v); [|discriminate]. intros [= <-]. auto.
Qed.

Lemma substitute_correct_witness :
  let u := EBin Mul (EVariable (Int 32 1) "z") (IntImm (Int 32 1) 2) in
  let env := mkEnv (fun _ _ => 5) (fun _ _ => 0) (fun _ _ _ _ => 0) in
  exists e', substitute "y" u sample_let = Some e' /\ ev env 0 e' = 110.
Proof.
  cbv zeta. set (u := EBin Mul (EVariable (Int 32 1) "z") (IntImm (Int 32 1) 2)).
  set (env := mkEnv (fun _ _ => 5) (fun _ _ => 0) (fun _ _ _ _ => 0)).
  destruct (substitute_correct "y" u sample_let env) as (e' & S & _ & _ & _ & _ & V); try reflexivity.
  - intros j _. split; vm_compute; discriminate.
  - intros n [<-|[]]. reflexivity.
  - exists e'. split; [exact S|]. rewrite V by now left. vm_compute. reflexivity.
Defined.

(** C34: [substitute_in_all_lets] leaves no
    let, and the type and the value of the expression in all of its lanes,
    whatever names the lets bind, when the let-bound values are in the range of
    their types. *)
Theorem substitute_in_all_lets_correct e env : wf e = true -> typed [] e = true -> lets_fit env e ->
  let e' := substitute_in_all_lets e in
  binders e' = [] /\ wf e' = true /\ type_of e' = type_of e /\
  forall i, lane_in (type_of e) i -> ev env i e' = ev env i e.
Proof.
  intros W Ty L. destruct (substitute_in_all_lets_spec e [] env W Ty L). cbv zeta. auto.
Qed.

(** The inner let would capture the variable of the outer value. *)
Lemma substitute_in_all_lets_correct_witness :
  let e := ELet "x" (EVariable (Int 32 1) "y") (ELet "y" (IntImm (Int 32 1) 3)
    (EBin Add (EVariable (Int 32 1) "x") (EVariable (Int 32 1) "y"))) in
  let env := mkEnv (fun _ _ => 5) (fun _ _ => 0) (fun _ _ _ _ => 0) in
  substitute_in_all_lets e = EBin Add (EVariable (Int 32 1) "y") (IntImm (Int 32 1) 3) /\
  ev env 0 (substitute_in_all_lets e) = ev env 0 e.
Proof.
  cbv zeta. split; [reflexivity|].
  apply (substitute_in_all_lets_correct (ELet "x" (EVariable (Int 32 1) "y") (ELet "y" (IntImm (Int 32 1) 3)
    (EBin Add (EVariable (Int 32 1) "x") (EVariable (Int 32 1) "y"))))); try reflexivity.
  - repeat split; vm_compute; discriminate.
  - now left.
Defined.
