(* ===== verification/RuleTac.v ===== *)
(** * Proving rules sound

    Rewriting lemmas and tactics that decide [rule_typed] and [rule_sound]. *)

From Stdlib Require Import ZArith Lia Bool List String ZifyBool.
From S2P Require Import Prelude.
From S2P Require Import IntArith.
From S2P Require Import ModulusRemainder.
From S2P Require Import HalideTypes.
From S2P Require Import IR.
From S2P Require Import IRMatch.
From S2P Require Import RuleSem.
From S2P Require Import Euclid.
Import ListNotations.
Open Scope Z_scope.

#[global] Arguments Z.add : simpl never.
#[global] Arguments Z.sub : simpl never.
#[global] Arguments Z.mul : simpl never.
#[global] Arguments Z.opp : simpl never.
#[global] Arguments Z.min : simpl never.
#[global] Arguments Z.max : simpl never.
#[global] Arguments Z.eqb : simpl never.
#[global] Arguments Z.ltb : simpl never.
#[global] Arguments Z.leb : simpl never.
#[global] Arguments Z.lor : simpl never.
#[global] Arguments Z.land : simpl never.
#[global] Arguments Z.lnot : simpl never.
#[global] Arguments Z.of_nat : simpl never.
#[global] Arguments with_lanes : simpl never.
#[global] Arguments element_of : simpl never.
#[global] Arguments or_lanes : simpl never.
#[global] Arguments join : simpl never.
#[global] Arguments norm : simpl never.
#[global] Arguments cast_val : simpl never.
#[global] Arguments in_type : simpl never.
#[global] Arguments in_typeb : simpl never.
#[global] Arguments no_overflow_int : simpl never.
#[global] Arguments ediv : simpl never.
#[global] Arguments emod : simpl never.
#[global] Arguments nz : simpl never.
#[global] Arguments BoolT : simpl never.
#[global] Arguments is_bool : simpl never.
#[global] Arguments is_int : simpl never.
#[global] Arguments is_scalar : simpl never.
#[global] Arguments is_vector : simpl never.
#[global] Arguments int_type : simpl never.
#[global] Arguments wf_type : simpl never.
#[global] Arguments vector_lanes : simpl never.
#[global] Arguments compatible : simpl never.

(** ** Types *)

Create HintDb types discriminated.
Create Rewrite HintDb types.

Lemma norm_with T n v : norm (with_lanes T n) v = norm T v.
Proof. apply norm_elt. split; reflexivity. Qed.
Lemma cast_val_with T n v : cast_val (with_lanes T n) v = cast_val T v.
Proof. apply cast_val_elt. split; reflexivity. Qed.
Lemma no_overflow_int_with T n : no_overflow_int (with_lanes T n) = no_overflow_int T.
Proof. reflexivity. Qed.
Lemma in_typeb_with T n v : in_typeb (with_lanes T n) v = in_typeb T v.
Proof. reflexivity. Qed.
Lemma is_int_with T n : is_int (with_lanes T n) = is_int T.
Proof. reflexivity. Qed.
Lemma is_bool_with T n : is_bool (with_lanes T n) = is_bool T.
Proof. reflexivity. Qed.
Lemma element_eq T : element_of T = with_lanes T 1.
Proof. reflexivity. Qed.
Lemma with_with T m n : with_lanes (with_lanes T m) n = with_lanes T n.
Proof. reflexivity. Qed.
Lemma lanes_with T n : lanes (with_lanes T n) = n.
Proof. reflexivity. Qed.
Lemma lanes_BoolT n : lanes (BoolT n) = n.
Proof. reflexivity. Qed.
Lemma with_BoolT m n : with_lanes (BoolT m) n = BoolT n.
Proof. reflexivity. Qed.
Lemma is_bool_BoolT n : is_bool (BoolT n) = true.
Proof. reflexivity. Qed.
Lemma join_same T : join T T = T.
Proof. unfold join. destruct (is_vector T); [reflexivity|apply with_lanes_id]. Qed.
Lemma in_type_with T n v : in_type (with_lanes T n) v = in_type T v.
Proof. reflexivity. Qed.
Lemma join_s T : join (with_lanes T 1) T = T.
Proof. change (with_lanes T (lanes T) = T). apply with_lanes_id. Qed.
Lemma join_v T : join T (with_lanes T 1) = T.
Proof.
  unfold join, is_vector. destruct (Z.eqb_spec (lanes T) 1) as [E|]; [|reflexivity].
  change (with_lanes T 1 = T). rewrite <- E. apply with_lanes_id.
Qed.
Lemma join_BoolT_s n : join (BoolT 1) (BoolT n) = BoolT n.
Proof. exact (join_s (BoolT n)). Qed.
Lemma join_BoolT_v n : join (BoolT n) (BoolT 1) = BoolT n.
Proof. exact (join_v (BoolT n)). Qed.
Lemma cast_val_b2z n b : cast_val (BoolT n) (b2z b) = b2z b.
Proof. now destruct b. Qed.
Lemma or_lanes_same T : or_lanes T (lanes T) = T.
Proof. unfold or_lanes. rewrite Z.lor_diag. apply with_lanes_id. Qed.
Lemma or_lanes_with T n : or_lanes (with_lanes T n) n = with_lanes T n.
Proof. exact (or_lanes_same (with_lanes T n)). Qed.
Lemma is_scalar_with T : is_scalar (with_lanes T 1) = true.
Proof. reflexivity. Qed.
Lemma is_scalar_BoolT : is_scalar (BoolT 1) = true.
Proof. reflexivity. Qed.
Lemma nz_b2z' b : nz (b2z b) = b.
Proof. apply nz_b2z. Qed.

#[export] Hint Rewrite norm_with cast_val_with no_overflow_int_with in_typeb_with is_int_with
  is_bool_with element_eq with_with lanes_with lanes_BoolT with_BoolT is_bool_BoolT join_same
  or_lanes_same or_lanes_with with_lanes_id in_type_with join_s join_v join_BoolT_s join_BoolT_v cast_val_b2z is_scalar_with is_scalar_BoolT Z.lor_diag nz_b2z' type_eqb_refl
  : types.

Lemma compatible_refl T : compatible T T.
Proof. split; auto. Qed.

Lemma compatible_vs T n : compatible (with_lanes T n) (with_lanes T 1).
Proof. split; [reflexivity|]. auto. Qed.

Lemma compatible_v T : compatible T (with_lanes T 1).
Proof. split; [reflexivity|]. auto. Qed.

Lemma compatible_s T : compatible (with_lanes T 1) T.
Proof. split; [reflexivity|]. auto. Qed.

Lemma compatible_BoolT_v n : compatible (BoolT n) (BoolT 1).
Proof. split; [reflexivity|]. auto. Qed.

Lemma compatible_BoolT_s n : compatible (BoolT 1) (BoolT n).
Proof. split; [reflexivity|]. auto. Qed.

#[export] Hint Resolve compatible_BoolT_v compatible_BoolT_s : types.
#[export] Hint Resolve compatible_refl compatible_vs compatible_v compatible_s : types.

Lemma wf_type_BoolT T : wf_type T -> wf_type (BoolT (lanes T)).
Proof. intros [_ V]. split; [reflexivity|exact V]. Qed.

Lemma wf_type_BoolT1 : wf_type (BoolT 1).
Proof. split; reflexivity. Qed.

Lemma wf_type_with1 T : wf_type T -> wf_type (with_lanes T 1).
Proof. apply wf_type_element. Qed.

Lemma wf_type_int T : wf_type T -> int_type T = true.
Proof. now intros [I _]. Qed.

#[export] Hint Resolve wf_type_int wf_type_BoolT wf_type_BoolT1 wf_type_with1 : types.

(** ** Opening a rule *)

Ltac split_and := repeat match goal with |- _ /\ _ => split end.

Ltac generalize_valuation ρ :=
  repeat match goal with
  | |- context [wty ρ ?n] => generalize (wty ρ n)
  | |- context [wv ρ ?n] => generalize (wv ρ n)
  | |- context [cty ρ ?n] => generalize (cty ρ n)
  | |- context [cv ρ ?n] => generalize (cv ρ n)
  | |- context [aty ρ ?n] => generalize (aty ρ n)
  | |- context [av ρ ?n] => generalize (av ρ n)
  | |- context [lane ρ] => generalize (lane ρ)
  end.

Ltac simplify_hyps :=
  repeat match goal with
  | H : wf_type ?T, H' : wf_type ?T |- _ => clear H'
  | H : _ /\ _ |- _ => destruct H
  | H : exists _, _ |- _ => destruct H
  | H : true = true -> _ |- _ => specialize (H eq_refl)
  | H : false = true -> _ |- _ => clear H
  | H : True |- _ => clear H
  | H : ?x = ?x |- _ => clear H
  | H : False |- _ => destruct H
  | H : true = false |- _ => discriminate H
  | H : ?x = ?y |- _ => first [is_var x; subst x | is_var y; subst y]
  end.

Ltac open_rule :=
  let ρ := fresh "ρ" in
  let v := fresh "val" in
  intros ρ v;
  cbn; unfold pred_holds, arg_is, bin_node, cmp_node, select_node, fexact;
  cbn; generalize_valuation ρ; intros; simplify_hyps;
  autorewrite with types in *.

Lemma in_type_0 T : wf_type T -> in_type T 0.
Proof. intros [I _]. pose proof (tmin_tmax_width T I). unfold in_type. lia. Qed.

Lemma in_type_1 T : wf_type T -> in_type T 1.
Proof. intros [I _]. pose proof (tmin_tmax_width T I). unfold in_type. lia. Qed.

#[export] Hint Resolve in_type_0 in_type_1 : types.

(** ** Types that do not overflow *)

Lemma wide_bounds T : wf_type T -> no_overflow_int T = true ->
  tmin T <= - 2147483648 /\ 2147483647 <= tmax T /\ tmin T = - tmax T - 1.
Proof.
  intros [I _] G. unfold tmin, tmax. pose proof (int_type_bits T I).
  unfold no_overflow_int in G. zify_bool. rewrite H0.
  assert (2 ^ 31 <= 2 ^ (bits T - 1)) by (apply Z.pow_le_mono_r; lia). lia.
Qed.

Lemma no_overflow_wide T : wf_type T -> no_overflow T = true -> no_overflow_int T = true.
Proof.
  intros [I _]. unfold no_overflow, is_float, int_type in *.
  destruct (code T); cbn; intros; auto; discriminate.
Qed.

Lemma valid_lanes_bounds T : wf_type T -> 1 <= lanes T < 16384.
Proof. intros [_ V]. unfold valid_lanes, lanes_limit in V. zify_bool. lia. Qed.

Lemma in_type_small T v : wf_type T -> no_overflow_int T = true ->
  - 2147483648 <= v <= 2147483647 -> in_type T v.
Proof. intros W G L. pose proof (wide_bounds T W G). unfold in_type. lia. Qed.

Lemma in_type_bit n v : 0 <= v <= 1 -> in_type (BoolT n) v.
Proof. intros. apply in_type_bool. lia. Qed.

#[export] Hint Extern 2 (in_type _ _) =>
  first [apply in_type_small; [assumption|assumption|lia] | apply in_type_bit; lia] : types.

Lemma in_type_emod T a b : wf_type T -> in_type T a -> in_type T b -> b <> 0 ->
  in_type T (emod a b).
Proof.
  intros [I _]. pose proof (int_type_bits T I). unfold in_type, tmin, tmax. intros Ra Rb N.
  pose proof (emod_bound a b N). destruct (is_int T); lia.
Qed.

#[export] Hint Resolve in_type_emod : types.

Lemma cast_val_in T v : wf_type T -> in_type T v -> cast_val T v = v.
Proof. intros [I _]. now apply cast_val_id. Qed.

(** A quotient read back from a 64-bit register. *)
Lemma in_type_i64 T v : wf_type T -> is_int T = true -> in_type T v -> i64 v = v.
Proof.
  intros [I _] S. pose proof (int_type_sbits T I S). unfold in_type, tmin, tmax. rewrite S.
  assert (2 ^ (bits T - 1) <= 2 ^ 63) by (apply Z.pow_le_mono_r; lia).
  intros. apply wrap_s_id; lia.
Qed.

Lemma wide_is_int T : no_overflow_int T = true -> is_int T = true.
Proof. unfold no_overflow_int. intros. now zify_bool. Qed.

Lemma b2z_true b : b2z b <> 0 <-> b = true.
Proof. now destruct b. Qed.

Ltac clean_hyps :=
  repeat match goal with
  | H : in_typeb _ _ = true |- _ => apply in_typeb_spec in H
  | H : andb _ _ = true |- _ => apply andb_true_iff in H; destruct H
  | H : b2z ?b <> 0 |- _ => apply (proj1 (b2z_true b)) in H
  | H : negb _ = true |- _ => apply negb_true_iff in H
  | H : (_ =? _) = false |- _ => apply Z.eqb_neq in H
  | H : (_ =? _) = true |- _ => apply Z.eqb_eq in H
  | H : (_ <? _) = true |- _ => apply Z.ltb_lt in H
  | H : (_ <? _) = false |- _ => apply Z.ltb_ge in H
  | H : (_ <=? _) = true |- _ => apply Z.leb_le in H
  | H : (_ <=? _) = false |- _ => apply Z.leb_gt in H
  | H : _ /\ _ |- _ => destruct H
  end.

(** The hypotheses of a rule on a type that does not overflow, as integer facts. *)
Ltac wide_facts G :=
  match type of G with
  | no_overflow_int ?T = true =>
      repeat match goal with
        | |- context [norm T ?v] => rewrite (norm_no_overflow T v G)
        | H : context [norm T ?v] |- _ => rewrite (norm_no_overflow T v G) in H
        | H : context [if no_overflow_int T then _ else _] |- _ => rewrite G in H
        | |- context [is_int T] => rewrite (wide_is_int T G)
        | H : context [is_int T] |- _ => rewrite (wide_is_int T G) in H
        end
  end.

(** ** Literals and folds *)

Lemma cast_lit T v : wf_type T -> - 2147483648 <= v <= 2147483647 -> cast_val T v = norm T v.
Proof.
  intros W L. unfold norm. destruct (no_overflow_int T) eqn:G; [|reflexivity].
  pose proof (wide_bounds T W G). apply cast_val_in; [assumption|]. unfold in_type. lia.
Qed.

Lemma norm_in T v : wf_type T -> in_type T v -> norm T v = v.
Proof. intros [I _]. now apply norm_id. Qed.

Lemma cast_fold T v : wf_type T ->
  (if no_overflow_int T then in_typeb T v else true) = true -> cast_val T (norm T v) = norm T v.
Proof.
  intros W E. destruct (no_overflow_int T) eqn:G.
  - apply in_typeb_spec in E. rewrite norm_no_overflow by assumption. now apply cast_val_in.
  - apply cast_val_in; [assumption|]. apply norm_range; [apply W|assumption].
Qed.

Lemma norm_eq_in T a b : wf_type T -> in_type T b -> norm T a = norm T b -> norm T a = b.
Proof. intros W R ->. now apply norm_in. Qed.

(** ** Predicates *)

(** The lane of a claim is one of the instance. *)
Ltac in_lane :=
  unfold lane_in, is_scalar in *; cbn [BoolT UInt with_lanes element_of lanes] in *;
  first [ assumption | left; first [reflexivity | assumption] | right; lia ].

(** Predicates hold once their folds are seen to be well typed. *)
Ltac use_preds :=
  repeat match goal with
  | H : (_ -> _) \/ _ |- _ => destruct H as [H|H]
  | H : ?A -> ?B |- _ =>
      let P := fresh "P" in
      assert (P : A) by (split_and; first [solve [auto with types] | reflexivity | solve [in_lane]]);
      specialize (H P); clear P; simplify_hyps
  end.

(** ** Preparing a rule *)

Lemma bool_type_inv T : is_bool T = true -> exists n, T = BoolT n.
Proof.
  intros H. destruct (is_bool_elt T H). destruct T as [c b l]; cbn in *; subst. now exists l.
Qed.

Lemma BoolT_inj m n : BoolT m = BoolT n -> m = n.
Proof. now intros [= ->]. Qed.

Lemma in_type_BoolT n v : in_type (BoolT n) v -> 0 <= v <= 1.
Proof. intros H. apply in_type_bool in H. lia. Qed.

Lemma no_overflow_BoolT n : no_overflow (BoolT n) = false.
Proof. reflexivity. Qed.

Lemma cast_val_1 T : wf_type T -> cast_val T 1 = 1.
Proof. intros W. apply cast_val_in; auto with types. Qed.

Lemma wf_not_float T : wf_type T -> is_float T = false.
Proof. intros [I _]. unfold int_type, is_float in *. destruct (code T); auto; discriminate. Qed.

(** Boolean types are [BoolT]; values of boolean type are 0 or 1. *)
Ltac bool_types :=
  repeat match goal with
  | H : is_bool ?T = true |- _ =>
      is_var T; let n := fresh "n" in destruct (bool_type_inv T H) as [n ->]; clear H
  | H : BoolT _ = BoolT _ |- _ => apply BoolT_inj in H; subst
  | H : in_type (BoolT _) _ |- _ => apply in_type_BoolT in H
  end.

(** The limits of a type as specific expressions. *)
Ltac specifics :=
  repeat match goal with
  | W : wf_type ?T |- _ =>
      progress rewrite ?(const_type _ _ _ (type_min_spec T W)), ?(const_type _ _ _ (type_max_spec T W)),
        ?(const_ev _ _ _ (type_min_spec T W)), ?(const_ev _ _ _ (type_max_spec T W)) in *
  end.

Ltac small_lits :=
  repeat match goal with
  | W : wf_type ?T |- context [cast_val ?T 0] => rewrite (cast_val_0 T (proj1 W))
  | W : wf_type ?T |- context [cast_val ?T 1] => rewrite (cast_val_1 T W)
  | W : wf_type ?T, H : context [cast_val ?T 0] |- _ => rewrite (cast_val_0 T (proj1 W)) in H
  | W : wf_type ?T, H : context [cast_val ?T 1] |- _ => rewrite (cast_val_1 T W) in H
  end.

Ltac no_float :=
  match goal with
  | W : wf_type ?T, G : is_float ?T = true |- _ => rewrite (wf_not_float T W) in G; discriminate G
  | G : no_overflow (BoolT _) = true |- _ => discriminate G
  end.

Lemma vector_lane_in T i : vector_lanes (lanes T) = true -> lane_in T i -> 0 <= i <= lanes T - 1.
Proof.
  unfold vector_lanes, lane_in, is_scalar. intros V [H|H]; zify_bool; lia.
Qed.

Lemma vector_lane_in_BoolT n i : vector_lanes n = true -> lane_in (BoolT n) i -> 0 <= i <= n - 1.
Proof. exact (vector_lane_in (BoolT n) i). Qed.

Ltac vector_lane :=
  repeat match goal with
  | V : vector_lanes (lanes ?T) = true, H : lane_in ?T ?i |- _ =>
      apply (vector_lane_in T i V) in H
  | V : vector_lanes ?n = true, H : lane_in (BoolT ?n) ?i |- _ =>
      apply (vector_lane_in_BoolT n i V) in H
  end;
  repeat match goal with
  | V : vector_lanes (lanes ?T) = true, W : wf_type ?T |- _ =>
      pose proof (valid_lanes_bounds T W); clear V
  end.

Lemma is_scalar_BoolT_inv n : is_scalar (BoolT n) = true -> n = 1.
Proof. apply Z.eqb_eq. Qed.

(** A scalar condition selects among vectors. *)
Ltac condition_lanes :=
  repeat match goal with
  | H : is_scalar (BoolT ?n) = true \/ _ |- _ =>
      destruct H as [H|H]; [apply is_scalar_BoolT_inv in H|]; subst n
  end.

Ltac prepare :=
  open_rule; bool_types; autorewrite with types in *; simplify_hyps; condition_lanes;
  autorewrite with types in *; simplify_hyps;
  try no_float; specifics; small_lits.

Ltac typed_rule :=
  prepare; split_and; auto with types; try solve [cbn; auto with types].

(** ** Arithmetic at a type *)

(** Equality with zero, modulo the width. *)
Lemma norm_sub_zero T a b : wf_type T -> in_type T a -> in_type T b ->
  (norm T (a - b) =? 0) = (a =? b).
Proof.
  intros W Ra Rb. pose proof (proj1 W) as I. apply eq_true_iff_eq. rewrite !Z.eqb_eq. split.
  - intros E. rewrite <- (norm_in T a W Ra), <- (norm_in T b W Rb).
    replace a with (a - b + b) by ring. rewrite <- norm_add_l, E by assumption. reflexivity.
  - intros ->. rewrite Z.sub_diag. apply norm_in; auto with types.
Qed.

Lemma norm_add_zero T a b : wf_type T -> in_type T a ->
  (norm T (a + b) =? 0) = (a =? norm T (- b)).
Proof.
  intros W Ra. pose proof (proj1 W) as I. apply eq_true_iff_eq. rewrite !Z.eqb_eq. split.
  - intros E. rewrite <- (norm_in T a W Ra).
    replace a with (a + b - b) by ring. rewrite <- norm_sub_l, E by assumption. reflexivity.
  - intros ->. rewrite norm_add_l, Z.add_opp_diag_l by assumption. apply norm_in; auto with types.
Qed.

Lemma norm_sub_norm T a b c : wf_type T -> in_type T a ->
  (norm T (a - b) =? norm T c) = (a =? norm T (b + norm T c)).
Proof.
  intros W Ra. pose proof (proj1 W) as I. apply eq_true_iff_eq. rewrite !Z.eqb_eq. split.
  - intros <-. rewrite norm_add_r by assumption. rewrite <- (norm_in T a W Ra) at 1. f_equal. ring.
  - intros ->. rewrite norm_sub_l by assumption.
    replace (b + norm T c - b) with (norm T c) by ring. now apply norm_norm.
Qed.

Lemma in_type_min T a b : in_type T a -> in_type T b -> in_type T (Z.min a b).
Proof. unfold in_type. lia. Qed.

Lemma in_type_max T a b : in_type T a -> in_type T b -> in_type T (Z.max a b).
Proof. unfold in_type. lia. Qed.

#[export] Hint Resolve in_type_min in_type_max : types.

Ltac zero_tests :=
  repeat match goal with
  | W : wf_type ?T |- context [norm ?T (?a - ?b) =? 0] =>
      rewrite (norm_sub_zero T a b W) by auto with types
  | W : wf_type ?T |- context [norm ?T (?a + ?b) =? 0] =>
      rewrite (norm_add_zero T a b W) by auto with types
  | W : wf_type ?T |- context [norm ?T (?a - ?b) =? norm ?T ?c] =>
      rewrite (norm_sub_norm T a b c W) by auto with types
  | W : wf_type ?T, H : context [norm ?T (?a + ?b) =? 0] |- _ =>
      rewrite (norm_add_zero T a b W) in H by auto with types
  end.

(** The successor of a value of the type, or of its maximum. *)
Lemma norm_succ T a : wf_type T -> in_type T a ->
  norm T (a + 1) = a + 1 \/ a = tmax T /\ norm T (a + 1) = tmin T.
Proof.
  intros W R. destruct (no_overflow_int T) eqn:G; [left; now apply norm_no_overflow|].
  destruct (Z.eq_dec a (tmax T)) as [->|N].
  - right. split; [reflexivity|]. unfold norm. rewrite G.
    replace (tmax T + 1) with (tmin T + 1 * 2 ^ bits T).
    + replace (cast_val T) with (norm T) by (unfold norm; now rewrite G).
      rewrite norm_shift by (auto; apply W). apply norm_in, in_type_tmin; apply W.
    + pose proof (int_type_bits T (proj1 W)). unfold tmin, tmax.
      destruct (is_int T); rewrite (pow2_half (bits T)) by lia; lia.
  - left. apply norm_in; [assumption|]. unfold in_type in *. lia.
Qed.

Ltac successors :=
  repeat match goal with
  | W : wf_type ?T, R : in_type ?T ?a, H : context [norm ?T (?a + 1)] |- _ =>
      destruct (norm_succ T a W R) as [E|[? E]]; rewrite E in *; clear E
  end.

Ltac cases_select :=
  repeat match goal with
  | |- context [if ?a =? ?b then _ else _] => destruct (Z.eqb_spec a b)
  | |- context [if negb (?a =? ?b) then _ else _] => destruct (Z.eqb_spec a b)
  | |- context [if ?a <? ?b then _ else _] => destruct (Z.ltb_spec a b)
  | |- context [if ?a <=? ?b then _ else _] => destruct (Z.leb_spec a b)
  | |- context [if nz ?c then _ else _] => destruct (nz c) eqn:?
  | H : context [if nz ?c then _ else _] |- _ => destruct (nz c) eqn:?
  end.

(** The negation of a bit. *)
Lemma not_bit v : 0 <= v <= 1 -> Z.land (Z.lnot v) 1 = b2z (v =? 0).
Proof. intros. assert (v = 0 \/ v = 1) as [-> | ->] by lia; reflexivity. Qed.

Ltac bit_cases := rewrite not_bit, cast_val_b2z by lia; f_equal; lia.

(** Literals at most 2^31 in size become normalized values. *)
Ltac lits :=
  repeat match goal with
  | W : wf_type ?T |- context [cast_val ?T ?v] => rewrite (cast_lit T v W) by lia
  | W : wf_type ?T, H : context [cast_val ?T ?v] |- _ => rewrite (cast_lit T v W) in H by lia
  end.

Lemma cast_fold_div T v : wf_type T -> in_type T v ->
  cast_val T (if is_int T then i64 v else v) = v.
Proof.
  intros W R. destruct (is_int T) eqn:S; [rewrite (in_type_i64 T v W S R)|]; now apply cast_val_in.
Qed.

Ltac folds :=
  repeat match goal with
  | W : wf_type ?T, E : in_type ?T ?v
    |- context [cast_val ?T (if is_int ?T then i64 ?v else ?v)] => rewrite (cast_fold_div T v W E)
  | W : wf_type ?T, E : (if no_overflow_int ?T then in_typeb ?T ?v else true) = true
    |- context [cast_val ?T (norm ?T ?v)] => rewrite (cast_fold T v W E)
  | W : wf_type ?T |- context [cast_val ?T ?v] =>
      rewrite (cast_val_in T v W) by (solve [auto with types])
  | W : wf_type ?T, E : in_type ?T ?v, S : is_int ?T = true
    |- context [i64 ?v] => rewrite (in_type_i64 T v W S E)
  end.

(** Inner normalizations vanish under an outer one. *)
Lemma norm_ramp_r T a i b : int_type T = true ->
  norm T (a + i * norm T b) = norm T (a + i * b).
Proof.
  intros I. rewrite <- (norm_add_r T I a (i * norm T b)), (norm_mul_r T I). apply norm_add_r, I.
Qed.

Ltac push_norm_at T I ok :=
  match goal with
  | |- context [norm T (?a + ?i * norm T ?b)] => ok b; rewrite (norm_ramp_r T a i b I)
  | |- context [norm T (norm T ?a * ?b)] => ok a; rewrite (norm_mul_l T I a b)
  | |- context [norm T (?a * norm T ?b)] => ok b; rewrite (norm_mul_r T I a b)
  | |- context [norm T (norm T ?a + ?b)] => ok a; rewrite (norm_add_l T I a b)
  | |- context [norm T (?a + norm T ?b)] => ok b; rewrite (norm_add_r T I a b)
  | |- context [norm T (norm T ?a - ?b)] => ok a; rewrite (norm_sub_l T I a b)
  | |- context [norm T (?a - norm T ?b)] => ok b; rewrite (norm_sub_r T I a b)
  | |- context [norm T (norm T ?a)] => ok a; rewrite (norm_norm T I a)
  end.

(** Innermost first. *)
Ltac push_norm T I :=
  let pure a := lazymatch a with context [norm T _] => fail | _ => idtac end in
  let any a := idtac in
  repeat push_norm_at T I pure; repeat push_norm_at T I any.

Lemma max_mul_min a b : Z.max a b * Z.min a b = a * b.
Proof. destruct (Z.max_spec a b) as [[? ->]|[? ->]]; rewrite ?Z.min_l, ?Z.min_r by lia; ring. Qed.

(** Every lane of a ramp is between its first and its last one. *)
Ltac ramp_facts :=
  match goal with
  | H : 0 <= ?i, H' : ?i <= ?m |- context [?i * ?a] =>
      pose proof (ramp_between a i m (conj H H'))
  end.

Ltac mod_ring :=
  match goal with
  | W : wf_type ?T |- norm ?T _ = norm ?T _ => push_norm T (proj1 W); f_equal; ring
  | W : wf_type ?T |- norm ?T _ = _ =>
      apply (norm_eq_in T _ _ W); [solve [auto with types]|]; push_norm T (proj1 W); f_equal; ring
  end.

Ltac modular_rule :=
  prepare; use_preds; zero_tests; clean_hyps; small_lits; folds; lits; folds; trivial_quotients; zero_tests;
  cases_select; cbn [negb]; split_and; auto; try congruence; unfold nz in *;
  first [ reflexivity | lia
        | solve [rewrite max_mul_min; f_equal; ring | rewrite Z.min_comm, max_mul_min; f_equal; ring]
        | solve [successors; unfold in_type in *; lia] | mod_ring | symmetry; mod_ring
        | solve [bit_cases] | solve [euclid_all; subst; first [assumption | mod_ring | symmetry; mod_ring]] ].

(** [G] says that [T] does not overflow. *)
Ltac wide_guard G :=
  match type of G with
  | no_overflow ?T = true =>
      match goal with W : wf_type T |- _ => apply (no_overflow_wide T W) in G end
  | no_overflow_int ?T = true => idtac
  | no_overflow_scalar_int ?T = true => apply andb_true_iff in G; destruct G as [_ G]
  end.

(** ... for the types of a rule. *)
Ltac wide_typed_rule G := prepare; wide_guard G; split_and; auto with types.

Ltac wide_rule G :=
  prepare; wide_guard G; vector_lane; use_preds; clean_hyps; wide_facts G; lits; wide_facts G; clean_hyps;
  try (pose proof (wide_is_int _ G)); folds; trivial_quotients;
  cases_select; cbn [negb]; split_and; auto; unfold nz in *; clean_hyps;
  first [ lia | solve [eauto with euclid] | solve [ramp_facts; lia] | solve [unfold in_type in *; lia] | ring | solve [euclid_all; first [lia | by_multiple | nia]] ].
