(* ===== verification/MatchSound.v ===== *)
(** * Matching is sound

    An expression that [equal] identifies with another has its type and value,
    and an expression that matches a pattern has the meaning [lmatch] gives to
    the pattern at the bindings found. *)

From Stdlib Require Import ZArith Lia Bool List String.
From S2P Require Import Prelude.
From S2P Require Import IntArith.
From S2P Require Import ModulusRemainder.
From S2P Require Import HalideTypes.
From S2P Require Import IR.
From S2P Require Import IRMatch.
From S2P Require Import RuleSem.
Import ListNotations.
Open Scope Z_scope.

(** ** Equality *)

Definition same_value (a b : Expr) : Prop :=
  type_of a = type_of b /\ forall env i, ev env i a = ev env i b.

Lemma list_eqb_Forall2 {A} (f : A -> A -> bool) l1 : forall l2,
  list_eqb f l1 l2 = true -> Forall2 (fun a b => f a b = true) l1 l2.
Proof.
  induction l1 as [|a l1 IH]; intros [|b l2]; cbn; try discriminate; auto.
  intros H. destr_and. auto.
Qed.

Lemma list_eqb_Z l1 l2 : list_eqb Z.eqb l1 l2 = true -> l1 = l2.
Proof.
  intros H. apply list_eqb_Forall2 in H. induction H as [|a b l1 l2 E _ IH]; [reflexivity|].
  apply Z.eqb_eq in E. congruence.
Qed.

Lemma node_type_bin op1 op2 a b c d : node_type (EBin op1 a b) = node_type (EBin op2 c d) -> op1 = op2.
Proof. now destruct op1, op2. Qed.

Lemma node_type_cmp op1 op2 a b c d : node_type (ECmp op1 a b) = node_type (ECmp op2 c d) -> op1 = op2.
Proof. now destruct op1, op2. Qed.

Lemma call_type_eqb_eq a b : call_type_eqb a b = true -> a = b.
Proof. now destruct a, b. Qed.

Lemma pick_same env l1 l2 : Forall2 same_value l1 l2 -> forall k, pick env l1 k = pick env l2 k.
Proof.
  induction 1 as [|a b l1 l2 [T V] _ IH]; intros k; cbn; [reflexivity|].
  now rewrite T, V, IH.
Qed.

Lemma map_ev_same env i l1 l2 : Forall2 same_value l1 l2 -> map (ev env i) l1 = map (ev env i) l2.
Proof. induction 1 as [|a b l1 l2 [_ V] _ IH]; cbn; [reflexivity|]. now rewrite V, IH. Qed.

Lemma Forall2_same l1 l2 :
  Forall (fun a => forall b, equal a b = true -> same_value a b) l1 ->
  Forall2 (fun a b => equal a b = true) l1 l2 -> Forall2 same_value l1 l2.
Proof.
  intros H F. revert H. induction F as [|a b l1 l2 E _ IH]; intros H; [constructor|].
  inversion H; subst. constructor; auto.
Qed.

Lemma equal_sound a : forall b, equal a b = true -> same_value a b.
Proof.
  induction a using Expr_ind'; intros b E; cbn [equal] in E; apply andb_true_iff in E;
    destruct E as [TN E]; apply andb_true_iff in TN; destruct TN as [T N];
    apply type_eqb_eq in T; apply Z.eqb_eq in N; (split; [exact T|intros env i]);
    destruct b; try discriminate E.
  - apply Z.eqb_eq in E. cbn. congruence.
  - apply Z.eqb_eq in E. cbn. congruence.
  - reflexivity.
  - reflexivity.
  - destruct (IHa _ E) as [_ V]. cbn in T |- *. now rewrite V, T.
  - apply String.eqb_eq in E. cbn in T |- *. congruence.
  - destr_and. apply node_type_bin in N. subst. destruct (IHa1 _ H) as [T1 V1], (IHa2 _ H0) as [_ V2].
    cbn. now rewrite V1, V2, T1.
  - destr_and. apply node_type_cmp in N. subst. destruct (IHa1 _ H) as [_ V1], (IHa2 _ H0) as [_ V2].
    cbn. now rewrite V1, V2.
  - destruct (IHa _ E) as [_ V]. cbn. now rewrite V.
  - destr_and. destruct (IHa1 _ H) as [_ V1], (IHa2 _ H1) as [_ V2], (IHa3 _ H0) as [_ V3].
    cbn. now rewrite V1, V2, V3.
  - destr_and. apply String.eqb_eq in H. destruct (IHa2 _ H0) as [_ V]. cbn in T |- *. congruence.
  - destr_and. destruct (IHa1 _ H) as [T1 V1], (IHa2 _ H0) as [_ V2]. cbn. now rewrite V1, V2, T1.
  - destruct (IHa _ E) as [_ V]. cbn. now rewrite V.
  - destr_and. apply String.eqb_eq in H0. apply call_type_eqb_eq in H3. subst.
    apply list_eqb_Forall2, (Forall2_same _ _ H) in H1. pose proof (map_ev_same env i _ _ H1) as M.
    cbn in T |- *. rewrite M, T. inversion H1 as [|x y l1 l2 [_ V] [|]]; subst; auto.
    now rewrite V.
  - destr_and. apply String.eqb_eq in H. subst. destruct (IHa1 _ H1) as [_ V1], (IHa2 _ H0) as [_ V2].
    cbn. rewrite V2. apply ev_ext, bind_env_eq; [now repeat split|]. intros. apply V1.
  - destr_and. apply list_eqb_Z in H1. subst. apply list_eqb_Forall2, (Forall2_same _ _ H) in H0.
    rewrite !ev_shuffle. now apply pick_same.
Qed.

(** ** Masks *)

Lemma is_bound_lor a b k : is_bound (Z.lor a b) k = is_bound a k || is_bound b k.
Proof. apply Z.lor_spec. Qed.

Lemma is_bound_wild_lor a b k :
  is_bound_wild (Z.lor a b) k = is_bound_wild a k || is_bound_wild b k.
Proof. apply Z.lor_spec. Qed.

Lemma testbit_one n k : 0 <= n -> Z.testbit (Z.shiftl 1 n) k = (k =? n).
Proof.
  intros H. rewrite Z.shiftl_1_l. destruct (Z.eqb_spec k n) as [->|N].
  - now apply Z.pow2_bits_true.
  - destruct (Z.ltb_spec k 0); [now apply Z.testbit_neg_r|]. apply Z.pow2_bits_false. lia.
Qed.

Lemma is_bound_const i k : is_bound (Z.shiftl 1 (Z.of_nat i)) k = Nat.eqb k i.
Proof.
  unfold is_bound. rewrite testbit_one by lia.
  destruct (Nat.eqb_spec k i), (Z.eqb_spec (Z.of_nat k) (Z.of_nat i)); auto; lia.
Qed.

Lemma is_bound_wild_const i k : (i < max_wild)%nat ->
  is_bound_wild (Z.shiftl 1 (Z.of_nat i)) k = false.
Proof. unfold is_bound_wild, max_wild. intros. rewrite testbit_one by lia. apply Z.eqb_neq. lia. Qed.

Lemma is_bound_wild_wild i k : is_bound_wild (Z.shiftl 1 (Z.of_nat i + 16)) k = Nat.eqb k i.
Proof.
  unfold is_bound_wild. rewrite testbit_one by lia.
  destruct (Nat.eqb_spec k i), (Z.eqb_spec (Z.of_nat k + 16) (Z.of_nat i + 16)); auto; lia.
Qed.

Lemma is_bound_wild_not i k : (k < max_wild)%nat ->
  is_bound (Z.shiftl 1 (Z.of_nat i + 16)) k = false.
Proof. unfold is_bound, max_wild. intros. rewrite testbit_one by lia. apply Z.eqb_neq. lia. Qed.

(** ** The valuation of a matcher state *)

Definition const_int (v : ScalarValue) : Z := match v with VInt z => z | VFloat _ => 0 end.

Definition arg (args : list Expr) (k : nat) : Expr := nth k args (StringImm "no such operand").

Definition valuation (env : Env) (i : Z) (args : list Expr) (s : MatcherState) : Valuation :=
  mkVal env i
    (fun k => type_of (bindings s k)) (fun k => ev env i (bindings s k))
    (bound_const_type s) (fun k => const_int (bound_const s k))
    (fun k => type_of (arg args k)) (fun k => ev env i (arg args k)).

Section Match.
(** [d]: the matched expression is free of undefined behaviour. *)
Context (env : Env) (i : Z) (args : list Expr) (d : bool).

Definition sane (e : Expr) : Prop := wf e = true /\ (d = true -> defined env i e).

(** What is bound so far is sane. *)
Record state_ok (bound : Z) (s : MatcherState) : Prop := {
  bindings_sane : forall k, is_bound_wild bound k = true -> sane (bindings s k);
  consts_sane : forall k, (k < max_wild)%nat -> is_bound bound k = true ->
    wf_type (bound_const_type s k) /\
    exists v, bound_const s k = VInt v /\ in_type (bound_const_type s k) v
}.

(** [s'] keeps what [s] has bound. *)
Record keeps (bound : Z) (s s' : MatcherState) : Prop := {
  keeps_binding : forall k, is_bound_wild bound k = true -> bindings s' k = bindings s k;
  keeps_const : forall k, (k < max_wild)%nat -> is_bound bound k = true ->
    bound_const s' k = bound_const s k /\ bound_const_type s' k = bound_const_type s k
}.

Lemma keeps_refl bound s : keeps bound s s.
Proof. split; auto. Qed.

Lemma keeps_trans bound s1 s2 s3 : keeps bound s1 s2 -> keeps bound s2 s3 -> keeps bound s1 s3.
Proof.
  intros [B1 C1] [B2 C2]. split; intros k H.
  - now rewrite B2, B1.
  - intros H'. destruct (C1 k H H'), (C2 k H H'). split; congruence.
Qed.

Lemma keeps_weaken a b s s' : keeps (Z.lor a b) s s' -> keeps a s s'.
Proof.
  intros [B C]. split; intros k H.
  - apply B. now rewrite is_bound_wild_lor, H.
  - intros H'. apply C; auto. now rewrite is_bound_lor, H'.
Qed.

Definition matched (bound : Z) (seen : list nat) (p : Pat) (e : Expr) (s s' : MatcherState) : Prop :=
  keeps bound s s' /\ state_ok (Z.lor bound (binds p)) s' /\
  forall s'', keeps (Z.lor bound (binds p)) s' s'' ->
    lmatch (valuation env i args s'') d seen p (type_of e) (ev env i e).

Definition seen_ok (bound : Z) (seen : list nat) : Prop :=
  forall k, (k < max_wild)%nat -> existsb (Nat.eqb k) seen = is_bound bound k.

Lemma consts_bound p k : indices_ok p = true -> (k < max_wild)%nat ->
  existsb (Nat.eqb k) (consts p) = is_bound (binds p) k.
Proof.
  assert (Z0 : is_bound 0 k = false) by apply Z.testbit_0_l.
  intros I K. induction p; cbn in I |- *; destr_and; auto;
    rewrite ?existsb_app, ?is_bound_lor;
    repeat match goal with IH : ?a = true -> _, H : ?a = true |- _ => specialize (IH H) end;
    try congruence.
  - now rewrite is_bound_wild_not.
  - rewrite is_bound_const. now rewrite orb_false_r.
Qed.

Lemma seen_ok_app bound seen p : seen_ok bound seen -> indices_ok p = true ->
  seen_ok (Z.lor bound (binds p)) (seen ++ consts p).
Proof.
  intros S I k K. now rewrite existsb_app, is_bound_lor, (S k K), consts_bound.
Qed.

(** *** Leaves *)

Lemma sane_type e : sane e -> wf_type (type_of e) /\ (d = true -> in_type (type_of e) (ev env i e)).
Proof.
  intros [W D]. split; [now apply wf_wf_type|]. intros E. apply fits_in_type, D, E.
Qed.

Lemma state_ok_lor a b s : state_ok a s ->
  (forall k, is_bound_wild b k = true -> sane (bindings s k)) ->
  (forall k, (k < max_wild)%nat -> is_bound b k = true ->
    wf_type (bound_const_type s k) /\
    exists v, bound_const s k = VInt v /\ in_type (bound_const_type s k) v) ->
  state_ok (Z.lor a b) s.
Proof.
  intros [B C] HB HC. split.
  - intros k. rewrite is_bound_wild_lor, orb_true_iff. intros []; auto.
  - intros k K. rewrite is_bound_lor, orb_true_iff. intros []; auto.
Qed.

Lemma state_ok_0 bound s : state_ok bound s -> state_ok (Z.lor bound 0) s.
Proof. now rewrite Z.lor_0_r. Qed.

Lemma matched_wild bound seen k e s s' : (k < max_wild)%nat -> sane e -> state_ok bound s ->
  match_pat bound (PWild k) e s = Some s' -> matched bound seen (PWild k) e s s'.
Proof.
  intros K S OK. cbn. pose proof (sane_type e S) as [W R].
  destruct (is_bound_wild bound k) eqn:B.
  - destruct (equal (bindings s k) e) eqn:E; [|discriminate]. intros [= <-].
    destruct (equal_sound _ _ E) as [T V]. split; [apply keeps_refl|]. split.
    + apply state_ok_lor; auto.
      * intros j. cbn. rewrite is_bound_wild_wild. intros J. apply Nat.eqb_eq in J. subst.
        now apply (bindings_sane bound s).
      * intros j J. cbn. now rewrite is_bound_wild_not.
    + intros s'' [KB _]. cbn. rewrite (KB k), T, V; auto.
      cbn. now rewrite is_bound_wild_lor, B.
  - intros [= <-]. split; [|split].
    + split; cbn; auto. intros j J. unfold update. destruct (Nat.eqb_spec j k); congruence.
    + apply state_ok_lor.
      * destruct OK as [OB OC]. split; [|exact OC]. intros j J. cbn. unfold update.
        destruct (Nat.eqb j k); auto.
      * intros j. cbn. rewrite is_bound_wild_wild. intros J. unfold update. now rewrite J.
      * intros j J. cbn. now rewrite is_bound_wild_not.
    + intros s'' [KB _]. cbn. rewrite (KB k).
      * cbn. unfold update. rewrite Nat.eqb_refl. auto.
      * cbn. rewrite is_bound_wild_lor, is_bound_wild_wild, Nat.eqb_refl. apply orb_true_r.
Qed.

(** The immediate under a broadcast. *)
Lemma strip_imm e : wf e = true ->
  match strip_broadcast e with
  | IntImm _ v | UIntImm _ v =>
      wf_type (type_of e) /\ element_of (type_of (strip_broadcast e)) = element_of (type_of e) /\
      is_scalar (type_of (strip_broadcast e)) = true /\
      in_type (type_of e) v /\ ev env i e = v
  | _ => True
  end.
Proof.
  intros W. pose proof (wf_wf_type e W) as T.
  destruct e; cbn [strip_broadcast]; auto; cbn in W.
  - destr_and. split; [exact T|]. split; [reflexivity|]. split; [assumption|].
    split; [now apply in_typeb_spec|reflexivity].
  - destr_and. split; [exact T|]. split; [reflexivity|]. split; [assumption|].
    split; [now apply in_typeb_spec|reflexivity].
  - destruct e; cbn in W; auto; destr_and; (split; [exact T|]); (split; [reflexivity|]);
      (split; [auto|]); (split; [now apply in_typeb_spec|reflexivity]).
Qed.

Lemma in_type_u64 t v : wf_type t -> is_uint t = true -> in_type t v -> u64 v = v.
Proof.
  intros [I _] U. pose proof (int_type_bits t I). unfold in_type, tmin, tmax.
  replace (is_int t) with false by (unfold is_int, is_uint in *; destruct (code t); easy).
  assert (2 ^ bits t <= 2 ^ 64) by (apply Z.pow_le_mono_r; lia).
  intros. apply wrap_u_id; lia.
Qed.

Lemma imm_code e : wf e = true ->
  match strip_broadcast e with
  | IntImm _ _ => is_int (type_of e) = true
  | UIntImm _ _ => is_uint (type_of e) = true
  | FloatImm _ _ => False
  | _ => True
  end.
Proof.
  intros W. destruct e; cbn [strip_broadcast]; auto; cbn in W; try discriminate;
    try (now destr_and). destruct e; cbn in W; auto; try discriminate; now destr_and.
Qed.

Lemma matched_const bound seen k e s s' : (k < max_wild)%nat -> sane e -> state_ok bound s ->
  seen_ok bound seen ->
  match_pat bound (PConst k) e s = Some s' -> matched bound seen (PConst k) e s s'.
Proof.
  intros K S OK SO. cbn. unfold match_wild_const. pose proof (sane_type e S) as [W R].
  pose proof (strip_imm e (proj1 S)) as I. pose proof (imm_code e (proj1 S)) as C.
  assert (Hset : forall v, in_type (type_of e) v -> ev env i e = v -> is_bound bound k = false ->
    matched bound seen (PConst k) e s (set_bound_const s k (VInt v) (type_of e))).
  { intros v Rv V B. split; [|split].
    - split; cbn; auto. intros j J HJ. unfold update.
      destruct (Nat.eqb_spec j k); [congruence|auto].
    - apply state_ok_lor.
      + destruct OK as [OB OC]. split; [exact OB|]. intros j J HJ. cbn. unfold update.
        destruct (Nat.eqb_spec j k); [|auto]. split; [exact W|]. eauto.
      + intros j. cbn. now rewrite is_bound_wild_const.
      + intros j J. cbn. rewrite is_bound_const. unfold update. intros ->. eauto.
    - intros s'' [_ KC]. destruct (KC k K) as [E1 E2].
      { cbn. rewrite is_bound_lor, is_bound_const, Nat.eqb_refl. apply orb_true_r. }
      cbn in E1, E2 |- *. unfold update in *. rewrite Nat.eqb_refl in *.
      rewrite (SO k K), B, E1, E2. cbn. auto. }
  assert (Hbound : forall v w, bound_const s k = VInt w -> v = w -> in_type (type_of e) v ->
    ev env i e = v -> is_bound bound k = true ->
    type_of (strip_broadcast e) = bound_const_type s k ->
    element_of (type_of (strip_broadcast e)) = element_of (type_of e) ->
    is_scalar (type_of (strip_broadcast e)) = true ->
    matched bound seen (PConst k) e s s).
  { intros v w E <- Rv V B T TE Sc. split; [apply keeps_refl|]. split.
    - apply state_ok_lor; auto; intros j; cbn.
      + now rewrite is_bound_wild_const.
      + intros J. rewrite is_bound_const. intros EJ. apply Nat.eqb_eq in EJ. subst j.
        now apply (consts_sane bound s).
    - intros s'' [_ KC]. destruct (KC k K) as [E1 E2].
      { cbn. now rewrite is_bound_lor, B. }
      cbn. rewrite (SO k K), B, E1, E2, E. cbn. rewrite <- T. auto. }
  destruct (is_bound bound k) eqn:B.
  - destruct (consts_sane bound s OK k K B) as (WT & w & Ew & Rw).
    destruct (strip_broadcast e) eqn:SE; try discriminate; try contradiction; rewrite Ew; cbn;
      destruct I as (_ & TE & Sc & Rv & V);
      (destruct (type_eqb t (bound_const_type s k)) eqn:TQ; [|discriminate]);
      apply type_eqb_eq in TQ; subst t; cbn in *.
    + assert (i64 w = w) as ->.
      { assert (is_int (bound_const_type s k) = true) as SI.
        { unfold is_int in *. now replace (code (bound_const_type s k)) with (code (type_of e))
            by now injection TE. }
        pose proof (int_type_sbits _ (proj1 WT) SI). unfold in_type, tmin, tmax in Rw.
        rewrite SI in Rw.
        assert (2 ^ (bits (bound_const_type s k) - 1) <= 2 ^ 63) by (apply Z.pow_le_mono_r; lia).
        apply wrap_s_id; lia. }
      destruct (Z.eqb_spec value w); [|discriminate]. intros [= <-]. eapply Hbound; eauto.
    + assert (u64 w = w) as ->.
      { apply (in_type_u64 (bound_const_type s k)); auto.
        unfold is_uint in *. now replace (code (bound_const_type s k)) with (code (type_of e))
          by now injection TE. }
      destruct (Z.eqb_spec value w); [|discriminate]. intros [= <-]. eapply Hbound; eauto.
  - destruct (strip_broadcast e) eqn:SE; try discriminate; try contradiction;
      intros [= <-]; apply Hset; intuition.
Qed.

Lemma match_lit_sound v e : wf e = true -> match_lit v e = true -> ev env i e = cast_val (type_of e) v.
Proof.
  intros W. unfold match_lit. pose proof (wf_wf_type e W) as WT.
  pose proof (strip_imm e W) as I. pose proof (imm_code e W) as C.
  destruct (strip_broadcast e); try discriminate; try contradiction;
    intros E; apply Z.eqb_eq in E; destruct I as (_ & _ & _ & R & ->).
  - subst. symmetry. apply cast_val_id; [apply WT|assumption].
  - rewrite <- (cast_val_id _ _ (proj1 WT) R), E. unfold cast_val.
    unfold is_uint in C. destruct (code (type_of e)); try discriminate C.
    pose proof (int_type_bits _ (proj1 WT)) as B. unfold u64.
    destruct (wrap_u_cong 64 ltac:(lia) v) as [q ->].
    replace (2 ^ 64) with (2 ^ (64 - bits (type_of e)) * 2 ^ bits (type_of e))
      by (rewrite <- Z.pow_add_r by lia; f_equal; lia).
    rewrite Z.mul_assoc. apply wrap_u_shift. lia.
Qed.

(** *** Nodes *)

Lemma matched_pair bound seen a b ea eb s s1 s2 :
  matched bound seen a ea s s1 ->
  matched (Z.lor bound (binds a)) (seen ++ consts a) b eb s1 s2 ->
  keeps bound s s2 /\ state_ok (Z.lor bound (Z.lor (binds a) (binds b))) s2 /\
  forall s'', keeps (Z.lor bound (Z.lor (binds a) (binds b))) s2 s'' ->
    lmatch (valuation env i args s'') d seen a (type_of ea) (ev env i ea) /\
    lmatch (valuation env i args s'') d (seen ++ consts a) b (type_of eb) (ev env i eb).
Proof.
  intros (K1 & O1 & L1) (K2 & O2 & L2). rewrite Z.lor_assoc. split; [|split; [assumption|]].
  - eapply keeps_trans; [exact K1|]. now apply keeps_weaken in K2.
  - intros s'' K3. split; [|now apply L2]. apply L1. eapply keeps_trans; [exact K2|].
    now apply keeps_weaken in K3.
Qed.

Lemma sane_and e : sane e -> wf e = true /\
  (d = true -> ok env i e) /\ (d = true -> fits env i e).
Proof. intros [W D]. repeat split; auto; intros H; now destruct (D H). Qed.

Lemma sane_intro e : wf e = true -> (d = true -> ok env i e) -> (d = true -> fits env i e) -> sane e.
Proof. intros W O F. split; [exact W|]. intros H. split; auto. Qed.

(** The children of a sane node are sane. *)
Ltac child S :=
  let W := fresh in let O := fresh in let F := fresh in
  apply sane_and in S; destruct S as (W & O & F); cbn in W, O, F; destr_and;
  apply sane_intro; [assumption| |]; intros Hd; specialize (O Hd); specialize (F Hd); tauto.

Lemma sane_bin op a b : sane (EBin op a b) -> sane a /\ sane b.
Proof. intros S. split; child S. Qed.
Lemma sane_cmp op a b : sane (ECmp op a b) -> sane a /\ sane b.
Proof. intros S. split; child S. Qed.
Lemma sane_not a : sane (ENot a) -> sane a.
Proof. intros S. child S. Qed.
Lemma sane_cast t a : sane (Cast t a) -> sane a.
Proof. intros S. child S. Qed.
Lemma sane_broadcast a n : sane (Broadcast a n) -> sane a.
Proof. intros S. child S. Qed.
Lemma sane_ramp a b n : sane (Ramp a b n) -> sane a /\ sane b.
Proof. intros S. split; child S. Qed.
Lemma sane_select c t f : sane (Select c t f) -> sane c /\ sane t /\ sane f.
Proof. intros S. split; [|split]; child S. Qed.
Lemma sane_arg t n a l ct vi : sane (ECall t n (a :: l) ct vi) -> sane a.
Proof. intros S. child S. Qed.

Lemma scalar_element t : is_scalar t = true -> element_of t = t.
Proof. unfold is_scalar. intros E. apply Z.eqb_eq in E. destruct t; cbn in *. now subst. Qed.

Lemma sane_poison t n l ct vi name : sane (ECall t n l ct vi) ->
  is_intrinsic n ct name = true -> name = indeterminate_name \/ name = overflow_name -> d = false.
Proof.
  intros S I N. destruct d eqn:D; [|reflexivity]. apply sane_and in S.
  destruct S as (_ & O & _). destruct (O D) as [P _]. unfold is_poison in P.
  apply orb_false_iff in P. destruct N; subst; destruct P; congruence.
Qed.

(** A matched node: what is left is its own condition. *)
Lemma matched_node bound seen p e s s' : sane e ->
  keeps bound s s' -> state_ok (Z.lor bound (binds p)) s' ->
  (forall s'', keeps (Z.lor bound (binds p)) s' s'' ->
     wf_type (type_of e) -> (d = true -> in_type (type_of e) (ev env i e)) ->
     lmatch (valuation env i args s'') d seen p (type_of e) (ev env i e)) ->
  matched bound seen p e s s'.
Proof.
  intros S K O L. split; [exact K|]. split; [exact O|].
  intros s'' K'. destruct (sane_type e S). auto.
Qed.

Lemma matched_leaf bound seen p e s : sane e -> binds p = 0 -> state_ok bound s ->
  (forall s'', wf_type (type_of e) -> (d = true -> in_type (type_of e) (ev env i e)) ->
     lmatch (valuation env i args s'') d seen p (type_of e) (ev env i e)) ->
  matched bound seen p e s s.
Proof.
  intros S B O L. apply matched_node; auto.
  - apply keeps_refl.
  - rewrite B. now apply state_ok_0.
Qed.

Definition match_ok (p : Pat) : Prop := forall bound seen e s s',
  indices_ok p = true -> sane e -> state_ok bound s -> seen_ok bound seen ->
  match_pat bound p e s = Some s' -> matched bound seen p e s s'.

Lemma match_two a b bound seen ea eb s s1 s2 : match_ok a -> match_ok b ->
  indices_ok a = true -> indices_ok b = true -> sane ea -> sane eb ->
  state_ok bound s -> seen_ok bound seen ->
  match_pat bound a ea s = Some s1 ->
  match_pat (Z.lor bound (binds a)) b eb s1 = Some s2 ->
  keeps bound s s2 /\ state_ok (Z.lor bound (Z.lor (binds a) (binds b))) s2 /\
  forall s'', keeps (Z.lor bound (Z.lor (binds a) (binds b))) s2 s'' ->
    lmatch (valuation env i args s'') d seen a (type_of ea) (ev env i ea) /\
    lmatch (valuation env i args s'') d (seen ++ consts a) b (type_of eb) (ev env i eb).
Proof.
  intros MA MB IA IB SA SB O SO EA EB.
  pose proof (MA bound seen ea s s1 IA SA O SO EA) as M1.
  apply (matched_pair _ _ _ _ _ _ _ s1); [exact M1|].
  apply MB; auto; [apply M1|now apply seen_ok_app].
Qed.

Lemma match_three a b c bound seen ea eb ec s s1 s2 s3 : match_ok a -> match_ok b -> match_ok c ->
  indices_ok a = true -> indices_ok b = true -> indices_ok c = true ->
  sane ea -> sane eb -> sane ec -> state_ok bound s -> seen_ok bound seen ->
  match_pat bound a ea s = Some s1 ->
  match_pat (Z.lor bound (binds a)) b eb s1 = Some s2 ->
  match_pat (Z.lor (Z.lor bound (binds a)) (binds b)) c ec s2 = Some s3 ->
  keeps bound s s3 /\ state_ok (Z.lor bound (Z.lor (Z.lor (binds a) (binds b)) (binds c))) s3 /\
  forall s'', keeps (Z.lor bound (Z.lor (Z.lor (binds a) (binds b)) (binds c))) s3 s'' ->
    lmatch (valuation env i args s'') d seen a (type_of ea) (ev env i ea) /\
    lmatch (valuation env i args s'') d (seen ++ consts a) b (type_of eb) (ev env i eb) /\
    lmatch (valuation env i args s'') d (seen ++ consts a ++ consts b) c (type_of ec) (ev env i ec).
Proof.
  intros MA MB MC IA IB IC SA SB SC O SO EA EB EC.
  destruct (match_two a b bound seen ea eb s s1 s2) as (K & O' & L); auto.
  rewrite <- (Z.lor_assoc bound (binds a) (binds b)) in EC.
  assert (SO3 : seen_ok (Z.lor bound (Z.lor (binds a) (binds b))) (seen ++ consts a ++ consts b)).
  { rewrite Z.lor_assoc, app_assoc. apply seen_ok_app; auto. now apply seen_ok_app. }
  destruct (MC _ _ ec s2 s3 IC SC O' SO3 EC) as (K3 & O3 & L3).
  rewrite <- Z.lor_assoc in O3. split; [|split; [exact O3|]].
  - eapply keeps_trans; [exact K|]. now apply keeps_weaken in K3.
  - intros s'' K'. rewrite Z.lor_assoc in K'. destruct (L s'') as [L1 L2].
    { eapply keeps_trans; [exact K3|]. now apply keeps_weaken in K'. }
    auto.
Qed.

Lemma binop_eqb_eq a b : binop_eqb a b = true -> a = b.
Proof. now destruct a, b. Qed.
Lemma cmpop_eqb_eq a b : cmpop_eqb a b = true -> a = b.
Proof. now destruct a, b. Qed.

Lemma bin_node_of op a b : sane (EBin op a b) ->
  bin_node d op (type_of a) (ev env i a) (ev env i b) (type_of (EBin op a b)) (ev env i (EBin op a b)).
Proof.
  intros S. apply sane_and in S. destruct S as (W & O & _). cbn in W. destr_and.
  split; [now destruct op|]. split; [reflexivity|]. split.
  - destruct (is_bool_op op); auto.
  - destruct op; cbn; auto; intros Hd; now apply O.
Qed.

Lemma cmp_node_of op a b :
  cmp_node op (type_of a) (ev env i a) (ev env i b) (type_of (ECmp op a b)) (ev env i (ECmp op a b)).
Proof. split; reflexivity. Qed.

Lemma select_node_of c t f : sane (Select c t f) ->
  select_node (type_of c) (ev env i c) (ev env i t) (ev env i f)
    (type_of (Select c t f)) (ev env i (Select c t f)).
Proof.
  intros S. apply sane_and in S. destruct S as (W & _ & _). cbn in W. destr_and.
  split; [assumption|]. split; [|reflexivity]. cbn. apply orb_true_iff in H0.
  destruct H0; [auto|]. right. now apply Z.eqb_eq.
Qed.

Lemma same_types_bin op a b : wf (EBin op a b) = true -> type_of b = type_of a.
Proof. cbn. intros W. destr_and. symmetry. now apply type_eqb_eq. Qed.

Lemma same_types_cmp op a b : wf (ECmp op a b) = true -> type_of b = type_of a.
Proof. cbn. intros W. destr_and. symmetry. now apply type_eqb_eq. Qed.

Lemma same_types_select c t f : wf (Select c t f) = true -> type_of f = type_of t.
Proof. cbn. intros W. destr_and. symmetry. now apply type_eqb_eq. Qed.

Lemma lanes_match_known l n T : lanes T = n -> lanes_match l n = true ->
  match l with Some m => lanes T = m | None => True end.
Proof. intros <-. destruct l; cbn; auto. intros E. symmetry. now apply Z.eqb_eq. Qed.

(** A likely intrinsic has the type and the value of its argument. *)
Lemma likely_arg t n a l ct vi name : wf (ECall t n (a :: l) ct vi) = true ->
  is_intrinsic n ct name = true -> is_likely_name name = true ->
  type_of a = t /\ ev env i (ECall t n (a :: l) ct vi) = ev env i a.
Proof.
  intros W I N.
  assert (L : is_likely n ct = true).
  { unfold is_likely, is_likely_name in *. apply orb_true_iff in N. apply orb_true_iff.
    destruct N as [E|E]; apply String.eqb_eq in E; subst; auto. }
  cbn in W |- *. rewrite L in *. destruct l; [|destr_and; discriminate].
  destr_and. split; [now apply type_eqb_eq|reflexivity].
Qed.

Lemma match_sound p : match_ok p.
Proof.
  induction p as [| | |x0| | | | | | | | | | | | | | | | |];
    intros bound seen e s s' I S O SO M; cbn [indices_ok] in I; destr_and.
  - apply matched_wild; auto. now apply Nat.ltb_lt.
  - apply matched_const; auto. now apply Nat.ltb_lt.
  - cbn in M. destruct (match_lit v e) eqn:E; [|discriminate]. injection M as <-.
    apply matched_leaf; auto. intros. cbn. split; [|split]; auto. apply match_lit_sound; [apply S|exact E].
  - cbn in M. destruct (equal x0 e) eqn:E; [|discriminate]. injection M as <-.
    destruct (equal_sound _ _ E) as [T V].
    apply matched_leaf; auto. intros. cbn. rewrite T, V. auto.
  - discriminate.
  - cbn in M. destruct e; try discriminate. destruct (binop_eqb op op0) eqn:E; [|discriminate].
    apply binop_eqb_eq in E. subst op0. destruct (match_pat bound p1 e1 s) eqn:M1; [|discriminate].
    destruct (sane_bin _ _ _ S) as [S1 S2].
    destruct (match_two p1 p2 bound seen e1 e2 s m s') as (K & O' & L); auto.
    apply matched_node; auto. intros s'' K' W R. destruct (L s'' K') as [L1 L2].
    split; [exact W|split; [exact R|]]. exists (type_of e1), (ev env i e1), (ev env i e2).
    rewrite (same_types_bin op e1 e2 (proj1 S)) in L2. split; [exact L1|].
    split; [exact L2|]. now apply bin_node_of.
  - cbn in M. destruct e; try discriminate. destruct (cmpop_eqb op op0) eqn:E; [|discriminate].
    apply cmpop_eqb_eq in E. subst op0. destruct (match_pat bound p1 e1 s) eqn:M1; [|discriminate].
    destruct (sane_cmp _ _ _ S) as [S1 S2].
    destruct (match_two p1 p2 bound seen e1 e2 s m s') as (K & O' & L); auto.
    apply matched_node; auto. intros s'' K' W R. destruct (L s'' K') as [L1 L2].
    split; [exact W|split; [exact R|]]. exists (type_of e1), (ev env i e1), (ev env i e2).
    rewrite (same_types_cmp op e1 e2 (proj1 S)) in L2. split; [exact L1|].
    split; [exact L2|]. apply cmp_node_of.
  - cbn in M. destruct e; try discriminate.
    destruct (IHp bound seen e s s') as (K & O' & L); auto using sane_not.
    apply matched_node; auto. intros s'' K' W R.
    split; [exact W|split; [exact R|]]. exists (ev env i e).
    pose proof (proj1 S) as WN. cbn in WN. destr_and.
    assert (type_of e = BoolT (lanes (type_of e))) as T.
    { apply is_bool_elt in H0. destruct (type_of e), H0; cbn in *; now subst. }
    cbn [type_of]. rewrite <- T. split; [now apply L|]. auto.
  - cbn in M. destruct e; try discriminate.
    destruct (match_pat bound p1 e1 s) eqn:M1; [|discriminate].
    destruct (match_pat (Z.lor bound (binds p1)) p2 e2 m) eqn:M2; [|discriminate].
    destruct (sane_select _ _ _ S) as (S1 & S2 & S3).
    destruct (match_three p1 p2 p3 bound seen e1 e2 e3 s m m0 s') as (K & O' & L); auto.
    apply matched_node; auto. intros s'' K' W R. destruct (L s'' K') as (L1 & L2 & L3).
    split; [exact W|split; [exact R|]].
    exists (type_of e1), (ev env i e1), (ev env i e2), (ev env i e3).
    rewrite (same_types_select e1 e2 e3 (proj1 S)) in L3.
    split; [exact L1|]. split; [exact L2|]. split; [exact L3|]. now apply select_node_of.
  - cbn in M. destruct e; try discriminate. destruct (lanes_match known_lanes n) eqn:LM; [|discriminate].
    destruct (IHp bound seen e s s') as (K & O' & L); eauto using sane_broadcast.
    apply matched_node; auto. intros s'' K' W R. split; [exact W|split; [exact R|]].
    pose proof (proj1 S) as WB. cbn in WB. destr_and. cbn [type_of ev].
    rewrite element_of_with, scalar_element by assumption. split; [now apply L|].
    split; [assumption|]. now apply lanes_match_known with n.
  - cbn in M. destruct e; try discriminate. destruct (lanes_match known_lanes n) eqn:LM; [|discriminate].
    destruct (match_pat bound p1 e1 s) eqn:M1; [|discriminate].
    destruct (sane_ramp _ _ _ S) as [S1 S2].
    destruct (match_two p1 p2 bound seen e1 e2 s m s') as (K & O' & L); auto.
    apply matched_node; auto. intros s'' K' W R. destruct (L s'' K') as [L1 L2].
    split; [exact W|split; [exact R|]]. pose proof (proj1 S) as WR. cbn in WR. destr_and.
    match goal with H : type_eqb _ _ = true |- _ => apply type_eqb_eq in H; rename H into T end.
    exists (ev env i e1), (ev env i e2). cbn [type_of ev].
    rewrite element_of_with, scalar_element by assumption. rewrite T in L2.
    split; [exact L1|]. split; [exact L2|]. split; [assumption|].
    split; [now apply lanes_match_known with n|]. cbn.
    apply norm_elt. split; reflexivity.
  - cbn in M. destruct e; try discriminate. destruct op; try discriminate.
    destruct (match_pat bound p e2 s) eqn:M1; [|discriminate].
    destruct (is_zero e1); [|discriminate]. injection M as <-.
    destruct (sane_bin _ _ _ S) as [S1 S2].
    destruct (IHp bound seen e2 s m) as (K & O' & L); auto.
    apply matched_node; auto. intros s'' K' W R. cbn. auto.
  - cbn in M. destruct e; try discriminate. destruct (type_eqb t0 t) eqn:T; [|discriminate].
    apply type_eqb_eq in T. subst t0.
    destruct (IHp bound seen e s s') as (K & O' & L); eauto using sane_cast.
    apply matched_node; auto. intros s'' K' W R. split; [exact W|split; [exact R|]].
    pose proof (proj1 S) as WC. cbn in WC. destr_and.
    exists (type_of e), (ev env i e). split; [now apply L|]. split; [reflexivity|].
    split; [symmetry; now apply Z.eqb_eq|reflexivity].
  - discriminate.
  - discriminate.
  - cbn in M. destruct e; try discriminate.
    destruct (is_intrinsic name ct indeterminate_name) eqn:E; [|discriminate]. injection M as <-.
    apply matched_leaf; auto. intros. cbn. split; [|split]; auto. eapply sane_poison; eauto.
  - cbn in M. destruct e; try discriminate.
    destruct (is_intrinsic name ct overflow_name) eqn:E; [|discriminate]. injection M as <-.
    apply matched_leaf; auto. intros. cbn. split; [|split]; auto. eapply sane_poison; eauto.
  - cbn in M. destruct e; try discriminate. destruct args0 as [|a0 l]; [discriminate|].
    destruct (is_intrinsic name0 ct name) eqn:E; [|discriminate].
    destruct (IHp bound seen a0 s s') as (K & O' & L); eauto using sane_arg.
    apply matched_node; auto. intros s'' K' W R. split; [exact W|split; [exact R|]].
    destruct (is_likely_name name) eqn:N; [|exact Logic.I].
    destruct (likely_arg t name0 a0 l ct value_index name (proj1 S) E N) as [T V].
    rewrite V. cbn [type_of]. rewrite <- T. now apply L.
  - discriminate.
  - discriminate.
  - discriminate.
Qed.

(** *** The instance as a whole *)

Lemma state_ok_initial s : state_ok 0 s.
Proof. split; unfold is_bound_wild, is_bound; intros k; rewrite Z.testbit_0_l; discriminate. Qed.

Lemma seen_ok_initial : seen_ok 0 [].
Proof. intros k _. unfold is_bound. now rewrite Z.testbit_0_l. Qed.

#[local] Hint Resolve state_ok_initial seen_ok_initial : core.

Lemma match_final p e s s' : indices_ok p = true -> sane e -> match_pat 0 p e s = Some s' ->
  state_ok (binds p) s' /\ lmatch (valuation env i args s') d [] p (type_of e) (ev env i e).
Proof.
  intros I S M. destruct (match_sound p 0 [] e s s' I S) as (_ & O & L); auto.
  cbn in O, L. split; [exact O|]. apply L, keeps_refl.
Qed.

Lemma match_pair_final a b ea eb s s1 s2 :
  indices_ok a = true -> indices_ok b = true -> sane ea -> sane eb ->
  match_pat 0 a ea s = Some s1 -> match_pat (binds a) b eb s1 = Some s2 ->
  lmatch (valuation env i args s2) d [] a (type_of ea) (ev env i ea) /\
  lmatch (valuation env i args s2) d (consts a) b (type_of eb) (ev env i eb).
Proof.
  intros IA IB SA SB MA MB.
  destruct (match_two a b 0 [] ea eb s s1 s2) as (_ & _ & L); auto using match_sound.
  apply L, keeps_refl.
Qed.

(** The type of the operands of a comparison, else that of the node. *)
Definition wildcard_type (e : Expr) : HType :=
  match e with ECmp _ a _ => type_of a | _ => type_of e end.

Lemma root_sound p e s : args = operands e -> indices_ok p = true -> sane e ->
  match_pat 0 p e initial_state = Some s ->
  root_match (valuation env i args s) d (wildcard_type e) p (type_of e) (ev env i e).
Proof.
  intros A I S M. pose proof (sane_type e S) as [W R].
  pose proof (proj2 (match_final p e _ s I S M)) as L.
  destruct p; try exact L; clear L; cbn in I; destr_and; destruct e; try discriminate; cbn in M.
  - destruct (binop_eqb op op0) eqn:E; [|discriminate]. apply binop_eqb_eq in E. subst op0.
    destruct (match_pat 0 p1 e1 initial_state) eqn:M1; [|discriminate].
    destruct (sane_bin _ _ _ S) as [S1 S2].
    destruct (match_pair_final p1 p2 e1 e2 initial_state m s) as [L1 L2]; auto.
    rewrite (same_types_bin op e1 e2 (proj1 S)) in L2.
    split; [exact W|split; [exact R|]]. exists (type_of e1), (ev env i e1), (ev env i e2).
    split; [exact L1|]. split; [exact L2|]. split; [now apply bin_node_of|].
    unfold arg_is. cbn. rewrite A. cbn. now rewrite (same_types_bin op e1 e2 (proj1 S)).
  - destruct (cmpop_eqb op op0) eqn:E; [|discriminate]. apply cmpop_eqb_eq in E. subst op0.
    destruct (match_pat 0 p1 e1 initial_state) eqn:M1; [|discriminate].
    destruct (sane_cmp _ _ _ S) as [S1 S2].
    destruct (match_pair_final p1 p2 e1 e2 initial_state m s) as [L1 L2]; auto.
    rewrite (same_types_cmp op e1 e2 (proj1 S)) in L2.
    split; [exact W|split; [exact R|]]. exists (ev env i e1), (ev env i e2).
    split; [exact L1|]. split; [exact L2|]. split; [apply cmp_node_of|].
    unfold arg_is. cbn. rewrite A. cbn. now rewrite (same_types_cmp op e1 e2 (proj1 S)).
  - destruct (match_pat 0 p1 e1 initial_state) eqn:M1; [|discriminate].
    destruct (match_pat (binds p1) p2 e2 m) eqn:M2; [|discriminate].
    destruct (sane_select _ _ _ S) as (S1 & S2 & S3).
    destruct (match_three p1 p2 p3 0 [] e1 e2 e3 initial_state m m0 s) as (_ & O & L);
      auto using match_sound.
    destruct (L s (keeps_refl _ _)) as (L1 & L2 & L3).
    rewrite (same_types_select e1 e2 e3 (proj1 S)) in L3.
    split; [exact W|split; [exact R|]].
    exists (type_of e1), (ev env i e1), (ev env i e2), (ev env i e3).
    split; [exact L1|]. split; [exact L2|]. split; [exact L3|]. split; [now apply select_node_of|].
    unfold arg_is. cbn. rewrite A. cbn. now rewrite (same_types_select e1 e2 e3 (proj1 S)).
Qed.
End Match.
