(* ===== verification/FoldSound.v ===== *)
(** * Constant folding is sound

    [make_folded_const] computes the type [fty], the value [fval], and raises
    a flag in the lanes exactly when [fclean] fails. *)

From Stdlib Require Import ZArith Lia Bool List String.
From S2P Require Import Prelude.
From S2P Require Import IntArith.
From S2P Require Import ModulusRemainder.
From S2P Require Import HalideTypes.
From S2P Require Import IR.
From S2P Require Import IRMatch.
From S2P Require Import RuleSem.
From S2P Require Import MatchSound.
Import ListNotations.
Open Scope Z_scope.

(** ** Flags in the lanes *)

Definition flags (f : Z) : Prop := Z.land f special_values_mask = f.
Definition lane_count (t : HType) : Prop := 0 <= lanes t < lanes_limit.

Lemma valid_lane_count t : valid_lanes t = true -> lane_count t.
Proof. unfold valid_lanes, lane_count. intros H. zify_bool. lia. Qed.

Lemma small_testbit l n : 0 <= l < 2 ^ n -> forall k, n <= k -> Z.testbit l k = false.
Proof.
  intros L k K. rewrite <- (Z.mod_small l (2 ^ n)) by lia.
  apply Z.mod_pow2_bits_high. split; [|lia]. destruct (Z.ltb_spec n 0); [|lia].
  rewrite Z.pow_neg_r in L by lia. lia.
Qed.

Lemma lane_count_mask l : 0 <= l < lanes_limit -> Z.land l special_values_mask = 0.
Proof.
  intros L. apply Z.bits_inj'. intros k K. rewrite Z.land_spec, Z.bits_0.
  change special_values_mask with (Z.shiftl 3 14).
  destruct (Z.ltb_spec k 14).
  - rewrite Z.shiftl_spec_low by lia. apply andb_false_r.
  - now rewrite (small_testbit l 14) by (auto; exact L).
Qed.

Lemma flags_0 : flags 0.
Proof. reflexivity. Qed.
Lemma flags_indeterminate : flags indeterminate_expression.
Proof. reflexivity. Qed.
Lemma flags_overflow : flags signed_integer_overflow.
Proof. reflexivity. Qed.
Lemma flags_lor a b : flags a -> flags b -> flags (Z.lor a b).
Proof. unfold flags. intros A B. now rewrite Z.land_lor_distr_l, A, B. Qed.
#[export] Hint Resolve flags_0 flags_indeterminate flags_overflow flags_lor : halide.

Lemma special_or t f : lane_count t -> flags f -> special (or_lanes t f) = negb (f =? 0).
Proof.
  intros L F. unfold special. cbn. now rewrite Z.land_lor_distr_l, lane_count_mask, F.
Qed.

Lemma special_valid t : lane_count t -> special t = false.
Proof. intros L. unfold special. now rewrite lane_count_mask. Qed.

Lemma or_lanes_0 t : or_lanes t 0 = t.
Proof. unfold or_lanes. rewrite Z.lor_0_r. now destruct t. Qed.

Lemma or_lanes_or t a b : or_lanes (or_lanes t a) b = or_lanes t (Z.lor a b).
Proof. unfold or_lanes. cbn. now rewrite Z.lor_assoc. Qed.

Lemma flag_if_or b f t g : flag_if b f (or_lanes t g) = or_lanes t (Z.lor g (if b then f else 0)).
Proof. destruct b; cbn [flag_if]; [apply or_lanes_or|now rewrite Z.lor_0_r]. Qed.

Lemma unflag t f : lane_count t -> flags f ->
  with_lanes (or_lanes t f) (Z.land (lanes (or_lanes t f)) (Z.lnot special_values_mask)) = t.
Proof.
  intros L F. destruct t as [c b l]. unfold or_lanes, with_lanes, lane_count, flags in *.
  cbn [code bits lanes] in *. f_equal.
  apply Z.bits_inj'. intros k K. rewrite Z.land_spec, Z.lor_spec, Z.lnot_spec by assumption.
  pose proof (lane_count_mask l L) as M.
  apply (f_equal (fun z => Z.testbit z k)) in M, F. cbv beta in M, F.
  rewrite Z.land_spec in M, F. rewrite Z.bits_0 in M.
  destruct (Z.testbit l k), (Z.testbit f k), (Z.testbit special_values_mask k); cbn in *; congruence.
Qed.

Lemma lane_count_lor t a b : 0 <= a < lanes_limit -> 0 <= b < lanes_limit ->
  lane_count (with_lanes t (Z.lor a b)).
Proof.
  intros A B. unfold lane_count. cbn. assert (0 <= Z.lor a b) by (apply Z.lor_nonneg; lia).
  split; [assumption|]. change lanes_limit with (2 ^ 14) in *.
  destruct (Z.ltb_spec (Z.lor a b) (2 ^ 14)); [assumption|]. exfalso.
  assert (0 < Z.lor a b) by lia.
  assert (14 <= Z.log2 (Z.lor a b)) as G by (apply Z.log2_le_pow2; lia).
  pose proof (Z.bit_log2 (Z.lor a b) ltac:(lia)) as T.
  now rewrite Z.lor_spec, !(small_testbit _ 14) in T by lia.
Qed.

(** The flags of two operands are collected. *)
Lemma or_lanes_two ta fa tb fb :
  or_lanes (or_lanes tb fb) (lanes (or_lanes ta fa)) = or_lanes (or_lanes tb (lanes ta)) (Z.lor fa fb).
Proof.
  rewrite !or_lanes_or. f_equal. cbn.
  rewrite (Z.lor_comm fb), <- !Z.lor_assoc. reflexivity.
Qed.

(** ** Operations on scalar values *)

Section Values.
Context (t : HType) (I : int_type t = true).

Lemma as_i64_in v : is_int t = true -> in_type t v -> as_i64 (VInt v) = v.
Proof.
  intros S. pose proof (int_type_sbits t I S). unfold in_type, tmin, tmax. rewrite S. intros R.
  assert (2 ^ (bits t - 1) <= 2 ^ 63) by (apply Z.pow_le_mono_r; lia). apply wrap_s_id; lia.
Qed.

Lemma as_u64_in v : is_uint t = true -> in_type t v -> as_u64 (VInt v) = v.
Proof.
  intros S. pose proof (int_type_bits t I). unfold in_type, tmin, tmax.
  replace (is_int t) with false by (unfold is_int, is_uint in *; destruct (code t); easy). intros R.
  assert (2 ^ bits t <= 2 ^ 64) by (apply Z.pow_le_mono_r; lia). apply wrap_u_id; lia.
Qed.

Lemma in_int_in_type v : is_int t = true -> in_int (bits t) v <-> in_type t v.
Proof. intros S. unfold in_int, in_type, tmin, tmax. rewrite S. lia. Qed.
End Values.

Lemma wrap_s_of bits x y k : 1 <= bits <= 64 -> x = y + k * 2 ^ 64 -> wrap_s bits x = wrap_s bits y.
Proof.
  intros B ->. replace (2 ^ 64) with (2 ^ (64 - bits) * 2 ^ bits)
    by (rewrite <- Z.pow_add_r by lia; f_equal; lia).
  rewrite Z.mul_assoc. apply wrap_s_shift. lia.
Qed.

Lemma land_ones_wrap bits v : 1 <= bits <= 64 -> Z.land v (max_uint bits) = wrap_u bits v.
Proof.
  intros B. rewrite max_uint_eq by lia. replace (2 ^ bits - 1) with (Z.ones bits)
    by (rewrite Z.ones_equiv; lia).
  apply Z.land_ones. lia.
Qed.

(** Truncated sums, differences and products of 64-bit values. *)
Section Truncated.
Context (bits : Z) (B : 1 <= bits <= 64) (a b : Z).

Lemma fold_sum : normalize_s bits (u64 a + u64 b) = wrap_s bits (a + b).
Proof.
  rewrite normalize_s_eq by lia.
  destruct (wrap_u_cong 64 ltac:(lia) a) as [k E], (wrap_u_cong 64 ltac:(lia) b) as [m F].
  apply wrap_s_of with (k + m); [exact B|]. unfold u64. rewrite E, F. ring.
Qed.

Lemma fold_difference : normalize_s bits (u64 a - u64 b) = wrap_s bits (a - b).
Proof.
  rewrite normalize_s_eq by lia.
  destruct (wrap_u_cong 64 ltac:(lia) a) as [k E], (wrap_u_cong 64 ltac:(lia) b) as [m F].
  apply wrap_s_of with (k - m); [exact B|]. unfold u64. rewrite E, F. ring.
Qed.

Lemma fold_product : normalize_s bits (u64 a * u64 b) = wrap_s bits (a * b).
Proof.
  rewrite normalize_s_eq by lia.
  destruct (wrap_u_cong 64 ltac:(lia) a) as [k E], (wrap_u_cong 64 ltac:(lia) b) as [m F].
  apply wrap_s_of with (k * b + a * m + k * m * 2 ^ 64); [exact B|]. unfold u64. rewrite E, F. ring.
Qed.
End Truncated.

(** ** One operation *)

(** The value is read back from the 64-bit union unchanged. *)
Definition regular (t : HType) (z : Z) : Prop := if is_int t then i64 z = z else u64 z = z.

Lemma in_type_regular t z : int_type t = true -> in_type t z -> regular t z.
Proof.
  intros I R. unfold regular. destruct (int_type_code t I) as [S|S].
  - rewrite S. now apply (as_i64_in t).
  - replace (is_int t) with false by (unfold is_int, is_uint in *; destruct (code t); easy).
    now apply (as_u64_in t).
Qed.

(** What an operation on integers of type [t] leaves: the flags so far and its
    own, and its value when it raises none. *)
Definition folds_to (t : HType) (f : Z) (r : ScalarValue * HType) (clean : bool) (v : Z)
    (in_range : Prop) : Prop :=
  exists z f', r = (VInt z, or_lanes t (Z.lor f f')) /\ flags f' /\
    (clean = true -> f' = 0) /\
    (f' = 0 -> clean = true /\ z = v /\ regular t z /\ (in_range -> in_type t z)).

Lemma i64_i64 v : i64 (i64 v) = i64 v.
Proof. apply wrap_s_id; [lia|]. now apply wrap_s_range. Qed.

Section FoldInt.
Context (t : HType) (I : int_type t = true) (S : is_int t = true).
Context (a b : Z) (A : in_type t a) (B : in_type t b) (f : Z).

Lemma fold_width : 8 <= bits t <= 64.
Proof. exact (int_type_sbits t I S). Qed.

Lemma wrap_norm v : (no_overflow_int t = true -> in_typeb t v = true) ->
  wrap_s (bits t) v = norm t v /\ in_type t (norm t v).
Proof.
  intros H. assert (E : cast_val t v = wrap_s (bits t) v).
  { unfold cast_val. now rewrite (proj1 (code_eqb_eq _ _) S). }
  unfold norm. rewrite <- E. destruct (no_overflow_int t) eqn:N.
  - specialize (H eq_refl). apply in_typeb_spec in H. split; [now apply cast_val_id|assumption].
  - split; [reflexivity|]. now apply cast_val_range.
Qed.

(** Sums, differences and products flag what leaves a wide type. *)
Lemma fold_flagged (over : Z -> Z -> Z -> bool) (v : Z) :
  (over (bits t) a b = true <-> ~ in_int (bits t) v) ->
  let f' := if (32 <=? bits t) && over (bits t) a b then signed_integer_overflow else 0 in
  let clean := if no_overflow_int t then in_typeb t v else true in
  (clean = true -> f' = 0) /\
  (f' = 0 -> clean = true /\ wrap_s (bits t) v = norm t v /\ in_type t (norm t v)).
Proof.
  intros O. cbv zeta. pose proof (in_int_in_type t v S) as R. rewrite <- (in_typeb_spec t v) in R.
  replace (no_overflow_int t) with (32 <=? bits t) by (unfold no_overflow_int; now rewrite S).
  assert (C : (32 <=? bits t) = true -> over (bits t) a b = negb (in_typeb t v)).
  { intros _. destruct (over (bits t) a b), (in_typeb t v); try reflexivity; exfalso.
    - now apply O, R.
    - assert (false = true); [|discriminate]. apply O. rewrite R. discriminate. }
  destruct (32 <=? bits t) eqn:E; cbn [andb].
  - rewrite C by reflexivity. destruct (in_typeb t v) eqn:T; cbn.
    + split; [auto|]. intros _. split; [reflexivity|]. apply wrap_norm. auto.
    + split; discriminate.
  - split; [auto|]. intros _. split; [reflexivity|]. apply wrap_norm.
    unfold no_overflow_int. rewrite E, andb_false_r. discriminate.
Qed.

Lemma in_int_a : in_int (bits t) a.
Proof. now apply in_int_in_type. Qed.
Lemma in_int_b : in_int (bits t) b.
Proof. now apply in_int_in_type. Qed.

Lemma b_in_i64 : - 2 ^ 63 <= b < 2 ^ 63.
Proof.
  pose proof in_int_b as R. pose proof fold_width. unfold in_int in R.
  assert (2 ^ (bits t - 1) <= 2 ^ 63) by (apply Z.pow_le_mono_r; lia). lia.
Qed.

Lemma emod_in_type : b <> 0 -> in_type t (emod a b).
Proof.
  intros N. pose proof (emod_bound a b N). pose proof in_int_b as R. unfold in_int in R.
  apply in_int_in_type; auto. unfold in_int. lia.
Qed.

Lemma fold_bin_int_sound op : is_bool_op op = false ->
  folds_to t f (let '(v, t') := fold_bin_int op (or_lanes t f) a b in (VInt v, t'))
    (bin_clean op t a b) (fbin op t a b) (op <> Div).
Proof.
  pose proof in_int_a as Ia. pose proof in_int_b as Ib. pose proof b_in_i64 as Hb.
  assert (B64 : 1 <= bits t <= 64) by (pose proof fold_width; lia).
  intros NB. unfold folds_to. destruct op; try discriminate NB; cbn [fold_bin_int];
    change (bits (or_lanes t f)) with (bits t); rewrite ?flag_if_or.
  - rewrite fold_sum by lia. eexists _, _. split; [reflexivity|]. split; [case_goal; auto with halide|].
    destruct (fold_flagged add_would_overflow (a + b)) as [C H]; auto using add_would_overflow_spec.
    split; [exact C|]. intros F. destruct (H F) as (C' & E & R). cbn. rewrite E. auto using in_type_regular.
  - rewrite fold_difference by lia. eexists _, _. split; [reflexivity|]. split; [case_goal; auto with halide|].
    destruct (fold_flagged sub_would_overflow (a - b)) as [C H]; auto using sub_would_overflow_spec.
    split; [exact C|]. intros F. destruct (H F) as (C' & E & R). cbn. rewrite E. auto using in_type_regular.
  - rewrite fold_product by lia. eexists _, _. split; [reflexivity|]. split; [case_goal; auto with halide|].
    destruct (fold_flagged mul_would_overflow (a * b)) as [C H]; auto using mul_would_overflow_spec.
    split; [exact C|]. intros F. destruct (H F) as (C' & E & R). cbn. rewrite E. auto using in_type_regular.
  - cbn. destruct (Z.eqb_spec b 0) as [E|E].
    + rewrite or_lanes_or. eexists _, _. split; [reflexivity|]. split; [auto with halide|]. split; discriminate.
    + eexists _, 0. rewrite Z.lor_0_r. split; [reflexivity|]. split; [auto with halide|]. split; [auto|].
      intros _. rewrite S, div_imp_eq by assumption. split; [reflexivity|]. split; [reflexivity|].
      split; [|easy]. unfold regular. rewrite S. now apply i64_i64.
  - cbn. destruct (Z.eqb_spec b 0) as [E|E].
    + rewrite or_lanes_or. eexists _, _. split; [reflexivity|]. split; [auto with halide|]. split; discriminate.
    + eexists _, 0. rewrite Z.lor_0_r. split; [reflexivity|]. split; [auto with halide|]. split; [auto|].
      intros _. rewrite mod_imp_eq by assumption. split; [reflexivity|]. split; [reflexivity|].
      auto using in_type_regular, emod_in_type.
  - eexists _, 0. rewrite Z.lor_0_r. split; [reflexivity|]. split; [auto with halide|]. split; [auto|].
    intros _. cbn. split; [reflexivity|]. split; [reflexivity|].
    assert (in_type t (Z.min a b)) by (unfold in_type in *; lia). auto using in_type_regular.
  - eexists _, 0. rewrite Z.lor_0_r. split; [reflexivity|]. split; [auto with halide|]. split; [auto|].
    intros _. cbn. split; [reflexivity|]. split; [reflexivity|].
    assert (in_type t (Z.max a b)) by (unfold in_type in *; lia). auto using in_type_regular.
Qed.
End FoldInt.

Section FoldUInt.
Context (t : HType) (I : int_type t = true) (U : is_uint t = true).
Context (a b : Z) (A : in_type t a) (B : in_type t b) (f : Z).

Lemma uint_not_int : is_int t = false.
Proof. unfold is_int, is_uint in *. destruct (code t); easy. Qed.

Lemma uint_norm v : norm t v = wrap_u (bits t) v.
Proof.
  unfold norm, no_overflow_int, cast_val. rewrite uint_not_int.
  unfold is_uint in U. destruct (code t); easy.
Qed.

Lemma uint_wraps v : Z.land v (Z.shiftr (2 ^ 64 - 1) (64 - bits t)) = norm t v /\ in_type t (norm t v).
Proof.
  pose proof (int_type_bits t I) as W. split.
  - rewrite uint_norm. now apply land_ones_wrap.
  - apply norm_range; [exact I|]. unfold no_overflow_int. now rewrite uint_not_int.
Qed.

Lemma uint_range v : in_type t v <-> 0 <= v <= 2 ^ bits t - 1.
Proof. unfold in_type, tmin, tmax. now rewrite uint_not_int. Qed.

Lemma fold_bin_uint_sound op : is_bool_op op = false ->
  folds_to t f (let '(v, t') := fold_bin_uint op (or_lanes t f) a b in (VInt v, t'))
    (bin_clean op t a b) (fbin op t a b) (op <> Div).
Proof.
  assert (N : no_overflow_int t = false) by (unfold no_overflow_int; now rewrite uint_not_int).
  assert (Ra := proj1 (uint_range a) A). assert (Rb := proj1 (uint_range b) B).
  intros NB. unfold folds_to. destruct op; try discriminate NB; cbn [fold_bin_uint];
    change (bits (or_lanes t f)) with (bits t);
    cbn [bin_clean fbin]; rewrite ?N, ?uint_not_int;
    try (destruct (uint_wraps (a + b)) as [E R] || idtac).
  1-3: eexists _, 0; rewrite Z.lor_0_r; split; [reflexivity|]; split; [auto with halide|]; split; [auto|];
    intros _; match goal with |- context [Z.land ?v _] => destruct (uint_wraps v) as [E' R'] end;
    rewrite E'; auto using in_type_regular.
  - destruct (Z.eqb_spec b 0) as [Z0|Z0].
    + rewrite or_lanes_or. eexists _, _. split; [reflexivity|]. split; [auto with halide|]. split; discriminate.
    + eexists _, 0. rewrite Z.lor_0_r. split; [reflexivity|]. split; [auto with halide|]. split; [auto|].
      intros _. split; [reflexivity|]. split; [|split; [|easy]].
      * unfold ediv. rewrite Z.sgn_pos, Z.abs_eq by lia. ring.
      * apply in_type_regular; [exact I|]. apply uint_range.
        pose proof (Z.div_pos a b). pose proof (Z.div_le_upper_bound a b a). nia.
  - destruct (Z.eqb_spec b 0) as [Z0|Z0].
    + rewrite or_lanes_or. eexists _, _. split; [reflexivity|]. split; [auto with halide|]. split; discriminate.
    + eexists _, 0. rewrite Z.lor_0_r. split; [reflexivity|]. split; [auto with halide|]. split; [auto|].
      intros _. split; [reflexivity|]. unfold emod. rewrite Z.abs_eq by lia. split; [reflexivity|].
      assert (in_type t (a mod b)) by (apply uint_range; pose proof (Z.mod_pos_bound a b); lia).
      auto using in_type_regular.
  - eexists _, 0. rewrite Z.lor_0_r. split; [reflexivity|]. split; [auto with halide|]. split; [auto|].
    intros _. split; [reflexivity|]. split; [reflexivity|].
    assert (in_type t (Z.min a b)) by (apply uint_range; lia). auto using in_type_regular.
  - eexists _, 0. rewrite Z.lor_0_r. split; [reflexivity|]. split; [auto with halide|]. split; [auto|].
    intros _. split; [reflexivity|]. split; [reflexivity|].
    assert (in_type t (Z.max a b)) by (apply uint_range; lia). auto using in_type_regular.
Qed.
End FoldUInt.

Lemma fold_bin_op_sound t f op a b : int_type t = true -> is_bool_op op = false ->
  in_type t a -> in_type t b ->
  folds_to t f (constant_fold_bin_op op (or_lanes t f) (VInt a) (VInt b))
    (bin_clean op t a b) (fbin op t a b) (op <> Div).
Proof.
  intros I NB A B. unfold constant_fold_bin_op. cbn [code or_lanes with_lanes].
  destruct (int_type_code t I) as [S|S].
  - rewrite (proj1 (code_eqb_eq _ _) S), !(as_i64_in t) by assumption.
    now apply fold_bin_int_sound.
  - rewrite (proj1 (code_eqb_eq _ _) S), !(as_u64_in t) by assumption.
    now apply fold_bin_uint_sound.
Qed.

(** Whatever the operands, the flags so far are kept. *)
Lemma fold_bin_op_flags t f op a b : int_type t = true -> flags f ->
  exists z f', constant_fold_bin_op op (or_lanes t f) (VInt a) (VInt b) =
    (VInt z, or_lanes t (Z.lor f f')) /\ flags f'.
Proof.
  assert (E : forall z, exists z' f', (VInt z, or_lanes t f) = (VInt z', or_lanes t (Z.lor f f')) /\ flags f').
  { intros z. exists z, 0. rewrite Z.lor_0_r. auto with halide. }
  assert (G : forall z g, flags g -> exists z' f',
    (VInt z, or_lanes (or_lanes t f) g) = (VInt z', or_lanes t (Z.lor f f')) /\ flags f').
  { intros z g G. exists z, g. now rewrite or_lanes_or. }
  intros I F. unfold constant_fold_bin_op. cbn [code or_lanes with_lanes].
  unfold int_type in I. destruct (code t) eqn:C; try discriminate I.
  - destruct op; cbn [fold_bin_int]; auto; try (unfold flag_if; case_goal; auto with halide);
      case_goal; auto with halide.
  - destruct op; cbn [fold_bin_uint]; auto; case_goal; auto with halide.
Qed.

(** Both: out of range operands occur only under a flag. *)
Lemma fold_bin_op_total t f op a b : int_type t = true -> is_bool_op op = false -> flags f ->
  exists z f', constant_fold_bin_op op (or_lanes t f) (VInt a) (VInt b) =
    (VInt z, or_lanes t (Z.lor f f')) /\ flags f' /\
    (in_type t a -> in_type t b -> (bin_clean op t a b = true -> f' = 0) /\
     (f' = 0 -> bin_clean op t a b = true /\ z = fbin op t a b /\ regular t z /\
                (op <> Div -> in_type t z))).
Proof.
  intros I NB F. destruct (in_typeb t a && in_typeb t b) eqn:E.
  - apply andb_true_iff in E. rewrite !in_typeb_spec in E. destruct E as [A B].
    destruct (fold_bin_op_sound t f op a b I NB A B) as (z & f' & E & F' & H). exists z, f'. auto.
  - destruct (fold_bin_op_flags t f op a b I F) as (z & f' & E' & F'). exists z, f'.
    split; [exact E'|]. split; [exact F'|]. intros A B. exfalso.
    apply in_typeb_spec in A, B. now rewrite A, B in E.
Qed.

Lemma fold_cmp_op_sound t op a b : int_type t = true -> regular t a -> regular t b ->
  constant_fold_cmp_op op t (VInt a) (VInt b) = VBool (evcmp op a b).
Proof.
  unfold regular, constant_fold_cmp_op. intros I. destruct (int_type_code t I) as [S|S].
  - rewrite S, (proj1 (code_eqb_eq _ _) S). cbn. now intros -> ->.
  - rewrite (uint_not_int t S), (proj1 (code_eqb_eq _ _) S). cbn. now intros -> ->.
Qed.

Lemma fold_cmp_op_bool t op a b : int_type t = true ->
  exists c, constant_fold_cmp_op op t (VInt a) (VInt b) = VBool c.
Proof.
  intros I. unfold constant_fold_cmp_op, int_type in *. destruct (code t); try discriminate; eauto.
Qed.

(** The smallest value is the one whose negation a shift finds to overflow. *)
Lemma min_shifts_out b : 8 <= b <= 64 ->
  negb (u64 (- 2 ^ (b - 1)) =? 0) && (u64 (Z.shiftl (u64 (- 2 ^ (b - 1))) (65 - b)) =? 0) = true.
Proof.
  intros B. pose proof (pow2_pos (b - 1) ltac:(lia)).
  assert (2 ^ (b - 1) <= 2 ^ 63) by (apply Z.pow_le_mono_r; lia).
  assert (E : u64 (- 2 ^ (b - 1)) = 2 ^ 64 - 2 ^ (b - 1)).
  { unfold u64. rewrite <- (wrap_u_shift 64 ltac:(lia) _ 1). rewrite wrap_u_id by lia. ring. }
  rewrite E. apply andb_true_iff. split; [apply negb_true_iff, Z.eqb_neq; lia|].
  apply Z.eqb_eq. rewrite Z.shiftl_mul_pow2 by lia.
  assert (2 ^ (b - 1) * 2 ^ (65 - b) = 2 ^ 64) by (rewrite <- Z.pow_add_r by lia; f_equal; lia).
  replace ((2 ^ 64 - 2 ^ (b - 1)) * 2 ^ (65 - b)) with (0 + (2 ^ (65 - b) - 1) * 2 ^ 64) by lia.
  unfold u64. now rewrite wrap_u_shift by lia.
Qed.

Lemma shifted_out_min b v : 8 <= b <= 64 -> in_int b v ->
  negb (u64 v =? 0) && (u64 (Z.shiftl (u64 v) (65 - b)) =? 0) = true -> v = - 2 ^ (b - 1).
Proof.
  intros B R E. apply andb_true_iff in E. destruct E as [N E].
  apply negb_true_iff, Z.eqb_neq in N. apply Z.eqb_eq in E. unfold in_int in R.
  pose proof (pow2_pos (b - 1) ltac:(lia)). pose proof (pow2_pos (65 - b) ltac:(lia)).
  assert (P : 2 ^ 64 = 2 ^ (b - 1) * 2 ^ (65 - b)) by (rewrite <- Z.pow_add_r by lia; f_equal; lia).
  rewrite Z.shiftl_mul_pow2 in E by lia. unfold u64 in *.
  destruct (wrap_u_cong 64 ltac:(lia) v) as [k K].
  destruct (wrap_u_cong 64 ltac:(lia) (wrap_u 64 v * 2 ^ (65 - b))) as [m Hm].
  rewrite E, K, P in Hm.
  assert (V : v = - (k * 2 ^ (65 - b) + m) * 2 ^ (b - 1)) by nia.
  assert (v <> 0) by (intros ->; now apply N).
  set (q := k * 2 ^ (65 - b) + m) in *. assert (q <> 0) by nia.
  destruct (Z.eq_dec q 1) as [Q|Q]; [rewrite V, Q; ring|]. nia.
Qed.

Lemma fold_negate_sound t f a : int_type t = true -> in_type t a ->
  folds_to t f (fold_negate (VInt a) (or_lanes t f))
    (if no_overflow_int t then in_typeb t (- a) else true) (norm t (- a)) True.
Proof.
  intros I A. unfold fold_negate, folds_to. cbn [code bits or_lanes with_lanes].
  destruct (int_type_code t I) as [S|S]; rewrite (proj1 (code_eqb_eq _ _) S).
  - pose proof (int_type_sbits t I S) as B. rewrite (as_i64_in t) by assumption.
    assert (N : no_overflow_int t = (32 <=? bits t)) by (unfold no_overflow_int; now rewrite S).
    change (with_lanes t (Z.lor (lanes t) f)) with (or_lanes t f).
    rewrite <- andb_assoc. rewrite N.
    destruct ((32 <=? bits t) && _) eqn:E.
    + rewrite or_lanes_or. eexists _, _. split; [reflexivity|]. split; [auto with halide|].
      split; [|discriminate]. intros C. exfalso. destruct (32 <=? bits t); [|discriminate E].
      unfold as_u64 in E. cbn [andb] in E.
      apply in_typeb_spec, in_int_in_type in C; auto. apply in_int_in_type in A; auto.
      apply (shifted_out_min (bits t) a B A) in E. subst a. unfold in_int in C. lia.
    + eexists _, 0. rewrite Z.lor_0_r. split; [reflexivity|]. split; [auto with halide|]. split; [auto|]. intros _.
      rewrite normalize_s_eq by lia.
      assert (C : no_overflow_int t = true -> in_typeb t (- a) = true).
      { intros N'. rewrite <- N, N' in E. cbn [andb] in E. apply in_typeb_spec.
        destruct (Z.eq_dec a (- 2 ^ (bits t - 1))) as [->|NE].
        - unfold as_u64 in E. now rewrite (min_shifts_out (bits t) B) in E.
        - apply in_int_in_type; auto. apply in_int_in_type in A; auto. unfold in_int in *. lia. }
      destruct (wrap_norm t I S (- a) C) as [E' R]. rewrite <- N. rewrite E'.
      split; [case_goal; auto|]. auto using in_type_regular.
  - pose proof (int_type_bits t I) as B. rewrite (as_u64_in t) by assumption.
    eexists _, 0. rewrite Z.lor_0_r. split; [reflexivity|]. split; [auto with halide|]. split; [auto|]. intros _.
    assert (N : no_overflow_int t = false) by (unfold no_overflow_int; now rewrite (uint_not_int t S)).
    rewrite N, normalize_u_eq, uint_norm by assumption. split; [reflexivity|]. split; [reflexivity|].
    assert (in_type t (wrap_u (bits t) (- a))).
    { rewrite <- (uint_norm t S). now apply norm_range. }
    auto using in_type_regular.
Qed.

Lemma fold_negate_flags t f v : int_type t = true -> flags f ->
  exists z f', fold_negate (VInt v) (or_lanes t f) = (VInt z, or_lanes t (Z.lor f f')) /\ flags f'.
Proof.
  intros I F. unfold fold_negate. cbn [code or_lanes with_lanes].
  change (with_lanes t (Z.lor (lanes t) f)) with (or_lanes t f).
  unfold int_type in I. destruct (code t); try discriminate.
  - case_goal.
    + rewrite or_lanes_or. eexists _, _. split; [reflexivity|auto with halide].
    + eexists _, 0. rewrite Z.lor_0_r. split; [reflexivity|auto with halide].
  - eexists _, 0. rewrite Z.lor_0_r. auto with halide.
Qed.

Lemma fold_negate_total t f a : int_type t = true -> flags f ->
  exists z f', fold_negate (VInt a) (or_lanes t f) = (VInt z, or_lanes t (Z.lor f f')) /\ flags f' /\
    (in_type t a ->
     ((if no_overflow_int t then in_typeb t (- a) else true) = true -> f' = 0) /\
     (f' = 0 -> (if no_overflow_int t then in_typeb t (- a) else true) = true /\
                z = norm t (- a) /\ regular t z /\ (True -> in_type t z))).
Proof.
  intros I F. destruct (in_typeb t a) eqn:E.
  - apply in_typeb_spec in E. destruct (fold_negate_sound t f a I E) as (z & f' & E' & F' & H).
    exists z, f'. auto.
  - destruct (fold_negate_flags t f a I F) as (z & f' & E' & F'). exists z, f'.
    split; [exact E'|]. split; [exact F'|]. intros A. apply in_typeb_spec in A. congruence.
Qed.

(** ** Patterns *)

Section FoldPattern.
Context {prover : Prover} (env : Env) (i : Z) (d : bool) (args : list Expr) (s : MatcherState).

Abbreviation ρ := (valuation env i args s).
Definition uses (p : Pat) : Prop := state_ok env i d (binds p) s.

Lemma state_ok_l a b : state_ok env i d (Z.lor a b) s -> state_ok env i d a s.
Proof.
  intros [B C]. split; intros k.
  - intros H. apply B. now rewrite is_bound_wild_lor, H.
  - intros K H. apply C; auto. now rewrite is_bound_lor, H.
Qed.

Lemma state_ok_r a b : state_ok env i d (Z.lor a b) s -> state_ok env i d b s.
Proof. rewrite Z.lor_comm. apply state_ok_l. Qed.

#[local] Hint Resolve state_ok_l state_ok_r : core.

Lemma uses_const k : (k < max_wild)%nat -> uses (PConst k) ->
  wf_type (bound_const_type s k) /\
  exists v, bound_const s k = VInt v /\ in_type (bound_const_type s k) v.
Proof. intros K [_ C]. apply C; auto. cbn. now rewrite is_bound_const, Nat.eqb_refl. Qed.

Definition good_type (t : HType) : Prop := int_type t = true /\ lane_count t.

Lemma wf_good t : wf_type t -> good_type t.
Proof. intros [I V]. split; [exact I|now apply valid_lane_count]. Qed.

Lemma good_or ta tb : good_type ta -> good_type tb -> good_type (or_lanes tb (lanes ta)).
Proof.
  intros [_ La] [Ib Lb]. split; [unfold or_lanes; now rewrite int_type_with|].
  now apply lane_count_lor.
Qed.

Lemma good_bool n : 0 <= n < lanes_limit -> good_type (BoolT n).
Proof. split; [reflexivity|assumption]. Qed.

Lemma uses_l a b : state_ok env i d (Z.lor (binds a) (binds b)) s -> uses a.
Proof. apply state_ok_l. Qed.
Lemma uses_r a b : state_ok env i d (Z.lor (binds a) (binds b)) s -> uses b.
Proof. apply state_ok_r. Qed.
#[local] Hint Resolve uses_l uses_r : core.

(** The type of a fold is an integer type without flags. *)
Definition fold_good_at (p : Pat) : Prop := forall t,
  indices_ok p = true -> fok ρ p t -> uses p -> lane_count t -> good_type (fty ρ p t).

Lemma fold_good_pair a b t : fold_good_at a -> fold_good_at b ->
  indices_ok a = true -> indices_ok b = true ->
  fok ρ a (fhint_a ρ a b t) -> fok ρ b (fhint_b ρ a b t) -> uses a -> uses b -> lane_count t ->
  good_type (fty ρ a (fhint_a ρ a b t)) /\ good_type (fty ρ b (fhint_b ρ a b t)).
Proof.
  intros GA GB Na Nb Fa Fb Ua Ub L. unfold fhint_a, fhint_b in *. destruct (is_lit a).
  - pose proof (GB t Nb Fb Ub L) as G. split; [|exact G]. apply GA; auto. apply G.
  - pose proof (GA t Na Fa Ua L) as G. split; [exact G|]. apply GB; auto. apply G.
Qed.

Lemma fold_good p : fold_good_at p.
Proof.
  induction p; intros h N F U L; cbn [indices_ok] in N; cbn [fok] in F; try contradiction;
    destr_and; cbn [fty].
  - apply wf_good. apply (uses_const i0); [now apply Nat.ltb_lt|exact U].
  - now split.
  - destruct (fold_good_pair p1 p2 h) as [GA GB]; eauto. unfold fhint_a, fhint_b in *.
    destruct (is_lit p1); auto using good_or.
  - destruct (fold_good_pair p1 p2 h) as [GA GB]; eauto. unfold fhint_a, fhint_b in *.
    destruct (is_lit p1); apply good_bool; [apply (good_or _ _ GB GA)|apply (good_or _ _ GA GB)].
  - now apply IHp.
  - now apply IHp.
  - now apply IHp.
Qed.

(** What a fold leaves. *)
Definition folded_as (p : Pat) (t : HType) (z f : Z) : Prop := flags f /\
  (f = 0 -> fclean ρ p t = true /\ z = fval ρ p t /\ regular (fty ρ p t) z /\
            (ranged p = true -> in_type (fty ρ p t) z)).

(** [g]: the flags of the type hint, which a literal inherits. *)
Definition folded (p : Pat) (t : HType) (g : Z) (r : ScalarValue * HType) : Prop :=
  exists z f, r = (VInt z, or_lanes (fty ρ p t) f) /\ folded_as p t z f /\
    (g = 0 -> fclean ρ p t = true -> f = 0).

Definition fold_ok (p : Pat) : Prop := forall t g c,
  indices_ok p = true -> fok ρ p t -> uses p -> lane_count t -> flags g ->
  exists r, make_folded_const args s p (or_lanes t g) c = (r, c) /\ folded p t g r.

(** Both operands of a node, in the order of evaluation. *)
Definition operand (a b : Pat) (t : HType) (f : Z) : HType := or_lanes (fty ρ a (fhint_a ρ a b t)) f.

Lemma fold_pair a b t g c : fold_ok a -> fold_ok b ->
  indices_ok a = true -> indices_ok b = true ->
  fok ρ a (fhint_a ρ a b t) -> fok ρ b (fhint_b ρ a b t) -> uses a -> uses b ->
  lane_count t -> flags g ->
  exists za fa zb fb, folded_as a (fhint_a ρ a b t) za fa /\ folded_as b (fhint_b ρ a b t) zb fb /\
    (g = 0 -> fclean ρ a (fhint_a ρ a b t) && fclean ρ b (fhint_b ρ a b t) = true ->
     Z.lor fa fb = 0) /\
    let ra := (VInt za, or_lanes (fty ρ a (fhint_a ρ a b t)) fa) in
    let rb := (VInt zb, or_lanes (fty ρ b (fhint_b ρ a b t)) fb) in
    if is_lit a
    then make_folded_const args s b (or_lanes t g) c = (rb, c) /\
         make_folded_const args s a (snd rb) c = (ra, c)
    else make_folded_const args s a (or_lanes t g) c = (ra, c) /\
         make_folded_const args s b (snd ra) c = (rb, c).
Proof.
  intros A B Na Nb Fa Fb Ua Ub L G. unfold fhint_a, fhint_b in *. destruct (is_lit a).
  - destruct (B t g c Nb Fb Ub L G) as (rb & Eb & zb & fb & -> & Rb & Xb).
    pose proof (fold_good b t Nb Fb Ub L) as [_ Lb].
    destruct (A _ fb c Na Fa Ua Lb (proj1 Rb)) as (ra & Ea & za & fa & -> & Ra & Xa).
    exists za, fa, zb, fb. split; [exact Ra|]. split; [exact Rb|]. split; [|auto].
    intros G0 C. destr_and. apply Z.lor_eq_0_iff. auto.
  - destruct (A t g c Na Fa Ua L G) as (ra & Ea & za & fa & -> & Ra & Xa).
    pose proof (fold_good a t Na Fa Ua L) as [_ La].
    destruct (B _ fa c Nb Fb Ub La (proj1 Ra)) as (rb & Eb & zb & fb & -> & Rb & Xb).
    exists za, fa, zb, fb. split; [exact Ra|]. split; [exact Rb|]. split; [|auto].
    intros G0 C. destr_and. apply Z.lor_eq_0_iff. auto.
Qed.

Lemma lor_0 a b : Z.lor a b = 0 -> a = 0 /\ b = 0.
Proof. apply Z.lor_eq_0_iff. Qed.

Lemma same_elt_of a b : element_of a = element_of b -> same_elt a b.
Proof. destruct a, b. cbn. intros [= -> ->]. split; reflexivity. Qed.

Lemma regular_elt a b z : same_elt a b -> regular a z -> regular b z.
Proof. intros [C _]. unfold regular, is_int. now rewrite C. Qed.

(** The type a binary fold works at. *)
Lemma fty_bin op a b t : fty ρ (PBin op a b) t =
  if is_lit a then or_lanes (fty ρ a (fhint_a ρ a b t)) (lanes (fty ρ b (fhint_b ρ a b t)))
  else or_lanes (fty ρ b (fhint_b ρ a b t)) (lanes (fty ρ a (fhint_a ρ a b t))).
Proof. cbn. unfold fhint_a, fhint_b. now destruct (is_lit a). Qed.

Lemma fty_cmp op a b t : fty ρ (PCmp op a b) t =
  BoolT (lanes (fty ρ (PBin Add a b) t)).
Proof. cbn. now destruct (is_lit a). Qed.

Lemma same_elt_or t n : same_elt t (or_lanes t n).
Proof. split; reflexivity. Qed.

Lemma fold_elt op a b t :
  element_of (fty ρ a (fhint_a ρ a b t)) = element_of (fty ρ b (fhint_b ρ a b t)) ->
  same_elt (fty ρ a (fhint_a ρ a b t)) (fty ρ (PBin op a b) t) /\
  same_elt (fty ρ b (fhint_b ρ a b t)) (fty ρ (PBin op a b) t).
Proof.
  intros E. apply same_elt_of in E. rewrite fty_bin. destruct (is_lit a); split;
    try apply same_elt_or; (etransitivity; [|apply same_elt_or]); [now symmetry|exact E].
Qed.

(** The operation of a binary node on folded operands. *)
Lemma fold_bin_node op a b t g fa fb za zb :
  indices_ok (PBin op a b) = true -> fok ρ (PBin op a b) t -> uses (PBin op a b) -> lane_count t ->
  folded_as a (fhint_a ρ a b t) za fa -> folded_as b (fhint_b ρ a b t) zb fb ->
  (g = 0 -> fclean ρ a (fhint_a ρ a b t) && fclean ρ b (fhint_b ρ a b t) = true ->
   Z.lor fa fb = 0) ->
  folded (PBin op a b) t g
    (constant_fold_bin_op op (or_lanes (fty ρ (PBin op a b) t) (Z.lor fa fb)) (VInt za) (VInt zb)).
Proof.
  intros N F U L (Fa & A) (Fb & B) X. destruct (fold_good _ _ N F U L) as [I _].
  destruct F as (NB & Ra & Rb & Oa & Ob & E). destruct (fold_elt op a b t E) as [Sa Sb].
  destruct (fold_bin_op_total (fty ρ (PBin op a b) t) (Z.lor fa fb) op za zb I NB)
    as (z & f' & -> & F' & H); auto with halide.
  exists z, (Z.lor (Z.lor fa fb) f'). split; [reflexivity|].
  assert (H' : fa = 0 -> fb = 0 -> za = fval ρ a (fhint_a ρ a b t) /\ zb = fval ρ b (fhint_b ρ a b t) /\
    in_type (fty ρ (PBin op a b) t) za /\ in_type (fty ρ (PBin op a b) t) zb).
  { intros Ea Eb. destruct (A Ea) as (_ & -> & _ & Ta), (B Eb) as (_ & -> & _ & Tb).
    split; [reflexivity|]. split; [reflexivity|].
    split; [apply (in_type_elt _ _ Sa)|apply (in_type_elt _ _ Sb)]; auto. }
  split; [|cbn [fclean]; intros G0 C; apply andb_true_iff in C; destruct C as [C C'];
           specialize (X G0 C); rewrite X; apply lor_0 in X; destruct X as [-> ->];
           destruct H' as (-> & -> & Ta & Tb); auto; now rewrite (proj1 (H Ta Tb))].
  split; [auto with halide|].
  intros Z0. apply lor_0 in Z0. destruct Z0 as [Z0 ->]. apply lor_0 in Z0. destruct Z0 as [-> ->].
  destruct (A eq_refl) as (Ca & _ & _ & _), (B eq_refl) as (Cb & _ & _ & _).
  destruct H' as (-> & -> & Ta & Tb); auto.
  destruct (proj2 (H Ta Tb) eq_refl) as (C & -> & R & T).
  cbn [fclean fval]. rewrite Ca, Cb, C. split; [reflexivity|]. split; [reflexivity|].
  split; [exact R|]. intros G. apply T. now destruct op.
Qed.

Lemma fold_cmp_node op a b t g fa fb za zb :
  indices_ok (PCmp op a b) = true -> fok ρ (PCmp op a b) t -> uses (PCmp op a b) -> lane_count t ->
  folded_as a (fhint_a ρ a b t) za fa -> folded_as b (fhint_b ρ a b t) zb fb ->
  (g = 0 -> fclean ρ a (fhint_a ρ a b t) && fclean ρ b (fhint_b ρ a b t) = true ->
   Z.lor fa fb = 0) ->
  let T := or_lanes (fty ρ (PBin Add a b) t) (Z.lor fa fb) in
  folded (PCmp op a b) t g (constant_fold_cmp_op op T (VInt za) (VInt zb), BoolT (lanes T)).
Proof.
  intros N F U L (Fa & A) (Fb & B) X. cbv zeta. cbn in N. destr_and.
  destruct F as (Oa & Ob & E). destruct (fold_elt Add a b t E) as [Sa Sb].
  destruct (fold_good_pair a b t) as [Ga Gb]; eauto using fold_good.
  assert (I : int_type (or_lanes (fty ρ (PBin Add a b) t) (Z.lor fa fb)) = true).
  { rewrite <- (proj1 Ga). apply int_type_elt. symmetry. etransitivity; [exact Sa|apply same_elt_or]. }
  destruct (fold_cmp_op_bool _ op za zb I) as [c Ec].
  exists (b2z c), (Z.lor fa fb). rewrite Ec, fty_cmp. split; [reflexivity|].
  split; [|exact X]. split; [auto with halide|].
  intros Z0. apply lor_0 in Z0. destruct Z0 as [-> ->].
  destruct (A eq_refl) as (Ca & -> & Ra & _), (B eq_refl) as (Cb & -> & Rb & _).
  rewrite fold_cmp_op_sound in Ec; auto.
  - injection Ec as Ec. apply b2z_inj in Ec. subst c. cbn [fclean fval]. rewrite Ca, Cb.
    assert (forall x n, in_type (BoolT n) (b2z x)) as R by (intros [] n; unfold in_type; cbn; lia).
    rewrite fty_cmp. split; [reflexivity|]. split; [reflexivity|]. split; [|auto].
    now apply in_type_regular.
  - apply (regular_elt _ _ _ (same_elt_or _ _)), (regular_elt _ _ _ Sa), Ra.
  - apply (regular_elt _ _ _ (same_elt_or _ _)), (regular_elt _ _ _ Sb), Rb.
Qed.

Lemma land_lnot_u64 z : Z.land (Z.lnot (u64 z)) 1 = Z.land (Z.lnot z) 1.
Proof.
  apply Z.bits_inj'. intros k K. rewrite !Z.land_spec, !Z.lnot_spec by assumption.
  destruct (Z.eqb_spec k 0) as [->|NZ].
  - unfold u64, wrap_u. rewrite Z.mod_pow2_bits_low by lia. reflexivity.
  - change 1 with (2 ^ 0). rewrite Z.pow2_bits_false by lia. now rewrite !andb_false_r.
Qed.

Lemma land_1_bool n z : in_type (BoolT n) (Z.land z 1).
Proof.
  apply in_type_bool. change 1 with (Z.ones 1). rewrite Z.land_ones by lia.
  pose proof (Z.mod_pos_bound z (2 ^ 1)). cbn in *. lia.
Qed.

Lemma fold_sound p : fold_ok p.
Proof.
  induction p; intros h g c N F U L G; pose proof N as N'; pose proof F as F';
    cbn [indices_ok] in N; cbn [fok] in F; try contradiction; destr_and; cbn [make_folded_const].
  - apply Nat.ltb_lt in N. destruct (uses_const i0 N U) as [W (z & Ez & R)].
    eexists. split; [reflexivity|]. exists z, 0. rewrite or_lanes_0, Ez. split; [reflexivity|].
    split; [|auto]. split; [auto with halide|]. cbn. rewrite Ez.
    assert (regular (bound_const_type s i0) z) by (apply in_type_regular; [apply W|exact R]). auto.
  - eexists. split; [reflexivity|]. exists v, g. destruct F' as [I R].
    split; [|split; [split; [exact G|]|auto]].
    + f_equal. unfold fold_lit. cbn [code or_lanes with_lanes].
      destruct (int_type_code h I) as [S|S]; rewrite (proj1 (code_eqb_eq _ _) S); [reflexivity|].
      f_equal. exact (as_u64_in h I v S R).
    + intros _. cbn. auto using in_type_regular.
  - destruct (fold_pair p1 p2 h g c) as (za & fa & zb & fb & A & B & X & E); eauto.
    cbv zeta in E. pose proof (fold_bin_node op p1 p2 h g fa fb za zb N' F' U L A B X) as R.
    rewrite fty_bin in R. destruct (is_lit p1); destruct E as [E1 E2]; cbn [snd] in E2;
      unfold ret; rewrite E1; cbn [snd];
      (replace (short_circuits _ _) with false by now destruct op);
      rewrite E2; eexists; (split; [reflexivity|]); rewrite or_lanes_two, ?(Z.lor_comm fb); exact R.
  - destruct (fold_pair p1 p2 h g c) as (za & fa & zb & fb & A & B & X & E); eauto.
    cbv zeta in E. pose proof (fold_cmp_node op p1 p2 h g fa fb za zb N' F' U L A B X) as R.
    cbv zeta in R. rewrite fty_bin in R. destruct (is_lit p1); destruct E as [E1 E2]; cbn [snd] in E2;
      unfold ret; rewrite E1; cbn [snd];
      rewrite E2; eexists; (split; [reflexivity|]); rewrite or_lanes_two, ?(Z.lor_comm fb); exact R.
  - destruct (IHp h g c) as (r & E & z & f & -> & [Hf V] & X); auto.
    unfold ret. rewrite E. eexists. split; [reflexivity|].
    pose proof (is_bool_elt _ H0) as [BC BB].
    exists (Z.land (Z.lnot z) 1), f. cbn [as_u64 fty]. rewrite land_lnot_u64. split.
    + f_equal. unfold is_float, flag_if. cbn [code or_lanes with_lanes]. now rewrite BC.
    + split; [|exact X]. split; [exact Hf|]. intros Z0. destruct (V Z0) as (C & -> & _). cbn [fclean fval ranged].
      assert (R : in_type (fty ρ p h) (Z.land (Z.lnot (fval ρ p h)) 1)).
      { apply (in_type_elt (BoolT 1)); [split; cbn; congruence|apply land_1_bool]. }
      split; [exact C|]. split; [reflexivity|]. split; [|auto].
      apply in_type_regular; [|exact R]. apply (fold_good (PNot p) h); auto.
  - destruct (IHp h g c) as (r & E & z & f & -> & [Hf V] & X); auto.
    unfold ret. rewrite E. pose proof (fold_good p h N H0 U L) as [I _].
    destruct (fold_negate_total _ f z I Hf) as (z' & f' & En & F'' & Hn). rewrite En.
    eexists. split; [reflexivity|]. exists z', (Z.lor f f'). split; [reflexivity|].
    split; [split; [auto with halide|]|].
    2: { cbn [fclean]. intros G0 C. apply andb_true_iff in C. destruct C as [C C'].
         rewrite (X G0 C). destruct (V (X G0 C)) as (_ & -> & _ & R).
         destruct Hn as [Hn _]; auto. }
    intros Z0. apply lor_0 in Z0. destruct Z0 as [-> ->].
    destruct (V eq_refl) as (C & -> & _ & R). destruct Hn as [_ Hn]; auto.
    destruct Hn as (Cn & -> & Rn & Tn); auto.
    cbn [fclean fval fty]. rewrite C, Cn. auto.
  - now apply IHp.
Qed.

(** A fold that is well typed without a hint does not look at it. *)
Lemma fold_hint p : forall t c, fok ρ p no_type ->
  make_folded_const args s p t c = make_folded_const args s p no_type c.
Proof.
  induction p; intros h c0 F; cbn [fok] in F; try contradiction; destr_and; cbn [make_folded_const];
    auto; try discriminate.
  - unfold fhint_a, fhint_b in *. destruct (is_lit p1); [rewrite (IHp2 h)|rewrite (IHp1 h)]; auto.
  - unfold fhint_a, fhint_b in *. destruct (is_lit p1); [rewrite (IHp2 h)|rewrite (IHp1 h)]; auto.
  - now rewrite (IHp h).
  - now rewrite (IHp h).
Qed.
End FoldPattern.

(** ** Constant folding of one operation *)

(** When the exact result of an operation cannot be represented. *)
Definition fold_fails (op : BinOp) (t : HType) (a b : Z) : Prop :=
  match op with
  | Add => no_overflow_int t = true /\ ~ in_type t (a + b)
  | Sub => no_overflow_int t = true /\ ~ in_type t (a - b)
  | Mul => no_overflow_int t = true /\ ~ in_type t (a * b)
  | Div | Mod => b = 0
  | _ => False
  end.

Lemma bin_clean_fails op t a b : bin_clean op t a b = true <-> ~ fold_fails op t a b.
Proof.
  assert (A : forall v, (if no_overflow_int t then in_typeb t v else true) = true <->
    ~ (no_overflow_int t = true /\ ~ in_type t v)).
  { intros v. destruct (no_overflow_int t); [|intuition congruence].
    rewrite in_typeb_spec. unfold in_type. lia. }
  destruct op; cbn [bin_clean fold_fails]; try apply A; try (rewrite negb_true_iff, Z.eqb_neq; reflexivity);
    intuition.
Qed.



(** The one overflow that is not flagged: the
    quotient of the smallest 32-bit integer by -1 is 2^31, out of range, while
    its negation as a difference is flagged. *)
Theorem fold_min_div_unflagged :
  let t := Int 32 1 in
  constant_fold_bin_op Div t (VInt (- 2 ^ 31)) (VInt (-1)) = (VInt (2 ^ 31), t) /\
  ~ in_type t (2 ^ 31) /\
  special (snd (constant_fold_bin_op Sub t (VInt 0) (VInt (- 2 ^ 31)))) = true.
Proof. split; [reflexivity|]. split; [|reflexivity]. intros [_ H]. vm_compute in H. congruence. Qed.
