(* ===== verification/MakeSound.v ===== *)
(** * Making expressions is sound

    What [make] builds from a pattern is well formed, has the type [mty] and
    the value [pev]; a predicate that evaluates to true holds. *)

From Stdlib Require Import ZArith Lia Bool List String.
From S2P Require Import Prelude.
From S2P Require Import IntArith.
From S2P Require Import ModulusRemainder.
From S2P Require Import HalideTypes.
From S2P Require Import IR.
From S2P Require Import IRMatch.
From S2P Require Import RuleSem.
From S2P Require Import MatchSound.
From S2P Require Import FoldSound.
Import ListNotations.
Open Scope Z_scope.

(** ** Constants *)

Lemma poison_wf t n vi name : wf_type t -> is_likely name Intrinsic = false ->
  wf (ECall t name [IntImm_make (Int 32 1) n] Intrinsic vi) = true.
Proof.
  intros [I V] N. cbn [wf forallb]. rewrite N, I, V.
  assert (wf (IntImm_make (Int 32 1) n) = true) as ->; [|reflexivity].
  unfold IntImm_make. rewrite normalize_s_eq by (cbn; lia).
  pose proof (wrap_s_range 32 ltac:(lia) n) as R. cbn. apply in_typeb_spec.
  unfold in_type, tmin, tmax; cbn in *. lia.
Qed.

(** The two ways to make a poison expression. *)
Lemma make_poison_ok {prover : Prover} (b : bool) t c : wf_type t -> exists e c',
  (if b then make_indeterminate_expression t else make_signed_integer_overflow t) c = (e, c') /\
  wf e = true /\ type_of e = t.
Proof.
  intros W. destruct b; unfold make_indeterminate_expression, make_signed_integer_overflow;
    [destruct (next_indeterminate c) as [n c']|destruct (next_overflow c) as [n c']];
    (eexists _, c'; split; [reflexivity|]; split; [now apply poison_wf|reflexivity]).
Qed.

Section Consts.
Context {prover : Prover} (t : HType) (W : wf_type t) (f : Z) (F : flags f).

Let L : lane_count t := valid_lane_count t (proj2 W).

(** A poison value of the type without its flags. *)
Lemma make_special_ok c : exists e c', make_const_special_expr (or_lanes t f) c = (e, c') /\
  wf e = true /\ type_of e = t.
Proof.
  unfold make_const_special_expr. rewrite (unflag t f L F).
  case_goal; [exact (make_poison_ok true t c W)|exact (make_poison_ok false t c W)].
Qed.

(** A constant of the type, or a poison value when there are flags. *)
Lemma make_const_expr_ok z c : exists e c', make_const_expr (VInt z) (or_lanes t f) c = (e, c') /\
  wf e = true /\ type_of e = t /\
  (f = 0 -> regular t z ->
   (forall env i, ev env i e = cast_val t z) /\ (forall env i, ok env i e)).
Proof.
  unfold make_const_expr. rewrite (special_or t f L F). destruct (Z.eqb_spec f 0) as [->|N].
  - rewrite or_lanes_0. cbn [negb]. eexists _, _. split; [reflexivity|].
    assert (S : const_spec (element_of t) (cast_val t (if is_int t then i64 z else u64 z))
      (match code t with
       | CInt => IntImm_make (with_lanes t 1) (as_i64 (VInt z))
       | CUInt => UIntImm_make (with_lanes t 1) (as_u64 (VInt z))
       | CFloat => FloatImm_make (with_lanes t 1) (as_f64 (VInt z))
       | CHandle => StringImm "unreachable"
       end)).
    { pose proof (make_const_scalar_spec (element_of t) (if is_int t then i64 z else u64 z)
        (wf_type_element t W) eq_refl) as S.
      rewrite (cast_val_elt _ _ (same_elt_element t)) in S.
      unfold make_const_scalar in S. cbn [code element_of with_lanes] in S.
      destruct (int_type_code t (proj1 W)) as [E|E];
        [rewrite E in *|rewrite (uint_not_int t E) in *]; rewrite (proj1 (code_eqb_eq _ _) E) in *; exact S. }
    assert (E : regular t z -> (if is_int t then i64 z else u64 z) = z).
    { unfold regular. now destruct (is_int t). }
    destruct (Z.ltb_spec 1 (lanes t)) as [V|V].
    + destruct (broadcast_const t _ _ W ltac:(unfold is_vector; apply negb_true_iff, Z.eqb_neq; lia) S)
        as [A B C D _].
      split; [exact A|]. split; [exact B|]. intros _ R. rewrite E in C by assumption. auto.
    + assert (element_of t = t) as ET.
      { pose proof (proj2 W) as VL. unfold valid_lanes in VL. zify_bool.
        destruct t as [a b l]; cbn in *. unfold element_of, with_lanes; cbn. f_equal. lia. }
      destruct S as [A B C D _]. rewrite ET in B.
      split; [exact A|]. split; [exact B|]. intros _ R. rewrite E in C by assumption. auto.
  - cbn [negb]. destruct (make_special_ok c) as (e & c' & E & We & Te).
    exists e, c'. split; [exact E|]. split; [exact We|]. split; [exact Te|]. easy.
Qed.
End Consts.

(** ** Matching lanes *)

(** [e'] is [e] at type [t]. *)
Definition widened (t : HType) (e e' : Expr) : Prop :=
  wf e' = true /\ type_of e' = t /\
  (forall env i, ev env i e' = ev env i e) /\ (forall env i, ok env i e -> ok env i e').

Lemma widened_refl e : wf e = true -> widened (type_of e) e e.
Proof. intros W. repeat (split; auto). Qed.

Lemma widened_broadcast e n : wf e = true -> is_scalar (type_of e) = true -> vector_lanes n = true ->
  widened (with_lanes (type_of e) n) e (Broadcast e n).
Proof. intros W S V. split; [cbn; now rewrite W, S, V|]. repeat (split; auto). Qed.

Lemma vector_not_scalar t : is_vector t = negb (is_scalar t).
Proof. reflexivity. Qed.

Lemma with_lanes_of a b : element_of a = element_of b -> with_lanes a (lanes b) = b.
Proof. destruct a, b. cbn. now intros [= -> ->]. Qed.

Lemma match_lanes_ok ea eb : wf ea = true -> wf eb = true -> compatible (type_of ea) (type_of eb) ->
  widened (join (type_of ea) (type_of eb)) ea (fst (match_lanes ea eb)) /\
  widened (join (type_of ea) (type_of eb)) eb (snd (match_lanes ea eb)).
Proof.
  intros Wa Wb [E L]. pose proof (wf_wf_type ea Wa) as Ta. pose proof (wf_wf_type eb Wb) as Tb.
  unfold match_lanes, join. rewrite !vector_not_scalar.
  destruct (is_scalar (type_of ea)) eqn:Sa, (is_scalar (type_of eb)) eqn:Sb; cbn [negb andb fst snd].
  - rewrite Sb. cbn. rewrite with_lanes_of by assumption.
    assert (Q : type_of ea = type_of eb).
    { unfold is_scalar in *. zify_bool. rewrite <- (with_lanes_of _ _ E), Sb, <- Sa. symmetry. apply with_lanes_id. }
    split; [rewrite <- Q|]; now apply widened_refl.
  - rewrite Sb, with_lanes_of by assumption. cbn. split; [|now apply widened_refl].
    rewrite <- (with_lanes_of (type_of ea) (type_of eb)) at 1 by assumption.
    apply widened_broadcast; auto. apply vector_valid; auto. now rewrite vector_not_scalar, Sb.
  - rewrite andb_false_r. split; [now apply widened_refl|].
    rewrite <- (with_lanes_of (type_of eb) (type_of ea)) at 1 by now symmetry.
    apply widened_broadcast; auto. apply vector_valid; auto. now rewrite vector_not_scalar, Sa.
  - rewrite Sb. cbn. assert (Q : type_of eb = type_of ea).
    { unfold is_scalar in *. zify_bool. rewrite <- (with_lanes_of _ _ E).
      destruct L as [L|[L|L]]; [|contradiction|contradiction]. now rewrite <- L, with_lanes_id. }
    split; [|rewrite <- Q]; now apply widened_refl.
Qed.

(** ** Casts *)

(** The value of a cast: none when only the lanes change. *)
Definition cast_to (t : HType) (a : Expr) (v : Z) : Z :=
  if type_eqb (element_of (type_of a)) (element_of t) then v else cast_val t v.

Definition cast_spec (t : HType) (a e : Expr) : Prop :=
  wf e = true /\ type_of e = t /\
  (forall env i, ev env i e = cast_to t a (ev env i a)) /\ (forall env i, ok env i a -> ok env i e).

Lemma cast_const t a v : wf a = true -> wf_type t ->
  in_type (type_of a) v -> (forall env i, ev env i a = v) -> cast_spec t a (make_const t v).
Proof.
  intros W T R V. destruct (make_const_spec t v T) as [Wc Tc Ec Oc _].
  split; [exact Wc|]. split; [exact Tc|]. split; [|auto]. intros env i. rewrite Ec, V. unfold cast_to.
  destruct (type_eqb _ _) eqn:E; [|reflexivity]. apply type_eqb_eq in E.
  apply cast_val_id; [apply T|]. apply (proj1 (in_type_element t v)). rewrite <- E. exact R.
Qed.

Lemma as_const_strip a : wf a = true ->
  as_const_int a = match strip_broadcast a with IntImm _ v => Some v | _ => None end /\
  as_const_uint a = match strip_broadcast a with UIntImm _ v => Some v | _ => None end.
Proof.
  intros W. destruct a; cbn; auto. cbn in W. destr_and.
  destruct a; cbn; auto. cbn in *. unfold vector_lanes, is_scalar in *. destr_and. cbn in *. zify_bool. lia.
Qed.

Lemma ev_strip a v : wf a = true ->
  match strip_broadcast a with IntImm _ w | UIntImm _ w => w = v | _ => False end ->
  in_type (type_of a) v /\ forall env i, ev env i a = v.
Proof.
  intros W H. split; [|intros env i].
  - pose proof (strip_imm (mkEnv (fun _ _ => 0) (fun _ _ => 0) (fun _ _ _ _ => 0)) 0 a W) as S.
    destruct (strip_broadcast a); try easy; subst; apply S.
  - pose proof (strip_imm env i a W) as S. destruct (strip_broadcast a); try easy; subst; apply S.
Qed.

(** Neither constant case applies. *)
Section CastNode.
Context (t : HType) (a : Expr) (W : wf a = true) (T : wf_type t).

Lemma cast_node : lanes (type_of a) = lanes t -> type_eqb (type_of a) t = false ->
  cast_spec t a (Cast t a).
Proof.
  intros L N. split; [cbn; rewrite W, (proj1 T), L; cbn; apply Z.eqb_refl|].
  split; [reflexivity|]. split; [|auto]. intros env i. cbn. unfold cast_to.
  destruct (type_eqb (element_of _) _) eqn:E; [|reflexivity]. apply type_eqb_eq in E.
  assert (type_of a = t) as Q.
  { rewrite <- (with_lanes_eta (type_of a) (lanes t)) by now symmetry. rewrite E. now apply with_lanes_eta. }
  rewrite Q, type_eqb_refl in N. discriminate.
Qed.
End CastNode.

Lemma cast_to_same t u a b v : element_of t = element_of u ->
  element_of (type_of a) = element_of (type_of b) -> cast_to t a v = cast_to u b v.
Proof.
  intros E F. unfold cast_to. rewrite E, F. destruct (type_eqb _ _); [reflexivity|].
  apply cast_val_elt. destruct t, u; cbn in *. injection E as -> ->. split; reflexivity.
Qed.

Lemma cast_scalar_ok t a : wf a = true -> wf_type t -> is_scalar t = true ->
  is_scalar (type_of a) = true -> cast_spec t a (cast_scalar t a).
Proof.
  intros W T St Sa. unfold cast_scalar. destruct (as_const_strip a W) as [Ei Eu].
  destruct (type_eqb (type_of a) t) eqn:Q.
  { apply type_eqb_eq in Q. split; [exact W|]. split; [exact Q|]. split; [|auto].
    intros. unfold cast_to. now rewrite Q, type_eqb_refl. }
  destruct (as_const_int a) as [v|] eqn:Ci; [|destruct (as_const_uint a) as [v|] eqn:Cu].
  - destruct (ev_strip a v W) as [R V]; [destruct (strip_broadcast a); congruence|].
    now apply cast_const.
  - destruct (ev_strip a v W) as [R V]; [destruct (strip_broadcast a); congruence|].
    now apply cast_const.
  - apply cast_node; auto. unfold is_scalar in *. zify_bool. lia.
Qed.

Lemma cast_ok t a : wf a = true -> wf_type t ->
  lanes (type_of a) = lanes t \/ is_scalar (type_of a) = true -> cast_spec t a (cast t a).
Proof.
  intros W T L. unfold cast. destruct (as_const_strip a W) as [Ei Eu].
  destruct (type_eqb (type_of a) t) eqn:Q.
  { apply type_eqb_eq in Q. split; [exact W|]. split; [exact Q|]. split; [|auto].
    intros. unfold cast_to. now rewrite Q, type_eqb_refl. }
  destruct (as_const_int a) as [v|] eqn:Ci; [|destruct (as_const_uint a) as [v|] eqn:Cu].
  - destruct (ev_strip a v W) as [R V]; [destruct (strip_broadcast a); congruence|].
    now apply cast_const.
  - destruct (ev_strip a v W) as [R V]; [destruct (strip_broadcast a); congruence|].
    now apply cast_const.
  - pose proof (wf_type_element t T) as Te.
    assert (Bc : is_vector t = true -> forall b, wf b = true -> is_scalar (type_of b) = true ->
      element_of (type_of a) = element_of (type_of b) ->
      (forall env i, ev env i a = ev env i b) -> (forall env i, ok env i a -> ok env i b) ->
      cast_spec t a (Broadcast (cast_scalar (element_of t) b) (lanes t))).
    { intros V b Wb Sb Eb Vb Ob.
      destruct (cast_scalar_ok (element_of t) b Wb Te eq_refl Sb) as (Wc & Tc & Ec & Oc).
      split; [cbn; now rewrite Wc, Tc, vector_valid|]. split; [cbn; rewrite Tc; now apply with_lanes_eta|].
      split; [|cbn; auto]. intros env i. cbn. rewrite Ec, Vb. symmetry. now apply cast_to_same. }
    destruct (is_vector t) eqn:V.
    + destruct (is_scalar (type_of a)) eqn:Sa; [now apply Bc|].
      destruct L as [L|L]; [|discriminate].
      destruct a; try now apply cast_node.
      cbn in W. destr_and. now apply Bc.
    + apply cast_node; auto. destruct L as [L|L]; [exact L|].
      unfold is_vector, is_scalar in *. zify_bool. lia.
Qed.

(** ** Patterns *)

(** The operands a replacement names exist. *)
Fixpoint args_within (n : nat) (p : Pat) : bool :=
  match p with
  | PArg k => Nat.ltb k n
  | PWild _ | PConst _ | PLit _ | PSpecific _ | PIndeterminate | POverflow => true
  | PBin _ a b | PCmp _ a b | PRamp a b _ => args_within n a && args_within n b
  | PSelect c t f => args_within n c && args_within n t && args_within n f
  | PNot a | PBroadcast a _ | PNeg a | PCast _ a | PFold a | POverflows a
  | PIntrin _ a | PIsConst a | PIsFloat a | PCanProve a => args_within n a
  end.

Section MakePattern.
Context {prover : Prover} (env : Env) (i : Z) (d : bool) (args : list Expr) (s : MatcherState).
Context (Hargs : Forall (sane env i d) args).

Abbreviation ρ := (valuation env i args s).
Abbreviation uses p := (uses env i d s p).

(** What is made. *)
Definition made (p : Pat) (h : HType) (e : Expr) : Prop :=
  wf e = true /\ type_of e = mty ρ p h /\
  (exact ρ p h = true -> ev env i e = pev ρ p h /\ (d = true -> pok ρ p h -> ok env i e)).

Definition make_ok (p : Pat) : Prop := forall h c,
  indices_ok p = true -> args_within (List.length args) p = true -> uses p ->
  mok ρ p h -> lane_count h ->
  exists e c', make args s p h c = (e, c') /\ made p h e.

Lemma made_lane_count p h e : made p h e -> lane_count (mty ρ p h).
Proof. intros (W & <- & _). apply valid_lane_count, (wf_wf_type e W). Qed.

Lemma made_wf_type p h e : made p h e -> wf_type (mty ρ p h).
Proof. intros (W & <- & _). now apply wf_wf_type. Qed.

Lemma sane_arg_k k : (k < List.length args)%nat -> sane env i d (arg args k).
Proof. intros K. rewrite Forall_forall in Hargs. now apply Hargs, nth_In. Qed.

Lemma sane_made e p h : sane env i d e -> type_of e = mty ρ p h -> ev env i e = pev ρ p h -> made p h e.
Proof.
  intros [W D] T V. split; [exact W|]. split; [exact T|]. intros _. split; [exact V|].
  intros Hd _. apply D, Hd.
Qed.

Lemma make_pair a b h c : make_ok a -> make_ok b ->
  indices_ok a = true -> indices_ok b = true ->
  args_within (List.length args) a = true -> args_within (List.length args) b = true ->
  uses a -> uses b -> lane_count h ->
  mok ρ a (hint_a ρ a b h) -> mok ρ b (hint_b ρ a b h) ->
  exists ea eb c1 c2, made a (hint_a ρ a b h) ea /\ made b (hint_b ρ a b h) eb /\
    if is_lit a
    then make args s b h c = (eb, c1) /\ make args s a (type_of eb) c1 = (ea, c2)
    else make args s a h c = (ea, c1) /\ make args s b (type_of ea) c1 = (eb, c2).
Proof.
  intros A B Na Nb Wa Wb Ua Ub L Oa Ob. unfold hint_a, hint_b in *. destruct (is_lit a).
  - destruct (B h c Nb Wb Ub Ob L) as (eb & c1 & Eb & Mb).
    destruct (A (mty ρ b h) c1 Na Wa Ua Oa) as (ea & c2 & Ea & Ma); [eauto using made_lane_count|].
    exists ea, eb, c1, c2. split; [exact Ma|]. split; [exact Mb|]. split; [exact Eb|].
    now rewrite (proj1 (proj2 Mb)).
  - destruct (A h c Na Wa Ua Oa L) as (ea & c1 & Ea & Ma).
    destruct (B (mty ρ a h) c1 Nb Wb Ub Ob) as (eb & c2 & Eb & Mb); [eauto using made_lane_count|].
    exists ea, eb, c1, c2. split; [exact Ma|]. split; [exact Mb|]. split; [exact Ea|].
    now rewrite (proj1 (proj2 Ma)).
Qed.

Lemma mty_bin op a b h : mty ρ (PBin op a b) h =
  bin_type op (join (mty ρ a (hint_a ρ a b h)) (mty ρ b (hint_b ρ a b h))).
Proof. unfold hint_a, hint_b. cbn. now destruct (is_lit a). Qed.

Lemma mty_cmp op a b h : mty ρ (PCmp op a b) h =
  BoolT (lanes (join (mty ρ a (hint_a ρ a b no_type)) (mty ρ b (hint_b ρ a b no_type)))).
Proof. unfold hint_a, hint_b. cbn. now destruct (is_lit a). Qed.

Lemma join_elt a b : same_elt (join a b) a.
Proof. unfold join. destruct (is_vector a); split; reflexivity. Qed.

Lemma evbin_elt op a b x y : same_elt a b -> evbin op a x y = evbin op b x y.
Proof. intros E. destruct op; cbn; auto using norm_elt. Qed.

Lemma bin_type_of op a b : type_of (EBin op a b) = bin_type op (type_of a).
Proof. now destruct op. Qed.

Lemma is_bool_same a b : same_elt a b -> is_bool a = is_bool b.
Proof. intros [C B]. unfold is_bool. now rewrite C, B. Qed.

Lemma made_bin op a b h ea eb : mok ρ (PBin op a b) h ->
  made a (hint_a ρ a b h) ea -> made b (hint_b ρ a b h) eb ->
  made (PBin op a b) h (EBin op (fst (match_lanes ea eb)) (snd (match_lanes ea eb))).
Proof.
  intros (_ & _ & C & Bo) (Wa & Ta & Va) (Wb & Tb & Vb). rewrite <- Ta, <- Tb in C.
  destruct (match_lanes_ok ea eb Wa Wb C) as [(Wa' & Ta' & Ea' & Oa') (Wb' & Tb' & Eb' & Ob')].
  split; [|split].
  - cbn [wf]. rewrite Wa', Wb', Ta', Tb', type_eqb_refl. cbn. destruct (is_bool_op op); [|reflexivity].
    rewrite (is_bool_same _ _ (join_elt _ _)), Ta. exact Bo.
  - rewrite bin_type_of, Ta', mty_bin. now rewrite Ta, Tb.
  - cbn [exact]. intros X. destr_and. destruct Va as [Va Oa], Vb as [Vb Ob]; auto.
    assert (V : ev env i (EBin op (fst (match_lanes ea eb)) (snd (match_lanes ea eb))) = pev ρ (PBin op a b) h).
    { cbn [ev pev]. rewrite Ea', Eb', Va, Vb, Ta', (evbin_elt _ _ _ _ _ (join_elt _ _)), Ta. reflexivity. }
    split; [exact V|]. intros Hd. cbn [pok]. intros (Pa & Pb & D). cbn [ok].
    split; [auto|]. split; [auto|]. rewrite Eb', Vb. destruct op; auto.
Qed.

Lemma made_cmp op a b h ea eb : mok ρ (PCmp op a b) h ->
  made a (hint_a ρ a b no_type) ea -> made b (hint_b ρ a b no_type) eb ->
  made (PCmp op a b) h (ECmp op (fst (match_lanes ea eb)) (snd (match_lanes ea eb))).
Proof.
  intros (_ & _ & C) (Wa & Ta & Va) (Wb & Tb & Vb). rewrite <- Ta, <- Tb in C.
  destruct (match_lanes_ok ea eb Wa Wb C) as [(Wa' & Ta' & Ea' & Oa') (Wb' & Tb' & Eb' & Ob')].
  split; [|split].
  - cbn [wf]. now rewrite Wa', Wb', Ta', Tb', type_eqb_refl.
  - rewrite mty_cmp. cbn [type_of]. now rewrite Ta', Ta, Tb.
  - cbn [exact]. intros X. destr_and. destruct Va as [Va Oa], Vb as [Vb Ob]; auto.
    split; [cbn [ev pev]; now rewrite Ea', Eb', Va, Vb|].
    intros Hd. cbn [pok ok]. intros [Pa Pb]. auto.
Qed.

Lemma made_select c t f h ec et ef : mok ρ (PSelect c t f) h ->
  made c no_type ec -> made t h et -> made f h ef ->
  made (PSelect c t f) h (Select ec et ef).
Proof.
  intros (_ & _ & _ & B & E & L) (Wc & Tc & Vc) (Wt & Tt & Vt) (Wf & Tf & Vf).
  split; [|split].
  - cbn [wf]. rewrite Wc, Wt, Wf, Tc, Tt, Tf, B, E, type_eqb_refl. cbn. rewrite <- E.
    apply orb_true_iff. destruct L as [L|L]; [auto|right; now apply Z.eqb_eq].
  - exact Tt.
  - cbn [exact]. intros X. destr_and. destruct Vc as [Vc Oc], Vt as [Vt Ot], Vf as [Vf Of]; auto.
    split; [cbn [ev pev]; now rewrite Vc, Vt, Vf|].
    intros Hd. cbn [pok ok]. intros (Pc & Pt & Pf). auto.
Qed.

Lemma made_ramp a b l h ea eb : mok ρ (PRamp a b l) h ->
  made a (hint_a ρ a b (with_lanes h 1)) ea -> made b (hint_b ρ a b (with_lanes h 1)) eb ->
  made (PRamp a b l) h (Ramp ea eb (known_or l h)).
Proof.
  intros (_ & _ & E & S & V) (Wa & Ta & Va) (Wb & Tb & Vb). split; [|split].
  - cbn [wf]. now rewrite Wa, Wb, Ta, Tb, <- E, S, V, type_eqb_refl.
  - cbn [type_of mty]. rewrite Ta. unfold hint_a. now destruct (is_lit a).
  - cbn [exact]. cbv zeta. intros X. destr_and. destruct Va as [Va Oa], Vb as [Vb Ob]; auto.
    split; [cbn [ev pev]; now rewrite Ta, Va, Vb|].
    intros Hd. cbn [pok ok]. intros [Pa Pb]. auto.
Qed.

Lemma made_neg a h ea : made a h ea -> made (PNeg a) h (EBin Sub (make_zero (type_of ea)) ea).
Proof.
  intros (W & T & V). destruct (make_zero_spec (type_of ea) (wf_wf_type ea W)) as [Wz Tz Ez Oz _].
  split; [|split].
  - cbn [wf]. now rewrite Wz, W, Tz, type_eqb_refl.
  - cbn [type_of]. now rewrite Tz.
  - cbn [exact]. intros X. destruct (V X) as [Va Oa].
    split; [cbn [ev pev evbin]; now rewrite Tz, Ez, Va, T|]. intros Hd. cbn [pok ok]. auto.
Qed.

Lemma made_cast t a h ea : mok ρ (PCast t a) h -> made a no_type ea -> made (PCast t a) h (cast t ea).
Proof.
  intros (_ & W & L) (Wa & Ta & Va). rewrite <- Ta in L.
  destruct (cast_ok t ea Wa W L) as (We & Te & Ee & Oe).
  split; [exact We|]. split; [exact Te|]. cbn [exact]. intros X. destruct (Va X) as [V O].
  split; [rewrite Ee; unfold cast_to; cbn [pev]; now rewrite Ta, V|].
  intros Hd. cbn [pok]. auto.
Qed.

Lemma made_likely name a h ea : is_likely_name name = true -> made a h ea ->
  made (PIntrin name a) h (make_likely name ea).
Proof.
  intros N (W & T & V). pose proof (wf_wf_type ea W) as [I VL].
  assert (L : is_likely name PureIntrinsic = true) by exact N.
  assert (P : is_poison name PureIntrinsic = false).
  { unfold is_likely_name in N. apply orb_true_iff in N. destruct N as [N|N]; apply String.eqb_eq in N; now subst. }
  split; [|split].
  - cbn [wf make_likely forallb]. now rewrite W, I, VL, L, type_eqb_refl.
  - exact T.
  - cbn [exact]. intros X. destruct (V X) as [Va Oa]. split; [cbn [ev make_likely]; now rewrite L|].
    intros Hd. cbn [pok ok make_likely]. auto.
Qed.

Lemma made_fold a h c : indices_ok a = true -> uses a -> fok ρ a h -> wf_type (fty ρ a h) ->
  lane_count h -> exists z T e c', make_folded_const args s a h c = ((VInt z, T), c) /\
    make_const_expr (VInt z) T c = (e, c') /\ made (PFold a) h e.
Proof.
  intros N U F W L.
  destruct (fold_sound env i d args s a h 0 c N F U L flags_0) as (r & E & z & f & -> & [Hf V] & X).
  rewrite or_lanes_0 in E. destruct (make_const_expr_ok _ W f Hf z c) as (e & c' & Ee & We & Te & Ve).
  exists z, (or_lanes (fty ρ a h) f), e, c'. split; [exact E|]. split; [exact Ee|].
  split; [exact We|]. split; [exact Te|]. cbn [exact pev]. unfold fexact. intros C.
  apply andb_true_iff in C. destruct C as [C _]. specialize (X eq_refl C).
  destruct (V X) as (_ & -> & R & _). destruct (Ve X R) as [E1 E2]. auto.
Qed.

Lemma make_fold_eq a h c : make args s (PFold a) h c =
  let '((v, t), c') := make_folded_const args s a h c in make_const_expr v t c'.
Proof. reflexivity. Qed.

Lemma make_sound p : make_ok p.
Proof.
  induction p; intros h c N A U O L; pose proof O as O'; cbn [indices_ok] in N;
    cbn [args_within] in A; cbn [mok] in O; try contradiction; destr_and;
    lazymatch goal with |- context [PFold] => idtac | _ => cbn [make] end.
  - eexists _, _. split; [reflexivity|]. apply sane_made; [|reflexivity..].
    apply U. cbn. now rewrite is_bound_wild_wild, Nat.eqb_refl.
  - apply Nat.ltb_lt in N. destruct (uses_const env i d s i0 N U) as [W (z & Ez & R)].
    destruct (make_const_expr_ok _ W 0 flags_0 z c) as (e & c' & E & We & Te & Ve).
    exists e, c'. rewrite Ez. rewrite or_lanes_0 in E. split; [exact E|].
    split; [exact We|]. split; [exact Te|]. intros _.
    destruct (Ve eq_refl) as [E1 E2]; [apply in_type_regular; [apply W|exact R]|].
    split; [|auto]. cbn. rewrite Ez, E1. apply cast_val_id; [apply W|exact R].
  - destruct (make_const_spec h v O) as [W T E Ok _]. eexists _, _. split; [reflexivity|].
    split; [exact W|]. split; [exact T|]. intros _. split; [apply E|auto].
  - eexists _, _. split; [reflexivity|]. split; [exact O|]. split; [reflexivity|].
    intros _. split; [reflexivity|]. auto.
  - apply Nat.ltb_lt in A. eexists _, _. split; [reflexivity|].
    apply sane_made; [now apply sane_arg_k|reflexivity..].
  - destruct (make_pair p1 p2 h c) as (ea & eb & c1 & c2 & Ma & Mb & E); eauto using uses_l, uses_r.
    pose proof (made_bin op p1 p2 h ea eb O' Ma Mb) as M.
    destruct (is_lit p1); destruct E as [E1 E2]; unfold ret; rewrite E1, E2;
      destruct (match_lanes ea eb) as [ea' eb']; eexists _, _; (split; [reflexivity|exact M]).
  - destruct (make_pair p1 p2 no_type c) as (ea & eb & c1 & c2 & Ma & Mb & E); eauto using uses_l, uses_r.
    { unfold lane_count, lanes_limit. cbn. lia. }
    pose proof (made_cmp op p1 p2 h ea eb O' Ma Mb) as M.
    destruct (is_lit p1); destruct E as [E1 E2]; unfold ret; rewrite E1, E2;
      destruct (match_lanes ea eb) as [ea' eb']; eexists _, _; (split; [reflexivity|exact M]).
  - destruct (IHp h c) as (ea & c1 & E & W & T & V); auto. unfold ret. rewrite E.
    eexists _, _. split; [reflexivity|]. split; [cbn [wf]; now rewrite W, T|].
    split; [cbn [type_of mty]; now rewrite T|]. cbn [exact]. intros X. destruct (V X) as [Va Oa].
    split; [cbn [ev pev]; now rewrite Va|]. intros Hd. cbn [pok ok]. auto.
  - destruct (IHp1 no_type c) as (ec & c1 & E1 & M1); auto.
    { apply state_ok_l, state_ok_l in U. exact U. } { unfold lane_count, lanes_limit. cbn. lia. }
    destruct (IHp2 h c1) as (et & c2 & E2 & M2); auto.
    { apply state_ok_l, state_ok_r in U. exact U. }
    destruct (IHp3 h c2) as (ef & c3 & E3 & M3); auto.
    { apply state_ok_r in U. exact U. }
    unfold ret. rewrite E1, E2, E3. eexists _, _. split; [reflexivity|]. now apply made_select.
  - destruct (IHp (with_lanes h 1) c) as (ea & c1 & E & W & T & V); auto.
    { unfold lane_count, lanes_limit. cbn. lia. }
    unfold ret. rewrite E. eexists _, _. split; [reflexivity|].
    split; [cbn [wf]; rewrite W, T; apply andb_true_iff; auto|].
    split; [cbn [type_of mty]; now rewrite T|]. cbn [exact]. intros X. destruct (V X) as [Va Oa].
    split; [exact Va|]. intros Hd. cbn [pok ok]. auto.
  - destruct (make_pair p1 p2 (with_lanes h 1) c) as (ea & eb & c1 & c2 & Ma & Mb & E);
      eauto using uses_l, uses_r.
    { unfold lane_count, lanes_limit. cbn. lia. }
    pose proof (made_ramp p1 p2 known_lanes h ea eb O' Ma Mb) as M.
    destruct (is_lit p1); destruct E as [E1 E2]; unfold ret; rewrite E1, E2;
      eexists _, _; (split; [reflexivity|exact M]).
  - destruct (IHp h c) as (ea & c1 & E & M); auto. unfold ret. rewrite E.
    eexists _, _. split; [reflexivity|]. now apply made_neg.
  - destruct (IHp no_type c) as (ea & c1 & E & M); auto; [unfold lane_count, lanes_limit; cbn; lia|].
    unfold ret. rewrite E. eexists _, _. split; [reflexivity|]. now apply made_cast.
  - destruct (made_fold p h c) as (z & T & e & c' & E & Ee & M); auto. rewrite make_fold_eq, E, Ee.
    eexists _, _. split; [reflexivity|exact M].
  - destruct (make_special_ok h O indeterminate_expression flags_indeterminate c) as (e & c' & E & W & T).
    exists e, c'. split; [exact E|]. split; [exact W|]. split; [exact T|]. discriminate.
  - destruct (make_special_ok h O signed_integer_overflow flags_overflow c) as (e & c' & E & W & T).
    exists e, c'. split; [exact E|]. split; [exact W|]. split; [exact T|]. discriminate.
  - destruct (IHp h c) as (ea & c1 & E & M); auto. unfold ret.
    match goal with H : is_likely_name _ = true |- _ => rename H into LN end.
    unfold is_likely_name in LN. rewrite LN, E. eexists _, _. split; [reflexivity|]. now apply made_likely.
Qed.
End MakePattern.

(** ** Predicates *)

(** What a run of the simplifier relies on.  [calm] is a property of its state
    that a step can only lose, [inv] one that the steps of a calm run keep. *)
Section Trust.
Context {prover : Prover}.

Record frames (calm inv : Simplifier -> Prop) : Prop := {
  calm_indeterminate : forall c, calm (snd (next_indeterminate c)) -> calm c;
  calm_overflow : forall c, calm (snd (next_overflow c)) -> calm c;
  calm_prove : forall e c, calm (snd (prove e c)) -> calm c;
  inv_indeterminate : forall c, inv c -> inv (snd (next_indeterminate c));
  inv_overflow : forall c, inv c -> inv (snd (next_overflow c));
  inv_prove : forall e c, calm (snd (prove e c)) -> inv c -> inv (snd (prove e c))
}.

(** On a calm run, an expression that [mutate] turns into one is true wherever
    it is free of undefined behaviour. *)
Record trusts (calm inv : Simplifier -> Prop) (env : Env) (i : Z) : Prop := {
  trusts_frames : frames calm inv;
  prove_right : forall e c, wf e = true -> lane_in (type_of e) i -> ok env i e -> inv c ->
    calm (snd (prove e c)) -> is_one (fst (prove e c)) = true -> ev env i e <> 0
}.

(** A run from one state to another that can be relied on. *)
Definition prover_sound (env : Env) (i : Z) (c c' : Simplifier) : Prop :=
  exists calm inv, trusts calm inv env i /\ inv c /\ calm c'.

(** The steps between two states keep this. *)
Definition leads (calm inv : Simplifier -> Prop) (c c' : Simplifier) : Prop :=
  calm c' -> calm c /\ (inv c -> inv c').

Lemma leads_refl calm inv c : leads calm inv c c.
Proof. unfold leads. auto. Qed.

Lemma leads_trans calm inv c1 c2 c3 : leads calm inv c1 c2 -> leads calm inv c2 c3 -> leads calm inv c1 c3.
Proof. unfold leads. intros H1 H2 C. destruct (H2 C) as [C2 I2]. destruct (H1 C2). auto. Qed.

Section Leads.
Context (calm inv : Simplifier -> Prop) (T : frames calm inv).

(** A computation all of whose runs lead on. *)
Definition leading {A} (m : M A) : Prop := forall c a c', m c = (a, c') -> leads calm inv c c'.

Lemma leading_ret {A} (a : A) : leading (ret a).
Proof. intros c b c' [= <- <-]. apply leads_refl. Qed.

Lemma leading_bind {A B} (m : M A) (k : A -> M B) : leading m -> (forall a, leading (k a)) ->
  leading (let! a := m in k a).
Proof.
  intros Hm Hk c b c'. destruct (m c) as [a c1] eqn:E. intros E2.
  exact (leads_trans _ _ _ _ _ (Hm _ _ _ E) (Hk _ _ _ _ E2)).
Qed.

Lemma leading_prove e : leading (prove e).
Proof.
  intros c a c' E C. replace c' with (snd (prove e c)) in * by now rewrite E.
  split; [now apply (calm_prove calm inv T e)|now apply (inv_prove calm inv T)].
Qed.

Lemma leading_indeterminate t : leading (make_indeterminate_expression t).
Proof.
  intros c a c'. unfold make_indeterminate_expression. destruct (next_indeterminate c) as [n c1] eqn:E.
  intros [= _ <-] C. replace c1 with (snd (next_indeterminate c)) in * by now rewrite E.
  split; [now apply (calm_indeterminate calm inv T)|now apply (inv_indeterminate calm inv T)].
Qed.

Lemma leading_overflow t : leading (make_signed_integer_overflow t).
Proof.
  intros c a c'. unfold make_signed_integer_overflow. destruct (next_overflow c) as [n c1] eqn:E.
  intros [= _ <-] C. replace c1 with (snd (next_overflow c)) in * by now rewrite E.
  split; [now apply (calm_overflow calm inv T)|now apply (inv_overflow calm inv T)].
Qed.

Lemma leading_const_expr v t : leading (make_const_expr v t).
Proof.
  unfold make_const_expr, make_const_special_expr.
  repeat case_goal; auto using leading_ret, leading_indeterminate, leading_overflow.
Qed.
(** Making and folding a pattern. *)
Lemma leading_make args s p : (forall t, leading (make args s p t)) /\
  (forall t, leading (make_folded_const args s p t)).
Proof.
  induction p; repeat match goal with H : _ /\ _ |- _ => destruct H end;
    split; intros h; cbn [make make_folded_const];
    repeat first [ apply leading_ret | apply leading_prove | apply leading_const_expr
                 | apply leading_bind; [first [now auto|apply leading_prove]|intros ?] | now auto | case_goal ].
  all: try (unfold make_const_special_expr; case_goal; auto using leading_indeterminate, leading_overflow).
Qed.

Lemma leading_predicate args s p : leading (evaluate_predicate args s p).
Proof.
  unfold evaluate_predicate. apply leading_bind; [apply leading_make|]. intros [v u]. apply leading_ret.
Qed.

Lemma leading_fires e r : leading (rule_fires e r).
Proof.
  unfold rule_fires. repeat case_goal; try apply leading_ret.
  apply leading_bind; [apply leading_predicate|]. intros. apply leading_ret.
Qed.

Lemma leading_rewrite e t rules : leading (rewrite e t rules).
Proof.
  induction rules as [|r rules IH]; cbn [rewrite]; [apply leading_ret|].
  apply leading_bind; [apply leading_fires|]. intros [s|]; [|exact IH].
  apply leading_bind; [apply leading_make|]. intros. apply leading_ret.
Qed.
End Leads.
End Trust.

#[export] Hint Resolve leads_refl leading_ret leading_prove leading_const_expr leading_indeterminate
  leading_overflow : halide.

(** Connectives join tests. *)
Fixpoint pred_shape (p : Pat) : bool :=
  match p with
  | PBin (And | Or) a b => negb (is_lit a) && pred_shape a && pred_shape b
  | PNot a => pred_shape a
  | PCmp _ _ _ | POverflows _ | PIsConst _ | PIsFloat _ | PCanProve _ => true
  | _ => false
  end.

Section Predicates.
Context {prover : Prover} (env : Env) (i : Z) (args : list Expr) (s : MatcherState).
Context (Hargs : Forall (sane env i true) args).
Context (calm inv : Simplifier -> Prop) (Trust : trusts calm inv env i).

Abbreviation ρ := (valuation env i args s).
Abbreviation uses p := (uses env i true s p).

Lemma fold_is_const_eq a t c : make_folded_const args s (PIsConst a) t c =
  let '(e, c') := make args s a no_type c in ((VBool (is_const e), UInt 64 1), c').
Proof. reflexivity. Qed.

Lemma fold_is_float_eq a t c : make_folded_const args s (PIsFloat a) t c =
  let '(e, c') := make args s a no_type c in
  ((VBool (is_float (type_of e)), BoolT (lanes (type_of e))), c').
Proof. reflexivity. Qed.

Lemma fold_can_prove_eq a t c : make_folded_const args s (PCanProve a) t c =
  let '(e, c1) := make args s a no_type c in
  let '(e', c2) := prove e c1 in ((VBool (is_one e'), BoolT (lanes (type_of e'))), c2).
Proof. reflexivity. Qed.

Lemma pred_code p : forall t c v T c', pred_shape p = true ->
  make_folded_const args s p t c = ((v, T), c') -> code T = CUInt.
Proof.
  induction p; intros h c v' T c' S E; try discriminate S; cbn [pred_shape] in S;
    rewrite ?fold_is_const_eq, ?fold_is_float_eq, ?fold_can_prove_eq in E;
    cbn [make_folded_const] in E; unfold ret in E.
  - assert (exists k, op = k /\ (k = And \/ k = Or)) as (k & -> & K) by (destruct op; eauto; discriminate).
    assert (negb (is_lit p1) && pred_shape p1 && pred_shape p2 = true) as S' by (destruct K; subst; exact S).
    destr_and. apply negb_true_iff in H. rewrite H in E.
    destruct (make_folded_const args s p1 h c) as [[va t1] c1] eqn:E1.
    destruct (short_circuits k va).
    + injection E as <- <- <-. eauto.
    + destruct (make_folded_const args s p2 t1 c1) as [[vb t2] c2] eqn:E2.
      pose proof (IHp2 _ _ _ _ _ ltac:(assumption) E2) as C.
      injection E as E _. unfold constant_fold_bin_op in E. cbn [code or_lanes with_lanes] in E.
      rewrite C in E. destruct K; subst k; cbn in E; injection E as _ <-; exact C.
  - destruct (is_lit p1).
    + destruct (make_folded_const args s p2 h c) as [[va t1] c1].
      destruct (make_folded_const args s p1 t1 c1) as [[vb t2] c2]. now injection E as _ <- _.
    + destruct (make_folded_const args s p1 h c) as [[va t1] c1].
      destruct (make_folded_const args s p2 t1 c1) as [[vb t2] c2]. now injection E as _ <- _.
  - destruct (make_folded_const args s p h c) as [[va t1] c1] eqn:E1.
    pose proof (IHp _ _ _ _ _ S E1) as C. injection E as _ <- _.
    unfold flag_if. case_goal; exact C.
  - destruct (make_folded_const args s p h c) as [[va t1] c1]. now injection E as _ <- _.
  - destruct (make args s p no_type c) as [e c1]. now injection E as _ <- _.
  - destruct (make args s p no_type c) as [e c1]. now injection E as _ <- _.
  - destruct (make args s p no_type c) as [e c1]. destruct (prove e c1). now injection E as _ <- _.
Qed.

Lemma special_lor t n : special (or_lanes t n) = false ->
  special t = false /\ Z.land n special_values_mask = 0.
Proof.
  unfold special. cbn. rewrite !negb_false_iff, !Z.eqb_eq, Z.land_lor_distr_l. apply Z.lor_eq_0_iff.
Qed.

Lemma special_mask t : Z.land (lanes t) special_values_mask = 0 -> special t = false.
Proof. unfold special. now intros ->. Qed.

(** Folding keeps what the prover relies on. *)
Lemma fold_leads p t c r c' : make_folded_const args s p t c = (r, c') -> leads calm inv c c'.
Proof. apply (leading_make calm inv (trusts_frames _ _ _ _ Trust)). Qed.

Definition pred_ok (p : Pat) : Prop := forall t c v T c',
  indices_ok p = true -> args_within (List.length args) p = true -> uses p -> pred_shape p = true ->
  make_folded_const args s p t c = ((v, T), c') -> inv c -> calm c' ->
  as_u64 v <> 0 -> special T = false -> pholds ρ p.

Lemma lane_count_no_type : lane_count no_type.
Proof. unfold lane_count, lanes_limit. cbn. lia. Qed.

(** A fold that raises no flag is clean. *)
Lemma fold_pred a t c v T c' : indices_ok a = true -> uses a -> fok ρ a no_type ->
  make_folded_const args s a t c = ((v, T), c') -> special T = false ->
  fclean ρ a no_type = true /\ v = VInt (fval ρ a no_type).
Proof.
  intros N U F E Sp. rewrite (fold_hint env i args s a t c F) in E.
  destruct (fold_sound env i true args s a no_type 0 c N F U lane_count_no_type flags_0)
    as (r & E' & z & f & -> & [Hf V] & _).
  rewrite or_lanes_0, E in E'. injection E' as -> -> ->.
  pose proof (fold_good env i true args s a no_type N F U lane_count_no_type) as [_ L].
  rewrite (special_or _ f L Hf) in Sp. apply negb_false_iff, Z.eqb_eq in Sp.
  destruct (V Sp) as (C & -> & _). auto.
Qed.

Lemma pred_cmp op a b : pred_ok (PCmp op a b).
Proof.
  intros t c v T c' N A U S E _ _ NZ Sp F.
  destruct (fold_pred (PCmp op a b) t c v T c' N U F E Sp) as [C ->].
  split; [exact C|]. cbn [fval as_u64] in NZ.
  destruct (evcmp op _ _); [reflexivity|]. exfalso. now apply NZ.
Qed.

Lemma pred_overflows a : pred_ok (PNot (POverflows a)).
Proof.
  intros t c v T c' N A U S E _ _ NZ Sp F. cbn [make_folded_const] in E. unfold ret in E.
  destruct (make_folded_const args s a t c) as [[va t1] c1] eqn:E1. injection E as <- _ _.
  cbn in N, U. destruct (special t1) eqn:S1; [exfalso; now apply NZ|].
  now apply (fold_pred a t c va t1 c1 N U F E1 S1).
Qed.

Lemma pred_can_prove a : pred_ok (PCanProve a).
Proof.
  intros t c v T c' N A U S E Ic Cc NZ Sp O L X P. rewrite fold_can_prove_eq in E.
  cbn in N, A, U.
  destruct (make_sound env i true args s Hargs a no_type c N A U O lane_count_no_type)
    as (e & c1 & E1 & W & T1 & V). rewrite E1 in E.
  destruct (V X) as [Va Oa]. rewrite <- Va.
  destruct (prove e c1) as [e' c2] eqn:E2. injection E as <- _ <-.
  replace c2 with (snd (prove e c1)) in Cc by now rewrite E2.
  pose proof (proj1 (leading_make calm inv (trusts_frames _ _ _ _ Trust) args s a) _ _ _ _ E1
    (calm_prove calm inv (trusts_frames _ _ _ _ Trust) e c1 Cc)) as [_ Ic1].
  apply (prove_right calm inv env i Trust e c1); auto; [now rewrite T1|]. rewrite E2. cbn [fst].
  destruct (is_one e'); [reflexivity|]. exfalso. now apply NZ.
Qed.

Lemma pred_and a b : pred_ok a -> pred_ok b -> pred_ok (PBin And a b).
Proof.
  intros Ha Hb t c v T c' N A U S E Ic Cc NZ Sp. cbn in N, A. cbn [pred_shape] in S. destr_and.
  apply negb_true_iff in H. cbn [pholds]. rewrite H.
  cbn [make_folded_const] in E. unfold ret in E. rewrite H in E.
  destruct (make_folded_const args s a t c) as [[va t1] c1] eqn:E1.
  destruct (short_circuits And va) eqn:SC; cbn in SC.
  { injection E as <- _ _. exfalso. apply NZ. now apply Z.eqb_eq. }
  destruct (make_folded_const args s b t1 c1) as [[vb t2] c2] eqn:E2.
  pose proof (pred_code b _ _ _ _ _ ltac:(assumption) E2) as C.
  injection E as E <-. destruct (fold_leads b _ _ _ _ E2 Cc) as [Cc1 _].
  destruct (fold_leads a _ _ _ _ E1 Cc1) as [_ Ic1].
  unfold constant_fold_bin_op in E. cbn [code or_lanes with_lanes] in E.
  rewrite C in E. cbn in E. injection E as <- <-.
  apply special_lor in Sp. destruct Sp as [S2 S1]. apply special_mask in S1.
  split; [apply (Ha _ _ _ _ _ ltac:(assumption) ltac:(assumption) (uses_l _ _ _ _ _ _ U) ltac:(assumption) E1)
         |apply (Hb _ _ _ _ _ ltac:(assumption) ltac:(assumption) (uses_r _ _ _ _ _ _ U) ltac:(assumption) E2)]; auto.
  - now apply Z.eqb_neq.
  - intros Z0. apply NZ. rewrite Z0, Z.land_0_r. reflexivity.
Qed.

Lemma pred_or a b : pred_ok a -> pred_ok b -> pred_ok (PBin Or a b).
Proof.
  intros Ha Hb t c v T c' N A U S E Ic Cc NZ Sp. cbn in N, A. cbn [pred_shape] in S. destr_and.
  apply negb_true_iff in H. cbn [pholds]. rewrite H.
  cbn [make_folded_const] in E. unfold ret in E. rewrite H in E.
  destruct (make_folded_const args s a t c) as [[va t1] c1] eqn:E1.
  assert (HA : calm c1 -> as_u64 va <> 0 -> special t1 = false -> pholds ρ a).
  { intros C1. apply (Ha t c va t1 c1); eauto using uses_l. }
  destruct (short_circuits Or va) eqn:SC; cbn in SC.
  { injection E as <- <- <-. auto. }
  destruct (make_folded_const args s b t1 c1) as [[vb t2] c2] eqn:E2.
  assert (HB : inv c1 -> calm c2 -> as_u64 vb <> 0 -> special t2 = false -> pholds ρ b).
  { intros I1 C2. apply (Hb t1 c1 vb t2 c2); eauto using uses_r. }
  pose proof (pred_code b _ _ _ _ _ ltac:(assumption) E2) as C.
  injection E as E <-. destruct (fold_leads b _ _ _ _ E2 Cc) as [Cc1 _].
  destruct (fold_leads a _ _ _ _ E1 Cc1) as [_ Ic1].
  unfold constant_fold_bin_op in E. cbn [code or_lanes with_lanes] in E.
  rewrite C in E. cbn in E. injection E as <- <-.
  apply special_lor in Sp. destruct Sp as [S2 S1]. apply special_mask in S1.
  destruct (Z.eq_dec (as_u64 va) 0) as [Z0|]; [|left; auto].
  right. apply HB; [auto|auto| |exact S2]. intros Z1. apply NZ. rewrite Z0, Z1. reflexivity.
Qed.

Lemma pred_sound p : pred_ok p.
Proof.
  induction p; try (intros t' c v' T c' N A U S; discriminate S); auto using pred_cmp, pred_can_prove;
    try (intros t' c v' T c' N A U S E _ _ NZ Sp; exact Logic.I).
  - destruct op; try (intros t' c v' T c' N A U S; discriminate S); auto using pred_and, pred_or.
  - destruct p; auto using pred_overflows; intros t' c v' T c' N A U S E _ _ NZ Sp; exact Logic.I.
Qed.

Lemma evaluate_predicate_sound p c c' :
  indices_ok p = true -> args_within (List.length args) p = true -> uses p -> pred_shape p = true ->
  evaluate_predicate args s p c = (true, c') -> inv c -> calm c' -> pholds ρ p.
Proof.
  intros N A U S. unfold evaluate_predicate, ret.
  destruct (make_folded_const args s p (BoolT 1) c) as [[v T] c1] eqn:E. intros [= H <-] Ic Cc.
  apply andb_true_iff in H. destruct H as [V Sp].
  apply negb_true_iff, Z.eqb_neq in V. apply negb_true_iff in Sp.
  eapply pred_sound; eauto.
Qed.
End Predicates.
