(* ===== verification/RuleSound.v ===== *)
(** * Rewriters are sound

    A table of well typed rules rewrites a well-formed expression to a
    well-formed expression of the same type; a table of sound rules to one of
    the same value. *)

From Stdlib Require Import ZArith Lia Bool List String.
From S2P Require Import Prelude.
From S2P Require Import IntArith.
From S2P Require Import ModulusRemainder.
From S2P Require Import HalideTypes.
From S2P Require Import IR.
From S2P Require Import IRMatch.
From S2P Require Import RuleSem.
From S2P Require Import MatchSound.
From S2P Require Import FoldSound.
From S2P Require Import MakeSound.
Import ListNotations.
Open Scope Z_scope.

(** The operands an instance of the pattern has. *)
Definition root_arity (p : Pat) : nat :=
  match p with PBin _ _ _ | PCmp _ _ _ => 2 | PSelect _ _ _ => 3 | PNot _ => 1 | _ => 0 end.

(** The static assertions, and what the templates make sure of by typing:
    replacements name operands that exist, connectives join tests. *)
Definition rule_checked (r : Rule) : bool :=
  rule_static r && args_within (root_arity (before r)) (after r) &&
  match pred r with
  | Some p => indices_ok p && args_within (root_arity (before r)) p && pred_shape p
  | None => true
  end && indices_ok (after r).

(** A rule is sound unless it is one of the listed exceptions. *)
Definition sound_unless (exceptions : list Rule) (ty T : HType) (r : Rule) : Prop :=
  ~ In r exceptions -> rule_sound ty T r.

Lemma sound_sound_unless l ty T rules :
  Forall (rule_sound ty T) rules -> Forall (sound_unless l ty T) rules.
Proof. apply Forall_impl. intros r S _. exact S. Qed.

Lemma args_within_le n m p : (n <= m)%nat -> args_within n p = true -> args_within m p = true.
Proof.
  intros L. induction p; cbn; auto; intros; destr_and; rewrite ?andb_true_iff; auto.
  apply Nat.ltb_lt in H. apply Nat.ltb_lt. lia.
Qed.

Lemma root_arity_operands bound p e s s' : match_pat bound p e s = Some s' ->
  (root_arity p <= List.length (operands e))%nat.
Proof.
  destruct p; cbn; try lia; destruct e; try discriminate; cbn; intros; lia.
Qed.

Lemma binds_within_bits a b k : binds_within a b = true ->
  Z.testbit (binds b) k = true -> Z.testbit (binds a) k = true.
Proof.
  unfold binds_within. rewrite Z.eqb_eq. intros E B. rewrite <- E, Z.land_spec in B.
  now apply andb_true_iff in B.
Qed.

Lemma state_ok_within env i d a b s : binds_within a b = true ->
  state_ok env i d (binds a) s -> state_ok env i d (binds b) s.
Proof.
  intros W [B C]. split.
  - intros k K. apply B. unfold is_bound_wild in *. eapply binds_within_bits; eauto.
  - intros k L K. apply C; auto. unfold is_bound in *. eapply binds_within_bits; eauto.
Qed.

Section Fired.
Context {prover : Prover} (env : Env) (i : Z) (d : bool).
Context (e : Expr) (S : sane env i d e) (rules : list Rule).

Lemma sane_operands : Forall (sane env i d) (operands e).
Proof.
  destruct e; cbn; auto.
  - apply sane_bin in S. destruct S. auto.
  - apply sane_cmp in S. destruct S. auto.
  - apply sane_not in S. auto.
  - apply sane_select in S. destruct S as (? & ? & ?). auto.
Qed.

(** The rule that fires is in the table and matched. *)
Lemma rewrite_fired T c r s e' c' : rewrite e T rules c = (Some (r, s, e'), c') ->
  In r rules /\ match_pat 0 (before r) e initial_state = Some s /\
  exists c1 c2, rule_fires e r c1 = (Some s, c2) /\
                make (operands e) s (after r) T c2 = (e', c') /\
                forall calm inv, frames calm inv -> leads calm inv c c1.
Proof.
  revert c. induction rules as [|r0 rs IH]; intros c; cbn [rewrite]; [discriminate|].
  destruct (rule_fires e r0 c) as [[s0|] c1] eqn:F.
  - destruct (make (operands e) s0 (after r0) T c1) as [e0 c2] eqn:K. unfold ret.
    intros [= <- <- <- <-]. split; [now left|]. split.
    + unfold rule_fires in F. destruct (match_pat 0 (before r0) e initial_state); [|discriminate].
      unfold ret in F. destruct (pred r0); [|now injection F as <- _].
      destruct (evaluate_predicate (operands e) m p c) as [[] c0]; congruence.
    + exists c, c1. auto with halide.
  - intros R. destruct (IH c1 R) as (I & M & c2 & c3 & F2 & K & L). split; [now right|]. split; [exact M|].
    exists c2, c3. split; [exact F2|]. split; [exact K|]. intros calm inv Tr.
    apply (leads_trans _ _ _ c1); [|now apply (L calm inv)].
    exact (leading_fires calm inv Tr e r0 _ _ _ F).
Qed.
End Fired.

Section Sound.
Context {prover : Prover} (e : Expr) (W : wf e = true) (rules : list Rule).
Context (Checked : forallb rule_checked rules = true).

Abbreviation T := (type_of e).
Abbreviation ty := (wildcard_type e).

Lemma rule_checked_in r : In r rules -> rule_checked r = true.
Proof. revert r. now apply forallb_forall. Qed.

(** What firing a rule says of its valuation. *)
Lemma fired_valuation env i d c r s e' c' : sane env i d e ->
  rewrite e T rules c = (Some (r, s, e'), c') ->
  root_match (valuation env i (operands e) s) d ty (before r) T (ev env i e) /\
  (mok (valuation env i (operands e) s) (after r) T -> made env i d (operands e) s (after r) T e') /\
  (d = true -> prover_sound env i c c' -> pred_holds (valuation env i (operands e) s) r).
Proof.
  intros S R. destruct (rewrite_fired e rules T c r s e' c' R) as (I & M & c1 & c2 & F & K & Ld).
  pose proof (rule_checked_in r I) as C. unfold rule_checked, rule_static in C. destr_and.
  pose proof (sane_operands env i d e S) as A.
  destruct (match_final env i (operands e) d (before r) e initial_state s) as [O _]; auto.
  pose proof (root_arity_operands _ _ _ _ _ M) as N.
  split; [apply root_sound; auto|]. split.
  - intros Ok. destruct (make_sound env i d (operands e) s A (after r) T c2) as (e1 & c3 & E & Md); auto.
    + eapply args_within_le; eauto.
    + eapply state_ok_within; eauto.
    + apply valid_lane_count, (wf_wf_type e W).
    + rewrite K in E. now injection E as <- _.
  - intros -> (calm & inv & Tr & Ic & Cc). unfold pred_holds, rule_fires in *. rewrite M in F. destruct (pred r) as [p|]; [|exact Logic.I].
    destr_and. unfold ret in F.
    destruct (evaluate_predicate (operands e) s p c1) as [[] c3] eqn:E; [|discriminate].
    injection F as <-. destruct (proj1 (leading_make calm inv (trusts_frames _ _ _ _ Tr) _ _ _) _ _ _ _ K Cc) as [C3 _].
    destruct (leading_predicate calm inv (trusts_frames _ _ _ _ Tr) _ _ _ _ _ _ E C3) as [C1 _].
    pose proof (proj2 (Ld calm inv (trusts_frames _ _ _ _ Tr) C1) Ic) as Ic1.
    eapply (evaluate_predicate_sound env i (operands e) s A calm inv Tr p); eauto.
    + eapply args_within_le; eauto.
    + eapply state_ok_within; eauto.
Qed.

(** Types are preserved whatever the values. *)
Lemma rewrite_typed c r s e' c' : Forall (rule_typed ty T) rules ->
  rewrite e T rules c = (Some (r, s, e'), c') -> wf e' = true /\ type_of e' = T.
Proof.
  intros Typed R. set (env := mkEnv (fun _ _ => 0) (fun _ _ => 0) (fun _ _ _ _ => 0)).
  assert (S : sane env 0 false e) by (split; [exact W|discriminate]).
  destruct (fired_valuation env 0 false c r s e' c' S R) as (M & Md & _).
  destruct (rewrite_fired e rules T c r s e' c' R) as (I & _).
  rewrite Forall_forall in Typed. destruct (Typed r I _ _ M) as [Ok Ty].
  destruct (Md Ok) as (W' & T' & _). split; [exact W'|]. now rewrite T'.
Qed.

(** Values are preserved where the instance is free of undefined behaviour
    and the folds of the replacement do not overflow. *)
Lemma rewrite_sound l env i c r s e' c' :
  Forall (rule_typed ty T) rules -> Forall (sound_unless l ty T) rules ->
  rewrite e T rules c = (Some (r, s, e'), c') -> ~ In r l ->
  defined env i e -> lane_in T i -> prover_sound env i c c' ->
  exact (valuation env i (operands e) s) (after r) T = true ->
  ok env i e' /\ ev env i e' = ev env i e.
Proof.
  intros Typed Sound R N D L P X.
  assert (S : sane env i true e) by (split; auto).
  destruct (fired_valuation env i true c r s e' c' S R) as (M & Md & Ph).
  destruct (rewrite_fired e rules T c r s e' c' R) as (I & _).
  rewrite Forall_forall in Typed, Sound.
  assert (M' : root_match (valuation env i (operands e) s) false ty (before r) T (ev env i e)).
  { apply (fired_valuation env i false c r s e' c'); auto. split; [exact W|discriminate]. }
  destruct (Typed r I _ _ M') as [Ok _]. destruct (Md Ok) as (_ & _ & V).
  destruct (V X) as [V1 V2].
  destruct (Sound r I N _ _ M L) as [Po Pv]; auto.
  split; [auto|]. now rewrite V1.
Qed.
End Sound.
