(* ===== verification/Visit.v ===== *)
(** * What the visitors of the simplifier share

    A visit method (src/Simplify_Add.cpp and its siblings) gets the simplified
    operands, puts those of a commutative node in a canonical order, tries a
    table of rules whose result it returns, then one whose result it simplifies
    again, and otherwise remakes the node. *)

From Stdlib Require Import ZArith Lia Bool List String.
From S2P Require Import Prelude.
From S2P Require Import IntArith.
From S2P Require Import ModulusRemainder.
From S2P Require Import HalideTypes.
From S2P Require Import IR.
From S2P Require Import IREquality.
From S2P Require Import IRMatch.
From S2P Require Import RuleSem.
From S2P Require Import MatchSound.
From S2P Require Import FoldSound.
From S2P Require Import MakeSound.
From S2P Require Import RuleSound.
Import ListNotations.
Open Scope Z_scope.

(** [Simplify::may_simplify]; the flag is a field of the simplifier. *)
Definition may_simplify (no_float_simplify : bool) (t : HType) : bool :=
  negb no_float_simplify || negb (is_float t).

(** The name of a variable. *)
Definition variable_name (e : Expr) : string := match e with EVariable _ n => n | _ => "" end.

(** [Simplify::should_commute]. *)
Definition should_commute (a b : Expr) : bool :=
  if node_type a <? node_type b then true
  else if node_type b <? node_type a then false
  else if node_type a =? 6 then
    match String.compare (variable_name a) (variable_name b) with Gt => true | _ => false end
  else false.

Definition commute (a b : Expr) : Expr * Expr := if should_commute a b then (b, a) else (a, b).

(** ** Slices *)

Fixpoint is_ramp (indices : list Z) (stride : Z) : bool :=
  match indices with
  | i :: ((j :: _) as l) => (j =? i + stride) && is_ramp l stride
  | _ => true
  end.

Definition slice_stride (indices : list Z) : Z :=
  match indices with i :: j :: _ => j - i | _ => 1 end.

Definition total_lanes (vs : list Expr) : Z := fold_right (fun u n => lanes (type_of u) + n) 0 vs.

(** [Shuffle::is_slice]. *)
Definition is_slice (vectors : list Expr) (indices : list Z) : bool :=
  (Z.of_nat (List.length indices) <? total_lanes vectors) && is_ramp indices (slice_stride indices).

Definition slices (e : Expr) : option (list Expr * list Z) :=
  match e with
  | Shuffle vs ixs => if is_slice vs ixs then Some (vs, ixs) else None
  | _ => None
  end.

Definition same_types (l1 l2 : list Expr) : bool :=
  list_eqb (fun a b => type_eqb (type_of a) (type_of b)) l1 l2.

Definition zip_bin (op : BinOp) (l1 l2 : list Expr) : list Expr :=
  map (fun p => EBin op (fst p) (snd p)) (combine l1 l2).

(** [Simplify::hoist_slice_vector]: the same slice of two vectors is the slice
    of their combination. *)
Definition hoist_slice_vector (op : BinOp) (a b : Expr) : Expr :=
  match slices a, slices b with
  | Some (va, ia), Some (vb, ib) =>
      if list_eqb Z.eqb ia ib && same_types va vb then Shuffle (zip_bin op va vb) ia
      else EBin op a b
  | _, _ => EBin op a b
  end.

(** ** Steps *)

(** How a visit ends: with the result of a rule that is returned, or of one that
    is mutated again (each with the instance rewritten, the rule and the state it
    fired with), with another expression to mutate again, or with the node. *)
Inductive Step :=
| Returned (inst : Expr) (r : Rule) (s : MatcherState) (e : Expr)
| Mutated (inst : Expr) (r : Rule) (s : MatcherState) (e : Expr)
| Resumed (e : Expr)
| Kept (e : Expr).

Definition step_expr (st : Step) : Expr :=
  match st with Returned _ _ _ e | Mutated _ _ _ e | Resumed e | Kept e => e end.

Section Tables.
Context {prover : Prover}.

Definition apply_tables (inst : Expr) (done again : list Rule) (otherwise : Expr) : M Step :=
  let! r1 := rewrite inst (type_of inst) done in
  match r1 with
  | Some (r, s, e) => ret (Returned inst r s e)
  | None =>
      let! r2 := rewrite inst (type_of inst) again in
      match r2 with
      | Some (r, s, e) => ret (Mutated inst r s e)
      | None => ret (Kept otherwise)
      end
  end.

(** The tables in the other order. *)
Definition apply_tables_again_first (inst : Expr) (again done : list Rule) (otherwise : Expr)
    : M Step :=
  let! r1 := rewrite inst (type_of inst) again in
  match r1 with
  | Some (r, s, e) => ret (Mutated inst r s e)
  | None =>
      let! r2 := rewrite inst (type_of inst) done in
      match r2 with
      | Some (r, s, e) => ret (Returned inst r s e)
      | None => ret (Kept otherwise)
      end
  end.
End Tables.

(** Trying the tables keeps what the prover relies on. *)
Section LeadingTables.
Context {prover : Prover} (calm inv : Simplifier -> Prop) (T : frames calm inv).

Lemma leading_tables inst done again otherwise :
  leading calm inv (apply_tables inst done again otherwise) /\
  leading calm inv (apply_tables_again_first inst again done otherwise).
Proof.
  unfold apply_tables, apply_tables_again_first.
  split; (apply leading_bind; [now apply (leading_rewrite calm inv)|]);
    intros [[[r s] e]|]; try apply leading_ret;
    (apply leading_bind; [now apply (leading_rewrite calm inv)|]);
    intros [[[r s] e]|]; apply leading_ret.
Qed.
End LeadingTables.

(** ** What a step promises *)

(** The rule that fired is none of the [exceptions], and the folds of its
    replacement do not overflow. *)
Definition step_exact (exceptions : list Rule) (env : Env) (i : Z) (st : Step) : Prop :=
  match st with
  | Returned inst r s _ | Mutated inst r s _ =>
      ~ In r exceptions /\
      exact (valuation env i (operands inst) s) (after r) (type_of inst) = true
  | Resumed _ | Kept _ => True
  end.

(** The step leads from [e] to a well-formed expression of the same type, ... *)
Definition step_typed (e : Expr) (st : Step) : Prop :=
  wf (step_expr st) = true /\ type_of (step_expr st) = type_of e.

(** ... of the same value, when [e] is free of undefined behaviour. *)
Definition same_meaning (env : Env) (i : Z) (e e' : Expr) : Prop :=
  ok env i e' /\ ev env i e' = ev env i e.

(** A table with its two proof obligations; the exceptions are rules that
    fail the second. *)
Record good_tables (exceptions : list Rule) (ty T : HType) (rules : list Rule) : Prop := {
  tables_checked : forallb rule_checked rules = true;
  tables_typed : Forall (rule_typed ty T) rules;
  tables_sound : Forall (sound_unless exceptions ty T) rules
}.

(** Tables are composed of groups of rules, some under a test of the type. *)
Section GoodTables.
Context (exceptions : list Rule) (ty T : HType).

Lemma good_app l1 l2 : good_tables exceptions ty T l1 -> good_tables exceptions ty T l2 ->
  good_tables exceptions ty T (l1 ++ l2).
Proof.
  intros [C1 T1 S1] [C2 T2 S2]. split.
  - now rewrite forallb_app, C1, C2.
  - apply Forall_app. auto.
  - apply Forall_app. auto.
Qed.

Lemma good_when b l : (b = true -> good_tables exceptions ty T l) ->
  good_tables exceptions ty T (when b l).
Proof. destruct b; cbn; auto. split; auto. Qed.

(** A group without exceptions. *)
Lemma good_group l : forallb rule_checked l = true -> Forall (rule_typed ty T) l ->
  Forall (rule_sound ty T) l -> good_tables exceptions ty T l.
Proof. split; auto using sound_sound_unless. Qed.
End GoodTables.

#[export] Hint Resolve good_app good_when : halide.

Section StepSound.
Context {prover : Prover} (inst : Expr) (W : wf inst = true) (exceptions : list Rule).
Context (done again : list Rule) (otherwise : Expr).
Context (GD : good_tables exceptions (wildcard_type inst) (type_of inst) done).
Context (GA : good_tables exceptions (wildcard_type inst) (type_of inst) again).

(** A step fires a rule of a good table, on the way from [c] to [c'], or keeps
    the node. *)
Definition fired_step (c c' : Simplifier) (st : Step) : Prop :=
  (exists rules r s e c1,
    good_tables exceptions (wildcard_type inst) (type_of inst) rules /\
    (st = Returned inst r s e \/ st = Mutated inst r s e) /\
    rewrite inst (type_of inst) rules c1 = (Some (r, s, e), c') /\
    forall calm inv, frames calm inv -> leads calm inv c c1) \/ st = Kept otherwise.

Lemma apply_tables_fired c st c' : apply_tables inst done again otherwise c = (st, c') -> fired_step c c' st.
Proof.
  unfold apply_tables, ret. destruct (rewrite inst (type_of inst) done c) as [[[[r s] e]|] c1] eqn:E1.
  - intros [= <- <-]. left. exists done, r, s, e, c. auto with halide.
  - destruct (rewrite inst (type_of inst) again c1) as [[[[r s] e]|] c2] eqn:E2;
      intros [= <- <-]; [left|now right]. exists again, r, s, e, c1. split; [exact GA|]. split; [auto|].
    split; [exact E2|]. intros calm inv Tr. exact (leading_rewrite calm inv Tr _ _ _ _ _ _ E1).
Qed.

Lemma apply_tables_first_fired c st c' :
  apply_tables_again_first inst again done otherwise c = (st, c') -> fired_step c c' st.
Proof.
  unfold apply_tables_again_first, ret.
  destruct (rewrite inst (type_of inst) again c) as [[[[r s] e]|] c1] eqn:E1.
  - intros [= <- <-]. left. exists again, r, s, e, c. auto with halide.
  - destruct (rewrite inst (type_of inst) done c1) as [[[[r s] e]|] c2] eqn:E2;
      intros [= <- <-]; [left|now right]. exists done, r, s, e, c1. split; [exact GD|]. split; [auto|].
    split; [exact E2|]. intros calm inv Tr. exact (leading_rewrite calm inv Tr _ _ _ _ _ _ E1).
Qed.

Lemma fired_typed c c' st : wf otherwise = true -> type_of otherwise = type_of inst ->
  fired_step c c' st -> step_typed inst st.
Proof.
  intros Wo To [(rules & r & s & e & c1 & [C Ty _] & St & R & _)| ->]; [|now split].
  destruct (rewrite_typed inst W rules C c1 r s e c' Ty R) as [We Te].
  destruct St as [-> | ->]; now split.
Qed.

Lemma fired_sound env i c c' st : defined env i inst -> lane_in (type_of inst) i ->
  prover_sound env i c c' -> same_meaning env i inst otherwise ->
  fired_step c c' st -> step_exact exceptions env i st -> same_meaning env i inst (step_expr st).
Proof.
  intros D L (calm & inv & Tr & Ic & Cc) So [(rules & r & s & e & c1 & [C Ty Sd] & St & R & Ld)| ->] X; [|exact So].
  assert (P : prover_sound env i c1 c').
  { exists calm, inv. split; [exact Tr|]. split; [|exact Cc]. apply (Ld calm inv (trusts_frames _ _ _ _ Tr)); [|exact Ic].
    exact (proj1 (leading_rewrite calm inv (trusts_frames _ _ _ _ Tr) _ _ _ _ _ _ R Cc)). }
  destruct St as [-> | ->]; destruct X as [N X];
    exact (rewrite_sound inst W rules C exceptions env i c1 r s e c' Ty Sd R N D L P X).
Qed.
End StepSound.

(** ** Slices keep their meaning *)

Definition slice_op (op : BinOp) : bool :=
  match op with Add | Sub | Mul | Min | Max => true | _ => false end.

(** Two vectors of operands of the same types, all of one element type. *)
Definition sliced (t : HType) (va vb : list Expr) : Prop :=
  Forall2 (fun a b => wf a = true /\ wf b = true /\ type_of a = type_of b /\
                      element_of (type_of a) = element_of t) va vb.

Lemma slice_op_type op a b : slice_op op = true -> type_of (EBin op a b) = type_of a.
Proof. now destruct op. Qed.

Lemma zip_bin_cons op a b va vb : zip_bin op (a :: va) (b :: vb) = EBin op a b :: zip_bin op va vb.
Proof. reflexivity. Qed.

Section Slices.
Context (op : BinOp) (So : slice_op op = true) (t : HType).

Lemma zip_wf va vb : sliced t va vb -> forallb wf (zip_bin op va vb) = true.
Proof.
  induction 1 as [|a b va vb (Wa & Wb & T & _) _ IH]; [reflexivity|].
  rewrite zip_bin_cons. cbn [forallb wf]. rewrite Wa, Wb, T, type_eqb_refl, IH. now destruct op.
Qed.

Lemma zip_elements va vb : sliced t va vb ->
  forallb (fun u => type_eqb (element_of (type_of u)) (element_of t)) (zip_bin op va vb) = true.
Proof.
  induction 1 as [|a b va vb (_ & _ & _ & E) _ IH]; [reflexivity|].
  rewrite zip_bin_cons. cbn [forallb]. rewrite slice_op_type, E, type_eqb_refl by assumption. exact IH.
Qed.

Lemma zip_lanes va vb : sliced t va vb -> total_lanes (zip_bin op va vb) = total_lanes va.
Proof.
  induction 1 as [|a b va vb _ _ IH]; [reflexivity|].
  rewrite zip_bin_cons. unfold total_lanes in *. cbn [fold_right].
  now rewrite slice_op_type, IH.
Qed.

Lemma zip_pick env va vb : int_type t = true -> sliced t va vb -> forall k,
  pick env (zip_bin op va vb) k = evbin op t (pick env va k) (pick env vb k).
Proof.
  intros I. induction 1 as [|a b va vb (_ & _ & T & E) _ IH]; intros k.
  - assert (norm t 0 = 0) as N.
    { apply norm_id; [exact I|]. pose proof (tmin_tmax_width t I). unfold in_type. lia. }
    cbn. destruct op; try discriminate So; cbn; now rewrite ?N.
  - rewrite zip_bin_cons. cbn [pick]. rewrite slice_op_type by assumption. rewrite <- T.
    destruct (k <? lanes (type_of a)); [|apply IH]. cbn [ev].
    apply evbin_elt. destruct (type_of a), t; cbn in *. injection E as -> ->. split; reflexivity.
Qed.

Lemma zip_ok env va vb : sliced t va vb ->
  ok env 0 (Shuffle va []) -> ok env 0 (Shuffle vb []) -> ok env 0 (Shuffle (zip_bin op va vb) []).
Proof.
  induction 1 as [|a b va vb (_ & _ & T & _) _ IH]; [auto|]. rewrite zip_bin_cons.
  intros [A OA] [B OB]. split; [|now apply IH].
  intros j J. rewrite slice_op_type in J by assumption. split; [auto|]. split; [apply B; now rewrite <- T|]. now destruct op.
Qed.
End Slices.

Lemma ok_shuffle env i vs ixs : ok env i (Shuffle vs ixs) <-> ok env 0 (Shuffle vs []).
Proof. reflexivity. Qed.

Lemma same_types_sliced va vb ia ib t : wf (Shuffle va ia) = true -> wf (Shuffle vb ib) = true ->
  same_types va vb = true -> t = type_of (Shuffle va ia) -> sliced t va vb.
Proof.
  intros Wa Wb S ->. apply list_eqb_Forall2 in S.
  destruct va as [|a0 va]; [cbn in Wa; discriminate|].
  cbn [wf] in Wa, Wb. apply andb_true_iff in Wa, Wb. destruct Wa as [Wa Ha], Wb as [Wb _].
  destr_and. rewrite forallb_forall in Wa, Wb, H. clear - S Wa Wb H.
  change (element_of (type_of a0)) with (element_of (type_of (Shuffle (a0 :: va) ia))) in H.
  set (t := type_of (Shuffle (a0 :: va) ia)) in *. clearbody t.
  induction S as [|a b la lb E _ IH]; constructor.
  - split; [apply Wa; now left|]. split; [apply Wb; now left|].
    split; [now apply type_eqb_eq|]. apply type_eqb_eq, H. now left.
  - apply IH; intros; auto using in_cons.
Qed.

Lemma slices_eq e vs ixs : slices e = Some (vs, ixs) -> e = Shuffle vs ixs.
Proof. destruct e; cbn; try discriminate. case_goal; [now intros [= -> ->]|discriminate]. Qed.

Lemma wf_bin_inv op a b : wf (EBin op a b) = true ->
  wf a = true /\ wf b = true /\ type_of b = type_of a.
Proof. cbn. intros W. destr_and. split; [assumption|]. split; [assumption|]. symmetry. now apply type_eqb_eq. Qed.

(** The hoisted slice has the type and the value of the node. *)
Lemma hoist_sound op a b : slice_op op = true -> wf (EBin op a b) = true ->
  step_typed (EBin op a b) (Kept (hoist_slice_vector op a b)) /\
  forall env i, ok env i (EBin op a b) -> same_meaning env i (EBin op a b) (hoist_slice_vector op a b).
Proof.
  intros So W. assert (Id : step_typed (EBin op a b) (Kept (EBin op a b)) /\
    forall env i, ok env i (EBin op a b) -> same_meaning env i (EBin op a b) (EBin op a b)).
  { split; [now split|]. now split. }
  unfold hoist_slice_vector. destruct (slices a) as [[va ia]|] eqn:Sa; [|exact Id].
  destruct (slices b) as [[vb ib]|] eqn:Sb; [|exact Id].
  apply slices_eq in Sa, Sb. subst a b.
  destruct (list_eqb Z.eqb ia ib && same_types va vb) eqn:E; [|exact Id]. clear Id.
  apply andb_true_iff in E. destruct E as [E S]. apply list_eqb_Z in E. subst ib.
  destruct (wf_bin_inv _ _ _ W) as (Wa & Wb & _). set (t := type_of (Shuffle va ia)).
  assert (Sl : sliced t va vb) by now apply (same_types_sliced va vb ia ia).
  assert (Ty : type_of (Shuffle (zip_bin op va vb) ia) = t).
  { unfold t. clear - Sl So. destruct va as [|a0 va], vb as [|b0 vb]; try (now inversion Sl).
    rewrite zip_bin_cons. change (with_lanes (type_of (EBin op a0 b0)) (Z.of_nat (List.length ia)) =
      with_lanes (type_of a0) (Z.of_nat (List.length ia))). now rewrite slice_op_type. }
  split.
  - split; [|cbn [step_expr]; now rewrite Ty, slice_op_type].
    cbn [step_expr].
    cbn [wf]. rewrite (zip_wf op So t) by assumption. cbn [andb].
    pose proof (zip_lanes op So t va vb Sl) as L. unfold total_lanes in L.
    cbn [wf] in Wa. apply andb_true_iff in Wa. destruct Wa as [_ Wa].
    destruct va as [|a0 va]; [discriminate|]. inversion Sl as [|x b0 y vb']; subst.
    rewrite zip_bin_cons in *. apply andb_true_iff in Wa. destruct Wa as [Wa R].
    apply andb_true_iff in Wa. destruct Wa as [_ V].
    rewrite L, R, Ty. unfold t. rewrite V. rewrite !andb_true_r, slice_op_type by assumption.
    rewrite <- zip_bin_cons. exact (zip_elements op So t _ _ Sl).
  - intros env i (Oa & Ob & _). split.
    + apply ok_shuffle in Oa, Ob. apply ok_shuffle. now apply (zip_ok op So t).
    + change (ev env i (Shuffle (zip_bin op va vb) ia) =
        evbin op t (ev env i (Shuffle va ia)) (ev env i (Shuffle vb ia))). rewrite !ev_shuffle.
      apply (zip_pick op So t); [|exact Sl].
      now apply (wf_wf_type (Shuffle va ia)).
Qed.

Lemma bool_type t : is_bool t = true -> BoolT (lanes t) = t.
Proof.
  unfold is_bool, BoolT, UInt. intros B. destr_and. destruct t as [c b l]. cbn in *.
  destruct c; try discriminate. f_equal. lia.
Qed.

(** ** Correct visits *)

Section Correct.
Context {prover : Prover} {c c' : Simplifier}.

(** What a visit of [e] that ends in the step [st], on the way from the state
    [c] to [c'] of the simplifier, promises: a well-formed
    expression of the same type, and wherever [e] is free of undefined
    behaviour, what is [known] of the operands holds, the prover is right and
    no exception is met, the same value. *)
Definition correct_when (known : Env -> Z -> Prop) (exceptions : list Rule) (e : Expr) (st : Step)
    : Prop :=
  step_typed e st /\
  forall env i, defined env i e -> lane_in (type_of e) i -> known env i -> prover_sound env i c c' ->
    step_exact exceptions env i st -> same_meaning env i e (step_expr st).

Definition correct_step : list Rule -> Expr -> Step -> Prop := correct_when (fun _ _ => True).

Lemma correct_step_when known exceptions e st :
  correct_step exceptions e st -> correct_when known exceptions e st.
Proof. intros [T S]. split; [exact T|]. intros. now apply S. Qed.

(** More may be known. *)
Lemma correct_known (K K' : Env -> Z -> Prop) exceptions e st : (forall env i, K' env i -> K env i) ->
  correct_when K exceptions e st -> correct_when K' exceptions e st.
Proof. intros H [T S]. split; [exact T|]. intros. apply S; auto. Qed.

(** A visit that ends early with a known result. *)
Lemma correct_early known exceptions e r : wf r = true -> type_of r = type_of e ->
  (forall env i, defined env i e -> lane_in (type_of e) i -> known env i -> same_meaning env i e r) ->
  correct_when known exceptions e (Kept r).
Proof. intros W T S. split; [now split|]. intros. now apply S. Qed.

Lemma correct_resumed known exceptions e r :
  correct_when known exceptions e (Kept r) -> correct_when known exceptions e (Resumed r).
Proof. intros C. exact C. Qed.

(** A visit that ends early with a constant. *)
Lemma const_correct known exceptions e v : wf e = true ->
  (forall env i, defined env i e -> known env i -> ev env i e = v) ->
  correct_when known exceptions e (Kept (make_const (type_of e) v)).
Proof.
  intros W V. destruct (make_const_spec (type_of e) v (wf_wf_type e W)) as [Wc Tc Ec Oc _].
  apply correct_early; auto. intros env i D _ K. split; [apply Oc|].
  rewrite Ec, <- (V env i D K). apply cast_val_id; [apply (wf_wf_type e W)|]. apply fits_in_type, D.
Qed.

(** A visit that ends early with a truth value. *)
Lemma const_bool_correct known exceptions e (b : bool) : is_bool (type_of e) = true -> wf e = true ->
  (forall env i, defined env i e -> known env i -> ev env i e = b2z b) ->
  correct_when known exceptions e
    (Kept (if b then const_true (lanes (type_of e)) else const_false (lanes (type_of e)))).
Proof.
  intros B W V. pose proof (const_correct known exceptions e (b2z b) W V) as C.
  rewrite <- (bool_type _ B) in C. now destruct b.
Qed.

(** [inst] stands for [e]: its operands may be in another order. *)
Definition stands_for (e inst : Expr) : Prop :=
  wf inst = true /\ type_of inst = type_of e /\
  forall env i, ev env i inst = ev env i e /\ (defined env i e -> defined env i inst).

(** What is kept when no rule fires. *)
Definition keeps_node (inst otherwise : Expr) : Prop :=
  step_typed inst (Kept otherwise) /\
  forall env i, defined env i inst -> same_meaning env i inst otherwise.

Lemma stands_for_refl e : wf e = true -> stands_for e e.
Proof. intros W. split; [exact W|]. split; [reflexivity|]. auto. Qed.

Lemma keeps_node_refl e : wf e = true -> keeps_node e e.
Proof. intros W. split; [now split|]. intros env i [O _]. now split. Qed.

Lemma correct_kept exceptions e inst otherwise : stands_for e inst -> keeps_node inst otherwise ->
  correct_step exceptions e (Kept otherwise).
Proof.
  intros (W & T & H) [[Wo To] K]. split; [split; [exact Wo|now rewrite <- T]|].
  intros env i D _ _ _ _. destruct (H env i) as [V D']. destruct (K env i (D' D)) as [O' V']. split; [exact O'|]. cbn [step_expr] in *. now rewrite V', V.
Qed.

Lemma correct_fired exceptions e inst otherwise st : stands_for e inst ->
  keeps_node inst otherwise -> fired_step inst exceptions otherwise c c' st -> correct_step exceptions e st.
Proof.
  intros (W & T & H) [Ko K] F. split.
  - destruct (fired_typed inst W exceptions otherwise c c' st (proj1 Ko) (proj2 Ko) F) as [W' T'].
    split; [exact W'|]. now rewrite T'.
  - intros env i D L _ P X. destruct (H env i) as [V D']. rewrite <- T in L.
    destruct (fired_sound inst W exceptions otherwise env i c c' st (D' D) L P) as [O' V']; auto.
    split; [exact O'|]. now rewrite V', V.
Qed.

Lemma correct_tables exceptions e inst done again otherwise st : stands_for e inst ->
  keeps_node inst otherwise ->
  good_tables exceptions (wildcard_type inst) (type_of inst) done ->
  good_tables exceptions (wildcard_type inst) (type_of inst) again ->
  apply_tables inst done again otherwise c = (st, c') -> correct_step exceptions e st.
Proof.
  intros S K GD GA E. apply (correct_fired exceptions e inst otherwise); auto.
  exact (apply_tables_fired inst exceptions done again otherwise GD GA c st c' E).
Qed.

Lemma correct_tables_first exceptions e inst done again otherwise st : stands_for e inst ->
  keeps_node inst otherwise ->
  good_tables exceptions (wildcard_type inst) (type_of inst) done ->
  good_tables exceptions (wildcard_type inst) (type_of inst) again ->
  apply_tables_again_first inst again done otherwise c = (st, c') -> correct_step exceptions e st.
Proof.
  intros S K GD GA E. apply (correct_fired exceptions e inst otherwise); auto.
  exact (apply_tables_first_fired inst exceptions done again otherwise GD GA c st c' E).
Qed.

(** What is proved of [inst] carries over to [e] where both have the same value. *)
Lemma correct_transfer known exceptions e inst st : type_of inst = type_of e ->
  (forall env i, defined env i e -> known env i ->
     defined env i inst /\ ev env i inst = ev env i e) ->
  correct_when known exceptions inst st -> correct_when known exceptions e st.
Proof.
  intros T H [[W' T'] S]. split; [split; [exact W'|now rewrite T']|].
  intros env i D L K P X. destruct (H env i D K) as [D' V]. rewrite <- T in L.
  destruct (S env i D' L K P X) as [O E]. split; [exact O|]. now rewrite E.
Qed.
End Correct.

Arguments correct_when {prover} c c'.
Arguments correct_step {prover} c c'.


(** Steps before the one a visit ends with. *)
Lemma prover_sound_later {prover : Prover} env i c c1 c' :
  (forall calm inv, frames calm inv -> leads calm inv c c1) ->
  (forall calm inv, frames calm inv -> leads calm inv c1 c') ->
  prover_sound env i c c' -> prover_sound env i c1 c'.
Proof.
  intros L1 L2 (calm & inv & Tr & Ic & Cc). exists calm, inv. split; [exact Tr|]. split; [|exact Cc].
  destruct (L2 calm inv (trusts_frames _ _ _ _ Tr) Cc) as [C1 _]. now apply (L1 calm inv (trusts_frames _ _ _ _ Tr) C1).
Qed.

Lemma correct_later {prover : Prover} c c1 c' known exceptions e st :
  (forall calm inv, frames calm inv -> leads calm inv c c1) ->
  (forall calm inv, frames calm inv -> leads calm inv c1 c') ->
  correct_when c1 c' known exceptions e st -> correct_when c c' known exceptions e st.
Proof.
  intros L1 L2 [T S]. split; [exact T|]. intros env i D L K P X. apply S; auto.
  now apply (prover_sound_later env i c).
Qed.

(** ** Facts *)

(** The [truths] and [falsehoods] of the simplifier. *)
Record Facts := mkFacts { truths : list Expr; falsehoods : list Expr }.

Definition facts_hold (facts : Facts) (env : Env) (i : Z) : Prop :=
  (forall e, In e (truths facts) -> ev env i e = 1) /\
  (forall e, In e (falsehoods facts) -> ev env i e = 0).

Lemma truth_found facts env i e : wf e = true -> facts_hold facts env i ->
  count (truths facts) e = true -> ev env i e = 1.
Proof. intros W [H _] C. apply H, count_In; assumption. Qed.

Lemma falsehood_found facts env i e : wf e = true -> facts_hold facts env i ->
  count (falsehoods facts) e = true -> ev env i e = 0.
Proof. intros W [_ H] C. apply H, count_In; assumption. Qed.

(** [e'] is what [mutate] returned for the operand [e]. *)
Definition simplified (e e' : Expr) (env : Env) (i : Z) : Prop :=
  defined env i e' /\ ev env i e' = ev env i e.

Definition commutes (op : BinOp) : bool :=
  match op with Add | Mul | Min | Max | And | Or => true | _ => false end.

(** Exchanging the operands of a commutative node changes nothing. *)
Lemma swap_stands_for op a b : commutes op = true -> wf (EBin op a b) = true ->
  stands_for (EBin op a b) (EBin op b a).
Proof.
  intros C W. destruct (wf_bin_inv op a b W) as (Wa & Wb & T).
  assert (Ty : type_of (EBin op b a) = type_of (EBin op a b)) by (rewrite !bin_type_of, T; reflexivity).
  assert (V : forall env i, ev env i (EBin op b a) = ev env i (EBin op a b)).
  { intros env i. cbn [ev]. rewrite T. destruct op; try discriminate C; cbn [evbin];
      [f_equal; lia|f_equal; lia|apply Z.min_comm|apply Z.max_comm
      |f_equal; apply andb_comm|f_equal; apply orb_comm]. }
  split; [|split; [exact Ty|]].
  - cbn in W |- *. rewrite T in *. destr_and. rewrite Wa, Wb, type_eqb_refl. cbn. assumption.
  - intros env i. split; [apply V|]. intros [(Oa & Ob & _) F]. split; [cbn; destruct op; easy|].
    cbn [fits] in F |- *. rewrite Ty, V. tauto.
Qed.

Lemma commute_stands_for op a b a' b' : commutes op = true -> wf (EBin op a b) = true ->
  commute a b = (a', b') -> stands_for (EBin op a b) (EBin op a' b').
Proof.
  unfold commute. intros C W. case_goal; intros [= <- <-];
    [now apply swap_stands_for|now apply stands_for_refl].
Qed.

Lemma hoist_keeps op a b : slice_op op = true -> wf (EBin op a b) = true ->
  keeps_node (EBin op a b) (hoist_slice_vector op a b).
Proof.
  intros So W. destruct (hoist_sound op a b So W) as [T S]. split; [exact T|].
  intros env i [O _]. auto.
Qed.

#[export] Hint Resolve stands_for_refl keeps_node_refl hoist_keeps : halide.

(** ** Zeros *)

(** The intrinsics [is_zero] looks through keep zero. *)
Definition masks_keep_zero (env : Env) : Prop := forall name t i l,
  name = bool_to_mask_name \/ name = cast_mask_name -> ext env name t i (0 :: l) = 0.

Lemma is_zero_value env : masks_keep_zero env -> forall e i, wf e = true -> is_zero e = true -> ev env i e = 0.
Proof.
  intros M. unfold is_zero. induction e using Expr_ind'; intros i W Z; cbn [is_small_const] in Z; try discriminate;
    try (now apply Z.eqb_eq in Z).
  - cbn [wf] in W. destr_and. cbn [ev]. rewrite IHe by assumption. now apply cast_val_0.
  - cbn [wf] in W. destr_and. cbn [ev]. auto.
  - apply andb_true_iff in Z. destruct Z as [N Z]. destruct args as [|a l]; [discriminate|].
    inversion H as [|a' l' Ha _]; subst. destruct (wf_wf_type _ W) as [I _]. cbn [type_of] in I.
    apply wf_call in W. cbn [forallb] in W. apply andb_true_iff in W. destruct W as [W _].
    assert (E : n = bool_to_mask_name \/ n = cast_mask_name).
    { apply orb_true_iff in N. unfold is_intrinsic in N. destruct ct; destruct N as [N|N]; try discriminate N;
        apply String.eqb_eq in N; auto. }
    assert (L : is_likely n ct = false) by (destruct E as [-> | ->]; now destruct ct).
    assert (V : cast_val t (ext env n t (lane_of t i) (map (ev env i) (a :: l))) = 0).
    { cbn [map]. rewrite (Ha i) by assumption. rewrite M by exact E. now apply cast_val_0. }
    cbn [ev]. rewrite L. destruct l; exact V.
Qed.

(** ** Concrete instances *)

(** The two static counters that make poison expressions unique. *)
Record Counters := mkCounters { n_indeterminate : Z; n_overflow : Z }.

(** A prover that recognizes nothing but the literal [true]. *)
Definition literal_prover : Prover := {|
  Simplifier := Counters;
  next_indeterminate c := (n_indeterminate c, mkCounters (n_indeterminate c + 1) (n_overflow c));
  next_overflow c := (n_overflow c, mkCounters (n_indeterminate c) (n_overflow c + 1));
  prove e c := (match e with UIntImm _ _ => e | _ => const_false 1 end, c)
|}.

Lemma literal_prover_sound env i (c c' : Counters) : prover_sound (prover := literal_prover) env i c c'.
Proof.
  exists (fun _ => True), (fun _ => True). split; [|now split]. split; [now split|].
  intros e d _ _ _ _ _. destruct e; cbn; try discriminate. intros E. apply Z.eqb_eq in E. lia.
Qed.

(** Every variable is its lane plus seven, every cell of memory is zero. *)
Definition sample_env : Env := mkEnv (fun _ i => i + 7) (fun _ _ => 0) (fun _ _ _ _ => 0).

Definition int_var (name : string) : Expr := EVariable (Int 32 1) name.
Definition bool_var (name : string) : Expr := EVariable (BoolT 1) name.
Definition int_imm (v : Z) : Expr := IntImm (Int 32 1) v.
Definition no_counters : Counters := mkCounters 0 0.

(** Membership in a congruence class, decided. *)
Lemma mr_contains_eval a v :
  (if modulus a =? 0 then v =? remainder a else (v - remainder a) mod modulus a =? 0) = true ->
  mr_contains a v.
Proof.
  unfold mr_contains. destruct (Z.eqb_spec (modulus a) 0) as [->|N]; rewrite Z.eqb_eq; intros E.
  - exists 0. lia.
  - now apply Z.mod_divide.
Qed.

(** Evaluates the side conditions of a concrete instance. *)
Ltac concrete := repeat first
  [ exact I | apply mr_contains_eval; vm_compute; reflexivity | apply literal_prover_sound | reflexivity | discriminate
  | match goal with
    | |- ~ In _ _ => let H := fresh in intros H; vm_compute in H;
        repeat (destruct H as [H|H]; [discriminate H|]); exact H
    | H : In _ (truths _) |- _ => cbn in H
    | H : In _ (falsehoods _) |- _ => cbn in H
    | H : _ \/ False |- _ => destruct H as [<-|[]]
    end
  | split | progress intros | vm_compute; reflexivity | vm_compute; discriminate | left; reflexivity ].
