(* ===== verification/TableTac.v ===== *)
(** * Groups of rules

    The tactics that check a group of a rewrite table: its static assertions,
    that every rule is well typed, and that every rule is sound. *)

From Stdlib Require Import ZArith Lia Bool List String.
From S2P Require Import Prelude.
From S2P Require Import IntArith.
From S2P Require Import ModulusRemainder.
From S2P Require Import HalideTypes.
From S2P Require Import IR.
From S2P Require Import IRMatch.
From S2P Require Import RuleSem.
From S2P Require Import Euclid.
From S2P Require Import RuleTac.
From S2P Require Import MatchSound.
From S2P Require Import FoldSound.
From S2P Require Import MakeSound.
From S2P Require Import RuleSound.
From S2P Require Import Visit.
Import ListNotations.
Open Scope string_scope.
Open Scope Z_scope.

(** Proves a property of each rule of a list. *)
Ltac each_rule tac := repeat (apply Forall_cons; [solve [tac]|]); apply Forall_nil.

(** A group that applies at every type, ... *)
Ltac plain_group :=
  apply good_group; [reflexivity|each_rule ltac:(typed_rule)|each_rule ltac:(modular_rule)].

(** ... and one guarded by [G], that the type does not overflow. *)
Ltac wide_group G :=
  apply good_group;
  [reflexivity|each_rule ltac:(first [solve [typed_rule]|wide_typed_rule G])|each_rule ltac:(wide_rule G)].

(** A group all of whose rules are exceptions. *)
Lemma good_exceptions l ty T rules : forallb rule_checked rules = true ->
  Forall (rule_typed ty T) rules -> incl rules l -> good_tables l ty T rules.
Proof.
  intros C Ty I. split; auto. apply Forall_forall. intros r R N. exfalso. auto.
Qed.

(** A group whose rules are exceptions under a test of the type. *)
Lemma good_unless b ty T rules : forallb rule_checked rules = true ->
  Forall (rule_typed ty T) rules -> (b = false -> Forall (rule_sound ty T) rules) ->
  good_tables (when b rules) ty T rules.
Proof.
  intros C Ty S. destruct b; [now apply good_exceptions|]. apply good_group; auto.
Qed.

(** Composes a table from its groups. *)
Ltac good_table := repeat first [apply good_app | apply good_when; intros].

(** Rounding an unsigned value down to a multiple does not wrap. *)
Lemma round_down_unsigned T v c : wf_type T -> is_int T = false -> in_type T v -> 0 < c ->
  norm T (norm T (ediv v c) * c) <= v.
Proof.
  intros [I _] U R C. assert (N : no_overflow_int T = false) by (unfold no_overflow_int; now rewrite U).
  assert (Rv : 0 <= v) by (unfold in_type, tmin in R; rewrite U in R; lia).
  pose proof (ediv_emod v c ltac:(lia)) as D. pose proof (emod_bound v c ltac:(lia)) as B.
  assert (0 <= ediv v c <= v) by nia.
  assert (In : forall a, 0 <= a <= v -> in_type T a) by (unfold in_type, tmin in *; rewrite U in *; lia).
  rewrite (norm_id T (ediv v c)), (norm_id T (ediv v c * c)); auto; try apply In; nia.
Qed.

Ltac round_down_rule U :=
  prepare; use_preds; clean_hyps; split; [exact I|];
  match goal with |- context [norm ?T (norm ?T (ediv ?v ?c) * ?c)] =>
    pose proof (round_down_unsigned T v c ltac:(assumption) U ltac:(assumption) ltac:(assumption)); lia end.

(** ** The rewriter as a whole *)

(** C4: The rewriter on a table whose rules are typed and
    sound: the rule that fires is one of the table, the replacement has the type
    of the expression, and, where the expression is free of undefined behaviour
    and the folds of the replacement do not overflow, its value. *)
Theorem rewriter_correct {prover : Prover} e rules c r s e' c' : wf e = true ->
  forallb rule_checked rules = true ->
  Forall (rule_typed (wildcard_type e) (type_of e)) rules ->
  Forall (rule_sound (wildcard_type e) (type_of e)) rules ->
  rewrite e (type_of e) rules c = (Some (r, s, e'), c') ->
  In r rules /\ wf e' = true /\ type_of e' = type_of e /\
  forall env i, defined env i e -> lane_in (type_of e) i -> prover_sound env i c c' ->
    exact (valuation env i (operands e) s) (after r) (type_of e) = true ->
    ok env i e' /\ ev env i e' = ev env i e.
Proof.
  intros W C Ty Sd R. destruct (rewrite_fired e rules (type_of e) c r s e' c' R) as (I & _).
  destruct (rewrite_typed e W rules C c r s e' c' Ty R) as [We Te].
  split; [exact I|]. split; [exact We|]. split; [exact Te|]. intros env i D L P X.
  apply (rewrite_sound e W rules C [] env i c r s e' c'); auto.
  eapply Forall_impl; [|exact Sd]. intros q Q _. exact Q.
Qed.

(** [x + 0 -> x], as a table. *)
Definition sample_rules : list Rule := [ mkRule (PBin Add (PWild 0) (PLit 0)) (PWild 0) None ].

Lemma sample_rules_typed ty T : Forall (rule_typed ty T) sample_rules.
Proof. unfold sample_rules. each_rule ltac:(typed_rule). Qed.

Lemma sample_rules_sound ty T : Forall (rule_sound ty T) sample_rules.
Proof. unfold sample_rules. each_rule ltac:(modular_rule). Qed.

Lemma rewriter_correct_witness :
  let e := EBin Add (int_var "x") (int_imm 0) in
  match rewrite (prover := literal_prover) e (type_of e) sample_rules no_counters with
  | (Some (_, _, e'), _) => e' = int_var "x" /\ ev sample_env 0 e' = ev sample_env 0 e
  | _ => False
  end.
Proof.
  cbv zeta. destruct (rewrite _ _ _ _) as [[[[r s] e']|] c'] eqn:E; [|vm_compute in E; discriminate E].
  split; [vm_compute in E; injection E as _ _ <- _; reflexivity|].
  destruct (rewriter_correct (prover := literal_prover) (EBin Add (int_var "x") (int_imm 0)) sample_rules
    no_counters r s e' c' eq_refl eq_refl (sample_rules_typed _ _) (sample_rules_sound _ _) E)
    as (_ & _ & _ & V).
  apply (V sample_env 0).
  - concrete.
  - left. reflexivity.
  - apply literal_prover_sound.
  - vm_compute in E. injection E as <- <- _ _. reflexivity.
Defined.
