(* ===== verification/ExprInfo.v ===== *)
(** * Bounds and alignment of expressions

    [Simplify::ExprInfo] of src/Simplify_Internal.h: what [mutate] reports of
    an expression besides its simplified form.  The arithmetic is that of
    64-bit integers. *)

From Stdlib Require Import ZArith Lia Bool List.
From S2P Require Import Prelude.
From S2P Require Import IntArith.
From S2P Require Import ModulusRemainder.
From S2P Require Import HalideTypes.
From S2P Require Import IR.
Open Scope Z_scope.

Record ExprInfo := mkInfo {
  info_min : Z;
  info_max : Z;
  min_defined : bool;
  max_defined : bool;
  info_alignment : ModulusRemainder
}.

(** The default constructor: nothing is known. *)
Definition no_info : ExprInfo := mkInfo 0 0 false false mr_top.

(** The smallest value of the alignment that is at least [min]. *)
Definition trim_min (min : Z) (a : ModulusRemainder) : Z :=
  let new_min := i64 (i64 (min - mod_imp min (modulus a)) + remainder a) in
  if new_min <? min then i64 (new_min + modulus a) else new_min.

Definition trim_max (max : Z) (a : ModulusRemainder) : Z :=
  let new_max := i64 (i64 (max - mod_imp max (modulus a)) + remainder a) in
  if max <? new_max then i64 (new_max - modulus a) else new_max.

(** A single value determines the alignment. *)
Definition pin_alignment (x : ExprInfo) : ExprInfo :=
  if min_defined x && max_defined x && (info_min x =? info_max x)
  then mkInfo (info_min x) (info_max x) true true (mkMR 0 (info_min x))
  else x.

Definition trim_bounds_using_alignment (x : ExprInfo) : ExprInfo :=
  let a := info_alignment x in
  pin_alignment
    (if modulus a =? 0 then mkInfo (remainder a) (remainder a) true true a
     else if 1 <? modulus a then
       mkInfo (if min_defined x then trim_min (info_min x) a else info_min x)
              (if max_defined x then trim_max (info_max x) a else info_max x)
              (min_defined x) (max_defined x) a
     else x).

(** [ExprInfo::intersect]: mixes in other knowledge about the same value. *)
Definition intersect_info (x other : ExprInfo) : ExprInfo :=
  trim_bounds_using_alignment
    (mkInfo
      (if min_defined x && min_defined other then Z.max (info_min x) (info_min other)
       else if min_defined other then info_min other else info_min x)
      (if max_defined x && max_defined other then Z.min (info_max x) (info_max other)
       else if max_defined other then info_max other else info_max x)
      (min_defined x || min_defined other) (max_defined x || max_defined other)
      (intersect (info_alignment x) (info_alignment other))).

(** ** What the information says *)

Record info_holds (x : ExprInfo) (v : Z) : Prop := {
  above_min : min_defined x = true -> info_min x <= v;
  below_max : max_defined x = true -> v <= info_max x;
  aligned : mr_contains (info_alignment x) v
}.

Lemma no_info_holds v : info_holds no_info v.
Proof. split; cbn; try discriminate. apply mr_contains_top. Qed.

Lemma info_holds_const v : info_holds (mkInfo v v true true (mkMR 0 v)) v.
Proof. split; cbn; try lia. now apply mr_contains_const. Qed.

(** What is known of the two operands of a node. *)
Definition operands_known (A B : ExprInfo) (a b : Expr) (env : Env) (i : Z) : Prop :=
  info_holds A (ev env i a) /\ info_holds B (ev env i b).

(** The remainder is the canonical one. *)
Definition mr_normal (a : ModulusRemainder) : Prop :=
  1 < modulus a -> 0 <= remainder a < modulus a.

(** The numbers leave room for the 64-bit computations on them. *)
Record room (bits : Z) (x : ExprInfo) : Prop := {
  room_min : min_defined x = true -> in_int bits (info_min x);
  room_max : max_defined x = true -> in_int bits (info_max x);
  room_modulus : in_int bits (modulus (info_alignment x));
  room_remainder : in_int bits (remainder (info_alignment x))
}.

(** What trimming relies on. *)
Record trimmable (x : ExprInfo) : Prop := {
  trim_normal : mr_normal (info_alignment x);
  trim_room_min : min_defined x = true -> in_int 63 (info_min x);
  trim_room_max : max_defined x = true -> in_int 63 (info_max x);
  trim_room_modulus : in_int 63 (modulus (info_alignment x))
}.

Lemma i64_id v : - 2 ^ 63 <= v < 2 ^ 63 -> i64 v = v.
Proof. intros. apply wrap_s_id; lia. Qed.

Lemma pin_alignment_sound x v : info_holds x v -> info_holds (pin_alignment x) v.
Proof.
  intros [Mi Ma A]. unfold pin_alignment. case_goal; [|now split].
  destr_and. apply Z.eqb_eq in H0. specialize (Mi H). specialize (Ma H1).
  replace v with (info_min x) by lia. rewrite <- H0. apply info_holds_const.
Qed.

(** Two values of one alignment differ by a multiple of the modulus. *)
Lemma aligned_apart a v w : mr_contains a v -> mr_contains a w -> exists k, v = w + k * modulus a.
Proof. intros [k K] [l L]. exists (k - l). lia. Qed.

Section Trim.
Context (a : ModulusRemainder) (Big : 1 < modulus a) (N : mr_normal a).
Context (R : in_int 63 (modulus a)).

Abbreviation m := (modulus a).
Abbreviation r := (remainder a).

Lemma floor_aligned b : in_int 63 b ->
  exists q, i64 (i64 (b - mod_imp b m) + r) = q * m + r /\ b - m < q * m + r < b + m.
Proof.
  intros B. pose proof (N Big) as Nr. unfold in_int in *. cbn in *.
  rewrite mod_imp_eq by lia. pose proof (ediv_emod b m ltac:(lia)) as D.
  pose proof (emod_bound b m ltac:(lia)) as E.
  exists (ediv b m).
  rewrite (i64_id (b - emod b m)) by lia.
  rewrite (i64_id (b - emod b m + r)) by lia. lia.
Qed.

Lemma trim_min_sound min v : in_int 63 min -> min <= v -> mr_contains a v -> trim_min min a <= v.
Proof.
  intros B L A. destruct (floor_aligned min B) as (q & E & Q).
  unfold trim_min. cbv zeta. rewrite E.
  destruct A as [k K]. unfold in_int in *. cbn in B, R.
  set (p := q * m) in *. assert (P : p = q * m) by reflexivity. clearbody p.
  destruct (Z.ltb_spec (p + r) min).
  - rewrite i64_id by lia. assert (q < k) by nia. nia.
  - assert (q < k + 1) by nia. nia.
Qed.

Lemma trim_max_sound max v : in_int 63 max -> v <= max -> mr_contains a v -> v <= trim_max max a.
Proof.
  intros B L A. destruct (floor_aligned max B) as (q & E & Q).
  unfold trim_max. cbv zeta. rewrite E.
  destruct A as [k K]. unfold in_int in *. cbn in B, R.
  set (p := q * m) in *. assert (P : p = q * m) by reflexivity. clearbody p.
  destruct (Z.ltb_spec max (p + r)).
  - rewrite i64_id by lia. assert (k < q) by nia. nia.
  - assert (k < q + 1) by nia. nia.
Qed.
End Trim.

(** Trimming keeps what is known. *)
Lemma trim_sound x v : trimmable x ->
  info_holds x v -> info_holds (trim_bounds_using_alignment x) v.
Proof.
  intros [N Rmin Rmax Rm] H. unfold trim_bounds_using_alignment. cbv zeta.
  apply pin_alignment_sound. destruct H as [Mi Ma A].
  destruct (Z.eqb_spec (modulus (info_alignment x)) 0) as [Z0|_].
  - assert (v = remainder (info_alignment x)).
    { destruct A as [k K]. rewrite Z0 in K. lia. }
    split; cbn; auto; lia.
  - destruct (Z.ltb_spec 1 (modulus (info_alignment x))); [|now split].
    split; cbn; auto; intros D; rewrite D.
    + apply trim_min_sound; auto.
    + apply trim_max_sound; auto.
Qed.

(** Intersection keeps what is known of both sides. *)
Lemma intersect_info_sound x y v : mr_normal (intersect (info_alignment x) (info_alignment y)) ->
  room 63 x -> room 63 y -> info_holds x v -> info_holds y v -> info_holds (intersect_info x y) v.
Proof.
  intros N [Xmin Xmax Xm _] [Ymin Ymax Ym _] [Mi Ma A] [Mi' Ma' A'].
  unfold intersect_info. apply trim_sound; [split; [exact N| | |]|]; cbn [info_alignment info_min info_max min_defined max_defined].
  - destruct (min_defined x), (min_defined y); cbn; intros; try discriminate;
      repeat match goal with H : true = true -> _ |- _ => specialize (H eq_refl) end;
      unfold in_int in *; lia.
  - destruct (max_defined x), (max_defined y); cbn; intros; try discriminate;
      repeat match goal with H : true = true -> _ |- _ => specialize (H eq_refl) end;
      unfold in_int in *; lia.
  - unfold intersect. repeat case_goal; assumption.
  - split; cbn.
    + destruct (min_defined x), (min_defined y); cbn; intros; try discriminate; lia.
    + destruct (max_defined x), (max_defined y); cbn; intros; try discriminate; lia.
    + now apply intersect_sound.
Qed.

(** ** Canonical remainders *)

Lemma mod0_normal m r : mr_normal (mkMR m (mod0 r m)).
Proof.
  unfold mr_normal, mod0. cbn. intros M. replace (m =? 0) with false by (symmetry; apply Z.eqb_neq; lia).
  rewrite mod_imp_eq by lia. pose proof (emod_bound r m). lia.
Qed.

Lemma mr_top_normal : mr_normal mr_top.
Proof. unfold mr_normal. cbn. lia. Qed.

#[export] Hint Resolve mod0_normal mr_top_normal : halide.

Lemma mr_add_normal a b : mr_normal (mr_add a b).
Proof. unfold mr_add. case_goal; auto with halide. Qed.

Lemma mr_sub_normal a b : mr_normal (mr_sub a b).
Proof. unfold mr_sub. case_goal; auto with halide. Qed.

Lemma mr_mod_normal a b : mr_normal (mr_mod a b).
Proof. unfold mr_mod. auto with halide. Qed.

Lemma unify_normal a b : mr_normal (unify a b).
Proof.
  unfold unify, unify_ordered. repeat case_goal; auto with halide; unfold mr_normal; cbn; lia.
Qed.

(** The modulus of a result is bounded by those of its arguments. *)
Lemma gcd_le a b : Z.abs (gcd a b) <= Z.max (Z.abs a) (Z.abs b).
Proof.
  rewrite gcd_abs. destruct (Z.eq_dec a 0) as [->|Na].
  - rewrite Z.gcd_0_l. lia.
  - pose proof (Z.divide_pos_le (Z.gcd a b) (Z.abs a) ltac:(lia)) as L.
    specialize (L (proj2 (Z.divide_abs_r _ _) (Z.gcd_divide_l a b))). lia.
Qed.

Section Room.
Context (a b : ModulusRemainder).
Context (Ma : in_int 62 (modulus a)) (Mb : in_int 62 (modulus b)).
Context (Ra : in_int 62 (remainder a)) (Rb : in_int 62 (remainder b)).

Lemma mr_add_room : in_int 63 (modulus (mr_add a b)).
Proof.
  pose proof (gcd_le (modulus a) (modulus b)). unfold mr_add, in_int in *.
  case_goal; cbn in *; lia.
Qed.

Lemma mr_sub_room : in_int 63 (modulus (mr_sub a b)).
Proof.
  pose proof (gcd_le (modulus a) (modulus b)). unfold mr_sub, in_int in *.
  case_goal; cbn in *; lia.
Qed.

Lemma mr_mod_room : in_int 63 (modulus (mr_mod a b)).
Proof.
  pose proof (gcd_le (modulus a) (modulus b)).
  pose proof (gcd_le (gcd (modulus a) (modulus b)) (remainder b)).
  unfold mr_mod, in_int in *. cbn in *. lia.
Qed.

Lemma unify_room : in_int 63 (modulus (unify a b)).
Proof.
  pose proof (gcd_le (modulus a) (modulus b)). pose proof (gcd_le (modulus b) (modulus a)).
  pose proof (gcd_le (remainder a - remainder b) (gcd (modulus a) (modulus b))).
  pose proof (gcd_le (remainder b - remainder a) (gcd (modulus b) (modulus a))).
  unfold unify, unify_ordered, in_int in *. repeat case_goal; cbn in *; lia.
Qed.

Lemma room_unify_safe : unify_safe a b.
Proof. unfold unify_safe, in_int in *. cbn in *. lia. Qed.
End Room.

(** Sums and differences of bounds do not wrap. *)
Lemma i64_add a b : in_int 62 a -> in_int 62 b -> i64 (a + b) = a + b /\ in_int 63 (a + b).
Proof. unfold in_int. cbn. intros. split; [apply i64_id|]; lia. Qed.

Lemma i64_sub a b : in_int 62 a -> in_int 62 b -> i64 (a - b) = a - b /\ in_int 63 (a - b).
Proof. unfold in_int. cbn. intros. split; [apply i64_id|]; lia. Qed.

(** [can_represent] decides the range of a signed type. *)
Lemma can_represent_in_type t v : int_type t = true -> is_int t = true ->
  can_represent_i64 t v = true <-> in_type t v.
Proof.
  intros I S. pose proof (int_type_sbits t I S). unfold can_represent_i64, in_type, tmin, tmax.
  rewrite S, min_int_eq, max_int_eq by lia. rewrite andb_true_iff, !Z.leb_le. reflexivity.
Qed.

(** A value with two equal bounds is a constant. *)
Lemma info_pinned x v : info_holds x v -> min_defined x && max_defined x = true ->
  info_max x = info_min x -> v = info_min x.
Proof. intros [Mi Ma _] D E. destr_and. specialize (Mi H). specialize (Ma H0). lia. Qed.


