(* ===== verification/Interval.v ===== *)
(** * Intervals

    [Interval] of src/Interval.h and src/Interval.cpp: ranges of expressions
    that may be unbounded, and the eagerly simplifying minimum and maximum that
    respect infinities. *)

From Stdlib Require Import ZArith Lia Bool List String.
From S2P Require Import Prelude.
From S2P Require Import IntArith.
From S2P Require Import HalideTypes.
From S2P Require Import IR.
From S2P Require Import IRMatch.
From S2P Require Import PatNotations.
From S2P Require Import RuleSem.
From S2P Require Import RuleTac.
From S2P Require Import MatchSound.
From S2P Require Import MakeSound.
From S2P Require Import RuleSound.
From S2P Require Import Visit.
From S2P Require Import TableTac.
Import ListNotations.

(** ** Infinities *)

(** Infinities are variables of handle type, told apart from the others by
    their identity; here, by their name and type. *)
Definition pos_inf : Expr := EVariable (Handle 1) "pos_inf".
Definition neg_inf : Expr := EVariable (Handle 1) "neg_inf".

Definition is_inf (inf e : Expr) : bool :=
  match inf, e with
  | EVariable t n, EVariable t' m => type_eqb t t' && String.eqb n m
  | _, _ => false
  end.

Record Interval := mkInterval { imin : Expr; imax : Expr }.

Definition everything : Interval := mkInterval neg_inf pos_inf.
Definition nothing : Interval := mkInterval pos_inf neg_inf.
Definition single_point (e : Expr) : Interval := mkInterval e e.

Definition is_empty (iv : Interval) : bool := is_inf pos_inf (imin iv) || is_inf neg_inf (imax iv).
Definition is_everything (iv : Interval) : bool := is_inf neg_inf (imin iv) && is_inf pos_inf (imax iv).
Definition has_upper_bound (iv : Interval) : bool := negb (is_inf pos_inf (imax iv)) && negb (is_empty iv).
Definition has_lower_bound (iv : Interval) : bool := negb (is_inf neg_inf (imin iv)) && negb (is_empty iv).
Definition is_bounded (iv : Interval) : bool := has_upper_bound iv && has_lower_bound iv.

(** ** The tables *)

Section Tables.
Local Open Scope pat_scope.

Definition max_same : list Rule := [ max(x, x) ~> x ].

Definition max_infinities : list Rule :=
  [ max(x, PSpecific pos_inf) ~> PSpecific pos_inf ;
    max(PSpecific pos_inf, x) ~> PSpecific pos_inf ;
    max(x, PSpecific neg_inf) ~> x ;
    max(PSpecific neg_inf, x) ~> x ].

Definition max_finite : list Rule :=
  [ max(c0, c1) ~> fold(max(c0, c1)) ;
    max(c0, x) ~> max(x, c0) ;
    max(max(x, c0), c1) ~> max(x, fold(max(c0, c1))) ;
    max(max(x, c0), y) ~> max(max(x, y), c0) ;
    max(x, max(y, c0)) ~> max(max(x, y), c0) ;
    max(max(x, y), x) ~> arg_a ;
    max(max(x, y), y) ~> arg_a ;
    max(x, max(x, y)) ~> arg_b ;
    max(y, max(x, y)) ~> arg_b ].

Definition min_same : list Rule := [ min(x, x) ~> x ].

Definition min_infinities : list Rule :=
  [ min(x, PSpecific pos_inf) ~> x ;
    min(PSpecific pos_inf, x) ~> x ;
    min(x, PSpecific neg_inf) ~> PSpecific neg_inf ;
    min(PSpecific neg_inf, x) ~> PSpecific neg_inf ].

Definition min_finite : list Rule :=
  [ min(c0, c1) ~> fold(min(c0, c1)) ;
    min(c0, x) ~> min(x, c0) ;
    min(min(x, c0), c1) ~> min(x, fold(min(c0, c1))) ;
    min(min(x, c0), y) ~> min(min(x, y), c0) ;
    min(x, min(y, c0)) ~> min(min(x, y), c0) ;
    min(min(x, y), x) ~> arg_a ;
    min(min(x, y), y) ~> arg_a ;
    min(x, min(x, y)) ~> arg_b ;
    min(y, min(x, y)) ~> arg_b ].
End Tables.

(** The tables have no predicates and make no poison, so the rewriter needs no
    prover. *)
Definition make_limit (op : BinOp) (rules : list Rule) (a b : Expr) : Expr :=
  match fst (rewrite (prover := literal_prover) (EBin op a b) (type_of a) rules no_counters) with
  | Some (_, _, e) => e
  | None => EBin op a b
  end.

(** [Interval::make_max] and [make_min]. *)
Definition make_max : Expr -> Expr -> Expr := make_limit Max (max_same ++ max_infinities ++ max_finite).
Definition make_min : Expr -> Expr -> Expr := make_limit Min (min_same ++ min_infinities ++ min_finite).

Definition include_interval (iv i : Interval) : Interval :=
  mkInterval (make_min (imin iv) (imin i)) (make_max (imax iv) (imax i)).

Definition include_expr (iv : Interval) (e : Expr) : Interval :=
  mkInterval (make_min (imin iv) e) (make_max (imax iv) e).

Definition make_union (a b : Interval) : Interval := include_interval a b.

Definition make_intersection (a b : Interval) : Interval :=
  mkInterval (make_max (imin a) (imin b)) (make_min (imax a) (imax b)).

(** ** The tables are sound *)

Open Scope string_scope.
Open Scope list_scope.
Open Scope Z_scope.

Lemma max_same_good l (T : HType) : good_tables l T T max_same.
Proof. unfold max_same. plain_group. Qed.
Lemma max_finite_good l (T : HType) : good_tables l T T max_finite.
Proof. unfold max_finite. plain_group. Qed.
Lemma min_same_good l (T : HType) : good_tables l T T min_same.
Proof. unfold min_same. plain_group. Qed.
Lemma min_finite_good l (T : HType) : good_tables l T T min_finite.
Proof. unfold min_finite. plain_group. Qed.

(** No fold of the tables overflows. *)
Lemma limits_exact : Forall (fun r => forall val T, exact val (after r) T = true) (max_same ++ max_finite) /\
  Forall (fun r => forall val T, exact val (after r) T = true) (min_same ++ min_finite).
Proof. split; repeat (constructor; [intros val T; reflexivity|]); constructor. Qed.

(** ** Ends *)

Inductive Ext := NegInf | Fin (value : Z) | PosInf.

Definition ext_max (p q : Ext) : Ext :=
  match p, q with
  | PosInf, _ | _, PosInf => PosInf
  | NegInf, r | r, NegInf => r
  | Fin m, Fin n => Fin (Z.max m n)
  end.

Definition ext_min (p q : Ext) : Ext :=
  match p, q with
  | NegInf, _ | _, NegInf => NegInf
  | PosInf, r | r, PosInf => r
  | Fin m, Fin n => Fin (Z.min m n)
  end.

Definition ext_le (p q : Ext) : Prop :=
  match p, q with
  | NegInf, _ | _, PosInf => True
  | Fin m, Fin n => m <= n
  | _, _ => False
  end.

(** An end is an infinity or an expression of the type. *)
Inductive End (T : HType) : Expr -> Prop :=
| End_pos : End T pos_inf
| End_neg : End T neg_inf
| End_at e : wf e = true -> type_of e = T -> End T e.

Definition end_value (env : Env) (i : Z) (e : Expr) : Ext :=
  if is_inf pos_inf e then PosInf else if is_inf neg_inf e then NegInf else Fin (ev env i e).

(** An infinity is always defined. *)
Definition end_defined (env : Env) (i : Z) (e : Expr) : Prop :=
  is_inf pos_inf e = true \/ is_inf neg_inf e = true \/ defined env i e.


Lemma finite_inf e : wf e = true -> equal pos_inf e = false /\ equal neg_inf e = false /\
  equal e pos_inf = false /\ equal e neg_inf = false /\ is_inf pos_inf e = false /\ is_inf neg_inf e = false.
Proof.
  intros W. destruct (wf_wf_type e W) as [I _].
  assert (G : forall n, equal (EVariable (Handle 1) n) e = false /\ equal e (EVariable (Handle 1) n) = false).
  { intros n. split; apply not_true_iff_false; intros E; apply equal_sound in E; destruct E as [E _]; cbn in E;
      [rewrite <- E in I|rewrite E in I]; discriminate I. }
  destruct (G "pos_inf") as [G1 G2], (G "neg_inf") as [G3 G4]. unfold pos_inf, neg_inf.
  repeat match goal with |- _ /\ _ => split end; auto; destruct e; try reflexivity; cbn [is_inf];
    destruct (type_eqb _ _) eqn:E; auto; apply type_eqb_eq in E; cbn [type_of] in I; rewrite <- E in I; discriminate I.
Qed.

Lemma rewrite_without {prover : Prover} e T l : Forall (fun r => match_pat 0 (before r) e initial_state = None) l ->
  forall l1 l2 c, rewrite e T (l1 ++ l ++ l2) c = rewrite e T (l1 ++ l2) c.
Proof.
  intros F l1 l2. induction l1 as [|r l1 IH]; intros c; cbn [app].
  - induction F as [|r l M _ IHl]; [reflexivity|]. cbn [app rewrite]. unfold rule_fires. rewrite M. exact IHl.
  - cbn [rewrite]. destruct (rule_fires e r c) as [[s|] c1]; [reflexivity|apply IH].
Qed.

Lemma rewrite_miss {prover : Prover} e T r l c : match_pat 0 (before r) e initial_state = None ->
  rewrite e T (r :: l) c = rewrite e T l c.
Proof. intros M. cbn [rewrite]. unfold rule_fires. now rewrite M. Qed.

Lemma rewrite_hit {prover : Prover} e T r l c s : match_pat 0 (before r) e initial_state = Some s -> pred r = None ->
  fst (rewrite e T (r :: l) c) = Some (r, s, fst (make (operands e) s (after r) T c)).
Proof.
  intros M P. cbn [rewrite]. unfold rule_fires. rewrite M, P. unfold ret. now destruct (make (operands e) s (after r) T c).
Qed.

Lemma inf_apart : equal pos_inf neg_inf = false /\ equal neg_inf pos_inf = false /\ equal pos_inf pos_inf = true /\ equal neg_inf neg_inf = true.
Proof. repeat split. Qed.

Ltac limit_step :=
  match goal with |- context [rewrite ?e ?T (?r :: ?l) ?c] =>
    first
      [ rewrite (rewrite_miss (prover := literal_prover) e T r l c) by (cbv -[equal pos_inf neg_inf]; repeat match goal with E : equal _ _ = _ |- _ => rewrite E end; reflexivity)
      | erewrite (rewrite_hit (prover := literal_prover) e T r l c) by (cbv -[equal pos_inf neg_inf]; repeat match goal with E : equal _ _ = _ |- _ => rewrite E end; reflexivity) ]
  end.

Lemma max_with_inf e : wf e = true ->
  make_max pos_inf e = pos_inf /\ make_max e pos_inf = pos_inf /\ make_max neg_inf e = e /\ make_max e neg_inf = e.
Proof.
  intros W. destruct (finite_inf e W) as (E1 & E2 & E3 & E4 & _). destruct inf_apart as (E5 & E6 & E7 & E8).
  unfold make_max, make_limit, max_same, max_infinities. cbn [app].
  repeat match goal with |- _ /\ _ => split end; repeat limit_step; reflexivity.
Qed.

Lemma min_with_inf e : wf e = true ->
  make_min pos_inf e = e /\ make_min e pos_inf = e /\ make_min neg_inf e = neg_inf /\ make_min e neg_inf = neg_inf.
Proof.
  intros W. destruct (finite_inf e W) as (E1 & E2 & E3 & E4 & _). destruct inf_apart as (E5 & E6 & E7 & E8).
  unfold make_min, make_limit, min_same, min_infinities. cbn [app].
  repeat match goal with |- _ /\ _ => split end; repeat limit_step; reflexivity.
Qed.

(** Finite ends. *)
Lemma limit_finite op rules inf fin a b : (op = Max /\ inf = max_infinities \/ op = Min /\ inf = min_infinities) ->
  wf (EBin op a b) = true -> good_tables [] (type_of (EBin op a b)) (type_of (EBin op a b)) (rules ++ fin) ->
  Forall (fun r => forall val T, exact val (after r) T = true) (rules ++ fin) ->
  wf (make_limit op (rules ++ inf ++ fin) a b) = true /\
  type_of (make_limit op (rules ++ inf ++ fin) a b) = type_of (EBin op a b) /\
  forall env i, defined env i (EBin op a b) -> lane_in (type_of (EBin op a b)) i ->
    ok env i (make_limit op (rules ++ inf ++ fin) a b) /\
    ev env i (make_limit op (rules ++ inf ++ fin) a b) = ev env i (EBin op a b).
Proof.
  intros O W [C Ty Sd] X. destruct (wf_bin_inv _ _ _ W) as (Wa & Wb & T).
  assert (Tt : type_of (EBin op a b) = type_of a) by (destruct O as [[-> _]|[-> _]]; reflexivity).
  assert (N : Forall (fun r => match_pat 0 (before r) (EBin op a b) initial_state = None) inf).
  { destruct (finite_inf a Wa) as (A1 & A2 & A3 & A4 & _), (finite_inf b Wb) as (B1 & B2 & B3 & B4 & _).
    destruct O as [[-> ->]|[-> ->]]; repeat constructor; cbv -[equal pos_inf neg_inf];
      repeat match goal with E : equal _ _ = _ |- _ => rewrite E end; reflexivity. }
  unfold make_limit. rewrite (rewrite_without _ _ _ N), <- Tt.
  destruct (rewrite (prover := literal_prover) _ _ (rules ++ fin) no_counters) as [[[[r s] e]|] c'] eqn:E; cbn [fst].
  - destruct (rewrite_typed _ W _ C _ _ _ _ _ Ty E) as [We Te]. split; [exact We|]. split; [exact Te|].
    intros env i D L. eapply (rewrite_sound _ W _ C [] env i); [exact Ty| |exact E|auto|exact D|exact L|apply literal_prover_sound|].
    + exact Sd.
    + destruct (rewrite_fired _ _ _ _ _ _ _ _ E) as [I _]. rewrite Forall_forall in X. now apply X.
  - split; [exact W|]. split; [reflexivity|]. intros env i [Ok _] _. now split.
Qed.

(** ** The limits *)

(** An end that evaluates without undefined behaviour. *)
Definition end_ok (env : Env) (i : Z) (e : Expr) : Prop :=
  is_inf pos_inf e = true \/ is_inf neg_inf e = true \/ ok env i e.

Lemma end_finite env i e : wf e = true -> end_value env i e = Fin (ev env i e).
Proof. intros W. destruct (finite_inf e W) as (_ & _ & _ & _ & P & N). unfold end_value. now rewrite P, N. Qed.

Lemma end_defined_finite env i e : wf e = true -> end_defined env i e -> defined env i e.
Proof. intros W. destruct (finite_inf e W) as (_ & _ & _ & _ & P & N). intros [H|[H|H]]; congruence. Qed.

Lemma defined_limit op env i a b : op = Max \/ op = Min -> wf (EBin op a b) = true -> defined env i a -> defined env i b ->
  defined env i (EBin op a b).
Proof.
  intros O W [Oa Fa] [Ob Fb]. destruct (wf_bin_inv _ _ _ W) as (_ & _ & T).
  pose proof (fits_in_type _ _ _ Fa) as Ra. pose proof (fits_in_type _ _ _ Fb) as Rb. rewrite T in Rb.
  split; [destruct O as [-> | ->]; now split|]. cbn [fits]. split; [|now split].
  destruct O as [-> | ->]; cbn [type_of ev evbin]; [now apply in_type_max|now apply in_type_min].
Qed.

(** What a limit of two ends promises. *)
Record limit_of (T : HType) (ext : Ext -> Ext -> Ext) (a b r : Expr) : Prop := {
  limit_end : End T r;
  limit_value : forall env i, lane_in T i -> end_defined env i a -> end_defined env i b ->
    end_ok env i r /\ end_value env i r = ext (end_value env i a) (end_value env i b)
}.

Lemma end_self env i e : end_defined env i e -> end_ok env i e.
Proof. intros [H|[H|[H _]]]; unfold end_ok; auto. Qed.

Lemma limit_is_max T a b : End T a -> End T b -> limit_of T ext_max a b (make_max a b).
Proof.
  intros Ea Eb. destruct Ea as [| |a Wa Ta], Eb as [| |b Wb Tb];
    try (split; [constructor|]; intros env i _ Da Db; split; [now apply end_self|reflexivity]).
  - destruct (max_with_inf b Wb) as (-> & _). split; [constructor|]. intros env i _ Da Db.
    split; [now apply end_self|]. rewrite (end_finite env i b Wb). reflexivity.
  - destruct (max_with_inf b Wb) as (_ & _ & -> & _). split; [now constructor|]. intros env i _ Da Db.
    split; [now apply end_self|]. rewrite (end_finite env i b Wb). reflexivity.
  - destruct (max_with_inf a Wa) as (_ & -> & _). split; [constructor|]. intros env i _ Da Db.
    split; [now apply end_self|]. rewrite (end_finite env i a Wa). reflexivity.
  - destruct (max_with_inf a Wa) as (_ & _ & _ & ->). split; [now constructor|]. intros env i _ Da Db.
    split; [now apply end_self|]. rewrite (end_finite env i a Wa). reflexivity.
  - assert (W : wf (EBin Max a b) = true) by (cbn [wf]; now rewrite Wa, Wb, Ta, Tb, type_eqb_refl).
    destruct (limit_finite Max max_same max_infinities max_finite a b) as (Wr & Tr & V); auto;
      [apply good_app; [apply max_same_good|apply max_finite_good]|apply limits_exact|].
    fold make_max in *. change (make_limit Max (max_same ++ max_infinities ++ max_finite) a b) with (make_max a b) in *.
    cbn [type_of] in Tr, V. rewrite Ta in Tr, V. split; [now constructor|]. intros env i L Da Db.
    apply (end_defined_finite _ _ _ Wa) in Da. apply (end_defined_finite _ _ _ Wb) in Db.
    destruct (V env i (defined_limit Max env i a b (or_introl eq_refl) W Da Db) L) as [O E].
    split; [right; now right|]. rewrite !end_finite, E by assumption. reflexivity.
Qed.

Lemma limit_is_min T a b : End T a -> End T b -> limit_of T ext_min a b (make_min a b).
Proof.
  intros Ea Eb. destruct Ea as [| |a Wa Ta], Eb as [| |b Wb Tb];
    try (split; [constructor|]; intros env i _ Da Db; split; [now apply end_self|reflexivity]).
  - destruct (min_with_inf b Wb) as (-> & _). split; [now constructor|]. intros env i _ Da Db.
    split; [now apply end_self|]. rewrite (end_finite env i b Wb). reflexivity.
  - destruct (min_with_inf b Wb) as (_ & _ & -> & _). split; [constructor|]. intros env i _ Da Db.
    split; [now apply end_self|]. rewrite (end_finite env i b Wb). reflexivity.
  - destruct (min_with_inf a Wa) as (_ & -> & _). split; [now constructor|]. intros env i _ Da Db.
    split; [now apply end_self|]. rewrite (end_finite env i a Wa). reflexivity.
  - destruct (min_with_inf a Wa) as (_ & _ & _ & ->). split; [constructor|]. intros env i _ Da Db.
    split; [now apply end_self|]. rewrite (end_finite env i a Wa). reflexivity.
  - assert (W : wf (EBin Min a b) = true) by (cbn [wf]; now rewrite Wa, Wb, Ta, Tb, type_eqb_refl).
    destruct (limit_finite Min min_same min_infinities min_finite a b) as (Wr & Tr & V); auto;
      [apply good_app; [apply min_same_good|apply min_finite_good]|apply limits_exact|].
    change (make_limit Min (min_same ++ min_infinities ++ min_finite) a b) with (make_min a b) in *.
    cbn [type_of] in Tr, V. rewrite Ta in Tr, V. split; [now constructor|]. intros env i L Da Db.
    apply (end_defined_finite _ _ _ Wa) in Da. apply (end_defined_finite _ _ _ Wb) in Db.
    destruct (V env i (defined_limit Min env i a b (or_intror eq_refl) W Da Db) L) as [O E].
    split; [right; now right|]. rewrite !end_finite, E by assumption. reflexivity.
Qed.

(** ** Intervals as sets *)

Definition in_interval (env : Env) (i : Z) (iv : Interval) (n : Z) : Prop :=
  ext_le (end_value env i (imin iv)) (Fin n) /\ ext_le (Fin n) (end_value env i (imax iv)).

Definition interval_of (T : HType) (iv : Interval) : Prop := End T (imin iv) /\ End T (imax iv).

Definition interval_defined (env : Env) (i : Z) (iv : Interval) : Prop :=
  end_defined env i (imin iv) /\ end_defined env i (imax iv).

Lemma ext_max_le p q n : ext_le (Fin n) (ext_max p q) <-> ext_le (Fin n) p \/ ext_le (Fin n) q.
Proof. destruct p, q; cbn; try tauto. lia. Qed.
Lemma ext_max_ge p q n : ext_le (ext_max p q) (Fin n) <-> ext_le p (Fin n) /\ ext_le q (Fin n).
Proof. destruct p, q; cbn; try tauto. lia. Qed.
Lemma ext_min_le p q n : ext_le (Fin n) (ext_min p q) <-> ext_le (Fin n) p /\ ext_le (Fin n) q.
Proof. destruct p, q; cbn; try tauto. lia. Qed.
Lemma ext_min_ge p q n : ext_le (ext_min p q) (Fin n) <-> ext_le p (Fin n) \/ ext_le q (Fin n).
Proof. destruct p, q; cbn; try tauto. lia. Qed.

Lemma one_infinity e : is_inf pos_inf e = true -> is_inf neg_inf e = false.
Proof.
  destruct e; try discriminate. unfold is_inf, pos_inf, neg_inf. intros H. apply andb_true_iff in H. destruct H as [_ H].
  apply String.eqb_eq in H. subst name. apply andb_false_r.
Qed.

(** C19: The union of two intervals has the values of both, and no bound that neither
    has; their intersection has the values they share, and no others. *)
Theorem interval_sets T a b : interval_of T a -> interval_of T b ->
  interval_of T (make_union a b) /\ interval_of T (make_intersection a b) /\
  forall env i n, lane_in T i -> interval_defined env i a -> interval_defined env i b ->
    (in_interval env i (make_union a b) n <->
      (ext_le (end_value env i (imin a)) (Fin n) \/ ext_le (end_value env i (imin b)) (Fin n)) /\
      (ext_le (Fin n) (end_value env i (imax a)) \/ ext_le (Fin n) (end_value env i (imax b)))) /\
    (in_interval env i a n \/ in_interval env i b n -> in_interval env i (make_union a b) n) /\
    (in_interval env i (make_intersection a b) n <-> in_interval env i a n /\ in_interval env i b n) /\
    (is_empty a = true -> ~ in_interval env i a n) /\ (is_everything a = true -> in_interval env i a n).
Proof.
  intros [La Ha] [Lb Hb]. pose proof (limit_is_min T _ _ La Lb) as [U1 U2]. pose proof (limit_is_max T _ _ Ha Hb) as [V1 V2].
  pose proof (limit_is_max T _ _ La Lb) as [X1 X2]. pose proof (limit_is_min T _ _ Ha Hb) as [Y1 Y2].
  split; [now split|]. split; [now split|]. intros env i n L [Da1 Da2] [Db1 Db2].
  destruct (U2 env i L Da1 Db1) as [_ U], (V2 env i L Da2 Db2) as [_ V], (X2 env i L Da1 Db1) as [_ X], (Y2 env i L Da2 Db2) as [_ Y].
  unfold in_interval, make_union, include_interval, make_intersection. cbn [imin imax].
  rewrite U, V, X, Y, ext_min_ge, ext_max_le, ext_max_ge, ext_min_le.
  split; [tauto|]. split; [tauto|]. split; [tauto|]. split.
  - unfold is_empty, end_value. intros E. apply orb_true_iff in E. destruct E as [E|E].
    + rewrite E. intros [H _]. exact H.
    + destruct (is_inf pos_inf (imax a)) eqn:P; [apply one_infinity in P; congruence|].
      rewrite E. intros [_ H]. exact H.
  - unfold is_everything, end_value. intros E. apply andb_true_iff in E. destruct E as [E1 E2]. rewrite E1, E2.
    destruct (is_inf pos_inf (imin a)) eqn:P; [|now split].
    apply one_infinity in P. congruence.
Qed.

Lemma interval_sets_witness :
  in_interval sample_env 0 (make_union (mkInterval neg_inf (int_imm 3)) (single_point (int_imm 7))) 5.
Proof.
  assert (E : forall n, in_type (Int 32 1) n -> End (Int 32 1) (int_imm n)).
  { intros n R. constructor; [|reflexivity]. cbn. apply in_typeb_spec. exact R. }
  destruct (interval_sets (Int 32 1) (mkInterval neg_inf (int_imm 3)) (single_point (int_imm 7))) as (_ & _ & H).
  - split; [constructor|apply E]. vm_compute; intuition congruence.
  - split; apply E; vm_compute; intuition congruence.
  - destruct (H sample_env 0 5) as [U _].
    + now left.
    + split; [right; left; reflexivity|right; right]. cbn. concrete.
    + split; right; right; concrete.
    + apply U. cbn. split; [left; exact I|right; lia].
Defined.
