(* ===== verification/ScopedFact.v ===== *)
(** * Facts learned for a while

    [Simplify::ScopedFact] of src/Simplify.cpp: learning that a condition is
    true or false pushes replacements and bounds of variables and adds to the
    fact sets of the simplifier; the destructor takes all of it back. *)

From Stdlib Require Import ZArith Lia Bool List String Permutation.
From S2P Require Import Prelude.
From S2P Require Import IntArith.
From S2P Require Import Euclid.
From S2P Require Import ModulusRemainder.
From S2P Require Import Scope.
From S2P Require Import HalideTypes.
From S2P Require Import IR.
From S2P Require Import Typing.
From S2P Require Import IREquality.
From S2P Require Import IRMatch.
From S2P Require Import Visit.
From S2P Require Import ExprInfo.
Import ListNotations.
Open Scope string_scope.
Open Scope list_scope.
Open Scope Z_scope.

(** ** The state of the simplifier *)

(** [VarInfo]: an undefined replacement is [None]. *)
Record VarInfo := mkVarInfo { replacement : option Expr; old_uses : Z; new_uses : Z }.

#[export] Instance var_info_inhabited : stdpp.base.Inhabited VarInfo :=
  stdpp.base.populate (mkVarInfo None 0 0).
#[export] Instance expr_info_inhabited : stdpp.base.Inhabited ExprInfo := stdpp.base.populate no_info.

Record SimplifyState := mkState {
  var_info : Scope VarInfo;
  bounds_and_alignment_info : Scope ExprInfo;
  facts : Facts
}.

(** What a [ScopedFact] has to take back, in the order it was pushed. *)
Record ScopedFact := mkScopedFact {
  pop_list : list string;
  bounds_pop_list : list string;
  new_truths : list Expr;
  new_falsehoods : list Expr
}.

Definition no_facts : ScopedFact := mkScopedFact [] [] [] [].

(** The code changes both. *)
Definition Learning : Type := SimplifyState * ScopedFact.

(** [simplify->var_info.push] with [pop_list.push_back]. *)
Definition push_replacement (n : string) (e : Expr) (p : Learning) : Learning :=
  let '(s, f) := p in
  (mkState (push (var_info s) n (mkVarInfo (Some e) 0 0)) (bounds_and_alignment_info s) (facts s),
   mkScopedFact (pop_list f ++ [n]) (bounds_pop_list f) (new_truths f) (new_falsehoods f)).

(** Intersects with what is known of the variable, and pushes the result. *)
Definition push_bounds (n : string) (b : ExprInfo) (p : Learning) : Learning :=
  let '(s, f) := p in
  let known := bounds_and_alignment_info s in
  let b := if contains known n
           then match get known n with Some k => intersect_info b k | None => b end
           else b in
  (mkState (var_info s) (push known n b) (facts s),
   mkScopedFact (pop_list f) (bounds_pop_list f ++ [n]) (new_truths f) (new_falsehoods f)).

Definition learn_upper_bound (n : string) (val : Z) : Learning -> Learning :=
  push_bounds n (mkInfo 0 val false true mr_top).

Definition learn_lower_bound (n : string) (val : Z) : Learning -> Learning :=
  push_bounds n (mkInfo val 0 true false mr_top).

Definition insert_truth (e : Expr) (p : Learning) : Learning :=
  let '(s, f) := p in
  let '(t, fresh) := insert_fact (truths (facts s)) e in
  (mkState (var_info s) (bounds_and_alignment_info s) (mkFacts t (falsehoods (facts s))),
   mkScopedFact (pop_list f) (bounds_pop_list f)
     (if fresh then new_truths f ++ [e] else new_truths f) (new_falsehoods f)).

Definition insert_falsehood (e : Expr) (p : Learning) : Learning :=
  let '(s, f) := p in
  let '(t, fresh) := insert_fact (falsehoods (facts s)) e in
  (mkState (var_info s) (bounds_and_alignment_info s) (mkFacts (truths (facts s)) t),
   mkScopedFact (pop_list f) (bounds_pop_list f) (new_truths f)
     (if fresh then new_falsehoods f ++ [e] else new_falsehoods f)).

Definition as_variable (e : Expr) : option (HType * string) :=
  match e with EVariable t n => Some (t, n) | _ => None end.

(** [var < bound] or [var <= bound] with the offset of the bound to learn. *)
Definition learn_below (upper : string -> Z -> Learning -> Learning) (off : Z) (a b : Expr)
    (p : Learning) : Learning :=
  match as_variable a, as_const_int b with
  | Some (_, n), Some i => upper n (i64 (i + off)) p
  | _, _ => p
  end.

Section Learn.
(** What [mutate] reports of an expression. *)
Context (mutate_info : SimplifyState -> Expr -> ExprInfo).

(** The branch of [learn_true] for [a == b]. *)
Definition learn_equal (a b : Expr) (p : Learning) : Learning :=
  match a with
  | EVariable t n =>
      if is_const b || match b with EVariable _ _ => true | _ => false end
      then push_replacement n b p
      else if is_int t then push_bounds n (mutate_info (fst p) b) p
      else p
  | EBin Mod (EVariable _ n) m =>
      match as_const_int m, as_const_int b with
      | Some modulus, Some remainder => push_bounds n (mkInfo 0 0 false false (mkMR modulus remainder)) p
      | _, _ => p
      end
  | _ => p
  end.

(** [learn_true] and [learn_false]. *)
Fixpoint learn (b : bool) (fact : Expr) (p : Learning) : Learning :=
  let insert := if b then insert_truth else insert_falsehood in
  match fact with
  | EVariable t n =>
      push_replacement n (if b then const_true (lanes t) else const_false (lanes t)) p
  | ECmp EQ x y => if b then learn_equal x y p else insert fact p
  | ECmp NE x y =>
      if b then insert fact p
      else match x with
           | EVariable _ n => if is_const y then push_replacement n y p else p
           | _ => p
           end
  | ECmp LT x y =>
      if b then learn_below learn_lower_bound 1 y x (learn_below learn_upper_bound (-1) x y p)
      else learn_below learn_upper_bound 0 y x (learn_below learn_lower_bound 0 x y p)
  | ECmp LE x y =>
      if b then learn_below learn_lower_bound 0 y x (learn_below learn_upper_bound 0 x y p)
      else learn_below learn_upper_bound (-1) y x (learn_below learn_lower_bound 1 x y p)
  | EBin And x y => if b then learn b y (learn b x p) else insert fact p
  | EBin Or x y => if b then insert fact p else learn b y (learn b x p)
  | ENot x => learn (negb b) x p
  | _ => insert fact p
  end.

(** [scoped_truth] and [scoped_falsehood]. *)
Definition scoped_fact (b : bool) (fact : Expr) (s : SimplifyState) : Learning :=
  learn b fact (s, no_facts).
End Learn.

(** Popping every name of a list; [None] is an internal error. *)
Fixpoint pops {T} `{stdpp.base.Inhabited T} (names : list string) (s : Scope T) : option (Scope T) :=
  match names with
  | [] => Some s
  | n :: names' => match pop s n with Some s' => pops names' s' | None => None end
  end.

(** [~ScopedFact]. *)
Definition destroy (p : Learning) : option SimplifyState :=
  let '(s, f) := p in
  match pops (pop_list f) (var_info s), pops (bounds_pop_list f) (bounds_and_alignment_info s) with
  | Some v, Some b =>
      Some (mkState v b (mkFacts (fold_left erase_fact (new_truths f) (truths (facts s)))
                                 (fold_left erase_fact (new_falsehoods f) (falsehoods (facts s)))))
  | _, _ => None
  end.

(** ** The destructor restores the state *)

Section Pushed.
Context {T : Type} `{stdpp.base.Inhabited T}.

(** [s'] is [s] after pushes of the names of [l], in order. *)
Inductive pushed (s : Scope T) : list string -> Scope T -> Prop :=
| pushed_nil : pushed s [] s
| pushed_snoc l s' n v : pushed s l s' -> pushed s (l ++ [n]) (push s' n v).

Lemma pushed_ok s l s' : scope_ok s -> pushed s l s' -> scope_ok s'.
Proof. induction 2; auto using push_scope_ok. Qed.

(** Pops commute with pushes of other names. *)
Lemma pop_push_ne (s : Scope T) n m v s' : n <> m -> pop s m = Some s' ->
  pop (push s n v) m = Some (push s' n v).
Proof. intros N P. now apply pop_push_other. Qed.

Lemma pushed_pop s l s' n : scope_ok s -> pushed s l s' -> In n l ->
  exists l' s'', pop s' n = Some s'' /\ pushed s l' s'' /\ Permutation l (n :: l').
Proof.
  intros O P. induction P as [|l s' m v P IH]; [intros []|]. intros I.
  destruct (String.eqb_spec m n) as [->|N].
  - exists l, s'. split; [apply pop_push_scope; now apply (pushed_ok s l)|]. split; [exact P|].
    apply Permutation_sym, Permutation_cons_append.
  - apply in_app_iff in I. destruct I as [I|[->|[]]]; [|contradiction].
    destruct (IH I) as (l' & s'' & Pp & Pd & Pm). exists (l' ++ [m])%list, (push s'' m v).
    split; [now apply pop_push_ne|]. split; [now constructor|].
    now apply (Permutation_app_tail [m]) in Pm.
Qed.

(** Popping the names in any order takes the pushes back. *)
Lemma pops_pushed s : scope_ok s -> forall names l s', Permutation l names -> pushed s l s' ->
  pops names s' = Some s.
Proof.
  intros O. induction names as [|n names IH]; intros l s' Pm P; cbn [pops].
  - apply Permutation_sym, Permutation_nil in Pm. subst l.
    inversion P as [|l s1 n v P1 E]; [reflexivity|]. now destruct l.
  - destruct (pushed_pop s l s' n O P) as (l' & s'' & E & P' & Pm').
    { apply (Permutation_in n (Permutation_sym Pm)). now left. }
    rewrite E. apply (IH l'); [|exact P'].
    apply Permutation_cons_inv with n. now rewrite <- Pm', Pm.
Qed.
End Pushed.

(** [s'] is the set [s] after insertions of the new facts [l], in order. *)
Inductive inserted (s : list Expr) : list Expr -> list Expr -> Prop :=
| inserted_nil : inserted s [] s
| inserted_snoc l s' e : inserted s l s' -> wf e = true -> count s' e = false -> inserted s (l ++ [e]) (e :: s').

Definition facts_wf (l : list Expr) : Prop := Forall (fun e => wf e = true) l.

Lemma inserted_rev s l s' : inserted s l s' -> s' = rev l ++ s.
Proof. induction 1 as [|l s' e _ ->]; [reflexivity|]. now rewrite rev_app_distr. Qed.

Lemma inserted_wf s l s' : facts_wf s -> inserted s l s' -> facts_wf s'.
Proof. unfold facts_wf. induction 2; auto. Qed.

Lemma inserted_distinct s l s' : inserted s l s' -> NoDup s -> NoDup s'.
Proof.
  induction 1 as [|l s' e _ IH W C]; [auto|]. intros N. constructor; [|auto].
  intros I. apply count_In in I; [congruence|exact W].
Qed.

Lemma erase_app l1 l2 e : erase_fact (l1 ++ l2) e = erase_fact l1 e ++ erase_fact l2 e.
Proof. apply filter_app. Qed.

Lemma erase_inserted l : forall s, facts_wf (rev l ++ s) -> NoDup (rev l ++ s) ->
  fold_left erase_fact l (rev l ++ s) = s.
Proof.
  induction l as [|e l IH]; intros s W N; [reflexivity|]. cbn [fold_left rev] in *.
  assert (We : wf e = true).
  { unfold facts_wf in W. rewrite Forall_forall in W. apply W. rewrite !in_app_iff. cbn. tauto. }
  rewrite <- app_assoc in *. cbn [app] in *.
  assert (Wl : facts_wf (rev l ++ s)).
  { unfold facts_wf in *. apply Forall_app in W as [W1 W2]. apply Forall_app. split; [exact W1|]. now inversion W2. }
  pose proof (NoDup_remove _ _ _ N) as [N1 N2].
  replace (erase_fact (rev l ++ e :: s) e) with (rev l ++ s); [now apply IH|].
  rewrite erase_app. rewrite in_app_iff in N2. unfold facts_wf in *. apply Forall_app in Wl as [Wl Ws].
  f_equal; [symmetry; apply erase_absent; tauto|]. cbn [erase_fact filter].
  replace (deep_less e e || deep_less e e) with false; [symmetry; apply erase_absent; tauto|].
  unfold deep_less. now rewrite compare_expr_refl.
Qed.

(** The state is what learning made of [s0], and the lists say how. *)
Record learned_from (s0 : SimplifyState) (p : Learning) : Prop := {
  from_vars : pushed (var_info s0) (pop_list (snd p)) (var_info (fst p));
  from_bounds : pushed (bounds_and_alignment_info s0) (bounds_pop_list (snd p))
                  (bounds_and_alignment_info (fst p));
  from_truths : inserted (truths (facts s0)) (new_truths (snd p)) (truths (facts (fst p)));
  from_falsehoods : inserted (falsehoods (facts s0)) (new_falsehoods (snd p)) (falsehoods (facts (fst p)))
}.

Section Undo.
Context (mutate_info : SimplifyState -> Expr -> ExprInfo) (s0 : SimplifyState).

Lemma push_replacement_from n e p : learned_from s0 p -> learned_from s0 (push_replacement n e p).
Proof. destruct p. intros []. split; cbn in *; auto. now constructor. Qed.

Lemma push_bounds_from n b p : learned_from s0 p -> learned_from s0 (push_bounds n b p).
Proof. destruct p. intros []. split; cbn in *; auto. now constructor. Qed.

Lemma insert_from b e p : wf e = true -> learned_from s0 p ->
  learned_from s0 ((if b : bool then insert_truth else insert_falsehood) e p).
Proof.
  intros W. destruct p as [s f]. intros [V B T F]. destruct b; cbn in *; unfold insert_fact;
    (destruct (count _ e) eqn:C; split; cbn; auto; now constructor).
Qed.

Lemma learn_below_from f off a b p : (forall n v q, learned_from s0 q -> learned_from s0 (f n v q)) ->
  learned_from s0 p -> learned_from s0 (learn_below f off a b p).
Proof.
  intros Hf H. unfold learn_below. destruct (as_variable a) as [[]|]; [|exact H].
  destruct (as_const_int b); auto.
Qed.

Lemma learn_equal_from a b p : learned_from s0 p -> learned_from s0 (learn_equal mutate_info a b p).
Proof.
  intros H. unfold learn_equal. repeat case_goal; auto using push_replacement_from, push_bounds_from.
Qed.

Lemma learn_from fact : forall b p, wf fact = true -> learned_from s0 p ->
  learned_from s0 (learn mutate_info b fact p).
Proof.
  induction fact using Expr_ind'; intros pol p W L; cbn [learn]; try (now apply insert_from);
    try (apply insert_from; [exact W|exact L]).
  - now apply push_replacement_from.
  - destruct op; try (now apply insert_from); destruct (wf_bin_inv _ _ _ W) as (W1 & W2 & _);
      destruct pol; try (now apply (insert_from true)); try (now apply (insert_from false)); auto.
  - destruct op; try (now apply insert_from).
    + destruct pol; [now apply learn_equal_from|now apply (insert_from false)].
    + destruct pol; [now apply (insert_from true)|].
      destruct fact1; auto. destruct (is_const fact2); auto using push_replacement_from.
    + destruct pol; repeat (apply learn_below_from; [intros; now apply push_bounds_from|]); exact L.
    + destruct pol; repeat (apply learn_below_from; [intros; now apply push_bounds_from|]); exact L.
  - apply IHfact; [|exact L]. cbn in W. now apply andb_true_iff in W.
Qed.
End Undo.

(** The fact sets hold well-formed expressions, each once. *)
Record state_ok (s : SimplifyState) : Prop := {
  vars_ok : scope_ok (var_info s);
  bounds_ok : scope_ok (bounds_and_alignment_info s);
  truths_wf : facts_wf (truths (facts s));
  truths_distinct : NoDup (truths (facts s));
  falsehoods_wf : facts_wf (falsehoods (facts s));
  falsehoods_distinct : NoDup (falsehoods (facts s))
}.

Lemma destroy_learned s p : state_ok s -> learned_from s p -> destroy p = Some s.
Proof.
  destruct p as [s' f]. intros [V B TW TN FW FN] [Pv Pb It If]. cbn in *.
  rewrite (pops_pushed _ V _ _ _ (Permutation_refl _) Pv), (pops_pushed _ B _ _ _ (Permutation_refl _) Pb).
  pose proof (inserted_wf _ _ _ TW It) as TW'. pose proof (inserted_distinct _ _ _ It TN) as TN'.
  pose proof (inserted_wf _ _ _ FW If) as FW'. pose proof (inserted_distinct _ _ _ If FN) as FN'.
  rewrite (inserted_rev _ _ _ It) in *. rewrite (inserted_rev _ _ _ If) in *.
  rewrite !erase_inserted by assumption. now destruct s as [v b []].
Qed.

(** ** What is learned holds *)

(** Knowledge about a value that can be intersected with more. *)
Record entry_known (x : ExprInfo) (v : Z) : Prop := {
  entry_holds : info_holds x v;
  entry_room : room 63 x;
  entry_normal : mr_normal (info_alignment x)
}.

Lemma trim_min_ge min a v : 1 < modulus a -> mr_normal a -> in_int 63 (modulus a) -> in_int 63 min ->
  min <= v -> in_int 63 v -> mr_contains a v -> in_int 63 (trim_min min a).
Proof.
  intros B N R M L V A. pose proof (trim_min_sound a B N R min v M L A) as U.
  destruct (floor_aligned a B N R min M) as (q & E & Q). pose proof (N B).
  revert U. unfold trim_min. cbv zeta. rewrite E. unfold in_int in *. cbn in *.
  destruct (Z.ltb_spec (q * modulus a + remainder a) min); [|lia].
  rewrite i64_id by lia. lia.
Qed.

Lemma trim_max_le max a v : 1 < modulus a -> mr_normal a -> in_int 63 (modulus a) -> in_int 63 max ->
  v <= max -> in_int 63 v -> mr_contains a v -> in_int 63 (trim_max max a).
Proof.
  intros B N R M L V A. pose proof (trim_max_sound a B N R max v M L A) as U.
  destruct (floor_aligned a B N R max M) as (q & E & Q). pose proof (N B).
  revert U. unfold trim_max. cbv zeta. rewrite E. unfold in_int in *. cbn in *.
  destruct (Z.ltb_spec max (q * modulus a + remainder a)); [|lia].
  rewrite i64_id by lia. lia.
Qed.

Lemma pin_entry x v : in_int 63 v -> entry_known x v -> entry_known (pin_alignment x) v.
Proof.
  intros V E. pose proof E as [H [R1 R2 R3 R4] N]. pose proof (pin_alignment_sound x v H) as P. revert P.
  unfold pin_alignment. destruct (min_defined x && max_defined x && _) eqn:D; [|intros _; exact E].
  destr_and. intros P. split; [exact P| |unfold mr_normal; cbn; lia].
  split; cbn; auto. unfold in_int. lia.
Qed.

(** Trimming keeps the room. *)
Lemma trim_entry x v : in_int 63 v -> entry_known x v -> entry_known (trim_bounds_using_alignment x) v.
Proof.
  intros V E. pose proof E as [H R N]. destruct H as [Mi Ma A], R as [R1 R2 R3 R4].
  unfold trim_bounds_using_alignment. cbv zeta. apply pin_entry; [exact V|].
  destruct (Z.eqb_spec (modulus (info_alignment x)) 0) as [Z0|_].
  - assert (v = remainder (info_alignment x)) as <-.
    { destruct A as [k K]. rewrite Z0 in K. lia. }
    split; [split; cbn; auto; lia| |exact N]. split; cbn; auto.
  - destruct (Z.ltb_spec 1 (modulus (info_alignment x))) as [B|]; [|exact E].
    split; [split| |exact N]; cbn; auto.
    + intros D. rewrite D. apply trim_min_sound; auto.
    + intros D. rewrite D. apply trim_max_sound; auto.
    + split; cbn; auto; intros D; rewrite D.
      * apply trim_min_ge with v; auto.
      * apply trim_max_le with v; auto.
Qed.

Lemma intersect_entry x y v : in_int 63 v -> entry_known x v -> entry_known y v ->
  entry_known (intersect_info x y) v.
Proof.
  intros V [[Mi Ma A] [R1 R2 R3 R4] N] [[Mi' Ma' A'] [R1' R2' R3' R4'] N'].
  unfold intersect_info. apply trim_entry; [exact V|]. split; [split| |]; cbn.
  - destruct (min_defined x), (min_defined y); cbn; intros; try discriminate; auto. specialize (Mi eq_refl). lia.
  - destruct (max_defined x), (max_defined y); cbn; intros; try discriminate; auto. specialize (Ma eq_refl). lia.
  - now apply intersect_sound.
  - split; cbn.
    + destruct (min_defined x), (min_defined y); cbn; intros; try discriminate; auto.
      specialize (R1 eq_refl). specialize (R1' eq_refl). unfold in_int in *. lia.
    + destruct (max_defined x), (max_defined y); cbn; intros; try discriminate; auto.
      specialize (R2 eq_refl). specialize (R2' eq_refl). unfold in_int in *. lia.
    + unfold intersect. repeat case_goal; assumption.
    + unfold intersect. repeat case_goal; assumption.
  - unfold intersect. repeat case_goal; assumption.
Qed.

Section Known.
Context (mutate_info : SimplifyState -> Expr -> ExprInfo).
Context (ty : string -> HType) (env : Env) (i : Z).

(** The variables have one type each. *)
Definition value (n : string) : Z := ev env i (EVariable (ty n) n).

(** What the state of the simplifier says is true here. *)
Record state_known (s : SimplifyState) : Prop := {
  known_replacements : forall n info r, get (var_info s) n = Some info -> replacement info = Some r ->
    wf r = true /\ type_of r = ty n /\ ok env i r /\ ev env i r = value n;
  known_bounds : forall n x, get (bounds_and_alignment_info s) n = Some x -> entry_known x (value n);
  known_facts : facts_hold (facts s) env i
}.

Definition small_const (e : Expr) : Prop := forall k, as_const_int e = Some k -> in_int 62 k.

(** An operand of a comparison whose parts are learned about. *)
Definition operand_ok (e : Expr) : Prop :=
  small_const e /\
  match e with
  | EVariable t n => t = ty n
  | EBin Mod (EVariable t n) m => t = ty n /\ small_const m
  | _ => True
  end.

Fixpoint fact_ok (fact : Expr) : Prop :=
  match fact with
  | EVariable t n => t = ty n
  | EBin _ a b => fact_ok a /\ fact_ok b
  | ECmp _ a b => operand_ok a /\ operand_ok b
  | ENot a => fact_ok a
  | _ => True
  end.

Context (Small : forall n, in_int 63 (value n)).
Context (Mutate : forall s e, state_known s -> wf e = true -> ok env i e ->
  entry_known (mutate_info s e) (ev env i e)).

Abbreviation knows p := (state_known (fst p)).

Lemma push_replacement_knows n e p : knows p -> wf e = true -> type_of e = ty n -> ok env i e ->
  ev env i e = value n -> knows (push_replacement n e p).
Proof.
  destruct p as [s f]. intros [V B F] W T O E.
  split; cbn [fst push_replacement var_info bounds_and_alignment_info facts]; auto. intros m info r.
  destruct (String.eqb_spec m n) as [->|N].
  - rewrite get_push. intros [= <-]. cbn. intros [= <-]. auto.
  - rewrite get_push_ne by exact N. apply V.
Qed.

Lemma push_bounds_knows n b p : knows p -> entry_known b (value n) -> knows (push_bounds n b p).
Proof.
  destruct p as [s f]. intros [V B F] E.
  split; cbn [fst push_bounds var_info bounds_and_alignment_info facts]; auto. intros m x.
  destruct (String.eqb_spec m n) as [->|N].
  - rewrite get_push. intros [= <-]. destruct (contains _ n); [|exact E].
    destruct (get _ n) as [k|] eqn:G; [|exact E]. apply intersect_entry; auto.
  - rewrite get_push_ne by exact N. apply B.
Qed.

Lemma insert_In s e x : In x (fst (insert_fact s e)) -> x = e \/ In x s.
Proof. unfold insert_fact. destruct (count s e); cbn; intuition. Qed.

Lemma insert_truth_knows e p : knows p -> ev env i e = 1 -> knows (insert_truth e p).
Proof.
  destruct p as [s f]. intros [V B [Ft Ff]] E. unfold insert_truth.
  pose proof (insert_In (truths (facts s)) e) as I. destruct (insert_fact _ e) as [t fresh]. cbn in I |- *.
  split; cbn; auto. split; [|exact Ff]. cbn. intros x X. destruct (I x X) as [->|]; auto.
Qed.

Lemma insert_falsehood_knows e p : knows p -> ev env i e = 0 -> knows (insert_falsehood e p).
Proof.
  destruct p as [s f]. intros [V B [Ft Ff]] E. unfold insert_falsehood.
  pose proof (insert_In (falsehoods (facts s)) e) as I. destruct (insert_fact _ e) as [t fresh]. cbn in I |- *.
  split; cbn; auto. split; [exact Ft|]. cbn. intros x X. destruct (I x X) as [->|]; auto.
Qed.

Lemma insert_knows (b : bool) e p : knows p -> ev env i e = b2z b ->
  knows ((if b then insert_truth else insert_falsehood) e p).
Proof. destruct b; [apply insert_truth_knows|apply insert_falsehood_knows]. Qed.

Lemma as_const_int_ev e : forall k, as_const_int e = Some k -> ev env i e = k.
Proof. induction e; cbn; intros k E; try discriminate; [congruence|auto]. Qed.

Lemma upper_entry v val : in_int 63 val -> v <= val -> entry_known (mkInfo 0 val false true mr_top) v.
Proof.
  intros R L. split; [split|split|]; cbn; auto; try discriminate; try apply mr_contains_top;
    unfold in_int; cbn; lia.
Qed.

Lemma lower_entry v val : in_int 63 val -> val <= v -> entry_known (mkInfo val 0 true false mr_top) v.
Proof.
  intros R L. split; [split|split|]; cbn; auto; try discriminate; try apply mr_contains_top;
    unfold in_int; cbn; lia.
Qed.

Lemma i64_near k off : in_int 62 k -> -1 <= off <= 1 -> i64 (k + off) = k + off /\ in_int 63 (k + off).
Proof. unfold in_int. cbn. intros. split; [apply i64_id|]; lia. Qed.

(** [a <= b - ...] learned from above and below. *)
Lemma learn_upper_knows off a b p : operand_ok a -> operand_ok b -> -1 <= off <= 1 ->
  ev env i a <= ev env i b + off -> knows p -> knows (learn_below learn_upper_bound off a b p).
Proof.
  intros [_ A] [B _] O L K. unfold learn_below. destruct (as_variable a) as [[t n]|] eqn:V; [|exact K].
  destruct (as_const_int b) as [k|] eqn:C; [|exact K]. destruct a; try discriminate V. injection V as -> ->.
  cbn [operand_ok] in A. subst t. rewrite (as_const_int_ev b k C) in L.
  destruct (i64_near k off (B k C) O) as [E R]. apply push_bounds_knows; [exact K|]. rewrite E.
  now apply upper_entry.
Qed.

Lemma learn_lower_knows off a b p : operand_ok a -> operand_ok b -> -1 <= off <= 1 ->
  ev env i b + off <= ev env i a -> knows p -> knows (learn_below learn_lower_bound off a b p).
Proof.
  intros [_ A] [B _] O L K. unfold learn_below. destruct (as_variable a) as [[t n]|] eqn:V; [|exact K].
  destruct (as_const_int b) as [k|] eqn:C; [|exact K]. destruct a; try discriminate V. injection V as -> ->.
  cbn [operand_ok] in A. subst t. rewrite (as_const_int_ev b k C) in L.
  destruct (i64_near k off (B k C) O) as [E R]. apply push_bounds_knows; [exact K|]. rewrite E.
  now apply lower_entry.
Qed.
Lemma mod_entry m r v : in_int 62 m -> in_int 62 r -> m <> 0 -> emod v m = r ->
  entry_known (mkInfo 0 0 false false (mkMR m r)) v.
Proof.
  intros Rm Rr N E. pose proof (ediv_emod v m N). pose proof (emod_bound v m N).
  split; [split|split|]; cbn; try discriminate; try (unfold in_int in *; cbn in *; lia).
  - exists (ediv v m). cbn. lia.
  - unfold mr_normal. cbn. lia.
Qed.

Lemma learn_equal_knows a b p : wf (ECmp EQ a b) = true -> ok env i (ECmp EQ a b) ->
  operand_ok a -> operand_ok b -> ev env i a = ev env i b -> knows p ->
  knows (learn_equal mutate_info a b p).
Proof.
  intros W [Oa Ob] [_ A] [Sb _] E K. destruct (wf_comparison _ _ _ W) as (_ & Wb & T).
  unfold learn_equal. destruct a as [| | | | |t n|op u v| | | | | | | | |]; auto.
  - subst t. destruct (is_const b || _).
    + apply push_replacement_knows; auto.
    + destruct (is_int (ty n)); [|exact K]. apply push_bounds_knows; [exact K|].
      unfold value. rewrite E. now apply Mutate.
  - destruct op, u as [| | | | |t n| | | | | | | | | |]; auto. destruct A as [-> Sm].
    destruct (as_const_int v) as [m|] eqn:M; [|exact K]. destruct (as_const_int b) as [r|] eqn:R; [|exact K].
    apply push_bounds_knows; [exact K|]. rewrite (as_const_int_ev b r R) in E.
    cbn [ev evbin] in E. rewrite (as_const_int_ev v m M) in E. destruct Oa as (_ & _ & Nz).
    rewrite (as_const_int_ev v m M) in Nz. apply mod_entry; auto.
Qed.

Lemma bool_value (b : bool) v : b2z v = b2z b <-> v = b.
Proof. apply b2z_inj. Qed.

(** Learning preserves what the state says. *)
Lemma learn_knows fact : forall b p, wf fact = true -> is_bool (type_of fact) = true -> fact_ok fact ->
  defined env i fact -> ev env i fact = b2z b -> knows p -> knows (learn mutate_info b fact p).
Proof.
  induction fact using Expr_ind'; intros pol p W B Fo D V K; cbn [learn];
    try (apply insert_knows; assumption).
  - cbn [fact_ok type_of] in *. subst t.
    assert (T : wf_type (BoolT (lanes (ty n)))) by (apply wf_BoolT, (wf_wf_type _ W)).
    assert (S : const_spec (BoolT (lanes (ty n))) (b2z pol)
      (if pol then const_true (lanes (ty n)) else const_false (lanes (ty n)))).
    { destruct pol.
      - exact (make_const_spec _ 1 T).
      - exact (make_zero_spec _ T). }
    destruct S as [Wc Tc Ec Oc _]. apply push_replacement_knows; auto.
    + rewrite Tc. now apply bool_type.
    + rewrite Ec. symmetry. exact V.
  - destruct (wf_binary _ _ _ W) as (W1 & W2 & T & _).
    destruct op; try (apply insert_knows; assumption); cbn [fact_ok] in Fo; destruct Fo as [F1 F2];
      cbn [ev evbin] in V; rewrite b2z_inj in V;
      assert (B1 : is_bool (type_of fact1) = true) by (cbn [wf is_bool_op] in W; destr_and; assumption);
      assert (B2 : is_bool (type_of fact2) = true) by (now rewrite T);
      destruct D as [(O1 & O2 & _) (_ & Fi1 & Fi2)];
      pose proof (fits_in_type _ _ _ Fi1) as R1; pose proof (fits_in_type _ _ _ Fi2) as R2;
      rewrite <- (bool_type _ B1) in R1; rewrite <- (bool_type _ B2) in R2; rewrite in_type_bool in R1, R2;
      destruct pol; try (apply (insert_knows true); [assumption|cbn [ev evbin]; now rewrite V]);
      try (apply (insert_knows false); [assumption|cbn [ev evbin]; now rewrite V]).
    + apply andb_true_iff in V. rewrite !nz_true in V.
      apply IHfact2; auto; [now split|cbn; lia|]. apply IHfact1; auto; [now split|cbn; lia].
    + apply orb_false_iff in V. rewrite !nz_false in V.
      apply IHfact2; auto; [now split|cbn; lia|]. apply IHfact1; auto; [now split|cbn; lia].
  - cbn [fact_ok] in Fo. destruct Fo as [F1 F2]. destruct D as [O _].
    destruct op; try (apply insert_knows; assumption); cbn [ev evcmp] in V; rewrite b2z_inj in V.
    + destruct pol; [|apply (insert_knows false); [assumption|cbn [ev evcmp]; now rewrite V]].
      apply learn_equal_knows; auto. now apply Z.eqb_eq.
    + destruct pol; [apply (insert_knows true); [assumption|cbn [ev evcmp]; now rewrite V]|].
      apply negb_false_iff, Z.eqb_eq in V. destruct (wf_comparison _ _ _ W) as (_ & W2 & T).
      destruct fact1; auto. destruct (is_const fact2); [|exact K]. destruct F1 as [_ ->], O as [_ O2].
      apply push_replacement_knows; auto.
    + destruct pol; zify_bool.
      * apply learn_lower_knows; auto; try lia. apply learn_upper_knows; auto; lia.
      * apply learn_upper_knows; auto; try lia. apply learn_lower_knows; auto; lia.
    + destruct pol; zify_bool.
      * apply learn_lower_knows; auto; try lia. apply learn_upper_knows; auto; lia.
      * apply learn_upper_knows; auto; try lia. apply learn_lower_knows; auto; lia.
  - cbn [wf fact_ok] in *. destr_and. destruct D as [O [_ Fi]]. apply IHfact; auto; [now split|].
    pose proof (fits_in_type _ _ _ Fi) as R. rewrite <- (bool_type (type_of fact)), in_type_bool in R by assumption.
    cbn [ev] in V. rewrite b2z_inj in V. destruct R as [R|R]; rewrite R in *; destruct pol; cbn in *; congruence.
Qed.
End Known.

(** ** Theorems *)

(** C21: The destructor of a [ScopedFact] restores the
    state it was made in: the scopes, popped in the order of the pushes, and the
    fact sets; no pop fails. *)
Theorem scoped_fact_roundtrip mutate_info s b fact : state_ok s -> wf fact = true ->
  destroy (scoped_fact mutate_info b fact s) = Some s.
Proof.
  intros O W. apply destroy_learned; [exact O|]. apply learn_from; [exact W|]. repeat constructor.
Qed.

Definition empty_state : SimplifyState := mkState empty_scope empty_scope (mkFacts [] []).

Lemma empty_state_ok : state_ok empty_state.
Proof. split; try apply empty_scope_ok; constructor. Qed.

(** [x < 10 && (y % 8 == 3 && b)] *)
Definition sample_fact : Expr :=
  EBin And (ECmp LT (int_var "x") (int_imm 10))
    (EBin And (ECmp EQ (EBin Mod (int_var "y") (int_imm 8)) (int_imm 3)) (bool_var "b")).

Definition knows_nothing (s : SimplifyState) (e : Expr) : ExprInfo := no_info.

Lemma scoped_fact_roundtrip_witness :
  destroy (scoped_fact knows_nothing true sample_fact empty_state) = Some empty_state.
Proof. exact (scoped_fact_roundtrip knows_nothing empty_state true sample_fact empty_state_ok eq_refl). Defined.

(** C20: What the state says of the variables and of the
    facts stays true when the simplifier learns a condition that is true, or
    that a condition is false that is: the replacements have the values of
    their variables, the bounds and alignments contain them, the truths are
    true and the falsehoods false. *)
Theorem scoped_fact_sound mutate_info ty env i b fact s :
  (forall n, in_int 63 (value ty env i n)) ->
  (forall s e, state_known ty env i s -> wf e = true -> ok env i e ->
     entry_known (mutate_info s e) (ev env i e)) ->
  wf fact = true -> is_bool (type_of fact) = true -> fact_ok ty fact -> defined env i fact ->
  ev env i fact = b2z b -> state_known ty env i s ->
  state_known ty env i (fst (scoped_fact mutate_info b fact s)).
Proof. intros Sm Mu W B F D V K. now apply learn_knows. Qed.

Lemma empty_state_known ty env i : state_known ty env i empty_state.
Proof. split; cbn; try discriminate. split; intros e []. Qed.

(** Variables of at most 32 bits leave room. *)
Lemma value_small ty env i n : int_type (ty n) = true -> bits (ty n) <= 32 -> in_int 63 (value ty env i n).
Proof.
  intros I B. unfold value. cbn [ev]. pose proof (cast_val_range (ty n) (var env n (lane_of (ty n) i)) I) as R.
  unfold in_type, tmin, tmax, in_int in *. set (v := cast_val _ _) in *. clearbody v. cbn.
  pose proof (int_type_bits (ty n) I).
  assert (2 ^ (bits (ty n) - 1) <= 2 ^ 31) by (apply Z.pow_le_mono_r; lia).
  assert (2 ^ bits (ty n) <= 2 ^ 32) by (apply Z.pow_le_mono_r; lia).
  destruct (is_int (ty n)); lia.
Qed.

Lemma no_info_entry v : entry_known no_info v.
Proof. split; [apply no_info_holds| |apply mr_top_normal]. split; cbn; try discriminate; unfold in_int; lia. Qed.

(** With [x = 5], [y = 11] and [b] true, the bound 9 of [x] is found. *)
Lemma scoped_fact_sound_witness :
  let ty n := if String.eqb n "b" then BoolT 1 else Int 32 1 in
  let env := mkEnv (fun n _ => if String.eqb n "x" then 5 else if String.eqb n "y" then 11 else 1)
    (fun _ _ => 0) (fun _ _ _ _ => 0) in
  let s := fst (scoped_fact knows_nothing true sample_fact empty_state) in
  state_known ty env 0 s /\
  get (bounds_and_alignment_info s) "x" = Some (mkInfo 0 9 false true mr_top) /\
  get (bounds_and_alignment_info s) "y" = Some (mkInfo 0 0 false false (mkMR 8 3)).
Proof.
  cbv zeta. split; [|split; vm_compute; reflexivity].
  apply scoped_fact_sound; try reflexivity.
  - intros n. apply value_small; destruct (String.eqb n "b"); cbn; congruence || lia.
  - intros s e _ _ _. apply no_info_entry.
  - cbn. unfold operand_ok, small_const, in_int. cbn.
    repeat split; intros; try discriminate; try match goal with H : Some _ = Some _ |- _ => injection H as <- end;
      vm_compute; congruence.
  - cbn. unfold in_type. cbn. repeat split; vm_compute; congruence.
  - apply empty_state_known.
Defined.
