(* ===== verification/Intrinsics.v ===== *)
(** * Integer intrinsics

    What src/IROperator.h documents of the values of the intrinsics that
    src/Simplify_Call.cpp folds, and the bit counts it folds them with. *)

From Stdlib Require Import ZArith Lia Bool List String.
From S2P Require Import Prelude.
From S2P Require Import IntArith.
From S2P Require Import HalideTypes.
From S2P Require Import IR.
Import ListNotations.
Open Scope string_scope.
Open Scope list_scope.
Open Scope Z_scope.

(** ** Counting bits *)

Definition UINT64_MAX : Z := 2 ^ 64 - 1.

(** The builtins [popcount64], [clz64] and [ctz64] stand for; the latter two
    are not used at zero. *)
Definition popcount64 (x : Z) : Z :=
  fold_left (fun n k => if Z.testbit x (Z.of_nat k) then n + 1 else n) (seq 0 64) 0.

Definition clz64 (x : Z) : Z := 63 - Z.log2 x.

Fixpoint ctz_pos (p : positive) : Z := match p with xO q => 1 + ctz_pos q | _ => 0 end.
Definition ctz64 (x : Z) : Z := match x with Zpos p => ctz_pos p | _ => 64 end.

Inductive BitCount := Popcount | Leading | Trailing.

(** The fold of [Simplify::visit(const Call)]; [ua] is the constant, as a
    64-bit pattern. *)
Definition fold_count (c : BitCount) (bits ua : Z) : Z :=
  let mask := Z.shiftr UINT64_MAX (64 - bits) in
  let ua := Z.land ua mask in
  match c with
  | Popcount => popcount64 ua
  | Leading => if ua =? 0 then bits else clz64 ua - (64 - bits)
  | Trailing => if ua =? 0 then bits else ctz64 ua
  end.

(** The bits of an [n]-bit word: how many are one, how many zeros there are
    before the highest one, and after the lowest. *)
Fixpoint ones (n : nat) (u : Z) : Z :=
  match n with O => 0 | S k => ones k u + (if Z.testbit u (Z.of_nat k) then 1 else 0) end.

Fixpoint leading_zeros (n : nat) (u : Z) : Z :=
  match n with O => 0 | S k => if Z.testbit u (Z.of_nat k) then 0 else 1 + leading_zeros k u end.

Fixpoint trailing_zeros (n : nat) (u : Z) : Z :=
  match n with O => 0 | S k => if Z.odd u then 0 else 1 + trailing_zeros k (Z.div2 u) end.

Definition counted (c : BitCount) (bits u : Z) : Z :=
  let n := Z.to_nat bits in
  match c with Popcount => ones n u | Leading => leading_zeros n u | Trailing => trailing_zeros n u end.

Lemma fold_ones x : forall l n, fold_left (fun n k => if Z.testbit x (Z.of_nat k) then n + 1 else n) l n =
  n + fold_right (fun k m => m + (if Z.testbit x (Z.of_nat k) then 1 else 0)) 0 l.
Proof. induction l as [|k l IH]; intros n; cbn; [lia|]. rewrite IH. destruct (Z.testbit x _); lia. Qed.

Lemma ones_seq x n : ones n x = fold_right (fun k m => m + (if Z.testbit x (Z.of_nat k) then 1 else 0)) 0 (seq 0 n).
Proof.
  assert (S : forall l a, fold_right (fun k m => m + (if Z.testbit x (Z.of_nat k) then 1 else 0)) 0 (l ++ [a]) =
    fold_right (fun k m => m + (if Z.testbit x (Z.of_nat k) then 1 else 0)) 0 l + (if Z.testbit x (Z.of_nat a) then 1 else 0)).
  { induction l as [|b l IH]; intros a; cbn; [lia|]. rewrite IH. lia. }
  induction n as [|n IH]; [reflexivity|]. rewrite seq_S, S. cbn. now rewrite IH.
Qed.

Lemma high_bit u n k : 0 <= u < 2 ^ n -> n <= k -> Z.testbit u k = false.
Proof.
  intros R K. destruct (Z.eq_dec u 0) as [->|N]; [apply Z.bits_0|]. apply Z.bits_above_log2; [lia|].
  apply Z.log2_lt_pow2; [lia|]. apply (Z.lt_le_trans _ (2 ^ n)); [lia|]. apply Z.pow_le_mono_r; lia.
Qed.

Lemma ones_high u n m : 0 <= u < 2 ^ Z.of_nat n -> (n <= m)%nat -> ones m u = ones n u.
Proof.
  intros R. induction 1 as [|m L IH]; [reflexivity|]. cbn [ones].
  rewrite (high_bit u (Z.of_nat n)) by lia. lia.
Qed.

Lemma leading_log2 u n : 0 < u < 2 ^ Z.of_nat n -> leading_zeros n u = Z.of_nat n - 1 - Z.log2 u.
Proof.
  induction n as [|n IH]; intros R; [cbn in R; lia|]. cbn [leading_zeros]. rewrite Nat2Z.inj_succ, Z.pow_succ_r in R by lia.
  destruct (Z.lt_ge_cases u (2 ^ Z.of_nat n)) as [L|L].
  - rewrite (high_bit u (Z.of_nat n)) by lia. rewrite IH by lia. lia.
  - assert (E : Z.log2 u = Z.of_nat n) by (apply Z.log2_unique; [lia|rewrite Z.pow_succ_r; lia]).
    rewrite <- E, Z.bit_log2 by lia. lia.
Qed.

Lemma leading_zero n : leading_zeros n 0 = Z.of_nat n.
Proof. induction n as [|n IH]; [reflexivity|]. cbn [leading_zeros]. rewrite Z.bits_0, IH. lia. Qed.

Lemma trailing_zero n : trailing_zeros n 0 = Z.of_nat n.
Proof. induction n as [|n IH]; [reflexivity|]. cbn [trailing_zeros Z.odd Z.div2]. rewrite IH. lia. Qed.

Lemma trailing_ctz p : forall n, Zpos p < 2 ^ Z.of_nat n -> trailing_zeros n (Zpos p) = ctz_pos p.
Proof.
  induction p as [p IH|p IH|]; intros [|n] L; try (cbn in L; lia); try reflexivity.
  cbn [trailing_zeros Z.odd Z.div2 ctz_pos]. rewrite Nat2Z.inj_succ, Z.pow_succ_r in L by lia. rewrite IH by lia. reflexivity.
Qed.

Lemma land_mask v bits : 1 <= bits <= 64 -> Z.land v (Z.shiftr UINT64_MAX (64 - bits)) = wrap_u bits v.
Proof.
  intros B. unfold wrap_u. change UINT64_MAX with (Z.ones 64).
  replace (Z.shiftr (Z.ones 64) (64 - bits)) with (Z.ones bits); [rewrite Z.land_ones by lia; reflexivity|].
  rewrite Z.shiftr_div_pow2, !Z.ones_equiv by lia. replace 64 with (bits + (64 - bits)) at 1 by lia.
  rewrite Z.pow_add_r by lia. pose proof (Z.pow_pos_nonneg 2 (64 - bits) ltac:(lia) ltac:(lia)).
  apply (Z.div_unique _ _ _ (2 ^ (64 - bits) - 1)); lia.
Qed.

(** The fold counts the bits of the word of the type. *)
Lemma fold_count_counted c bits ua : 1 <= bits <= 64 -> fold_count c bits ua = counted c bits (wrap_u bits ua).
Proof.
  intros B. unfold fold_count, counted. cbv zeta. rewrite land_mask by exact B.
  pose proof (wrap_u_range bits ltac:(lia) ua) as R. set (u := wrap_u bits ua) in *. clearbody u.
  assert (N : Z.of_nat (Z.to_nat bits) = bits) by lia. rewrite <- N in R. destruct c.
  - unfold popcount64. rewrite fold_ones, <- (ones_seq u 64). rewrite (ones_high u (Z.to_nat bits)); lia.
  - destruct (Z.eqb_spec u 0) as [->|Z0]; [now rewrite leading_zero|]. rewrite leading_log2 by lia. unfold clz64. lia.
  - destruct (Z.eqb_spec u 0) as [->|Z0]; [now rewrite trailing_zero|]. destruct u as [|p|p]; try lia.
    symmetry. now apply trailing_ctz.
Qed.

(** ** What intrinsics mean *)

Definition count_name (c : BitCount) : string :=
  match c with Popcount => "popcount" | Leading => "count_leading_zeros" | Trailing => "count_trailing_zeros" end.

(** The documented values: bit operations work on two's complement
    representations, shifts by less than the width move bits and keep the sign,
    [abs] and [absd] are distances. *)
Record documented (env : Env) : Prop := {
  doc_count : forall c t i x, ext env (count_name c) t i [x] = counted c (bits t) (wrap_u (bits t) x);
  doc_and : forall t i x y, ext env "bitwise_and" t i [x; y] = Z.land x y;
  doc_or : forall t i x y, ext env "bitwise_or" t i [x; y] = Z.lor x y;
  doc_xor : forall t i x y, ext env "bitwise_xor" t i [x; y] = Z.lxor x y;
  doc_not : forall t i x, ext env "bitwise_not" t i [x] = Z.lnot x;
  doc_shl : forall t i x y, 0 <= y < bits t -> ext env "shift_left" t i [x; y] = x * 2 ^ y;
  doc_shr : forall t i x y, 0 <= y < bits t -> ext env "shift_right" t i [x; y] = x / 2 ^ y;
  doc_reinterpret : forall t i x, ext env "reinterpret" t i [x] = x;
  doc_abs : forall t i x, ext env "abs" t i [x] = Z.abs x;
  doc_absd : forall t i x y, ext env "absd" t i [x; y] = Z.abs (x - y)
}.

(** Such an interpretation. *)
Definition standard_ext (name : string) (t : HType) (i : Z) (args : list Z) : Z :=
  match args with
  | [x] =>
      if String.eqb name (count_name Popcount) then counted Popcount (bits t) (wrap_u (bits t) x)
      else if String.eqb name (count_name Leading) then counted Leading (bits t) (wrap_u (bits t) x)
      else if String.eqb name (count_name Trailing) then counted Trailing (bits t) (wrap_u (bits t) x)
      else if String.eqb name "bitwise_not" then Z.lnot x
      else if String.eqb name "abs" then Z.abs x
      else x
  | [x; y] =>
      if String.eqb name "bitwise_and" then Z.land x y
      else if String.eqb name "bitwise_or" then Z.lor x y
      else if String.eqb name "bitwise_xor" then Z.lxor x y
      else if String.eqb name "shift_left" then x * 2 ^ y
      else if String.eqb name "shift_right" then x / 2 ^ y
      else if String.eqb name "absd" then Z.abs (x - y)
      else x
  | x :: _ => x
  | [] => 0
  end.

Lemma standard_documented v m : documented (mkEnv v m standard_ext).
Proof. split; intros; try reflexivity. now destruct c. Qed.

(** ** Values modulo the width *)

Lemma wrap_congruent t x y k : int_type t = true -> x = y + k * 2 ^ bits t -> cast_val t x = cast_val t y.
Proof.
  intros I ->. pose proof (int_type_bits t I) as B. unfold cast_val, int_type in *.
  destruct (code t); try discriminate; [apply wrap_s_shift|apply wrap_u_shift]; lia.
Qed.

Lemma cast_val_64 t x y k : int_type t = true -> x = y + k * 2 ^ 64 -> cast_val t x = cast_val t y.
Proof.
  intros I E. pose proof (int_type_bits t I) as B. apply (wrap_congruent t x y (k * 2 ^ (64 - bits t))); [exact I|].
  rewrite E, <- Z.mul_assoc, <- Z.pow_add_r by lia. now replace (64 - bits t + bits t) with 64 by lia.
Qed.

Lemma cast_val_i64 t v : int_type t = true -> cast_val t (i64 v) = cast_val t v.
Proof.
  intros I. destruct (wrap_s_cong 64 ltac:(lia) v) as [k E]. now apply (cast_val_64 t _ _ k).
Qed.

Lemma cast_val_u64 t v : int_type t = true -> cast_val t (u64 v) = cast_val t v.
Proof.
  intros I. destruct (wrap_u_cong 64 ltac:(lia) v) as [k E]. now apply (cast_val_64 t _ _ k).
Qed.

Lemma cast_val_norm t v : int_type t = true -> cast_val t (norm t v) = cast_val t v.
Proof.
  intros I. destruct (norm_cong t v I) as (k & E & _). now apply (wrap_congruent t _ _ k).
Qed.

Lemma cast_val_eq t a b : int_type t = true -> cast_val t a = cast_val t b -> in_type t a -> cast_val t b = a.
Proof. intros I <- R. now apply cast_val_id. Qed.

(** A value and its counterpart in a type of the same width. *)
Lemma cast_val_twice t u v : int_type t = true -> int_type u = true -> bits u = bits t ->
  cast_val t (cast_val u v) = cast_val t v.
Proof.
  intros I J B. pose proof (int_type_bits u J) as Bu.
  assert (E : exists k, cast_val u v = v + k * 2 ^ bits u).
  { unfold cast_val, int_type in *. destruct (code u); try discriminate; [apply wrap_s_cong|apply wrap_u_cong]; lia. }
  destruct E as [k E]. apply (wrap_congruent t _ _ k); [exact I|]. now rewrite <- B.
Qed.

(** Shifting by all bits but one leaves the lowest. *)
Lemma shift_to_sign t x : int_type t = true ->
  cast_val t (x * 2 ^ (bits t - 1)) = (if Z.odd x then cast_val t (2 ^ (bits t - 1)) else 0).
Proof.
  intros I. pose proof (int_type_bits t I) as B. rewrite <- (cast_val_0 t I).
  assert (P : 2 ^ bits t = 2 * 2 ^ (bits t - 1)) by (rewrite <- Z.pow_succ_r by lia; f_equal; lia).
  pose proof (Zdiv2_odd_eqn x) as E. destruct (Z.odd x);
    apply (wrap_congruent t _ _ (Z.div2 x)); auto; rewrite P, E at 1; lia.
Qed.
