(* ===== verification/SimplifyAdd.v ===== *)
(** * Sums

    The rewrite rules and the visit method of src/Simplify_Add.cpp. *)

From Stdlib Require Import ZArith Lia Bool List String.
From S2P Require Import Prelude.
From S2P Require Import IntArith.
From S2P Require Import ModulusRemainder.
From S2P Require Import HalideTypes.
From S2P Require Import IR.
From S2P Require Import IREquality.
From S2P Require Import IRMatch.
From S2P Require Import PatNotations.
From S2P Require Import RuleSem.
From S2P Require Import Euclid.
From S2P Require Import RuleTac.
From S2P Require Import MatchSound.
From S2P Require Import FoldSound.
From S2P Require Import MakeSound.
From S2P Require Import RuleSound.
From S2P Require Import Visit.
From S2P Require Import TableTac.
From S2P Require Import ExprInfo.
Import ListNotations.

Local Open Scope pat_scope.

(** src/Simplify_Add.cpp, lines 31 to 37. *)
Definition add_done_1 : list Rule :=
  [ c0 + c1 ~> fold(c0 + c1) ;
    PIndeterminate + x ~> arg_a ;
    x + PIndeterminate ~> arg_b ;
    POverflow + x ~> arg_a ;
    x + POverflow ~> arg_b ;
    x + 0 ~> x ;
    0 + x ~> x ].

(** The rules whose result the visitor returns. *)
Definition add_done : list Rule :=
  add_done_1.

(** src/Simplify_Add.cpp, lines 42 to 77. *)
Definition add_again_1 (T : HType) : list Rule :=
  let lanes := lanes T in
  [ x + x ~> x * 2 ;
    ramp(x, y) + ramp(z, w) ~> ramp3(x + z, y + w, lanes) ;
    ramp(x, y) + broadcast(z) ~> ramp3(x + z, y, lanes) ;
    broadcast(x) + broadcast(y) ~> broadcast2(x + y, lanes) ;
    select(x, y, z) + select(x, w, u) ~> select(x, y + w, z + u) ;
    select(x, c0, c1) + c2 ~> select(x, fold(c0 + c2), fold(c1 + c2)) ;
    select(x, y, c1) + c2 ~> select(x, y + c2, fold(c1 + c2)) ;
    select(x, c0, y) + c2 ~> select(x, fold(c0 + c2), y + c2) ;
    select(x, y, z) + w + select(x, u, v) ~> select(x, y + u, z + v) + w ;
    w + select(x, y, z) + select(x, u, v) ~> select(x, y + u, z + v) + w ;
    select(x, y, z) + (select(x, u, v) + w) ~> select(x, y + u, z + v) + w ;
    select(x, y, z) + (w + select(x, u, v)) ~> select(x, y + u, z + v) + w ;
    select(x, y, z) - w + select(x, u, v) ~> select(x, y + u, z + v) - w ;
    select(x, y, z) + (select(x, u, v) - w) ~> select(x, y + u, z + v) - w ;
    w - select(x, y, z) + select(x, u, v) ~> select(x, u - y, v - z) + w ;
    select(x, y, z) + (w - select(x, u, v)) ~> select(x, y - u, z - v) + w ;
    x + c0 + c1 ~> x + fold(c0 + c1) ;
    x + c0 + y ~> x + y + c0 ;
    x + (y + c0) ~> x + y + c0 ;
    c0 - x + c1 ~> fold(c0 + c1) - x ;
    c0 - x + y ~> y - x + c0 ;
    x - y + y ~> x ;
    x + (y - x) ~> y ;
    x + (c0 - y) ~> x - y + c0 ;
    x - y + (y - z) ~> x - z ;
    x - y + (z - x) ~> z - y ;
    x + y * c0 ~> x - y * - c0 only_if (c0 < 0) && (- c0 > 0) ;
    x * c0 + y ~> y - x * - c0 only_if (c0 < 0) && (- c0 > 0) && ! PIsConst y ;
    x * y + z * y ~> (x + z) * y ;
    x * y + y * z ~> (x + z) * y ;
    y * x + z * y ~> y * (x + z) ;
    y * x + y * z ~> y * (x + z) ;
    x * c0 + y * c1 ~> (x + y * fold(c1 / c0)) * c0 only_if c1 mod c0 == 0 ;
    x * c0 + y * c1 ~> (x * fold(c0 / c1) + y) * c1 only_if c0 mod c1 == 0 ].

(** src/Simplify_Add.cpp, lines 79 to 108. *)
Definition add_again_2 : list Rule :=
  [ x + x * y ~> x * (y + 1) ;
    x + y * x ~> (y + 1) * x ;
    x * y + x ~> x * (y + 1) ;
    y * x + x ~> (y + 1) * x only_if ! PIsConst x ;
    (x + c0) / c1 + c2 ~> (x + fold(c0 + c1 * c2)) / c1 ;
    x + (y + c0) / c1 + c2 ~> x + (y + fold(c0 + c1 * c2)) / c1 ;
    (y + c0) / c1 + x + c2 ~> x + (y + fold(c0 + c1 * c2)) / c1 ;
    (c0 - x) / c1 + c2 ~> (fold(c0 + c1 * c2) - x) / c1 only_if (c0 != 0) && (c1 != 0) ;
    x + (x + y) / c0 ~> (fold(c0 + 1) * x + y) / c0 ;
    x + (y + x) / c0 ~> (fold(c0 + 1) * x + y) / c0 ;
    x + (y - x) / c0 ~> (fold(c0 - 1) * x + y) / c0 ;
    x + (x - y) / c0 ~> (fold(c0 + 1) * x - y) / c0 ;
    (x - y) / c0 + x ~> (fold(c0 + 1) * x - y) / c0 ;
    (y - x) / c0 + x ~> (y + fold(c0 - 1) * x) / c0 ;
    (x + y) / c0 + x ~> (fold(c0 + 1) * x + y) / c0 ;
    (y + x) / c0 + x ~> (y + fold(c0 + 1) * x) / c0 ;
    min(x, y - z) + z ~> min(x + z, y) ;
    min(y - z, x) + z ~> min(y, x + z) ;
    min(x, y + c0) + c1 ~> min(x + c1, y) only_if c0 + c1 == 0 ;
    min(y + c0, x) + c1 ~> min(y, x + c1) only_if c0 + c1 == 0 ;
    z + min(x, y - z) ~> min(z + x, y) ;
    z + min(y - z, x) ~> min(y, z + x) ;
    z + max(x, y - z) ~> max(z + x, y) ;
    z + max(y - z, x) ~> max(y, z + x) ;
    max(x, y - z) + z ~> max(x + z, y) ;
    max(y - z, x) + z ~> max(y, x + z) ;
    max(x, y + c0) + c1 ~> max(x + c1, y) only_if c0 + c1 == 0 ;
    max(y + c0, x) + c1 ~> max(y, x + c1) only_if c0 + c1 == 0 ;
    max(x, y) + min(x, y) ~> x + y ;
    max(x, y) + min(y, x) ~> x + y ].

(** src/Simplify_Add.cpp, lines 110 to 123. *)
Definition add_again_3 : list Rule :=
  [ x / y * y + x mod y ~> x ;
    (z + x / y) * y + x mod y ~> z * y + x ;
    (x / y + z) * y + x mod y ~> x + z * y ;
    x mod y + (x / y * y + z) ~> x + z ;
    x mod y + (x / y * y - z) ~> x - z ;
    x mod y + (z + x / y * y) ~> x + z ;
    x / y * y + (x mod y + z) ~> x + z ;
    x / y * y + (x mod y - z) ~> x - z ;
    x / y * y + (z + x mod y) ~> x + z ;
    x / 2 + x mod 2 ~> (x + 1) / 2 ;
    x + (c0 - x) / c1 * c1 ~> c0 - (c0 - x) mod c1 only_if c1 > 0 ;
    x + ((c0 - x) / c1 + y) * c1 ~> y * c1 - (c0 - x) mod c1 + c0 only_if c1 > 0 ;
    x + (y + (c0 - x) / c1) * c1 ~> y * c1 - (c0 - x) mod c1 + c0 only_if c1 > 0 ].

(** The rules whose result it simplifies again. *)
Definition add_again (T : HType) : list Rule :=
  add_again_1 T ++
  when (no_overflow T) (add_again_2) ++
  when (no_overflow_int T) (add_again_3).

Local Close Scope pat_scope.
#[local] Open Scope Z_scope.

(** ** The groups of rules are well typed and sound *)

Lemma add_done_1_good l (T : HType) :
  good_tables l T T add_done_1.
Proof. unfold add_done_1. plain_group. Qed.

Lemma add_again_1_good l (T : HType) :
  good_tables l T T (add_again_1 T).
Proof. unfold add_again_1. plain_group. Qed.

Lemma add_again_2_good l (T : HType) : no_overflow T = true ->
  good_tables l T T add_again_2.
Proof. intros G0. unfold add_again_2. wide_group G0. Qed.

Lemma add_again_3_good l (T : HType) : no_overflow_int T = true ->
  good_tables l T T add_again_3.
Proof. intros G0. unfold add_again_3. wide_group G0. Qed.

Lemma add_done_good l (T : HType) :
  good_tables l T T add_done.
Proof.
  unfold add_done. good_table; eauto using add_done_1_good.
Qed.

Lemma add_again_good l (T : HType) :
  good_tables l T T (add_again T).
Proof.
  unfold add_again. good_table; eauto using add_again_1_good, add_again_2_good, add_again_3_good.
Qed.


(** ** The bounds of a sum *)

Definition raw_add_bounds (a b : ExprInfo) : ExprInfo :=
  mkInfo (i64 (info_min a + info_min b)) (i64 (info_max a + info_max b))
    (min_defined a && min_defined b) (max_defined a && max_defined b)
    (mr_add (info_alignment a) (info_alignment b)).

Definition add_bounds (t : HType) (a b : ExprInfo) : ExprInfo :=
  if no_overflow_int t then trim_bounds_using_alignment (raw_add_bounds a b) else no_info.

Lemma add_trimmable a b : room 62 a -> room 62 b -> trimmable (raw_add_bounds a b).
Proof.
  intros [Amin Amax Am Ar] [Bmin Bmax Bm Br]. split; cbn.
  - apply mr_add_normal.
  - intros D. destr_and. destruct (i64_add (info_min a) (info_min b)) as [-> R]; auto.
  - intros D. destr_and. destruct (i64_add (info_max a) (info_max b)) as [-> R]; auto.
  - now apply mr_add_room.
Qed.

Lemma add_bounds_hold env i a b A B : room 62 A -> room 62 B ->
  info_holds A (ev env i a) -> info_holds B (ev env i b) ->
  info_holds (add_bounds (type_of a) A B) (ev env i (EBin Add a b)).
Proof.
  intros RA RB [Amin Amax Aa] [Bmin Bmax Ba]. unfold add_bounds.
  destruct (no_overflow_int (type_of a)) eqn:N; [|apply no_info_holds].
  apply trim_sound; [now apply add_trimmable|]. cbn [ev evbin]. rewrite norm_no_overflow by exact N.
  split; cbn.
  - intros D. destr_and. destruct (i64_add (info_min A) (info_min B)) as [-> _];
      [now apply (room_min 62 A)|now apply (room_min 62 B)|]. specialize (Amin H). specialize (Bmin H0). lia.
  - intros D. destr_and. destruct (i64_add (info_max A) (info_max B)) as [-> _];
      [now apply (room_max 62 A)|now apply (room_max 62 B)|]. specialize (Amax H). specialize (Bmax H0). lia.
  - now apply mr_add_sound.
Qed.


(** ** The visit method *)

Section Visit.
Context {prover : Prover} (no_float_simplify : bool).

(** [Simplify::visit(const Add)], from the simplified operands on. *)
Definition visit_Add (a b : Expr) : M Step :=
  let t := type_of (EBin Add a b) in
  if may_simplify no_float_simplify t then
    let '(a, b) := commute a b in
    apply_tables (EBin Add a b) add_done (add_again t) (hoist_slice_vector Add a b)
  else ret (Kept (EBin Add a b)).

Lemma visit_Add_keeps a b c st c' : wf (EBin Add a b) = true ->
  visit_Add a b c = (st, c') -> correct_step c c' [] (EBin Add a b) st.
Proof.
  intros W. unfold visit_Add. destruct (may_simplify _ _).
  - destruct (commute a b) as [a' b'] eqn:C.
    pose proof (commute_stands_for Add a b a' b' eq_refl W C) as S. pose proof S as (W' & T & _).
    intros E. eapply (correct_tables [] _ (EBin Add a' b')); [exact S| | | |exact E].
    + now apply hoist_keeps.
    + apply add_done_good.
    + rewrite <- T. apply add_again_good.
  - intros [= <- _]. eapply correct_kept; eauto with halide.
Qed.

(** C5: The visit of a sum preserves its type and value. *)
Theorem visit_Add_correct a b c st c' : wf (EBin Add a b) = true ->
  visit_Add a b c = (st, c') -> correct_step c c' [] (EBin Add a b) st.
Proof. exact (visit_Add_keeps a b c st c'). Qed.
End Visit.


Lemma visit_Add_correct_witness :
  let e := EBin Add (EBin Sub (int_var "x") (int_var "y")) (int_var "y") in
  let st := fst (visit_Add (prover := literal_prover) false (EBin Sub (int_var "x") (int_var "y")) (int_var "y") no_counters) in
  step_expr st = int_var "x" /\ same_meaning sample_env 0 e (step_expr st).
Proof.
  split; [vm_compute; reflexivity|].
  apply (visit_Add_correct (prover := literal_prover) false (EBin Sub (int_var "x") (int_var "y")) (int_var "y")
    no_counters _ _ eq_refl (surjective_pairing _)); concrete.
Defined.
