(* ===== verification/SimplifySub.v ===== *)
(** * Differences

    The rewrite rules and the visit method of src/Simplify_Sub.cpp. *)

From Stdlib Require Import ZArith Lia Bool List String.
From S2P Require Import Prelude.
From S2P Require Import IntArith.
From S2P Require Import ModulusRemainder.
From S2P Require Import HalideTypes.
From S2P Require Import IR.
From S2P Require Import IREquality.
From S2P Require Import IRMatch.
From S2P Require Import PatNotations.
From S2P Require Import RuleSem.
From S2P Require Import Euclid.
From S2P Require Import RuleTac.
From S2P Require Import MatchSound.
From S2P Require Import FoldSound.
From S2P Require Import MakeSound.
From S2P Require Import RuleSound.
From S2P Require Import Visit.
From S2P Require Import TableTac.
From S2P Require Import ExprInfo.
Import ListNotations.

Local Open Scope pat_scope.

(** src/Simplify_Sub.cpp, lines 28 to 33. *)
Definition sub_done_1 : list Rule :=
  [ c0 - c1 ~> fold(c0 - c1) ;
    PIndeterminate - x ~> arg_a ;
    x - PIndeterminate ~> arg_b ;
    POverflow - x ~> arg_a ;
    x - POverflow ~> arg_b ;
    x - 0 ~> x ].

(** The rules whose result the visitor returns. *)
Definition sub_done : list Rule :=
  sub_done_1.

(** src/Simplify_Sub.cpp, lines 38 to 38. *)
Definition sub_again_1 : list Rule :=
  [ x - c0 ~> x + fold(- c0) only_if ! overflows(- c0) ].

(** src/Simplify_Sub.cpp, lines 39 to 81. *)
Definition sub_again_2 (T : HType) : list Rule :=
  let lanes := lanes T in
  [ x - x ~> 0 ;
    ramp(x, y) - ramp(z, w) ~> ramp3(x - z, y - w, lanes) ;
    ramp(x, y) - broadcast(z) ~> ramp3(x - z, y, lanes) ;
    broadcast(x) - ramp(z, w) ~> ramp3(x - z, - w, lanes) ;
    broadcast(x) - broadcast(y) ~> broadcast2(x - y, lanes) ;
    select(x, y, z) - select(x, w, u) ~> select(x, y - w, z - u) ;
    select(x, y, z) - y ~> select(x, 0, z - y) ;
    select(x, y, z) - z ~> select(x, y - z, 0) ;
    y - select(x, y, z) ~> select(x, 0, y - z) ;
    z - select(x, y, z) ~> select(x, z - y, 0) ;
    x + y - x ~> y ;
    x + y - y ~> x ;
    x - (x + y) ~> - y ;
    y - (x + y) ~> - x ;
    x - y - x ~> - y ;
    select(x, y, z) + w - select(x, u, v) ~> select(x, y - u, z - v) + w ;
    w + select(x, y, z) - select(x, u, v) ~> select(x, y - u, z - v) + w ;
    select(x, y, z) - (select(x, u, v) + w) ~> select(x, y - u, z - v) - w ;
    select(x, y, z) - (w + select(x, u, v)) ~> select(x, y - u, z - v) - w ;
    select(x, y, z) - w - select(x, u, v) ~> select(x, y - u, z - v) - w ;
    c0 - select(x, c1, c2) ~> select(x, fold(c0 - c1), fold(c0 - c2)) ;
    x + c0 - c1 ~> x + fold(c0 - c1) ;
    x + c0 - (c1 - y) ~> x + y + fold(c0 - c1) ;
    x + c0 - (y + c1) ~> x - y + fold(c0 - c1) ;
    x + c0 - y ~> x - y + c0 ;
    c0 - x - (c1 - y) ~> y - x + fold(c0 - c1) ;
    c0 - x - (y + c1) ~> fold(c0 - c1) - (x + y) ;
    x - (y - z) ~> x + (z - y) ;
    x - y * c0 ~> x + y * fold(- c0) only_if (c0 < 0) && (- c0 > 0) ;
    x - (y + c0) ~> x - y - c0 ;
    c0 - x - c1 ~> fold(c0 - c1) - x ;
    x * y - z * y ~> (x - z) * y ;
    x * y - y * z ~> (x - z) * y ;
    y * x - z * y ~> y * (x - z) ;
    y * x - y * z ~> y * (x - z) ;
    x + y - (x + z) ~> y - z ;
    x + y - (z + x) ~> y - z ;
    y + x - (x + z) ~> y - z ;
    y + x - (z + x) ~> y - z ;
    x + y + z - x ~> y + z ;
    y + x + z - x ~> y + z ;
    z + (x + y) - x ~> z + y ;
    z + (y + x) - x ~> z + y ].

(** src/Simplify_Sub.cpp, lines 83 to 156. *)
Definition sub_again_3 : list Rule :=
  [ max(x, y) - x ~> max(0, y - x) ;
    min(x, y) - x ~> min(0, y - x) ;
    max(x, y) - y ~> max(x - y, 0) ;
    min(x, y) - y ~> min(x - y, 0) ;
    x - max(x, y) ~> min(0, x - y) only_if ! PIsConst x ;
    x - min(x, y) ~> max(0, x - y) only_if ! PIsConst x ;
    y - max(x, y) ~> min(y - x, 0) only_if ! PIsConst y ;
    y - min(x, y) ~> max(y - x, 0) only_if ! PIsConst y ;
    x * y - x ~> x * (y - 1) ;
    x * y - y ~> (x - 1) * y ;
    x - x * y ~> x * (1 - y) ;
    x - y * x ~> (1 - y) * x ;
    x - min(x + y, z) ~> max(- y, x - z) ;
    x - min(y + x, z) ~> max(- y, x - z) ;
    x - min(z, x + y) ~> max(x - z, - y) ;
    x - min(z, y + x) ~> max(x - z, - y) ;
    min(x + y, z) - x ~> min(y, z - x) ;
    min(y + x, z) - x ~> min(y, z - x) ;
    min(z, x + y) - x ~> min(z - x, y) ;
    min(z, y + x) - x ~> min(z - x, y) ;
    min(x, y) - min(y, x) ~> 0 ;
    min(x, y) - min(z, w) ~> y - w only_if can_prove(x - y == z - w) ;
    min(x, y) - min(w, z) ~> y - w only_if can_prove(x - y == z - w) ;
    x - max(x + y, z) ~> min(- y, x - z) ;
    x - max(y + x, z) ~> min(- y, x - z) ;
    x - max(z, x + y) ~> min(x - z, - y) ;
    x - max(z, y + x) ~> min(x - z, - y) ;
    max(x + y, z) - x ~> max(y, z - x) ;
    max(y + x, z) - x ~> max(y, z - x) ;
    max(z, x + y) - x ~> max(z - x, y) ;
    max(z, y + x) - x ~> max(z - x, y) ;
    max(x, y) - max(y, x) ~> 0 ;
    max(x, y) - max(z, w) ~> y - w only_if can_prove(x - y == z - w) ;
    max(x, y) - max(w, z) ~> y - w only_if can_prove(x - y == z - w) ;
    min(x, y) - min(x, w) ~> min(0, y - min(x, w)) only_if can_prove(y <= w) ;
    min(x, y) - min(x, w) ~> max(0, min(x, y) - w) only_if can_prove(y >= w) ;
    min(x + c0, y) - min(x, w) ~> min(c0, y - min(x, w)) only_if can_prove(y <= w + c0) ;
    min(x + c0, y) - min(x, w) ~> max(c0, min(x + c0, y) - w) only_if can_prove(y >= w + c0) ;
    min(x, y) - min(x + c1, w) ~> min(fold(- c1), y - min(x + c1, w)) only_if can_prove(y + c1 <= w) ;
    min(x, y) - min(x + c1, w) ~> max(fold(- c1), min(x, y) - w) only_if can_prove(y + c1 >= w) ;
    min(x + c0, y) - min(x + c1, w) ~> min(fold(c0 - c1), y - min(x + c1, w)) only_if can_prove(y + c1 <= w + c0) ;
    min(x + c0, y) - min(x + c1, w) ~> max(fold(c0 - c1), min(x + c0, y) - w) only_if can_prove(y + c1 >= w + c0) ;
    min(y, x) - min(w, x) ~> min(0, y - min(x, w)) only_if can_prove(y <= w) ;
    min(y, x) - min(w, x) ~> max(0, min(x, y) - w) only_if can_prove(y >= w) ].

(** src/Simplify_Sub.cpp, lines 157 to 219. *)
Definition sub_again_4 : list Rule :=
  [ min(y, x + c0) - min(w, x) ~> min(c0, y - min(x, w)) only_if can_prove(y <= w + c0) ;
    min(y, x + c0) - min(w, x) ~> max(c0, min(x + c0, y) - w) only_if can_prove(y >= w + c0) ;
    min(y, x) - min(w, x + c1) ~> min(fold(- c1), y - min(x + c1, w)) only_if can_prove(y + c1 <= w) ;
    min(y, x) - min(w, x + c1) ~> max(fold(- c1), min(x, y) - w) only_if can_prove(y + c1 >= w) ;
    min(y, x + c0) - min(w, x + c1) ~> min(fold(c0 - c1), y - min(x + c1, w)) only_if can_prove(y + c1 <= w + c0) ;
    min(y, x + c0) - min(w, x + c1) ~> max(fold(c0 - c1), min(x + c0, y) - w) only_if can_prove(y + c1 >= w + c0) ;
    min(x, y) - min(w, x) ~> min(0, y - min(x, w)) only_if can_prove(y <= w) ;
    min(x, y) - min(w, x) ~> max(0, min(x, y) - w) only_if can_prove(y >= w) ;
    min(x + c0, y) - min(w, x) ~> min(c0, y - min(x, w)) only_if can_prove(y <= w + c0) ;
    min(x + c0, y) - min(w, x) ~> max(c0, min(x + c0, y) - w) only_if can_prove(y >= w + c0) ;
    min(x, y) - min(w, x + c1) ~> min(fold(- c1), y - min(x + c1, w)) only_if can_prove(y + c1 <= w) ;
    min(x, y) - min(w, x + c1) ~> max(fold(- c1), min(x, y) - w) only_if can_prove(y + c1 >= w) ;
    min(x + c0, y) - min(w, x + c1) ~> min(fold(c0 - c1), y - min(x + c1, w)) only_if can_prove(y + c1 <= w + c0) ;
    min(x + c0, y) - min(w, x + c1) ~> max(fold(c0 - c1), min(x + c0, y) - w) only_if can_prove(y + c1 >= w + c0) ;
    min(y, x) - min(x, w) ~> min(0, y - min(x, w)) only_if can_prove(y <= w) ;
    min(y, x) - min(x, w) ~> max(0, min(x, y) - w) only_if can_prove(y >= w) ;
    min(y, x + c0) - min(x, w) ~> min(c0, y - min(x, w)) only_if can_prove(y <= w + c0) ;
    min(y, x + c0) - min(x, w) ~> max(c0, min(x + c0, y) - w) only_if can_prove(y >= w + c0) ;
    min(y, x) - min(x + c1, w) ~> min(fold(- c1), y - min(x + c1, w)) only_if can_prove(y + c1 <= w) ;
    min(y, x) - min(x + c1, w) ~> max(fold(- c1), min(x, y) - w) only_if can_prove(y + c1 >= w) ;
    min(y, x + c0) - min(x + c1, w) ~> min(fold(c0 - c1), y - min(x + c1, w)) only_if can_prove(y + c1 <= w + c0) ;
    min(y, x + c0) - min(x + c1, w) ~> max(fold(c0 - c1), min(x + c0, y) - w) only_if can_prove(y + c1 >= w + c0) ;
    max(x, y) - max(x, w) ~> max(0, y - max(x, w)) only_if can_prove(y >= w) ;
    max(x, y) - max(x, w) ~> min(0, max(x, y) - w) only_if can_prove(y <= w) ;
    max(x + c0, y) - max(x, w) ~> max(c0, y - max(x, w)) only_if can_prove(y >= w + c0) ;
    max(x + c0, y) - max(x, w) ~> min(c0, max(x + c0, y) - w) only_if can_prove(y <= w + c0) ;
    max(x, y) - max(x + c1, w) ~> max(fold(- c1), y - max(x + c1, w)) only_if can_prove(y + c1 >= w) ;
    max(x, y) - max(x + c1, w) ~> min(fold(- c1), max(x, y) - w) only_if can_prove(y + c1 <= w) ;
    max(x + c0, y) - max(x + c1, w) ~> max(fold(c0 - c1), y - max(x + c1, w)) only_if can_prove(y + c1 >= w + c0) ;
    max(x + c0, y) - max(x + c1, w) ~> min(fold(c0 - c1), max(x + c0, y) - w) only_if can_prove(y + c1 <= w + c0) ;
    max(y, x) - max(w, x) ~> max(0, y - max(x, w)) only_if can_prove(y >= w) ;
    max(y, x) - max(w, x) ~> min(0, max(x, y) - w) only_if can_prove(y <= w) ;
    max(y, x + c0) - max(w, x) ~> max(c0, y - max(x, w)) only_if can_prove(y >= w + c0) ;
    max(y, x + c0) - max(w, x) ~> min(c0, max(x + c0, y) - w) only_if can_prove(y <= w + c0) ;
    max(y, x) - max(w, x + c1) ~> max(fold(- c1), y - max(x + c1, w)) only_if can_prove(y + c1 >= w) ;
    max(y, x) - max(w, x + c1) ~> min(fold(- c1), max(x, y) - w) only_if can_prove(y + c1 <= w) ;
    max(y, x + c0) - max(w, x + c1) ~> max(fold(c0 - c1), y - max(x + c1, w)) only_if can_prove(y + c1 >= w + c0) ;
    max(y, x + c0) - max(w, x + c1) ~> min(fold(c0 - c1), max(x + c0, y) - w) only_if can_prove(y + c1 <= w + c0) ;
    max(x, y) - max(w, x) ~> max(0, y - max(x, w)) only_if can_prove(y >= w) ;
    max(x, y) - max(w, x) ~> min(0, max(x, y) - w) only_if can_prove(y <= w) ;
    max(x + c0, y) - max(w, x) ~> max(c0, y - max(x, w)) only_if can_prove(y >= w + c0) ;
    max(x + c0, y) - max(w, x) ~> min(c0, max(x + c0, y) - w) only_if can_prove(y <= w + c0) ;
    max(x, y) - max(w, x + c1) ~> max(fold(- c1), y - max(x + c1, w)) only_if can_prove(y + c1 >= w) ;
    max(x, y) - max(w, x + c1) ~> min(fold(- c1), max(x, y) - w) only_if can_prove(y + c1 <= w) ;
    max(x + c0, y) - max(w, x + c1) ~> max(fold(c0 - c1), y - max(x + c1, w)) only_if can_prove(y + c1 >= w + c0) ;
    max(x + c0, y) - max(w, x + c1) ~> min(fold(c0 - c1), max(x + c0, y) - w) only_if can_prove(y + c1 <= w + c0) ;
    max(y, x) - max(x, w) ~> max(0, y - max(x, w)) only_if can_prove(y >= w) ;
    max(y, x) - max(x, w) ~> min(0, max(x, y) - w) only_if can_prove(y <= w) ;
    max(y, x + c0) - max(x, w) ~> max(c0, y - max(x, w)) only_if can_prove(y >= w + c0) ;
    max(y, x + c0) - max(x, w) ~> min(c0, max(x + c0, y) - w) only_if can_prove(y <= w + c0) ;
    max(y, x) - max(x + c1, w) ~> max(fold(- c1), y - max(x + c1, w)) only_if can_prove(y + c1 >= w) ;
    max(y, x) - max(x + c1, w) ~> min(fold(- c1), max(x, y) - w) only_if can_prove(y + c1 <= w) ;
    max(y, x + c0) - max(x + c1, w) ~> max(fold(c0 - c1), y - max(x + c1, w)) only_if can_prove(y + c1 >= w + c0) ;
    max(y, x + c0) - max(x + c1, w) ~> min(fold(c0 - c1), max(x + c0, y) - w) only_if can_prove(y + c1 <= w + c0) ].

(** src/Simplify_Sub.cpp, lines 222 to 252. *)
Definition sub_again_5 : list Rule :=
  [ c0 - (c1 - x) / c2 ~> (fold(c0 * c2 - c1 + c2 - 1) + x) / c2 only_if c2 > 0 ;
    c0 - (x + c1) / c2 ~> (fold(c0 * c2 - c1 + c2 - 1) - x) / c2 only_if c2 > 0 ;
    x - (x + y) / c0 ~> (x * fold(c0 - 1) - y + fold(c0 - 1)) / c0 only_if c0 > 0 ;
    x - (x - y) / c0 ~> (x * fold(c0 - 1) + y + fold(c0 - 1)) / c0 only_if c0 > 0 ;
    x - (y + x) / c0 ~> (x * fold(c0 - 1) - y + fold(c0 - 1)) / c0 only_if c0 > 0 ;
    x - (y - x) / c0 ~> (x * fold(c0 + 1) - y + fold(c0 - 1)) / c0 only_if c0 > 0 ;
    (x + y) / c0 - x ~> (x * fold(1 - c0) + y) / c0 ;
    (y + x) / c0 - x ~> (y + x * fold(1 - c0)) / c0 ;
    (x - y) / c0 - x ~> (x * fold(1 - c0) - y) / c0 ;
    (y - x) / c0 - x ~> (y - x * fold(1 + c0)) / c0 ;
    x / c0 * c0 - x ~> - (x mod c0) only_if c0 > 0 ;
    x - x / c0 * c0 ~> x mod c0 only_if c0 > 0 ;
    (x + c0) / c1 * c1 - x ~> - x mod c1 only_if (c1 > 0) && (c0 + 1 == c1) ;
    x - (x + c0) / c1 * c1 ~> (x + c0) mod c1 + fold(- c0) only_if (c1 > 0) && (c0 + 1 == c1) ;
    x * c0 - y * c1 ~> (x * fold(c0 / c1) - y) * c1 only_if c0 mod c1 == 0 ;
    x * c0 - y * c1 ~> (x - y * fold(c1 / c0)) * c0 only_if c1 mod c0 == 0 ;
    (x + y + z) / c0 - (y + x + w) / c0 ~> (x + y + z) / c0 - (x + y + w) / c0 only_if c0 > 0 ;
    (x + y) / c0 - (y + x) / c0 ~> 0 only_if c0 != 0 ;
    (x + y) / c0 - (x + c1) / c0 ~> ((x + fold(c1 mod c0)) mod c0 + (y - c1)) / c0 only_if c0 > 0 ;
    (x + c1) / c0 - (x + y) / c0 ~> (fold(c0 + c1 - 1) - y - (x + fold(c1 mod c0)) mod c0) / c0 only_if c0 > 0 ;
    (x - y) / c0 - (x + c1) / c0 ~> ((x + fold(c1 mod c0)) mod c0 - y - c1) / c0 only_if c0 > 0 ;
    (x + c1) / c0 - (x - y) / c0 ~> (y + fold(c0 + c1 - 1) - (x + fold(c1 mod c0)) mod c0) / c0 only_if c0 > 0 ;
    x / c0 - (x + y) / c0 ~> (fold(c0 - 1) - y - x mod c0) / c0 only_if c0 > 0 ;
    (x + y) / c0 - x / c0 ~> (x mod c0 + y) / c0 only_if c0 > 0 ;
    x / c0 - (x - y) / c0 ~> (y + fold(c0 - 1) - x mod c0) / c0 only_if c0 > 0 ;
    (x - y) / c0 - x / c0 ~> (x mod c0 - y) / c0 only_if c0 > 0 ].

(** The rules whose result it simplifies again. *)
Definition sub_again (T : HType) : list Rule :=
  when (negb (is_uint T)) (sub_again_1) ++
  sub_again_2 T ++
  when (no_overflow T) (sub_again_3 ++
    sub_again_4) ++
  when (no_overflow_int T) (sub_again_5).

Local Close Scope pat_scope.
#[local] Open Scope Z_scope.

(** ** The groups of rules are well typed and sound *)

Lemma sub_done_1_good l (T : HType) :
  good_tables l T T sub_done_1.
Proof. unfold sub_done_1. plain_group. Qed.

Lemma sub_again_1_good l (T : HType) : negb (is_uint T) = true ->
  good_tables l T T sub_again_1.
Proof. intros G0. unfold sub_again_1. plain_group. Qed.

Lemma sub_again_2_good l (T : HType) :
  good_tables l T T (sub_again_2 T).
Proof. unfold sub_again_2. plain_group. Qed.

Lemma sub_again_3_good l (T : HType) : no_overflow T = true ->
  good_tables l T T sub_again_3.
Proof. intros G0. unfold sub_again_3. wide_group G0. Qed.

Lemma sub_again_4_good l (T : HType) : no_overflow T = true ->
  good_tables l T T sub_again_4.
Proof. intros G0. unfold sub_again_4. wide_group G0. Qed.

Lemma sub_again_5_good l (T : HType) : no_overflow_int T = true ->
  good_tables l T T sub_again_5.
Proof. intros G0. unfold sub_again_5. wide_group G0. Qed.

Lemma sub_done_good l (T : HType) :
  good_tables l T T sub_done.
Proof.
  unfold sub_done. good_table; eauto using sub_done_1_good.
Qed.

Lemma sub_again_good l (T : HType) :
  good_tables l T T (sub_again T).
Proof.
  unfold sub_again. good_table; eauto using sub_again_1_good, sub_again_2_good, sub_again_3_good, sub_again_4_good, sub_again_5_good.
Qed.


(** ** The bounds of a difference *)

Definition raw_sub_bounds (a b : ExprInfo) : ExprInfo :=
  mkInfo (i64 (info_min a - info_max b)) (i64 (info_max a - info_min b))
    (min_defined a && max_defined b) (max_defined a && min_defined b)
    (mr_sub (info_alignment a) (info_alignment b)).

Definition sub_bounds (t : HType) (a b : ExprInfo) : ExprInfo :=
  if no_overflow_int t then trim_bounds_using_alignment (raw_sub_bounds a b) else no_info.

Lemma sub_trimmable a b : room 62 a -> room 62 b -> trimmable (raw_sub_bounds a b).
Proof.
  intros [Amin Amax Am Ar] [Bmin Bmax Bm Br]. split; cbn.
  - apply mr_sub_normal.
  - intros D. destr_and. destruct (i64_sub (info_min a) (info_max b)) as [-> R]; auto.
  - intros D. destr_and. destruct (i64_sub (info_max a) (info_min b)) as [-> R]; auto.
  - now apply mr_sub_room.
Qed.

(** What [visit(const Sub)] reports of a difference holds of its value. *)
Theorem sub_bounds_sound env i a b A B : room 62 A -> room 62 B ->
  info_holds A (ev env i a) -> info_holds B (ev env i b) ->
  info_holds (sub_bounds (type_of a) A B) (ev env i (EBin Sub a b)).
Proof.
  intros RA RB [Amin Amax Aa] [Bmin Bmax Ba]. unfold sub_bounds.
  destruct (no_overflow_int (type_of a)) eqn:N; [|apply no_info_holds].
  apply trim_sound; [now apply sub_trimmable|]. cbn [ev evbin]. rewrite norm_no_overflow by exact N.
  split; cbn.
  - intros D. destr_and. destruct (i64_sub (info_min A) (info_max B)) as [-> _];
      [now apply (room_min 62 A)|now apply (room_max 62 B)|]. specialize (Amin H). specialize (Bmax H0). lia.
  - intros D. destr_and. destruct (i64_sub (info_max A) (info_min B)) as [-> _];
      [now apply (room_max 62 A)|now apply (room_min 62 B)|]. specialize (Amax H). specialize (Bmin H0). lia.
  - now apply mr_sub_sound.
Qed.

(** ** The visit method *)

Section Visit.
Context {prover : Prover} (no_float_simplify : bool).

(** [Simplify::visit(const Sub)], from the simplified operands on. *)
Definition visit_Sub (a b : Expr) : M Step :=
  let t := type_of (EBin Sub a b) in
  if may_simplify no_float_simplify t then
    apply_tables (EBin Sub a b) sub_done (sub_again t) (hoist_slice_vector Sub a b)
  else ret (Kept (hoist_slice_vector Sub a b)).

Lemma visit_Sub_keeps a b c st c' : wf (EBin Sub a b) = true ->
  visit_Sub a b c = (st, c') -> correct_step c c' [] (EBin Sub a b) st.
Proof.
  intros W. unfold visit_Sub. destruct (may_simplify _ _).
  - intros E. eapply (correct_tables [] _ (EBin Sub a b)); [| | | |exact E]; auto with halide.
    + apply sub_done_good.
    + apply sub_again_good.
  - intros [= <- _]. eapply correct_kept; eauto with halide.
Qed.

(** C6: The visit of a difference preserves its type and value. *)
Theorem visit_Sub_correct a b c st c' : wf (EBin Sub a b) = true ->
  visit_Sub a b c = (st, c') -> correct_step c c' [] (EBin Sub a b) st.
Proof. exact (visit_Sub_keeps a b c st c'). Qed.
End Visit.

Lemma sub_bounds_sound_witness :
  info_holds (sub_bounds (Int 32 1) (mkInfo (7) (7) true true (mkMR 1 0)) (mkInfo (0) (9) true true (mkMR 1 0))) 0.
Proof.
  apply (sub_bounds_sound sample_env 0 (int_var "x") (int_var "y") (mkInfo (7) (7) true true (mkMR 1 0)) (mkInfo (0) (9) true true (mkMR 1 0))); concrete.
Defined.

Lemma visit_Sub_correct_witness :
  let st := fst (visit_Sub (prover := literal_prover) false (EBin Add (int_var "x") (int_var "y")) (int_var "y") no_counters) in
  step_expr st = int_var "x" /\ same_meaning sample_env 0 (EBin Sub (EBin Add (int_var "x") (int_var "y")) (int_var "y")) (step_expr st).
Proof.
  split; [vm_compute; reflexivity|].
  unshelve eapply (visit_Sub_correct (prover := literal_prover) false (EBin Add (int_var "x") (int_var "y")) (int_var "y")
    no_counters _ _ eq_refl (surjective_pairing _)); concrete.
Defined.
