(* ===== verification/SimplifyMul.v ===== *)
(** * Products

    The rewrite rules and the visit method of src/Simplify_Mul.cpp. *)

From Stdlib Require Import ZArith Lia Bool List String.
From S2P Require Import Prelude.
From S2P Require Import IntArith.
From S2P Require Import ModulusRemainder.
From S2P Require Import HalideTypes.
From S2P Require Import IR.
From S2P Require Import IREquality.
From S2P Require Import IRMatch.
From S2P Require Import PatNotations.
From S2P Require Import RuleSem.
From S2P Require Import Euclid.
From S2P Require Import RuleTac.
From S2P Require Import MatchSound.
From S2P Require Import FoldSound.
From S2P Require Import MakeSound.
From S2P Require Import RuleSound.
From S2P Require Import Visit.
From S2P Require Import TableTac.
From S2P Require Import ExprInfo.
Import ListNotations.

Local Open Scope pat_scope.

(** src/Simplify_Mul.cpp, lines 48 to 56. *)
Definition mul_done_1 : list Rule :=
  [ c0 * c1 ~> fold(c0 * c1) ;
    PIndeterminate * x ~> arg_a ;
    x * PIndeterminate ~> arg_b ;
    POverflow * x ~> arg_a ;
    x * POverflow ~> arg_b ;
    0 * x ~> 0 ;
    1 * x ~> x ;
    x * 0 ~> 0 ;
    x * 1 ~> x ].

(** The rules whose result the visitor returns. *)
Definition mul_done : list Rule :=
  mul_done_1.

(** src/Simplify_Mul.cpp, lines 60 to 68. *)
Definition mul_again_1 (T : HType) : list Rule :=
  let lanes := lanes T in
  [ (x + c0) * c1 ~> x * c1 + fold(c0 * c1) only_if ! overflows(c0 * c1) ;
    (x - y) * c0 ~> (y - x) * fold(- c0) only_if (c0 < 0) && (- c0 > 0) ;
    x * c0 * c1 ~> x * fold(c0 * c1) only_if ! overflows(c0 * c1) ;
    x * c0 * y ~> x * y * c0 only_if ! PIsConst y ;
    x * (y * c0) ~> x * y * c0 ;
    max(x, y) * min(x, y) ~> x * y ;
    max(x, y) * min(y, x) ~> y * x ;
    broadcast(x) * broadcast(y) ~> broadcast2(x * y, lanes) ;
    ramp(x, y) * broadcast(z) ~> ramp3(x * z, y * z, lanes) ].

(** The rules whose result it simplifies again. *)
Definition mul_again (T : HType) : list Rule :=
  mul_again_1 T.

Local Close Scope pat_scope.
#[local] Open Scope Z_scope.

(** ** The groups of rules are well typed and sound *)

Lemma mul_done_1_good l (T : HType) :
  good_tables l T T mul_done_1.
Proof. unfold mul_done_1. plain_group. Qed.

Lemma mul_again_1_good l (T : HType) :
  good_tables l T T (mul_again_1 T).
Proof. unfold mul_again_1. plain_group. Qed.

Lemma mul_done_good l (T : HType) :
  good_tables l T T mul_done.
Proof.
  unfold mul_done. good_table; eauto using mul_done_1_good.
Qed.

Lemma mul_again_good l (T : HType) :
  good_tables l T T (mul_again T).
Proof.
  unfold mul_again. good_table; eauto using mul_again_1_good.
Qed.


(** ** The bounds of a product *)

Definition raw_mul_bounds (a b : ExprInfo) : ExprInfo :=
  let a_positive := min_defined a && (0 <? info_min a) in
  let b_positive := min_defined b && (0 <? info_min b) in
  let a_bounded := min_defined a && max_defined a in
  let b_bounded := min_defined b && max_defined b in
  let alignment := mr_mul (info_alignment a) (info_alignment b) in
  if a_bounded && b_bounded then
    let v1 := i64 (info_min a * info_min b) in
    let v2 := i64 (info_min a * info_max b) in
    let v3 := i64 (info_max a * info_min b) in
    let v4 := i64 (info_max a * info_max b) in
    mkInfo (Z.min (Z.min v1 v2) (Z.min v3 v4)) (Z.max (Z.max v1 v2) (Z.max v3 v4)) true true alignment
  else if (max_defined a && b_bounded && b_positive) || (max_defined b && a_bounded && a_positive) then
    mkInfo 0 (i64 (info_max a * info_max b)) false true alignment
  else if (min_defined a && b_bounded && b_positive) || (min_defined b && a_bounded && a_positive) then
    mkInfo (i64 (info_min a * info_min b)) 0 true false alignment
  else mkInfo 0 0 false false alignment.

(** A bound that is not found is left as it was [before]. *)
Definition mul_onto (before a b : ExprInfo) : ExprInfo :=
  let m := raw_mul_bounds a b in
  mkInfo (if min_defined m then info_min m else info_min before)
         (if max_defined m then info_max m else info_max before)
         (min_defined m || min_defined before) (max_defined m || max_defined before) (info_alignment m).

Definition mul_bounds (before : ExprInfo) (t : HType) (a b : ExprInfo) : ExprInfo :=
  if no_overflow_int t then trim_bounds_using_alignment (mul_onto before a b) else before.

(** A product of two intervals lies between the products of their ends. *)
Lemma product_range x y a0 a1 b0 b1 : a0 <= x <= a1 -> b0 <= y <= b1 ->
  Z.min (Z.min (a0 * b0) (a0 * b1)) (Z.min (a1 * b0) (a1 * b1)) <= x * y <=
  Z.max (Z.max (a0 * b0) (a0 * b1)) (Z.max (a1 * b0) (a1 * b1)).
Proof.
  intros A B. assert (H : forall c, Z.min (c * b0) (c * b1) <= c * y <= Z.max (c * b0) (c * b1)).
  { intros c. destruct (Z.leb_spec 0 c); nia. }
  assert (Z.min (a0 * y) (a1 * y) <= x * y <= Z.max (a0 * y) (a1 * y)).
  { destruct (Z.leb_spec 0 y); nia. }
  pose proof (H a0). pose proof (H a1). lia.
Qed.

Lemma i64_mul32 a b : in_int 32 a -> in_int 32 b -> i64 (a * b) = a * b.
Proof. unfold in_int. cbn. intros. apply i64_id. nia. Qed.

(** Both operands have two bounds, or the bounds there are do not take the
    product across zero. *)
Definition mul_signs (a b : ExprInfo) : Prop :=
  (min_defined a && max_defined a) && (min_defined b && max_defined b) = true \/
  (min_defined a = true -> 0 <= info_min a) /\ (max_defined a = true -> 0 <= info_max a) /\
  (min_defined b = true -> 0 <= info_min b) /\ (max_defined b = true -> 0 <= info_max b).

Lemma raw_mul_bounds_sound A B x y : room 32 A -> room 32 B -> mul_signs A B ->
  info_holds A x -> info_holds B y -> info_holds (raw_mul_bounds A B) (x * y).
Proof.
  intros [RAn RAx _ _] [RBn RBx _ _] S [An Ax Aa] [Bn Bx Ba].
  assert (Al := mr_mul_sound _ _ _ _ Aa Ba). unfold raw_mul_bounds. cbv zeta.
  destruct ((min_defined A && max_defined A) && (min_defined B && max_defined B)) eqn:Both.
  - destr_and. rewrite !i64_mul32 by auto.
    pose proof (product_range x y (info_min A) (info_max A) (info_min B) (info_max B)) as P.
    split; cbn; auto; intros _; apply P; auto.
  - destruct S as [S|(SAn & SAx & SBn & SBx)]; [congruence|].
    match goal with |- context [if ?c then _ else _] => destruct c eqn:U end.
    { split; cbn; auto; try discriminate. intros _. apply orb_true_iff in U.
      destruct U as [U|U]; destr_and; zify_bool; rewrite i64_mul32 by auto;
        repeat match goal with H : ?b = true -> _, E : ?b = true |- _ => specialize (H E) end; nia. }
    match goal with |- context [if ?c then _ else _] => destruct c eqn:V end.
    { split; cbn; auto; try discriminate. intros _. apply orb_true_iff in V.
      destruct V as [V|V]; destr_and; zify_bool; rewrite i64_mul32 by auto;
        repeat match goal with H : ?b = true -> _, E : ?b = true |- _ => specialize (H E) end; nia. }
    split; cbn; auto; discriminate.
Qed.

Lemma mul_onto_sound before a b x y : room 32 a -> room 32 b -> mul_signs a b ->
  info_holds before (x * y) -> info_holds a x -> info_holds b y -> info_holds (mul_onto before a b) (x * y).
Proof.
  intros Ra Rb S [Bmin Bmax _] Ha Hb. destruct (raw_mul_bounds_sound a b x y Ra Rb S Ha Hb) as [Mi Ma A].
  unfold mul_onto. cbv zeta. split; cbn [info_min info_max min_defined max_defined info_alignment]; [| |exact A].
  - destruct (min_defined (raw_mul_bounds a b)); auto.
  - destruct (max_defined (raw_mul_bounds a b)); auto.
Qed.

Lemma mul_bounds_hold before env i a b A B : room 32 A -> room 32 B -> mul_signs A B ->
  trimmable (mul_onto before A B) -> info_holds before (ev env i (EBin Mul a b)) ->
  info_holds A (ev env i a) -> info_holds B (ev env i b) ->
  info_holds (mul_bounds before (type_of a) A B) (ev env i (EBin Mul a b)).
Proof.
  intros RA RB S T H HA HB. unfold mul_bounds.
  destruct (no_overflow_int (type_of a)) eqn:N; [|exact H].
  apply trim_sound; [exact T|]. cbn [ev evbin] in H |- *. rewrite norm_no_overflow in H |- * by exact N.
  now apply mul_onto_sound.
Qed.


(** The half bounded case is wrong for a negative
    upper bound: from [x <= -1] and [1 <= y <= 10] it derives [x * y <= -10],
    which [-1 * 1] exceeds. *)
Theorem mul_bounds_negative :
  let A := mkInfo 0 (-1) false true mr_top in
  let B := mkInfo 1 10 true true mr_top in
  info_holds A (-1) /\ info_holds B 1 /\ ~ info_holds (mul_bounds no_info (Int 32 1) A B) (-1 * 1).
Proof.
  cbv zeta. split; [|split].
  - split; cbn; try discriminate; try lia. apply mr_contains_top.
  - split; cbn; try lia. apply mr_contains_top.
  - intros [_ M _]. vm_compute in M. specialize (M eq_refl). contradiction.
Qed.

(** ** The visit method *)

Section Visit.
Context {prover : Prover} (no_float_simplify : bool).

(** [Simplify::visit(const Mul)], from the simplified operands on. *)
Definition visit_Mul (a b : Expr) : M Step :=
  let t := type_of (EBin Mul a b) in
  if may_simplify no_float_simplify t then
    let '(a, b) := commute a b in
    apply_tables (EBin Mul a b) mul_done (mul_again t) (hoist_slice_vector Mul a b)
  else ret (Kept (hoist_slice_vector Mul a b)).

(** The visit of a product preserves its type and value. *)
Theorem visit_Mul_correct a b c st c' : wf (EBin Mul a b) = true ->
  visit_Mul a b c = (st, c') -> correct_step c c' [] (EBin Mul a b) st.
Proof.
  intros W. unfold visit_Mul. destruct (may_simplify _ _).
  - destruct (commute a b) as [a' b'] eqn:C.
    pose proof (commute_stands_for Mul a b a' b' eq_refl W C) as S. pose proof S as (W' & T & _).
    intros E. eapply (correct_tables [] _ (EBin Mul a' b')); [exact S| | | |exact E].
    + now apply hoist_keeps.
    + apply mul_done_good.
    + rewrite <- T. apply mul_again_good.
  - intros [= <- _]. eapply correct_kept; eauto with halide.
Qed.
End Visit.


Lemma visit_Mul_correct_witness :
  let st := fst (visit_Mul (prover := literal_prover) false (EBin Add (int_var "x") (int_imm 2)) (int_imm 3) no_counters) in
  step_expr st = EBin Add (EBin Mul (int_var "x") (int_imm 3)) (int_imm 6) /\ same_meaning sample_env 0 (EBin Mul (EBin Add (int_var "x") (int_imm 2)) (int_imm 3)) (step_expr st).
Proof.
  split; [vm_compute; reflexivity|].
  unshelve eapply (visit_Mul_correct (prover := literal_prover) false (EBin Add (int_var "x") (int_imm 2)) (int_imm 3)
    no_counters _ _ eq_refl (surjective_pairing _)); concrete.
Defined.
