(* ===== verification/SimplifyDiv.v ===== *)
(** * Quotients

    The rewrite rules and the visit method of src/Simplify_Div.cpp. *)

From Stdlib Require Import ZArith Lia Bool List String.
From S2P Require Import Prelude.
From S2P Require Import IntArith.
From S2P Require Import ModulusRemainder.
From S2P Require Import HalideTypes.
From S2P Require Import IR.
From S2P Require Import IREquality.
From S2P Require Import IRMatch.
From S2P Require Import PatNotations.
From S2P Require Import RuleSem.
From S2P Require Import Euclid.
From S2P Require Import RuleTac.
From S2P Require Import MatchSound.
From S2P Require Import FoldSound.
From S2P Require Import MakeSound.
From S2P Require Import RuleSound.
From S2P Require Import Visit.
From S2P Require Import TableTac.
From S2P Require Import ExprInfo.
Import ListNotations.

Local Open Scope pat_scope.

(** src/Simplify_Div.cpp, lines 95 to 99. *)
Definition div_done_1 : list Rule :=
  [ PIndeterminate / x ~> arg_a ;
    x / PIndeterminate ~> arg_b ;
    POverflow / x ~> arg_a ;
    x / POverflow ~> arg_b ;
    x / 1 ~> x ].

(** src/Simplify_Div.cpp, lines 101 to 101. *)
Definition div_done_2 : list Rule :=
  [ x / 0 ~> PIndeterminate ].

(** src/Simplify_Div.cpp, lines 103 to 104. *)
Definition div_done_3 : list Rule :=
  [ 0 / x ~> 0 ;
    x / x ~> 1 ].

(** src/Simplify_Div.cpp, lines 105 to 105. *)
Definition div_done_4 : list Rule :=
  [ c0 / c1 ~> fold(c0 / c1) ].

(** The rules whose result the visitor returns. *)
Definition div_done (T : HType) (denominator_non_zero : bool) : list Rule :=
  div_done_1 ++
  when (negb (is_float T)) (div_done_2) ++
  when denominator_non_zero (div_done_3) ++
  div_done_4.

(** src/Simplify_Div.cpp, lines 110 to 111. *)
Definition div_again_1 (T : HType) : list Rule :=
  let lanes := lanes T in
  [ broadcast(x) / broadcast(y) ~> broadcast2(x / y, lanes) ;
    select(x, c0, c1) / c2 ~> select(x, fold(c0 / c2), fold(c1 / c2)) ].

(** src/Simplify_Div.cpp, lines 114 to 173. *)
Definition div_again_2 : list Rule :=
  [ x / c0 / c2 ~> x / fold(c0 * c2) only_if (c0 > 0) && (c2 > 0) && ! overflows(c0 * c2) ;
    (x / c0 + c1) / c2 ~> (x + fold(c1 * c0)) / fold(c0 * c2) only_if (c0 > 0) && (c2 > 0) && ! overflows(c0 * c2) && ! overflows(c0 * c1) ;
    x * c0 / c1 ~> x / fold(c1 / c0) only_if (c1 mod c0 == 0) && (c0 > 0) && (c1 / c0 != 0) ;
    x * c0 / c1 ~> x * fold(c0 / c1) only_if (c0 mod c1 == 0) && (c1 > 0) ;
    (x * c0 + y) / c1 ~> y / c1 + x * fold(c0 / c1) only_if (c0 mod c1 == 0) && (c1 > 0) ;
    (x * c0 - y) / c1 ~> - y / c1 + x * fold(c0 / c1) only_if (c0 mod c1 == 0) && (c1 > 0) ;
    (y + x * c0) / c1 ~> y / c1 + x * fold(c0 / c1) only_if (c0 mod c1 == 0) && (c1 > 0) ;
    (y - x * c0) / c1 ~> y / c1 - x * fold(c0 / c1) only_if (c0 mod c1 == 0) && (c1 > 0) ;
    (x * c0 + y + z) / c1 ~> (y + z) / c1 + x * fold(c0 / c1) only_if (c0 mod c1 == 0) && (c1 > 0) ;
    (x * c0 - y + z) / c1 ~> (z - y) / c1 + x * fold(c0 / c1) only_if (c0 mod c1 == 0) && (c1 > 0) ;
    (x * c0 + y - z) / c1 ~> (y - z) / c1 + x * fold(c0 / c1) only_if (c0 mod c1 == 0) && (c1 > 0) ;
    (x * c0 - y - z) / c1 ~> (- y - z) / c1 + x * fold(c0 / c1) only_if (c0 mod c1 == 0) && (c1 > 0) ;
    (y + x * c0 + z) / c1 ~> (y + z) / c1 + x * fold(c0 / c1) only_if (c0 mod c1 == 0) && (c1 > 0) ;
    (y + x * c0 - z) / c1 ~> (y - z) / c1 + x * fold(c0 / c1) only_if (c0 mod c1 == 0) && (c1 > 0) ;
    (y - x * c0 - z) / c1 ~> (y - z) / c1 - x * fold(c0 / c1) only_if (c0 mod c1 == 0) && (c1 > 0) ;
    (y - x * c0 + z) / c1 ~> (y + z) / c1 - x * fold(c0 / c1) only_if (c0 mod c1 == 0) && (c1 > 0) ;
    (z + (x * c0 + y)) / c1 ~> (z + y) / c1 + x * fold(c0 / c1) only_if (c0 mod c1 == 0) && (c1 > 0) ;
    (z + (x * c0 - y)) / c1 ~> (z - y) / c1 + x * fold(c0 / c1) only_if (c0 mod c1 == 0) && (c1 > 0) ;
    (z - (x * c0 - y)) / c1 ~> (z + y) / c1 - x * fold(c0 / c1) only_if (c0 mod c1 == 0) && (c1 > 0) ;
    (z - (x * c0 + y)) / c1 ~> (z - y) / c1 - x * fold(c0 / c1) only_if (c0 mod c1 == 0) && (c1 > 0) ;
    (z + (y + x * c0)) / c1 ~> (z + y) / c1 + x * fold(c0 / c1) only_if (c0 mod c1 == 0) && (c1 > 0) ;
    (z - (y + x * c0)) / c1 ~> (z - y) / c1 - x * fold(c0 / c1) only_if (c0 mod c1 == 0) && (c1 > 0) ;
    (z + (y - x * c0)) / c1 ~> (z + y) / c1 - x * fold(c0 / c1) only_if (c0 mod c1 == 0) && (c1 > 0) ;
    (z - (y - x * c0)) / c1 ~> (z - y) / c1 + x * fold(c0 / c1) only_if (c0 mod c1 == 0) && (c1 > 0) ;
    (x * c0 + y + z + w) / c1 ~> (y + z + w) / c1 + x * fold(c0 / c1) only_if (c0 mod c1 == 0) && (c1 > 0) ;
    (y + x * c0 + z + w) / c1 ~> (y + z + w) / c1 + x * fold(c0 / c1) only_if (c0 mod c1 == 0) && (c1 > 0) ;
    (z + (x * c0 + y) + w) / c1 ~> (y + z + w) / c1 + x * fold(c0 / c1) only_if (c0 mod c1 == 0) && (c1 > 0) ;
    (z + (y + x * c0) + w) / c1 ~> (y + z + w) / c1 + x * fold(c0 / c1) only_if (c0 mod c1 == 0) && (c1 > 0) ;
    (w + (x * c0 + y + z)) / c1 ~> (y + z + w) / c1 + x * fold(c0 / c1) only_if (c0 mod c1 == 0) && (c1 > 0) ;
    (w + (y + x * c0 + z)) / c1 ~> (y + z + w) / c1 + x * fold(c0 / c1) only_if (c0 mod c1 == 0) && (c1 > 0) ;
    (w + (z + (x * c0 + y))) / c1 ~> (y + z + w) / c1 + x * fold(c0 / c1) only_if (c0 mod c1 == 0) && (c1 > 0) ;
    (w + (z + (y + x * c0))) / c1 ~> (y + z + w) / c1 + x * fold(c0 / c1) only_if (c0 mod c1 == 0) && (c1 > 0) ;
    (x + c0) / c1 ~> x / c1 + fold(c0 / c1) only_if c0 mod c1 == 0 ;
    (x + y) / x ~> y / x + 1 ;
    (y + x) / x ~> y / x + 1 ;
    (x - y) / x ~> - y / x + 1 ;
    (y - x) / x ~> y / x - 1 ;
    (x + y + z) / x ~> (y + z) / x + 1 ;
    (y + x + z) / x ~> (y + z) / x + 1 ;
    (z + (x + y)) / x ~> (z + y) / x + 1 ;
    (z + (y + x)) / x ~> (z + y) / x + 1 ;
    x * y / x ~> y ;
    y * x / x ~> y ;
    (x * y + z) / x ~> y + z / x ;
    (y * x + z) / x ~> y + z / x ;
    (z + x * y) / x ~> z / x + y ;
    (z + y * x) / x ~> z / x + y ;
    (x * y - z) / x ~> y + - z / x ;
    (y * x - z) / x ~> y + - z / x ;
    (z - x * y) / x ~> z / x - y ;
    (z - y * x) / x ~> z / x - y ].

(** src/Simplify_Div.cpp, lines 174 to 174. *)
Definition div_again_3 : list Rule :=
  [ x / c0 ~> x * fold(1 / c0) ].

(** src/Simplify_Div.cpp, lines 176 to 179. *)
Definition div_again_4 (T : HType) : list Rule :=
  let lanes := lanes T in
  [ ramp(x, c0) / broadcast(c1) ~> ramp3(x / c1, fold(c0 / c1), lanes) only_if c0 mod c1 == 0 ;
    ramp(x, c0) / broadcast(c1) ~> broadcast2(x / c1, lanes) only_if can_prove((x mod c1 + c0 * PLit (lanes - 1)) / c1 == 0) ].

(** src/Simplify_Div.cpp, lines 181 to 190. *)
Definition div_again_5 : list Rule :=
  [ x / PLit (-1) ~> - x ;
    c0 / y ~> select(y < 0, fold(- c0), c0) only_if c0 == PLit (-1) ;
    (x * c0 + c1) / c2 ~> (x + fold(c1 / c0)) / fold(c2 / c0) only_if (c2 > 0) && (c0 > 0) && (c2 mod c0 == 0) ;
    (x * c0 + c1) / c2 ~> x * fold(c0 / c2) + fold(c1 / c2) only_if (c2 > 0) && (c0 mod c2 == 0) ;
    (x mod 2 + c0) / 2 ~> x mod 2 + fold(c0 / 2) only_if c0 mod 2 == 1 ].

(** The rules whose result it simplifies again. *)
Definition div_again (T : HType) : list Rule :=
  div_again_1 T ++
  when (no_overflow T) (div_again_2 ++
    when (is_float T) (div_again_3)) ++
  when (no_overflow_int T) (div_again_4 T) ++
  when (no_overflow_scalar_int T) (div_again_5).

Local Close Scope pat_scope.
#[local] Open Scope Z_scope.

(** ** The groups of rules are well typed and sound *)

Lemma div_done_1_good l (T : HType) :
  good_tables l T T div_done_1.
Proof. unfold div_done_1. plain_group. Qed.

Lemma div_done_2_good l (T : HType) : negb (is_float T) = true ->
  good_tables l T T div_done_2.
Proof. intros G0. unfold div_done_2. plain_group. Qed.

Lemma div_done_3_good l (T : HType) (denominator_non_zero : bool) : denominator_non_zero = true ->
  good_tables l T T div_done_3.
Proof. intros G0. unfold div_done_3. plain_group. Qed.

Lemma div_done_4_good l (T : HType) :
  good_tables l T T div_done_4.
Proof. unfold div_done_4. plain_group. Qed.

Lemma div_again_1_good l (T : HType) :
  good_tables l T T (div_again_1 T).
Proof. unfold div_again_1. plain_group. Qed.

Lemma div_again_2_good l (T : HType) : no_overflow T = true ->
  good_tables l T T div_again_2.
Proof. intros G0. unfold div_again_2. wide_group G0. Qed.

Lemma div_again_3_good l (T : HType) : no_overflow T = true -> is_float T = true ->
  good_tables l T T div_again_3.
Proof. intros G0 G1. unfold div_again_3. wide_group G0. Qed.

Lemma div_again_4_good l (T : HType) : no_overflow_int T = true ->
  good_tables l T T (div_again_4 T).
Proof. intros G0. unfold div_again_4. wide_group G0. Qed.

Lemma div_again_5_good l (T : HType) : no_overflow_scalar_int T = true ->
  good_tables l T T div_again_5.
Proof. intros G0. unfold div_again_5. wide_group G0. Qed.

Lemma div_done_good l (T : HType) (denominator_non_zero : bool) :
  good_tables l T T (div_done T denominator_non_zero).
Proof.
  unfold div_done. good_table; eauto using div_done_1_good, div_done_2_good, div_done_3_good, div_done_4_good.
Qed.

Lemma div_again_good l (T : HType) :
  good_tables l T T (div_again T).
Proof.
  unfold div_again. good_table; eauto using div_again_1_good, div_again_2_good, div_again_3_good, div_again_4_good, div_again_5_good.
Qed.


(** ** The bounds of a quotient *)

(** The values the source enumerates for the minimum and the maximum. *)
Definition div_candidates (a b : ExprInfo) : list Z :=
  let b_positive := min_defined b && (0 <? info_min b) in
  let b_negative := max_defined b && (info_max b <? 0) in
  (if min_defined a && min_defined b && negb (info_min b =? 0)
   then [div_imp (info_min a) (info_min b)] else []) ++
  (if min_defined a && max_defined b && negb (info_max b =? 0)
   then [div_imp (info_min a) (info_max b)] else []) ++
  (if max_defined a && max_defined b && negb (info_max b =? 0)
   then [div_imp (info_max a) (info_max b)] else []) ++
  (if max_defined a && min_defined b && negb (info_min b =? 0)
   then [div_imp (info_max a) (info_min b)] else []) ++
  (if (b_positive && negb (max_defined b)) || (b_negative && negb (min_defined b)) then [0] else []).

Definition INT64_MAX : Z := 2 ^ 63 - 1.
Definition INT64_MIN : Z := - 2 ^ 63.

(** The interval before it is normalized. *)
Definition div_interval (a b : ExprInfo) : ExprInfo :=
  let b_positive := min_defined b && (0 <? info_min b) in
  let b_negative := max_defined b && (info_max b <? 0) in
  mkInfo (fold_right Z.min INT64_MAX (div_candidates a b))
         (fold_right Z.max INT64_MIN (div_candidates a b))
         ((min_defined a && b_positive) || (max_defined a && b_negative))
         ((max_defined a && b_positive) || (min_defined a && b_negative))
         mr_top.

(** A single quotient is possible. *)
Definition div_collapses (a b : ExprInfo) : bool :=
  let x := div_interval a b in min_defined x && max_defined x && (info_max x =? info_min x).

Definition raw_div_bounds (a b : ExprInfo) : ExprInfo :=
  let x := div_interval a b in
  mkInfo (if min_defined x then info_min x else 0) (if max_defined x then info_max x else 0)
    (min_defined x) (max_defined x) (mr_div (info_alignment a) (info_alignment b)).

Definition div_bounds (t : HType) (a b : ExprInfo) : ExprInfo :=
  if no_overflow_int t then trim_bounds_using_alignment (raw_div_bounds a b) else no_info.

Lemma fold_min_le init l v : In v l -> fold_right Z.min init l <= v.
Proof. induction l as [|a l IH]; cbn; [easy|]. intros [->|I]; [|specialize (IH I)]; lia. Qed.

Lemma fold_max_ge init l v : In v l -> v <= fold_right Z.max init l.
Proof. induction l as [|a l IH]; cbn; [easy|]. intros [->|I]; [|specialize (IH I)]; lia. Qed.

(** Quotients by a positive divisor in a range. *)
Section Quotients.
Context (x y p : Z) (P : 0 < p <= y).

Lemma quotient_lower a : a <= x -> Z.min (a / p) 0 <= x / y.
Proof.
  intros A. pose proof (Z.div_le_mono a x y ltac:(lia) A) as M.
  destruct (Z.leb_spec 0 a).
  - pose proof (Z.div_pos a y). lia.
  - assert (a / p <= a / y); [|lia].
    pose proof (Z.mul_div_le a p ltac:(lia)). assert (a / p < 0) by (apply Z.div_lt_upper_bound; lia).
    apply Z.div_le_lower_bound; nia.
Qed.

Lemma quotient_lower2 a q : a <= x -> y <= q -> Z.min (a / p) (a / q) <= x / y.
Proof.
  intros A Q. pose proof (Z.div_le_mono a x y ltac:(lia) A) as M.
  destruct (Z.leb_spec 0 a).
  - pose proof (Z.div_le_compat_l a y q). lia.
  - pose proof (quotient_lower a A). assert (a / p <= a / y); [|lia].
    pose proof (Z.mul_div_le a p ltac:(lia)). assert (a / p < 0) by (apply Z.div_lt_upper_bound; lia).
    apply Z.div_le_lower_bound; nia.
Qed.

Lemma quotient_upper a : x <= a -> x / y <= Z.max (a / p) 0.
Proof.
  intros A. pose proof (Z.div_le_mono x a y ltac:(lia) A) as M.
  destruct (Z.leb_spec 0 a).
  - pose proof (Z.div_le_compat_l a p y). lia.
  - assert (a / y < 0) by (apply Z.div_lt_upper_bound; lia). lia.
Qed.

Lemma quotient_upper2 a q : x <= a -> y <= q -> x / y <= Z.max (a / p) (a / q).
Proof.
  intros A Q. pose proof (Z.div_le_mono x a y ltac:(lia) A) as M.
  destruct (Z.leb_spec 0 a).
  - pose proof (Z.div_le_compat_l a p y). lia.
  - assert (a / y <= a / q); [|lia].
    pose proof (Z.mul_div_le a y ltac:(lia)). assert (a / y < 0) by (apply Z.div_lt_upper_bound; lia).
    apply Z.div_le_lower_bound; nia.
Qed.
End Quotients.

Lemma ediv_pos x y : 0 < y -> ediv x y = x / y.
Proof. intros Y. unfold ediv. rewrite Z.sgn_pos, Z.abs_eq by lia. lia. Qed.

Lemma ediv_neg x y : y < 0 -> ediv x y = - (x / - y).
Proof. intros Y. unfold ediv. rewrite Z.sgn_neg, Z.abs_neq by lia. lia. Qed.

(** A quotient lies between the enumerated values. *)
Section DivInterval.
Context (A B : ExprInfo) (RB : room 62 B).
Context (x y : Z) (HA : info_holds A x) (HB : info_holds B y).

Lemma room_div v : in_int 62 v -> - 2 ^ 63 <= v < 2 ^ 63.
Proof. unfold in_int. cbn. lia. Qed.

Ltac candidate := unfold div_candidates; rewrite !in_app_iff;
  repeat match goal with E : ?b = true |- _ => progress rewrite E end;
  repeat match goal with E : ?b = false |- _ => progress rewrite E end;
  repeat match goal with |- context [negb (?a =? 0)] =>
    replace (a =? 0) with false by (symmetry; apply Z.eqb_neq; lia) end;
  cbn; tauto.

(** The candidates of one end of the numerator. *)
Definition numerator_candidates (v : Z) : Prop :=
  (min_defined B = true -> info_min B <> 0 -> In (ediv v (info_min B)) (div_candidates A B)) /\
  (max_defined B = true -> info_max B <> 0 -> In (ediv v (info_max B)) (div_candidates A B)).

Lemma min_candidates : min_defined A = true -> numerator_candidates (info_min A).
Proof.
  intros D. split; intros E N.
  - rewrite <- div_imp_eq; [candidate|exact N|]. now apply room_div, (room_min 62 B).
  - rewrite <- div_imp_eq; [candidate|exact N|]. now apply room_div, (room_max 62 B).
Qed.

Lemma max_candidates : max_defined A = true -> numerator_candidates (info_max A).
Proof.
  intros D. split; intros E N.
  - rewrite <- div_imp_eq; [candidate|exact N|]. now apply room_div, (room_min 62 B).
  - rewrite <- div_imp_eq; [candidate|exact N|]. now apply room_div, (room_max 62 B).
Qed.

Lemma limit_candidate : min_defined B && (0 <? info_min B) && negb (max_defined B) = true \/
  max_defined B && (info_max B <? 0) && negb (min_defined B) = true -> In 0 (div_candidates A B).
Proof.
  intros H. unfold div_candidates. cbv zeta. rewrite !in_app_iff.
  replace (_ || _) with true; [cbn; tauto|]. symmetry. apply orb_true_iff. exact H.
Qed.

(** The two ends of the divisor, when it is positive or negative. *)
Lemma positive_range (v : Z) : min_defined B && (0 <? info_min B) = true -> numerator_candidates v ->
  0 < info_min B <= y /\ In (v / info_min B) (div_candidates A B) /\
  (max_defined B = true /\ y <= info_max B /\ In (v / info_max B) (div_candidates A B) \/
   In 0 (div_candidates A B)).
Proof.
  intros P [C1 C2]. apply andb_true_iff in P. destruct P as [H P]. pose proof (proj1 (Z.ltb_lt _ _) P) as P'.
  pose proof (above_min _ _ HB H) as L. split; [lia|]. split.
  - rewrite <- ediv_pos by lia. apply C1; auto. lia.
  - destruct (max_defined B) eqn:M.
    + left. pose proof (below_max _ _ HB M) as U. split; [reflexivity|]. split; [exact U|].
      rewrite <- ediv_pos by lia. apply C2; auto. lia.
    + right. apply limit_candidate. left. now rewrite H, P, M.
Qed.

Lemma negative_range (v : Z) : max_defined B && (info_max B <? 0) = true -> numerator_candidates v ->
  0 < - info_max B <= - y /\ In (- (v / - info_max B)) (div_candidates A B) /\
  (min_defined B = true /\ - y <= - info_min B /\ In (- (v / - info_min B)) (div_candidates A B) \/
   In 0 (div_candidates A B)).
Proof.
  intros P [C1 C2]. apply andb_true_iff in P. destruct P as [H P]. pose proof (proj1 (Z.ltb_lt _ _) P) as P'.
  pose proof (below_max _ _ HB H) as U. split; [lia|]. split.
  - rewrite <- ediv_neg by lia. apply C2; auto. lia.
  - destruct (min_defined B) eqn:M.
    + left. pose proof (above_min _ _ HB M) as L. split; [reflexivity|]. split; [lia|].
      rewrite <- ediv_neg by lia. apply C1; auto. lia.
    + right. apply limit_candidate. right. now rewrite H, P, M.
Qed.

Lemma div_interval_sound : info_holds (div_interval A B) (ediv x y).
Proof.
  split; cbn; [| |apply mr_contains_top]; intros D; apply orb_true_iff in D;
    destruct D as [D|D]; apply andb_true_iff in D; destruct D as [D P].
  - destruct (positive_range _ P (min_candidates D)) as (R & I1 & I2).
    pose proof (above_min _ _ HA D) as L. rewrite ediv_pos by lia.
    apply (fold_min_le INT64_MAX) in I1. destruct I2 as [(_ & U & I2)|I2]; apply (fold_min_le INT64_MAX) in I2.
    + pose proof (quotient_lower2 x y _ R _ _ L U). lia.
    + pose proof (quotient_lower x y _ R _ L). lia.
  - destruct (negative_range _ P (max_candidates D)) as (R & I1 & I2).
    pose proof (below_max _ _ HA D) as L. rewrite ediv_neg by lia.
    apply (fold_min_le INT64_MAX) in I1. destruct I2 as [(_ & U & I2)|I2]; apply (fold_min_le INT64_MAX) in I2.
    + pose proof (quotient_upper2 x (- y) _ R _ _ L U). lia.
    + pose proof (quotient_upper x (- y) _ R _ L). lia.
  - destruct (positive_range _ P (max_candidates D)) as (R & I1 & I2).
    pose proof (below_max _ _ HA D) as L. rewrite ediv_pos by lia.
    apply (fold_max_ge INT64_MIN) in I1. destruct I2 as [(_ & U & I2)|I2]; apply (fold_max_ge INT64_MIN) in I2.
    + pose proof (quotient_upper2 x y _ R _ _ L U). lia.
    + pose proof (quotient_upper x y _ R _ L). lia.
  - destruct (negative_range _ P (min_candidates D)) as (R & I1 & I2).
    pose proof (above_min _ _ HA D) as L. rewrite ediv_neg by lia.
    apply (fold_max_ge INT64_MIN) in I1. destruct I2 as [(_ & U & I2)|I2]; apply (fold_max_ge INT64_MIN) in I2.
    + pose proof (quotient_lower2 x (- y) _ R _ _ L U). lia.
    + pose proof (quotient_lower x (- y) _ R _ L). lia.
Qed.
End DivInterval.

Lemma div_bounds_hold env i a b A B : room 62 B ->
  trimmable (raw_div_bounds A B) -> ev env i b <> 0 ->
  info_holds A (ev env i a) -> info_holds B (ev env i b) ->
  info_holds (div_bounds (type_of a) A B) (ev env i (EBin Div a b)).
Proof.
  intros RB T NZ HA HB. unfold div_bounds.
  destruct (no_overflow_int (type_of a)) eqn:N; [|apply no_info_holds].
  apply trim_sound; [exact T|]. cbn [ev evbin]. rewrite norm_no_overflow by exact N.
  destruct (div_interval_sound A B RB _ _ HA HB) as [Mi Ma _].
  unfold raw_div_bounds. cbv zeta. split; cbn [info_min info_max min_defined max_defined info_alignment].
  - intros D. rewrite D. auto.
  - intros D. rewrite D. auto.
  - apply mr_div_sound; [|exact NZ|apply HA|apply HB].
    pose proof (room_remainder 62 B RB). unfold in_int in *. cbn in *. lia.
Qed.


(** ** The visit method *)

Definition denominator_non_zero (b : ExprInfo) : bool :=
  (min_defined b && (0 <? info_min b)) || (max_defined b && (info_max b <? 0)) ||
  negb (remainder (info_alignment b) =? 0).

Section Visit.
Context {prover : Prover} (no_float_simplify : bool).

(** [Simplify::visit(const Div)], from the simplified operands and what is
    known of them on; [bounds] tells whether the caller wants bounds. *)
Definition visit_Div (bounds : bool) (a b : Expr) (a_bounds b_bounds : ExprInfo) : M Step :=
  let e := EBin Div a b in
  let t := type_of e in
  if bounds && no_overflow_int t && div_collapses a_bounds b_bounds then
    let v := info_min (div_interval a_bounds b_bounds) in
    if can_represent_i64 t v then ret (Kept (make_const t v))
    else let! e' := make_signed_integer_overflow t in ret (Kept e')
  else if may_simplify no_float_simplify t then
    apply_tables e (div_done t (denominator_non_zero b_bounds)) (div_again t) e
  else ret (Kept e).

(** The only possible quotient is the value of the node. *)
Lemma div_collapsed env i a b A B : room 62 B -> no_overflow_int (type_of a) = true ->
  div_collapses A B = true -> operands_known A B a b env i ->
  ev env i (EBin Div a b) = info_min (div_interval A B).
Proof.
  intros R N C [HA HB]. cbn [ev evbin]. rewrite norm_no_overflow by exact N.
  unfold div_collapses in C. cbv zeta in C. apply andb_true_iff in C. destruct C as [D E].
  apply Z.eqb_eq in E. apply info_pinned; auto. now apply div_interval_sound.
Qed.

Lemma visit_Div_keeps bounds a b A B c st c' : wf (EBin Div a b) = true ->
  visit_Div bounds a b A B c = (st, c') ->
  correct_when c c' (fun env i => room 62 B /\ operands_known A B a b env i) [] (EBin Div a b) st.
Proof.
  intros W. unfold visit_Div. cbv zeta. pose proof (wf_wf_type _ W) as T.
  destruct (bounds && no_overflow_int _ && div_collapses A B) eqn:C.
  - apply andb_true_iff in C. destruct C as [C Co]. apply andb_true_iff in C. destruct C as [_ N].
    assert (V : forall env i, defined env i (EBin Div a b) -> room 62 B /\ operands_known A B a b env i ->
      ev env i (EBin Div a b) = info_min (div_interval A B)) by (intros ? ? _ []; now apply div_collapsed).
    destruct (can_represent_i64 _ _) eqn:Re; unfold ret.
    + intros [= <- _]. exact (const_correct _ _ (EBin Div a b) _ W V).
    + destruct (make_poison_ok false (type_of (EBin Div a b)) c T) as (e' & c1 & -> & We & Te).
      intros [= <- _]. apply correct_early; [exact We|exact Te|].
      intros env i D _ K. exfalso. pose proof (V env i D K) as E.
      assert (F := fits_in_type env i _ (proj2 D)). rewrite E in F.
      apply can_represent_in_type in F; [congruence|apply T|].
      now apply andb_true_iff in N.
  - destruct (may_simplify _ _).
    + intros E. apply correct_step_when. eapply (correct_tables [] _ (EBin Div a b)); [| | | |exact E];
        auto with halide; [apply div_done_good|apply div_again_good].
    + intros [= <- _]. apply correct_step_when. eapply correct_kept; eauto with halide.
Qed.

(** C10: The visit of a quotient preserves its type and
    value where what is known of the operands holds. *)
Theorem visit_Div_correct bounds a b A B c st c' : wf (EBin Div a b) = true -> room 62 B ->
  visit_Div bounds a b A B c = (st, c') ->
  correct_when c c' (operands_known A B a b) [] (EBin Div a b) st.
Proof.
  intros W R E. eapply correct_known; [|exact (visit_Div_keeps bounds a b A B c st c' W E)]. now split.
Qed.
End Visit.


Lemma visit_Div_correct_witness :
  let st := fst (visit_Div (prover := literal_prover) false true (int_var "x") (int_imm 2) (mkInfo (7) (7) true true (mkMR 1 0)) (mkInfo (2) (2) true true (mkMR 1 0)) no_counters) in
  step_expr st = int_imm 3 /\ same_meaning sample_env 0 (EBin Div (int_var "x") (int_imm 2)) (step_expr st).
Proof.
  split; [vm_compute; reflexivity|].
  unshelve eapply (visit_Div_correct (prover := literal_prover) false true (int_var "x") (int_imm 2) (mkInfo (7) (7) true true (mkMR 1 0)) (mkInfo (2) (2) true true (mkMR 1 0))
    no_counters _ _ _ _ (surjective_pairing _)); concrete.
Defined.
