(* ===== verification/SimplifyMod.v ===== *)
(** * Remainders

    The rewrite rules and the visit method of src/Simplify_Mod.cpp. *)

From Stdlib Require Import ZArith Lia Bool List String.
From S2P Require Import Prelude.
From S2P Require Import IntArith.
From S2P Require Import ModulusRemainder.
From S2P Require Import HalideTypes.
From S2P Require Import IR.
From S2P Require Import IREquality.
From S2P Require Import IRMatch.
From S2P Require Import PatNotations.
From S2P Require Import RuleSem.
From S2P Require Import Euclid.
From S2P Require Import RuleTac.
From S2P Require Import MatchSound.
From S2P Require Import FoldSound.
From S2P Require Import MakeSound.
From S2P Require Import RuleSound.
From S2P Require Import Visit.
From S2P Require Import TableTac.
From S2P Require Import ExprInfo.
Import ListNotations.

Local Open Scope pat_scope.

(** src/Simplify_Mod.cpp, lines 50 to 54. *)
Definition mod_done_1 : list Rule :=
  [ c0 mod c1 ~> fold(c0 mod c1) ;
    PIndeterminate mod x ~> arg_a ;
    x mod PIndeterminate ~> arg_b ;
    POverflow mod x ~> arg_a ;
    x mod POverflow ~> arg_b ].

(** src/Simplify_Mod.cpp, lines 56 to 57. *)
Definition mod_done_2 : list Rule :=
  [ 0 mod x ~> 0 ;
    x mod x ~> 0 ].

(** src/Simplify_Mod.cpp, lines 59 to 60. *)
Definition mod_done_3 : list Rule :=
  [ x mod 0 ~> PIndeterminate ;
    x mod 1 ~> 0 ].

(** The rules whose result the visitor returns. *)
Definition mod_done (T : HType) (modulus_non_zero : bool) : list Rule :=
  mod_done_1 ++
  when modulus_non_zero (mod_done_2) ++
  when (negb (is_float T)) (mod_done_3).

(** src/Simplify_Mod.cpp, lines 65 to 65. *)
Definition mod_again_1 (T : HType) : list Rule :=
  let lanes := lanes T in
  [ broadcast(x) mod broadcast(y) ~> broadcast2(x mod y, lanes) ].

(** src/Simplify_Mod.cpp, lines 67 to 83. *)
Definition mod_again_2 (T : HType) : list Rule :=
  let lanes := lanes T in
  [ x * c0 mod c1 ~> x * fold(c0 mod c1) mod c1 only_if (c1 > 0) && ((c0 >= c1) || (c0 < 0)) ;
    (x + c0) mod c1 ~> (x + fold(c0 mod c1)) mod c1 only_if (c1 > 0) && ((c0 >= c1) || (c0 < 0)) ;
    x * c0 mod c1 ~> x mod fold(c1 / c0) * c0 only_if (c0 > 0) && (c1 mod c0 == 0) ;
    (x * c0 + y) mod c1 ~> y mod c1 only_if c0 mod c1 == 0 ;
    (y + x * c0) mod c1 ~> y mod c1 only_if c0 mod c1 == 0 ;
    (x * c0 - y) mod c1 ~> - y mod c1 only_if c0 mod c1 == 0 ;
    (y - x * c0) mod c1 ~> y mod c1 only_if c0 mod c1 == 0 ;
    (x - y) mod 2 ~> (x + y) mod 2 ;
    ramp(x, c0) mod broadcast(c1) ~> broadcast2(x, lanes) mod c1 only_if c0 mod c1 == 0 ;
    ramp(x, c0) mod broadcast(c1) ~> ramp3(x mod c1, c0, lanes) only_if can_prove((x mod c1 + c0 * PLit (lanes - 1)) / c1 == 0) ;
    ramp(x * c0, c2) mod broadcast(c1) ~> ramp3(x * fold(c0 mod c1), fold(c2 mod c1), lanes) mod c1 only_if (c1 > 0) && ((c0 >= c1) || (c0 < 0)) ;
    ramp(x + c0, c2) mod broadcast(c1) ~> ramp3(x + fold(c0 mod c1), fold(c2 mod c1), lanes) mod c1 only_if (c1 > 0) && ((c0 >= c1) || (c0 < 0)) ;
    ramp(x * c0 + y, c2) mod broadcast(c1) ~> ramp3(y, fold(c2 mod c1), lanes) mod c1 only_if c0 mod c1 == 0 ;
    ramp(y + x * c0, c2) mod broadcast(c1) ~> ramp3(y, fold(c2 mod c1), lanes) mod c1 only_if c0 mod c1 == 0 ].

(** The rules whose result it simplifies again. *)
Definition mod_again (T : HType) : list Rule :=
  mod_again_1 T ++
  when (no_overflow_int T) (mod_again_2 T).

Local Close Scope pat_scope.
#[local] Open Scope Z_scope.

(** ** The groups of rules are well typed and sound *)

Lemma mod_done_1_good l (T : HType) :
  good_tables l T T mod_done_1.
Proof. unfold mod_done_1. plain_group. Qed.

Lemma mod_done_2_good l (T : HType) (modulus_non_zero : bool) : modulus_non_zero = true ->
  good_tables l T T mod_done_2.
Proof. intros G0. unfold mod_done_2. plain_group. Qed.

Lemma mod_done_3_good l (T : HType) : negb (is_float T) = true ->
  good_tables l T T mod_done_3.
Proof. intros G0. unfold mod_done_3. plain_group. Qed.

Lemma mod_again_1_good l (T : HType) :
  good_tables l T T (mod_again_1 T).
Proof. unfold mod_again_1. plain_group. Qed.

Lemma mod_again_2_good l (T : HType) : no_overflow_int T = true ->
  good_tables l T T (mod_again_2 T).
Proof. intros G0. unfold mod_again_2. wide_group G0. Qed.

Lemma mod_done_good l (T : HType) (modulus_non_zero : bool) :
  good_tables l T T (mod_done T modulus_non_zero).
Proof.
  unfold mod_done. good_table; eauto using mod_done_1_good, mod_done_2_good, mod_done_3_good.
Qed.

Lemma mod_again_good l (T : HType) :
  good_tables l T T (mod_again T).
Proof.
  unfold mod_again. good_table; eauto using mod_again_1_good, mod_again_2_good.
Qed.


(** ** The bounds of a remainder *)

Definition raw_mod_bounds (a b : ExprInfo) : ExprInfo :=
  let d := min_defined b && max_defined b && ((0 <? info_min b) || (info_max b <? 0)) in
  mkInfo 0 (i64 (Z.max (Z.abs (info_min b)) (Z.abs (info_max b)) - 1)) d d
    (mr_mod (info_alignment a) (info_alignment b)).

Definition mod_bounds (t : HType) (a b : ExprInfo) : ExprInfo :=
  if no_overflow_int t then trim_bounds_using_alignment (raw_mod_bounds a b) else no_info.

Lemma mod_trimmable a b : room 62 a -> room 62 b -> trimmable (raw_mod_bounds a b).
Proof.
  intros [_ _ Am Ar] [Bmin Bmax Bm Br]. split; cbn.
  - apply mr_mod_normal.
  - unfold in_int. lia.
  - intros D. destr_and. unfold in_int in *. cbn in *. rewrite i64_id by lia. lia.
  - now apply mr_mod_room.
Qed.

Lemma mod_bounds_hold env i a b A B : room 62 A -> room 62 B -> ev env i b <> 0 ->
  info_holds A (ev env i a) -> info_holds B (ev env i b) ->
  info_holds (mod_bounds (type_of a) A B) (ev env i (EBin Mod a b)).
Proof.
  intros RA RB NZ HA HB. unfold mod_bounds.
  destruct (no_overflow_int (type_of a)); [|apply no_info_holds].
  apply trim_sound; [now apply mod_trimmable|]. cbn [ev evbin].
  pose proof (emod_bound (ev env i a) (ev env i b) NZ) as E.
  split; cbn.
  - lia.
  - intros D. destr_and. destruct RB as [Bmin Bmax _ _].
    specialize (Bmin ltac:(assumption)). specialize (Bmax ltac:(assumption)). unfold in_int in *. cbn in *.
    rewrite i64_id by lia. pose proof (above_min _ _ HB ltac:(assumption)).
    pose proof (below_max _ _ HB ltac:(assumption)). lia.
  - apply mr_mod_sound; [exact NZ|apply HA|apply HB].
Qed.

(** C28: What [visit(const Mod)] reports of a remainder holds of its value. *)
Theorem mod_bounds_sound env i a b A B : room 62 A -> room 62 B -> ev env i b <> 0 ->
  operands_known A B a b env i ->
  info_holds (mod_bounds (type_of a) A B) (ev env i (EBin Mod a b)).
Proof. intros RA RB NZ [HA HB]. now apply mod_bounds_hold. Qed.

(** ** The visit method *)

Definition modulus_non_zero (b : ExprInfo) : bool :=
  (min_defined b && (0 <? info_min b)) || (max_defined b && (info_max b <? 0)) ||
  negb (remainder (info_alignment b) =? 0).

(** The numerator is already reduced. *)
Definition mod_is_numerator (a b : ExprInfo) : bool :=
  min_defined a && (0 <=? info_min a) && max_defined a && min_defined b && (info_max a <? info_min b).

(** A single remainder is possible. *)
Definition mod_collapses (m : ExprInfo) : bool :=
  min_defined m && max_defined m && (info_max m =? info_min m).

Section Visit.
Context {prover : Prover} (no_float_simplify : bool).

(** [Simplify::visit(const Mod)], from the simplified operands and what is
    known of them on. *)
Definition visit_Mod (a b : Expr) (a_bounds b_bounds : ExprInfo) : M Step :=
  let e := EBin Mod a b in
  let t := type_of e in
  let m := mod_bounds t a_bounds b_bounds in
  if may_simplify no_float_simplify t then
    if mod_is_numerator a_bounds b_bounds then ret (Kept a)
    else if mod_collapses m then ret (Kept (make_const t (info_min m)))
    else apply_tables e (mod_done t (modulus_non_zero b_bounds)) (mod_again t) e
  else ret (Kept e).

Lemma mod_numerator env i a b A B : mod_is_numerator A B = true -> operands_known A B a b env i ->
  ev env i (EBin Mod a b) = ev env i a.
Proof.
  unfold mod_is_numerator. intros C [[Amin Amax _] [Bmin _ _]]. destr_and. zify_bool.
  specialize (Amin ltac:(assumption)). specialize (Amax ltac:(assumption)).
  specialize (Bmin ltac:(assumption)). cbn [ev evbin]. unfold emod. apply Z.mod_small. lia.
Qed.

Lemma visit_Mod_keeps a b A B c st c' : wf (EBin Mod a b) = true ->
  visit_Mod a b A B c = (st, c') ->
  correct_when c c' (fun env i => (room 62 A /\ room 62 B) /\ operands_known A B a b env i) [] (EBin Mod a b) st.
Proof.
  intros W. unfold visit_Mod. cbv zeta. destruct (may_simplify _ _).
  - destruct (mod_is_numerator A B) eqn:N; [|destruct (mod_collapses _) eqn:C].
    + intros [= <- _]. apply correct_early; [apply (wf_bin_inv _ _ _ W)|reflexivity|].
      intros env i D _ [_ K]. split; [apply D|]. now rewrite (mod_numerator env i a b A B N K).
    + intros [= <- _]. apply (const_correct _ _ (EBin Mod a b) _ W). intros env i [(_ & _ & NZ) _] [[RA RB] [HA HB]].
      unfold mod_collapses in C. apply andb_true_iff in C. destruct C as [D E]. apply Z.eqb_eq in E.
      apply info_pinned; auto. now apply mod_bounds_hold.
    + intros E. apply correct_step_when. eapply (correct_tables [] _ (EBin Mod a b)); [| | | |exact E];
        auto with halide; [apply mod_done_good|apply mod_again_good].
  - intros [= <- _]. apply correct_step_when. eapply correct_kept; eauto with halide.
Qed.

(** C11: The visit of a remainder preserves its type and
    value where what is known of the operands holds. *)
Theorem visit_Mod_correct a b A B c st c' : wf (EBin Mod a b) = true -> room 62 A -> room 62 B ->
  visit_Mod a b A B c = (st, c') ->
  correct_when c c' (operands_known A B a b) [] (EBin Mod a b) st.
Proof.
  intros W RA RB E. eapply correct_known; [|exact (visit_Mod_keeps a b A B c st c' W E)]. now split.
Qed.
End Visit.

Lemma mod_bounds_sound_witness :
  info_holds (mod_bounds (Int 32 1) (mkInfo (-7) (7) true true (mkMR 1 0)) (mkInfo (2) (9) true true (mkMR 1 0))) 0.
Proof.
  apply (mod_bounds_sound sample_env 0 (int_var "x") (int_var "y") (mkInfo (-7) (7) true true (mkMR 1 0)) (mkInfo (2) (9) true true (mkMR 1 0))); concrete.
Defined.

Lemma visit_Mod_correct_witness :
  let st := fst (visit_Mod (prover := literal_prover) false (int_var "x") (int_imm 8) (mkInfo (0) (7) true true (mkMR 1 0)) (mkInfo (8) (8) true true (mkMR 1 0)) no_counters) in
  step_expr st = int_var "x" /\ same_meaning sample_env 0 (EBin Mod (int_var "x") (int_imm 8)) (step_expr st).
Proof.
  split; [vm_compute; reflexivity|].
  unshelve eapply (visit_Mod_correct (prover := literal_prover) false (int_var "x") (int_imm 8) (mkInfo (0) (7) true true (mkMR 1 0)) (mkInfo (8) (8) true true (mkMR 1 0))
    no_counters _ _ _ _ _ (surjective_pairing _)); concrete.
Defined.
