(* ===== verification/SimplifyMin.v ===== *)
(** * Minima

    The rewrite rules and the visit method of src/Simplify_Min.cpp. *)

From Stdlib Require Import ZArith Lia Bool List String.
From S2P Require Import Prelude.
From S2P Require Import IntArith.
From S2P Require Import ModulusRemainder.
From S2P Require Import HalideTypes.
From S2P Require Import IR.
From S2P Require Import IREquality.
From S2P Require Import IRMatch.
From S2P Require Import PatNotations.
From S2P Require Import RuleSem.
From S2P Require Import Euclid.
From S2P Require Import RuleTac.
From S2P Require Import MatchSound.
From S2P Require Import FoldSound.
From S2P Require Import MakeSound.
From S2P Require Import RuleSound.
From S2P Require Import Visit.
From S2P Require Import TableTac.
From S2P Require Import ExprInfo.
Import ListNotations.

Local Open Scope pat_scope.

(** src/Simplify_Min.cpp, lines 46 to 54. *)
Definition min_done_1 (T : HType) : list Rule :=
  [ min(x, x) ~> x ;
    min(c0, c1) ~> fold(min(c0, c1)) ;
    min(PIndeterminate, x) ~> arg_a ;
    min(x, PIndeterminate) ~> arg_b ;
    min(POverflow, x) ~> arg_a ;
    min(x, POverflow) ~> arg_b ;
    min(x, PSpecific (type_min T)) ~> arg_b ;
    min(x, PSpecific (type_max T)) ~> x ].

(** src/Simplify_Min.cpp, lines 55 to 56. *)
Definition min_done_2 : list Rule :=
  [ min(x / c0 * c0, x) ~> arg_a only_if c0 > 0 ;
    min(x, x / c0 * c0) ~> arg_b only_if c0 > 0 ].

(** src/Simplify_Min.cpp, lines 57 to 76. *)
Definition min_done_3 : list Rule :=
  [ min(min(x, y), x) ~> arg_a ;
    min(min(x, y), y) ~> arg_a ;
    min(min(min(x, y), z), x) ~> arg_a ;
    min(min(min(x, y), z), y) ~> arg_a ;
    min(min(min(min(x, y), z), w), x) ~> arg_a ;
    min(min(min(min(x, y), z), w), y) ~> arg_a ;
    min(min(min(min(min(x, y), z), w), u), x) ~> arg_a ;
    min(min(min(min(min(x, y), z), w), u), y) ~> arg_a ;
    min(x, max(x, y)) ~> arg_a ;
    min(x, max(y, x)) ~> arg_a ;
    min(max(x, y), min(x, y)) ~> arg_b ;
    min(max(x, y), min(y, x)) ~> arg_b ;
    min(max(x, y), x) ~> arg_b ;
    min(max(y, x), x) ~> arg_b ;
    min(max(x, c0), c1) ~> arg_b only_if c1 <= c0 ;
    min(intrin(likely_name, x), x) ~> arg_a ;
    min(x, intrin(likely_name, x)) ~> arg_b ;
    min(intrin(likely_if_innermost_name, x), x) ~> arg_a ;
    min(x, intrin(likely_if_innermost_name, x)) ~> arg_b ].

(** src/Simplify_Min.cpp, lines 79 to 94. *)
Definition min_done_4 (T : HType) : list Rule :=
  let lanes := lanes T in
  [ min(ramp(x, y), broadcast(z)) ~> arg_a only_if can_prove((x + y * PLit (lanes - 1) <= z) && (x <= z)) ;
    min(ramp(x, y), broadcast(z)) ~> arg_b only_if can_prove((x + y * PLit (lanes - 1) >= z) && (x >= z)) ;
    min((x + c0) / c1 * c1 + c2, x) ~> arg_b only_if (c1 > 0) && (c0 + c2 >= c1 - 1) ;
    min(x, (x + c0) / c1 * c1 + c2) ~> arg_a only_if (c1 > 0) && (c0 + c2 >= c1 - 1) ;
    min((x + c0) / c1 * c1 + c2, x) ~> arg_a only_if (c1 > 0) && (c0 + c2 <= 0) ;
    min(x, (x + c0) / c1 * c1 + c2) ~> arg_b only_if (c1 > 0) && (c0 + c2 <= 0) ;
    min(x / c1 * c1 + c2, x) ~> arg_b only_if (c1 > 0) && (c2 >= c1 - 1) ;
    min(x, x / c1 * c1 + c2) ~> arg_a only_if (c1 > 0) && (c2 >= c1 - 1) ;
    min((x + c0) / c1 * c1, x) ~> arg_b only_if (c1 > 0) && (c0 >= c1 - 1) ;
    min(x, (x + c0) / c1 * c1) ~> arg_a only_if (c1 > 0) && (c0 >= c1 - 1) ;
    min(x / c1 * c1 + c2, x) ~> arg_a only_if (c1 > 0) && (c2 <= 0) ;
    min(x, x / c1 * c1 + c2) ~> arg_b only_if (c1 > 0) && (c2 <= 0) ;
    min((x + c0) / c1 * c1, x) ~> arg_a only_if (c1 > 0) && (c0 <= 0) ;
    min(x, (x + c0) / c1 * c1) ~> arg_b only_if (c1 > 0) && (c0 <= 0) ].

(** The rules whose result the visitor returns. *)
Definition min_done (T : HType) : list Rule :=
  min_done_1 T ++
  min_done_2 ++
  min_done_3 ++
  when (no_overflow T) (min_done_4 T).

(** src/Simplify_Min.cpp, lines 99 to 118. *)
Definition min_again_1 (T : HType) : list Rule :=
  let lanes := lanes T in
  [ min(min(x, c0), c1) ~> min(x, fold(min(c0, c1))) ;
    min(min(x, c0), y) ~> min(min(x, y), c0) ;
    min(min(x, y), min(x, z)) ~> min(min(y, z), x) ;
    min(min(y, x), min(x, z)) ~> min(min(y, z), x) ;
    min(min(x, y), min(z, x)) ~> min(min(y, z), x) ;
    min(min(y, x), min(z, x)) ~> min(min(y, z), x) ;
    min(min(x, y), min(z, w)) ~> min(min(min(x, y), z), w) ;
    min(broadcast(x), broadcast(y)) ~> broadcast2(min(x, y), lanes) ;
    min(broadcast(x), ramp(y, z)) ~> min(arg_b, arg_a) ;
    min(min(x, broadcast(y)), broadcast(z)) ~> min(x, broadcast2(min(y, z), lanes)) ;
    min(max(x, y), max(x, z)) ~> max(x, min(y, z)) ;
    min(max(x, y), max(z, x)) ~> max(x, min(y, z)) ;
    min(max(y, x), max(x, z)) ~> max(min(y, z), x) ;
    min(max(y, x), max(z, x)) ~> max(min(y, z), x) ;
    min(max(min(x, y), z), y) ~> min(max(x, z), y) ;
    min(max(min(y, x), z), y) ~> min(y, max(x, z)) ;
    min(min(x, c0), c1) ~> min(x, fold(min(c0, c1))) ;
    min(max(x, c0), c1) ~> max(min(x, c1), c0) only_if c0 <= c1 ].

(** src/Simplify_Min.cpp, lines 121 to 173. *)
Definition min_again_2 : list Rule :=
  [ min(min(x, y) + c0, x) ~> min(x, y + c0) only_if c0 > 0 ;
    min(min(x, y) + c0, x) ~> min(x, y) + c0 only_if c0 < 0 ;
    min(min(y, x) + c0, x) ~> min(y + c0, x) only_if c0 > 0 ;
    min(min(y, x) + c0, x) ~> min(y, x) + c0 only_if c0 < 0 ;
    min(x, min(x, y) + c0) ~> min(x, y + c0) only_if c0 > 0 ;
    min(x, min(x, y) + c0) ~> min(x, y) + c0 only_if c0 < 0 ;
    min(x, min(y, x) + c0) ~> min(x, y + c0) only_if c0 > 0 ;
    min(x, min(y, x) + c0) ~> min(x, y) + c0 only_if c0 < 0 ;
    min(x + c0, c1) ~> min(x, fold(c1 - c0)) + c0 ;
    min(x + c0, y + c1) ~> min(x, y + fold(c1 - c0)) + c0 only_if c1 > c0 ;
    min(x + c0, y + c1) ~> min(x + fold(c0 - c1), y) + c1 only_if c0 > c1 ;
    min(x + y, x + z) ~> x + min(y, z) ;
    min(x + y, z + x) ~> x + min(y, z) ;
    min(y + x, x + z) ~> min(y, z) + x ;
    min(y + x, z + x) ~> min(y, z) + x ;
    min(x, x + z) ~> x + min(z, 0) ;
    min(x, z + x) ~> x + min(z, 0) ;
    min(y + x, x) ~> min(y, 0) + x ;
    min(x + y, x) ~> x + min(y, 0) ;
    min((x * c0 + y) * c1, x * c2 + z) ~> min(y * c1, z) + x * c2 only_if c0 * c1 == c2 ;
    min((y + x * c0) * c1, x * c2 + z) ~> min(y * c1, z) + x * c2 only_if c0 * c1 == c2 ;
    min((x * c0 + y) * c1, z + x * c2) ~> min(y * c1, z) + x * c2 only_if c0 * c1 == c2 ;
    min((y + x * c0) * c1, z + x * c2) ~> min(y * c1, z) + x * c2 only_if c0 * c1 == c2 ;
    min(min(x + y, z), x + w) ~> min(x + min(y, w), z) ;
    min(min(z, x + y), x + w) ~> min(x + min(y, w), z) ;
    min(min(x + y, z), w + x) ~> min(x + min(y, w), z) ;
    min(min(z, x + y), w + x) ~> min(x + min(y, w), z) ;
    min(min(y + x, z), x + w) ~> min(min(y, w) + x, z) ;
    min(min(z, y + x), x + w) ~> min(min(y, w) + x, z) ;
    min(min(y + x, z), w + x) ~> min(min(y, w) + x, z) ;
    min(min(z, y + x), w + x) ~> min(min(y, w) + x, z) ;
    min(x + w + y, x + z) ~> x + min(w + y, z) ;
    min(w + x + y, x + z) ~> min(w + y, z) + x ;
    min(x + w + y, z + x) ~> x + min(w + y, z) ;
    min(w + x + y, z + x) ~> min(w + y, z) + x ;
    min(x + w + y, x) ~> x + min(w + y, 0) ;
    min(w + x + y, x) ~> x + min(w + y, 0) ;
    min(x + y, w + x + z) ~> x + min(w + z, y) ;
    min(x + y, x + w + z) ~> x + min(w + z, y) ;
    min(y + x, w + x + z) ~> min(w + z, y) + x ;
    min(y + x, x + w + z) ~> min(w + z, y) + x ;
    min(x, w + x + z) ~> x + min(w + z, 0) ;
    min(x, x + w + z) ~> x + min(w + z, 0) ;
    min(y - x, z - x) ~> min(y, z) - x ].

(** src/Simplify_Min.cpp, lines 174 to 208. *)
Definition min_again_3 : list Rule :=
  [ min(x - y, x - z) ~> x - max(y, z) ;
    min(x, x - y) ~> x - max(0, y) ;
    min(x - y, x) ~> x - max(0, y) ;
    min(x, x - y + z) ~> x + min(0, z - y) ;
    min(x, z + (x - y)) ~> x + min(0, z - y) ;
    min(x, x - y - z) ~> x - max(0, y + z) ;
    min(x - y + z, x) ~> min(0, z - y) + x ;
    min(z + (x - y), x) ~> min(0, z - y) + x ;
    min(x - y - z, x) ~> x - max(0, y + z) ;
    min(x * c0, c1) ~> min(x, fold(c1 / c0)) * c0 only_if (c0 > 0) && (c1 mod c0 == 0) ;
    min(x * c0, c1) ~> max(x, fold(c1 / c0)) * c0 only_if (c0 < 0) && (c1 mod c0 == 0) ;
    min(x * c0, y * c1) ~> min(x, y * fold(c1 / c0)) * c0 only_if (c0 > 0) && (c1 mod c0 == 0) ;
    min(x * c0, y * c1) ~> max(x, y * fold(c1 / c0)) * c0 only_if (c0 < 0) && (c1 mod c0 == 0) ;
    min(x * c0, y * c1) ~> min(x * fold(c0 / c1), y) * c1 only_if (c1 > 0) && (c0 mod c1 == 0) ;
    min(x * c0, y * c1) ~> max(x * fold(c0 / c1), y) * c1 only_if (c1 < 0) && (c0 mod c1 == 0) ;
    min(x * c0, y * c0 + c1) ~> min(x, y + fold(c1 / c0)) * c0 only_if (c0 > 0) && (c1 mod c0 == 0) ;
    min(x * c0, y * c0 + c1) ~> max(x, y + fold(c1 / c0)) * c0 only_if (c0 < 0) && (c1 mod c0 == 0) ;
    min(x / c0, y / c0) ~> min(x, y) / c0 only_if c0 > 0 ;
    min(x / c0, y / c0) ~> max(x, y) / c0 only_if c0 < 0 ;
    min(x / c0, y / c0 + c1) ~> min(x, y + fold(c1 * c0)) / c0 only_if (c0 > 0) && ! overflows(c1 * c0) ;
    min(x / c0, y / c0 + c1) ~> max(x, y + fold(c1 * c0)) / c0 only_if (c0 < 0) && ! overflows(c1 * c0) ;
    min(select(x, y, z), select(x, w, u)) ~> select(x, min(y, w), min(z, u)) ;
    min(c0 - x, c1) ~> c0 - max(x, fold(c0 - c1)) ].

(** The rules whose result it simplifies again. *)
Definition min_again (T : HType) : list Rule :=
  min_again_1 T ++
  when (no_overflow T) (min_again_2 ++
    min_again_3).

Local Close Scope pat_scope.
#[local] Open Scope Z_scope.

(** At a narrow signed type [(x / c0) * c0] wraps around for the smallest [x]. *)
Definition min_exceptions (T : HType) : list Rule :=
  when (is_int T && negb (no_overflow_int T)) min_done_2.

Lemma min_done_2_good (T : HType) : good_tables (min_exceptions T) T T min_done_2.
Proof.
  apply good_unless; [reflexivity|unfold min_done_2; each_rule ltac:(typed_rule)|].
  intros G. unfold min_done_2. destruct (no_overflow_int T) eqn:N.
  - each_rule ltac:(wide_rule N).
  - rewrite andb_true_r in G. each_rule ltac:(round_down_rule G).
Qed.


(** ** The groups of rules are well typed and sound *)

Lemma min_done_1_good l (T : HType) :
  good_tables l T T (min_done_1 T).
Proof. unfold min_done_1. plain_group. Qed.

Lemma min_done_3_good l (T : HType) :
  good_tables l T T min_done_3.
Proof. unfold min_done_3. plain_group. Qed.

Lemma min_done_4_good l (T : HType) : no_overflow T = true ->
  good_tables l T T (min_done_4 T).
Proof. intros G0. unfold min_done_4. wide_group G0. Qed.

Lemma min_again_1_good l (T : HType) :
  good_tables l T T (min_again_1 T).
Proof. unfold min_again_1. plain_group. Qed.

Lemma min_again_2_good l (T : HType) : no_overflow T = true ->
  good_tables l T T min_again_2.
Proof. intros G0. unfold min_again_2. wide_group G0. Qed.

Lemma min_again_3_good l (T : HType) : no_overflow T = true ->
  good_tables l T T min_again_3.
Proof. intros G0. unfold min_again_3. wide_group G0. Qed.

Lemma min_done_good (T : HType) :
  good_tables (min_exceptions T) T T (min_done T).
Proof.
  unfold min_done. good_table; eauto using min_done_1_good, min_done_2_good, min_done_3_good, min_done_4_good.
Qed.

Lemma min_again_good (T : HType) :
  good_tables (min_exceptions T) T T (min_again T).
Proof.
  unfold min_again. good_table; eauto using min_again_1_good, min_again_2_good, min_again_3_good.
Qed.


(** ** The bounds of a minimum *)

Definition raw_min_bounds (a b : ExprInfo) : ExprInfo :=
  mkInfo (Z.min (info_min a) (info_min b))
    (if max_defined a && max_defined b then Z.min (info_max a) (info_max b)
     else if max_defined a then info_max a else info_max b)
    (min_defined a && min_defined b) (max_defined a || max_defined b)
    (unify (info_alignment a) (info_alignment b)).

Definition min_bounds (a b : ExprInfo) : ExprInfo := trim_bounds_using_alignment (raw_min_bounds a b).

Lemma min_trimmable a b : room 62 a -> room 62 b -> trimmable (raw_min_bounds a b).
Proof.
  intros [Amin Amax Am Ar] [Bmin Bmax Bm Br]. split; cbn.
  - apply unify_normal.
  - destruct (min_defined a), (min_defined b); cbn; intros D; try discriminate D; unfold in_int in *; cbn in *; lia.
  - destruct (max_defined a), (max_defined b); cbn; intros D; try discriminate D; unfold in_int in *; cbn in *; lia.
  - now apply unify_room.
Qed.

Lemma min_bounds_hold env i a b A B : room 62 A -> room 62 B ->
  operands_known A B a b env i ->
  info_holds (min_bounds A B) (ev env i (EBin Min a b)).
Proof.
  intros RA RB [[Amin Amax Aa] [Bmin Bmax Ba]]. apply trim_sound; [now apply min_trimmable|].
  cbn [ev evbin]. split; cbn [info_min info_max min_defined max_defined info_alignment raw_min_bounds].
  - destruct (min_defined A), (min_defined B); cbn; intros D; try discriminate D; lia.
  - destruct (max_defined A), (max_defined B); cbn; intros D; try discriminate D; lia.
  - apply unify_sound; [apply room_unify_safe; first [apply RA|apply RB]|].
    destruct (Z.min_spec (ev env i a) (ev env i b)) as [[_ ->]|[_ ->]]; auto.
Qed.

(** What [visit(const Min)] reports of a minimum holds of its value. *)
Theorem min_bounds_sound env i a b A B : room 62 A -> room 62 B ->
  operands_known A B a b env i ->
  info_holds (min_bounds A B) (ev env i (EBin Min a b)).
Proof. exact (min_bounds_hold env i a b A B). Qed.

(** ** The visit method *)

Section Visit.
Context {prover : Prover} (no_float_simplify : bool).

(** [Simplify::visit(const Min)], from the simplified operands and what is
    known of them on.  A node that is remade is hoisted out of slices
    whatever its type. *)
Definition visit_Min (a b : Expr) (a_bounds b_bounds : ExprInfo) : M Step :=
  let t := type_of (EBin Min a b) in
  if max_defined a_bounds && min_defined b_bounds && (info_max a_bounds <=? info_min b_bounds)
  then ret (Kept a)
  else if max_defined b_bounds && min_defined a_bounds && (info_max b_bounds <=? info_min a_bounds)
  then ret (Kept b)
  else if may_simplify no_float_simplify t then
    let '(a, b) := commute a b in
    apply_tables (EBin Min a b) (min_done t) (min_again t) (hoist_slice_vector Min a b)
  else ret (Kept (hoist_slice_vector Min a b)).

Lemma visit_Min_keeps a b A B c st c' : wf (EBin Min a b) = true ->
  visit_Min a b A B c = (st, c') ->
  correct_when c c' (operands_known A B a b) (min_exceptions (type_of (EBin Min a b))) (EBin Min a b) st.
Proof.
  intros W. unfold visit_Min. destruct (wf_bin_inv _ _ _ W) as (Wa & Wb & T).
  destruct (max_defined A && min_defined B && _) eqn:C1; [|destruct (max_defined B && min_defined A && _) eqn:C2].
  - intros [= <- _]. apply correct_early; [assumption|assumption || reflexivity|].
    intros env i D _ [[_ Amax _] [Bmin _ _]]. destr_and. zify_bool. split; [apply D|]. cbn [ev evbin].
    specialize (Amax ltac:(assumption)). specialize (Bmin ltac:(assumption)). lia.
  - intros [= <- _]. apply correct_early; [assumption|assumption || reflexivity|].
    intros env i D _ [[Amin _ _] [_ Bmax _]]. destr_and. zify_bool. split; [apply D|]. cbn [ev evbin].
    specialize (Amin ltac:(assumption)). specialize (Bmax ltac:(assumption)). lia.
  - destruct (may_simplify _ _).
    + destruct (commute a b) as [a' b'] eqn:C.
      pose proof (commute_stands_for Min a b a' b' eq_refl W C) as S. pose proof S as (W' & T' & _).
      intros E. apply correct_step_when. eapply (correct_tables _ _ (EBin Min a' b')); [exact S| | | |exact E].
      * now apply hoist_keeps.
      * rewrite <- T'. apply min_done_good.
      * rewrite <- T'. apply min_again_good.
    + intros [= <- _]. apply correct_step_when. eapply correct_kept; eauto with halide.
Qed.

(** C9: The visit of a minimum preserves its type and
    value where what is known of the operands holds; at the narrow signed
    types, the rules that round down are excepted. *)
Theorem visit_Min_correct a b A B c st c' : wf (EBin Min a b) = true ->
  visit_Min a b A B c = (st, c') ->
  correct_when c c' (operands_known A B a b) (min_exceptions (type_of (EBin Min a b))) (EBin Min a b) st.
Proof. exact (visit_Min_keeps a b A B c st c'). Qed.
End Visit.

Lemma min_bounds_sound_witness :
  info_holds (min_bounds (mkInfo (0) (7) true true (mkMR 1 0)) (mkInfo (2) (9) true true (mkMR 1 0))) 7.
Proof.
  apply (min_bounds_sound sample_env 0 (int_var "x") (int_var "y") (mkInfo (0) (7) true true (mkMR 1 0)) (mkInfo (2) (9) true true (mkMR 1 0))); concrete.
Defined.

Lemma visit_Min_correct_witness :
  let st := fst (visit_Min (prover := literal_prover) false (EBin Min (int_var "x") (int_var "y")) (int_var "x") no_info no_info no_counters) in
  step_expr st = EBin Min (int_var "x") (int_var "y") /\ same_meaning sample_env 0 (EBin Min (EBin Min (int_var "x") (int_var "y")) (int_var "x")) (step_expr st).
Proof.
  split; [vm_compute; reflexivity|].
  unshelve eapply (visit_Min_correct (prover := literal_prover) false (EBin Min (int_var "x") (int_var "y")) (int_var "x") no_info no_info
    no_counters _ _ eq_refl (surjective_pairing _)); concrete.
Defined.

(** Why the two rules are excepted: at [int8],
    [min((x / 3) * 3, x)] is [-128] for [x = -128], and is turned into
    [(x / 3) * 3], which wraps around to 127. *)
Theorem min_round_down_unsound :
  let x := EVariable (Int 8 1) "x" in
  let three := IntImm (Int 8 1) 3 in
  let a := EBin Mul (EBin Div x three) three in
  let env := mkEnv (fun _ _ => -128) (fun _ _ => 0) (fun _ _ _ _ => 0) in
  let st := fst (visit_Min (prover := literal_prover) false a x no_info no_info no_counters) in
  step_expr st = a /\ defined env 0 (EBin Min a x) /\
  ev env 0 (EBin Min a x) = -128 /\ ev env 0 (step_expr st) = 127.
Proof. cbv zeta. split; [vm_compute; reflexivity|]. concrete. Qed.
