(* ===== verification/SimplifyMax.v ===== *)
(** * Maxima

    The rewrite rules and the visit method of src/Simplify_Max.cpp. *)

From Stdlib Require Import ZArith Lia Bool List String.
From S2P Require Import Prelude.
From S2P Require Import IntArith.
From S2P Require Import ModulusRemainder.
From S2P Require Import HalideTypes.
From S2P Require Import IR.
From S2P Require Import IREquality.
From S2P Require Import IRMatch.
From S2P Require Import PatNotations.
From S2P Require Import RuleSem.
From S2P Require Import Euclid.
From S2P Require Import RuleTac.
From S2P Require Import MatchSound.
From S2P Require Import FoldSound.
From S2P Require Import MakeSound.
From S2P Require Import RuleSound.
From S2P Require Import Visit.
From S2P Require Import TableTac.
From S2P Require Import ExprInfo.
Import ListNotations.

Local Open Scope pat_scope.

(** src/Simplify_Max.cpp, lines 46 to 54. *)
Definition max_done_1 (T : HType) : list Rule :=
  [ max(x, x) ~> x ;
    max(c0, c1) ~> fold(max(c0, c1)) ;
    max(PIndeterminate, x) ~> arg_a ;
    max(x, PIndeterminate) ~> arg_b ;
    max(POverflow, x) ~> arg_a ;
    max(x, POverflow) ~> arg_b ;
    max(x, PSpecific (type_max T)) ~> arg_b ;
    max(x, PSpecific (type_min T)) ~> x ].

(** src/Simplify_Max.cpp, lines 55 to 56. *)
Definition max_done_2 : list Rule :=
  [ max(x / c0 * c0, x) ~> arg_b only_if c0 > 0 ;
    max(x, x / c0 * c0) ~> arg_a only_if c0 > 0 ].

(** src/Simplify_Max.cpp, lines 57 to 76. *)
Definition max_done_3 : list Rule :=
  [ max(max(x, y), x) ~> arg_a ;
    max(max(x, y), y) ~> arg_a ;
    max(max(max(x, y), z), x) ~> arg_a ;
    max(max(max(x, y), z), y) ~> arg_a ;
    max(max(max(max(x, y), z), w), x) ~> arg_a ;
    max(max(max(max(x, y), z), w), y) ~> arg_a ;
    max(max(max(max(max(x, y), z), w), u), x) ~> arg_a ;
    max(max(max(max(max(x, y), z), w), u), y) ~> arg_a ;
    max(x, min(x, y)) ~> arg_a ;
    max(x, min(y, x)) ~> arg_a ;
    max(max(x, y), min(x, y)) ~> arg_a ;
    max(max(x, y), min(y, x)) ~> arg_a ;
    max(min(x, y), x) ~> arg_b ;
    max(min(y, x), x) ~> arg_b ;
    max(min(x, c0), c1) ~> arg_b only_if c1 >= c0 ;
    max(intrin(likely_name, x), x) ~> arg_a ;
    max(x, intrin(likely_name, x)) ~> arg_b ;
    max(intrin(likely_if_innermost_name, x), x) ~> arg_a ;
    max(x, intrin(likely_if_innermost_name, x)) ~> arg_b ].

(** src/Simplify_Max.cpp, lines 79 to 94. *)
Definition max_done_4 (T : HType) : list Rule :=
  let lanes := lanes T in
  [ max(ramp(x, y), broadcast(z)) ~> arg_a only_if can_prove((x + y * PLit (lanes - 1) >= z) && (x >= z)) ;
    max(ramp(x, y), broadcast(z)) ~> arg_b only_if can_prove((x + y * PLit (lanes - 1) <= z) && (x <= z)) ;
    max((x + c0) / c1 * c1 + c2, x) ~> arg_a only_if (c1 > 0) && (c0 + c2 >= c1 - 1) ;
    max(x, (x + c0) / c1 * c1 + c2) ~> arg_b only_if (c1 > 0) && (c0 + c2 >= c1 - 1) ;
    max((x + c0) / c1 * c1 + c2, x) ~> arg_b only_if (c1 > 0) && (c0 + c2 <= 0) ;
    max(x, (x + c0) / c1 * c1 + c2) ~> arg_a only_if (c1 > 0) && (c0 + c2 <= 0) ;
    max(x / c1 * c1 + c2, x) ~> arg_a only_if (c1 > 0) && (c2 >= c1 - 1) ;
    max(x, x / c1 * c1 + c2) ~> arg_b only_if (c1 > 0) && (c2 >= c1 - 1) ;
    max((x + c0) / c1 * c1, x) ~> arg_a only_if (c1 > 0) && (c0 >= c1 - 1) ;
    max(x, (x + c0) / c1 * c1) ~> arg_b only_if (c1 > 0) && (c0 >= c1 - 1) ;
    max(x / c1 * c1 + c2, x) ~> arg_b only_if (c1 > 0) && (c2 <= 0) ;
    max(x, x / c1 * c1 + c2) ~> arg_a only_if (c1 > 0) && (c2 <= 0) ;
    max((x + c0) / c1 * c1, x) ~> arg_b only_if (c1 > 0) && (c0 <= 0) ;
    max(x, (x + c0) / c1 * c1) ~> arg_a only_if (c1 > 0) && (c0 <= 0) ].

(** The rules whose result the visitor returns. *)
Definition max_done (T : HType) : list Rule :=
  max_done_1 T ++
  max_done_2 ++
  max_done_3 ++
  when (no_overflow T) (max_done_4 T).

(** src/Simplify_Max.cpp, lines 99 to 115. *)
Definition max_again_1 (T : HType) : list Rule :=
  let lanes := lanes T in
  [ max(max(x, c0), c1) ~> max(x, fold(max(c0, c1))) ;
    max(max(x, c0), y) ~> max(max(x, y), c0) ;
    max(max(x, y), max(x, z)) ~> max(max(y, z), x) ;
    max(max(y, x), max(x, z)) ~> max(max(y, z), x) ;
    max(max(x, y), max(z, x)) ~> max(max(y, z), x) ;
    max(max(y, x), max(z, x)) ~> max(max(y, z), x) ;
    max(max(x, y), max(z, w)) ~> max(max(max(x, y), z), w) ;
    max(broadcast(x), broadcast(y)) ~> broadcast2(max(x, y), lanes) ;
    max(broadcast(x), ramp(y, z)) ~> max(arg_b, arg_a) ;
    max(max(x, broadcast(y)), broadcast(z)) ~> max(x, broadcast2(max(y, z), lanes)) ;
    max(min(x, y), min(x, z)) ~> min(x, max(y, z)) ;
    max(min(x, y), min(z, x)) ~> min(x, max(y, z)) ;
    max(min(y, x), min(x, z)) ~> min(max(y, z), x) ;
    max(min(y, x), min(z, x)) ~> min(max(y, z), x) ;
    max(min(max(x, y), z), y) ~> max(min(x, z), y) ;
    max(min(max(y, x), z), y) ~> max(y, min(x, z)) ;
    max(max(x, c0), c1) ~> max(x, fold(max(c0, c1))) ].

(** src/Simplify_Max.cpp, lines 118 to 170. *)
Definition max_again_2 : list Rule :=
  [ max(max(x, y) + c0, x) ~> max(x, y + c0) only_if c0 < 0 ;
    max(max(x, y) + c0, x) ~> max(x, y) + c0 only_if c0 > 0 ;
    max(max(y, x) + c0, x) ~> max(y + c0, x) only_if c0 < 0 ;
    max(max(y, x) + c0, x) ~> max(y, x) + c0 only_if c0 > 0 ;
    max(x, max(x, y) + c0) ~> max(x, y + c0) only_if c0 < 0 ;
    max(x, max(x, y) + c0) ~> max(x, y) + c0 only_if c0 > 0 ;
    max(x, max(y, x) + c0) ~> max(x, y + c0) only_if c0 < 0 ;
    max(x, max(y, x) + c0) ~> max(x, y) + c0 only_if c0 > 0 ;
    max(x + c0, c1) ~> max(x, fold(c1 - c0)) + c0 ;
    max(x + c0, y + c1) ~> max(x, y + fold(c1 - c0)) + c0 only_if c1 > c0 ;
    max(x + c0, y + c1) ~> max(x + fold(c0 - c1), y) + c1 only_if c0 > c1 ;
    max(x + y, x + z) ~> x + max(y, z) ;
    max(x + y, z + x) ~> x + max(y, z) ;
    max(y + x, x + z) ~> max(y, z) + x ;
    max(y + x, z + x) ~> max(y, z) + x ;
    max(x, x + z) ~> x + max(z, 0) ;
    max(x, z + x) ~> x + max(z, 0) ;
    max(y + x, x) ~> max(y, 0) + x ;
    max(x + y, x) ~> x + max(y, 0) ;
    max((x * c0 + y) * c1, x * c2 + z) ~> max(y * c1, z) + x * c2 only_if c0 * c1 == c2 ;
    max((y + x * c0) * c1, x * c2 + z) ~> max(y * c1, z) + x * c2 only_if c0 * c1 == c2 ;
    max((x * c0 + y) * c1, z + x * c2) ~> max(y * c1, z) + x * c2 only_if c0 * c1 == c2 ;
    max((y + x * c0) * c1, z + x * c2) ~> max(y * c1, z) + x * c2 only_if c0 * c1 == c2 ;
    max(max(x + y, z), x + w) ~> max(x + max(y, w), z) ;
    max(max(z, x + y), x + w) ~> max(x + max(y, w), z) ;
    max(max(x + y, z), w + x) ~> max(x + max(y, w), z) ;
    max(max(z, x + y), w + x) ~> max(x + max(y, w), z) ;
    max(max(y + x, z), x + w) ~> max(max(y, w) + x, z) ;
    max(max(z, y + x), x + w) ~> max(max(y, w) + x, z) ;
    max(max(y + x, z), w + x) ~> max(max(y, w) + x, z) ;
    max(max(z, y + x), w + x) ~> max(max(y, w) + x, z) ;
    max(x + w + y, x + z) ~> x + max(w + y, z) ;
    max(w + x + y, x + z) ~> max(w + y, z) + x ;
    max(x + w + y, z + x) ~> x + max(w + y, z) ;
    max(w + x + y, z + x) ~> max(w + y, z) + x ;
    max(x + w + y, x) ~> x + max(w + y, 0) ;
    max(w + x + y, x) ~> x + max(w + y, 0) ;
    max(x + y, w + x + z) ~> x + max(w + z, y) ;
    max(x + y, x + w + z) ~> x + max(w + z, y) ;
    max(y + x, w + x + z) ~> max(w + z, y) + x ;
    max(y + x, x + w + z) ~> max(w + z, y) + x ;
    max(x, w + x + z) ~> x + max(w + z, 0) ;
    max(x, x + w + z) ~> x + max(w + z, 0) ;
    max(y - x, z - x) ~> max(y, z) - x ].

(** src/Simplify_Max.cpp, lines 171 to 205. *)
Definition max_again_3 : list Rule :=
  [ max(x - y, x - z) ~> x - min(y, z) ;
    max(x, x - y) ~> x - min(0, y) ;
    max(x - y, x) ~> x - min(0, y) ;
    max(x, x - y + z) ~> x + max(0, z - y) ;
    max(x, z + (x - y)) ~> x + max(0, z - y) ;
    max(x, x - y - z) ~> x - min(0, y + z) ;
    max(x - y + z, x) ~> max(0, z - y) + x ;
    max(z + (x - y), x) ~> max(0, z - y) + x ;
    max(x - y - z, x) ~> x - min(0, y + z) ;
    max(x * c0, c1) ~> max(x, fold(c1 / c0)) * c0 only_if (c0 > 0) && (c1 mod c0 == 0) ;
    max(x * c0, c1) ~> min(x, fold(c1 / c0)) * c0 only_if (c0 < 0) && (c1 mod c0 == 0) ;
    max(x * c0, y * c1) ~> max(x, y * fold(c1 / c0)) * c0 only_if (c0 > 0) && (c1 mod c0 == 0) ;
    max(x * c0, y * c1) ~> min(x, y * fold(c1 / c0)) * c0 only_if (c0 < 0) && (c1 mod c0 == 0) ;
    max(x * c0, y * c1) ~> max(x * fold(c0 / c1), y) * c1 only_if (c1 > 0) && (c0 mod c1 == 0) ;
    max(x * c0, y * c1) ~> min(x * fold(c0 / c1), y) * c1 only_if (c1 < 0) && (c0 mod c1 == 0) ;
    max(x * c0, y * c0 + c1) ~> max(x, y + fold(c1 / c0)) * c0 only_if (c0 > 0) && (c1 mod c0 == 0) ;
    max(x * c0, y * c0 + c1) ~> min(x, y + fold(c1 / c0)) * c0 only_if (c0 < 0) && (c1 mod c0 == 0) ;
    max(x / c0, y / c0) ~> max(x, y) / c0 only_if c0 > 0 ;
    max(x / c0, y / c0) ~> min(x, y) / c0 only_if c0 < 0 ;
    max(x / c0, y / c0 + c1) ~> max(x, y + fold(c1 * c0)) / c0 only_if (c0 > 0) && ! overflows(c1 * c0) ;
    max(x / c0, y / c0 + c1) ~> min(x, y + fold(c1 * c0)) / c0 only_if (c0 < 0) && ! overflows(c1 * c0) ;
    max(select(x, y, z), select(x, w, u)) ~> select(x, max(y, w), max(z, u)) ;
    max(c0 - x, c1) ~> c0 - min(x, fold(c0 - c1)) ].

(** The rules whose result it simplifies again. *)
Definition max_again (T : HType) : list Rule :=
  max_again_1 T ++
  when (no_overflow T) (max_again_2 ++
    max_again_3).

Local Close Scope pat_scope.
#[local] Open Scope Z_scope.

(** At a narrow signed type [(x / c0) * c0] wraps around for the smallest [x]. *)
Definition max_exceptions (T : HType) : list Rule :=
  when (is_int T && negb (no_overflow_int T)) max_done_2.

Lemma max_done_2_good (T : HType) : good_tables (max_exceptions T) T T max_done_2.
Proof.
  apply good_unless; [reflexivity|unfold max_done_2; each_rule ltac:(typed_rule)|].
  intros G. unfold max_done_2. destruct (no_overflow_int T) eqn:N.
  - each_rule ltac:(wide_rule N).
  - rewrite andb_true_r in G. each_rule ltac:(round_down_rule G).
Qed.


(** ** The groups of rules are well typed and sound *)

Lemma max_done_1_good l (T : HType) :
  good_tables l T T (max_done_1 T).
Proof. unfold max_done_1. plain_group. Qed.

Lemma max_done_3_good l (T : HType) :
  good_tables l T T max_done_3.
Proof. unfold max_done_3. plain_group. Qed.

Lemma max_done_4_good l (T : HType) : no_overflow T = true ->
  good_tables l T T (max_done_4 T).
Proof. intros G0. unfold max_done_4. wide_group G0. Qed.

Lemma max_again_1_good l (T : HType) :
  good_tables l T T (max_again_1 T).
Proof. unfold max_again_1. plain_group. Qed.

Lemma max_again_2_good l (T : HType) : no_overflow T = true ->
  good_tables l T T max_again_2.
Proof. intros G0. unfold max_again_2. wide_group G0. Qed.

Lemma max_again_3_good l (T : HType) : no_overflow T = true ->
  good_tables l T T max_again_3.
Proof. intros G0. unfold max_again_3. wide_group G0. Qed.

Lemma max_done_good (T : HType) :
  good_tables (max_exceptions T) T T (max_done T).
Proof.
  unfold max_done. good_table; eauto using max_done_1_good, max_done_2_good, max_done_3_good, max_done_4_good.
Qed.

Lemma max_again_good (T : HType) :
  good_tables (max_exceptions T) T T (max_again T).
Proof.
  unfold max_again. good_table; eauto using max_again_1_good, max_again_2_good, max_again_3_good.
Qed.


(** ** The bounds of a maximum *)

Definition raw_max_bounds (a b : ExprInfo) : ExprInfo :=
  mkInfo (if min_defined a && min_defined b then Z.max (info_min a) (info_min b)
     else if min_defined a then info_min a else info_min b)
    (Z.max (info_max a) (info_max b))
    (min_defined a || min_defined b) (max_defined a && max_defined b)
    (unify (info_alignment a) (info_alignment b)).

Definition max_bounds (a b : ExprInfo) : ExprInfo := trim_bounds_using_alignment (raw_max_bounds a b).

Lemma max_trimmable a b : room 62 a -> room 62 b -> trimmable (raw_max_bounds a b).
Proof.
  intros [Amin Amax Am Ar] [Bmin Bmax Bm Br]. split; cbn.
  - apply unify_normal.
  - destruct (min_defined a), (min_defined b); cbn; intros D; try discriminate D; unfold in_int in *; cbn in *; lia.
  - destruct (max_defined a), (max_defined b); cbn; intros D; try discriminate D; unfold in_int in *; cbn in *; lia.
  - now apply unify_room.
Qed.

(** What [visit(const Max)] reports of a maximum holds of its value. *)
Theorem max_bounds_sound env i a b A B : room 62 A -> room 62 B ->
  operands_known A B a b env i ->
  info_holds (max_bounds A B) (ev env i (EBin Max a b)).
Proof.
  intros RA RB [[Amin Amax Aa] [Bmin Bmax Ba]]. apply trim_sound; [now apply max_trimmable|].
  cbn [ev evbin]. split; cbn [info_min info_max min_defined max_defined info_alignment raw_max_bounds].
  - destruct (min_defined A), (min_defined B); cbn; intros D; try discriminate D; lia.
  - destruct (max_defined A), (max_defined B); cbn; intros D; try discriminate D; lia.
  - apply unify_sound; [apply room_unify_safe; first [apply RA|apply RB]|].
    destruct (Z.max_spec (ev env i a) (ev env i b)) as [[_ ->]|[_ ->]]; auto.
Qed.

(** ** The visit method *)

Section Visit.
Context {prover : Prover} (no_float_simplify : bool).

(** [Simplify::visit(const Max)], from the simplified operands and what is
    known of them on.  A node that is remade is hoisted out of slices
    whatever its type. *)
Definition visit_Max (a b : Expr) (a_bounds b_bounds : ExprInfo) : M Step :=
  let t := type_of (EBin Max a b) in
  if max_defined a_bounds && min_defined b_bounds && (info_max a_bounds <=? info_min b_bounds)
  then ret (Kept b)
  else if max_defined b_bounds && min_defined a_bounds && (info_max b_bounds <=? info_min a_bounds)
  then ret (Kept a)
  else if may_simplify no_float_simplify t then
    let '(a, b) := commute a b in
    apply_tables (EBin Max a b) (max_done t) (max_again t) (hoist_slice_vector Max a b)
  else ret (Kept (hoist_slice_vector Max a b)).

(** The visit of a maximum preserves its type and
    value where what is known of the operands holds; at the narrow signed
    types, the rules that round down are excepted. *)
Theorem visit_Max_correct a b A B c st c' : wf (EBin Max a b) = true ->
  visit_Max a b A B c = (st, c') ->
  correct_when c c' (operands_known A B a b) (max_exceptions (type_of (EBin Max a b))) (EBin Max a b) st.
Proof.
  intros W. unfold visit_Max. destruct (wf_bin_inv _ _ _ W) as (Wa & Wb & T).
  destruct (max_defined A && min_defined B && _) eqn:C1; [|destruct (max_defined B && min_defined A && _) eqn:C2].
  - intros [= <- _]. apply correct_early; [assumption|assumption || reflexivity|].
    intros env i D _ [[_ Amax _] [Bmin _ _]]. destr_and. zify_bool. split; [apply D|]. cbn [ev evbin].
    specialize (Amax ltac:(assumption)). specialize (Bmin ltac:(assumption)). lia.
  - intros [= <- _]. apply correct_early; [assumption|assumption || reflexivity|].
    intros env i D _ [[Amin _ _] [_ Bmax _]]. destr_and. zify_bool. split; [apply D|]. cbn [ev evbin].
    specialize (Amin ltac:(assumption)). specialize (Bmax ltac:(assumption)). lia.
  - destruct (may_simplify _ _).
    + destruct (commute a b) as [a' b'] eqn:C.
      pose proof (commute_stands_for Max a b a' b' eq_refl W C) as S. pose proof S as (W' & T' & _).
      intros E. apply correct_step_when. eapply (correct_tables _ _ (EBin Max a' b')); [exact S| | | |exact E].
      * now apply hoist_keeps.
      * rewrite <- T'. apply max_done_good.
      * rewrite <- T'. apply max_again_good.
    + intros [= <- _]. apply correct_step_when. eapply correct_kept; eauto with halide.
Qed.
End Visit.

Lemma max_bounds_sound_witness :
  info_holds (max_bounds (mkInfo (0) (7) true true (mkMR 1 0)) (mkInfo (2) (9) true true (mkMR 1 0))) 7.
Proof.
  apply (max_bounds_sound sample_env 0 (int_var "x") (int_var "y") (mkInfo (0) (7) true true (mkMR 1 0)) (mkInfo (2) (9) true true (mkMR 1 0))); concrete.
Defined.

Lemma visit_Max_correct_witness :
  let st := fst (visit_Max (prover := literal_prover) false (EBin Max (int_var "x") (int_var "y")) (int_var "x") no_info no_info no_counters) in
  step_expr st = EBin Max (int_var "x") (int_var "y") /\ same_meaning sample_env 0 (EBin Max (EBin Max (int_var "x") (int_var "y")) (int_var "x")) (step_expr st).
Proof.
  split; [vm_compute; reflexivity|].
  unshelve eapply (visit_Max_correct (prover := literal_prover) false (EBin Max (int_var "x") (int_var "y")) (int_var "x") no_info no_info
    no_counters _ _ eq_refl (surjective_pairing _)); concrete.
Defined.
