(* ===== verification/SimplifyEQ.v ===== *)
(** * Equations

    The rewrite rules and the visit method of src/Simplify_EQ.cpp. *)

From Stdlib Require Import ZArith Lia Bool List String.
From S2P Require Import Prelude.
From S2P Require Import IntArith.
From S2P Require Import ModulusRemainder.
From S2P Require Import HalideTypes.
From S2P Require Import IR.
From S2P Require Import IREquality.
From S2P Require Import IRMatch.
From S2P Require Import PatNotations.
From S2P Require Import RuleSem.
From S2P Require Import Euclid.
From S2P Require Import RuleTac.
From S2P Require Import MatchSound.
From S2P Require Import FoldSound.
From S2P Require Import MakeSound.
From S2P Require Import RuleSound.
From S2P Require Import Visit.
From S2P Require Import TableTac.
From S2P Require Import ExprInfo.
Import ListNotations.

Local Open Scope pat_scope.

(** src/Simplify_EQ.cpp, lines 66 to 66. *)
Definition eq_again_1 (T : HType) : list Rule :=
  let lanes := lanes T in
  [ broadcast(x) == 0 ~> broadcast2(x == 0, lanes) ].

(** src/Simplify_EQ.cpp, lines 67 to 67. *)
Definition eq_again_2 : list Rule :=
  [ x * y == 0 ~> (x == 0) || (y == 0) ].

(** src/Simplify_EQ.cpp, lines 68 to 79. *)
Definition eq_again_3 : list Rule :=
  [ select(x, 0, y) == 0 ~> x || (y == 0) ;
    select(x, c0, y) == 0 ~> ! x && (y == 0) only_if c0 != 0 ;
    select(x, y, 0) == 0 ~> ! x || (y == 0) ;
    select(x, y, c0) == 0 ~> x && (y == 0) only_if c0 != 0 ;
    max(x, y) - y == 0 ~> x <= y ;
    min(x, y) - y == 0 ~> y <= x ;
    max(y, x) - y == 0 ~> x <= y ;
    min(y, x) - y == 0 ~> y <= x ;
    y - max(x, y) == 0 ~> x <= y ;
    y - min(x, y) == 0 ~> y <= x ;
    y - max(y, x) == 0 ~> x <= y ;
    y - min(y, x) == 0 ~> y <= x ].

(** src/Simplify_EQ.cpp, lines 80 to 81. *)
Definition eq_again_4 : list Rule :=
  [ max(x, c0) + c1 == 0 ~> x == fold(- c1) only_if c0 + c1 < 0 ;
    min(x, c0) + c1 == 0 ~> x == fold(- c1) only_if c0 + c1 > 0 ].

(** src/Simplify_EQ.cpp, lines 82 to 85. *)
Definition eq_again_5 : list Rule :=
  [ max(x, c0) + c1 == 0 ~> x <= c0 only_if c0 + c1 == 0 ;
    min(x, c0) + c1 == 0 ~> c0 <= x only_if c0 + c1 == 0 ;
    max(x, 0) == 0 ~> x <= 0 ;
    min(x, 0) == 0 ~> 0 <= x ].

(** The rules whose result the visitor simplifies again. *)
Definition eq_again (T : HType) (ty : HType) : list Rule :=
  eq_again_1 T ++
  when (no_overflow ty) (eq_again_2) ++
  eq_again_3 ++
  eq_again_4 ++
  eq_again_5.

(** src/Simplify_EQ.cpp, lines 90 to 93. *)
Definition eq_done_1 : list Rule :=
  [ c0 == 0 ~> fold(c0 == 0) ;
    x - y + c0 == 0 ~> x == y + fold(- c0) ;
    x + c0 == 0 ~> x == fold(- c0) ;
    c0 - x == 0 ~> x == c0 ].

(** The rules whose result the visitor returns. *)
Definition eq_done : list Rule :=
  eq_done_1.

Local Close Scope pat_scope.
#[local] Open Scope Z_scope.

(** At a type that wraps, [max(x, c0)] can be [-c1] though [c0 + c1 < 0]
    holds as 64-bit integers. *)
Definition eq_exceptions (ty : HType) : list Rule := when (negb (no_overflow ty)) eq_again_4.

Lemma eq_again_4_good (ty T : HType) : good_tables (eq_exceptions ty) ty T eq_again_4.
Proof.
  apply good_unless; [reflexivity|unfold eq_again_4; each_rule ltac:(typed_rule)|].
  intros G. apply negb_false_iff in G. unfold eq_again_4. each_rule ltac:(wide_rule G).
Qed.


(** ** The groups of rules are well typed and sound *)

Lemma eq_again_1_good l (ty T : HType) :
  good_tables l ty T (eq_again_1 T).
Proof. unfold eq_again_1. plain_group. Qed.

Lemma eq_again_2_good l (ty T : HType) : no_overflow ty = true ->
  good_tables l ty T eq_again_2.
Proof. intros G0. unfold eq_again_2. wide_group G0. Qed.

Lemma eq_again_3_good l (ty T : HType) :
  good_tables l ty T eq_again_3.
Proof. unfold eq_again_3. plain_group. Qed.

Lemma eq_again_5_good l (ty T : HType) :
  good_tables l ty T eq_again_5.
Proof. unfold eq_again_5. plain_group. Qed.

Lemma eq_done_1_good l (ty T : HType) :
  good_tables l ty T eq_done_1.
Proof. unfold eq_done_1. plain_group. Qed.

Lemma eq_again_good (ty T : HType) :
  good_tables (eq_exceptions ty) ty T (eq_again T ty).
Proof.
  unfold eq_again. good_table; eauto using eq_again_1_good, eq_again_2_good, eq_again_3_good, eq_again_4_good, eq_again_5_good.
Qed.

Lemma eq_done_good (ty T : HType) :
  good_tables (eq_exceptions ty) ty T eq_done.
Proof.
  unfold eq_done. good_table; eauto using eq_done_1_good.
Qed.


(** ** The visit method *)

(** The rewrites of the branch for operands of type bool. *)
Local Open Scope pat_scope.
Definition eq_bool_done : list Rule := [ x == 1 ~> x ].
Definition eq_bool_again : list Rule := [ x == 0 ~> ! x ].
Definition eq_bool_same (lanes : Z) : list Rule := [ x == x ~> PSpecific (const_true lanes) ].
Local Close Scope pat_scope.

Lemma eq_bool_done_good l n m : good_tables l (BoolT n) (BoolT m) eq_bool_done.
Proof. unfold eq_bool_done. plain_group. Qed.

Lemma eq_bool_again_good l n m : good_tables l (BoolT n) (BoolT m) eq_bool_again.
Proof. unfold eq_bool_again. plain_group. Qed.

Lemma eq_bool_same_good l n m : good_tables l (BoolT n) (BoolT m) (eq_bool_same m).
Proof.
  apply good_group; [reflexivity| |]; apply Forall_cons; [|apply Forall_nil| |apply Forall_nil];
    prepare; pose proof (make_const_spec (BoolT n) 1 ltac:(assumption)) as C.
  - split; [apply C|apply C].
  - split; [apply C|]. now rewrite Z.eqb_refl.
Qed.

Section Visit.
Context {prover : Prover} (no_float_simplify : bool) (facts : Facts).

(** The branch of [visit(const EQ)] for operands of type bool, from the
    simplified operands on. *)
Definition visit_EQ_bool (a b : Expr) : M Step :=
  let e := ECmp EQ a b in
  let t := type_of e in
  let! r := rewrite e t eq_bool_done in
  match r with
  | Some (r, s, e') => ret (Returned e r s e')
  | None => apply_tables_again_first e eq_bool_again (eq_bool_same (lanes t)) e
  end.

(** The last branch: [op_a] and [op_b] are the operands of the node visited,
    [delta] is their simplified difference. *)
Definition visit_EQ_delta (op_a op_b delta : Expr) (delta_bounds : ExprInfo) : M Step :=
  let n := lanes (type_of (ECmp EQ op_a op_b)) in
  if is_zero delta then ret (Kept (const_true n))
  else if min_defined delta_bounds && (0 <? info_min delta_bounds) then ret (Kept (const_false n))
  else if max_defined delta_bounds && (info_max delta_bounds <? 0) then ret (Kept (const_false n))
  else if negb (remainder (info_alignment delta_bounds) =? 0) then ret (Kept (const_false n))
  else
    let ty := type_of delta in
    apply_tables_again_first (ECmp EQ delta (make_const ty 0)) (eq_again (BoolT n) ty) eq_done
      (match delta with
       | EBin Sub a b => ECmp EQ a b
       | _ => ECmp EQ delta (make_zero (type_of op_a))
       end).

(** [Simplify::visit(const EQ)]: [a] and [b] are the simplified operands. *)
Definition visit_EQ (op_a op_b a b delta : Expr) (delta_bounds : ExprInfo) : M Step :=
  let op := ECmp EQ op_a op_b in
  if count (truths facts) op then ret (Kept (const_true (lanes (type_of op))))
  else if count (falsehoods facts) op then ret (Kept (const_false (lanes (type_of op))))
  else if negb (may_simplify no_float_simplify (type_of op_a)) then ret (Kept (ECmp EQ a b))
  else if is_bool (type_of op_a) then visit_EQ_bool a b
  else visit_EQ_delta op_a op_b delta delta_bounds.

(** What the last branch relies on: the difference does not overflow, and a
    non-zero remainder of its alignment excludes zero. *)
Definition delta_known (op_a op_b delta : Expr) (D : ExprInfo) (env : Env) (i : Z) : Prop :=
  simplified (EBin Sub op_a op_b) delta env i /\ masks_keep_zero env /\
  info_holds D (ev env i delta) /\ mr_reduced (info_alignment D).

Definition eq_known (op_a op_b a b delta : Expr) (D : ExprInfo) (env : Env) (i : Z) : Prop :=
  facts_hold facts env i /\ simplified (ECmp EQ op_a op_b) (ECmp EQ a b) env i /\
  delta_known op_a op_b delta D env i.

Lemma visit_EQ_bool_correct a b c st c' : wf (ECmp EQ a b) = true -> is_bool (type_of a) = true ->
  visit_EQ_bool a b c = (st, c') -> correct_step c c' (eq_exceptions (type_of a)) (ECmp EQ a b) st.
Proof.
  intros W B. unfold visit_EQ_bool. cbv zeta. set (e := ECmp EQ a b) in *.
  assert (G : forall l, (forall n m, good_tables (eq_exceptions (type_of a)) (BoolT n) (BoolT m) (l m)) ->
    good_tables (eq_exceptions (type_of a)) (wildcard_type e) (type_of e) (l (lanes (type_of e)))).
  { intros l H. unfold e. cbn [wildcard_type type_of]. rewrite <- (bool_type _ B) at 2. apply H. }
  destruct (rewrite e (type_of e) eq_bool_done c) as [[[[r s] e']|] c1] eqn:R.
  - intros [= <- <-]. apply (correct_fired _ e e e); auto with halide. left.
    exists eq_bool_done, r, s, e', c. split; [|auto with halide].
    apply (G (fun _ => eq_bool_done)). intros. apply eq_bool_done_good.
  - intros E. apply (correct_later c c1).
    { intros calm inv Tr. exact (leading_rewrite calm inv Tr _ _ _ _ _ _ R). }
    { intros calm inv Tr. exact (proj2 (leading_tables calm inv Tr _ _ _ _) _ _ _ E). }
    eapply (correct_tables_first _ e e); [| | | |exact E]; auto with halide.
    + apply G. intros. apply eq_bool_same_good.
    + apply (G (fun _ => eq_bool_again)). intros. apply eq_bool_again_good.
Qed.

Section Delta.
Context (op_a op_b delta : Expr) (D : ExprInfo).
Context (W : wf (ECmp EQ op_a op_b) = true) (Wd : wf delta = true).
Context (Td : type_of delta = type_of op_a).

Abbreviation ty := (type_of delta).
Abbreviation inst := (ECmp EQ delta (make_const ty 0)).

Lemma delta_type : wf_type ty.
Proof. now apply wf_wf_type. Qed.

Lemma delta_zero : const_spec ty 0 (make_const ty 0).
Proof.
  pose proof (make_const_spec ty 0 delta_type) as C. now rewrite cast_val_0 in C by apply delta_type.
Qed.

Lemma delta_inst_wf : wf inst = true.
Proof. cbn [wf]. rewrite Wd, (const_wf _ _ _ delta_zero), (const_type _ _ _ delta_zero). apply type_eqb_refl. Qed.

(** The operands are equal when their difference is zero. *)
Lemma delta_value env i : defined env i (ECmp EQ op_a op_b) -> delta_known op_a op_b delta D env i ->
  ev env i (ECmp EQ op_a op_b) = b2z (ev env i delta =? 0).
Proof.
  intros [_ (_ & Fa & Fb)] ([_ ->] & _). cbn [ev evcmp evbin]. cbn [wf] in W. destr_and.
  apply type_eqb_eq in H0. f_equal. symmetry. apply norm_sub_zero.
  - now apply wf_wf_type.
  - now apply fits_in_type.
  - rewrite H0. now apply fits_in_type.
Qed.

Lemma delta_inst_value env i : ev env i inst = b2z (ev env i delta =? 0).
Proof. cbn [ev evcmp]. now rewrite (const_ev _ _ _ delta_zero). Qed.

Lemma delta_inst_defined env i : defined env i delta -> defined env i inst.
Proof.
  intros [O F]. split; [split; [exact O|apply delta_zero]|]. cbn [fits]. split; [|split; [exact F|]].
  - apply in_type_bool. cbn [ev]. destruct (evcmp _ _ _); auto.
  - apply make_const_fits, delta_type.
Qed.

Lemma delta_false env i : defined env i (ECmp EQ op_a op_b) -> delta_known op_a op_b delta D env i ->
  ev env i delta <> 0 -> ev env i (ECmp EQ op_a op_b) = b2z false.
Proof. intros Df K N. rewrite delta_value by assumption. f_equal. now apply Z.eqb_neq. Qed.

Lemma delta_keeps : keeps_node inst
  (match delta with EBin Sub a b => ECmp EQ a b | _ => ECmp EQ delta (make_zero (type_of op_a)) end).
Proof.
  pose proof delta_zero as Cz. assert (Id : keeps_node inst (ECmp EQ delta (make_zero (type_of op_a)))).
  { rewrite <- Td. pose proof (make_zero_spec ty delta_type) as C. split; [split|].
    - cbn [step_expr wf]. rewrite Wd, (const_wf _ _ _ C), (const_type _ _ _ C). apply type_eqb_refl.
    - reflexivity.
    - intros env i [[O _] _]. split; [split; [exact O|apply C]|].
      rewrite delta_inst_value. cbn [ev evcmp]. now rewrite (const_ev _ _ _ C). }
  destruct delta as [| | | | | |op a b| | | | | | | | |]; try exact Id.
  destruct op; try exact Id. clear Id. destruct (wf_bin_inv _ _ _ Wd) as (Wa & Wb & T).
  split; [split|].
  - cbn [step_expr wf]. now rewrite Wa, Wb, T, type_eqb_refl.
  - reflexivity.
  - intros env i [[(Oa & Ob & _) _] (_ & (_ & Fa & Fb) & _)]. split; [now split|].
    change (ev env i (ECmp EQ a b) = b2z (evcmp EQ (norm (type_of a) (ev env i a - ev env i b))
      (ev env i (make_const (type_of (EBin Sub a b)) 0)))).
    rewrite (const_ev _ _ _ Cz). cbn [ev evcmp]. f_equal. symmetry.
    apply norm_sub_zero; [now apply wf_wf_type|now apply fits_in_type|].
    rewrite <- T. now apply fits_in_type.
Qed.

Lemma visit_EQ_delta_correct c st c' :
  visit_EQ_delta op_a op_b delta D c = (st, c') ->
  correct_when c c' (delta_known op_a op_b delta D) (eq_exceptions ty) (ECmp EQ op_a op_b) st.
Proof.
  assert (B : is_bool (type_of (ECmp EQ op_a op_b)) = true) by reflexivity.
  assert (F : forall known, (forall env i, known env i -> delta_known op_a op_b delta D env i /\ ev env i delta <> 0) ->
    correct_when c c' known (eq_exceptions ty) (ECmp EQ op_a op_b) (Kept (const_false (lanes (type_of (ECmp EQ op_a op_b)))))).
  { intros known H. apply (const_bool_correct _ _ _ false B W). intros env i Df K.
    apply delta_false; [exact Df|apply (H env i K)|apply (H env i K)]. }
  unfold visit_EQ_delta. cbv zeta. destruct (is_zero delta) eqn:Z0;
    [|destruct (min_defined D && _) eqn:C1; [|destruct (max_defined D && _) eqn:C2;
      [|destruct (negb _) eqn:C3]]].
  - intros [= <- _]. apply (const_bool_correct _ _ _ true B W). intros env i Df K.
    rewrite delta_value by assumption. destruct K as (_ & M & _). now rewrite (is_zero_value env M).
  - intros [= <- _]. apply F. intros env i K. split; [exact K|]. destruct K as (_ & _ & [Mi _ _] & _).
    destr_and. zify_bool. specialize (Mi ltac:(assumption)). lia.
  - intros [= <- _]. apply F. intros env i K. split; [exact K|]. destruct K as (_ & _ & [_ Ma _] & _).
    destr_and. zify_bool. specialize (Ma ltac:(assumption)). lia.
  - intros [= <- _]. apply F. intros env i K. split; [exact K|]. destruct K as (_ & _ & [_ _ A] & R).
    apply negb_true_iff, Z.eqb_neq in C3. now apply (mr_reduced_nonzero _ _ R C3).
  - intros E. apply (correct_transfer _ _ (ECmp EQ op_a op_b) inst).
    + cbn [type_of]. now rewrite Td.
    + intros env i Df K. split; [apply delta_inst_defined, K|].
      rewrite delta_inst_value. symmetry. now apply delta_value.
    + apply correct_step_when. eapply (correct_tables_first _ inst inst); [| | | |exact E].
      * apply stands_for_refl, delta_inst_wf.
      * exact delta_keeps.
      * apply eq_done_good.
      * change (good_tables (eq_exceptions ty) ty (BoolT (lanes ty))
          (eq_again (BoolT (lanes (type_of op_a))) ty)). rewrite <- Td. apply eq_again_good.
Qed.
End Delta.

Lemma visit_EQ_keeps op_a op_b a b delta D c st c' :
  wf (ECmp EQ op_a op_b) = true -> wf (ECmp EQ a b) = true -> wf delta = true ->
  type_of a = type_of op_a -> type_of delta = type_of op_a ->
  visit_EQ op_a op_b a b delta D c = (st, c') ->
  correct_when c c' (eq_known op_a op_b a b delta D) (eq_exceptions (type_of op_a)) (ECmp EQ op_a op_b) st.
Proof.
  intros Wo W Wd Ta Td. unfold visit_EQ. cbv zeta.
  assert (B : is_bool (type_of (ECmp EQ op_a op_b)) = true) by reflexivity.
  assert (Ty : type_of (ECmp EQ a b) = type_of (ECmp EQ op_a op_b)) by (cbn [type_of]; now rewrite Ta).
  destruct (count (truths facts) _) eqn:F1; [|destruct (count (falsehoods facts) _) eqn:F2;
    [|destruct (may_simplify _ _); cbn [negb]; [destruct (is_bool (type_of op_a)) eqn:Ba|]]].
  - intros [= <- _]. apply (const_bool_correct _ _ _ true B Wo).
    intros env i _ [H _]. now apply (truth_found facts).
  - intros [= <- _]. apply (const_bool_correct _ _ _ false B Wo).
    intros env i _ [H _]. now apply (falsehood_found facts).
  - intros E. apply (correct_transfer _ _ _ (ECmp EQ a b) st Ty); [intros env i _ (_ & H & _); exact H|].
    rewrite <- Ta in *. apply correct_step_when. now apply (visit_EQ_bool_correct a b c st c').
  - intros E. rewrite <- Td. destruct (visit_EQ_delta_correct op_a op_b delta D Wo Wd Td c st c' E) as [T S].
    split; [exact T|]. intros env i Df L (_ & _ & K). now apply S.
  - intros [= <- _]. apply (correct_transfer _ _ _ (ECmp EQ a b) _ Ty); [intros env i _ (_ & H & _); exact H|].
    apply correct_step_when. eapply correct_kept; eauto with halide.
Qed.

End Visit.


(** Why the two rules are excepted: at [uint8],
    [min(x, 100) + 100 == 0] is false for every [x], and is turned into
    [x == 156]. *)
Theorem eq_min_wrap_unsound :
  let x := EVariable (UInt 8 1) "x" in
  let u8 v := UIntImm (UInt 8 1) v in
  let delta := EBin Add (EBin Min x (u8 100)) (u8 100) in
  let op := ECmp EQ delta (u8 0) in
  let env := mkEnv (fun _ _ => 156) (fun _ _ => 0) (fun _ _ _ _ => 0) in
  let st := fst (visit_EQ (prover := literal_prover) false (mkFacts [] []) delta (u8 0) delta (u8 0) delta
                   no_info no_counters) in
  step_expr st = ECmp EQ x (u8 156) /\ defined env 0 op /\
  ev env 0 op = 0 /\ ev env 0 (step_expr st) = 1.
Proof. cbv zeta. split; [vm_compute; reflexivity|]. concrete. Qed.
