(* ===== verification/SimplifyLT.v ===== *)
(** * Strict inequalities

    The rewrite rules and the visit method of src/Simplify_LT.cpp. *)

From Stdlib Require Import ZArith Lia Bool List String.
From S2P Require Import Prelude.
From S2P Require Import IntArith.
From S2P Require Import ModulusRemainder.
From S2P Require Import HalideTypes.
From S2P Require Import IR.
From S2P Require Import IREquality.
From S2P Require Import IRMatch.
From S2P Require Import PatNotations.
From S2P Require Import RuleSem.
From S2P Require Import Euclid.
From S2P Require Import RuleTac.
From S2P Require Import MatchSound.
From S2P Require Import FoldSound.
From S2P Require Import MakeSound.
From S2P Require Import RuleSound.
From S2P Require Import Visit.
From S2P Require Import TableTac.
From S2P Require Import ExprInfo.
Import ListNotations.

Local Open Scope pat_scope.

(** src/Simplify_LT.cpp, lines 34 to 42. *)
Definition lt_done_1 (ty : HType) : list Rule :=
  [ c0 < c1 ~> fold(c0 < c1) ;
    x < x ~> PLit 0 ;
    x < PSpecific (type_min ty) ~> PLit 0 ;
    PSpecific (type_max ty) < x ~> PLit 0 ;
    max(x, y) < x ~> PLit 0 ;
    max(y, x) < x ~> PLit 0 ;
    x < min(x, y) ~> PLit 0 ;
    x < min(y, x) ~> PLit 0 ].

(** src/Simplify_LT.cpp, lines 48 to 51. *)
Definition lt_done_2 (T : HType) : list Rule :=
  let lanes := lanes T in
  [ ramp(x, c1) < broadcast(z) ~> PLit 1 only_if can_prove(x + fold(max(0, c1 * PLit (lanes - 1))) < z) ;
    ramp(x, c1) < broadcast(z) ~> PLit 0 only_if can_prove(x + fold(min(0, c1 * PLit (lanes - 1))) >= z) ;
    broadcast(z) < ramp(x, c1) ~> PLit 1 only_if can_prove(z < x + fold(min(0, c1 * PLit (lanes - 1)))) ;
    broadcast(z) < ramp(x, c1) ~> PLit 0 only_if can_prove(z >= x + fold(max(0, c1 * PLit (lanes - 1)))) ].

(** The rules whose result the visitor returns. *)
Definition lt_done (T : HType) (ty : HType) : list Rule :=
  lt_done_1 ty ++
  when (no_overflow T) (lt_done_2 T).

(** src/Simplify_LT.cpp, lines 55 to 55. *)
Definition lt_again_1 (T : HType) : list Rule :=
  let lanes := lanes T in
  [ broadcast(x) < broadcast(y) ~> broadcast2(x < y, lanes) ].

(** src/Simplify_LT.cpp, lines 57 to 121. *)
Definition lt_again_2 (T : HType) : list Rule :=
  let lanes := lanes T in
  [ ramp(x, y) < ramp(z, y) ~> broadcast2(x < z, lanes) ;
    x + c0 < y ~> x < y + fold(- c0) ;
    c0 < x + c1 ~> fold(c0 - c1) < x ;
    x - y < z ~> x < z + y ;
    z < x - y ~> z + y < x ;
    x - y + z < w ~> x + z < y + w ;
    z + (x - y) < w ~> x + z < y + w ;
    w < x - y + z ~> w + y < x + z ;
    w < z + (x - y) ~> w + y < x + z ;
    x - y + z + u < w ~> x + z + u < w + y ;
    z + (x - y) + u < w ~> x + z + u < w + y ;
    u + (x - y + z) < w ~> x + z + u < w + y ;
    u + (z + (x - y)) < w ~> x + z + u < w + y ;
    w < x - y + z + u ~> w + y < x + z + u ;
    w < z + (x - y) + u ~> w + y < x + z + u ;
    w < u + (x - y + z) ~> w + y < x + z + u ;
    w < u + (z + (x - y)) ~> w + y < x + z + u ;
    x < x + y ~> 0 < y ;
    x < y + x ~> 0 < y ;
    x + y < x ~> y < 0 ;
    y + x < x ~> y < 0 ;
    x + y < x + z ~> y < z ;
    x + y < z + x ~> y < z ;
    y + x < x + z ~> y < z ;
    y + x < z + x ~> y < z ;
    x + y + w < x + z ~> y + w < z ;
    y + x + w < x + z ~> y + w < z ;
    w + (x + y) < x + z ~> y + w < z ;
    w + (y + x) < x + z ~> y + w < z ;
    x + y + w < z + x ~> y + w < z ;
    y + x + w < z + x ~> y + w < z ;
    w + (x + y) < z + x ~> y + w < z ;
    w + (y + x) < z + x ~> y + w < z ;
    x + z < x + y + w ~> z < y + w ;
    x + z < y + x + w ~> z < y + w ;
    x + z < w + (x + y) ~> z < y + w ;
    x + z < w + (y + x) ~> z < y + w ;
    z + x < x + y + w ~> z < y + w ;
    z + x < y + x + w ~> z < y + w ;
    z + x < w + (x + y) ~> z < y + w ;
    z + x < w + (y + x) ~> z < y + w ;
    x + y + w < x + z + u ~> y + w < z + u ;
    y + x + w < x + z + u ~> y + w < z + u ;
    x + y + w < z + x + u ~> y + w < z + u ].

(** src/Simplify_LT.cpp, lines 122 to 138. *)
Definition lt_again_3 : list Rule :=
  [ y + x + w < z + x + u ~> y + w < z + u ;
    w + (x + y) < x + z + u ~> y + w < z + u ;
    w + (y + x) < x + z + u ~> y + w < z + u ;
    w + (x + y) < z + x + u ~> y + w < z + u ;
    w + (y + x) < z + x + u ~> y + w < z + u ;
    x + y + w < u + (x + z) ~> y + w < z + u ;
    y + x + w < u + (x + z) ~> y + w < z + u ;
    x + y + w < u + (z + x) ~> y + w < z + u ;
    y + x + w < u + (z + x) ~> y + w < z + u ;
    w + (x + y) < u + (x + z) ~> y + w < z + u ;
    w + (y + x) < u + (x + z) ~> y + w < z + u ;
    w + (x + y) < u + (z + x) ~> y + w < z + u ;
    w + (y + x) < u + (z + x) ~> y + w < z + u ;
    x * c0 < y * c0 ~> x < y only_if c0 > 0 ;
    x * c0 < y * c0 ~> y < x only_if c0 < 0 ].

(** src/Simplify_LT.cpp, lines 140 to 140. *)
Definition lt_again_4 : list Rule :=
  [ x * c0 < c1 ~> x < fold((c1 + c0 - 1) / c0) only_if c0 > 0 ].

(** src/Simplify_LT.cpp, lines 141 to 141. *)
Definition lt_again_5 : list Rule :=
  [ x * c0 < c1 ~> x < fold(c1 / c0) only_if c0 > 0 ].

(** src/Simplify_LT.cpp, lines 142 to 145. *)
Definition lt_again_6 : list Rule :=
  [ c1 < x * c0 ~> fold(c1 / c0) < x only_if c0 > 0 ;
    x / c0 < c1 ~> x < c1 * c0 only_if c0 > 0 ].

(** src/Simplify_LT.cpp, lines 146 to 146. *)
Definition lt_again_7 : list Rule :=
  [ c0 < x / c1 ~> fold((c0 + 1) * c1 - 1) < x only_if c1 > 0 ].

(** src/Simplify_LT.cpp, lines 147 to 147. *)
Definition lt_again_8 : list Rule :=
  [ c0 < x / c1 ~> fold(c0 * c1) < x only_if c1 > 0 ].

(** src/Simplify_LT.cpp, lines 152 to 220. *)
Definition lt_again_9 (T : HType) : list Rule :=
  let lanes := lanes T in
  [ min(x + c0, y) < x + c1 ~> fold(c0 < c1) || (y < x + c1) ;
    min(y, x + c0) < x + c1 ~> fold(c0 < c1) || (y < x + c1) ;
    max(x + c0, y) < x + c1 ~> fold(c0 < c1) && (y < x + c1) ;
    max(y, x + c0) < x + c1 ~> fold(c0 < c1) && (y < x + c1) ;
    x < min(x + c0, y) + c1 ~> fold(0 < c0 + c1) && (x < y + c1) ;
    x < min(y, x + c0) + c1 ~> fold(0 < c0 + c1) && (x < y + c1) ;
    x < max(x + c0, y) + c1 ~> fold(0 < c0 + c1) || (x < y + c1) ;
    x < max(y, x + c0) + c1 ~> fold(0 < c0 + c1) || (x < y + c1) ;
    min(x, y) < x + c1 ~> fold(0 < c1) || (y < x + c1) ;
    min(y, x) < x + c1 ~> fold(0 < c1) || (y < x + c1) ;
    max(x, y) < x + c1 ~> fold(0 < c1) && (y < x + c1) ;
    max(y, x) < x + c1 ~> fold(0 < c1) && (y < x + c1) ;
    x < min(x, y) + c1 ~> fold(0 < c1) && (x < y + c1) ;
    x < min(y, x) + c1 ~> fold(0 < c1) && (x < y + c1) ;
    x < max(x, y) + c1 ~> fold(0 < c1) || (x < y + c1) ;
    x < max(y, x) + c1 ~> fold(0 < c1) || (x < y + c1) ;
    min(x + c0, y) < x ~> fold(c0 < 0) || (y < x) ;
    min(y, x + c0) < x ~> fold(c0 < 0) || (y < x) ;
    max(x + c0, y) < x ~> fold(c0 < 0) && (y < x) ;
    max(y, x + c0) < x ~> fold(c0 < 0) && (y < x) ;
    x < min(x + c0, y) ~> fold(0 < c0) && (x < y) ;
    x < min(y, x + c0) ~> fold(0 < c0) && (x < y) ;
    x < max(x + c0, y) ~> fold(0 < c0) || (x < y) ;
    x < max(y, x + c0) ~> fold(0 < c0) || (x < y) ;
    min(x, y) < x ~> y < x ;
    min(y, x) < x ~> y < x ;
    x < max(x, y) ~> x < y ;
    x < max(y, x) ~> x < y ;
    min(y, c0) < c1 ~> fold(c0 < c1) || (y < c1) ;
    max(y, c0) < c1 ~> fold(c0 < c1) && (y < c1) ;
    c1 < min(y, c0) ~> fold(c1 < c0) && (c1 < y) ;
    c1 < max(y, c0) ~> fold(c1 < c0) || (c1 < y) ;
    x < select(y, x + c0, z) ~> ! y && (x < z) only_if c0 <= 0 ;
    x < select(y, x + c0, z) ~> y || (x < z) only_if c0 > 0 ;
    x < select(y, z, x + c0) ~> y && (x < z) only_if c0 <= 0 ;
    x < select(y, z, x + c0) ~> ! y || (x < z) only_if c0 > 0 ;
    x < select(y, x + c0, z) + c1 ~> ! y && (x < z + c1) only_if c0 + c1 <= 0 ;
    x < select(y, x + c0, z) + c1 ~> y || (x < z + c1) only_if c0 + c1 > 0 ;
    x < select(y, z, x + c0) + c1 ~> y && (x < z + c1) only_if c0 + c1 <= 0 ;
    x < select(y, z, x + c0) + c1 ~> ! y || (x < z + c1) only_if c0 + c1 > 0 ;
    select(y, x + c0, z) < x ~> ! y && (z < x) only_if c0 >= 0 ;
    select(y, x + c0, z) < x ~> y || (z < x) only_if c0 < 0 ;
    select(y, z, x + c0) < x ~> y && (z < x) only_if c0 >= 0 ;
    select(y, z, x + c0) < x ~> ! y || (z < x) only_if c0 < 0 ;
    select(y, x + c0, z) < x + c1 ~> ! y && (z < x + c1) only_if c0 >= c1 ;
    select(y, x + c0, z) < x + c1 ~> y || (z < x + c1) only_if c0 < c1 ;
    select(y, z, x + c0) < x + c1 ~> y && (z < x + c1) only_if c0 >= c1 ;
    select(y, z, x + c0) < x + c1 ~> ! y || (z < x + c1) only_if c0 < c1 ;
    ramp(x, y) < ramp(z, w) ~> ramp3(x - z, y - w, lanes) < 0 ].

(** src/Simplify_LT.cpp, lines 223 to 293. *)
Definition lt_again_10 : list Rule :=
  [ x * c0 < y * c1 ~> x < y * fold(c1 / c0) only_if (c1 mod c0 == 0) && (c0 > 0) ;
    x * c0 < y * c1 ~> x * fold(c0 / c1) < y only_if (c0 mod c1 == 0) && (c1 > 0) ;
    x * c0 < y * c0 + c1 ~> x < y + fold((c1 + c0 - 1) / c0) only_if c0 > 0 ;
    x * c0 + c1 < y * c0 ~> x + fold(c1 / c0) < y only_if c0 > 0 ;
    (x + c0) / c1 * c1 + w < x + z ~> w + c0 < (x + c0) mod c1 + z only_if c1 > 0 ;
    w + (x + c0) / c1 * c1 < x + z ~> w + c0 < (x + c0) mod c1 + z only_if c1 > 0 ;
    (x + c0) / c1 * c1 + w < z + x ~> w + c0 < (x + c0) mod c1 + z only_if c1 > 0 ;
    w + (x + c0) / c1 * c1 < z + x ~> w + c0 < (x + c0) mod c1 + z only_if c1 > 0 ;
    x + z < (x + c0) / c1 * c1 + w ~> (x + c0) mod c1 + z < w + c0 only_if c1 > 0 ;
    x + z < w + (x + c0) / c1 * c1 ~> (x + c0) mod c1 + z < w + c0 only_if c1 > 0 ;
    z + x < (x + c0) / c1 * c1 + w ~> (x + c0) mod c1 + z < w + c0 only_if c1 > 0 ;
    z + x < w + (x + c0) / c1 * c1 ~> (x + c0) mod c1 + z < w + c0 only_if c1 > 0 ;
    (x + c0) / c1 * c1 < x + z ~> c0 < (x + c0) mod c1 + z only_if c1 > 0 ;
    (x + c0) / c1 * c1 < z + x ~> c0 < (x + c0) mod c1 + z only_if c1 > 0 ;
    x + z < (x + c0) / c1 * c1 ~> (x + c0) mod c1 + z < c0 only_if c1 > 0 ;
    z + x < (x + c0) / c1 * c1 ~> (x + c0) mod c1 + z < c0 only_if c1 > 0 ;
    (x + c0) / c1 * c1 + w < x ~> w + c0 < (x + c0) mod c1 only_if c1 > 0 ;
    w + (x + c0) / c1 * c1 < x ~> w + c0 < (x + c0) mod c1 only_if c1 > 0 ;
    x < (x + c0) / c1 * c1 + w ~> (x + c0) mod c1 < w + c0 only_if c1 > 0 ;
    x < w + (x + c0) / c1 * c1 ~> (x + c0) mod c1 < w + c0 only_if c1 > 0 ;
    x / c1 * c1 + w < x + z ~> w < x mod c1 + z only_if c1 > 0 ;
    w + x / c1 * c1 < x + z ~> w < x mod c1 + z only_if c1 > 0 ;
    x / c1 * c1 + w < z + x ~> w < x mod c1 + z only_if c1 > 0 ;
    w + x / c1 * c1 < z + x ~> w < x mod c1 + z only_if c1 > 0 ;
    x + z < x / c1 * c1 + w ~> x mod c1 + z < w only_if c1 > 0 ;
    x + z < w + x / c1 * c1 ~> x mod c1 + z < w only_if c1 > 0 ;
    z + x < x / c1 * c1 + w ~> x mod c1 + z < w only_if c1 > 0 ;
    z + x < w + x / c1 * c1 ~> x mod c1 + z < w only_if c1 > 0 ;
    (x + c0) / c1 * c1 < x ~> c0 < (x + c0) mod c1 only_if c1 > 0 ;
    x < (x + c0) / c1 * c1 ~> (x + c0) mod c1 < c0 only_if c1 > 0 ;
    x / c1 * c1 < x + z ~> 0 < x mod c1 + z only_if c1 > 0 ;
    x / c1 * c1 < z + x ~> 0 < x mod c1 + z only_if c1 > 0 ;
    x + z < x / c1 * c1 ~> x mod c1 + z < 0 only_if c1 > 0 ;
    z + x < x / c1 * c1 ~> x mod c1 + z < 0 only_if c1 > 0 ;
    x / c1 * c1 + w < x ~> w < x mod c1 only_if c1 > 0 ;
    w + x / c1 * c1 < x ~> w < x mod c1 only_if c1 > 0 ;
    x < x / c1 * c1 + w ~> x mod c1 < w only_if c1 > 0 ;
    x < w + x / c1 * c1 ~> x mod c1 < w only_if c1 > 0 ;
    x / c1 * c1 < x ~> x mod c1 != 0 only_if c1 > 0 ;
    x < x / c1 * c1 ~> PLit 0 only_if c1 > 0 ;
    (x + c1) / c0 < (x + c2) / c0 ~> PLit 0 only_if (c0 > 0) && (c1 >= c2) ;
    (x + c1) / c0 < (x + c2) / c0 ~> PLit 1 only_if (c0 > 0) && (c1 <= c2 - c0) ;
    x / c0 < (x + c2) / c0 ~> PLit 0 only_if (c0 > 0) && (0 >= c2) ;
    x / c0 < (x + c2) / c0 ~> PLit 1 only_if (c0 > 0) && (0 <= c2 - c0) ].

(** src/Simplify_LT.cpp, lines 295 to 359. *)
Definition lt_again_11 (T : HType) : list Rule :=
  let lanes := lanes T in
  [ (x + c1) / c0 < x / c0 ~> PLit 0 only_if (c0 > 0) && (c1 >= 0) ;
    (x + c1) / c0 < x / c0 ~> PLit 1 only_if (c0 > 0) && (c1 <= 0 - c0) ;
    (x + c1) / c0 < x / c0 + c2 ~> PLit 0 only_if (c0 > 0) && (c1 >= c2 * c0) ;
    (x + c1) / c0 < x / c0 + c2 ~> PLit 1 only_if (c0 > 0) && (c1 <= c2 * c0 - c0) ;
    (x + c1) / c0 < min(x / c0, y) + c2 ~> PLit 0 only_if (c0 > 0) && (c1 >= c2 * c0) ;
    (x + c1) / c0 < max(x / c0, y) + c2 ~> PLit 1 only_if (c0 > 0) && (c1 <= c2 * c0 - c0) ;
    (x + c1) / c0 < min((x + c2) / c0, y) ~> PLit 0 only_if (c0 > 0) && (c1 >= c2) ;
    (x + c1) / c0 < max((x + c2) / c0, y) ~> PLit 1 only_if (c0 > 0) && (c1 <= c2 - c0) ;
    (x + c1) / c0 < min(x / c0, y) ~> PLit 0 only_if (c0 > 0) && (c1 >= 0) ;
    (x + c1) / c0 < max(x / c0, y) ~> PLit 1 only_if (c0 > 0) && (c1 <= 0 - c0) ;
    (x + c1) / c0 < min(y, x / c0) + c2 ~> PLit 0 only_if (c0 > 0) && (c1 >= c2 * c0) ;
    (x + c1) / c0 < max(y, x / c0) + c2 ~> PLit 1 only_if (c0 > 0) && (c1 <= c2 * c0 - c0) ;
    (x + c1) / c0 < min(y, (x + c2) / c0) ~> PLit 0 only_if (c0 > 0) && (c1 >= c2) ;
    (x + c1) / c0 < max(y, (x + c2) / c0) ~> PLit 1 only_if (c0 > 0) && (c1 <= c2 - c0) ;
    (x + c1) / c0 < min(y, x / c0) ~> PLit 0 only_if (c0 > 0) && (c1 >= 0) ;
    (x + c1) / c0 < max(y, x / c0) ~> PLit 1 only_if (c0 > 0) && (c1 <= 0 - c0) ;
    max((x + c2) / c0, y) < (x + c1) / c0 ~> PLit 0 only_if (c0 > 0) && (c2 >= c1) ;
    min((x + c2) / c0, y) < (x + c1) / c0 ~> PLit 1 only_if (c0 > 0) && (c2 <= c1 - c0) ;
    max(x / c0, y) < (x + c1) / c0 ~> PLit 0 only_if (c0 > 0) && (0 >= c1) ;
    min(x / c0, y) < (x + c1) / c0 ~> PLit 1 only_if (c0 > 0) && (0 <= c1 - c0) ;
    max(y, (x + c2) / c0) < (x + c1) / c0 ~> PLit 0 only_if (c0 > 0) && (c2 >= c1) ;
    min(y, (x + c2) / c0) < (x + c1) / c0 ~> PLit 1 only_if (c0 > 0) && (c2 <= c1 - c0) ;
    max(y, x / c0) < (x + c1) / c0 ~> PLit 0 only_if (c0 > 0) && (0 >= c1) ;
    min(y, x / c0) < (x + c1) / c0 ~> PLit 1 only_if (c0 > 0) && (0 <= c1 - c0) ;
    max((x + c2) / c0, y) < x / c0 + c1 ~> PLit 0 only_if (c0 > 0) && (c2 >= c1 * c0) ;
    min((x + c2) / c0, y) < x / c0 + c1 ~> PLit 1 only_if (c0 > 0) && (c2 <= c1 * c0 - c0) ;
    max(y, (x + c2) / c0) < x / c0 + c1 ~> PLit 0 only_if (c0 > 0) && (c2 >= c1 * c0) ;
    min(y, (x + c2) / c0) < x / c0 + c1 ~> PLit 1 only_if (c0 > 0) && (c2 <= c1 * c0 - c0) ;
    x / c0 < min((x + c2) / c0, y) ~> PLit 0 only_if (c0 > 0) && (c2 < 0) ;
    x / c0 < max((x + c2) / c0, y) ~> PLit 1 only_if (c0 > 0) && (c0 <= c2) ;
    x / c0 < min(y, (x + c2) / c0) ~> PLit 0 only_if (c0 > 0) && (c2 < 0) ;
    x / c0 < max(y, (x + c2) / c0) ~> PLit 1 only_if (c0 > 0) && (c0 <= c2) ;
    max((x + c2) / c0, y) < x / c0 ~> PLit 0 only_if (c0 > 0) && (c2 >= 0) ;
    min((x + c2) / c0, y) < x / c0 ~> PLit 1 only_if (c0 > 0) && (c2 + c0 <= 0) ;
    max(y, (x + c2) / c0) < x / c0 ~> PLit 0 only_if (c0 > 0) && (c2 >= 0) ;
    min(y, (x + c2) / c0) < x / c0 ~> PLit 1 only_if (c0 > 0) && (c2 + c0 <= 0) ;
    min(x, c0) < min(x, c1) ~> PLit 0 only_if c0 >= c1 ;
    min(x, c0) < min(x, c1) + c2 ~> PLit 0 only_if c0 >= c1 + c2 ;
    max(x, c0) < max(x, c1) ~> PLit 0 only_if c0 >= c1 ;
    max(x, c0) < max(x, c1) + c2 ~> PLit 0 only_if c0 >= c1 + c2 ;
    ramp(x * c3 + c2, c1) < broadcast(z * c0) ~> broadcast2(x * fold(c3 / c0) + fold(c2 / c0) < z, lanes) only_if (c0 > 0) && (c3 mod c0 == 0) && (c2 mod c0 + c1 * PLit (lanes - 1) < c0) && (c2 mod c0 + c1 * PLit (lanes - 1) >= 0) ;
    ramp(x * c3, c1) < broadcast(z * c0) ~> broadcast2(x * fold(c3 / c0) < z, lanes) only_if (c0 > 0) && (c3 mod c0 == 0) && (c1 * PLit (lanes - 1) < c0) && (c1 * PLit (lanes - 1) >= 0) ].

(** The rules whose result it simplifies again. *)
Definition lt_again (T : HType) (ty : HType) : list Rule :=
  lt_again_1 T ++
  when (no_overflow ty) (lt_again_2 T ++
    lt_again_3 ++
    when (is_int ty) (lt_again_4) ++
    when (is_float ty) (lt_again_5) ++
    lt_again_6 ++
    when (is_int ty) (lt_again_7) ++
    when (is_float ty) (lt_again_8) ++
    lt_again_9 T) ++
  when (no_overflow_int ty) (lt_again_10 ++
    lt_again_11 T).

Local Close Scope pat_scope.
#[local] Open Scope Z_scope.

(** [min(x, c0) < min(x, c1) + c2] is not false whenever [c0 >= c1 + c2]: with
    [c2 > 0], both sides can be [x] and [x + c2]. *)
Local Open Scope pat_scope.
Definition lt_exceptions : list Rule :=
  [ min(x, c0) < min(x, c1) + c2 ~> PLit 0 only_if c0 >= c1 + c2 ;
    max(x, c0) < max(x, c1) + c2 ~> PLit 0 only_if c0 >= c1 + c2 ].
Local Close Scope pat_scope.

Lemma lt_again_11_good (ty T : HType) : no_overflow_int ty = true ->
  good_tables lt_exceptions ty T (lt_again_11 T).
Proof.
  intros G. unfold lt_again_11. split; [reflexivity| |].
  - each_rule ltac:(first [typed_rule|wide_typed_rule G]).
  - each_rule ltac:(first [intros N; exfalso; apply N; cbn; tauto | intros _; wide_rule G]).
Qed.


(** ** The groups of rules are well typed and sound *)

Lemma lt_done_1_good l (ty T : HType) :
  good_tables l ty T (lt_done_1 ty).
Proof. unfold lt_done_1. plain_group. Qed.

Lemma lt_done_2_good l (ty T : HType) : no_overflow T = true ->
  good_tables l ty T (lt_done_2 T).
Proof. intros G0. unfold lt_done_2. wide_group G0. Qed.

Lemma lt_again_1_good l (ty T : HType) :
  good_tables l ty T (lt_again_1 T).
Proof. unfold lt_again_1. plain_group. Qed.

Lemma lt_again_2_good l (ty T : HType) : no_overflow ty = true ->
  good_tables l ty T (lt_again_2 T).
Proof. intros G0. unfold lt_again_2. wide_group G0. Qed.

Lemma lt_again_3_good l (ty T : HType) : no_overflow ty = true ->
  good_tables l ty T lt_again_3.
Proof. intros G0. unfold lt_again_3. wide_group G0. Qed.

Lemma lt_again_4_good l (ty T : HType) : no_overflow ty = true -> is_int ty = true ->
  good_tables l ty T lt_again_4.
Proof. intros G0 G1. unfold lt_again_4. wide_group G0. Qed.

Lemma lt_again_5_good l (ty T : HType) : no_overflow ty = true -> is_float ty = true ->
  good_tables l ty T lt_again_5.
Proof. intros G0 G1. unfold lt_again_5. wide_group G0. Qed.

Lemma lt_again_6_good l (ty T : HType) : no_overflow ty = true ->
  good_tables l ty T lt_again_6.
Proof. intros G0. unfold lt_again_6. wide_group G0. Qed.

Lemma lt_again_7_good l (ty T : HType) : no_overflow ty = true -> is_int ty = true ->
  good_tables l ty T lt_again_7.
Proof. intros G0 G1. unfold lt_again_7. wide_group G0. Qed.

Lemma lt_again_8_good l (ty T : HType) : no_overflow ty = true -> is_float ty = true ->
  good_tables l ty T lt_again_8.
Proof. intros G0 G1. unfold lt_again_8. wide_group G0. Qed.

Lemma lt_again_9_good l (ty T : HType) : no_overflow ty = true ->
  good_tables l ty T (lt_again_9 T).
Proof. intros G0. unfold lt_again_9. wide_group G0. Qed.

Lemma lt_again_10_good l (ty T : HType) : no_overflow_int ty = true ->
  good_tables l ty T lt_again_10.
Proof. intros G0. unfold lt_again_10. wide_group G0. Qed.

Lemma lt_done_good (ty T : HType) :
  good_tables lt_exceptions ty T (lt_done T ty).
Proof.
  unfold lt_done. good_table; eauto using lt_done_1_good, lt_done_2_good.
Qed.

Lemma lt_again_good (ty T : HType) :
  good_tables lt_exceptions ty T (lt_again T ty).
Proof.
  unfold lt_again. good_table; eauto using lt_again_1_good, lt_again_2_good, lt_again_3_good, lt_again_4_good, lt_again_5_good, lt_again_6_good, lt_again_7_good, lt_again_8_good, lt_again_9_good, lt_again_10_good, lt_again_11_good.
Qed.


(** ** The visit method *)

Section Visit.
Context {prover : Prover} (no_float_simplify : bool) (facts : Facts).

(** [Simplify::visit(const LT)]: [op] is the node visited, [a] and [b] are its
    simplified operands. *)
Definition visit_LT (op a b : Expr) (a_bounds b_bounds : ExprInfo) : M Step :=
  let e := ECmp LT a b in
  let t := type_of op in
  let ty := type_of a in
  if count (truths facts) op then ret (Kept (const_true (lanes t)))
  else if count (falsehoods facts) op then ret (Kept (const_false (lanes t)))
  else if may_simplify no_float_simplify ty then
    if max_defined a_bounds && min_defined b_bounds && (info_max a_bounds <? info_min b_bounds)
    then ret (Kept (const_true (lanes t)))
    else if min_defined a_bounds && max_defined b_bounds && (info_max b_bounds <=? info_min a_bounds)
    then ret (Kept (const_false (lanes t)))
    else apply_tables e (lt_done t ty) (lt_again t ty) e
  else ret (Kept e).

(** What the visit relies on. *)
Definition lt_known (op a b : Expr) (A B : ExprInfo) (env : Env) (i : Z) : Prop :=
  facts_hold facts env i /\ simplified op (ECmp LT a b) env i /\ operands_known A B a b env i.

Lemma visit_LT_keeps op a b A B c st c' : wf op = true -> is_bool (type_of op) = true ->
  wf (ECmp LT a b) = true -> type_of (ECmp LT a b) = type_of op ->
  visit_LT op a b A B c = (st, c') ->
  correct_when c c' (lt_known op a b A B) lt_exceptions op st.
Proof.
  intros Wo Bo W Ty. unfold visit_LT. cbv zeta.
  destruct (count (truths facts) op) eqn:F1; [|destruct (count (falsehoods facts) op) eqn:F2;
    [|destruct (may_simplify _ _); [destruct (max_defined A && _ && _) eqn:C1;
      [|destruct (min_defined A && _ && _) eqn:C2]|]]].
  - intros [= <- _]. apply (const_bool_correct _ _ op true Bo Wo).
    intros env i _ [H _]. now apply (truth_found facts).
  - intros [= <- _]. apply (const_bool_correct _ _ op false Bo Wo).
    intros env i _ [H _]. now apply (falsehood_found facts).
  - intros [= <- _]. apply (const_bool_correct _ _ op true Bo Wo).
    intros env i _ (_ & [_ <-] & [[_ Amax _] [Bmin _ _]]). destr_and. zify_bool. cbn [ev evcmp].
    specialize (Amax ltac:(assumption)). specialize (Bmin ltac:(assumption)).
    replace (_ <? _) with true by (symmetry; apply Z.ltb_lt; lia). reflexivity.
  - intros [= <- _]. apply (const_bool_correct _ _ op false Bo Wo).
    intros env i _ (_ & [_ <-] & [[Amin _ _] [_ Bmax _]]). destr_and. zify_bool. cbn [ev evcmp].
    specialize (Amin ltac:(assumption)). specialize (Bmax ltac:(assumption)).
    replace (_ <? _) with false by (symmetry; apply Z.ltb_ge; lia). reflexivity.
  - intros E. apply (correct_transfer _ _ op (ECmp LT a b) st Ty); [intros env i _ (_ & H & _); exact H|].
    apply correct_step_when. eapply (correct_tables _ _ (ECmp LT a b)); [| | | |exact E]; auto with halide.
    + rewrite <- Ty. apply lt_done_good.
    + rewrite <- Ty. apply lt_again_good.
  - intros [= <- _]. apply (correct_transfer _ _ op (ECmp LT a b) _ Ty); [intros env i _ (_ & H & _); exact H|].
    apply correct_step_when. eapply correct_kept; eauto with halide.
Qed.

(** C7: The visit of a strict inequality preserves its type
    and value where the facts and what is known of the operands hold; two
    rules for [min] and [max] are excepted. *)
Theorem visit_LT_correct op a b A B c st c' : wf op = true -> is_bool (type_of op) = true ->
  wf (ECmp LT a b) = true -> type_of (ECmp LT a b) = type_of op ->
  visit_LT op a b A B c = (st, c') ->
  correct_when c c' (lt_known op a b A B) lt_exceptions op st.
Proof. exact (visit_LT_keeps op a b A B c st c'). Qed.
End Visit.

(** ** The other comparisons *)

(** What [visit(const LE)], [visit(const GT)] and [visit(const GE)] simplify in
    place of their node. *)
Definition redirect_LE (a b : Expr) : Expr := ENot (ECmp LT b a).
Definition redirect_GT (a b : Expr) : Expr := ECmp LT b a.
Definition redirect_GE (a b : Expr) : Expr := ENot (ECmp LT a b).

Definition redirect_cmp (op : CmpOp) (a b : Expr) : option Expr :=
  match op with
  | LE => Some (redirect_LE a b)
  | GT => Some (redirect_GT a b)
  | GE => Some (redirect_GE a b)
  | NE => Some (ENot (ECmp EQ a b))
  | EQ | LT => None
  end.

Lemma redirect_value op a b e env i : redirect_cmp op a b = Some e -> ev env i e = ev env i (ECmp op a b).
Proof.
  destruct op; intros R; try discriminate R; injection R as <-; unfold redirect_LE, redirect_GT, redirect_GE;
    cbn [ev evcmp]; rewrite ?nz_b2z; try reflexivity; rewrite <- Z.leb_antisym; reflexivity.
Qed.

Lemma redirect_defined op a b e env i : redirect_cmp op a b = Some e ->
  defined env i (ECmp op a b) -> defined env i e.
Proof.
  intros R [[Oa Ob] [_ [Fa Fb]]].
  destruct op; try discriminate R; injection R as <-; unfold redirect_LE, redirect_GT, redirect_GE, defined;
    cbn [ok fits]; repeat (split; auto);
    apply in_type_bool; cbn [ev]; match goal with |- b2z ?x = _ \/ _ => destruct x end; auto.
Qed.

(** The other comparisons are redirected to an
    expression that stands for the node: well formed, of the same type, and
    defined and equal wherever the node is. *)
Theorem redirect_cmp_correct op a b e : wf (ECmp op a b) = true ->
  redirect_cmp op a b = Some e -> stands_for (ECmp op a b) e.
Proof.
  intros W R. split; [|split].
  - cbn in W. destr_and. apply type_eqb_eq in H0.
    destruct op; try discriminate R; injection R as <-; cbn; rewrite ?H, ?H1, ?H0, ?type_eqb_refl; reflexivity.
  - cbn in W. destr_and. apply type_eqb_eq in H0.
    destruct op; try discriminate R; injection R as <-; cbn; rewrite ?H0; reflexivity.
  - intros env i. split; [now apply redirect_value|now apply redirect_defined].
Qed.

Lemma visit_LT_correct_witness :
  let st := fst (visit_LT (prover := literal_prover) false (mkFacts [(bool_var "c")] [ENot (bool_var "c")]) (ECmp LT (EBin Add (int_var "x") (int_imm 3)) (int_imm 12)) (EBin Add (int_var "x") (int_imm 3)) (int_imm 12) no_info no_info no_counters) in
  step_expr st = ECmp LT (int_var "x") (EBin Add (int_imm 12) (int_imm (-3))) /\ same_meaning sample_env 0 (ECmp LT (EBin Add (int_var "x") (int_imm 3)) (int_imm 12)) (step_expr st).
Proof.
  split; [vm_compute; reflexivity|].
  unshelve eapply (visit_LT_correct (prover := literal_prover) false (mkFacts [(bool_var "c")] [ENot (bool_var "c")]) (ECmp LT (EBin Add (int_var "x") (int_imm 3)) (int_imm 12)) (EBin Add (int_var "x") (int_imm 3)) (int_imm 12) no_info no_info
    no_counters _ _ eq_refl eq_refl eq_refl eq_refl (surjective_pairing _)); concrete.
Defined.

Lemma redirect_cmp_correct_witness :
  stands_for (ECmp GE (int_var "x") (int_var "y")) (ENot (ECmp LT (int_var "x") (int_var "y"))).
Proof. apply (redirect_cmp_correct GE (int_var "x") (int_var "y")); reflexivity. Defined.

(** Why the two rules are excepted: at [int32],
    [min(x, 10) < min(x, 5) + 1] holds for [x = 0], and is turned into false. *)
Theorem lt_min_unsound :
  let x := int_var "x" in
  let a := EBin Min x (int_imm 10) in
  let b := EBin Add (EBin Min x (int_imm 5)) (int_imm 1) in
  let op := ECmp LT a b in
  let env := mkEnv (fun _ _ => 0) (fun _ _ => 0) (fun _ _ _ _ => 0) in
  let st := fst (visit_LT (prover := literal_prover) false (mkFacts [] []) op a b no_info no_info no_counters) in
  step_expr st = const_false 1 /\ defined env 0 op /\
  ev env 0 op = 1 /\ ev env 0 (step_expr st) = 0.
Proof. cbv zeta. split; [vm_compute; reflexivity|]. concrete. Qed.

(** The four rules that compare ramps with broadcasts
    are guarded by the overflow behaviour of the boolean result type, and are
    never tried. *)
Theorem lt_ramp_rules_dead n ty : lt_done (BoolT n) ty = lt_done_1 ty.
Proof. reflexivity. Qed.
