(* ===== verification/SimplifyAnd.v ===== *)
(** * Conjunctions

    The rewrite rules and the visit method of src/Simplify_And.cpp. *)

From Stdlib Require Import ZArith Lia Bool List String.
From S2P Require Import Prelude.
From S2P Require Import IntArith.
From S2P Require Import ModulusRemainder.
From S2P Require Import HalideTypes.
From S2P Require Import IR.
From S2P Require Import IREquality.
From S2P Require Import IRMatch.
From S2P Require Import PatNotations.
From S2P Require Import RuleSem.
From S2P Require Import Euclid.
From S2P Require Import RuleTac.
From S2P Require Import MatchSound.
From S2P Require Import FoldSound.
From S2P Require Import MakeSound.
From S2P Require Import RuleSound.
From S2P Require Import Visit.
From S2P Require Import TableTac.
From S2P Require Import ExprInfo.
Import ListNotations.

Local Open Scope pat_scope.

(** src/Simplify_And.cpp, lines 22 to 73. *)
Definition and_done_1 : list Rule :=
  [ x && PLit 1 ~> arg_a ;
    x && PLit 0 ~> arg_b ;
    x && x ~> arg_a ;
    x && y && x ~> arg_a ;
    x && (x && y) ~> arg_b ;
    x && y && y ~> arg_a ;
    y && (x && y) ~> arg_b ;
    x && y && z && x ~> arg_a ;
    x && (x && y && z) ~> arg_b ;
    z && (x && y) && x ~> arg_a ;
    x && (z && (x && y)) ~> arg_b ;
    x && y && z && y ~> arg_a ;
    y && (x && y && z) ~> arg_b ;
    z && (x && y) && y ~> arg_a ;
    y && (z && (x && y)) ~> arg_b ;
    (x || y) && x ~> arg_b ;
    x && (x || y) ~> arg_a ;
    (x || y) && y ~> arg_b ;
    y && (x || y) ~> arg_a ;
    (x != y) && (x == y) ~> PLit 0 ;
    (x != y) && (y == x) ~> PLit 0 ;
    z && (x != y) && (x == y) ~> PLit 0 ;
    z && (x != y) && (y == x) ~> PLit 0 ;
    (x != y) && z && (x == y) ~> PLit 0 ;
    (x != y) && z && (y == x) ~> PLit 0 ;
    z && (x == y) && (x != y) ~> PLit 0 ;
    z && (x == y) && (y != x) ~> PLit 0 ;
    (x == y) && z && (x != y) ~> PLit 0 ;
    (x == y) && z && (y != x) ~> PLit 0 ;
    x && ! x ~> PLit 0 ;
    ! x && x ~> PLit 0 ;
    (y <= x) && (x < y) ~> PLit 0 ;
    (x != c0) && (x == c1) ~> arg_b only_if c0 != c1 ;
    (c0 < x) && (x < c1) ~> PLit 0 only_if ! PIsFloat x && (c1 <= c0 + 1) ;
    (x < c1) && (c0 < x) ~> PLit 0 only_if ! PIsFloat x && (c1 <= c0 + 1) ;
    (x <= c1) && (c0 < x) ~> PLit 0 only_if c1 <= c0 ;
    (c0 <= x) && (x < c1) ~> PLit 0 only_if c1 <= c0 ;
    (c0 <= x) && (x <= c1) ~> PLit 0 only_if c1 < c0 ;
    (x <= c1) && (c0 <= x) ~> PLit 0 only_if c1 < c0 ;
    (c0 < x) && (c1 < x) ~> fold(max(c0, c1)) < x ;
    (c0 <= x) && (c1 <= x) ~> fold(max(c0, c1)) <= x ;
    (x < c0) && (x < c1) ~> x < fold(min(c0, c1)) ;
    (x <= c0) && (x <= c1) ~> x <= fold(min(c0, c1)) ].

(** The rules whose result the visitor returns. *)
Definition and_done : list Rule :=
  and_done_1.

(** src/Simplify_And.cpp, lines 77 to 107. *)
Definition and_again_1 (T : HType) : list Rule :=
  let lanes := lanes T in
  [ broadcast(x) && broadcast(y) ~> broadcast2(x && y, lanes) ;
    (x || (y && z)) && y ~> (x || z) && y ;
    (x || (z && y)) && y ~> (x || z) && y ;
    y && (x || (y && z)) ~> y && (x || z) ;
    y && (x || (z && y)) ~> y && (x || z) ;
    ((y && z) || x) && y ~> (z || x) && y ;
    ((z && y) || x) && y ~> (z || x) && y ;
    y && ((y && z) || x) ~> y && (z || x) ;
    y && ((z && y) || x) ~> y && (z || x) ;
    x && (y || z) && y ~> x && y ;
    x && (z || y) && y ~> x && y ;
    y && (x && (y || z)) ~> y && x ;
    y && (x && (z || y)) ~> y && x ;
    (y || z) && x && y ~> x && y ;
    (z || y) && x && y ~> x && y ;
    y && ((y || z) && x) ~> y && x ;
    y && ((z || y) && x) ~> y && x ;
    (x || y) && (x || z) ~> x || (y && z) ;
    (x || y) && (z || x) ~> x || (y && z) ;
    (y || x) && (x || z) ~> x || (y && z) ;
    (y || x) && (z || x) ~> x || (y && z) ;
    (x < y) && (x < z) ~> x < min(y, z) ;
    (y < x) && (z < x) ~> max(y, z) < x ;
    (x <= y) && (x <= z) ~> x <= min(y, z) ;
    (y <= x) && (z <= x) ~> max(y, z) <= x ].

(** The rules whose result it simplifies again. *)
Definition and_again (T : HType) : list Rule :=
  and_again_1 T.

Local Close Scope pat_scope.
#[local] Open Scope Z_scope.

(** ** The groups of rules are well typed and sound *)

Lemma and_done_1_good l (T : HType) :
  good_tables l T T and_done_1.
Proof. unfold and_done_1. plain_group. Qed.

Lemma and_again_1_good l (T : HType) :
  good_tables l T T (and_again_1 T).
Proof. unfold and_again_1. plain_group. Qed.

Lemma and_done_good l (T : HType) :
  good_tables l T T and_done.
Proof.
  unfold and_done. good_table; eauto using and_done_1_good.
Qed.

Lemma and_again_good l (T : HType) :
  good_tables l T T (and_again T).
Proof.
  unfold and_again. good_table; eauto using and_again_1_good.
Qed.


(** ** The visit method *)

Section Visit.
Context {prover : Prover} (facts : Facts).

(** [Simplify::visit(const And)]: [op] is the node visited, [a] and [b] are
    its simplified operands. *)
Definition visit_And (op a b : Expr) : M Step :=
  if count (falsehoods facts) op then ret (Kept (const_false (lanes (type_of op))))
  else
    let '(a, b) := commute a b in
    let e := EBin And a b in
    apply_tables e and_done (and_again (type_of e)) e.

Lemma visit_And_keeps op a b c st c' : wf op = true -> is_bool (type_of op) = true ->
  wf (EBin And a b) = true -> type_of (EBin And a b) = type_of op ->
  visit_And op a b c = (st, c') ->
  correct_when c c' (fun env i => facts_hold facts env i /\ simplified op (EBin And a b) env i) [] op st.
Proof.
  intros Wo Bo W Ty. unfold visit_And. destruct (count _ _) eqn:F.
  - intros [= <- _]. apply (const_bool_correct _ _ op false Bo Wo).
    intros env i _ [H _]. now apply (falsehood_found facts).
  - destruct (commute a b) as [a' b'] eqn:C.
    pose proof (commute_stands_for And a b a' b' eq_refl W C) as S. pose proof S as (W' & T' & _).
    intros E. apply (correct_transfer _ _ op (EBin And a b) st Ty); [intros env i _ [_ H]; exact H|].
    apply correct_step_when. eapply (correct_tables _ _ (EBin And a' b')); [exact S| | | |exact E].
    + now apply keeps_node_refl.
    + apply and_done_good.
    + apply and_again_good.
Qed.

(** C12: The visit of a conjunction preserves its type and
    value where the facts hold and the operands keep theirs. *)
Theorem visit_And_correct op a b c st c' : wf op = true -> is_bool (type_of op) = true ->
  wf (EBin And a b) = true -> type_of (EBin And a b) = type_of op ->
  visit_And op a b c = (st, c') ->
  correct_when c c' (fun env i => facts_hold facts env i /\ simplified op (EBin And a b) env i) [] op st.
Proof. exact (visit_And_keeps op a b c st c'). Qed.
End Visit.

Lemma visit_And_correct_witness :
  let st := fst (visit_And (prover := literal_prover) (mkFacts [(bool_var "c")] [ENot (bool_var "c")]) (EBin And (bool_var "b") (bool_var "b")) (bool_var "b") (bool_var "b") no_counters) in
  step_expr st = bool_var "b" /\ same_meaning sample_env 0 (EBin And (bool_var "b") (bool_var "b")) (step_expr st).
Proof.
  split; [vm_compute; reflexivity|].
  unshelve eapply (visit_And_correct (prover := literal_prover) (mkFacts [(bool_var "c")] [ENot (bool_var "c")]) (EBin And (bool_var "b") (bool_var "b")) (bool_var "b") (bool_var "b")
    no_counters _ _ eq_refl eq_refl eq_refl eq_refl (surjective_pairing _)); concrete.
Defined.
