(* ===== verification/SimplifyOr.v ===== *)
(** * Disjunctions

    The rewrite rules and the visit method of src/Simplify_Or.cpp. *)

From Stdlib Require Import ZArith Lia Bool List String.
From S2P Require Import Prelude.
From S2P Require Import IntArith.
From S2P Require Import ModulusRemainder.
From S2P Require Import HalideTypes.
From S2P Require Import IR.
From S2P Require Import IREquality.
From S2P Require Import IRMatch.
From S2P Require Import PatNotations.
From S2P Require Import RuleSem.
From S2P Require Import Euclid.
From S2P Require Import RuleTac.
From S2P Require Import MatchSound.
From S2P Require Import FoldSound.
From S2P Require Import MakeSound.
From S2P Require Import RuleSound.
From S2P Require Import Visit.
From S2P Require Import TableTac.
From S2P Require Import ExprInfo.
Import ListNotations.

Local Open Scope pat_scope.

(** src/Simplify_Or.cpp, lines 21 to 76. *)
Definition or_done_1 : list Rule :=
  [ x || PLit 1 ~> arg_b ;
    x || PLit 0 ~> arg_a ;
    x || x ~> arg_a ;
    x || y || x ~> arg_a ;
    x || (x || y) ~> arg_b ;
    x || y || y ~> arg_a ;
    y || (x || y) ~> arg_b ;
    x || y || z || x ~> arg_a ;
    x || (x || y || z) ~> arg_b ;
    z || (x || y) || x ~> arg_a ;
    x || (z || (x || y)) ~> arg_b ;
    x || y || z || y ~> arg_a ;
    y || (x || y || z) ~> arg_b ;
    z || (x || y) || y ~> arg_a ;
    y || (z || (x || y)) ~> arg_b ;
    (x && y) || x ~> arg_b ;
    x || (x && y) ~> arg_a ;
    (x && y) || y ~> arg_b ;
    y || (x && y) ~> arg_a ;
    x || y || z || x ~> arg_a ;
    x || (x || y || z) ~> arg_b ;
    z || (x || y) || x ~> arg_a ;
    x || (z || (x || y)) ~> arg_b ;
    x || y || z || y ~> arg_a ;
    y || (x || y || z) ~> arg_b ;
    z || (x || y) || y ~> arg_a ;
    y || (z || (x || y)) ~> arg_b ;
    (x != y) || (x == y) ~> PLit 1 ;
    (x != y) || (y == x) ~> PLit 1 ;
    z || (x != y) || (x == y) ~> PLit 1 ;
    z || (x != y) || (y == x) ~> PLit 1 ;
    (x != y) || z || (x == y) ~> PLit 1 ;
    (x != y) || z || (y == x) ~> PLit 1 ;
    z || (x == y) || (x != y) ~> PLit 1 ;
    z || (x == y) || (y != x) ~> PLit 1 ;
    (x == y) || z || (x != y) ~> PLit 1 ;
    (x == y) || z || (y != x) ~> PLit 1 ;
    x || ! x ~> PLit 1 ;
    ! x || x ~> PLit 1 ;
    (y <= x) || (x < y) ~> PLit 1 ;
    (x != c0) || (x == c1) ~> arg_a only_if c0 != c1 ;
    (x <= c0) || (c1 <= x) ~> PLit 1 only_if ! PIsFloat x && (c1 <= c0 + 1) ;
    (c1 <= x) || (x <= c0) ~> PLit 1 only_if ! PIsFloat x && (c1 <= c0 + 1) ;
    (x <= c0) || (c1 < x) ~> PLit 1 only_if c1 <= c0 ;
    (c1 <= x) || (x < c0) ~> PLit 1 only_if c1 <= c0 ;
    (x < c0) || (c1 < x) ~> PLit 1 only_if c1 < c0 ;
    (c1 < x) || (x < c0) ~> PLit 1 only_if c1 < c0 ;
    (c0 < x) || (c1 < x) ~> fold(min(c0, c1)) < x ;
    (c0 <= x) || (c1 <= x) ~> fold(min(c0, c1)) <= x ;
    (x < c0) || (x < c1) ~> x < fold(max(c0, c1)) ;
    (x <= c0) || (x <= c1) ~> x <= fold(max(c0, c1)) ].

(** The rules whose result the visitor returns. *)
Definition or_done : list Rule :=
  or_done_1.

(** src/Simplify_Or.cpp, lines 80 to 110. *)
Definition or_again_1 (T : HType) : list Rule :=
  let lanes := lanes T in
  [ broadcast(x) || broadcast(y) ~> broadcast2(x || y, lanes) ;
    (x && (y || z)) || y ~> (x && z) || y ;
    (x && (z || y)) || y ~> (x && z) || y ;
    y || (x && (y || z)) ~> y || (x && z) ;
    y || (x && (z || y)) ~> y || (x && z) ;
    ((y || z) && x) || y ~> (z && x) || y ;
    ((z || y) && x) || y ~> (z && x) || y ;
    y || ((y || z) && x) ~> y || (z && x) ;
    y || ((z || y) && x) ~> y || (z && x) ;
    x || (y && z) || y ~> x || y ;
    x || (z && y) || y ~> x || y ;
    y || (x || (y && z)) ~> y || x ;
    y || (x || (z && y)) ~> y || x ;
    (y && z) || x || y ~> x || y ;
    (z && y) || x || y ~> x || y ;
    y || ((y && z) || x) ~> y || x ;
    y || ((z && y) || x) ~> y || x ;
    (x && y) || (x && z) ~> x && (y || z) ;
    (x && y) || (z && x) ~> x && (y || z) ;
    (y && x) || (x && z) ~> x && (y || z) ;
    (y && x) || (z && x) ~> x && (y || z) ;
    (x < y) || (x < z) ~> x < max(y, z) ;
    (y < x) || (z < x) ~> min(y, z) < x ;
    (x <= y) || (x <= z) ~> x <= max(y, z) ;
    (y <= x) || (z <= x) ~> min(y, z) <= x ].

(** The rules whose result it simplifies again. *)
Definition or_again (T : HType) : list Rule :=
  or_again_1 T.

Local Close Scope pat_scope.
#[local] Open Scope Z_scope.

(** ** The groups of rules are well typed and sound *)

Lemma or_done_1_good l (T : HType) :
  good_tables l T T or_done_1.
Proof. unfold or_done_1. plain_group. Qed.

Lemma or_again_1_good l (T : HType) :
  good_tables l T T (or_again_1 T).
Proof. unfold or_again_1. plain_group. Qed.

Lemma or_done_good l (T : HType) :
  good_tables l T T or_done.
Proof.
  unfold or_done. good_table; eauto using or_done_1_good.
Qed.

Lemma or_again_good l (T : HType) :
  good_tables l T T (or_again T).
Proof.
  unfold or_again. good_table; eauto using or_again_1_good.
Qed.


(** ** The visit method *)

Section Visit.
Context {prover : Prover} (facts : Facts).

(** [Simplify::visit(const Or)]: [op] is the node visited, [a] and [b] are
    its simplified operands. *)
Definition visit_Or (op a b : Expr) : M Step :=
  if count (truths facts) op then ret (Kept (const_true (lanes (type_of op))))
  else
    let '(a, b) := commute a b in
    let e := EBin Or a b in
    apply_tables e or_done (or_again (type_of e)) e.

(** The visit of a disjunction preserves its type and
    value where the facts hold and the operands keep theirs. *)
Theorem visit_Or_correct op a b c st c' : wf op = true -> is_bool (type_of op) = true ->
  wf (EBin Or a b) = true -> type_of (EBin Or a b) = type_of op ->
  visit_Or op a b c = (st, c') ->
  correct_when c c' (fun env i => facts_hold facts env i /\ simplified op (EBin Or a b) env i) [] op st.
Proof.
  intros Wo Bo W Ty. unfold visit_Or. destruct (count _ _) eqn:F.
  - intros [= <- _]. apply (const_bool_correct _ _ op true Bo Wo).
    intros env i _ [H _]. now apply (truth_found facts).
  - destruct (commute a b) as [a' b'] eqn:C.
    pose proof (commute_stands_for Or a b a' b' eq_refl W C) as S. pose proof S as (W' & T' & _).
    intros E. apply (correct_transfer _ _ op (EBin Or a b) st Ty); [intros env i _ [_ H]; exact H|].
    apply correct_step_when. eapply (correct_tables _ _ (EBin Or a' b')); [exact S| | | |exact E].
    + now apply keeps_node_refl.
    + apply or_done_good.
    + apply or_again_good.
Qed.
End Visit.

Lemma visit_Or_correct_witness :
  let st := fst (visit_Or (prover := literal_prover) (mkFacts [(bool_var "c")] [ENot (bool_var "c")]) (EBin Or (bool_var "b") (bool_var "b")) (bool_var "b") (bool_var "b") no_counters) in
  step_expr st = bool_var "b" /\ same_meaning sample_env 0 (EBin Or (bool_var "b") (bool_var "b")) (step_expr st).
Proof.
  split; [vm_compute; reflexivity|].
  unshelve eapply (visit_Or_correct (prover := literal_prover) (mkFacts [(bool_var "c")] [ENot (bool_var "c")]) (EBin Or (bool_var "b") (bool_var "b")) (bool_var "b") (bool_var "b")
    no_counters _ _ eq_refl eq_refl eq_refl eq_refl (surjective_pairing _)); concrete.
Defined.
