(* ===== verification/SimplifyNot.v ===== *)
(** * Negations

    The rewrite rules and the visit method of src/Simplify_Not.cpp. *)

From Stdlib Require Import ZArith Lia Bool List String.
From S2P Require Import Prelude.
From S2P Require Import IntArith.
From S2P Require Import ModulusRemainder.
From S2P Require Import HalideTypes.
From S2P Require Import IR.
From S2P Require Import IREquality.
From S2P Require Import IRMatch.
From S2P Require Import PatNotations.
From S2P Require Import RuleSem.
From S2P Require Import Euclid.
From S2P Require Import RuleTac.
From S2P Require Import MatchSound.
From S2P Require Import FoldSound.
From S2P Require Import MakeSound.
From S2P Require Import RuleSound.
From S2P Require Import Visit.
From S2P Require Import TableTac.
From S2P Require Import ExprInfo.
Import ListNotations.

Local Open Scope pat_scope.

(** src/Simplify_Not.cpp, lines 11 to 18. *)
Definition not_done_1 : list Rule :=
  [ ! c0 ~> fold(! c0) ;
    ! (x < y) ~> y <= x ;
    ! (x <= y) ~> y < x ;
    ! (x > y) ~> y >= x ;
    ! (x >= y) ~> y > x ;
    ! (x == y) ~> x != y ;
    ! (x != y) ~> x == y ;
    ! ! x ~> x ].

(** The rules whose result the visitor returns. *)
Definition not_done : list Rule :=
  not_done_1.

(** src/Simplify_Not.cpp, lines 22 to 24. *)
Definition not_again_1 (T : HType) : list Rule :=
  let lanes := lanes T in
  [ ! broadcast(x) ~> broadcast2(! x, lanes) ;
    ! intrin(likely_name, x) ~> intrin(likely_name, ! x) ;
    ! intrin(likely_if_innermost_name, x) ~> intrin(likely_if_innermost_name, ! x) ].

(** The rules whose result it simplifies again. *)
Definition not_again (T : HType) : list Rule :=
  not_again_1 T.

Local Close Scope pat_scope.
#[local] Open Scope Z_scope.

(** ** The groups of rules are well typed and sound *)

Lemma not_done_1_good l (T : HType) :
  good_tables l T T not_done_1.
Proof. unfold not_done_1. plain_group. Qed.

Lemma not_again_1_good l (T : HType) :
  good_tables l T T (not_again_1 T).
Proof. unfold not_again_1. plain_group. Qed.

Lemma not_done_good l (T : HType) :
  good_tables l T T not_done.
Proof.
  unfold not_done. good_table; eauto using not_done_1_good.
Qed.

Lemma not_again_good l (T : HType) :
  good_tables l T T (not_again T).
Proof.
  unfold not_again. good_table; eauto using not_again_1_good.
Qed.


(** ** The visit method *)

Section Visit.
Context {prover : Prover}.

(** [Simplify::visit(const Not)], from the simplified operand on. *)
Definition visit_Not (a : Expr) : M Step :=
  let e := ENot a in apply_tables e not_done (not_again (type_of e)) e.

(** The visit of a negation preserves its type and value. *)
Theorem visit_Not_correct a c st c' : wf (ENot a) = true ->
  visit_Not a c = (st, c') -> correct_step c c' [] (ENot a) st.
Proof.
  intros W E. eapply (correct_tables [] _ (ENot a)); [| | | |exact E]; auto with halide;
    [apply not_done_good|apply not_again_good].
Qed.
End Visit.

Lemma visit_Not_correct_witness :
  let st := fst (visit_Not (prover := literal_prover) (ECmp LT (int_var "x") (int_var "y")) no_counters) in
  step_expr st = ECmp LE (int_var "y") (int_var "x") /\ same_meaning sample_env 0 (ENot (ECmp LT (int_var "x") (int_var "y"))) (step_expr st).
Proof.
  split; [vm_compute; reflexivity|].
  unshelve eapply (visit_Not_correct (prover := literal_prover) (ECmp LT (int_var "x") (int_var "y"))
    no_counters _ _ eq_refl (surjective_pairing _)); concrete.
Defined.
