(* ===== verification/SimplifySelect.v ===== *)
(** * Selections

    The rewrite rules and the visit method of src/Simplify_Select.cpp. *)

From Stdlib Require Import ZArith Lia Bool List String.
From S2P Require Import Prelude.
From S2P Require Import IntArith.
From S2P Require Import ModulusRemainder.
From S2P Require Import HalideTypes.
From S2P Require Import IR.
From S2P Require Import IREquality.
From S2P Require Import IRMatch.
From S2P Require Import PatNotations.
From S2P Require Import RuleSem.
From S2P Require Import Euclid.
From S2P Require Import RuleTac.
From S2P Require Import MatchSound.
From S2P Require Import FoldSound.
From S2P Require Import MakeSound.
From S2P Require Import RuleSound.
From S2P Require Import Visit.
From S2P Require Import TableTac.
From S2P Require Import ExprInfo.
Import ListNotations.

Local Open Scope pat_scope.

(** src/Simplify_Select.cpp, lines 26 to 48. *)
Definition select_done_1 : list Rule :=
  [ select(intrin(likely_name, PLit 1), x, y) ~> x ;
    select(intrin(likely_name, PLit 0), x, y) ~> y ;
    select(intrin(likely_if_innermost_name, PLit 1), x, y) ~> x ;
    select(intrin(likely_if_innermost_name, PLit 0), x, y) ~> y ;
    select(1, x, y) ~> x ;
    select(0, x, y) ~> y ;
    select(x, y, y) ~> y ;
    select(x, intrin(likely_name, y), y) ~> arg_true ;
    select(x, y, intrin(likely_name, y)) ~> arg_false ;
    select(x, intrin(likely_if_innermost_name, y), y) ~> arg_true ;
    select(x, y, intrin(likely_if_innermost_name, y)) ~> arg_false ;
    select(x, y, PIndeterminate) ~> y ;
    select(x, PIndeterminate, y) ~> y ].

(** The rules whose result the visitor returns. *)
Definition select_done : list Rule :=
  select_done_1.

(** src/Simplify_Select.cpp, lines 53 to 80. *)
Definition select_again_1 : list Rule :=
  [ select(broadcast(x), y, z) ~> select(x, y, z) ;
    select(x != y, z, w) ~> select(x == y, w, z) ;
    select(x <= y, z, w) ~> select(y < x, w, z) ;
    select(x, select(y, z, w), z) ~> select(x && ! y, w, z) ;
    select(x, select(y, z, w), w) ~> select(x && y, z, w) ;
    select(x, y, select(z, y, w)) ~> select(x || z, y, w) ;
    select(x, y, select(z, w, y)) ~> select(x || ! z, y, w) ;
    select(x, select(x, y, z), w) ~> select(x, y, w) ;
    select(x, y, select(x, z, w)) ~> select(x, y, w) ;
    select(x, y + z, y + w) ~> y + select(x, z, w) ;
    select(x, y + z, w + y) ~> y + select(x, z, w) ;
    select(x, z + y, y + w) ~> y + select(x, z, w) ;
    select(x, z + y, w + y) ~> select(x, z, w) + y ;
    select(x, y - z, y - w) ~> y - select(x, z, w) ;
    select(x, y - z, y + w) ~> y + select(x, - z, w) ;
    select(x, y + z, y - w) ~> y + select(x, z, - w) ;
    select(x, y - z, w + y) ~> y + select(x, - z, w) ;
    select(x, z + y, y - w) ~> y + select(x, z, - w) ;
    select(x, z - y, w - y) ~> select(x, z, w) - y ;
    select(x, y * z, y * w) ~> y * select(x, z, w) ;
    select(x, y * z, w * y) ~> y * select(x, z, w) ;
    select(x, z * y, y * w) ~> y * select(x, z, w) ;
    select(x, z * y, w * y) ~> select(x, z, w) * y ;
    select(x, z / y, w / y) ~> select(x, z, w) / y ;
    select(x, z mod y, w mod y) ~> select(x, z, w) mod y ;
    select(x < y, x, y) ~> min(x, y) ;
    select(x < y, y, x) ~> max(x, y) ].

(** src/Simplify_Select.cpp, lines 83 to 95. *)
Definition select_again_2 : list Rule :=
  [ select(x, y * c0, c1) ~> select(x, y, fold(c1 / c0)) * c0 only_if c1 mod c0 == 0 ;
    select(x, c0, y * c1) ~> select(x, fold(c0 / c1), y) * c1 only_if c0 mod c1 == 0 ;
    select(c0 < x, x + c1, c2) ~> max(x + c1, c2) only_if (c2 == c0 + c1) || (c2 == c0 + c1 + 1) ;
    select(x < c0, c1, x + c2) ~> max(x + c2, c1) only_if (c1 == c0 + c2) || (c1 + 1 == c0 + c2) ;
    select(c0 < x, c1, x + c2) ~> min(x + c2, c1) only_if (c1 == c0 + c2) || (c1 == c0 + c2 + 1) ;
    select(x < c0, x + c1, c2) ~> min(x + c1, c2) only_if (c2 == c0 + c1) || (c2 + 1 == c0 + c1) ;
    select(c0 < x, x, c1) ~> max(x, c1) only_if c1 == c0 + 1 ;
    select(x < c0, c1, x) ~> max(x, c1) only_if c1 + 1 == c0 ;
    select(c0 < x, c1, x) ~> min(x, c1) only_if c1 == c0 + 1 ;
    select(x < c0, x, c1) ~> min(x, c1) only_if c1 + 1 == c0 ].

(** src/Simplify_Select.cpp, lines 98 to 103. *)
Definition select_again_3 (T : HType) : list Rule :=
  [ select(x, PLit 1, PLit 0) ~> PCast T x ;
    select(x, PLit 0, PLit 1) ~> PCast T (! x) ;
    select(x, y, PLit 0) ~> x && y ;
    select(x, y, PLit 1) ~> ! x || y ;
    select(x, PLit 0, y) ~> ! x && y ;
    select(x, PLit 1, y) ~> x || y ].

(** The rules whose result it simplifies again. *)
Definition select_again (T : HType) : list Rule :=
  select_again_1 ++
  when (no_overflow_int T) (select_again_2) ++
  when (is_bool T) (select_again_3 T).

Local Close Scope pat_scope.
#[local] Open Scope Z_scope.

(** ** The groups of rules are well typed and sound *)

Lemma select_done_1_good l (T : HType) :
  good_tables l T T select_done_1.
Proof. unfold select_done_1. plain_group. Qed.

Lemma select_again_1_good l (T : HType) :
  good_tables l T T select_again_1.
Proof. unfold select_again_1. plain_group. Qed.

Lemma select_again_2_good l (T : HType) : no_overflow_int T = true ->
  good_tables l T T select_again_2.
Proof. intros G0. unfold select_again_2. wide_group G0. Qed.

Lemma select_again_3_good l (T : HType) : is_bool T = true ->
  good_tables l T T (select_again_3 T).
Proof. intros G0. unfold select_again_3. plain_group. Qed.

Lemma select_done_good l (T : HType) :
  good_tables l T T select_done.
Proof.
  unfold select_done. good_table; eauto using select_done_1_good.
Qed.

Lemma select_again_good l (T : HType) :
  good_tables l T T (select_again T).
Proof.
  unfold select_again. good_table; eauto using select_again_1_good, select_again_2_good, select_again_3_good.
Qed.


(** ** The bounds of a selection *)

Definition raw_select_bounds (t f : ExprInfo) : ExprInfo :=
  mkInfo (Z.min (info_min t) (info_min f)) (Z.max (info_max t) (info_max f))
    (min_defined t && min_defined f) (max_defined t && max_defined f)
    (unify (info_alignment t) (info_alignment f)).

Definition select_bounds (t f : ExprInfo) : ExprInfo := trim_bounds_using_alignment (raw_select_bounds t f).

Lemma select_trimmable t f : room 62 t -> room 62 f -> trimmable (raw_select_bounds t f).
Proof.
  intros [Tmin Tmax Tm Tr] [Fmin Fmax Fm Fr]. split; cbn.
  - apply unify_normal.
  - destruct (min_defined t), (min_defined f); cbn; intros D; try discriminate D; unfold in_int in *; cbn in *; lia.
  - destruct (max_defined t), (max_defined f); cbn; intros D; try discriminate D; unfold in_int in *; cbn in *; lia.
  - now apply unify_room.
Qed.

Lemma select_bounds_hold env i c t f Tb Fb : room 62 Tb -> room 62 Fb ->
  operands_known Tb Fb t f env i ->
  info_holds (select_bounds Tb Fb) (ev env i (Select c t f)).
Proof.
  intros RT RF [[Tmin Tmax Ta] [Fmin Fmax Fa]]. apply trim_sound; [now apply select_trimmable|].
  cbn [ev]. split; cbn [info_min info_max min_defined max_defined info_alignment raw_select_bounds].
  - intros D. destr_and. specialize (Tmin ltac:(assumption)). specialize (Fmin ltac:(assumption)).
    destruct (nz _); lia.
  - intros D. destr_and. specialize (Tmax ltac:(assumption)). specialize (Fmax ltac:(assumption)).
    destruct (nz _); lia.
  - apply unify_sound; [apply room_unify_safe; first [apply RT|apply RF]|].
    destruct (nz _); auto.
Qed.

(** What [visit(const Select)] reports of a selection
    holds of its value, whichever branch is taken. *)
Theorem select_bounds_sound env i c t f Tb Fb : room 62 Tb -> room 62 Fb ->
  operands_known Tb Fb t f env i ->
  info_holds (select_bounds Tb Fb) (ev env i (Select c t f)).
Proof. exact (select_bounds_hold env i c t f Tb Fb). Qed.

(** ** The visit method *)

Section Visit.
Context {prover : Prover} (no_float_simplify : bool).

(** [Simplify::visit(const Select)], from the simplified operands on. *)
Definition visit_Select (condition true_value false_value : Expr) : M Step :=
  let e := Select condition true_value false_value in
  let t := type_of e in
  if may_simplify no_float_simplify t then apply_tables e select_done (select_again t) e
  else ret (Kept e).

(** The visit of a selection preserves its type and value. *)
Theorem visit_Select_correct p t f c st c' : wf (Select p t f) = true ->
  visit_Select p t f c = (st, c') -> correct_step c c' [] (Select p t f) st.
Proof.
  intros W. unfold visit_Select. cbv zeta. destruct (may_simplify _ _).
  - intros E. eapply (correct_tables [] _ (Select p t f)); [| | | |exact E]; auto with halide;
      [apply select_done_good|apply select_again_good].
  - intros [= <- _]. eapply correct_kept; eauto with halide.
Qed.
End Visit.

Lemma select_bounds_sound_witness : info_holds (select_bounds (mkInfo (0) (7) true true (mkMR 1 0)) (mkInfo (7) (9) true true (mkMR 1 0))) 7.
Proof.
  apply (select_bounds_sound sample_env 0 (bool_var "c") (int_var "x") (int_var "y") (mkInfo (0) (7) true true (mkMR 1 0)) (mkInfo (7) (9) true true (mkMR 1 0))); concrete.
Defined.

Lemma visit_Select_correct_witness :
  let st := fst (visit_Select (prover := literal_prover) false (UIntImm (BoolT 1) 1) (int_var "x") (int_var "y") no_counters) in
  step_expr st = int_var "x" /\ same_meaning sample_env 0 (Select (UIntImm (BoolT 1) 1) (int_var "x") (int_var "y")) (step_expr st).
Proof.
  split; [vm_compute; reflexivity|].
  unshelve eapply (visit_Select_correct (prover := literal_prover) false (UIntImm (BoolT 1) 1) (int_var "x") (int_var "y")
    no_counters _ _ eq_refl (surjective_pairing _)); concrete.
Defined.
