(* ===== verification/SimplifyCast.v ===== *)
(** * Casts

    The visit method of src/Simplify_Cast.cpp. *)

From Stdlib Require Import ZArith Lia Bool List String SpecFloat.
From S2P Require Import Prelude.
From S2P Require Import IntArith.
From S2P Require Import ModulusRemainder.
From S2P Require Import HalideTypes.
From S2P Require Import IR.
From S2P Require Import Typing.
From S2P Require Import IREquality.
From S2P Require Import IRMatch.
From S2P Require Import RuleSem.
From S2P Require Import MatchSound.
From S2P Require Import MakeSound.
From S2P Require Import Visit.
Import ListNotations.
Open Scope Z_scope.

(** [const_int], [const_uint] and [const_float] of src/Simplify.cpp match
    scalars only. *)
Definition const_int (e : Expr) : option Z :=
  if is_vector (type_of e) then None else as_const_int e.
Definition const_uint (e : Expr) : option Z :=
  if is_vector (type_of e) then None else as_const_uint e.
Definition const_float (e : Expr) : option spec_float :=
  if is_vector (type_of e) then None else as_const_float e.

Definition is_finite (f : spec_float) : bool :=
  match f with S754_zero _ | S754_finite _ _ _ => true | _ => false end.

(** [safe_numeric_cast] of src/Util.h: from double it saturates, except that
    the limit itself is converted by the language, where it does not fit. *)
Definition safe_cast_i64 (f : spec_float) : Z :=
  if SFltb f (f64_of_Z (min_int 64)) then min_int 64
  else if SFltb (f64_of_Z (max_int 64)) f then max_int 64
  else i64 (sf_to_Z f).

Definition safe_cast_u64 (f : spec_float) : Z :=
  if SFltb f (f64_of_Z 0) then 0
  else if SFltb (f64_of_Z (max_uint 64)) f then max_uint 64
  else u64 (sf_to_Z f).

Definition as_cast (e : Expr) : option (HType * Expr) :=
  match e with Cast t v => Some (t, v) | _ => None end.

(** The operand of a cast whose value is folded, when it is a scalar constant:
    [Simplify::visit] tries the destinations int, uint and float in this order
    for each kind of constant.  A cast to int is mutated again for its bounds. *)
Definition fold_cast (t : HType) (value : Expr) : option Step :=
  let int_make v := Resumed (IntImm_make t v) in
  let uint_make v := Kept (UIntImm_make t v) in
  let float_make f := Kept (FloatImm_make t f) in
  let finite := match const_float value with Some f => is_finite f | None => false end in
  match const_float value, const_int value, const_uint value with
  | Some f, _, _ =>
      if is_int t && finite then Some (int_make (safe_cast_i64 f))
      else if is_uint t && finite then Some (uint_make (safe_cast_u64 f))
      else if is_float t then Some (float_make f)
      else None
  | None, Some i, _ =>
      if is_int t then Some (int_make i)
      else if is_uint t then Some (uint_make (u64 i))
      else if is_float t then Some (float_make (f64_of_Z i))
      else None
  | None, None, Some u =>
      if is_int t then Some (int_make (i64 u))
      else if is_uint t then Some (uint_make u)
      else if is_float t then Some (float_make (f64_of_Z u))
      else None
  | None, None, None => None
  end.

(** A cast of a cast, of a broadcast or of a ramp. *)
Definition push_cast (t : HType) (value : Expr) : Step :=
  let vt := type_of value in
  match value with
  | Cast ct v =>
      if code_eqb (code t) (code ct) && (bits t <? bits ct) then Resumed (Cast t v)
      else if (is_int t || is_uint t) && (is_int ct || is_uint ct) &&
              (bits t <=? bits ct) && (bits t <=? bits vt)
      then Resumed (Cast t v)
      else Kept (Cast t value)
  | Broadcast v n => Resumed (Broadcast (Cast (element_of t) v) n)
  | Ramp b s n =>
      if type_eqb (element_of t) (Int 64 1) && type_eqb (element_of vt) (Int 32 1)
      then Resumed (Ramp (Cast (element_of t) b) (Cast (element_of t) s) n)
      else Kept (Cast t value)
  | _ => Kept (Cast t value)
  end.

Section Visit.
Context {prover : Prover} (no_float_simplify : bool).

(** [Simplify::visit(const Cast)], given the mutated operand. *)
Definition visit_Cast (t : HType) (value : Expr) : M Step :=
  if may_simplify no_float_simplify t && may_simplify no_float_simplify (type_of value) then
    match value with
    | ECall _ n _ ct _ =>
        if is_intrinsic n ct indeterminate_name
        then let! e := make_indeterminate_expression t in ret (Kept e)
        else if is_intrinsic n ct overflow_name
        then let! e := make_signed_integer_overflow t in ret (Kept e)
        else if type_eqb (type_of value) t then ret (Kept value)
        else ret (Kept (Cast t value))
    | _ =>
        if type_eqb (type_of value) t then ret (Kept value)
        else match fold_cast t value with
             | Some st => ret st
             | None => ret (push_cast t value)
             end
    end
  else ret (Kept (Cast t value)).
End Visit.

(** ** Casts of casts *)

Lemma cast_val_shift t v k : int_type t = true -> cast_val t (v + k * 2 ^ bits t) = cast_val t v.
Proof.
  intros I. pose proof (int_type_bits t I). unfold cast_val, int_type in *.
  destruct (code t); try discriminate; [apply wrap_s_shift|apply wrap_u_shift]; lia.
Qed.

Lemma cast_val_cong t v : int_type t = true -> exists k, cast_val t v = v + k * 2 ^ bits t.
Proof.
  intros I. pose proof (int_type_bits t I). unfold cast_val, int_type in *.
  destruct (code t); try discriminate; [apply wrap_s_cong|apply wrap_u_cong]; lia.
Qed.

(** A narrowing cast sees through a cast that is at least as wide. *)
Lemma cast_cast t ct v : int_type t = true -> int_type ct = true -> bits t <= bits ct ->
  cast_val t (cast_val ct v) = cast_val t v.
Proof.
  intros I Ic L. pose proof (int_type_bits t I). destruct (cast_val_cong ct v Ic) as [k ->].
  replace (2 ^ bits ct) with (2 ^ (bits ct - bits t) * 2 ^ bits t) by (rewrite <- Z.pow_add_r by lia; f_equal; lia).
  rewrite Z.mul_assoc. now apply cast_val_shift.
Qed.

Lemma cast_u64 t v : int_type t = true -> cast_val t (u64 v) = cast_val t v.
Proof. intros I. apply (cast_cast t (UInt 64 1)); auto. pose proof (int_type_bits t I). cbn. lia. Qed.

Lemma cast_i64 t v : int_type t = true -> cast_val t (i64 v) = cast_val t v.
Proof. intros I. apply (cast_cast t (Int 64 1)); auto. pose proof (int_type_bits t I). cbn. lia. Qed.

(** The constant a cast folds to. *)
Lemma fold_cast_const t value st : wf (Cast t value) = true -> fold_cast t value = Some st ->
  exists v, (forall env i, ev env i value = v) /\ exists w, cast_val t w = cast_val t v /\
  (st = Resumed (make_const_scalar t w) \/ st = Kept (make_const_scalar t w)) /\ is_scalar t = true.
Proof.
  intros W F. destruct (wf_cast _ _ W) as (Wv & I & L).
  assert (S : is_vector (type_of value) = false -> is_scalar t = true).
  { unfold is_vector, is_scalar. rewrite L. now intros ->%negb_false_iff. }
  unfold fold_cast, const_float, const_int, const_uint in F.
  destruct (is_vector (type_of value)) eqn:V; [discriminate|]. specialize (S eq_refl).
  assert (Ci : is_int t = true -> forall w, IntImm_make t w = make_const_scalar t w).
  { unfold is_int, make_const_scalar. now destruct (code t). }
  assert (Cu : is_uint t = true -> forall w, UIntImm_make t w = make_const_scalar t w).
  { unfold is_uint, make_const_scalar. now destruct (code t). }
  assert (Nf : is_float t = false) by (unfold is_float, int_type in *; now destruct (code t)).
  rewrite Nf in F.
  destruct value; cbn [as_const_float as_const_int as_const_uint] in F; try discriminate F; try discriminate Wv.
  - exists value. split; [reflexivity|]. destruct (is_int t) eqn:E.
    + injection F as <-. exists value. rewrite Ci by reflexivity. auto.
    + destruct (is_uint t) eqn:U; [|discriminate]. injection F as <-. exists (u64 value).
      rewrite Cu by reflexivity. rewrite cast_u64 by exact I. auto.
  - exists value. split; [reflexivity|]. destruct (is_int t) eqn:E.
    + injection F as <-. exists (i64 value). rewrite Ci by reflexivity. rewrite cast_i64 by exact I. auto.
    + destruct (is_uint t) eqn:U; [|discriminate]. injection F as <-. exists value.
      rewrite Cu by reflexivity. auto.
  - cbn in Wv, V. destr_and. unfold is_vector, vector_lanes in *. cbn in V. zify_bool. lia.
Qed.

Section Correct.
Context {prover : Prover} {c c' : Simplifier}.

Lemma kept_correct known exceptions e : wf e = true -> correct_when c c' known exceptions e (Kept e).
Proof. intros W. apply correct_early; auto. intros env i [O _] _ _. now split. Qed.

Lemma correct_when_step known e r : correct_when c c' known [] e (Kept r) -> correct_when c c' known [] e (Resumed r).
Proof. apply correct_resumed. Qed.

(** Another expression of the type and the value of the cast. *)
Lemma recast_correct t value r : wf (Cast t value) = true -> wf r = true -> type_of r = t ->
  (forall env i, defined env i (Cast t value) -> same_meaning env i (Cast t value) r) ->
  correct_step c c' [] (Cast t value) (Kept r).
Proof. intros W Wr Tr S. apply correct_early; auto. Qed.

Lemma push_cast_correct t value : wf (Cast t value) = true -> correct_step c c' [] (Cast t value) (push_cast t value).
Proof.
  intros W. destruct (wf_cast _ _ W) as (Wv & I & L). pose proof (kept_correct (fun _ _ => True) [] _ W) as K.
  unfold push_cast. destruct value as [| | | |ct v| | | | | | |b s n|v n| | |]; try exact K; clear K.
  - destruct (wf_cast _ _ Wv) as (Wi & Ic & Li). cbn [type_of] in *.
    assert (R : bits t <= bits ct -> correct_step c c' [] (Cast t (Cast ct v)) (Resumed (Cast t v))).
    { intros B. apply correct_resumed, recast_correct; auto.
      - cbn [wf]. rewrite Wi, I, L, Li, Z.eqb_refl. reflexivity.
      - intros env i [O _]. split; [exact O|]. cbn [ev]. symmetry. now apply cast_cast. }
    destruct (code_eqb (code t) (code ct) && (bits t <? bits ct)) eqn:C1; [apply R; zify_bool; lia|].
    destruct (_ && _ && _ && _) eqn:C2; [apply R; zify_bool; lia|]. now apply kept_correct.
  - case_goal; [|now apply kept_correct]. apply andb_true_iff in Heqb0. destruct Heqb0 as [E1 E2].
    apply type_eqb_eq in E1, E2. cbn [wf type_of] in Wv, L, E2. destr_and.
    assert (Tb : type_of b = Int 32 1).
    { rewrite <- E2, element_of_with. symmetry. now apply scalar_element. }
    assert (Ts : type_of s = Int 32 1) by (rewrite <- Tb; now apply type_eqb_eq).
    apply correct_resumed, recast_correct; auto.
    + rewrite E1. cbn -[vector_lanes]. rewrite H, H4, Tb, Ts, H1. reflexivity.
    + cbn [type_of]. now apply with_lanes_eta.
    + intros env i [O F]. split; [exact O|]. cbn [ev type_of]. rewrite E1, Tb.
      cbn [fits ev type_of] in F. destruct F as (_ & Fr & Fb & Fs).
      apply fits_in_type in Fb, Fs. rewrite Tb in *. rewrite Ts in Fs.
      assert (Wide : forall x, in_type (Int 32 1) x -> cast_val (Int 64 1) x = x).
      { intros x X. apply cast_val_id; [reflexivity|]. unfold in_type in *. cbn in *. lia. }
      rewrite !Wide by assumption. rewrite !norm_no_overflow by reflexivity.
      symmetry. rewrite norm_no_overflow in Fr by reflexivity.
      rewrite <- (cast_val_elt (element_of t)) by apply same_elt_element. rewrite E1. apply Wide.
      now apply in_type_elt with (with_lanes (Int 32 1) n).
  - cbn [wf type_of] in Wv, L. destr_and.
    assert (Wc : wf (Cast (element_of t) v) = true).
    { cbn [wf]. unfold element_of, is_scalar in *. rewrite H, int_type_with, I. cbn [andb with_lanes lanes].
      zify_bool. apply Z.eqb_eq. lia. }
    apply correct_resumed, recast_correct; auto.
    + cbn [wf] in Wc |- *. rewrite Wc. cbn. assumption.
    + cbn [type_of]. now apply with_lanes_eta.
    + intros env i [O F]. split; [exact O|]. cbn [ev]. apply cast_val_elt, same_elt_element.
Qed.
End Correct.

Section VisitCast.
Context {prover : Prover} (no_float_simplify : bool).

Lemma const_kept t value w c c' : wf (Cast t value) = true -> is_scalar t = true ->
  (forall env i, cast_val t w = ev env i (Cast t value)) ->
  correct_step c c' [] (Cast t value) (Kept (make_const_scalar t w)).
Proof.
  intros W S V. destruct (make_const_scalar_spec t w (wf_wf_type _ W) S) as [Wc Tc Ec Oc _].
  apply recast_correct; auto. intros env i _. split; [apply Oc|]. now rewrite Ec, (V env i).
Qed.

Lemma same_type_kept t value c c' : wf (Cast t value) = true -> type_of value = t ->
  correct_step c c' [] (Cast t value) (Kept value).
Proof.
  intros W T. destruct (wf_cast _ _ W) as (Wv & I & _). apply recast_correct; auto.
  intros env i [O [_ F]]. split; [exact O|]. cbn [ev]. symmetry. apply cast_val_id; [exact I|].
  rewrite <- T. now apply fits_in_type.
Qed.

Lemma visit_Cast_step t value c st c' : wf (Cast t value) = true ->
  visit_Cast no_float_simplify t value c = (st, c') -> correct_step c c' [] (Cast t value) st.
Proof.
  intros W E. pose proof (wf_wf_type _ W) as T. cbn [type_of] in T. unfold visit_Cast, ret in E.
  destruct (may_simplify _ t && may_simplify _ (type_of value)); [|injection E as <- _; now apply kept_correct].
  assert (G : forall st, (if type_eqb (type_of value) t then Kept value
      else match fold_cast t value with Some st => st | None => push_cast t value end) = st ->
    correct_step c c' [] (Cast t value) st).
  { intros st' <-. destruct (type_eqb (type_of value) t) eqn:Q; [apply same_type_kept; [exact W|now apply type_eqb_eq]|].
    destruct (fold_cast t value) as [s|] eqn:F; [|now apply push_cast_correct].
    destruct (fold_cast_const t value s W F) as (v & V & w & Cw & St & S).
    assert (C : correct_step c c' [] (Cast t value) (Kept (make_const_scalar t w))).
    { apply const_kept; auto. intros env i. cbn [ev]. now rewrite V. }
    destruct St as [-> | ->]; [now apply correct_resumed|exact C]. }
  destruct value; try (apply G; revert E; repeat case_goal; congruence).
  assert (P : is_poison name ct = true -> forall e, wf e = true -> type_of e = t ->
    correct_step c c' [] (Cast t (ECall t0 name args ct value_index)) (Kept e)).
  { intros Po e We Te. apply recast_correct; auto. intros env i [[O _] _]. congruence. }
  destruct (is_intrinsic name ct indeterminate_name) eqn:P1.
  - destruct (make_poison_ok true t c T) as (e & c1 & Ee & We & Te). rewrite Ee in E.
    injection E as <- _. apply P; [unfold is_poison; now rewrite P1|exact We|exact Te].
  - destruct (is_intrinsic name ct overflow_name) eqn:P2.
    + destruct (make_poison_ok false t c T) as (e & c1 & Ee & We & Te). rewrite Ee in E.
      injection E as <- _. apply P; [unfold is_poison; now rewrite P2, orb_true_r|exact We|exact Te].
    + destruct (type_eqb (type_of _) t) eqn:Q; injection E as <- _; [|now apply kept_correct].
      apply same_type_kept; [exact W|now apply type_eqb_eq].
Qed.

(** C22: The visit of a cast ends with a well-formed
    expression of its type and, where the operand it got stands for the operand
    of the node, of its value: folded constants, casts that narrow casts, and
    casts moved into broadcasts and ramps. *)
Theorem visit_Cast_correct t op_value value c st c' :
  wf (Cast t op_value) = true -> wf value = true -> type_of value = type_of op_value ->
  visit_Cast no_float_simplify t value c = (st, c') ->
  correct_when c c' (simplified op_value value) [] (Cast t op_value) st.
Proof.
  intros W Wv Tv E. destruct (wf_cast _ _ W) as (_ & I & L).
  assert (W' : wf (Cast t value) = true).
  { cbn [wf]. rewrite Wv, I, Tv. now apply Z.eqb_eq. }
  apply (correct_transfer _ _ _ (Cast t value)); [reflexivity| |].
  - intros env i [O [F _]] [[Ov Fv] V]. cbn [ev] in F |- *. split; [split|now rewrite V]; [exact Ov|].
    split; [|exact Fv]. cbn [ev]. now rewrite V.
  - apply correct_step_when. exact (visit_Cast_step t value c st c' W' E).
Qed.
End VisitCast.

(** [int8(int16(x))] is [int8(x)]; with [x = 300] both are 44. *)
Lemma visit_Cast_correct_witness :
  let x := int_var "x" in let e := Cast (Int 8 1) (Cast (Int 16 1) x) in
  let env := mkEnv (fun _ _ => 300) (fun _ _ => 0) (fun _ _ _ _ => 0) in
  match visit_Cast (prover := literal_prover) false (Int 8 1) (Cast (Int 16 1) x) no_counters with
  | (Resumed e', _) => e' = Cast (Int 8 1) x /\ ev env 0 e' = ev env 0 e
  | _ => False
  end.
Proof.
  cbv zeta. split; [reflexivity|].
  apply (visit_Cast_correct (prover := literal_prover) false (Int 8 1) (Cast (Int 16 1) (int_var "x"))
    (Cast (Int 16 1) (int_var "x")) no_counters _ no_counters eq_refl eq_refl eq_refl eq_refl);
    concrete; unfold in_type; cbn; vm_compute; intuition congruence.
Defined.
