(* ===== verification/SimplifyExprs.v ===== *)
(** * Leaves, variables, ramps and loads

    The visit methods of src/Simplify_Exprs.cpp. *)

From Stdlib Require Import ZArith Lia Bool List String SpecFloat.
From S2P Require Import Prelude.
From S2P Require Import IntArith.
From S2P Require Import Euclid.
From S2P Require Import ModulusRemainder.
From S2P Require Import Scope.
From S2P Require Import HalideTypes.
From S2P Require Import IR.
From S2P Require Import Typing.
From S2P Require Import IREquality.
From S2P Require Import IRMatch.
From S2P Require Import RuleSem.
From S2P Require Import RuleTac.
From S2P Require Import MatchSound.
From S2P Require Import FoldSound.
From S2P Require Import MakeSound.
From S2P Require Import RuleSound.
From S2P Require Import Visit.
From S2P Require Import TableTac.
From S2P Require Import ExprInfo.
From S2P Require Import ScopedFact.
Import ListNotations.
Open Scope string_scope.
Open Scope list_scope.
Open Scope Z_scope.

(** ** Immediates *)

(** The bounds [visit(const IntImm)] and [visit(const UIntImm)] report; the
    nodes are returned as they are, and a float or a string reports nothing. *)
Definition imm_bounds (e : Expr) : ExprInfo :=
  match e with
  | IntImm t v => if no_overflow_int t then mkInfo v v true true (mkMR 0 v) else no_info
  | UIntImm _ v =>
      if can_represent_u64 (Int 64 1) v then mkInfo (i64 v) (i64 v) true true (mkMR 0 (i64 v)) else no_info
  | _ => no_info
  end.

(** ** Variables *)

(** What a visit of a variable ends with, and the state with its uses counted. *)
Definition count_use (f : VarInfo -> VarInfo) (n : string) (s : SimplifyState) : option SimplifyState :=
  match modify (var_info s) n f with
  | Some v => Some (mkState v (bounds_and_alignment_info s) (facts s))
  | None => None
  end.

Definition use_old (x : VarInfo) : VarInfo := mkVarInfo (replacement x) (old_uses x + 1) (new_uses x).
Definition use_new (x : VarInfo) : VarInfo := mkVarInfo (replacement x) (old_uses x) (new_uses x + 1).

(** The bounds a visit of a variable reports, unless a replacement is mutated. *)
Definition variable_bounds (n : string) (s : SimplifyState) : ExprInfo :=
  if contains (bounds_and_alignment_info s) n
  then match get (bounds_and_alignment_info s) n with Some b => b | None => no_info end
  else no_info.

(** [Simplify::visit(const Variable)]; [None] is an internal error. *)
Definition visit_Variable (t : HType) (n : string) (s : SimplifyState) : option (Step * SimplifyState) :=
  let b := variable_bounds n s in
  if min_defined b && max_defined b && (info_min b =? info_max b)
  then Some (Kept (make_const t (info_min b)), s)
  else if contains (var_info s) n then
    match ref (var_info s) n with
    | None => None
    | Some info =>
        match replacement info with
        | Some r =>
            if type_eqb (type_of r) t then
              match count_use use_new n s with Some s' => Some (Resumed r, s') | None => None end
            else None
        | None =>
            match count_use use_old n s with
            | Some s' => Some (Kept (EVariable t n), s')
            | None => None
            end
        end
    end
  else Some (Kept (EVariable t n), s).

(** ** Ramps *)

Definition ramp_bounds (t : HType) (base stride : ExprInfo) : ExprInfo :=
  if no_overflow_int t then
    let m := gcd (modulus (info_alignment stride)) (remainder (info_alignment stride)) in
    let m := gcd m (modulus (info_alignment base)) in
    let r := remainder (info_alignment base) in
    mkInfo (Z.min (info_min base) (i64 (info_min base + i64 ((lanes t - 1) * info_min stride))))
           (Z.max (info_max base) (i64 (info_max base + i64 ((lanes t - 1) * info_max stride))))
           (min_defined base && min_defined stride) (max_defined base && max_defined stride)
           (mkMR m (if m =? 0 then r else mod_imp r m))
  else no_info.

Definition ramp_done (n : Z) : list Rule :=
  [ mkRule (PRamp (PWild 0) (PLit 0) (Some n)) (PBroadcast (PWild 0) (Some n)) None ].

Section Visit.
Context {prover : Prover}.

(** [Simplify::visit(const Ramp)], given the mutated operands. *)
Definition visit_Ramp (base stride : Expr) (n : Z) : M Step :=
  let e := Ramp base stride n in
  apply_tables e (ramp_done n) [] e.
End Visit.

(** ** Loads *)

(** [found_buffer_reference] without dimensions. *)
Definition found_buffer_reference (n : string) (s : SimplifyState) : option SimplifyState :=
  if contains (var_info s) n then count_use use_old n s else Some s.

Definition undef (t : HType) : Expr := ECall t "undef" [] PureIntrinsic 0.

(** [Simplify::visit(const Load)], given the mutated predicate and index, with
    the alignments of the index and of the base of a ramp it may be. *)
Definition visit_Load (t : HType) (n : string) (predicate index : Expr)
    (index_align base_align op_align : ModulusRemainder) : Step :=
  let base_align := match index with Ramp _ _ _ => base_align | _ => mr_top end in
  let align := intersect op_align (intersect base_align index_align) in
  if is_zero predicate then Kept (undef t)
  else match index, predicate with
       | Broadcast i w, Broadcast p _ => Kept (Broadcast (Load (element_of t) n p i align) w)
       | _, _ => Kept (Load t n predicate index align)
       end.

(** ** The visit of a variable *)

Lemma variable_bounds_known ty env i s n : state_known ty env i s ->
  info_holds (variable_bounds n s) (value ty env i n).
Proof.
  intros K. unfold variable_bounds. destruct (contains _ n); [|apply no_info_holds].
  destruct (get _ n) as [b|] eqn:G; [|apply no_info_holds]. apply (known_bounds ty env i s K n b G).
Qed.

(** Counting a use changes no replacement. *)
Lemma count_use_known ty env i f n s s' : (forall v, replacement (f v) = replacement v) ->
  state_known ty env i s -> count_use f n s = Some s' -> state_known ty env i s'.
Proof.
  intros Rf [V B F]. unfold count_use. destruct (ref (var_info s) n) as [v|] eqn:R; [|now rewrite modify_none].
  destruct (modify_some (var_info s) n f v R) as (m & -> & G & Go). intros [= <-].
  apply get_ref in R. split; cbn [var_info bounds_and_alignment_info facts]; auto.
  intros k info r. destruct (String.eqb_spec k n) as [->|N].
  - rewrite G. intros [= <-]. rewrite Rf. intros E. now apply (V n v).
  - rewrite Go by exact N. apply V.
Qed.

Lemma count_use_some f n s v : ref (var_info s) n = Some v -> exists s', count_use f n s = Some s'.
Proof.
  intros R. unfold count_use. destruct (modify_some (var_info s) n f v R) as (m & -> & _). eauto.
Qed.

Ltac conjuncts := repeat match goal with |- _ /\ _ => split end.



(** ** The visit of an immediate *)

Lemma imm_bounds_known env i e : wf e = true -> info_holds (imm_bounds e) (ev env i e).
Proof.
  destruct e; intros W; try apply no_info_holds; cbn [imm_bounds ev].
  - destruct (no_overflow_int t); [apply info_holds_const|apply no_info_holds].
  - destruct (can_represent_u64 (Int 64 1) value) eqn:C; [|apply no_info_holds].
    cbn [wf] in W. destr_and. rewrite in_typeb_spec in *. unfold in_type, tmin in *.
    replace (is_int t) with false in * by (unfold is_int, is_uint in *; destruct (code t); easy).
    change (can_represent_u64 (Int 64 1) value) with (value <=? 2 ^ 63 - 1) in C. zify_bool. rewrite i64_id by lia. apply info_holds_const.
Qed.

(** ** The visit of a ramp *)

Lemma ramp_done_good l (T : HType) n : good_tables l T T (ramp_done n).
Proof. unfold ramp_done. plain_group. Qed.

(** What is known of base and stride of a ramp of [n] lanes, without wrapping. *)
Record ramp_room (n : Z) (B S : ExprInfo) : Prop := {
  ramp_min : min_defined B && min_defined S = true ->
    in_int 62 (info_min B) /\ in_int 62 ((n - 1) * info_min S);
  ramp_max : max_defined B && max_defined S = true ->
    in_int 62 (info_max B) /\ in_int 62 ((n - 1) * info_max S)
}.

Lemma i64_of_62 v : in_int 62 v -> i64 v = v.
Proof. unfold in_int. cbn. intros. apply i64_id. lia. Qed.

(** The lanes of a ramp have the alignment reported. *)
Lemma ramp_aligned B S b s i : b ∈ᵐ B -> s ∈ᵐ S ->
  let m := gcd (gcd (modulus S) (remainder S)) (modulus B) in
  (b + i * s) ∈ᵐ mkMR m (if m =? 0 then remainder B else mod_imp (remainder B) m).
Proof.
  intros Hb Hs m. fold (mod0 (remainder B) m). apply mr_contains_reduce.
  assert (Mg : (m | gcd (modulus S) (remainder S))) by apply gcd_divide_l.
  assert (Ms : (m | modulus S)) by (eapply Z.divide_trans; [exact Mg|apply gcd_divide_l]).
  assert (Mr : (m | remainder S)) by (eapply Z.divide_trans; [exact Mg|apply gcd_divide_r]).
  assert (Mb : (m | modulus B)) by apply gcd_divide_r.
  pose proof (mr_weaken _ _ _ Mb Hb) as D1. pose proof (mr_weaken _ _ _ Ms Hs) as D2.
  replace (b + i * s - remainder B) with ((b - remainder B) + i * ((s - remainder S) + remainder S)) by ring.
  apply Z.divide_add_r; [exact D1|]. apply Z.divide_mul_r. now apply Z.divide_add_r.
Qed.

Lemma ramp_bounds_hold env i base stride n B S : wf (Ramp base stride n) = true ->
  0 <= i < n -> ramp_room n B S -> operands_known B S base stride env i ->
  info_holds (ramp_bounds (type_of (Ramp base stride n)) B S) (ev env i (Ramp base stride n)).
Proof.
  intros W I [Rmin Rmax] [[Bmin Bmax Ba] [Smin Smax Sa]]. unfold ramp_bounds.
  destruct (no_overflow_int _) eqn:No; [|apply no_info_holds].
  change (no_overflow_int (type_of base) = true) in No. cbn [ev type_of]. rewrite norm_no_overflow by exact No.
  set (b := ev env i base) in *. set (s := ev env i stride) in *. clearbody b s.
  cbv zeta. change (lanes (with_lanes (type_of base) n)) with n. split; cbn [info_min info_max min_defined max_defined info_alignment].
  - intros D. destruct (Rmin D) as [R1 R2]. apply andb_true_iff in D. destruct D as [D1 D2]. specialize (Bmin D1). specialize (Smin D2).
    rewrite (i64_of_62 _ R2). destruct (i64_add _ _ R1 R2) as [-> _].
    destruct (Z.le_gt_cases 0 (info_min S)); [apply Z.le_trans with (info_min B); [apply Z.le_min_l|nia]|].
    apply Z.le_trans with (info_min B + (n - 1) * info_min S); [apply Z.le_min_r|nia].
  - intros D. destruct (Rmax D) as [R1 R2]. apply andb_true_iff in D. destruct D as [D1 D2]. specialize (Bmax D1). specialize (Smax D2).
    rewrite (i64_of_62 _ R2). destruct (i64_add _ _ R1 R2) as [-> _].
    destruct (Z.le_gt_cases (info_max S) 0); [apply Z.le_trans with (info_max B); [nia|apply Z.le_max_l]|].
    apply Z.le_trans with (info_max B + (n - 1) * info_max S); [nia|apply Z.le_max_r].
  - now apply ramp_aligned.
Qed.

(** What the visit of a ramp reports holds in every
    lane: the interval between its ends, and its alignment. *)
Theorem ramp_bounds_sound env i base stride n B S : wf (Ramp base stride n) = true ->
  0 <= i < n -> ramp_room n B S -> operands_known B S base stride env i ->
  info_holds (ramp_bounds (type_of (Ramp base stride n)) B S) (ev env i (Ramp base stride n)).
Proof. exact (ramp_bounds_hold env i base stride n B S). Qed.

Lemma ramp_bounds_sound_witness :
  let e := Ramp (int_var "x") (int_imm 4) 8 in
  info_holds (ramp_bounds (Int 32 8) (mkInfo 0 10 true true mr_top) (mkInfo 4 4 true true (mkMR 0 4))) (ev sample_env 3 e).
Proof.
  cbv zeta. apply (ramp_bounds_sound sample_env 3 (int_var "x") (int_imm 4) 8); try reflexivity; try lia.
  - split; cbn; unfold in_int; cbn; lia.
  - split; split; cbn; try discriminate; try (intros; vm_compute; congruence); apply mr_contains_eval; vm_compute; reflexivity.
Defined.

Section VisitRamp.
Context {prover : Prover}.

Lemma visit_Ramp_step base stride n c st c' : wf (Ramp base stride n) = true ->
  visit_Ramp base stride n c = (st, c') -> correct_step c c' [] (Ramp base stride n) st.
Proof.
  intros W E. unfold visit_Ramp in E. eapply (correct_tables [] _ (Ramp base stride n)); [| | | |exact E]; auto with halide.
  - exact (ramp_done_good [] _ n).
  - split; constructor.
Qed.

(** Where the predicate is false no value is loaded. *)
Definition load_known (p op_p idx op_idx : Expr) (env : Env) (i : Z) : Prop :=
  masks_keep_zero env /\ ev env i p <> 0 /\ simplified op_p p env i /\ simplified op_idx idx env i.

Lemma visit_Load_step t n p idx ia ba oa known c c' : wf (Load t n p idx oa) = true ->
  (forall env i, known env i -> masks_keep_zero env /\ ev env i p <> 0) ->
  correct_when c c' known [] (Load t n p idx oa) (visit_Load t n p idx ia ba oa).
Proof.
  intros W K. unfold visit_Load. cbv zeta.
  set (base_align := match idx with Ramp _ _ _ => ba | _ => mr_top end). set (al := intersect oa _). clearbody al base_align.
  destruct (wf_load _ _ _ _ _ W) as (Wp & Wi & Li & Lp).
  assert (G : correct_when c c' known [] (Load t n p idx oa) (Kept (Load t n p idx al))).
  { apply correct_early; auto. intros env i [O _] _ _. now split. }
  destruct (is_zero p) eqn:Z0.
  { apply correct_early; [|reflexivity|].
    - cbn [wf] in W. destr_and. cbn. rewrite H2, H3. reflexivity.
    - intros env i _ _ H. destruct (K env i H) as [M N].
      destruct N. now apply is_zero_value. }
  destruct idx as [| | | | | | | | | | | |iv w| | |]; try exact G. destruct p as [| | | | | | | | | | | |pv w'| | |]; try exact G.
  clear G K. assert (Ew : w = lanes t) by exact (eq_sym Li). subst w. clear Li Lp. cbn [wf] in Wp, Wi, W. destr_and.
  apply correct_early.
  - cbn [wf type_of]. unfold element_of. rewrite int_type_with, H9, H10, H5, H11. unfold is_scalar in *.
    cbn. zify_bool. rewrite H12, H14. reflexivity.
  - cbn [type_of]. now apply with_lanes_eta.
  - intros env i [O _] _ _. split; [exact O|]. cbn [ev type_of].
    now rewrite (cast_val_elt _ _ (same_elt_element t)).
Qed.

(** The visit of a ramp ends with a well-formed
    expression of its type and value: a broadcast when the stride is zero. *)
Theorem visit_Ramp_correct op_base op_stride base stride n c st c' :
  wf (Ramp op_base op_stride n) = true -> wf base = true -> wf stride = true ->
  type_of base = type_of op_base -> type_of stride = type_of op_stride ->
  visit_Ramp base stride n c = (st, c') ->
  correct_when c c' (fun env i => simplified op_base base env i /\ simplified op_stride stride env i) []
    (Ramp op_base op_stride n) st.
Proof.
  intros W Wb Ws Tb Ts E.
  assert (W' : wf (Ramp base stride n) = true).
  { cbn [wf] in *. rewrite Wb, Ws, Tb, Ts. destr_and. rewrite H3, H2, H1. exact H0. }
  apply (correct_transfer _ _ _ (Ramp base stride n)); [cbn; now rewrite Tb| |].
  - intros env i [_ [F _]] [[[Ob Fb] Vb] [[Os Fs] Vs]]. cbn [ev type_of] in *.
    assert (V : norm (type_of base) (ev env i base + i * ev env i stride) =
      norm (type_of op_base) (ev env i op_base + i * ev env i op_stride)) by now rewrite Tb, Vb, Vs.
    split; [|exact V]. split; [now split|]. cbn [fits ev type_of]. rewrite V, Tb. now split.
  - apply correct_step_when. exact (visit_Ramp_step base stride n c st c' W' E).
Qed.

(** The visit of a load ends with a well-formed
    expression of its type, and of its value where its predicate is true: the
    load of a broadcast index is the broadcast of a scalar load, whatever
    alignments are found. *)
Theorem visit_Load_correct t n op_p op_idx p idx ia ba oa c c' :
  wf (Load t n op_p op_idx oa) = true -> wf p = true -> wf idx = true ->
  type_of p = type_of op_p -> type_of idx = type_of op_idx ->
  correct_when c c' (load_known p op_p idx op_idx) [] (Load t n op_p op_idx oa) (visit_Load t n p idx ia ba oa).
Proof.
  intros W Wp Wi Tp Ti.
  assert (W' : wf (Load t n p idx oa) = true).
  { cbn [wf] in *. rewrite Wp, Wi, Tp, Ti. destr_and. rewrite H2, H3, H1. exact H0. }
  apply (correct_transfer _ _ _ (Load t n p idx oa)); [reflexivity| |].
  - intros env i [_ [F _]] (_ & _ & _ & [Oi Fi] & Vi). cbn [ev type_of] in *.
    assert (V : cast_val t (mem env n (ev env i idx)) = cast_val t (mem env n (ev env i op_idx))) by now rewrite Vi.
    split; [|exact V]. split; [exact Oi|]. cbn [fits ev type_of]. rewrite V. now split.
  - apply visit_Load_step; [exact W'|]. intros env i (M & N & _). now split.
Qed.
End VisitRamp.

Lemma visit_Ramp_correct_witness :
  let st := fst (visit_Ramp (prover := literal_prover) (int_var "x") (int_imm 0) 4 no_counters) in
  step_expr st = Broadcast (int_var "x") 4 /\
  same_meaning sample_env 2 (Ramp (int_var "x") (int_imm 0) 4) (step_expr st).
Proof.
  split; [vm_compute; reflexivity|].
  unshelve eapply (visit_Ramp_correct (prover := literal_prover) (int_var "x") (int_imm 0) (int_var "x") (int_imm 0) 4
    no_counters _ _ eq_refl eq_refl eq_refl eq_refl eq_refl (surjective_pairing _)); concrete;
    try (right; vm_compute; intuition congruence); unfold simplified, defined; concrete.
Defined.

Lemma visit_Load_correct_witness :
  let p := Broadcast (UIntImm (BoolT 1) 1) 4 in let idx := Broadcast (int_var "i") 4 in
  let st := visit_Load (Int 32 4) "f" p idx mr_top mr_top mr_top in
  step_expr st = Broadcast (Load (Int 32 1) "f" (UIntImm (BoolT 1) 1) (int_var "i") mr_top) 4 /\
  same_meaning sample_env 2 (Load (Int 32 4) "f" p idx mr_top) (step_expr st).
Proof.
  cbv zeta. split; [vm_compute; reflexivity|].
  unshelve eapply (visit_Load_correct (prover := literal_prover) (Int 32 4) "f" (Broadcast (UIntImm (BoolT 1) 1) 4)
    (Broadcast (int_var "i") 4) (Broadcast (UIntImm (BoolT 1) 1) 4)
    (Broadcast (int_var "i") 4) mr_top mr_top mr_top no_counters no_counters eq_refl eq_refl eq_refl eq_refl eq_refl);
    try (right; vm_compute; intuition congruence); unfold load_known, simplified, defined, masks_keep_zero; concrete.
Defined.
