(* ===== verification/SimplifyRun.v ===== *)
(** * Runs of the simplifier

    The state of a [Simplify] object (src/Simplify_Internal.h) while it runs,
    and what its [mutate] promises.  Besides what the simplifier knows and its
    flags, the state has the counters of poison expressions, whether an internal
    error was raised, and a trace: the steps the visit methods took, which the
    promise about values refers to. *)

From Stdlib Require Import ZArith Lia Bool List String.
From S2P Require Import Prelude.
From S2P Require Import IntArith.
From S2P Require Import ModulusRemainder.
From S2P Require Import Scope.
From S2P Require Import HalideTypes.
From S2P Require Import IR.
From S2P Require Import Typing.
From S2P Require Import IREquality.
From S2P Require Import IRMatch.
From S2P Require Import RuleSem.
From S2P Require Import MatchSound.
From S2P Require Import FoldSound.
From S2P Require Import MakeSound.
From S2P Require Import RuleSound.
From S2P Require Import Visit.
From S2P Require Import Mutator.
From S2P Require Import ExprInfo.
From S2P Require Import ScopedFact.
From S2P Require Import Intrinsics.
From S2P Require Import SimplifyMul.
From S2P Require Import SimplifyDiv.
From S2P Require Import SimplifyExprs.
Import ListNotations.
Open Scope string_scope.
Open Scope list_scope.
Open Scope Z_scope.

(** ** State *)

(** How bounds of operands are combined. *)
Inductive Combination :=
| Summed | Multiplied (before : ExprInfo) | Divided | Ramped (n : Z) | Subtracted | Shuffled.

(** An expression made to be simplified, a visit of [e] that ended in a step,
    bounds of operands that were put together, a name given to an expression, a
    lane taken from a vector of [n] lanes, and ramps of a type that are interleaved. *)
Inductive Event :=
| Met (e : Expr)
| Stepped (e : Expr) (exceptions : list Rule) (st : Step)
| Combined (k : Combination) (A B : ExprInfo)
| Named (name : string) (e : Expr)
| Extracted (lane n : Z)
| Interleaved (t : HType).

Record Run := mkRun {
  counters : Counters;
  knowledge : SimplifyState;
  no_float_simplify : bool;
  remove_dead_lets : bool;
  failed : bool;
  trace : list Event
}.

(** Computations of the simplifier. *)
Definition R (A : Type) : Type := Run -> A * Run.
Definition done {A} (a : A) : R A := fun s => (a, s).

Definition set_counters (c : Counters) (s : Run) : Run :=
  mkRun c (knowledge s) (no_float_simplify s) (remove_dead_lets s) (failed s) (trace s).
Definition set_knowledge (k : SimplifyState) (s : Run) : Run :=
  mkRun (counters s) k (no_float_simplify s) (remove_dead_lets s) (failed s) (trace s).
Definition set_no_float (b : bool) (s : Run) : Run :=
  mkRun (counters s) (knowledge s) b (remove_dead_lets s) (failed s) (trace s).

(** An internal error; the run goes on, but its result is void. *)
Definition fail {A} (a : A) : R A := fun s =>
  (a, mkRun (counters s) (knowledge s) (no_float_simplify s) (remove_dead_lets s) true (trace s)).

Definition note (e : Event) : R unit := fun s =>
  (tt, mkRun (counters s) (knowledge s) (no_float_simplify s) (remove_dead_lets s) (failed s) (e :: trace s)).

(** The [ExprInfo *bounds] of [mutate] points to what is known so far, or is null. *)
Definition Result : Type := (Expr * option ExprInfo)%type.
Definition Mutate : Type := Expr -> option ExprInfo -> R Result.

Definition state0 : SimplifyState := mkState empty_scope empty_scope (mkFacts [] []).

(** The state a simplifier starts with. *)
Definition start (dead_lets : bool) : Run := mkRun (mkCounters 0 0) state0 false dead_lets false [].

Section Driver.
Context (mutate : Mutate).

(** [mutate] of an operand, with bounds of its own and without. *)
Definition mutate_info (e : Expr) : R (Expr * ExprInfo) :=
  let! '(e', b) := mutate e (Some no_info) in
  done (e', match b with Some x => x | None => no_info end).

Definition mutate_only (e : Expr) : R Expr := let! '(e', _) := mutate e None in done e'.

(** The simplifier as the rewriters see it: [can_prove] mutates its argument. *)
#[local] Instance run_prover : Prover := {|
  Simplifier := Run;
  next_indeterminate s :=
    (n_indeterminate (counters s),
     set_counters (mkCounters (n_indeterminate (counters s) + 1) (n_overflow (counters s))) s);
  next_overflow s :=
    (n_overflow (counters s),
     set_counters (mkCounters (n_indeterminate (counters s)) (n_overflow (counters s) + 1)) s);
  prove e := let! _ := note (Met e) in mutate_only e
|}.

(** How a visit of [e] ends: the result of a step is returned or mutated again. *)
Definition finish (e : Expr) (exceptions : list Rule) (st : Step) (bounds : option ExprInfo) : R Result :=
  let! _ := note (Stepped e exceptions st) in
  match st with
  | Returned _ _ _ r | Kept r => done (r, bounds)
  | Mutated _ _ _ r | Resumed r => mutate r bounds
  end.

(** [if (bounds && test) *bounds = ...]; what is put there may depend on what
    is known so far. *)
Definition report (test : bool) (k : ExprInfo -> Combination) (A B : ExprInfo)
    (f : ExprInfo -> ExprInfo) (bounds : option ExprInfo) : R (option ExprInfo) :=
  match bounds with
  | Some x => if test then let! _ := note (Combined (k x) A B) in done (Some (f x)) else done bounds
  | None => done None
  end.
End Driver.

(** ** What the steps of a run leave alone *)

(** What the simplifier knows, the uses it counted apart. *)
Record View := mkView {
  seen_vars : Scope (option Expr);
  seen_bounds : Scope ExprInfo;
  seen_facts : Facts;
  seen_no_float : bool;
  seen_dead_lets : bool
}.

Definition view (s : Run) : View :=
  mkView (map_scope replacement (var_info (knowledge s))) (bounds_and_alignment_info (knowledge s))
    (facts (knowledge s)) (no_float_simplify s) (remove_dead_lets s).

Definition view_ok (v : View) : Prop := scope_ok (seen_vars v) /\ scope_ok (seen_bounds v).

(** From [s] to [s'] the trace grows, errors are kept, and what is known is the same. *)
Record frame (s s' : Run) : Prop := {
  frame_trace : exists l, trace s' = l ++ trace s;
  frame_failed : failed s = true -> failed s' = true;
  frame_view : view_ok (view s) -> view s' = view s
}.

Lemma frame_refl s : frame s s.
Proof. split; auto. now exists []. Qed.

Lemma frame_trans s1 s2 s3 : frame s1 s2 -> frame s2 s3 -> frame s1 s3.
Proof.
  intros [[l1 T1] F1 V1] [[l2 T2] F2 V2]. split; auto.
  - exists (l2 ++ l1). now rewrite T2, T1, app_assoc.
  - intros O. rewrite V2, V1; auto. now rewrite V1.
Qed.

(** A computation all of whose runs are such. *)
Definition framed {A} (m : R A) : Prop := forall s a s', m s = (a, s') -> frame s s'.

Lemma framed_done {A} (a : A) : framed (done a).
Proof. intros s b s' [= _ <-]. apply frame_refl. Qed.

Lemma framed_bind {A B} (m : R A) (k : A -> R B) : framed m -> (forall a, framed (k a)) ->
  framed (let! a := m in k a).
Proof.
  intros Hm Hk s b s'. destruct (m s) as [a s1] eqn:E. intros E2.
  exact (frame_trans _ _ _ (Hm _ _ _ E) (Hk _ _ _ _ E2)).
Qed.

Lemma framed_note e : framed (note e).
Proof. intros s b s' [= _ <-]. split; auto. now exists [e]. Qed.

Lemma framed_fail {A} (a : A) : framed (fail a).
Proof. intros s b s' [= _ <-]. split; auto. now exists []. Qed.

#[export] Hint Resolve framed_done framed_note framed_fail : halide.

(** Steps of a framed computation, one after the other. *)
Ltac framed_steps := repeat first
  [ apply framed_done | apply framed_note | apply framed_fail | assumption
  | apply framed_bind; [|intros] | progress intros | case_goal ].

(** ** Where an expression has a meaning *)

(** Bounds of operands that can be put together without wrapping, or without
    meeting what is unsound in the source. *)
Definition combination_ok (k : Combination) (A B : ExprInfo) : Prop :=
  match k with
  | Summed => room 62 A /\ room 62 B
  | Multiplied before => room 32 A /\ room 32 B /\ mul_signs A B /\ trimmable (mul_onto before A B)
  | Divided => room 62 B /\ (div_collapses A B = false -> trimmable (raw_div_bounds A B))
  | Ramped n => ramp_room n A B
  | Subtracted => mr_reduced (info_alignment A)
  | Shuffled => unify_safe (info_alignment A) (info_alignment B)
  end.

Section Meaning.
Context (ty : string -> HType) (env : Env).

(** The environment gives the name the value of an expression. *)
Definition names (name : string) (e : Expr) : Prop :=
  type_of e = ty name /\ forall j, lane_in (ty name) j -> var env name j = ev env j e.

(** Variables have the types of their names, loads are not predicated off, the
    environment gives let-bound names their values, and the arguments of calls
    have the lanes of the call. *)
Definition settled (e : Expr) : Prop :=
  match e with
  | EVariable t n => t = ty n
  | Load _ _ p _ _ => forall i, lane_in (type_of p) i -> ev env i p <> 0
  | ELet n v _ => names n v
  | ECall _ _ _ _ _ => args_lanes e
  | _ => True
  end.

(** In each of its lanes the expression is free of undefined behaviour; a scalar
    is the same in all lanes. *)
Definition locally_ok (e : Expr) : Prop :=
  (forall i, lane_in (type_of e) i -> defined env i e) /\
  (is_scalar (type_of e) = true -> forall i, ev env i e = ev env 0 e) /\ settled e.

Inductive everywhere : Expr -> Prop :=
| Everywhere e : locally_ok e -> Forall everywhere (children e) -> everywhere e.

(** [e'] stands for [e]. *)
Definition good (e e' : Expr) : Prop :=
  everywhere e' /\ forall i, lane_in (type_of e) i -> ev env i e' = ev env i e.

Definition bounds_hold (e : Expr) (b : option ExprInfo) : Prop :=
  match b with
  | Some x => forall i, lane_in (type_of e) i -> info_holds x (ev env i e)
  | None => True
  end.

Definition event_ok (v : Event) : Prop :=
  match v with
  | Met e => wf e = true /\ everywhere e
  | Stepped e exceptions st =>
      (forall i, lane_in (type_of e) i -> step_exact exceptions env i st) /\ everywhere (step_expr st)
  | Combined k A B => combination_ok k A B
  | Named n e => names n e
  | Extracted lane n => lane < n
  | Interleaved t => no_overflow_int t = true
  end.

(** No internal error was raised, and no step met undefined behaviour. *)
Definition calm (s : Run) : Prop := failed s = false /\ Forall event_ok (trace s).

(** What the simplifier knows is true. *)
Record known (v : View) : Prop := {
  known_vars : forall n r, get (seen_vars v) n = Some (Some r) ->
    everywhere r /\ forall i, lane_in (ty n) i -> ev env i r = value ty env i n;
  known_info : forall n x, get (seen_bounds v) n = Some x ->
    forall i, lane_in (ty n) i -> info_holds x (value ty env i n);
  known_true : forall i, facts_hold (seen_facts v) env i
}.
End Meaning.

(** The intrinsics [is_zero] and [is_one] look through keep zero, and odd values;
    the others are as documented. *)
Record sane_env (env : Env) : Prop := {
  env_zero : masks_keep_zero env;
  env_odd : forall name t i x l, name = bool_to_mask_name \/ name = cast_mask_name ->
    Z.odd x = true -> Z.odd (ext env name t i (x :: l)) = true;
  env_documented : documented env
}.

Record view_wf (v : View) : Prop := {
  wf_view_ok : view_ok v;
  wf_replacements : forall n r, get (seen_vars v) n = Some (Some r) -> wf r = true
}.

(** ** What [mutate] promises

    Whatever happens, it leaves alone what is known; the result is well formed
    and of the same type; and on a calm run from true knowledge, it stands for
    the expression, and the bounds it reports hold. *)
Record visits (e : Expr) (b : option ExprInfo) (m : R Result) : Prop := {
  visits_framed : framed m;
  visits_typed : forall s r b' s', m s = ((r, b'), s') -> wf e = true -> view_wf (view s) ->
    wf r = true /\ type_of r = type_of e;
  visits_sound : forall ty env s r b' s', m s = ((r, b'), s') -> wf e = true -> view_wf (view s) ->
    sane_env env -> calm ty env s' -> known ty env (view s) -> everywhere ty env e -> bounds_hold env e b ->
    good ty env e r /\ bounds_hold env e b'
}.

Definition mutates (mutate : Mutate) : Prop := forall e b, visits e b (mutate e b).

(** ** Facts *)

Lemma everywhere_local ty env e : everywhere ty env e -> locally_ok ty env e.
Proof. now intros [e' L _]. Qed.

Lemma everywhere_children ty env e : everywhere ty env e -> Forall (everywhere ty env) (children e).
Proof. now intros [e' _ C]. Qed.

Lemma everywhere_defined ty env e i : everywhere ty env e -> lane_in (type_of e) i -> defined env i e.
Proof. intros E L. now apply (everywhere_local ty env e E). Qed.

Lemma everywhere_uniform ty env e i : everywhere ty env e -> is_scalar (type_of e) = true -> ev env i e = ev env 0 e.
Proof. intros E S. now apply (everywhere_local ty env e E). Qed.

Lemma good_refl ty env e : everywhere ty env e -> good ty env e e.
Proof. now split. Qed.

Lemma good_trans ty env a b c : type_of b = type_of a -> good ty env a b -> good ty env b c -> good ty env a c.
Proof. intros T [Eb Vb] [Ec Vc]. split; [exact Ec|]. intros i L. rewrite Vc, Vb; auto. now rewrite T. Qed.

Lemma bounds_hold_good ty env a b x : type_of b = type_of a -> good ty env a b ->
  bounds_hold env b x <-> bounds_hold env a x.
Proof.
  intros T [_ V]. unfold bounds_hold. destruct x as [x|]; [|tauto]. rewrite T.
  split; intros H i L; specialize (H i L); [now rewrite V in H|now rewrite V].
Qed.

Lemma calm_back ty env s s' : frame s s' -> calm ty env s' -> calm ty env s.
Proof.
  intros [[l T] F _] [Fs Es]. split.
  - destruct (failed s); [|reflexivity]. now rewrite F in Fs.
  - rewrite T in Es. now apply Forall_app in Es.
Qed.

Lemma view_kept s s' : frame s s' -> view_wf (view s) -> view s' = view s.
Proof. intros F W. apply F, W. Qed.

(** A step leads from what is known to the same. *)
Definition informed (ty : string -> HType) (env : Env) (s : Run) : Prop :=
  view_wf (view s) /\ known ty env (view s).

Lemma informed_kept ty env s s' : frame s s' -> informed ty env s -> informed ty env s'.
Proof. intros F [W K]. unfold informed. now rewrite (view_kept _ _ F W). Qed.

(** [is_one] recognizes odd values only. *)
Lemma odd_cast_val t v : int_type t = true -> Z.odd v = true -> Z.odd (cast_val t v) = true.
Proof.
  intros I O. pose proof (int_type_bits t I) as B.
  assert (E : exists k, cast_val t v = v + k * 2 ^ bits t).
  { unfold cast_val, int_type in *. destruct (code t); try discriminate; [apply wrap_s_cong|apply wrap_u_cong]; lia. }
  destruct E as [k ->]. rewrite Z.odd_add, O, Z.odd_mul, Z.odd_pow by lia. cbn. now rewrite andb_false_r.
Qed.

Lemma is_one_odd env : sane_env env -> forall e i, wf e = true -> is_one e = true -> Z.odd (ev env i e) = true.
Proof.
  intros S. unfold is_one. induction e using Expr_ind'; intros i W Z; cbn [is_small_const] in Z; try discriminate;
    try (apply Z.eqb_eq in Z; now rewrite <- Z).
  - apply Z.eqb_eq in Z. cbn. now rewrite Z.
  - apply Z.eqb_eq in Z. cbn. now rewrite Z.
  - cbn [wf] in W. destr_and. cbn [ev]. apply odd_cast_val; auto.
  - cbn [wf] in W. destr_and. cbn [ev]. auto.
  - apply andb_true_iff in Z. destruct Z as [N Z]. destruct args as [|a l]; [discriminate|].
    inversion H as [|a' l' Ha _]; subst. destruct (wf_wf_type _ W) as [I _]. cbn [type_of] in I.
    apply wf_call in W. cbn [forallb] in W. apply andb_true_iff in W. destruct W as [W _].
    assert (E : n = bool_to_mask_name \/ n = cast_mask_name).
    { apply orb_true_iff in N. unfold is_intrinsic in N. destruct ct; destruct N as [N|N]; try discriminate N;
        apply String.eqb_eq in N; auto. }
    assert (L : is_likely n ct = false) by (destruct E as [-> | ->]; now destruct ct).
    assert (V : Z.odd (cast_val t (ext env n t (lane_of t i) (map (ev env i) (a :: l)))) = true).
    { apply odd_cast_val; [exact I|]. cbn [map]. apply (env_odd env S); auto. }
    cbn [ev]. rewrite L. destruct l; exact V.
Qed.

Lemma is_one_nonzero env e i : sane_env env -> wf e = true -> is_one e = true -> ev env i e <> 0.
Proof. intros S W O Z. pose proof (is_one_odd env S e i W O) as D. now rewrite Z in D. Qed.

(** ** The steps of a visit *)

Lemma bind_inv {A B} (m : R A) (k : A -> R B) s r s' :
  (let '(x, c) := m s in k x c) = (r, s') -> exists a s1, m s = (a, s1) /\ k a s1 = (r, s').
Proof. destruct (m s) as [a s1]. eauto. Qed.

(** Splits a run into its steps. *)
Ltac run_step E x s F := cbv beta in E; apply bind_inv in E; destruct E as (x & s & F & E).

Section Spec.
Context (mutate : Mutate) (Mu : mutates mutate).

Abbreviation this := (run_prover mutate).

(** What [mutate] made of an operand. *)
Record operand (e e' : Expr) (A : ExprInfo) (s s' : Run) : Prop := {
  op_frame : frame s s';
  op_wf : wf e' = true;
  op_type : type_of e' = type_of e;
  op_sound : forall ty env, sane_env env -> calm ty env s' -> known ty env (view s) -> everywhere ty env e ->
    good ty env e e' /\ forall i, lane_in (type_of e) i -> info_holds A (ev env i e)
}.

Lemma framed_mutate e b : framed (mutate e b).
Proof. apply Mu. Qed.

Lemma framed_info e : framed (mutate_info mutate e).
Proof. apply framed_bind; [apply framed_mutate|]. intros []. apply framed_done. Qed.

Lemma framed_only e : framed (mutate_only mutate e).
Proof. apply framed_bind; [apply framed_mutate|]. intros []. apply framed_done. Qed.

Lemma framed_report test k A B f b : framed (report test k A B f b).
Proof. unfold report. framed_steps. Qed.

Lemma framed_finish e exc st b : framed (finish mutate e exc st b).
Proof.
  unfold finish. apply framed_bind; [apply framed_note|]. intros []. destruct st; auto using framed_mutate, @framed_done.
Qed.

Lemma info_operand e s e' A s' : mutate_info mutate e s = ((e', A), s') -> wf e = true -> view_wf (view s) ->
  operand e e' A s s'.
Proof.
  intros E W V. pose proof (framed_info e _ _ _ E) as F. unfold mutate_info in E. run_step E p s1 G.
  destruct p as [r b]. injection E as -> <- ->. destruct (Mu e (Some no_info)) as [_ T S].
  destruct (T _ _ _ _ G W V) as [Wr Tr]. split; auto. intros ty env N C K Ev.
  destruct (S ty env _ _ _ _ G W V N C K Ev) as [Gd B].
  - intros i _. apply no_info_holds.
  - split; [exact Gd|]. intros i L. destruct b as [x|]; [exact (B i L)|apply no_info_holds].
Qed.

Lemma only_operand e s e' s' : mutate_only mutate e s = (e', s') -> wf e = true -> view_wf (view s) ->
  operand e e' no_info s s'.
Proof.
  intros E W V. pose proof (framed_only e _ _ _ E) as F. unfold mutate_only in E. run_step E p s1 G.
  destruct p as [r b]. injection E as -> ->. destruct (Mu e None) as [_ T S].
  destruct (T _ _ _ _ G W V) as [Wr Tr]. split; auto. intros ty env N C K Ev.
  destruct (S ty env _ _ _ _ G W V N C K Ev I) as [Gd _]. split; [exact Gd|]. intros. apply no_info_holds.
Qed.

Lemma prove_run e c : prove (Prover := this) e c = mutate_only mutate e (snd (note (Met e) c)).
Proof. reflexivity. Qed.

Lemma frame_prove e c : frame c (snd (prove (Prover := this) e c)).
Proof.
  rewrite prove_run. destruct (mutate_only mutate e _) as [r c'] eqn:E. cbn [snd].
  apply (frame_trans c (snd (note (Met e) c))); [now apply (framed_note (Met e) c tt)|].
  exact (framed_only _ _ _ _ E).
Qed.

(** What the rewriters rely on holds of runs. *)
Lemma run_trusts ty env i : sane_env env -> trusts (prover := this) (calm ty env) (informed ty env) env i.
Proof.
  intros N. split; [split|].
  - intros c [F T]. now split.
  - intros c [F T]. now split.
  - intros e c C. exact (calm_back ty env c _ (frame_prove e c) C).
  - intros c H. exact H.
  - intros c H. exact H.
  - intros e c _ H. exact (informed_kept ty env c _ (frame_prove e c) H).
  - intros e c We L _ [Wv K] C O. rewrite prove_run in C, O.
    destruct (mutate_only mutate e (snd (note (Met e) c))) as [r c'] eqn:E. cbn [fst snd] in C, O.
    destruct (only_operand e _ r c' E We Wv) as [F Wr Tr S].
    assert (Me : everywhere ty env e).
    { destruct (calm_back ty env _ _ F C) as [_ T]. cbn in T. apply Forall_inv in T. apply T. }
    destruct (S ty env N C K Me) as [[_ V] _]. rewrite <- (V i L). now apply is_one_nonzero.
Qed.

Lemma run_prover_sound ty env i c c' : sane_env env -> informed ty env c -> calm ty env c' ->
  prover_sound (prover := this) env i c c'.
Proof. intros N I C. exists (calm ty env), (informed ty env). split; [now apply run_trusts|auto]. Qed.

(** A visit from the simplified operands on leaves alone what is known. *)
Lemma framed_visit {A} (m : M (prover := this) A) :
  (forall calm inv, frames (prover := this) calm inv -> leading (prover := this) calm inv m) -> framed m.
Proof.
  intros H s a s' E. refine (proj2 (H (fun _ => True) (frame s) _ s a s' E I) (frame_refl s)).
  split; auto.
  - intros c F. apply (frame_trans s c); [exact F|]. split; auto. now exists [].
  - intros c F. apply (frame_trans s c); [exact F|]. split; auto. now exists [].
  - intros e c _ F. exact (frame_trans s c _ F (frame_prove e c)).
Qed.

(** The end of a visit. *)
Record finished (e : Expr) (exceptions : list Rule) (st : Step) (b b' : option ExprInfo) (s s' : Run)
    (r : Expr) : Prop := {
  fin_wf : wf r = true;
  fin_type : type_of r = type_of e;
  fin_sound : forall ty env, sane_env env -> calm ty env s' -> known ty env (view s) ->
    (everywhere ty env (step_expr st) ->
     forall i, lane_in (type_of e) i -> step_exact exceptions env i st -> same_meaning env i e (step_expr st)) ->
    bounds_hold env e b -> good ty env e r /\ bounds_hold env e b'
}.

Lemma finish_finished e exc st b s r b' s' : finish mutate e exc st b s = ((r, b'), s') ->
  step_typed e st -> view_wf (view s) -> finished e exc st b b' s s' r.
Proof.
  intros E [W T] V. unfold finish in E. run_step E u s1 F. injection F as _ <-. set (s1 := mkRun _ _ _ _ _ _) in E.
  assert (G : forall ty env, calm ty env s1 ->
    (everywhere ty env (step_expr st) -> forall i, lane_in (type_of e) i -> step_exact exc env i st -> same_meaning env i e (step_expr st)) ->
    good ty env e (step_expr st)).
  { intros ty env [_ C] S. cbn in C. apply Forall_inv in C. destruct C as [X Ev]. split; [exact Ev|].
    intros i L. apply (S Ev i L). now apply X. }
  assert (K : forall e0, step_expr st = e0 -> (e0, b) = (r, b') -> s1 = s' -> finished e exc st b b' s s' r).
  { intros e0 <- [= <- <-] <-. split; auto. }
  assert (A : forall e0, step_expr st = e0 -> mutate e0 b s1 = ((r, b'), s') -> finished e exc st b b' s s' r).
  { intros e0 <- H. destruct (Mu (step_expr st) b) as [Fr Ty Sd]. destruct (Ty _ _ _ _ H W V) as [Wr Tr].
    split; [exact Wr|congruence|]. intros ty env N C Kn S B.
    pose proof (G ty env (calm_back ty env _ _ (Fr _ _ _ H) C) S) as Gd.
    destruct (Sd ty env _ _ _ _ H W V N C Kn (proj1 Gd)) as [G2 B2].
    - now apply (bounds_hold_good ty env e).
    - split; [now apply (good_trans ty env e (step_expr st))|]. now apply (bounds_hold_good ty env e (step_expr st)). }
  destruct st; cbn [step_expr] in *; eauto; injection E as <- <- <-; eauto.
Qed.

(** ... of a node that was visited correctly. *)
Lemma correct_meaning c c' K exc e st ty env : sane_env env -> correct_when (prover := this) c c' K exc e st ->
  informed ty env c -> calm ty env c' ->
  (forall i, lane_in (type_of e) i -> defined env i e /\ K env i) ->
  forall i, lane_in (type_of e) i -> step_exact exc env i st -> same_meaning env i e (step_expr st).
Proof.
  intros N [_ S] I C D i L X. destruct (D i L) as [De Ki].
  apply S; auto. now apply (run_prover_sound ty).
Qed.
End Spec.
