(* ===== verification/SimplifyNodes.v ===== *)
(** * The visit methods as a whole

    The visit methods of src/Simplify_*.cpp, from the mutation of the operands
    to the step they end with, and the bounds they report.  Each is a correct
    visit of its node, provided that [mutate] keeps its promise on what it is
    called with. *)

From Stdlib Require Import ZArith Lia Bool List String.
From S2P Require Import Prelude.
From S2P Require Import IntArith.
From S2P Require Import ModulusRemainder.
From S2P Require Import Scope.
From S2P Require Import HalideTypes.
From S2P Require Import IR.
From S2P Require Import Typing.
From S2P Require Import IREquality.
From S2P Require Import IRMatch.
From S2P Require Import RuleSem.
From S2P Require Import MatchSound.
From S2P Require Import FoldSound.
From S2P Require Import MakeSound.
From S2P Require Import RuleSound.
From S2P Require Import Visit.
From S2P Require Import Mutator.
From S2P Require Import ExprInfo.
From S2P Require Import ScopedFact.
From S2P Require Import SimplifyAdd.
From S2P Require Import SimplifySub.
From S2P Require Import SimplifyMul.
From S2P Require Import SimplifyDiv.
From S2P Require Import SimplifyMod.
From S2P Require Import SimplifyMin.
From S2P Require Import SimplifyMax.
From S2P Require Import SimplifyEQ.
From S2P Require Import SimplifyLT.
From S2P Require Import SimplifyAnd.
From S2P Require Import SimplifyOr.
From S2P Require Import SimplifyNot.
From S2P Require Import SimplifySelect.
From S2P Require Import SimplifyCast.
From S2P Require Import SimplifyExprs.
From S2P Require Import SimplifyRun.
Import ListNotations.
Open Scope string_scope.
Open Scope list_scope.
Open Scope Z_scope.

(** ** Nodes made again *)

(** The children of a node made again are well formed and of the old types. *)
Section Rewf.
Ltac rewf := cbn [wf type_of] in *; intros W; intros;
  repeat match goal with H : _ /\ _ |- _ => destruct H end;
  repeat match goal with H : wf ?a = true |- _ => rewrite H; clear H end;
  repeat match goal with H : type_of _ = type_of _ |- _ => rewrite H in * end;
  destr_and; rewrite ?andb_true_iff; repeat split; auto.

(** [a'] can take the place of [a]. *)
Definition in_place (a a' : Expr) : Prop := wf a' = true /\ type_of a' = type_of a.

Lemma rewf_bin op a b a' b' : wf (EBin op a b) = true -> in_place a a' -> in_place b b' ->
  in_place (EBin op a b) (EBin op a' b').
Proof. unfold in_place. rewf. Qed.

Lemma rewf_cmp op a b a' b' : wf (ECmp op a b) = true -> in_place a a' -> in_place b b' ->
  in_place (ECmp op a b) (ECmp op a' b').
Proof. unfold in_place. rewf. Qed.

Lemma rewf_not a a' : wf (ENot a) = true -> in_place a a' -> in_place (ENot a) (ENot a').
Proof. unfold in_place. rewf. Qed.

Lemma rewf_select c t f c' t' f' : wf (Select c t f) = true -> in_place c c' -> in_place t t' -> in_place f f' ->
  in_place (Select c t f) (Select c' t' f').
Proof. unfold in_place. rewf. Qed.

Lemma rewf_cast t v v' : wf (Cast t v) = true -> in_place v v' -> in_place (Cast t v) (Cast t v').
Proof. unfold in_place. rewf. Qed.

Lemma rewf_load t n p i al p' i' al' : wf (Load t n p i al) = true -> in_place p p' -> in_place i i' ->
  in_place (Load t n p i al) (Load t n p' i' al').
Proof. unfold in_place. rewf. Qed.

Lemma rewf_ramp b s n b' s' : wf (Ramp b s n) = true -> in_place b b' -> in_place s s' ->
  in_place (Ramp b s n) (Ramp b' s' n).
Proof. unfold in_place. rewf. Qed.

Lemma rewf_broadcast v n v' : wf (Broadcast v n) = true -> in_place v v' -> in_place (Broadcast v n) (Broadcast v' n).
Proof. unfold in_place. rewf. Qed.
End Rewf.

(** The values of a node made again, and that it is free of undefined behaviour. *)
Section Remade.
Context (env : Env) (i : Z).

(** [a'] has the value of [a] here. *)
Definition same_at (a a' : Expr) : Prop := defined env i a' /\ ev env i a' = ev env i a.

Ltac remade := unfold same_at, defined in *; intros; repeat match goal with H : _ /\ _ |- _ => destruct H end;
  cbn [ok fits ev type_of] in *; repeat match goal with H : type_of _ = type_of _ |- _ => rewrite H end;
  repeat match goal with H : ev env i _ = ev env i _ |- _ => rewrite H end;
  repeat match goal with H : _ /\ _ |- _ => destruct H end;
  repeat match goal with |- _ /\ _ => split end; auto.

Lemma remade_bin op a b a' b' : type_of a' = type_of a -> defined env i (EBin op a b) ->
  same_at a a' -> same_at b b' -> same_at (EBin op a b) (EBin op a' b').
Proof. remade. Qed.

Lemma remade_cmp op a b a' b' : type_of a' = type_of a -> defined env i (ECmp op a b) ->
  same_at a a' -> same_at b b' -> same_at (ECmp op a b) (ECmp op a' b').
Proof. remade. Qed.

Lemma remade_not a a' : type_of a' = type_of a -> defined env i (ENot a) -> same_at a a' ->
  same_at (ENot a) (ENot a').
Proof. remade. Qed.

Lemma remade_select c t f c' t' f' : type_of t' = type_of t -> defined env i (Select c t f) ->
  same_at c c' -> same_at t t' -> same_at f f' -> same_at (Select c t f) (Select c' t' f').
Proof. remade. Qed.

Lemma remade_cast t v v' : defined env i (Cast t v) -> same_at v v' -> same_at (Cast t v) (Cast t v').
Proof. remade. Qed.

Lemma remade_load t n p x al p' x' al' : defined env i (Load t n p x al) -> same_at x x' ->
  same_at (Load t n p x al) (Load t n p' x' al').
Proof. remade. Qed.

Lemma remade_ramp b s n b' s' : type_of b' = type_of b -> defined env i (Ramp b s n) ->
  same_at b b' -> same_at s s' -> same_at (Ramp b s n) (Ramp b' s' n).
Proof. remade. Qed.

Lemma remade_broadcast v n v' : type_of v' = type_of v -> defined env i (Broadcast v n) ->
  same_at v v' -> same_at (Broadcast v n) (Broadcast v' n).
Proof. remade. Qed.
End Remade.

(** ** The lanes of operands *)

Lemma bin_lanes op a b i : wf (EBin op a b) = true -> lane_in (type_of (EBin op a b)) i ->
  lane_in (type_of a) i /\ lane_in (type_of b) i.
Proof.
  intros W J. destruct (wf_binary _ _ _ W) as (_ & _ & T & L). rewrite T. split; apply (lane_in_lanes _ _ _ L J).
Qed.

Lemma cmp_lanes op a b i : wf (ECmp op a b) = true -> lane_in (type_of (ECmp op a b)) i ->
  lane_in (type_of a) i /\ lane_in (type_of b) i.
Proof.
  intros W J. destruct (wf_comparison _ _ _ W) as (_ & _ & T). rewrite T.
  split; now apply (lane_in_lanes (BoolT (lanes (type_of a)))).
Qed.

Lemma select_lanes c t f i : wf (Select c t f) = true -> lane_in (type_of t) i ->
  lane_in (type_of c) i /\ lane_in (type_of f) i.
Proof.
  intros W J. destruct (wf_select _ _ _ W) as (_ & _ & _ & T & L). rewrite <- T. split; [|exact J].
  destruct L as [L|L]; [now left|now apply (lane_in_lanes (type_of t))].
Qed.

Lemma cast_lanes t v i : wf (Cast t v) = true -> lane_in t i -> lane_in (type_of v) i.
Proof. intros W. destruct (wf_cast _ _ W) as (_ & _ & L). now apply lane_in_lanes. Qed.

Lemma load_lanes t n p x al i : wf (Load t n p x al) = true -> lane_in t i ->
  lane_in (type_of p) i /\ lane_in (type_of x) i.
Proof. intros W J. destruct (wf_load _ _ _ _ _ W) as (_ & _ & Lx & Lp). split; now apply (lane_in_lanes t). Qed.

Lemma ramp_scalars b s n : wf (Ramp b s n) = true -> forall i, lane_in (type_of b) i /\ lane_in (type_of s) i.
Proof. cbn [wf]. intros W i. destr_and. split; now left. Qed.

Lemma broadcast_scalar v n : wf (Broadcast v n) = true -> forall i, lane_in (type_of v) i.
Proof. cbn [wf]. intros W i. destr_and. now left. Qed.

(** ** Nodes that stand for nodes *)

Section Good.
Context (ty : string -> HType) (env : Env).

Abbreviation everywhere := (everywhere ty env).
Abbreviation good := (good ty env).

Lemma good_at a a' i : in_place a a' -> good a a' -> lane_in (type_of a) i -> same_at env i a a'.
Proof.
  intros [_ T] [E V] L. split; [|now apply V]. apply (everywhere_defined ty); [exact E|now rewrite T].
Qed.

Lemma good_node e e' : everywhere e -> type_of e' = type_of e ->
  (forall i, lane_in (type_of e) i -> same_at env i e e') -> Forall everywhere (children e') ->
  settled ty env e' -> good e e'.
Proof.
  intros E T S C X. split; [|intros i L; now apply S]. constructor; [|exact C].
  split; [|split; [|exact X]]; rewrite T; [intros i L; now apply S|]. intros Sc i.
  rewrite (proj2 (S i (or_introl Sc))), (proj2 (S 0 (or_introl Sc))). now apply (everywhere_uniform ty).
Qed.

Lemma good_bin op a b a' b' : wf (EBin op a b) = true -> everywhere (EBin op a b) ->
  in_place a a' -> in_place b b' -> good a a' -> good b b' -> good (EBin op a b) (EBin op a' b').
Proof.
  intros W E Pa Pb Ga Gb. apply good_node; [exact E|apply (rewf_bin _ _ _ _ _ W Pa Pb)| | |exact I].
  - intros i L. destruct (bin_lanes _ _ _ _ W L) as [La Lb].
    apply remade_bin; [apply Pa|now apply (everywhere_defined ty)|now apply good_at|now apply good_at].
  - constructor; [apply Ga|]. constructor; [apply Gb|]. constructor.
Qed.

Lemma good_cmp op a b a' b' : wf (ECmp op a b) = true -> everywhere (ECmp op a b) ->
  in_place a a' -> in_place b b' -> good a a' -> good b b' -> good (ECmp op a b) (ECmp op a' b').
Proof.
  intros W E Pa Pb Ga Gb. apply good_node; [exact E|apply (rewf_cmp _ _ _ _ _ W Pa Pb)| | |exact I].
  - intros i L. destruct (cmp_lanes _ _ _ _ W L) as [La Lb].
    apply remade_cmp; [apply Pa|now apply (everywhere_defined ty)|now apply good_at|now apply good_at].
  - constructor; [apply Ga|]. constructor; [apply Gb|]. constructor.
Qed.

Lemma good_not a a' : wf (ENot a) = true -> everywhere (ENot a) -> in_place a a' -> good a a' ->
  good (ENot a) (ENot a').
Proof.
  intros W E Pa Ga. apply good_node; [exact E|apply (rewf_not _ _ W Pa)| | |exact I].
  - intros i L. apply remade_not; [apply Pa|now apply (everywhere_defined ty)|].
    now apply good_at.
  - constructor; [apply Ga|]. constructor.
Qed.

Lemma good_select c t f c' t' f' : wf (Select c t f) = true -> everywhere (Select c t f) ->
  in_place c c' -> in_place t t' -> in_place f f' -> good c c' -> good t t' -> good f f' ->
  good (Select c t f) (Select c' t' f').
Proof.
  intros W E Pc Pt Pf Gc Gt Gf. apply good_node; [exact E|apply (rewf_select _ _ _ _ _ _ W Pc Pt Pf)| | |exact I].
  - intros i L. destruct (select_lanes _ _ _ _ W L) as [Lc Lf].
    apply remade_select; [apply Pt|now apply (everywhere_defined ty)| | |]; now apply good_at.
  - constructor; [apply Gc|]. constructor; [apply Gt|]. constructor; [apply Gf|]. constructor.
Qed.

Lemma good_cast t v v' : wf (Cast t v) = true -> everywhere (Cast t v) -> in_place v v' -> good v v' ->
  good (Cast t v) (Cast t v').
Proof.
  intros W E P G. apply good_node; [exact E|apply (rewf_cast _ _ _ W P)| | |exact I].
  - intros i L. apply remade_cast; [now apply (everywhere_defined ty)|].
    apply good_at; auto. now apply (cast_lanes t).
  - constructor; [apply G|]. constructor.
Qed.

Lemma good_load t n p x al p' x' al' : wf (Load t n p x al) = true -> everywhere (Load t n p x al) ->
  in_place p p' -> in_place x x' -> good p p' -> good x x' -> good (Load t n p x al) (Load t n p' x' al').
Proof.
  intros W E Pp Px Gp Gx. apply good_node; [exact E|reflexivity| | |].
  - intros i L. apply remade_load; [now apply (everywhere_defined ty)|].
    apply good_at; auto. now apply (load_lanes t n p x al).
  - constructor; [apply Gp|]. constructor; [apply Gx|]. constructor.
  - cbn [settled]. destruct Pp as [_ Tp]. rewrite Tp. intros i L. rewrite (proj2 Gp) by exact L.
    now apply (everywhere_local _ _ _ E).
Qed.

Lemma good_ramp b s n b' s' : wf (Ramp b s n) = true -> everywhere (Ramp b s n) ->
  in_place b b' -> in_place s s' -> good b b' -> good s s' -> good (Ramp b s n) (Ramp b' s' n).
Proof.
  intros W E Pb Ps Gb Gs. apply good_node; [exact E|apply (rewf_ramp _ _ _ _ _ W Pb Ps)| | |exact I].
  - intros i L. destruct (ramp_scalars _ _ _ W i) as [Lb Ls].
    apply remade_ramp; [apply Pb|now apply (everywhere_defined ty)| |]; now apply good_at.
  - constructor; [apply Gb|]. constructor; [apply Gs|]. constructor.
Qed.

Lemma good_broadcast v n v' : wf (Broadcast v n) = true -> everywhere (Broadcast v n) ->
  in_place v v' -> good v v' -> good (Broadcast v n) (Broadcast v' n).
Proof.
  intros W E P G. apply good_node; [exact E|apply (rewf_broadcast _ _ _ W P)| | |exact I].
  - intros i L. apply remade_broadcast; [apply P|now apply (everywhere_defined ty)|].
    apply good_at; auto. now apply (broadcast_scalar v n).
  - constructor; [apply G|]. constructor.
Qed.
End Good.

(** ** The visit methods *)

(** What the visit of a quotient puts into the bounds. *)
Definition quotient_bounds (t : HType) (A B : ExprInfo) (bounds : option ExprInfo) : option ExprInfo :=
  match bounds with
  | Some x =>
      if no_overflow_int t then
        if div_collapses A B
        then Some (mkInfo (info_min (div_interval A B)) (info_max (div_interval A B)) true true (info_alignment x))
        else Some (div_bounds t A B)
      else Some x
  | None => None
  end.

Section Nodes.
Context (mutate : Mutate).

Abbreviation this := (run_prover mutate).

(** Reads the flag [may_simplify] depends on. *)
Definition may (t : HType) : R bool := fun s => (may_simplify (no_float_simplify s) t, s).

(** Bounds that are reported of types that do not overflow only. *)
Definition report_int (t : HType) (k : ExprInfo -> Combination) (A B x : ExprInfo) : option ExprInfo -> R (option ExprInfo) :=
  report (no_overflow_int t) k A B (fun _ => x).

(** The state, to be read. *)
Definition current : R Run := fun s => (s, s).

(** [Simplify::visit] of the arithmetic nodes. *)
Definition visit_arith (op : BinOp) (a b : Expr) (bounds : option ExprInfo) : R Result :=
  let e := EBin op a b in
  let t := type_of e in
  let! '(a', A) := mutate_info mutate a in
  let! '(b', B) := mutate_info mutate b in
  match op with
  | Add =>
      let! bounds := report_int t (fun _ => Summed) A B (add_bounds t A B) bounds in
      let! st := (fun s => visit_Add (prover := this) (no_float_simplify s) a' b' s) in
      finish mutate e [] st bounds
  | Sub =>
      let! bounds := report_int t (fun _ => Summed) A B (sub_bounds t A B) bounds in
      let! st := (fun s => visit_Sub (prover := this) (no_float_simplify s) a' b' s) in
      finish mutate e [] st bounds
  | Mul =>
      let! bounds := report (no_overflow_int t) Multiplied A B (fun x => mul_bounds x t A B) bounds in
      let! st := (fun s => visit_Mul (prover := this) (no_float_simplify s) a' b' s) in
      finish mutate e [] st bounds
  | Div =>
      let! _ := note (Combined Divided A B) in
      let wanted := match bounds with Some _ => true | None => false end in
      let bounds := quotient_bounds t A B bounds in
      let! st := (fun s => visit_Div (prover := this) (no_float_simplify s) wanted a' b' A B s) in
      finish mutate e [] st bounds
  | Mod =>
      let! _ := note (Combined Summed A B) in
      let! bounds := report_int t (fun _ => Summed) A B (mod_bounds t A B) bounds in
      let! st := (fun s => visit_Mod (prover := this) (no_float_simplify s) a' b' A B s) in
      finish mutate e [] st bounds
  | Min =>
      let! bounds := report true (fun _ => Summed) A B (fun _ => min_bounds A B) bounds in
      let! st := (fun s => visit_Min (prover := this) (no_float_simplify s) a' b' A B s) in
      finish mutate e (min_exceptions t) st bounds
  | Max =>
      let! bounds := report true (fun _ => Summed) A B (fun _ => max_bounds A B) bounds in
      let! st := (fun s => visit_Max (prover := this) (no_float_simplify s) a' b' A B s) in
      finish mutate e (max_exceptions t) st bounds
  | And | Or => fail (e, bounds)
  end.

(** [Simplify::visit] of conjunctions and disjunctions. *)
Definition visit_junction (op : BinOp) (a b : Expr) (bounds : option ExprInfo) : R Result :=
  let e := EBin op a b in
  let n := lanes (type_of e) in
  let! s := current in
  let known := facts (knowledge s) in
  match op with
  | And =>
      if count (falsehoods known) e then finish mutate e [] (Kept (const_false n)) bounds
      else
        let! a' := mutate_only mutate a in
        let! b' := mutate_only mutate b in
        let! st := visit_And (prover := this) known e a' b' in
        finish mutate e [] st bounds
  | _ =>
      if count (truths known) e then finish mutate e [] (Kept (const_true n)) bounds
      else
        let! a' := mutate_only mutate a in
        let! b' := mutate_only mutate b in
        let! st := visit_Or (prover := this) known e a' b' in
        finish mutate e [] st bounds
  end.

(** Both operands are mutated, without bounds, and the node is made again. *)
Definition remake_cmp (op : CmpOp) (a b : Expr) (bounds : option ExprInfo) : R Result :=
  let! a' := mutate_only mutate a in
  let! b' := mutate_only mutate b in
  done (ECmp op a' b', bounds).

(** [Simplify::visit(const EQ)]. *)
Definition visit_equation (a b : Expr) (bounds : option ExprInfo) : R Result :=
  let e := ECmp EQ a b in
  let n := lanes (type_of e) in
  let! s := current in
  let known := facts (knowledge s) in
  if count (truths known) e then finish mutate e [] (Kept (const_true n)) bounds
  else if count (falsehoods known) e then finish mutate e [] (Kept (const_false n)) bounds
  else if negb (may_simplify (no_float_simplify s) (type_of a)) then remake_cmp EQ a b bounds
  else if is_bool (type_of a) then
    let! a' := mutate_only mutate a in
    let! b' := mutate_only mutate b in
    let! st := visit_EQ_bool (prover := this) a' b' in
    finish mutate e (eq_exceptions (type_of a)) st bounds
  else
    let! _ := note (Met (EBin Sub a b)) in
    let! '(delta, D) := mutate_info mutate (EBin Sub a b) in
    let! _ := note (Combined Subtracted D D) in
    let! st := visit_EQ_delta (prover := this) a b delta D in
    finish mutate e (eq_exceptions (type_of a)) st bounds.

(** [Simplify::visit(const LT)]. *)
Definition visit_less (a b : Expr) (bounds : option ExprInfo) : R Result :=
  let e := ECmp LT a b in
  let! '(a', A) := mutate_info mutate a in
  let! '(b', B) := mutate_info mutate b in
  let! st := (fun s => visit_LT (prover := this) (no_float_simplify s) (facts (knowledge s)) e a' b' A B s) in
  finish mutate e lt_exceptions st bounds.

(** The other comparisons redirect to these two. *)
Definition visit_comparison (op : CmpOp) (a b : Expr) (bounds : option ExprInfo) : R Result :=
  match op, redirect_cmp op a b with
  | EQ, _ => visit_equation a b bounds
  | LT, _ => visit_less a b bounds
  | _, Some e' =>
      let! ok := may (type_of a) in
      if ok : bool then mutate e' bounds else remake_cmp op a b bounds
  | _, None => fail (ECmp op a b, bounds)
  end.

(** [Simplify::visit(const Not)] and [visit(const Select)]. *)
Definition visit_negation (a : Expr) (bounds : option ExprInfo) : R Result :=
  let! a' := mutate_only mutate a in
  let! st := visit_Not (prover := this) a' in
  finish mutate (ENot a) [] st bounds.

Definition visit_selection (c t f : Expr) (bounds : option ExprInfo) : R Result :=
  let! c' := mutate_only mutate c in
  let! '(t', T) := mutate_info mutate t in
  let! '(f', F) := mutate_info mutate f in
  let! bounds := report true (fun _ => Summed) T F (fun _ => select_bounds T F) bounds in
  let! st := (fun s => visit_Select (prover := this) (no_float_simplify s) c' t' f' s) in
  finish mutate (Select c t f) [] st bounds.

(** [Simplify::visit] of ramps, broadcasts and casts. *)
Definition visit_ramp (b s : Expr) (n : Z) (bounds : option ExprInfo) : R Result :=
  let e := Ramp b s n in
  let t := type_of e in
  let! '(b', B) := mutate_info mutate b in
  let! '(s', D) := mutate_info mutate s in
  let! bounds := report_int t (fun _ => Ramped n) B D (ramp_bounds t B D) bounds in
  let! st := visit_Ramp (prover := this) b' s' n in
  finish mutate e [] st bounds.

Definition visit_broadcast (v : Expr) (n : Z) (bounds : option ExprInfo) : R Result :=
  let! '(v', bounds) := mutate v bounds in done (Broadcast v' n, bounds).

Definition visit_cast (t : HType) (v : Expr) (bounds : option ExprInfo) : R Result :=
  let! v' := mutate_only mutate v in
  let! st := (fun s => visit_Cast (prover := this) (no_float_simplify s) t v' s) in
  finish mutate (Cast t v) [] st bounds.

(** [Simplify::visit] of loads, after the reference to the buffer is counted. *)
Definition load_operands (t : HType) (n : string) (p x : Expr) (al : ModulusRemainder) (bounds : option ExprInfo)
    : R Result :=
  let! p' := mutate_only mutate p in
  let! '(x', X) := mutate_info mutate x in
  let! base :=
    match x' with
    | Ramp b _ _ => let! '(_, B) := mutate_info mutate b in done (info_alignment B)
    | _ => done mr_top
    end in
  finish mutate (Load t n p x al) [] (visit_Load t n p' x' (info_alignment X) base al) bounds.

Definition visit_load (t : HType) (n : string) (p x : Expr) (al : ModulusRemainder) (bounds : option ExprInfo)
    : R Result := fun s =>
  match found_buffer_reference n (knowledge s) with
  | None => fail (Load t n p x al, bounds) s
  | Some k => load_operands t n p x al bounds (set_knowledge k s)
  end.

(** [Simplify::visit] of variables. *)
Definition visit_name (t : HType) (n : string) (bounds : option ExprInfo) : R Result := fun s =>
  let e := EVariable t n in
  let k := knowledge s in
  let bounds :=
    match bounds with
    | Some x => Some (if contains (bounds_and_alignment_info k) n then variable_bounds n k else x)
    | None => None
    end in
  match visit_Variable t n k with
  | None => fail (e, bounds) s
  | Some (st, k') => finish mutate e [] st bounds (set_knowledge k' s)
  end.

(** [Simplify::visit] of immediates. *)
Definition imm_has_bounds (e : Expr) : bool :=
  match e with
  | IntImm t _ => no_overflow_int t
  | UIntImm _ v => can_represent_u64 (Int 64 1) v
  | _ => false
  end.

Definition visit_imm (e : Expr) (bounds : option ExprInfo) : R Result :=
  done (e, match bounds with
           | Some x => Some (if imm_has_bounds e then imm_bounds e else x)
           | None => None
           end).

(** The nodes above; the others are visited elsewhere. *)
Definition visit_node (others : Expr -> option ExprInfo -> R Result) (e : Expr) (bounds : option ExprInfo) : R Result :=
  match e with
  | IntImm _ _ | UIntImm _ _ | FloatImm _ _ | StringImm _ => visit_imm e bounds
  | Cast t v => visit_cast t v bounds
  | EVariable t n => visit_name t n bounds
  | EBin ((And | Or) as op) a b => visit_junction op a b bounds
  | EBin op a b => visit_arith op a b bounds
  | ECmp op a b => visit_comparison op a b bounds
  | ENot a => visit_negation a bounds
  | Select c t f => visit_selection c t f bounds
  | Load t n p x al => visit_load t n p x al bounds
  | Ramp b s n => visit_ramp b s n bounds
  | Broadcast v n => visit_broadcast v n bounds
  | ECall _ _ _ _ _ | ELet _ _ _ | Shuffle _ _ => others e bounds
  end.
End Nodes.

(** ** Visits leave alone what is known *)

Section Leading.
Context {prover : Prover} (calm inv : Simplifier -> Prop) (F : frames calm inv).

Ltac leading_visit := repeat first
  [ apply leading_ret
  | exact (proj1 (leading_tables calm inv F _ _ _ _)) | exact (proj2 (leading_tables calm inv F _ _ _ _))
  | exact (leading_overflow calm inv F _) | exact (leading_indeterminate calm inv F _)
  | exact (leading_rewrite calm inv F _ _ _)
  | apply leading_bind; [|intros ?] | case_goal ].

Lemma leading_Add nf a b : leading calm inv (visit_Add nf a b).
Proof. unfold visit_Add. leading_visit. Qed.
Lemma leading_Sub nf a b : leading calm inv (visit_Sub nf a b).
Proof. unfold visit_Sub. leading_visit. Qed.
Lemma leading_Mul nf a b : leading calm inv (visit_Mul nf a b).
Proof. unfold visit_Mul. leading_visit. Qed.
Lemma leading_Div nf w a b A B : leading calm inv (visit_Div nf w a b A B).
Proof. unfold visit_Div. leading_visit. Qed.
Lemma leading_Mod nf a b A B : leading calm inv (visit_Mod nf a b A B).
Proof. unfold visit_Mod. leading_visit. Qed.
Lemma leading_Min nf a b A B : leading calm inv (visit_Min nf a b A B).
Proof. unfold visit_Min. leading_visit. Qed.
Lemma leading_Max nf a b A B : leading calm inv (visit_Max nf a b A B).
Proof. unfold visit_Max. leading_visit. Qed.
Lemma leading_And k e a b : leading calm inv (visit_And k e a b).
Proof. unfold visit_And. leading_visit. Qed.
Lemma leading_Or k e a b : leading calm inv (visit_Or k e a b).
Proof. unfold visit_Or. leading_visit. Qed.
Lemma leading_EQ_bool a b : leading calm inv (visit_EQ_bool a b).
Proof. unfold visit_EQ_bool. leading_visit. Qed.
Lemma leading_EQ_delta a b d D : leading calm inv (visit_EQ_delta a b d D).
Proof. unfold visit_EQ_delta. leading_visit. Qed.
Lemma leading_LT nf k e a b A B : leading calm inv (visit_LT nf k e a b A B).
Proof. unfold visit_LT. leading_visit. Qed.
Lemma leading_Not a : leading calm inv (visit_Not a).
Proof. unfold visit_Not. leading_visit. Qed.
Lemma leading_Select nf c t f : leading calm inv (visit_Select nf c t f).
Proof. unfold visit_Select. leading_visit. Qed.
Lemma leading_Ramp b s n : leading calm inv (visit_Ramp b s n).
Proof. unfold visit_Ramp. leading_visit. Qed.
Lemma leading_Cast nf t v : leading calm inv (visit_Cast nf t v).
Proof. unfold visit_Cast. leading_visit. Qed.
End Leading.

Section Correct.
Context (mutate : Mutate) (Mu : mutates mutate).

Abbreviation this := (run_prover mutate).

Lemma framed_read {A B} (f : Run -> B) (m : B -> R A) : (forall b, framed (m b)) -> framed (fun s => m (f s) s).
Proof. intros H s a s' E. now apply (H (f s) s a). Qed.

Lemma framed_set_knowledge {A} (m : R A) s k a s' : framed m ->
  map_scope replacement (var_info k) = map_scope replacement (var_info (knowledge s)) ->
  bounds_and_alignment_info k = bounds_and_alignment_info (knowledge s) -> facts k = facts (knowledge s) ->
  m (set_knowledge k s) = (a, s') -> frame s s'.
Proof.
  intros Fm V B Fa E. apply (frame_trans s (set_knowledge k s)); [|now apply (Fm _ a)].
  split; [now exists []|auto|]. intros _. unfold view. cbn. now rewrite V, B, Fa.
Qed.

(** Counting a use is not seen. *)
Lemma count_use_view f n k k' : (forall v, replacement (f v) = replacement v) -> count_use f n k = Some k' ->
  map_scope replacement (var_info k') = map_scope replacement (var_info k) /\
  bounds_and_alignment_info k' = bounds_and_alignment_info k /\ facts k' = facts k.
Proof.
  intros H. unfold count_use. destruct (modify (var_info k) n f) as [v|] eqn:E; [|discriminate].
  intros [= <-]. split; [|now split]. now apply (map_modify replacement _ n f).
Qed.

Lemma visit_Variable_view t n k st k' : visit_Variable t n k = Some (st, k') ->
  map_scope replacement (var_info k') = map_scope replacement (var_info k) /\
  bounds_and_alignment_info k' = bounds_and_alignment_info k /\ facts k' = facts k.
Proof.
  unfold visit_Variable. repeat case_goal; intros [= <- <-]; auto;
    match goal with H : count_use _ _ _ = Some _ |- _ => revert H; now apply count_use_view end.
Qed.

Lemma found_buffer_view n k k' : found_buffer_reference n k = Some k' ->
  map_scope replacement (var_info k') = map_scope replacement (var_info k) /\
  bounds_and_alignment_info k' = bounds_and_alignment_info k /\ facts k' = facts k.
Proof.
  unfold found_buffer_reference. case_goal; [now apply count_use_view|]. now intros [= <-].
Qed.

Ltac frame_step := first
  [ apply framed_done | apply framed_note | apply framed_fail | apply framed_info; exact Mu
  | apply framed_only; exact Mu | apply framed_mutate; exact Mu | apply framed_finish; exact Mu | apply framed_report
  | apply framed_bind; [|intros ?] | case_goal ].

Lemma framed_at {A} (m : M (prover := this) A) s a s' :
  (forall calm inv, frames (prover := this) calm inv -> leading (prover := this) calm inv m) ->
  m s = (a, s') -> frame s s'.
Proof. intros H. exact (framed_visit mutate Mu m H s a s'). Qed.

Ltac frame_visit :=
  let s := fresh "s" in let E := fresh "E" in intros s ? ? E; cbv beta in E;
  eapply framed_at; [|exact E]; intros;
  first [ apply leading_Add | apply leading_Sub | apply leading_Mul | apply leading_Div | apply leading_Mod
        | apply leading_Min | apply leading_Max | apply leading_And | apply leading_Or | apply leading_EQ_bool
        | apply leading_EQ_delta | apply leading_LT | apply leading_Not | apply leading_Select
        | apply leading_Ramp | apply leading_Cast ]; assumption.

Ltac frame_steps := repeat first [ solve [frame_visit] | frame_step ].

Lemma framed_arith op a b bounds : framed (visit_arith mutate op a b bounds).
Proof. unfold visit_arith, report_int. frame_steps. Qed.

Lemma framed_current : framed current.
Proof. intros s r s' [= _ <-]. apply frame_refl. Qed.

Lemma framed_junction op a b bounds : framed (visit_junction mutate op a b bounds).
Proof. unfold visit_junction. repeat first [apply framed_current | solve [frame_visit] | frame_step]. Qed.

Lemma framed_remake op a b bounds : framed (remake_cmp mutate op a b bounds).
Proof. unfold remake_cmp. frame_steps. Qed.

Lemma framed_equation a b bounds : framed (visit_equation mutate a b bounds).
Proof.
  unfold visit_equation.
  repeat first [apply framed_current | apply framed_remake | solve [frame_visit] | frame_step].
Qed.

Lemma framed_less a b bounds : framed (visit_less mutate a b bounds).
Proof. unfold visit_less. frame_steps. Qed.

Lemma framed_may t : framed (may t).
Proof. intros s r s' [= _ <-]. apply frame_refl. Qed.

Lemma framed_comparison op a b bounds : framed (visit_comparison mutate op a b bounds).
Proof.
  unfold visit_comparison. repeat case_goal; auto using framed_equation, framed_less;
    repeat first [apply framed_may | apply framed_remake | frame_step].
Qed.

Lemma framed_negation a bounds : framed (visit_negation mutate a bounds).
Proof. unfold visit_negation. frame_steps. Qed.

Lemma framed_selection c t f bounds : framed (visit_selection mutate c t f bounds).
Proof. unfold visit_selection. frame_steps. Qed.

Lemma framed_ramp b s n bounds : framed (visit_ramp mutate b s n bounds).
Proof. unfold visit_ramp, report_int. frame_steps. Qed.

Lemma framed_broadcast v n bounds : framed (visit_broadcast mutate v n bounds).
Proof. unfold visit_broadcast. frame_steps. Qed.

Lemma framed_cast t v bounds : framed (visit_cast mutate t v bounds).
Proof. unfold visit_cast. frame_steps. Qed.

Lemma framed_load t n p x al bounds : framed (visit_load mutate t n p x al bounds).
Proof.
  intros s r s'. unfold visit_load. destruct (found_buffer_reference n (knowledge s)) as [k|] eqn:E.
  - destruct (found_buffer_view n _ _ E) as (V & B & F). apply framed_set_knowledge; auto.
    unfold load_operands. frame_steps.
  - apply (framed_fail (Load t n p x al, bounds)).
Qed.

Lemma framed_name t n bounds : framed (visit_name mutate t n bounds).
Proof.
  intros s r s'. unfold visit_name. destruct (visit_Variable t n (knowledge s)) as [[st k]|] eqn:E.
  - destruct (visit_Variable_view _ _ _ _ _ E) as (V & B & F). apply framed_set_knowledge; auto. apply framed_finish. exact Mu.
  - eapply framed_fail.
Qed.

Lemma framed_node others e bounds : (forall e b, framed (others e b)) -> framed (visit_node mutate others e bounds).
Proof.
  intros H. destruct e; cbn [visit_node];
    auto using framed_arith, framed_junction, framed_comparison, framed_negation, framed_selection, framed_ramp,
      framed_broadcast, framed_cast, framed_load, framed_name; try apply framed_done.
  destruct op; auto using framed_arith, framed_junction.
Qed.
End Correct.
