(* ===== verification/NamedValues.v ===== *)
(** * Environments that give names their values

    The meaning of an expression depends on what the environment gives the
    names at the lanes of their types only.  So a let around an expression has
    the value of its body in an environment that gives the name its value. *)

From Stdlib Require Import ZArith Lia Bool List String.
From S2P Require Import Prelude.
From S2P Require Import HalideTypes.
From S2P Require Import IR.
From S2P Require Import Typing.
From S2P Require Import Visit.
From S2P Require Import Mutator.
From S2P Require Import Substitute.
From S2P Require Import SimplifyRun.
From S2P Require Import SimplifyNodes.
Import ListNotations.
Open Scope string_scope.
Open Scope list_scope.
Open Scope Z_scope.

Section Named.
Context (ty : string -> HType).

(** The same values at the lanes names have. *)
Record agree (a b : Env) : Prop := {
  agree_mem : mem a = mem b;
  agree_ext : ext a = ext b;
  agree_var : forall n j, lane_in (ty n) j -> var a n j = var b n j
}.

Lemma agree_refl a : agree a a.
Proof. now split. Qed.

Lemma agree_bind a b n f : agree a b -> (forall j, lane_in (ty n) j -> var a n j = f j) -> agree a (bind b n f).
Proof.
  intros [M E V] H. split; [exact M|exact E|]. intros m j L. destruct (String.eqb_spec m n) as [->|N].
  - rewrite bind_same. now apply H.
  - rewrite bind_other by congruence. now apply V.
Qed.

(** The expression means the same in both environments. *)
Definition means (a b : Env) (e : Expr) : Prop :=
  forall i, lane_in (type_of e) i -> ev b i e = ev a i e /\ defined b i e.

Lemma call_defined b i t n args ct vi : wf (ECall t n args ct vi) = true -> args_lanes (ECall t n args ct vi) ->
  lane_in t i -> Forall (fun e => forall j, lane_in (type_of e) j -> defined b j e) args ->
  is_poison n ct = false -> in_type t (ev b i (ECall t n args ct vi)) -> defined b i (ECall t n args ct vi).
Proof.
  intros W A L D P I. assert (All : Forall (defined b i) args).
  { clear - A L D. cbn [args_lanes] in A. induction args as [|a l IH]; constructor; inversion A; inversion D; subst; auto.
    apply H5. destruct H1 as [S|S]; [now left|now apply (lane_in_lanes t)]. }
  split; [split; [exact P|]|split; [exact I|]]; clear - All; induction All as [|a l [O F] _ IH]; try exact Logic.I.
  all: split; auto.
Qed.

Lemma shuffle_defined b i vs ixs : Forall (fun e => forall j, lane_in (type_of e) j -> defined b j e) vs ->
  in_type (type_of (Shuffle vs ixs)) (ev b i (Shuffle vs ixs)) -> defined b i (Shuffle vs ixs).
Proof.
  intros D I. split; [|split; [exact I|]]; cbn [ok]; clear I; induction D as [|a l Da _ IH]; try exact Logic.I;
    (split; [|exact IH]); intros j J; now apply Da.
Qed.

(** Children that mean the same make a node that does. *)
Lemma plain_means a b e : agree a b -> plain e = true -> wf e = true -> args_lanes e ->
  (forall i, lane_in (type_of e) i -> defined a i e) -> Forall (means a b) (children e) -> means a b e.
Proof.
  intros [M E _] N W A D C i L.
  assert (V : ev b i e = ev a i e).
  { rewrite <- (visit_children_same (fun x => x) e) at 1 by (now apply Forall_forall).
    apply (visit_children_value (fun x => x) b a); auto. eapply Forall_impl; [|exact C].
    intros x H. split; [reflexivity|]. intros j J. now apply H. }
  split; [exact V|]. specialize (D i L). pose proof (fits_in_type a i e (proj2 D)) as It. rewrite <- V in It.
  destruct e; try discriminate N; try exact D; cbn [children] in C;
    try apply Forall_three in C as (C1 & C2 & C3); try apply Forall_two in C as [C1 C2];
    try (apply Forall_inv in C; rename C into C1).
  - destruct (C1 i (cast_lanes _ _ _ W L)) as [_ [O F]]. now split.
  - destruct (bin_lanes _ _ _ _ W L) as [L1 L2]. destruct (C1 i L1) as [_ [O1 F1]], (C2 i L2) as [V2 [O2 F2]].
    split; [|now split]. split; [exact O1|]. split; [exact O2|]. destruct D as [(_ & _ & D) _].
    destruct op; auto; now rewrite V2.
  - destruct (cmp_lanes _ _ _ _ W L) as [L1 L2]. destruct (C1 i L1) as [_ [O1 F1]], (C2 i L2) as [V2 [O2 F2]].
    split; now split.
  - destruct (C1 i L) as [_ [O1 F1]]. split; [exact O1|now split].
  - destruct (select_lanes _ _ _ _ W L) as [L1 L3].
    destruct (C1 i L1) as [_ [O1 F1]], (C2 i L) as [_ [O2 F2]], (C3 i L3) as [_ [O3 F3]].
    unfold defined. cbn [ok fits]. auto 10.
  - destruct (load_lanes _ _ _ _ _ _ W L) as [_ L2]. destruct (C2 i L2) as [_ [O2 F2]]. now split.
  - destruct (ramp_scalars _ _ _ W i) as [L1 L2].
    destruct (C1 i L1) as [_ [O1 F1]], (C2 i L2) as [_ [O2 F2]].
    unfold defined. cbn [ok fits]. auto 10.
  - destruct (C1 i (broadcast_scalar _ _ W i)) as [_ [O1 F1]]. split; [exact O1|now split].
  - apply call_defined; auto; [|apply D]. eapply Forall_impl; [|exact C]. intros x H j J. now apply H.
  - apply shuffle_defined; auto. eapply Forall_impl; [|exact C]. intros x H j J. now apply H.
Qed.

Lemma let_env a b n v : agree a b -> settled ty a (ELet n v v) -> means a b v ->
  agree a (bind b n (fun j => ev b j v)).
Proof.
  intros A [T V] Mv. apply agree_bind; [exact A|]. intros j J. rewrite (V j J). symmetry. apply Mv. now rewrite T.
Qed.

(** An expression that is well behaved in an environment is so, with the same
    values, in those that agree with it. *)
Lemma everywhere_agree e : wf e = true -> forall a b, everywhere ty a e -> agree a b -> means a b e.
Proof.
  induction e as [e IH] using Expr_children_ind. intros W a b Ev A.
  pose proof (everywhere_local _ _ _ Ev) as (D & _ & S).
  pose proof (everywhere_children _ _ _ Ev) as Ec. pose proof (wf_children e W) as Wc.
  assert (C : Forall (means a b) (children e)).
  { rewrite Forall_forall in *. intros x X. apply IH; auto. }
  destruct (plain e) eqn:P.
  - apply plain_means; auto. destruct e; try exact I. exact S.
  - destruct e; try discriminate P.
    + intros i L. cbn [settled] in S. subst t. split; [|split; [exact I|]].
      * cbn [ev]. cbn [type_of] in L. now rewrite (agree_var _ _ A) by (now apply lane_in_lane_of).
      * split; [|exact I]. cbn [type_of ev] in *. rewrite <- (agree_var _ _ A) by (now apply lane_in_lane_of).
        apply (fits_in_type a i (EVariable (ty name) name)), (D i L).
    + cbn [children] in *. apply Forall_two in C as [C1 _]. apply Forall_two in Ec as [E1 E2].
      apply Forall_two in Wc as [W1 W2]. apply Forall_two in IH as [_ IH].
      assert (G : forall c, agree a c -> means a c e1 -> means a (bind c name (fun j => ev c j e1)) e2).
      { intros c Ac Mc. apply IH; auto. apply let_env; auto. }
      assert (M1 : means a a e1) by (intros i L; split; [reflexivity|now apply (everywhere_defined ty)]).
      intros i L. destruct (G a (agree_refl a) M1 i L) as [Va _]. destruct (G b A C1 i L) as [Vb [Ob Fb]].
      assert (V : ev b i (ELet name e1 e2) = ev a i (ELet name e1 e2)) by (cbn [ev]; congruence).
      split; [exact V|]. split; [|split].
      * split; [|exact Ob]. intros j J. apply C1, J.
      * rewrite V. apply (fits_in_type a i (ELet name e1 e2)), (D i L).
      * split; [|exact Fb]. intros j J. apply C1, J.
Qed.

(** A let has the value of its body. *)
Lemma let_value env n v b i : wf v = true -> wf b = true -> everywhere ty env v -> everywhere ty env b ->
  names ty env n v -> lane_in (type_of b) i ->
  ev env i (ELet n v b) = ev env i b /\ defined env i (ELet n v b).
Proof.
  intros Wv Wb Ev Eb [T V] L.
  assert (A : agree env (bind env n (fun j => ev env j v))) by (apply agree_bind; [apply agree_refl|exact V]).
  destruct (everywhere_agree b Wb _ _ Eb A i L) as [Vb [O F]]. split; [exact Vb|].
  assert (D : forall j, lane_in (type_of v) j -> defined env j v) by (intros; now apply (everywhere_defined ty)).
  split; [split; [intros j J; apply D, J|exact O]|split; [|split; [intros j J; apply D, J|exact F]]].
  cbn [type_of ev]. rewrite Vb. apply fits_in_type, (everywhere_defined ty env b i Eb L).
Qed.

Lemma everywhere_let env n v b : wf v = true -> wf b = true -> everywhere ty env v -> everywhere ty env b ->
  names ty env n v -> everywhere ty env (ELet n v b).
Proof.
  intros Wv Wb Ev Eb N. constructor; [split; [|split]|cbn [children]; auto].
  - intros i L. now apply let_value.
  - intros Sc i. destruct (let_value env n v b i) as [-> _]; auto; [now left|].
    destruct (let_value env n v b 0) as [-> _]; auto; [now left|]. now apply (everywhere_uniform ty).
  - exact N.
Qed.
End Named.
