(* ===== verification/ListNodes.v ===== *)
(** * Nodes with lists of operands

    Shuffles and calls made again from operands that stand for theirs, and the
    concatenation of vectors. *)

From Stdlib Require Import ZArith Lia Bool List String.
From S2P Require Import Prelude.
From S2P Require Import HalideTypes.
From S2P Require Import IR.
From S2P Require Import Typing.
From S2P Require Import Visit.
From S2P Require Import Mutator.
From S2P Require Import SimplifyRun.
From S2P Require Import SimplifyNodes.
From S2P Require Import NamedValues.
Import ListNotations.
Open Scope string_scope.
Open Scope list_scope.
Open Scope Z_scope.

(** ** Types *)

Lemma in_place_refl e : wf e = true -> in_place e e.
Proof. now split. Qed.

Lemma remade_lanes vs vs' : Forall2 in_place vs vs' -> total_lanes vs' = total_lanes vs.
Proof.
  induction 1 as [|a b l l' [_ T] _ IH]; [reflexivity|]. unfold total_lanes in *. cbn [fold_right]. now rewrite T, IH.
Qed.

Lemma remade_wf vs vs' : Forall2 in_place vs vs' -> forallb wf vs' = true.
Proof. induction 1 as [|a b l l' [W _] _ IH]; cbn; [reflexivity|]. now rewrite W, IH. Qed.

Lemma remade_elements t vs vs' : Forall2 in_place vs vs' ->
  forallb (fun u => type_eqb (element_of (type_of u)) t) vs' = forallb (fun u => type_eqb (element_of (type_of u)) t) vs.
Proof. induction 1 as [|a b l l' [_ T] _ IH]; cbn; [reflexivity|]. now rewrite T, IH. Qed.

Lemma rewf_shuffle vs vs' ixs : wf (Shuffle vs ixs) = true -> Forall2 in_place vs vs' ->
  in_place (Shuffle vs ixs) (Shuffle vs' ixs).
Proof.
  intros W P. pose proof (remade_wf _ _ P) as Wv. pose proof (remade_lanes _ _ P) as L.
  destruct P as [|a b l l' [Wb T] P]; [destruct ixs; discriminate W|].
  assert (Ty : type_of (Shuffle (b :: l') ixs) = type_of (Shuffle (a :: l) ixs)) by (cbn [type_of]; now rewrite T).
  split; [|exact Ty]. cbn [wf] in *. rewrite Wv, Ty, T. fold (total_lanes (a :: l)) in W. fold (total_lanes (b :: l')).
  rewrite L. rewrite (remade_elements _ (a :: l) (b :: l')) by (constructor; [now split|exact P]).
  apply andb_true_iff in W. destruct W as [_ W]. exact W.
Qed.

Lemma rewf_call t n args args' ct vi ct' vi' : wf (ECall t n args ct vi) = true -> Forall2 in_place args args' ->
  is_likely n ct' = is_likely n ct -> in_place (ECall t n args ct vi) (ECall t n args' ct' vi').
Proof.
  intros W P K. split; [|reflexivity]. pose proof (remade_wf _ _ P) as Wv. cbn [wf] in *. rewrite Wv, K.
  destr_and. rewrite !andb_true_iff. repeat split; auto. destruct (is_likely n ct); [|reflexivity].
  destruct P as [|a b l l' [_ T] P]; [discriminate|]. destruct P; [|discriminate]. now rewrite T.
Qed.

(** ** Values *)

Section Values.
Context (ty : string -> HType) (env : Env).

Abbreviation everywhere := (everywhere ty env).
Abbreviation good := (good ty env).

Lemma pick_good vs vs' : Forall2 in_place vs vs' -> Forall2 good vs vs' -> forall k, 0 <= k < total_lanes vs ->
  pick env vs' k = pick env vs k.
Proof.
  induction 1 as [|a b l l' [_ T] _ IH]; intros G k R; [reflexivity|]. inversion G as [|? ? ? ? [_ V] Gl]; subst.
  cbn [pick]. rewrite T. unfold total_lanes in *. cbn [fold_right] in R.
  destruct (Z.ltb_spec k (lanes (type_of a))); [apply V; right; lia|apply IH; auto; lia].
Qed.

Lemma good_everywhere vs vs' : Forall2 good vs vs' -> Forall everywhere vs'.
Proof. induction 1 as [|a b l l' [E _] _ IH]; auto. Qed.

Lemma everywhere_defined_all vs : Forall everywhere vs ->
  Forall (fun e => forall j, lane_in (type_of e) j -> defined env j e) vs.
Proof. apply Forall_impl. intros a E j. now apply (everywhere_defined ty). Qed.

Lemma good_shuffle vs vs' ixs : wf (Shuffle vs ixs) = true -> everywhere (Shuffle vs ixs) ->
  Forall2 in_place vs vs' -> Forall2 good vs vs' -> good (Shuffle vs ixs) (Shuffle vs' ixs).
Proof.
  intros W E P G. pose proof (good_everywhere _ _ G) as Ev. pose proof (rewf_shuffle _ _ _ W P) as [_ Ty].
  assert (V : forall i, lane_in (type_of (Shuffle vs ixs)) i -> ev env i (Shuffle vs' ixs) = ev env i (Shuffle vs ixs)).
  { intros i L. rewrite !ev_shuffle. apply pick_good; auto. now apply shuffle_lane. }
  apply good_node; auto; [|exact I]. intros i L. split; [|now apply V].
  apply shuffle_defined; [now apply everywhere_defined_all|]. rewrite Ty, V by exact L.
  apply fits_in_type, (everywhere_defined ty env _ i E L).
Qed.

Lemma args_remade t args args' : Forall2 in_place args args' ->
  Forall (fun a => is_scalar (type_of a) = true \/ lanes (type_of a) = lanes t) args ->
  Forall (fun a => is_scalar (type_of a) = true \/ lanes (type_of a) = lanes t) args'.
Proof.
  induction 1 as [|a b l l' [_ T] _ IH]; intros A; [exact A|]. inversion A; subst. constructor; [now rewrite T|auto].
Qed.

Lemma args_good t args args' i : Forall2 good args args' ->
  Forall (fun a => is_scalar (type_of a) = true \/ lanes (type_of a) = lanes t) args -> lane_in t i ->
  map (ev env i) args' = map (ev env i) args.
Proof.
  intros G A L. induction G as [|a b l l' [_ V] _ IH]; [reflexivity|]. inversion A as [|? ? La Al]; subst.
  cbn [map]. rewrite (IH Al). f_equal. apply V. destruct La as [La|La]; [now left|now apply (lane_in_lanes t)].
Qed.

Lemma good_call t n args args' ct vi ct' vi' : wf (ECall t n args ct vi) = true -> everywhere (ECall t n args ct vi) ->
  Forall2 in_place args args' -> Forall2 good args args' -> is_likely n ct' = is_likely n ct ->
  is_poison n ct' = is_poison n ct -> good (ECall t n args ct vi) (ECall t n args' ct' vi').
Proof.
  intros W E P G Kl Kp. pose proof (good_everywhere _ _ G) as Ev.
  pose proof (rewf_call _ _ _ _ _ _ ct' vi' W P Kl) as [W' _].
  pose proof (everywhere_local _ _ _ E) as (D & _ & A). cbn [settled args_lanes] in A.
  assert (V : forall i, lane_in t i -> ev env i (ECall t n args' ct' vi') = ev env i (ECall t n args ct vi)).
  { intros i L. pose proof (args_good t args args' i G A L) as Ea. cbn [ev]. rewrite Kl, Ea.
    destruct P as [|a b l l' _ P]; [reflexivity|]. destruct P; [|reflexivity]. injection Ea as Ea. now rewrite Ea. }
  pose proof (args_remade t args args' P A) as A'.
  apply good_node; auto. intros i L. split; [|now apply V].
  apply call_defined; auto; [now apply everywhere_defined_all| |].
  - destruct (D i L) as [[Po _] _]. now rewrite Kp.
  - rewrite V by exact L. apply (fits_in_type env i (ECall t n args ct vi)), (D i L).
Qed.
End Values.

(** ** Concatenation *)

Definition concat_indices (n : Z) : list Z := map Z.of_nat (seq 0 (Z.to_nat n)).

(** [Shuffle::make_concat] and [Shuffle::is_concat]. *)
Definition make_concat (vs : list Expr) : Expr :=
  match vs with
  | [v] => v
  | _ => Shuffle vs (concat_indices (total_lanes vs))
  end.

Definition is_concat (vs : list Expr) (ixs : list Z) : bool :=
  (Z.of_nat (List.length ixs) =? total_lanes vs) && is_ramp ixs 1.

Lemma length_concat_indices n : 0 <= n -> Z.of_nat (List.length (concat_indices n)) = n.
Proof. intros N. unfold concat_indices. rewrite length_map, length_seq. lia. Qed.

Lemma nth_concat_indices n k : 0 <= k < n -> nth (Z.to_nat k) (concat_indices n) 0 = k.
Proof.
  intros R. unfold concat_indices. rewrite (nth_indep _ 0 (Z.of_nat 0)) by (rewrite length_map, length_seq; lia).
  rewrite map_nth, seq_nth by lia. lia.
Qed.

Lemma In_concat_indices n i : In i (concat_indices n) -> 0 <= i < n.
Proof.
  unfold concat_indices. rewrite in_map_iff. intros (k & <- & H). apply in_seq in H. lia.
Qed.

Lemma wf_lanes e : wf e = true -> 1 <= lanes (type_of e) < lanes_limit.
Proof. intros W. destruct (wf_wf_type e W) as [_ V]. unfold valid_lanes in V. zify_bool. lia. Qed.

Lemma total_lanes_pos vs : forallb wf vs = true -> 0 <= total_lanes vs.
Proof.
  induction vs as [|v l IH]; [easy|]. cbn [forallb]. intros W. apply andb_true_iff in W. destruct W as [Wv W].
  pose proof (wf_lanes v Wv). unfold total_lanes in *. cbn [fold_right]. specialize (IH W). lia.
Qed.

(** The vectors of a shuffle, in one. *)
Section Concat.
Context (vs : list Expr) (ixs : list Z) (W : wf (Shuffle vs ixs) = true).

Lemma shuffle_vectors : exists v l, vs = v :: l /\ forallb wf vs = true /\ 1 <= total_lanes vs /\
  forallb (fun u => type_eqb (element_of (type_of u)) (element_of (type_of v))) vs = true /\
  valid_lanes (type_of (Shuffle vs ixs)) = true /\
  forallb (fun i => (0 <=? i) && (i <? total_lanes vs)) ixs = true.
Proof.
  pose proof W as H. cbn [wf] in H. apply andb_true_iff in H. destruct H as [Wv H]. destruct vs as [|v l]; [discriminate|].
  exists v, l. destr_and. repeat match goal with |- _ /\ _ => split end; auto.
  cbn [forallb] in Wv. apply andb_true_iff in Wv. destruct Wv as [Wv Wl].
  pose proof (wf_lanes v Wv). pose proof (total_lanes_pos l Wl). unfold total_lanes in *. cbn [fold_right]. lia.
Qed.

Lemma concat_type : lanes (type_of (make_concat vs)) = total_lanes vs /\
  forall v l, vs = v :: l -> type_of (make_concat vs) = with_lanes (type_of v) (total_lanes vs).
Proof.
  destruct shuffle_vectors as (v & l & E & _ & P & _). clear W. subst vs.
  assert (G : type_of (make_concat (v :: l)) = with_lanes (type_of v) (total_lanes (v :: l))).
  { unfold make_concat. destruct l as [|u l]; [unfold total_lanes; cbn; rewrite Z.add_0_r; now destruct (type_of v)|].
    cbn [type_of]. now rewrite length_concat_indices by lia. }
  split; [now rewrite G|]. intros v' l' [= <- <-]. exact G.
Qed.

Lemma concat_wf : total_lanes vs < lanes_limit -> wf (make_concat vs) = true.
Proof.
  intros B. destruct shuffle_vectors as (v & l & E & Wv & P & El & _). pose proof concat_type as [_ T].
  specialize (T v l E). clear W. subst vs. unfold make_concat in *.
  destruct l as [|u l]; [cbn in Wv; now rewrite andb_true_r in Wv|].
  cbn [wf]. rewrite Wv, El, T. cbn [andb]. fold (total_lanes (v :: u :: l)). unfold valid_lanes, with_lanes, lanes.
  rewrite (proj2 (Z.leb_le _ _) P), (proj2 (Z.ltb_lt _ _) B). cbn [andb]. apply forallb_forall.
  intros i I. apply In_concat_indices in I. apply andb_true_iff. rewrite Z.leb_le, Z.ltb_lt. lia.
Qed.

Lemma concat_value env k : 0 <= k < total_lanes vs -> ev env k (make_concat vs) = pick env vs k.
Proof.
  intros R. destruct shuffle_vectors as (v & l & E & _). clear W. subst vs. unfold make_concat.
  destruct l as [|u l].
  - cbn [pick]. unfold total_lanes in R. cbn [fold_right] in R. now rewrite (proj2 (Z.ltb_lt _ _)) by lia.
  - rewrite ev_shuffle. f_equal. destruct (Nat.eqb_spec (List.length (concat_indices (total_lanes (v :: u :: l)))) 1) as [L|L].
    + assert (N := length_concat_indices (total_lanes (v :: u :: l)) ltac:(lia)). rewrite L in N.
      replace k with 0 by lia. now apply nth_concat_indices; lia.
    + now apply nth_concat_indices.
Qed.

Lemma pick_in_range env k : Forall (fun u => forall j, lane_in (type_of u) j -> in_type (type_of u) (ev env j u)) vs ->
  0 <= k < total_lanes vs -> in_type (type_of (make_concat vs)) (pick env vs k).
Proof.
  destruct shuffle_vectors as (v & l & E & _ & _ & El & _). destruct concat_type as [_ T]. rewrite (T v l E).
  clear W T. clear E. revert k El. generalize (total_lanes vs) at 2 as n. intros n k El F R.
  rewrite forallb_forall in El. rewrite Forall_forall in F. revert k R El F.
  unfold total_lanes. induction vs as [|u us IH]; intros k R El F; [cbn in R; lia|]. cbn [fold_right] in R. cbn [pick].
  destruct (Z.ltb_spec k (lanes (type_of u))).
  - specialize (El u (or_introl eq_refl)). apply type_eqb_eq in El. specialize (F u (or_introl eq_refl) k (or_intror (conj (proj1 R) H))).
    apply (in_type_elt (type_of u)); [|exact F].
    unfold element_of, with_lanes in El. injection El as C B. now split.
  - apply IH; [lia| |]; intros x X; [apply El|apply F]; now right.
Qed.
End Concat.

(** The indices of a concatenation. *)
Lemma ramp_indices l : forall i, is_ramp (i :: l) 1 = true ->
  i :: l = map (fun k => i + Z.of_nat k) (seq 0 (S (List.length l))).
Proof.
  induction l as [|j l IH]; intros i R; [cbn; now rewrite Z.add_0_r|]. cbn [is_ramp] in R. apply andb_true_iff in R.
  destruct R as [E R]. apply Z.eqb_eq in E. subst j. specialize (IH _ R). rewrite IH at 1.
  change (seq 0 (S (List.length ((i + 1) :: l)))) with (0%nat :: seq 1 (S (List.length l))).
  cbn [map]. replace (i + Z.of_nat 0) with i by lia. f_equal. rewrite <- seq_shift, map_map. apply map_ext. intros k. lia.
Qed.

Lemma concat_is vs ixs : wf (Shuffle vs ixs) = true -> is_concat vs ixs = true ->
  ixs = concat_indices (total_lanes vs).
Proof.
  intros W C. unfold is_concat in C. apply andb_true_iff in C. destruct C as [L R]. apply Z.eqb_eq in L.
  destruct (shuffle_vectors vs ixs W) as (v & l & _ & _ & P & _ & _ & Ix). destruct ixs as [|i ixs]; [cbn in L; lia|].
  rewrite forallb_forall in Ix. pose proof (Ix i (or_introl eq_refl)) as I0. apply ramp_indices in R.
  assert (Il : In (i + Z.of_nat (List.length ixs)) (i :: ixs)).
  { rewrite R. apply in_map_iff. exists (List.length ixs). split; [reflexivity|]. apply in_seq. lia. }
  apply Ix in Il. zify_bool. cbn [List.length] in L. assert (i = 0) by lia. subst i. rewrite R. unfold concat_indices.
  replace (Z.to_nat (total_lanes vs)) with (S (List.length ixs)) by lia. apply map_ext. intros k. lia.
Qed.

(** A slice of a concatenation is a slice of what the concatenation is made into. *)
Lemma slice_in_place vs ixs w : wf (Shuffle vs ixs) = true -> in_place (make_concat vs) w ->
  in_place (Shuffle vs ixs) (Shuffle [w] ixs).
Proof.
  intros W Pw.  destruct (shuffle_vectors vs ixs W) as (v & l & Ev & Wv & P & El & Vl & Ix).
  pose proof (concat_type vs ixs W) as [T Ty]. destruct Pw as [Ww Tw]. specialize (Ty v l Ev). rewrite <- Tw in T, Ty.
  assert (K : type_of (Shuffle [w] ixs) = type_of (Shuffle vs ixs)) by (subst vs; cbn [type_of]; now rewrite Ty).
  split; [|exact K]. cbn [wf forallb fold_right]. rewrite K, Vl, Ww, type_eqb_refl, Z.add_0_r, T.
  exact Ix.
Qed.

Section Slice.
Context (ty : string -> HType) (env : Env) (vs : list Expr) (ixs : list Z).
Context (W : wf (Shuffle vs ixs) = true) (E : everywhere ty env (Shuffle vs ixs)).

Lemma everywhere_concat : everywhere ty env (make_concat vs).
Proof.
  destruct (shuffle_vectors vs ixs W) as (v & l & Ev & Wv & P & _). pose proof (everywhere_children _ _ _ E) as C.
  pose proof (concat_type vs ixs W) as [T _]. cbn [children] in C.
  assert (F : Forall (fun u => forall j, lane_in (type_of u) j -> in_type (type_of u) (ev env j u)) vs).
  { eapply Forall_impl; [|exact C]. intros u Eu j J. apply fits_in_type, (everywhere_defined ty env u j Eu J). }
  pose proof (fun k => concat_value vs ixs W env k) as V. pose proof (fun k => pick_in_range vs ixs W env k F) as R.
  subst vs. destruct l as [|u l]; [now apply Forall_inv in C|].
  assert (N : is_scalar (type_of (make_concat (v :: u :: l))) = false).
  { unfold is_scalar. rewrite T. cbn [forallb] in Wv. destr_and. apply Z.eqb_neq.
    pose proof (wf_lanes v H). pose proof (wf_lanes u H0). pose proof (total_lanes_pos l H1).
    unfold total_lanes in *. cbn [fold_right]. lia. }
  constructor; [|exact C]. split; [|split; [now rewrite N|exact I]].
  intros i [L|L]; [now rewrite N in L|]. rewrite T in L. apply shuffle_defined; [now apply (everywhere_defined_all ty)|].
  change (in_type (type_of (make_concat (v :: u :: l))) (ev env i (make_concat (v :: u :: l)))).
  rewrite V by exact L. now apply R.
Qed.

Context (w : Expr) (Pw : in_place (make_concat vs) w).

Lemma good_slice : good ty env (make_concat vs) w -> good ty env (Shuffle vs ixs) (Shuffle [w] ixs).
Proof.
  intros [Ew Vw]. destruct Pw as [_ Tw]. pose proof (slice_in_place vs ixs w W Pw) as [_ K].
  pose proof (concat_type vs ixs W) as [T _].
  assert (V : forall i, lane_in (type_of (Shuffle vs ixs)) i -> ev env i (Shuffle [w] ixs) = ev env i (Shuffle vs ixs)).
  { intros i L. pose proof (shuffle_lane _ _ _ W L) as R. rewrite !ev_shuffle. set (k := nth _ _ _) in *.
    fold (total_lanes vs) in R. cbn [pick]. rewrite Tw, T, (proj2 (Z.ltb_lt _ _)) by lia.
    rewrite <- (concat_value vs ixs W) by exact R. apply Vw. right. lia. }
  apply good_node; auto; [|constructor; [exact Ew|constructor]|exact I]. intros i L. split; [|now apply V].
  apply shuffle_defined; [constructor; [|constructor]; intros j J; now apply (everywhere_defined ty)|].
  rewrite K, V by exact L. apply fits_in_type, (everywhere_defined ty env _ i E L).
Qed.
End Slice.
