(* ===== verification/LetPeel.v ===== *)
(** * Peeling operations off let values

    The inner loop of [simplify_let] in src/Simplify_Let.cpp, which moves
    operations from the value of a let into its body. *)

From Stdlib Require Import ZArith Lia Bool List String.
From S2P Require Import Prelude.
From S2P Require Import IntArith.
From S2P Require Import ModulusRemainder.
From S2P Require Import Scope.
From S2P Require Import HalideTypes.
From S2P Require Import IR.
From S2P Require Import Typing.
From S2P Require Import Visit.
From S2P Require Import Mutator.
From S2P Require Import Substitute.
From S2P Require Import ExprInfo.
From S2P Require Import ScopedFact.
From S2P Require Import SimplifyRun.
From S2P Require Import SimplifyNodes.
From S2P Require Import NamedValues.
From S2P Require Import ListNodes.
Import ListNotations.
Open Scope string_scope.
Open Scope list_scope.
Open Scope Z_scope.

(** ** Peeling operations off a value *)

Definition is_variable (e : Expr) : bool := match e with EVariable _ _ => true | _ => false end.

(** What the loop of [simplify_let] does with a value: it is substituted and
    the loop ends, an operation around [next] is moved into the body, or
    nothing is peeled.  A concatenation can have more lanes than types have. *)
Inductive Peel :=
| Whole
| Inward (around : Expr -> Expr) (next : Expr)
| Too_wide
| Outside.

Definition peel (v : Expr) : Peel :=
  if is_const v then Whole
  else match v with
  | EVariable _ _ => Whole
  | EBin Add a b =>
      if is_const b || is_variable b then Inward (fun x => EBin Add x b) a
      else if is_variable a then Inward (fun x => EBin Add a x) b
      else Outside
  | EBin ((Mul | Sub) as op) a b =>
      if is_const b || is_variable b then Inward (fun x => EBin op x b) a else Outside
  | EBin ((Div | Mod | Min | Max) as op) a b =>
      if is_const b then Inward (fun x => EBin op x b) a else Outside
  | Ramp b s n => if is_const s then Inward (fun x => Ramp x s n) b else Outside
  | Broadcast u n => Inward (fun x => Broadcast x n) u
  | Cast t u => if bits (type_of u) <? bits t then Inward (fun x => Cast t x) u else Outside
  | Shuffle vs ixs =>
      if is_slice vs ixs then
        if total_lanes vs <? lanes_limit
        then Inward (fun x => Shuffle [x] ixs) (make_concat vs)
        else Too_wide
      else match vs with
      | [a; b] =>
          if is_concat vs ixs then
            if is_variable a && negb (is_variable b) then Inward (fun x => make_concat [a; x]) b
            else if negb (is_variable a) && is_variable b then Inward (fun x => make_concat [x; b]) a
            else Outside
          else Outside
      | _ => Outside
      end
  | ECall t n args ct vi =>
      match args with
      | [a] => if is_likely n ct then Inward (fun x => ECall t n [x] PureIntrinsic 0) a else Outside
      | _ => Outside
      end
  | _ => Outside
  end.

(** [substitute(name, replacement, e)]. *)
Definition substituted (name : string) (r e : Expr) : Expr :=
  match substitute name r e with Some e' => e' | None => e end.

(** How the loop ends: with the replacement of the old name, and what is left
    of the value for the new name, if anything. *)
Inductive Peeled :=
| Peeled_to (replacement : Expr) (new_value : option Expr)
| Peeled_wide
| Peeled_on.

Fixpoint peel_loop (fuel : nat) (name : string) (new_value replacement : Expr) : Peeled :=
  match fuel with
  | O => Peeled_on
  | S fuel =>
      match peel new_value with
      | Whole => Peeled_to (substituted name new_value replacement) None
      | Inward around next =>
          peel_loop fuel name next (substituted name (around (EVariable (type_of next) name)) replacement)
      | Too_wide => Peeled_wide
      | Outside => Peeled_to replacement (Some new_value)
      end
  end.

(** The nodes of an expression; a slice turns into a concatenation once. *)
Fixpoint nodes (e : Expr) : nat :=
  match e with
  | IntImm _ _ | UIntImm _ _ | FloatImm _ _ | StringImm _ | EVariable _ _ => 1
  | Cast _ a | ENot a | Broadcast a _ => 1 + nodes a
  | EBin _ a b | ECmp _ a b | Ramp a b _ | Load _ _ a b _ | ELet _ a b => 1 + nodes a + nodes b
  | Select a b c => 1 + nodes a + nodes b + nodes c
  | ECall _ _ l _ _ | Shuffle l _ => 1 + fold_right (fun a n => nodes a + n) 0 l
  end%nat.

Definition peel_fuel (e : Expr) : nat :=
  (2 * nodes e + match e with Shuffle vs ixs => if is_slice vs ixs then 1 else 0 | _ => 0 end)%nat.

(** The replacement of a name and the new value of a let of [value]. *)
Definition peel_value (name : string) (value : Expr) : Peeled :=
  peel_loop (peel_fuel value) name value (EVariable (type_of value) name).

(** ** The loop ends *)

Lemma nodes_pos e : (1 <= nodes e)%nat.
Proof. destruct e; cbn; lia. Qed.

Lemma peel_fuel_pos e : (1 <= peel_fuel e)%nat.
Proof. unfold peel_fuel. pose proof (nodes_pos e). lia. Qed.

Lemma fuel_of_smaller a b : (nodes a < nodes b)%nat -> (peel_fuel a < peel_fuel b)%nat.
Proof.
  intros L. unfold peel_fuel. destruct a; try lia. destruct (is_slice _ _); lia.
Qed.

Lemma concat_not_slice vs : 0 <= total_lanes vs -> is_slice vs (concat_indices (total_lanes vs)) = false.
Proof.
  intros P. unfold is_slice. rewrite length_concat_indices by exact P. now rewrite Z.ltb_irrefl.
Qed.

(** The case of [peel] that answers. *)
Ltac peel_case H := repeat (match type of H with (match ?x with _ => _ end) = _ => destruct x eqn:? end; try discriminate H);
  try (injection H as <- <-).

Lemma peel_decreases v around next : wf v = true -> peel v = Inward around next -> (peel_fuel next < peel_fuel v)%nat.
Proof.
  intros W. unfold peel. destruct (is_const v); [discriminate|].
  destruct v as [| | | | | |op a b| | | | | | |t n args ct vi| |vs ixs]; try discriminate; intros H;
    try (peel_case H; apply fuel_of_smaller; cbn; lia).
  revert H. destruct (is_slice vs ixs) eqn:Sl.
  - destruct (_ <? _); [|discriminate]. intros [= <- <-]. pose proof (shuffle_vectors vs ixs W) as (v & l & E & _ & P & _).
    unfold make_concat. subst vs. destruct l as [|u l]; [apply fuel_of_smaller; cbn; lia|].
    unfold peel_fuel. rewrite concat_not_slice by lia. rewrite Sl. cbn [nodes]. lia.
  - destruct vs as [|a [|b [|]]]; try discriminate. intros H. peel_case H; apply fuel_of_smaller; cbn; lia.
Qed.

(** ** What is peeled off *)

(** The operation around what is left makes what was there. *)
Record peeled (v : Expr) (around : Expr -> Expr) (next : Expr) : Prop := {
  pl_wf : wf next = true;
  pl_place : forall w, in_place next w -> in_place v (around w);
  pl_good : forall ty env w, everywhere ty env v -> in_place next w -> good ty env next w -> good ty env v (around w);
  pl_everywhere : forall ty env, everywhere ty env v -> everywhere ty env next;
  pl_fresh : forall name, expr_uses_var v name = false -> expr_uses_var next name = false;
  pl_subst : forall name u w, expr_uses_var v name = false ->
    in_place next w -> in_place next (subst (singleton name u) w) -> subst (singleton name u) (around w) = around (subst (singleton name u) w)
}.

Ltac split_uses U := cbn [expr_uses_var existsb] in U; rewrite ?orb_false_iff in U;
  repeat match goal with H : _ /\ _ |- _ => destruct H end.

Lemma peeled_left op a b : wf (EBin op a b) = true -> peeled (EBin op a b) (fun x => EBin op x b) a.
Proof.
  intros W. destruct (wf_binary _ _ _ W) as (Wa & Wb & _ & _). split; auto.
  - intros w P. apply rewf_bin; auto. now apply in_place_refl.
  - intros ty env w E P G. pose proof (everywhere_children _ _ _ E) as C. apply Forall_two in C as [_ Eb].
    apply good_bin; auto; [now apply in_place_refl|now apply good_refl].
  - intros ty env E. pose proof (everywhere_children _ _ _ E) as C. now apply Forall_two in C as [Ea _].
  - intros name U. now split_uses U.
  - intros name u w U _ _. split_uses U. cbn [subst visit_children]. now rewrite (subst_fresh name u b).
Qed.

Lemma peeled_right op a b : wf (EBin op a b) = true -> peeled (EBin op a b) (fun x => EBin op a x) b.
Proof.
  intros W. destruct (wf_binary _ _ _ W) as (Wa & Wb & _ & _). split; auto.
  - intros w P. apply rewf_bin; auto. now apply in_place_refl.
  - intros ty env w E P G. pose proof (everywhere_children _ _ _ E) as C. apply Forall_two in C as [Ea _].
    apply good_bin; auto; [now apply in_place_refl|now apply good_refl].
  - intros ty env E. pose proof (everywhere_children _ _ _ E) as C. now apply Forall_two in C as [_ Eb].
  - intros name U. now split_uses U.
  - intros name u w U _ _. split_uses U. cbn [subst visit_children]. now rewrite (subst_fresh name u a).
Qed.

Lemma peeled_ramp b st n : wf (Ramp b st n) = true -> peeled (Ramp b st n) (fun x => Ramp x st n) b.
Proof.
  intros W. pose proof W as W0. cbn [wf] in W0. destr_and. split; auto.
  - intros w P. apply rewf_ramp; auto. now apply in_place_refl.
  - intros ty env w E P G. pose proof (everywhere_children _ _ _ E) as C. apply Forall_two in C as [_ Es].
    apply good_ramp; auto; [now apply in_place_refl|now apply good_refl].
  - intros ty env E. pose proof (everywhere_children _ _ _ E) as C. now apply Forall_two in C as [Eb _].
  - intros name U. now split_uses U.
  - intros name u w U _ _. split_uses U. cbn [subst visit_children]. now rewrite (subst_fresh name u st).
Qed.

Lemma peeled_broadcast u n : wf (Broadcast u n) = true -> peeled (Broadcast u n) (fun x => Broadcast x n) u.
Proof.
  intros W. pose proof W as W0. cbn [wf] in W0. destr_and. split; auto.
  - intros w P. now apply (rewf_broadcast u).
  - intros ty env w E P G. now apply good_broadcast.
  - intros ty env E. exact (Forall_inv (everywhere_children _ _ _ E)).
Qed.

Lemma peeled_cast t u : wf (Cast t u) = true -> peeled (Cast t u) (fun x => Cast t x) u.
Proof.
  intros W. destruct (wf_cast _ _ W) as (Wu & _ & _). split; auto.
  - intros w P. now apply (rewf_cast t u).
  - intros ty env w E P G. now apply good_cast.
  - intros ty env E. exact (Forall_inv (everywhere_children _ _ _ E)).
Qed.

Lemma likely_not_poison n ct : is_likely n ct = true -> is_poison n ct = false.
Proof.
  unfold is_likely, is_poison, is_intrinsic. intros L. destruct ct; try discriminate L;
    apply orb_true_iff in L; destruct L as [L|L]; apply String.eqb_eq in L; now subst n.
Qed.

Lemma peeled_likely t n a ct vi : is_likely n ct = true -> wf (ECall t n [a] ct vi) = true ->
  peeled (ECall t n [a] ct vi) (fun x => ECall t n [x] PureIntrinsic 0) a.
Proof.
  intros L W. pose proof (likely_not_poison n ct L) as Po.
  assert (Lp : is_likely n PureIntrinsic = is_likely n ct)
    by (rewrite L; unfold is_likely, is_intrinsic in *; destruct ct; try discriminate L; exact L).
  assert (Pp : is_poison n PureIntrinsic = is_poison n ct) by (rewrite Po; apply likely_not_poison; now rewrite Lp).
  assert (Wa : wf a = true) by (cbn [wf forallb] in W; now destr_and). split; auto.
  - intros w P. apply (rewf_call t n [a] [w] ct vi); auto.
  - intros ty env w E P G. apply good_call; auto.
  - intros ty env E. exact (Forall_inv (everywhere_children _ _ _ E)).
  - intros name U. now split_uses U.
Qed.

Lemma peeled_slice vs ixs : wf (Shuffle vs ixs) = true -> total_lanes vs < lanes_limit ->
  peeled (Shuffle vs ixs) (fun x => Shuffle [x] ixs) (make_concat vs).
Proof.
  intros W B. split.
  - now apply (concat_wf vs ixs).
  - intros w P. now apply slice_in_place.
  - intros ty env w E P G. now apply good_slice.
  - intros ty env E. now apply (everywhere_concat ty env vs ixs).
  - intros name U. unfold make_concat. destruct vs as [|v [|v2 l]]; auto. now split_uses U.
  - reflexivity.
Qed.

Lemma concat_again a b c d ixs : wf (Shuffle [a; b] ixs) = true -> is_concat [a; b] ixs = true ->
  type_of c = type_of a -> type_of d = type_of b -> make_concat [c; d] = Shuffle [c; d] ixs.
Proof.
  intros W C Tc Td. rewrite (concat_is _ _ W C). unfold make_concat, total_lanes. cbn [fold_right]. now rewrite Tc, Td.
Qed.

Lemma peeled_first a b ixs : wf (Shuffle [a; b] ixs) = true -> is_concat [a; b] ixs = true ->
  peeled (Shuffle [a; b] ixs) (fun x => make_concat [x; b]) a.
Proof.
  intros W C. assert (Wab : wf a = true /\ wf b = true) by (cbn [wf forallb] in W; now destr_and).
  destruct Wab as [Wa Wb]. split; auto.
  - intros w [Ww Tw]. rewrite (concat_again a b w b ixs) by auto. apply rewf_shuffle; [exact W|].
    constructor; [now split|]. constructor; [now apply in_place_refl|constructor].
  - intros ty env w E P G. pose proof P as [Ww Tw]. pose proof (everywhere_children _ _ _ E) as Ch.
    apply Forall_two in Ch as [_ Eb]. rewrite (concat_again a b w b ixs) by auto.
    apply good_shuffle; auto; constructor; auto; constructor; auto; [now apply in_place_refl|now apply good_refl].
  - intros ty env E. pose proof (everywhere_children _ _ _ E) as Ch. now apply Forall_two in Ch as [Ea _].
  - intros name U. now split_uses U.
  - intros name u w U [_ Tw] [_ Tu]. split_uses U.
    rewrite (concat_again a b w b ixs), (concat_again a b (subst (singleton name u) w) b ixs) by auto.
    cbn [subst visit_children map]. now rewrite (subst_fresh name u b).
Qed.

Lemma peeled_second a b ixs : wf (Shuffle [a; b] ixs) = true -> is_concat [a; b] ixs = true ->
  peeled (Shuffle [a; b] ixs) (fun x => make_concat [a; x]) b.
Proof.
  intros W C. assert (Wab : wf a = true /\ wf b = true) by (cbn [wf forallb] in W; now destr_and).
  destruct Wab as [Wa Wb]. split; auto.
  - intros w [Ww Tw]. rewrite (concat_again a b a w ixs) by auto. apply rewf_shuffle; [exact W|].
    constructor; [now apply in_place_refl|]. constructor; [now split|constructor].
  - intros ty env w E P G. pose proof P as [Ww Tw]. pose proof (everywhere_children _ _ _ E) as Ch.
    apply Forall_two in Ch as [Ea _]. rewrite (concat_again a b a w ixs) by auto.
    apply good_shuffle; auto; constructor; auto; [now apply in_place_refl|now apply good_refl].
  - intros ty env E. pose proof (everywhere_children _ _ _ E) as Ch. now apply Forall_two in Ch as [_ Eb].
  - intros name U. now split_uses U.
  - intros name u w U [_ Tw] [_ Tu]. split_uses U.
    rewrite (concat_again a b a w ixs), (concat_again a b a (subst (singleton name u) w) ixs) by auto.
    cbn [subst visit_children map]. now rewrite (subst_fresh name u a).
Qed.

Lemma peel_spec v around next : wf v = true -> peel v = Inward around next -> peeled v around next.
Proof.
  intros W. unfold peel. destruct (is_const v); [discriminate|].
  destruct v as [| | | | | |op a b| | | | | | |t n args ct vi| |vs ixs]; try discriminate; intros H.
  - peel_case H. now apply peeled_cast.
  - destruct op; try discriminate H; peel_case H; first [now apply peeled_left|now apply peeled_right].
  - peel_case H. now apply peeled_ramp.
  - injection H as <- <-. now apply peeled_broadcast.
  - peel_case H. now apply peeled_likely.
  - destruct (is_slice vs ixs).
    + destruct (Z.ltb_spec (total_lanes vs) lanes_limit); [|discriminate H]. injection H as <- <-. now apply peeled_slice.
    + peel_case H; first [now apply peeled_first|now apply peeled_second].
Qed.

Lemma peeled_id v : wf v = true -> peeled v (fun x => x) v.
Proof. split; auto. Qed.

Lemma peeled_more v around next around' next' : peeled v around next -> peeled next around' next' ->
  peeled v (fun x => around (around' x)) next'.
Proof.
  intros [W1 P1 G1 E1 F1 S1] [W2 P2 G2 E2 F2 S2]. split; auto.
  intros name u w U I I'. assert (U' := F1 name U). rewrite S1; auto; [now rewrite S2|].
  rewrite S2 by auto. now apply P2.
Qed.

(** ** The replacement of a name *)

Lemma variable_in_place name v : wf v = true -> in_place v (EVariable (type_of v) name).
Proof. intros W. destruct (wf_wf_type v W) as [I V]. split; [cbn [wf]; now rewrite I, V|reflexivity]. Qed.

Lemma substituted_hole v0 around v name u : peeled v0 around v -> expr_uses_var v0 name = false -> in_place v u ->
  substituted name u (around (EVariable (type_of v) name)) = around u.
Proof.
  intros P U I. unfold substituted. rewrite substitute_subst.
  assert (E : subst (singleton name u) (EVariable (type_of v) name) = u)
    by (cbn; unfold singleton; now rewrite String.eqb_refl).
  rewrite (pl_subst _ _ _ P); rewrite ?E; auto. apply variable_in_place, (pl_wf _ _ _ P).
Qed.

(** The loop ends with what was peeled off around what is left, or around the
    new name. *)
Lemma peel_loop_spec fuel : forall name v0 around v r nv, wf v0 = true -> expr_uses_var v0 name = false ->
  peeled v0 around v -> peel_loop fuel name v (around (EVariable (type_of v) name)) = Peeled_to r nv ->
  exists around' w, peeled v0 around' w /\
    match nv with
    | Some x => x = w /\ r = around' (EVariable (type_of w) name)
    | None => r = around' w
    end.
Proof.
  induction fuel as [|fuel IH]; intros name v0 around v r nv W U P; [discriminate|]. cbn [peel_loop].
  pose proof (pl_wf _ _ _ P) as Wv. destruct (peel v) as [|around' next| |] eqn:Pe; try discriminate.
  - intros [= <- <-]. exists around, v. split; [exact P|]. apply (substituted_hole v0); auto. now apply in_place_refl.
  - pose proof (peel_spec _ _ _ Wv Pe) as P'. pose proof (peeled_more _ _ _ _ _ P P') as P2.
    rewrite (substituted_hole v0); auto;
      [exact (IH name v0 (fun x => around (around' x)) next r nv W U P2)|]. apply (pl_place _ _ _ P'), variable_in_place, (pl_wf _ _ _ P').
  - intros [= <- <-]. exists around, v. auto.
Qed.

(** Enough steps are given to end it. *)
Lemma peel_loop_ends fuel : forall name v r, wf v = true -> (peel_fuel v <= fuel)%nat ->
  peel_loop fuel name v r <> Peeled_on.
Proof.
  induction fuel as [|fuel IH]; intros name v r W F; [pose proof (peel_fuel_pos v); lia|]. cbn [peel_loop].
  destruct (peel v) as [|around next| |] eqn:P; try discriminate. apply IH; [apply (pl_wf _ _ _ (peel_spec _ _ _ W P))|].
  pose proof (peel_decreases v around next W P). lia.
Qed.

Lemma named_value ty env name e i : wf e = true -> everywhere ty env e -> names ty env name e ->
  lane_in (type_of e) i -> ev env i (EVariable (type_of e) name) = ev env i e.
Proof.
  intros W E [T V] L. cbn [ev]. rewrite T in *. rewrite V by (now apply lane_in_lane_of).
  rewrite <- T in *. pose proof (wf_wf_type e W) as Wt.
  assert (Q : ev env (lane_of (type_of e) i) e = ev env i e).
  { unfold lane_of. destruct (lanes (type_of e) =? 1) eqn:S; [|reflexivity].
    symmetry. now apply (everywhere_uniform ty). }
  rewrite Q. apply cast_val_id; [apply Wt|]. apply fits_in_type, (everywhere_defined ty env e i E L).
Qed.

Lemma named_good ty env name e : wf e = true -> everywhere ty env e -> names ty env name e ->
  good ty env e (EVariable (type_of e) name).
Proof.
  intros W E N. assert (V : forall i, lane_in (type_of e) i -> ev env i (EVariable (type_of e) name) = ev env i e)
    by (intros; now apply (named_value ty)).
  apply good_node; [exact E|reflexivity| |constructor|exact (proj1 N)]. intros i L. split; [|now apply V].
  split; [exact I|]. split; [|exact I]. cbn [type_of]. rewrite V by exact L. apply fits_in_type, (everywhere_defined ty env e i E L).
Qed.

(** What the visit of a let relies on. *)
Record replaced (name : string) (v r : Expr) (nv : option Expr) : Prop := {
  rp_place : in_place v r;
  rp_wf : match nv with Some w => wf w = true | None => True end;
  rp_good : forall ty env, everywhere ty env v ->
    match nv with Some w => names ty env name w | None => True end -> good ty env v r;
  rp_everywhere : forall ty env, everywhere ty env v -> match nv with Some w => everywhere ty env w | None => True end
}.

Lemma peel_value_spec name v r nv : wf v = true -> expr_uses_var v name = false ->
  peel_value name v = Peeled_to r nv -> replaced name v r nv.
Proof.
  intros W U E. destruct (peel_loop_spec _ name v (fun x => x) v r nv W U (peeled_id v W) E) as (around & w & P & H).
  pose proof (pl_wf _ _ _ P) as Ww. destruct nv as [x|].
  - destruct H as [-> ->]. split; auto.
    + apply (pl_place _ _ _ P). now apply variable_in_place.
    + intros ty env Ev N. apply (pl_good _ _ _ P); auto; [now apply variable_in_place|].
      apply named_good; auto. now apply (pl_everywhere _ _ _ P).
    + intros ty env Ev. now apply (pl_everywhere _ _ _ P).
  - subst r. split; auto.
    + apply (pl_place _ _ _ P). now apply in_place_refl.
    + intros ty env Ev _. apply (pl_good _ _ _ P); auto; [now apply in_place_refl|].
      apply good_refl. now apply (pl_everywhere _ _ _ P).
Qed.

(** ** The loop as a whole *)

Lemma peel_loop_more fuel more name : forall v r, peel_loop fuel name v r <> Peeled_on ->
  peel_loop (fuel + more) name v r = peel_loop fuel name v r.
Proof.
  induction fuel as [|fuel IH]; intros v r D; [now destruct D|]. cbn [peel_loop Nat.add] in *.
  destruct (peel v); auto.
Qed.

(** C18: The loop of [simplify_let] ends: the operations it peels off a value get
    fewer, and the steps it is given are enough, so that more change nothing. *)
Theorem peel_value_ends name v : wf v = true ->
  peel_value name v <> Peeled_on /\
  forall fuel, (peel_fuel v <= fuel)%nat -> peel_loop fuel name v (EVariable (type_of v) name) = peel_value name v.
Proof.
  intros W. pose proof (peel_loop_ends (peel_fuel v) name v (EVariable (type_of v) name) W (Nat.le_refl _)) as D.
  split; [exact D|]. intros fuel F. replace fuel with (peel_fuel v + (fuel - peel_fuel v))%nat by lia.
  now apply peel_loop_more.
Qed.

(** [(x / 4) * y] leaves nothing behind but the operations. *)
Lemma peel_value_ends_witness :
  peel_value "t" (EBin Mul (EBin Div (int_var "x") (int_imm 4)) (int_var "y")) <> Peeled_on.
Proof. apply (peel_value_ends "t" (EBin Mul (EBin Div (int_var "x") (int_imm 4)) (int_var "y"))). reflexivity. Defined.
