(* ===== verification/SimplifyNodesSound.v ===== *)
(** * The visit methods are correct

    Each visit method of SimplifyNodes keeps the promise of [mutate], provided
    that [mutate] keeps it on what the method calls it with. *)

From Stdlib Require Import ZArith Lia Bool List String.
From S2P Require Import Prelude.
From S2P Require Import IntArith.
From S2P Require Import ModulusRemainder.
From S2P Require Import Scope.
From S2P Require Import HalideTypes.
From S2P Require Import IR.
From S2P Require Import Typing.
From S2P Require Import IREquality.
From S2P Require Import IRMatch.
From S2P Require Import RuleSem.
From S2P Require Import MatchSound.
From S2P Require Import FoldSound.
From S2P Require Import MakeSound.
From S2P Require Import RuleSound.
From S2P Require Import Visit.
From S2P Require Import Mutator.
From S2P Require Import ExprInfo.
From S2P Require Import ScopedFact.
From S2P Require Import SimplifyAdd.
From S2P Require Import SimplifySub.
From S2P Require Import SimplifyMul.
From S2P Require Import SimplifyDiv.
From S2P Require Import SimplifyMod.
From S2P Require Import SimplifyMin.
From S2P Require Import SimplifyMax.
From S2P Require Import SimplifyEQ.
From S2P Require Import SimplifyLT.
From S2P Require Import SimplifyAnd.
From S2P Require Import SimplifyOr.
From S2P Require Import SimplifyNot.
From S2P Require Import SimplifySelect.
From S2P Require Import SimplifyCast.
From S2P Require Import SimplifyExprs.
From S2P Require Import SimplifyRun.
From S2P Require Import SimplifyNodes.
Import ListNotations.
Open Scope string_scope.
Open Scope list_scope.
Open Scope Z_scope.


(** ** From operands to results *)

Section Visits.
Context (mutate : Mutate) (Mu : mutates mutate).

Abbreviation this := (run_prover mutate).

(** What a visit of [e] delivers. *)
Definition delivered (e : Expr) (b : option ExprInfo) (s : Run) (r : Expr) (b' : option ExprInfo) (s' : Run) : Prop :=
  in_place e r /\
  forall ty env, sane_env env -> calm ty env s' -> known ty env (view s) -> everywhere ty env e ->
    bounds_hold env e b -> good ty env e r /\ bounds_hold env e b'.

Lemma visits_intro e b m : framed m ->
  (forall s r b' s', m s = ((r, b'), s') -> wf e = true -> view_wf (view s) -> delivered e b s r b' s') ->
  visits e b m.
Proof.
  intros F D. split; [exact F| |].
  - intros s r b' s' E W V. apply (D s r b' s' E W V).
  - intros ty env s r b' s' E W V N C K Ev B. now apply (D s r b' s' E W V).
Qed.

Lemma operand_in_place e e' A s s' : operand e e' A s s' -> in_place e e'.
Proof. intros [_ W T _]. now split. Qed.

(** The state after the operands is known as before, as long as it is calm. *)
Lemma known_kept ty env s s' : frame s s' -> view_wf (view s) -> known ty env (view s) -> known ty env (view s').
Proof. intros F V K. now rewrite (view_kept _ _ F V). Qed.

Lemma view_wf_kept s s' : frame s s' -> view_wf (view s) -> view_wf (view s').
Proof. intros F V. now rewrite (view_kept _ _ F V). Qed.

(** The values an operand has, with those of what it was made into. *)
Lemma operand_known ty env e e' A s s' i : operand e e' A s s' -> sane_env env -> calm ty env s' ->
  known ty env (view s) -> everywhere ty env e -> lane_in (type_of e) i ->
  info_holds A (ev env i e').
Proof.
  intros O N C K E L. destruct (op_sound _ _ _ _ _ O ty env N C K E) as [[_ V] H]. rewrite (V i L). auto.
Qed.

Lemma report_holds ty env e test k A B f b s b' s' : report test k A B f b s = (b', s') -> calm ty env s' ->
  bounds_hold env e b ->
  (test = true -> forall x i, combination_ok (k x) A B -> lane_in (type_of e) i ->
    info_holds x (ev env i e) -> info_holds (f x) (ev env i e)) ->
  bounds_hold env e b'.
Proof.
  unfold report. destruct b as [x|]; [|now intros [= <- <-]].
  destruct test; [|now intros [= <- <-]]. intros E C H F. run_step E u s1 G. injection G as _ <-. injection E as <- <-.
  destruct C as [_ C]. cbn in C. apply Forall_inv in C. cbn [event_ok] in C. intros i L. cbn in H. auto.
Qed.

(** The visit proper, from the node made again on.  On a calm run, what the step
    leads to is free of undefined behaviour. *)
Lemma close_step e e0 exc K st b b0 b' s s0 s1 s' r :
  finish mutate e exc st b0 s1 = ((r, b'), s') -> in_place e e0 -> view_wf (view s) -> frame s s0 -> frame s0 s1 ->
  correct_when (prover := this) s0 s1 (fun env i => defined env i (step_expr st) /\ K env i) exc e0 st ->
  (forall ty env, sane_env env -> calm ty env s0 -> known ty env (view s) -> everywhere ty env e ->
    bounds_hold env e b ->
    good ty env e e0 /\ bounds_hold env e b0 /\ forall i, lane_in (type_of e) i -> K env i) ->
  delivered e b s r b' s'.
Proof.
  intros E [W0 T0] V F0 F1 Co H. pose proof (framed_finish mutate Mu _ _ _ _ _ _ _ E) as F2.
  pose proof (view_wf_kept _ _ (frame_trans _ _ _ F0 F1) V) as V1.
  assert (T : step_typed e st) by (destruct Co as [[A B] _]; split; [exact A|congruence]).
  destruct (finish_finished mutate Mu _ _ _ _ _ _ _ _ E T V1) as [Wr Tr S].
  split; [now split|]. intros ty env N C Kn Ev B.
  pose proof (calm_back ty env _ _ F2 C) as C1. pose proof (calm_back ty env _ _ F1 C1) as C0.
  destruct (H ty env N C0 Kn Ev B) as (G & B0 & HK).
  apply S; auto; [exact (known_kept ty env _ _ (frame_trans _ _ _ F0 F1) V Kn)|].
  intros Es i L X. destruct (correct_meaning mutate Mu s0 s1 _ exc e0 st ty env N Co) with (i := i) as [O Va]; auto.
  - apply (informed_kept ty env s); [exact F0|now split].
  - intros j Lj. rewrite T0 in Lj. split; [|split; [|auto]].
    + apply (everywhere_defined ty); [apply G|now rewrite T0].
    + apply (everywhere_defined ty); [exact Es|now rewrite (proj2 T)].
  - now rewrite T0.
  - split; [exact O|]. now rewrite Va, (proj2 G).
Qed.

Lemma close_visit e e0 exc K st b b0 b' s s0 s1 s' r :
  finish mutate e exc st b0 s1 = ((r, b'), s') -> in_place e e0 -> view_wf (view s) -> frame s s0 -> frame s0 s1 ->
  correct_when (prover := this) s0 s1 K exc e0 st ->
  (forall ty env, sane_env env -> calm ty env s0 -> known ty env (view s) -> everywhere ty env e ->
    bounds_hold env e b ->
    good ty env e e0 /\ bounds_hold env e b0 /\ forall i, lane_in (type_of e) i -> K env i) ->
  delivered e b s r b' s'.
Proof.
  intros E P V F0 F1 Co. apply (close_step e e0 exc K st b b0 b' s s0 s1 s' r E P V F0 F1).
  revert Co. apply correct_known. tauto.
Qed.

(** ** Arithmetic *)

(** What [mutate] made of both operands of a node. *)
Record operands (node : Expr -> Expr -> Expr) (a b a' b' : Expr) (A B : ExprInfo) (s s' : Run) : Prop := {
  ops_frame : frame s s';
  ops_left : in_place a a';
  ops_right : in_place b b';
  ops_node : in_place (node a b) (node a' b');
  ops_sound : forall ty env, sane_env env -> calm ty env s' -> known ty env (view s) -> everywhere ty env (node a b) ->
    good ty env (node a b) (node a' b') /\
    forall i, lane_in (type_of (node a b)) i -> operands_known A B a' b' env i
}.

Lemma operands_intro (node : Expr -> Expr -> Expr) a b a' b' A B s s1 s2 : view_wf (view s) ->
  operand a a' A s s1 -> (view_wf (view s1) -> operand b b' B s1 s2) ->
  children (node a b) = [a; b] ->
  (forall i, lane_in (type_of (node a b)) i -> lane_in (type_of a) i /\ lane_in (type_of b) i) ->
  (in_place a a' -> in_place b b' -> in_place (node a b) (node a' b')) ->
  (forall ty env, everywhere ty env (node a b) -> in_place a a' -> in_place b b' -> good ty env a a' ->
    good ty env b b' -> good ty env (node a b) (node a' b')) ->
  operands node a b a' b' A B s s2.
Proof.
  intros V O1 O2 Ch Ln Pl Gd. pose proof (op_frame _ _ _ _ _ O1) as F1. pose proof (view_wf_kept _ _ F1 V) as V1.
  specialize (O2 V1). pose proof (op_frame _ _ _ _ _ O2) as F2.
  pose proof (operand_in_place _ _ _ _ _ O1) as P1. pose proof (operand_in_place _ _ _ _ _ O2) as P2.
  split; auto; [now apply (frame_trans s s1)|].
  intros ty env N C K Ev. pose proof (calm_back ty env _ _ F2 C) as C1. pose proof (known_kept ty env _ _ F1 V K) as K1.
  pose proof (everywhere_children _ _ _ Ev) as Ec. rewrite Ch in Ec. inversion Ec as [|? ? Ea Ec']; subst.
  inversion Ec' as [|? ? Eb _]; subst.
  destruct (op_sound _ _ _ _ _ O1 ty env N C1 K Ea) as [G1 _].
  destruct (op_sound _ _ _ _ _ O2 ty env N C K1 Eb) as [G2 _].
  split; [now apply Gd|]. intros i L. destruct (Ln i L) as [La Lb].
  split; [now apply (operand_known ty env _ _ _ _ _ i O1)|now apply (operand_known ty env _ _ _ _ _ i O2)].
Qed.

Lemma bin_operands op a b a' b' A B s s1 s2 : wf (EBin op a b) = true -> view_wf (view s) ->
  operand a a' A s s1 -> (view_wf (view s1) -> operand b b' B s1 s2) -> operands (EBin op) a b a' b' A B s s2.
Proof.
  intros W V O1 O2. apply (operands_intro _ _ _ _ _ _ _ _ s1); auto.
  - intros i. now apply bin_lanes.
  - intros. now apply rewf_bin.
  - intros. now apply good_bin.
Qed.

Lemma cmp_operands op a b a' b' A B s s1 s2 : wf (ECmp op a b) = true -> view_wf (view s) ->
  operand a a' A s s1 -> (view_wf (view s1) -> operand b b' B s1 s2) -> operands (ECmp op) a b a' b' A B s s2.
Proof.
  intros W V O1 O2. apply (operands_intro _ _ _ _ _ _ _ _ s1); auto.
  - intros i. now apply cmp_lanes.
  - intros. now apply rewf_cmp.
  - intros. now apply good_cmp.
Qed.

Lemma two_operands op a b a' b' A B s s1 s2 : wf (EBin op a b) = true -> view_wf (view s) ->
  mutate_info mutate a s = ((a', A), s1) -> mutate_info mutate b s1 = ((b', B), s2) ->
  operands (EBin op) a b a' b' A B s s2.
Proof.
  intros W V E1 E2. destruct (wf_binary _ _ _ W) as (Wa & Wb & _ & _).
  apply (bin_operands op _ _ _ _ _ _ _ s1); auto; [now apply (info_operand mutate Mu)|].
  intros V1. now apply (info_operand mutate Mu).
Qed.

(** The rest of the visit: bounds are reported, and the tables are tried. *)
Lemma arith_close node a b a' b' A B (K : Prop) exc st test k f bounds b1 b2 s s1 s2 s3 s4 s5 r :
  operands node a b a' b' A B s s1 -> view_wf (view s) -> frame s1 s2 ->
  report test k A B f bounds s2 = (b1, s3) -> frame s3 s4 ->
  correct_when (prover := this) s3 s4 (fun env i => K /\ operands_known A B a' b' env i) exc (node a' b') st ->
  (forall ty env, calm ty env s2 -> K) ->
  finish mutate (node a b) exc st b1 s4 = ((r, b2), s5) ->
  (test = true -> forall x ty env i, calm ty env s2 -> combination_ok (k x) A B -> operands_known A B a' b' env i ->
    lane_in (type_of (node a b)) i -> defined env i (node a' b') -> info_holds x (ev env i (node a' b')) ->
    info_holds (f x) (ev env i (node a' b'))) ->
  delivered (node a b) bounds s r b2 s5.
Proof.
  intros O V F12 E3 F34 Co HK Fi H. pose proof (framed_report _ _ _ _ _ _ _ _ _ E3) as F23.
  pose proof (frame_trans _ _ _ (ops_frame _ _ _ _ _ _ _ _ _ O) F12) as F2.
  pose proof (ops_node _ _ _ _ _ _ _ _ _ O) as P.
  eapply close_visit; [exact Fi|exact P|exact V|exact (frame_trans _ _ _ F2 F23)|exact F34|exact Co|].
  intros ty env N C Kv Ev B0. pose proof (calm_back ty env _ _ F23 C) as C2.
  destruct (ops_sound _ _ _ _ _ _ _ _ _ O ty env N (calm_back ty env _ _ F12 C2) Kv Ev) as [G Kn].
  split; [exact G|]. split; [|intros i L; split; [now apply (HK ty env)|now apply Kn]]. eapply report_holds; [exact E3|exact C|exact B0|].
  intros Te x i X L Hx. rewrite <- (proj2 G i L) in *. apply (H Te x ty env i); auto.
  apply (everywhere_defined ty); [apply G|]. now rewrite (proj2 P).
Qed.

Lemma noted e s : frame s (snd (note e s)).
Proof. now apply (framed_note e s tt). Qed.
Ltac run_operands E W V Op :=
  let p := fresh "p" in let s1 := fresh "s" in let E1 := fresh "E" in run_step E p s1 E1;
  let q := fresh "q" in let s2 := fresh "s" in let E2 := fresh "E" in destruct p as [x A]; run_step E q s2 E2;
  destruct q as [y B]; pose proof (two_operands _ _ _ _ _ _ _ _ _ _ W V E1 E2) as Op; cbv beta iota zeta in E.

Lemma fewer_known {prover : Prover} c c' K exc e st : correct_when c c' K exc e st ->
  correct_when c c' (fun env i => True /\ K env i) exc e st.
Proof. apply correct_known. tauto. Qed.

(** Operands, bounds and tables. *)
Ltac arith_tail Op V E3 E4 E lead :=
  eapply arith_close; [exact Op|exact V| |exact E3| | | |exact E|];
  [first [exact (noted _ _)|apply frame_refl]|eapply (framed_at mutate Mu); [|exact E4]; intros ? ? Fr; apply lead; exact Fr| | |].

Ltac arith_facts Op Wn T :=
  pose proof (ops_node _ _ _ _ _ _ _ _ _ Op) as [Wn _]; pose proof (ops_left _ _ _ _ _ _ _ _ _ Op) as [_ T].

Lemma add_delivered a b bounds s r b' s' : visit_arith mutate Add a b bounds s = ((r, b'), s') ->
  wf (EBin Add a b) = true -> view_wf (view s) -> delivered (EBin Add a b) bounds s r b' s'.
Proof.
  intros E W V. unfold visit_arith in E. run_operands E W V Op. run_step E bs s3 E3. run_step E st s4 E4.
  arith_facts Op Wn T. arith_tail Op V E3 E4 E (@leading_Add this).
  - apply (correct_step_when (prover := this)). exact (visit_Add_keeps (prover := this) _ _ _ _ _ _ Wn E4).
  - intros. exact I.
  - intros _ z ty env i _ [RA RB] [HA HB] _ _ _. cbn [type_of]. rewrite <- T. now apply add_bounds_hold.
Qed.

Lemma sub_delivered a b bounds s r b' s' : visit_arith mutate Sub a b bounds s = ((r, b'), s') ->
  wf (EBin Sub a b) = true -> view_wf (view s) -> delivered (EBin Sub a b) bounds s r b' s'.
Proof.
  intros E W V. unfold visit_arith in E. run_operands E W V Op. run_step E bs s3 E3. run_step E st s4 E4.
  arith_facts Op Wn T. arith_tail Op V E3 E4 E (@leading_Sub this).
  - apply (correct_step_when (prover := this)). exact (visit_Sub_keeps (prover := this) _ _ _ _ _ _ Wn E4).
  - intros. exact I.
  - intros _ z ty env i _ [RA RB] [HA HB] _ _ _. cbn [type_of]. rewrite <- T. now apply sub_bounds_sound.
Qed.

Lemma mul_delivered a b bounds s r b' s' : visit_arith mutate Mul a b bounds s = ((r, b'), s') ->
  wf (EBin Mul a b) = true -> view_wf (view s) -> delivered (EBin Mul a b) bounds s r b' s'.
Proof.
  intros E W V. unfold visit_arith in E. run_operands E W V Op. run_step E bs s3 E3. run_step E st s4 E4.
  arith_facts Op Wn T. arith_tail Op V E3 E4 E (@leading_Mul this).
  - apply (correct_step_when (prover := this)). exact (visit_Mul_correct (prover := this) _ _ _ _ _ _ Wn E4).
  - intros. exact I.
  - intros _ z ty env i _ (RA & RB & Sg & Tr) [HA HB] _ _ Hz. cbn [type_of]. rewrite <- T. now apply mul_bounds_hold.
Qed.

Lemma min_delivered a b bounds s r b' s' : visit_arith mutate Min a b bounds s = ((r, b'), s') ->
  wf (EBin Min a b) = true -> view_wf (view s) -> delivered (EBin Min a b) bounds s r b' s'.
Proof.
  intros E W V. unfold visit_arith in E. run_operands E W V Op. run_step E bs s3 E3. run_step E st s4 E4.
  arith_facts Op Wn T. arith_tail Op V E3 E4 E (@leading_Min this).
  - cbn [type_of]. rewrite <- T. apply (fewer_known (prover := this)), (visit_Min_keeps (prover := this) _ _ _ _ _ _ _ _ Wn E4).
  - intros. exact I.
  - intros _ z ty env i _ [RA RB] K _ _ _. now apply min_bounds_hold.
Qed.

Lemma max_delivered a b bounds s r b' s' : visit_arith mutate Max a b bounds s = ((r, b'), s') ->
  wf (EBin Max a b) = true -> view_wf (view s) -> delivered (EBin Max a b) bounds s r b' s'.
Proof.
  intros E W V. unfold visit_arith in E. run_operands E W V Op. run_step E bs s3 E3. run_step E st s4 E4.
  arith_facts Op Wn T. arith_tail Op V E3 E4 E (@leading_Max this).
  - cbn [type_of]. rewrite <- T. apply (fewer_known (prover := this)), (visit_Max_correct (prover := this) _ _ _ _ _ _ _ _ Wn E4).
  - intros. exact I.
  - intros _ z ty env i _ [RA RB] K _ _ _. now apply max_bounds_sound.
Qed.

(** The bounds of operands that a note says can be put together. *)
Lemma noted_ok ty env e s : calm ty env (snd (note e s)) -> event_ok ty env e.
Proof. intros [_ C]. cbn in C. exact (Forall_inv C). Qed.

Lemma mod_delivered a b bounds s r b' s' : visit_arith mutate Mod a b bounds s = ((r, b'), s') ->
  wf (EBin Mod a b) = true -> view_wf (view s) -> delivered (EBin Mod a b) bounds s r b' s'.
Proof.
  intros E W V. unfold visit_arith in E. run_operands E W V Op. run_step E u s2 Nt.
  assert (N2 : s2 = snd (note (Combined Summed A B) s1)) by (now rewrite Nt). clear Nt. subst s2.
  run_step E bs s3 E3. run_step E st s4 E4. arith_facts Op Wn T. arith_tail Op V E3 E4 E (@leading_Mod this).
  - exact (visit_Mod_keeps (prover := this) _ _ _ _ _ _ _ _ Wn E4).
  - intros ty env C. exact (noted_ok ty env _ _ C).
  - intros _ z ty env i _ [RA RB] [HA HB] _ D _. cbn [type_of]. rewrite <- T. apply mod_bounds_hold; auto. apply D.
Qed.

Lemma quotient_bounds_hold ty env a b a' b' A B s s' bounds : operands (EBin Div) a b a' b' A B s s' ->
  combination_ok Divided A B -> good ty env (EBin Div a b) (EBin Div a' b') ->
  (forall i, lane_in (type_of (EBin Div a b)) i -> operands_known A B a' b' env i) ->
  bounds_hold env (EBin Div a b) bounds ->
  bounds_hold env (EBin Div a b) (quotient_bounds (type_of (EBin Div a b)) A B bounds).
Proof.
  intros O [R Tr] G K H. destruct bounds as [z|]; [|exact I]. unfold quotient_bounds.
  destruct (no_overflow_int _) eqn:No; [|exact H]. pose proof (ops_left _ _ _ _ _ _ _ _ _ O) as [_ T].
  pose proof (ops_node _ _ _ _ _ _ _ _ _ O) as [_ Tn].
  destruct (div_collapses A B) eqn:C; intros i L; pose proof (K i L) as Ki; cbn [bounds_hold] in H;
    rewrite <- (proj2 G i L).
  - assert (V : ev env i (EBin Div a' b') = info_min (div_interval A B))
      by (apply div_collapsed; auto; cbn [type_of] in No; now rewrite T).
    unfold div_collapses in C. destr_and. zify_bool.
    split; cbn [info_min info_max min_defined max_defined info_alignment]; [rewrite V; lia|rewrite V; lia|].
    rewrite (proj2 G i L). apply (H i L).
  - cbn [type_of]. rewrite <- T. apply div_bounds_hold; [exact R|now apply Tr| |apply Ki|apply Ki].
    assert (D : defined env i (EBin Div a' b')) by (apply (everywhere_defined ty); [apply G|now rewrite Tn]).
    apply D.
Qed.

Lemma div_delivered a b bounds s r b' s' : visit_arith mutate Div a b bounds s = ((r, b'), s') ->
  wf (EBin Div a b) = true -> view_wf (view s) -> delivered (EBin Div a b) bounds s r b' s'.
Proof.
  intros E W V. unfold visit_arith in E. run_operands E W V Op. run_step E u s2 Nt.
  assert (N2 : s2 = snd (note (Combined Divided A B) s1)) by (now rewrite Nt). clear Nt. subst s2.
  run_step E st s4 E4. arith_facts Op Wn T.
  pose proof (ops_frame _ _ _ _ _ _ _ _ _ Op) as F1. pose proof (ops_node _ _ _ _ _ _ _ _ _ Op) as P.
  pose proof (noted (Combined Divided A B) s1) as F2.
  eapply close_visit; [exact E|exact P|exact V|exact (frame_trans _ _ _ F1 F2)| | |].
  - eapply (framed_at mutate Mu); [|exact E4]. intros ? ? Fr. apply leading_Div. exact Fr.
  - exact (visit_Div_keeps (prover := this) _ _ _ _ _ _ _ _ _ Wn E4).
  - intros ty env N C K Ev H. pose proof (noted_ok ty env _ _ C) as X.
    destruct (ops_sound _ _ _ _ _ _ _ _ _ Op ty env N (calm_back ty env _ _ F2 C) K Ev) as [G Kn].
    split; [exact G|]. split; [exact (quotient_bounds_hold ty env _ _ _ _ _ _ _ _ _ Op X G Kn H)|].
    intros i L. split; [apply X|now apply Kn].
Qed.

(** ** Conjunctions and disjunctions *)

(** A step that ends a visit at once. *)
Lemma close_early e b b' s s' r r0 : finish mutate e [] (Kept r0) b s = ((r, b'), s') -> wf e = true ->
  view_wf (view s) ->
  correct_when (prover := this) s s (fun env i => exists ty, known ty env (view s)) [] e (Kept r0) ->
  delivered e b s r b' s'.
Proof.
  intros E W V Co. eapply close_visit with (e0 := e); [exact E|now split|exact V|apply frame_refl|apply frame_refl|exact Co|].
  intros ty env N C K Ev H. split; [now apply good_refl|]. split; [exact H|eauto].
Qed.

Lemma truth_early e s c c' : wf e = true -> is_bool (type_of e) = true -> count (truths (facts (knowledge s))) e = true ->
  correct_when (prover := this) c c' (fun env i => exists ty, known ty env (view s)) [] e
    (Kept (const_true (lanes (type_of e)))).
Proof.
  intros W B F. apply (const_bool_correct _ _ _ true B W).
  intros env i _ [ty K]. apply (truth_found (facts (knowledge s))); auto. apply (known_true ty env _ K).
Qed.

Lemma falsehood_early e s c c' : wf e = true -> is_bool (type_of e) = true ->
  count (falsehoods (facts (knowledge s))) e = true ->
  correct_when (prover := this) c c' (fun env i => exists ty, known ty env (view s)) [] e
    (Kept (const_false (lanes (type_of e)))).
Proof.
  intros W B F. apply (const_bool_correct _ _ _ false B W).
  intros env i _ [ty K]. apply (falsehood_found (facts (knowledge s))); auto. apply (known_true ty env _ K).
Qed.

Lemma junction_operands op a b a' b' s s1 s2 : wf (EBin op a b) = true -> view_wf (view s) ->
  mutate_only mutate a s = (a', s1) -> mutate_only mutate b s1 = (b', s2) ->
  operands (EBin op) a b a' b' no_info no_info s s2.
Proof.
  intros W V E1 E2. destruct (wf_binary _ _ _ W) as (Wa & Wb & _ & _).
  apply (bin_operands op _ _ _ _ _ _ _ s1); auto; [now apply (only_operand mutate Mu)|].
  intros V1. now apply (only_operand mutate Mu).
Qed.

(** The node made again keeps type and value. *)
Lemma ops_simplified ty env node a b a' b' A B s s' i : operands node a b a' b' A B s s' -> sane_env env ->
  calm ty env s' -> known ty env (view s) -> everywhere ty env (node a b) -> lane_in (type_of (node a b)) i ->
  simplified (node a b) (node a' b') env i.
Proof.
  intros O N C K Ev L. destruct (ops_sound _ _ _ _ _ _ _ _ _ O ty env N C K Ev) as [G _].
  exact (good_at ty env _ _ i (ops_node _ _ _ _ _ _ _ _ _ O) G L).
Qed.

(** A visit that is correct where the facts hold and the node is made again. *)
Lemma close_facts node a b a' b' A B (K : Env -> Z -> Prop) exc st bounds b2 s s1 s2 s3 r :
  wf (node a b) = true -> view_wf (view s) -> operands node a b a' b' A B s s1 -> frame s1 s2 ->
  finish mutate (node a b) exc st bounds s2 = ((r, b2), s3) ->
  correct_when (prover := this) s1 s2 K exc (node a b) st ->
  (forall env i, facts_hold (facts (knowledge s)) env i -> simplified (node a b) (node a' b') env i ->
    operands_known A B a' b' env i -> K env i) ->
  delivered (node a b) bounds s r b2 s3.
Proof.
  intros W V O F E Co H.
  eapply close_visit with (e0 := node a b); [exact E|now split|exact V|exact (ops_frame _ _ _ _ _ _ _ _ _ O)|exact F|exact Co|].
  intros ty env N C Kv Ev B0. destruct (ops_sound _ _ _ _ _ _ _ _ _ O ty env N C Kv Ev) as [G Kn].
  split; [now apply good_refl|]. split; [exact B0|]. intros i L.
  apply H; [apply (known_true ty env _ Kv)|now apply (ops_simplified ty env _ _ _ _ _ _ _ _ _ i O)|now apply Kn].
Qed.

Lemma junction_delivered op a b bounds s r b' s' : op = And \/ op = Or ->
  visit_junction mutate op a b bounds s = ((r, b'), s') ->
  wf (EBin op a b) = true -> view_wf (view s) -> delivered (EBin op a b) bounds s r b' s'.
Proof.
  intros Op E W V. assert (B : is_bool (type_of (EBin op a b)) = true)
    by (cbn [wf] in W; destr_and; now destruct Op; subst op).
  unfold visit_junction in E. run_step E s0 s1 Ec. injection Ec as <- <-.
  destruct Op; subst op.
  - destruct (count (falsehoods _) _) eqn:F; [exact (close_early _ _ _ _ _ _ _ E W V (falsehood_early _ _ _ _ W B F))|].
    run_step E x s1 E1. run_step E y s2 E2. run_step E st s3 E3.
    pose proof (junction_operands _ _ _ _ _ _ _ _ W V E1 E2) as O.
    eapply close_facts; [exact W|exact V|exact O| |exact E| |].
    + eapply (framed_at mutate Mu); [|exact E3]. intros ? ? Fr. apply leading_And. exact Fr.
    + apply (visit_And_keeps (prover := this) (facts (knowledge s)) _ x y); auto; apply (ops_node _ _ _ _ _ _ _ _ _ O).
    + now split.
  - destruct (count (truths _) _) eqn:F; [exact (close_early _ _ _ _ _ _ _ E W V (truth_early _ _ _ _ W B F))|].
    run_step E x s1 E1. run_step E y s2 E2. run_step E st s3 E3.
    pose proof (junction_operands _ _ _ _ _ _ _ _ W V E1 E2) as O.
    eapply close_facts; [exact W|exact V|exact O| |exact E| |].
    + eapply (framed_at mutate Mu); [|exact E3]. intros ? ? Fr. apply leading_Or. exact Fr.
    + apply (visit_Or_correct (prover := this) (facts (knowledge s)) _ x y); auto; apply (ops_node _ _ _ _ _ _ _ _ _ O).
    + now split.
Qed.

(** ** Comparisons *)

Lemma remade_operands op a b a' b' s s1 s2 : wf (ECmp op a b) = true -> view_wf (view s) ->
  mutate_only mutate a s = (a', s1) -> mutate_only mutate b s1 = (b', s2) ->
  operands (ECmp op) a b a' b' no_info no_info s s2.
Proof.
  intros W V E1 E2. destruct (wf_comparison _ _ _ W) as (Wa & Wb & _).
  apply (cmp_operands op _ _ _ _ _ _ _ s1); auto; [now apply (only_operand mutate Mu)|].
  intros V1. now apply (only_operand mutate Mu).
Qed.

(** The node made again is returned. *)
Lemma operands_delivered node a b a' b' A B bounds s s' : operands node a b a' b' A B s s' ->
  delivered (node a b) bounds s (node a' b') bounds s'.
Proof.
  intros O. split; [apply (ops_node _ _ _ _ _ _ _ _ _ O)|]. intros ty env N C K Ev H. split; [|exact H].
  apply (ops_sound _ _ _ _ _ _ _ _ _ O ty env N C K Ev).
Qed.

Lemma remake_delivered op a b bounds s r b' s' : remake_cmp mutate op a b bounds s = ((r, b'), s') ->
  wf (ECmp op a b) = true -> view_wf (view s) -> delivered (ECmp op a b) bounds s r b' s'.
Proof.
  intros E W V. unfold remake_cmp in E. run_step E x s1 E1. run_step E y s2 E2. injection E as <- <- <-.
  eapply operands_delivered, remade_operands; eauto.
Qed.

Lemma less_delivered a b bounds s r b' s' : visit_less mutate a b bounds s = ((r, b'), s') ->
  wf (ECmp LT a b) = true -> view_wf (view s) -> delivered (ECmp LT a b) bounds s r b' s'.
Proof.
  intros E W V. unfold visit_less in E. run_step E p s1 E1. destruct p as [x A]. run_step E q s2 E2.
  destruct q as [y B]. run_step E st s3 E3. destruct (wf_comparison _ _ _ W) as (Wa & Wb & _).
  assert (O : operands (ECmp LT) a b x y A B s s2).
  { apply (cmp_operands LT _ _ _ _ _ _ _ s1); auto; [now apply (info_operand mutate Mu)|].
    intros V1. now apply (info_operand mutate Mu). }
  eapply close_facts; [exact W|exact V|exact O| |exact E| |].
  - eapply (framed_at mutate Mu); [|exact E3]. intros ? ? Fr. apply leading_LT. exact Fr.
  - apply (visit_LT_keeps (prover := this) (no_float_simplify s2) (facts (knowledge s2)) _ x y A B); auto;
      apply (ops_node _ _ _ _ _ _ _ _ _ O).
  - intros env i F S K. split; [|now split].
    pose proof (f_equal seen_facts (view_kept _ _ (ops_frame _ _ _ _ _ _ _ _ _ O) V)) as Vf. cbn in Vf. now rewrite Vf.
Qed.

Lemma wf_difference op a b : wf (ECmp op a b) = true -> wf (EBin Sub a b) = true.
Proof. cbn [wf is_bool_op]. intros W. now rewrite W. Qed.

(** The difference of the operands is simplified, and tested. *)
Lemma delta_delivered a b bounds s r b' s' :
  (let! _ := note (Met (EBin Sub a b)) in
   let! '(delta, D) := mutate_info mutate (EBin Sub a b) in
   let! _ := note (Combined Subtracted D D) in
   let! st := visit_EQ_delta (prover := this) a b delta D in
   finish mutate (ECmp EQ a b) (eq_exceptions (type_of a)) st bounds) s = ((r, b'), s') ->
  wf (ECmp EQ a b) = true -> view_wf (view s) -> delivered (ECmp EQ a b) bounds s r b' s'.
Proof.
  intros E W V. run_step E u s1 N1. assert (s1 = snd (note (Met (EBin Sub a b)) s)) as -> by (now rewrite N1). clear N1.
  run_step E p s2 E2. destruct p as [delta D]. run_step E v s3 N3.
  assert (s3 = snd (note (Combined Subtracted D D) s2)) as -> by (now rewrite N3). clear N3. run_step E st s4 E4.
  pose proof (info_operand mutate Mu _ _ _ _ _ E2 (wf_difference _ _ _ W) V) as O.
  pose proof (frame_trans _ _ _ (noted (Met (EBin Sub a b)) s) (op_frame _ _ _ _ _ O)) as F2.
  pose proof (noted (Combined Subtracted D D) s2) as F3.
  eapply close_visit with (e0 := ECmp EQ a b) (K := delta_known a b delta D);
    [exact E|now split|exact V|exact (frame_trans _ _ _ F2 F3)| | |].
  - eapply (framed_at mutate Mu); [|exact E4]. intros ? ? Fr. apply leading_EQ_delta. exact Fr.
  - pose proof (op_type _ _ _ _ _ O) as Td. cbn [type_of] in Td. rewrite <- Td.
    apply (visit_EQ_delta_correct (prover := this) a b delta D W (op_wf _ _ _ _ _ O) Td). exact E4.
  - intros ty env N C K Ev H. split; [now apply good_refl|]. split; [exact H|]. intros i L.
    pose proof (noted_ok ty env _ _ C) as X. cbn [event_ok combination_ok] in X.
    pose proof (calm_back ty env _ _ F3 C) as C2.
    destruct (noted_ok ty env _ _ (calm_back ty env _ _ (op_frame _ _ _ _ _ O) C2)) as [_ Me].
    destruct (op_sound _ _ _ _ _ O ty env N C2 K Me) as [G Hd].
    assert (Ld : lane_in (type_of (EBin Sub a b)) i) by now apply (cmp_lanes EQ _ _ _ W).
    split; [exact (good_at ty env _ _ i (operand_in_place _ _ _ _ _ O) G Ld)|].
    split; [apply N|]. split; [|exact X]. rewrite (proj2 G i Ld). auto.
Qed.

Lemma equation_delivered a b bounds s r b' s' : visit_equation mutate a b bounds s = ((r, b'), s') ->
  wf (ECmp EQ a b) = true -> view_wf (view s) -> delivered (ECmp EQ a b) bounds s r b' s'.
Proof.
  intros E W V. unfold visit_equation in E. run_step E s0 s1 Ec. injection Ec as <- <-.
  destruct (count (truths _) _) eqn:F1; [exact (close_early _ _ _ _ _ _ _ E W V (truth_early _ _ _ _ W eq_refl F1))|].
  destruct (count (falsehoods _) _) eqn:F2; [exact (close_early _ _ _ _ _ _ _ E W V (falsehood_early _ _ _ _ W eq_refl F2))|].
  destruct (negb _); [now apply remake_delivered|]. destruct (is_bool (type_of a)) eqn:B; [|now apply delta_delivered].
  run_step E x s1 E1. run_step E y s2 E2. run_step E st s3 E3.
  pose proof (remade_operands _ _ _ _ _ _ _ _ W V E1 E2) as O. pose proof (ops_left _ _ _ _ _ _ _ _ _ O) as [_ T].
  eapply close_visit with (K := fun _ _ => True);
    [exact E|exact (ops_node _ _ _ _ _ _ _ _ _ O)|exact V|exact (ops_frame _ _ _ _ _ _ _ _ _ O)| | |].
  - eapply (framed_at mutate Mu); [|exact E3]. intros ? ? Fr. apply leading_EQ_bool. exact Fr.
  - rewrite <- T. apply (visit_EQ_bool_correct (prover := this)); [apply (ops_node _ _ _ _ _ _ _ _ _ O)|now rewrite T|exact E3].
  - intros ty env N C K Ev H. split; [|now split]. apply (ops_sound _ _ _ _ _ _ _ _ _ O ty env N C K Ev).
Qed.

Lemma in_type_b2z n x : in_type (BoolT n) (b2z x).
Proof. apply in_type_bool. destruct x; auto. Qed.

Lemma everywhere_not ty env a : everywhere ty env a -> everywhere ty env (ENot a).
Proof.
  intros E. constructor; [split; [|split; [|exact I]]|constructor; [exact E|constructor]];
    [|intros Sc i; cbn [ev]; now rewrite (everywhere_uniform ty env a i E Sc)].
  intros i L. destruct (everywhere_defined ty env a i E L) as [O F]. split; [exact O|]. cbn [fits]. split; [|exact F].
  apply in_type_b2z.
Qed.

Lemma everywhere_cmp ty env op a b : wf (ECmp op a b) = true -> everywhere ty env a -> everywhere ty env b ->
  everywhere ty env (ECmp op a b).
Proof.
  intros W Ea Eb. destruct (wf_comparison _ _ _ W) as (_ & _ & T).
  constructor; [split; [|split; [|exact I]]|constructor; [exact Ea|constructor; [exact Eb|constructor]]];
    [|intros Sc i; cbn [ev]; rewrite (everywhere_uniform ty env a i Ea Sc), (everywhere_uniform ty env b i Eb); [easy|now rewrite T]].
  intros i L. destruct (cmp_lanes _ _ _ _ W L) as [La Lb].
  destruct (everywhere_defined ty env a i Ea La) as [Oa Fa]. destruct (everywhere_defined ty env b i Eb Lb) as [Ob Fb].
  split; [now split|]. cbn [fits]. split; [|now split]. apply in_type_b2z.
Qed.

Lemma everywhere_redirect ty env op a b e : redirect_cmp op a b = Some e -> wf (ECmp op a b) = true ->
  everywhere ty env (ECmp op a b) -> everywhere ty env e.
Proof.
  intros R W E. pose proof (everywhere_children _ _ _ E) as Ec. inversion Ec as [|? ? Ea Ec']; subst.
  inversion Ec' as [|? ? Eb _]; subst. destruct (wf_comparison _ _ _ W) as (Wa & Wb & T).
  assert (W1 : wf (ECmp LT a b) = true) by exact W.
  assert (W2 : wf (ECmp LT b a) = true) by (cbn [wf]; now rewrite Wa, Wb, T, type_eqb_refl).
  assert (W3 : wf (ECmp EQ a b) = true) by exact W.
  destruct op; try discriminate R; injection R as <-; unfold redirect_LE, redirect_GT, redirect_GE;
    try apply everywhere_not; now apply everywhere_cmp.
Qed.

Lemma comparison_delivered op a b bounds s r b' s' : visit_comparison mutate op a b bounds s = ((r, b'), s') ->
  wf (ECmp op a b) = true -> view_wf (view s) -> delivered (ECmp op a b) bounds s r b' s'.
Proof.
  intros E W V. destruct (redirect_cmp op a b) as [e'|] eqn:R.
  - assert (G : forall bounds, (let! ok := may (type_of a) in
      if ok : bool then mutate e' bounds else remake_cmp mutate op a b bounds) s = ((r, b'), s') ->
      delivered (ECmp op a b) bounds s r b' s').
    { intros bs H. run_step H can s1 E1. injection E1 as <- <-. destruct (may_simplify _ _); [|now apply remake_delivered].
      destruct (redirect_cmp_correct _ _ _ _ W R) as (We & Te & Ve). destruct (Mu e' bs) as [_ Ty So].
      destruct (Ty _ _ _ _ H We V) as [Wr Tr]. split; [split; [exact Wr|congruence]|].
      intros ty env N C K Ev B. pose proof (everywhere_redirect ty env _ _ _ _ R W Ev) as Ee.
      assert (G : good ty env (ECmp op a b) e') by (split; [exact Ee|intros; apply Ve]).
      destruct (So ty env _ _ _ _ H We V N C K Ee) as [G2 B2]; [now apply (bounds_hold_good ty env (ECmp op a b))|].
      split; [now apply (good_trans ty env _ e')|]. now apply (bounds_hold_good ty env (ECmp op a b) e'). }
    unfold visit_comparison in E. destruct op; try discriminate R; rewrite R in E; now apply (G bounds).
  - destruct op; try discriminate R; [now apply equation_delivered|now apply less_delivered].
Qed.

(** ** Other nodes *)

Lemma negation_delivered a bounds s r b' s' : visit_negation mutate a bounds s = ((r, b'), s') ->
  wf (ENot a) = true -> view_wf (view s) -> delivered (ENot a) bounds s r b' s'.
Proof.
  intros E W V. unfold visit_negation in E. run_step E x s1 E1. run_step E st s2 E2.
  assert (Wa : wf a = true) by (cbn [wf] in W; now destr_and).
  pose proof (only_operand mutate Mu _ _ _ _ E1 Wa V) as O. pose proof (operand_in_place _ _ _ _ _ O) as P.
  eapply close_visit with (K := fun _ _ => True);
    [exact E|exact (rewf_not _ _ W P)|exact V|exact (op_frame _ _ _ _ _ O)| | |].
  - eapply (framed_at mutate Mu); [|exact E2]. intros ? ? Fr. apply leading_Not. exact Fr.
  - apply (visit_Not_correct (prover := this)); [now apply (rewf_not a)|exact E2].
  - intros ty env N C K Ev H. split; [|now split]. apply good_not; auto.
    pose proof (Forall_inv (everywhere_children _ _ _ Ev)) as Ea. apply (op_sound _ _ _ _ _ O ty env N C K Ea).
Qed.

Lemma cast_delivered t v bounds s r b' s' : visit_cast mutate t v bounds s = ((r, b'), s') ->
  wf (Cast t v) = true -> view_wf (view s) -> delivered (Cast t v) bounds s r b' s'.
Proof.
  intros E W V. unfold visit_cast in E. run_step E x s1 E1. run_step E st s2 E2.
  destruct (wf_cast _ _ W) as (Wv & _ & _).
  pose proof (only_operand mutate Mu _ _ _ _ E1 Wv V) as O. pose proof (operand_in_place _ _ _ _ _ O) as P.
  eapply close_visit with (K := fun _ _ => True);
    [exact E|exact (rewf_cast _ _ _ W P)|exact V|exact (op_frame _ _ _ _ _ O)| | |].
  - eapply (framed_at mutate Mu); [|exact E2]. intros ? ? Fr. apply leading_Cast. exact Fr.
  - apply (visit_Cast_step (prover := this) (no_float_simplify s1)); [now apply (rewf_cast t v)|exact E2].
  - intros ty env N C K Ev H. split; [|now split]. apply good_cast; auto.
    pose proof (Forall_inv (everywhere_children _ _ _ Ev)) as Ea. apply (op_sound _ _ _ _ _ O ty env N C K Ea).
Qed.

Lemma broadcast_delivered v n bounds s r b' s' : visit_broadcast mutate v n bounds s = ((r, b'), s') ->
  wf (Broadcast v n) = true -> view_wf (view s) -> delivered (Broadcast v n) bounds s r b' s'.
Proof.
  intros E W V. unfold visit_broadcast in E. run_step E p s1 E1. destruct p as [x bs]. injection E as <- <- <-.
  assert (Wv : wf v = true) by (cbn [wf] in W; now destr_and). destruct (Mu v bounds) as [_ Ty So].
  pose proof (Ty _ _ _ _ E1 Wv V) as P. split; [now apply rewf_broadcast|].
  intros ty env N C K Ev B. pose proof (Forall_inv (everywhere_children _ _ _ Ev)) as Ea.
  assert (Sc : is_scalar (type_of v) = true) by (cbn [wf] in W; now destr_and).
  destruct (So ty env _ _ _ _ E1 Wv V N C K Ea) as [G H].
  - destruct bounds as [z|]; [|exact I]. intros i _. rewrite (everywhere_uniform ty env v i Ea Sc). apply (B 0). right.
    cbn [wf] in W. destr_and. unfold vector_lanes in *. zify_bool. change (0 <= 0 < n). lia.
  - split; [now apply good_broadcast|]. destruct bs as [z|]; [|exact I]. intros i L. apply (H i). now left.
Qed.

Lemma ramp_delivered b st0 n bounds s r b' s' : visit_ramp mutate b st0 n bounds s = ((r, b'), s') ->
  wf (Ramp b st0 n) = true -> view_wf (view s) -> delivered (Ramp b st0 n) bounds s r b' s'.
Proof.
  intros E W V. unfold visit_ramp in E. run_step E p s1 E1. destruct p as [x A]. run_step E q s2 E2.
  destruct q as [y B]. run_step E bs s3 E3. run_step E st s4 E4. pose proof W as W0. cbn [wf] in W0. destr_and.
  assert (Op : operands (fun b s => Ramp b s n) b st0 x y A B s s2).
  { apply (operands_intro _ _ _ _ _ _ _ _ s1); auto.
    - now apply (info_operand mutate Mu).
    - intros V1. now apply (info_operand mutate Mu).
    - intros i _. now apply (ramp_scalars b st0 n).
    - intros. now apply rewf_ramp.
    - intros. now apply good_ramp. }
  arith_facts Op Wn T. eapply (arith_close (fun b s => Ramp b s n)) with (K := True);
    [exact Op|exact V|apply frame_refl|exact E3| | | |exact E|].
  - eapply (framed_at mutate Mu); [|exact E4]. intros ? ? Fr. apply leading_Ramp. exact Fr.
  - apply (fewer_known (prover := this)), (correct_step_when (prover := this)). exact (visit_Ramp_step (prover := this) x y n _ _ _ Wn E4).
  - intros. exact I.
  - intros _ z ty env i _ X K L _ _. cbn [type_of]. rewrite <- T. apply ramp_bounds_hold; auto.
    destruct L as [L|L]; [|exact L]. cbn [type_of] in L. rewrite not_scalar_with in L by assumption. discriminate L.
Qed.

Lemma selection_delivered c t f bounds s r b' s' : visit_selection mutate c t f bounds s = ((r, b'), s') ->
  wf (Select c t f) = true -> view_wf (view s) -> delivered (Select c t f) bounds s r b' s'.
Proof.
  intros E W V. unfold visit_selection in E. run_step E x s1 E1. run_step E p s2 E2. destruct p as [y A].
  run_step E q s3 E3. destruct q as [z B]. run_step E bs s4 E4. run_step E st s5 E5.
  destruct (wf_select _ _ _ W) as (Wc & Wt & Wf & T & _).
  pose proof (only_operand mutate Mu _ _ _ _ E1 Wc V) as O1. pose proof (op_frame _ _ _ _ _ O1) as F1.
  pose proof (view_wf_kept _ _ F1 V) as V1.
  pose proof (info_operand mutate Mu _ _ _ _ _ E2 Wt V1) as O2. pose proof (op_frame _ _ _ _ _ O2) as F2.
  pose proof (view_wf_kept _ _ F2 V1) as V2.
  pose proof (info_operand mutate Mu _ _ _ _ _ E3 Wf V2) as O3. pose proof (op_frame _ _ _ _ _ O3) as F3.
  pose proof (operand_in_place _ _ _ _ _ O1) as P1. pose proof (operand_in_place _ _ _ _ _ O2) as P2.
  pose proof (operand_in_place _ _ _ _ _ O3) as P3. pose proof (framed_report _ _ _ _ _ _ _ _ _ E4) as F4.
  pose proof (rewf_select _ _ _ _ _ _ W P1 P2 P3) as P.
  eapply close_visit with (K := fun _ _ => True);
    [exact E|exact P|exact V|exact (frame_trans _ _ _ (frame_trans _ _ _ F1 F2) (frame_trans _ _ _ F3 F4))| | |].
  - eapply (framed_at mutate Mu); [|exact E5]. intros ? ? Fr. apply leading_Select. exact Fr.
  - exact (visit_Select_correct (prover := this) (no_float_simplify s4) _ _ _ _ _ _ (proj1 P) E5).
  - intros ty env N C4 K Ev H. pose proof (calm_back ty env _ _ F4 C4) as C3.
    pose proof (calm_back ty env _ _ F3 C3) as C2. pose proof (calm_back ty env _ _ F2 C2) as C1.
    pose proof (known_kept ty env _ _ F1 V K) as K1. pose proof (known_kept ty env _ _ F2 V1 K1) as K2.
    pose proof (everywhere_children _ _ _ Ev) as Ec. inversion Ec as [|? ? Ea Ec']; subst.
    inversion Ec' as [|? ? Eb Ec'']; subst. inversion Ec'' as [|? ? Ed _]; subst.
    destruct (op_sound _ _ _ _ _ O1 ty env N C1 K Ea) as [G1 _].
    destruct (op_sound _ _ _ _ _ O2 ty env N C2 K1 Eb) as [G2 H2].
    destruct (op_sound _ _ _ _ _ O3 ty env N C3 K2 Ed) as [G3 H3].
    split; [now apply good_select|]. split; [|auto]. eapply report_holds; [exact E4|exact C4|exact H|].
    intros _ w i [RA RB] L _. destruct (select_lanes _ _ _ _ W L) as [_ Lf].
    apply select_bounds_hold; auto. split; [now apply H2|now apply H3].
Qed.

Lemma delivered_from e b s s1 r b' s' : frame s s1 -> view_wf (view s) -> delivered e b s1 r b' s' ->
  delivered e b s r b' s'.
Proof.
  intros F V [P S]. split; [exact P|]. intros ty env N C K. apply S; auto. now apply (known_kept ty env s).
Qed.

(** A run that raised an error delivers the type only. *)
Lemma fail_delivered e e' b b' s : in_place e e' -> delivered e b s e' b' (snd (fail (e', b') s)).
Proof. intros P. split; [exact P|]. intros ty env _ [F _]. discriminate F. Qed.

Lemma load_operands_delivered t n p x al bounds s r b' s' : load_operands mutate t n p x al bounds s = ((r, b'), s') ->
  wf (Load t n p x al) = true -> view_wf (view s) -> delivered (Load t n p x al) bounds s r b' s'.
Proof.
  intros E W V. unfold load_operands in E. run_step E y s1 E1. run_step E q s2 E2. destruct q as [z Z].
  run_step E base s3 E3. destruct (wf_load _ _ _ _ _ W) as (Wp & Wx & _).
  pose proof (only_operand mutate Mu _ _ _ _ E1 Wp V) as O1. pose proof (op_frame _ _ _ _ _ O1) as F1.
  pose proof (view_wf_kept _ _ F1 V) as V1.
  pose proof (info_operand mutate Mu _ _ _ _ _ E2 Wx V1) as O2. pose proof (op_frame _ _ _ _ _ O2) as F2.
  pose proof (operand_in_place _ _ _ _ _ O1) as P1. pose proof (operand_in_place _ _ _ _ _ O2) as P2.
  assert (F3 : frame s2 s3).
  { revert E3. destruct z; try (intros [= _ <-]; apply frame_refl).
    refine (framed_bind _ _ (framed_info mutate Mu _) _ _ _ _). intros []. apply framed_done. }
  pose proof (rewf_load _ _ _ _ al _ _ al W P1 P2) as P.
  eapply close_visit with (K := fun env i => masks_keep_zero env /\ ev env i y <> 0);
    [exact E|exact P|exact V|exact (frame_trans _ _ _ F1 (frame_trans _ _ _ F2 F3))|apply frame_refl| |].
  - apply (visit_Load_step (prover := this)); [apply P|auto].
  - intros ty env N C3 K Ev H. pose proof (calm_back ty env _ _ F3 C3) as C2.
    pose proof (calm_back ty env _ _ F2 C2) as C1. pose proof (known_kept ty env _ _ F1 V K) as K1.
    pose proof (everywhere_children _ _ _ Ev) as Ec. inversion Ec as [|? ? Ea Ec']; subst.
    inversion Ec' as [|? ? Eb _]; subst.
    destruct (op_sound _ _ _ _ _ O1 ty env N C1 K Ea) as [G1 _].
    destruct (op_sound _ _ _ _ _ O2 ty env N C2 K1 Eb) as [G2 _].
    split; [now apply good_load|]. split; [exact H|]. intros i L. split; [apply N|].
    destruct (load_lanes _ _ _ _ _ _ W L) as [Lp _]. rewrite (proj2 G1 i Lp).
    destruct (everywhere_local _ _ _ Ev) as (_ & _ & Pr). now apply Pr.
Qed.

Lemma load_delivered t n p x al bounds s r b' s' : visit_load mutate t n p x al bounds s = ((r, b'), s') ->
  wf (Load t n p x al) = true -> view_wf (view s) -> delivered (Load t n p x al) bounds s r b' s'.
Proof.
  unfold visit_load. destruct (found_buffer_reference n (knowledge s)) as [k|] eqn:F.
  - intros E W V. destruct (found_buffer_view n _ _ F) as (Vv & B & Fa).
    assert (F1 : frame s (set_knowledge k s))
      by (apply (framed_set_knowledge (done tt) s k tt _ (framed_done tt) Vv B Fa); reflexivity).
    apply (delivered_from _ _ s _ _ _ _ F1 V). apply (load_operands_delivered _ _ _ _ _ _ _ _ _ _ E W).
    now apply (view_wf_kept s).
  - intros [= <- <- <-] W V. now apply fail_delivered.
Qed.

Lemma imm_delivered e bounds s r b' s' : visit_imm e bounds s = ((r, b'), s') ->
  wf e = true -> delivered e bounds s r b' s'.
Proof.
  intros E W. unfold visit_imm in E. injection E as <- <- <-. split; [now split|].
  intros ty env _ _ _ Ev B. split; [now apply good_refl|]. destruct bounds as [z|]; [|exact I].
  destruct (imm_has_bounds e); [|exact B]. intros i _. now apply imm_bounds_known.
Qed.

(** What is known of the bounds of a name holds of its values. *)
Lemma variable_bounds_hold ty env s n i : known ty env (view s) -> lane_in (ty n) i ->
  info_holds (variable_bounds n (knowledge s)) (value ty env i n).
Proof.
  intros K L. unfold variable_bounds. destruct (contains _ n); [|apply no_info_holds].
  destruct (get _ n) as [x|] eqn:G; [|apply no_info_holds]. exact (known_info ty env _ K n x G i L).
Qed.

(** The step a visit of a variable ends with is correct where what is known is true. *)
Lemma name_step t n s st k' c c' : visit_Variable t n (knowledge s) = Some (st, k') -> wf (EVariable t n) = true ->
  view_wf (view s) ->
  correct_when (prover := this) c c' (fun env i => exists ty, t = ty n /\ known ty env (view s)) [] (EVariable t n) st.
Proof.
  intros E W V. pose proof (wf_wf_type _ W) as T. cbn [type_of] in T.
  assert (Keep : correct_when (prover := this) c c' (fun env i => exists ty, t = ty n /\ known ty env (view s)) []
    (EVariable t n) (Kept (EVariable t n))) by (apply correct_early; [exact W|reflexivity|now split]).
  unfold visit_Variable in E. destruct (min_defined _ && _ && _) eqn:D.
  - injection E as <- _. destruct (make_const_spec t (info_min (variable_bounds n (knowledge s))) T) as [Wc Tc Ec Oc _].
    apply correct_early; [exact Wc|exact Tc|]. intros env i _ L (ty & -> & K). split; [apply Oc|].
    apply andb_true_iff in D. destruct D as [D Q]. apply Z.eqb_eq in Q.
    pose proof (info_pinned _ _ (variable_bounds_hold ty env s n i K L) D (eq_sym Q)) as Vn.
    rewrite Ec, <- Vn. unfold value. cbn [ev]. apply cast_val_id; [apply T|]. apply cast_val_range, T.
  - destruct (contains (var_info (knowledge s)) n); [|now injection E as <- _].
    destruct (ref _ n) as [info|] eqn:R; [|discriminate E]. destruct (replacement info) as [r|] eqn:Er.
    + destruct (type_eqb (type_of r) t) eqn:Te; [|discriminate E]. apply type_eqb_eq in Te.
      destruct (count_use use_new n _); [|discriminate E]. injection E as <- _.
      assert (G : get (seen_vars (view s)) n = Some (Some r))
        by (cbn; rewrite map_get, (get_ref _ _ _ R); cbn; now rewrite Er).
      apply correct_resumed, correct_early; [exact (wf_replacements _ V _ _ G)|exact Te|].
      intros env i _ L (ty & -> & K). destruct (known_vars ty env _ K n r G) as [Ev Vr].
      split; [|now apply Vr]. apply (everywhere_defined ty env r i Ev). now rewrite Te.
    + destruct (count_use use_old n _); [|discriminate E]. injection E as <- _. exact Keep.
Qed.

Lemma name_delivered t n bounds s r b' s' : visit_name mutate t n bounds s = ((r, b'), s') ->
  wf (EVariable t n) = true -> view_wf (view s) -> delivered (EVariable t n) bounds s r b' s'.
Proof.
  unfold visit_name. destruct (visit_Variable t n (knowledge s)) as [[st k]|] eqn:Ev.
  - intros E W V. destruct (visit_Variable_view _ _ _ _ _ Ev) as (Vv & B & Fa).
    assert (F1 : frame s (set_knowledge k s))
      by (apply (framed_set_knowledge (done tt) s k tt _ (framed_done tt) Vv B Fa); reflexivity).
    eapply close_visit with (e0 := EVariable t n); [exact E|now split|exact V|exact F1|apply frame_refl| |].
    + exact (name_step t n s st k _ _ Ev W V).
    + intros ty env N C K El H. split; [now apply good_refl|].
      destruct (everywhere_local _ _ _ El) as (_ & _ & T). split; [|eauto].
      destruct bounds as [z|]; [|exact I]. destruct (contains _ n); [|exact H].
      intros i L. cbn [type_of] in L. rewrite T in L |- *. now apply variable_bounds_hold.
  - intros [= <- <- <-] W V. now apply fail_delivered.
Qed.

(** A visit of a node is correct if those of the nodes that are visited
    elsewhere are. *)
Lemma node_visits others e b : (forall e b, visits e b (others e b)) -> visits e b (visit_node mutate others e b).
Proof.
  intros Ot. apply visits_intro.
  - apply framed_node; [exact Mu|]. intros. apply Ot.
  - intros s r b' s' E W V. destruct e; cbn [visit_node] in E; try exact (imm_delivered _ _ _ _ _ _ E W).
    + now apply cast_delivered.
    + now apply name_delivered.
    + destruct op; [now apply add_delivered|now apply sub_delivered|now apply mul_delivered|now apply div_delivered
        |now apply mod_delivered|now apply min_delivered|now apply max_delivered
        |apply junction_delivered; auto|apply junction_delivered; auto].
    + now apply comparison_delivered.
    + now apply negation_delivered.
    + now apply selection_delivered.
    + now apply load_delivered.
    + now apply ramp_delivered.
    + now apply broadcast_delivered.
    + destruct (Ot (ECall t name args ct value_index) b) as [_ Ty So]. split; [exact (Ty _ _ _ _ E W V)|eauto].
    + destruct (Ot (ELet name e1 e2) b) as [_ Ty So]. split; [exact (Ty _ _ _ _ E W V)|eauto].
    + destruct (Ot (Shuffle vectors indices) b) as [_ Ty So]. split; [exact (Ty _ _ _ _ E W V)|eauto].
Qed.
End Visits.
