(* ===== verification/SimplifyLet.v ===== *)
(** * Lets

    [simplify_let] of src/Simplify_Let.cpp, on expressions.  The code keeps the
    frames of nested lets on a stack of its own; here they are those of a
    recursion: a let is opened, its body is visited, and the let is closed. *)

From Stdlib Require Import ZArith Lia Bool List String.
From S2P Require Import Prelude.
From S2P Require Import IntArith.
From S2P Require Import ModulusRemainder.
From S2P Require Import Scope.
From S2P Require Import HalideTypes.
From S2P Require Import IR.
From S2P Require Import Typing.
From S2P Require Import IRMatch.
From S2P Require Import Visit.
From S2P Require Import Mutator.
From S2P Require Import Substitute.
From S2P Require Import ExprInfo.
From S2P Require Import ScopedFact.
From S2P Require Import SimplifyRun.
From S2P Require Import SimplifyNodes.
From S2P Require Import NamedValues.
From S2P Require Import ListNodes.
From S2P Require Import LetPeel.
From S2P Require Import SimplifyNodesSound.
Import ListNotations.
Open Scope string_scope.
Open Scope list_scope.
Open Scope Z_scope.

(** ** The visit *)

(** [count_var_uses]: the names of variables and buffers, each as often as it
    is used. *)
Fixpoint var_uses (e : Expr) : list string :=
  match e with
  | IntImm _ _ | UIntImm _ _ | FloatImm _ _ | StringImm _ => []
  | EVariable _ n => [n]
  | Cast _ a | ENot a | Broadcast a _ => var_uses a
  | EBin _ a b | ECmp _ a b | Ramp a b _ | ELet _ a b => var_uses a ++ var_uses b
  | Load _ n p i _ => n :: var_uses p ++ var_uses i
  | Select a b c => var_uses a ++ var_uses b ++ var_uses c
  | ECall _ _ l _ _ | Shuffle l _ => List.concat (map var_uses l)
  end.

Definition used (n : string) (l : list string) : bool := existsb (String.eqb n) l.

(** A frame, once the let is open. *)
Record Frame := mkFrame {
  fr_name : string;
  fr_value : Expr;
  fr_new_name : string;
  fr_new_value : option Expr;
  fr_new_tracked : bool;
  fr_tracked : bool
}.

(** There is some useful information. *)
Definition useful (x : ExprInfo) : bool :=
  min_defined x || max_defined x || negb (modulus (info_alignment x) =? 1).

(** Pushes and pops on the scopes. *)
Definition push_var (n : string) (i : VarInfo) : R unit := fun s =>
  let k := knowledge s in
  (tt, set_knowledge (mkState (push (var_info k) n i) (bounds_and_alignment_info k) (facts k)) s).

Definition push_info (n : string) (x : ExprInfo) : R unit := fun s =>
  let k := knowledge s in
  (tt, set_knowledge (mkState (var_info k) (push (bounds_and_alignment_info k) n x) (facts k)) s).

Definition pop_info (n : string) : R unit := fun s =>
  let k := knowledge s in
  match pop (bounds_and_alignment_info k) n with
  | Some b => (tt, set_knowledge (mkState (var_info k) b (facts k)) s)
  | None => fail tt s
  end.

(** [var_info.get(name)], then [var_info.pop(name)]. *)
Definition take_var (n : string) : R VarInfo := fun s =>
  let k := knowledge s in
  match get (var_info k) n, pop (var_info k) n with
  | Some i, Some v => (i, set_knowledge (mkState v (bounds_and_alignment_info k) (facts k)) s)
  | _, _ => fail (mkVarInfo None 0 0) s
  end.

Definition push_useful (n : string) (x : ExprInfo) : R bool :=
  if useful x then let! _ := push_info n x in done true else done false.

Section Lets.
Context (mutate : Mutate).

(** The replacement of the old name and the new value.  The code relies on
    unique names; where the value uses the new name already the run is void
    here, as it is where a concatenation is wider than vectors are. *)
Definition let_replacement (new_name : string) (value : Expr) : R (option Expr * option Expr) :=
  match peel value with
  | Outside => done (None, None)
  | _ =>
      if expr_uses_var value new_name then fail (None, None)
      else match peel_value new_name value with
           | Peeled_to r nv => done (Some r, nv)
           | _ => fail (None, None)
           end
  end.

(** The new value is mutated again, for its bounds. *)
Definition track_new (new_name : string) (new_value : option Expr) : R (option Expr * bool) :=
  match new_value with
  | Some w =>
      let! _ := note (Named new_name w) in
      if no_overflow_scalar_int (type_of w) then
        let! '(w', x) := mutate_info mutate w in
        let! tracked := push_useful new_name x in
        done (Some w', tracked)
      else done (Some w, false)
  | None => done (None, false)
  end.

Definition open_let (n : string) (v : Expr) : R Frame :=
  let! s := current in
  let! _ := if contains (var_info (knowledge s)) n then fail tt else done tt in
  let! '(value, x) := mutate_info mutate v in
  let new_name := (n ++ ".s")%string in
  let! '(replacement, new_value) := let_replacement new_name value in
  let! _ := push_var n (mkVarInfo replacement 0 0) in
  let! '(new_value, new_tracked) := track_new new_name new_value in
  let! tracked :=
    if no_overflow_scalar_int (type_of value) then push_useful n x else done false in
  done (mkFrame n value new_name new_value new_tracked tracked).

(** The lets that are kept around the body, and the uses counted. *)
Definition keep_lets (dead_lets : bool) (info : VarInfo) (f : Frame) (body : Expr) (uses : list string)
    : Expr * list string :=
  let '(body, uses) :=
    match fr_new_value f with
    | Some w =>
        if (0 <? new_uses info) && used (fr_new_name f) uses
        then (ELet (fr_new_name f) w body, var_uses w ++ uses)
        else (body, uses)
    | None => (body, uses)
    end in
  if negb dead_lets || ((0 <? old_uses info) && used (fr_name f) uses)
  then (ELet (fr_name f) (fr_value f) body, var_uses (fr_value f) ++ uses)
  else (body, uses).

Definition close_let (f : Frame) (body : Expr) (uses : list string) : R (Expr * list string) :=
  let! _ := if fr_tracked f then pop_info (fr_name f) else done tt in
  let! _ := if fr_new_tracked f then pop_info (fr_new_name f) else done tt in
  let! info := take_var (fr_name f) in
  let! s := current in
  done (keep_lets (remove_dead_lets s) info f body uses).

Fixpoint simplify_let (e : Expr) (bounds : option ExprInfo) : R (Expr * list string * option ExprInfo) :=
  match e with
  | ELet n v b =>
      let! f := open_let n v in
      let! '(body, uses, bounds) := simplify_let b bounds in
      let! '(r, uses) := close_let f body uses in
      done (r, uses, bounds)
  | _ => let! '(r, bounds) := mutate e bounds in done (r, var_uses r, bounds)
  end.

(** [Simplify::visit(const Let)]. *)
Definition visit_let (e : Expr) (bounds : option ExprInfo) : R Result :=
  let! '(r, _, bounds) := simplify_let e bounds in done (r, bounds).
End Lets.

(** ** The lets that are kept *)

(** A new value, if any, has a property. *)
Definition holds_of (P : Expr -> Prop) (nv : option Expr) : Prop :=
  match nv with Some w => P w | None => True end.

Lemma let_in_place n v b : wf v = true -> wf b = true -> in_place b (ELet n v b).
Proof. intros Wv Wb. split; [cbn [wf]; now rewrite Wv, Wb|reflexivity]. Qed.

Lemma let_good ty env n v b : wf v = true -> wf b = true -> everywhere ty env v -> everywhere ty env b ->
  names ty env n v -> good ty env b (ELet n v b).
Proof.
  intros Wv Wb Ev Eb N. split; [now apply everywhere_let|]. intros i L. now apply (let_value ty).
Qed.

Lemma in_place_trans a b c : in_place a b -> in_place b c -> in_place a c.
Proof. intros [_ T] [W T']. split; [exact W|congruence]. Qed.

Lemma keep_lets_typed dead info f body uses r uses' : keep_lets dead info f body uses = (r, uses') ->
  wf body = true -> wf (fr_value f) = true -> holds_of (fun w => wf w = true) (fr_new_value f) -> in_place body r.
Proof.
  unfold keep_lets. intros E Wb Wv Wn.
  assert (G : forall b0 u0, in_place body b0 ->
    (if negb dead || ((0 <? old_uses info) && used (fr_name f) u0)
     then (ELet (fr_name f) (fr_value f) b0, var_uses (fr_value f) ++ u0) else (b0, u0)) = (r, uses') -> in_place body r).
  { intros b0 u0 P. destruct (_ || _); intros [= <- _]; [|exact P].
    apply (in_place_trans _ b0); [exact P|]. apply let_in_place; [exact Wv|apply P]. }
  destruct (fr_new_value f) as [w|]; [|apply (G body uses); [now apply in_place_refl|exact E]].
  destruct (_ && _); (eapply G; [|exact E]); [now apply let_in_place|now apply in_place_refl].
Qed.

Lemma keep_lets_good ty env dead info f body uses r uses' : keep_lets dead info f body uses = (r, uses') ->
  wf body = true -> wf (fr_value f) = true -> holds_of (fun w => wf w = true) (fr_new_value f) ->
  everywhere ty env body -> everywhere ty env (fr_value f) -> names ty env (fr_name f) (fr_value f) ->
  holds_of (everywhere ty env) (fr_new_value f) -> holds_of (names ty env (fr_new_name f)) (fr_new_value f) ->
  good ty env body r.
Proof.
  unfold keep_lets. intros E Wb Wv Wn Eb Ev Nv En Nn.
  assert (G : forall b0 u0, in_place body b0 -> good ty env body b0 ->
    (if negb dead || ((0 <? old_uses info) && used (fr_name f) u0)
     then (ELet (fr_name f) (fr_value f) b0, var_uses (fr_value f) ++ u0) else (b0, u0)) = (r, uses') -> good ty env body r).
  { intros b0 u0 [W0 T0] P. destruct (_ || _); intros [= <- _]; [|exact P].
    apply (good_trans _ _ _ b0); [exact T0|exact P|]. apply let_good; auto. apply P. }
  destruct (fr_new_value f) as [w|];
    [|apply (G body uses); [now apply in_place_refl|now apply good_refl|exact E]].
  destruct (_ && _); (eapply G; [| |exact E]);
    [now apply let_in_place|now apply let_good|now apply in_place_refl|now apply good_refl].
Qed.

(** ** What opening a let pushes *)

(** The trace grows, and errors are kept. *)
Record grows (s s' : Run) : Prop := {
  grows_trace : exists l, trace s' = l ++ trace s;
  grows_failed : failed s = true -> failed s' = true
}.

Lemma grows_trans s1 s2 s3 : grows s1 s2 -> grows s2 s3 -> grows s1 s3.
Proof.
  intros [[l1 T1] F1] [[l2 T2] F2]. split; auto. exists (l2 ++ l1). now rewrite T2, T1, app_assoc.
Qed.

Lemma grows_frame s s' : frame s s' -> grows s s'.
Proof. intros [T F _]. now split. Qed.

Lemma frame_grows s s' : grows s s' -> (view_ok (view s) -> view s' = view s) -> frame s s'.
Proof. intros [T F] V. now split. Qed.

Lemma calm_grows ty env s s' : grows s s' -> calm ty env s' -> calm ty env s.
Proof.
  intros [[l T] F] [Fs Es]. split.
  - destruct (failed s); [|reflexivity]. now rewrite F in Fs.
  - rewrite T in Es. now apply Forall_app in Es.
Qed.

Definition with_var (n : string) (r : option Expr) (V : View) : View :=
  mkView (push (seen_vars V) n r) (seen_bounds V) (seen_facts V) (seen_no_float V) (seen_dead_lets V).
Definition with_info (tracked : bool) (n : string) (x : ExprInfo) (V : View) : View :=
  if tracked
  then mkView (seen_vars V) (push (seen_bounds V) n x) (seen_facts V) (seen_no_float V) (seen_dead_lets V)
  else V.

(** What is known within the body of an open let. *)
Definition inside (f : Frame) (r : option Expr) (x1 x2 : ExprInfo) (V : View) : View :=
  with_info (fr_tracked f) (fr_name f) x2 (with_info (fr_new_tracked f) (fr_new_name f) x1 (with_var (fr_name f) r V)).

Lemma push_var_spec n i s u s' : push_var n i s = (u, s') ->
  grows s s' /\ view s' = with_var n (replacement i) (view s).
Proof.
  intros [= _ <-]. split; [split; [now exists []|auto]|]. unfold with_var.
  change (seen_vars (view s)) with (map_scope replacement (var_info (knowledge s))).
  now rewrite <- (map_push replacement) by reflexivity.
Qed.

Lemma push_useful_spec n x s tracked s' : push_useful n x s = (tracked, s') ->
  grows s s' /\ view s' = with_info tracked n x (view s).
Proof.
  unfold push_useful. destruct (useful x); intros [= <- <-]; (split; [split; [now exists []|auto]|reflexivity]).
Qed.

Lemma with_var_wf n r V : view_wf V -> holds_of (fun e => wf e = true) r -> view_wf (with_var n r V).
Proof.
  intros [[O1 O2] W] H. split; [split; [now apply push_scope_ok|exact O2]|]. intros m e. cbn [seen_vars with_var].
  destruct (String.eqb_spec m n) as [->|N]; [rewrite get_push; intros [= ->]; exact H|].
  rewrite get_push_ne by exact N. apply W.
Qed.

Lemma with_info_wf b n x V : view_wf V -> view_wf (with_info b n x V).
Proof. intros [[O1 O2] W]. destruct b; [|now split]. split; [split; [exact O1|now apply push_scope_ok]|exact W]. Qed.

Lemma with_var_known ty env n r V : known ty env V ->
  holds_of (fun e => everywhere ty env e /\ forall i, lane_in (ty n) i -> ev env i e = value ty env i n) r ->
  known ty env (with_var n r V).
Proof.
  intros [K1 K2 K3] H. split; [|exact K2|exact K3]. intros m e. cbn [seen_vars with_var].
  destruct (String.eqb_spec m n) as [->|N]; [rewrite get_push; intros [= ->]; exact H|].
  rewrite get_push_ne by exact N. apply K1.
Qed.

Lemma with_info_known ty env b n x V : known ty env V ->
  (b = true -> forall i, lane_in (ty n) i -> info_holds x (value ty env i n)) -> known ty env (with_info b n x V).
Proof.
  intros [K1 K2 K3] H. destruct b; [|now split]. split; [exact K1| |exact K3]. intros m y. cbn [seen_bounds with_info].
  destruct (String.eqb_spec m n) as [->|N]; [rewrite get_push; intros [= ->]; now apply H|].
  rewrite get_push_ne by exact N. apply K2.
Qed.

Lemma let_replacement_spec nn value s r nv s' : let_replacement nn value s = ((r, nv), s') -> wf value = true ->
  (r = None /\ nv = None) \/ exists r0, r = Some r0 /\ replaced nn value r0 nv.
Proof.
  intros E W. unfold let_replacement in E. destruct (peel value); try (injection E as <- <- _; now left);
    (destruct (expr_uses_var value nn) eqn:U; [injection E as <- <- _; now left|]);
    (destruct (peel_value nn value) as [r0 nv0| |] eqn:P; injection E as <- <- _; [right|now left|now left]);
    exists r0; (split; [reflexivity|now apply peel_value_spec]).
Qed.

Lemma framed_replacement nn value : framed (let_replacement nn value).
Proof. unfold let_replacement. repeat first [apply framed_done|apply framed_fail|case_goal]. Qed.

Section Correct.
Context (mutate : Mutate) (Mu : mutates mutate).

Lemma track_new_view nn nv s nv' b s' : track_new mutate nn nv s = ((nv', b), s') ->
  grows s s' /\ (view_ok (view s) -> exists x, view s' = with_info b nn x (view s)).
Proof.
  unfold track_new. destruct nv as [w|]; [|intros [= _ <- <-]; split; [apply grows_frame, frame_refl|]; intros _; now exists no_info].
  intros E. run_step E u s1 N1. pose proof (framed_note _ _ _ _ N1) as F1.
  destruct (no_overflow_scalar_int (type_of w)).
  - run_step E p s2 E2. destruct p as [w' x]. run_step E tr s3 E3. injection E as _ <- <-.
    pose proof (frame_trans _ _ _ F1 (framed_info mutate Mu _ _ _ _ E2)) as F2.
    destruct (push_useful_spec _ _ _ _ _ E3) as [G V].
    split; [exact (grows_trans _ _ _ (grows_frame _ _ F2) G)|]. intros O. exists x. now rewrite V, (frame_view _ _ F2 O).
  - injection E as _ <- <-. split; [now apply grows_frame|]. intros O. exists no_info. exact (frame_view _ _ F1 O).
Qed.

Lemma names_good ty env n a b : type_of b = type_of a -> good ty env a b -> names ty env n a -> names ty env n b.
Proof.
  intros T [_ V] [Tn N]. split; [congruence|]. intros j J. rewrite V by (now rewrite Tn). now apply N.
Qed.

Lemma value_named ty env n e i : wf e = true -> everywhere ty env e -> names ty env n e -> lane_in (ty n) i ->
  value ty env i n = ev env i e.
Proof. intros W E N L. pose proof N as [T _]. unfold value. rewrite <- T in *. now apply (named_value ty). Qed.

Lemma track_new_typed nn nv s nv' b s' : track_new mutate nn nv s = ((nv', b), s') -> view_wf (view s) ->
  holds_of (fun w => wf w = true) nv -> holds_of (fun w => wf w = true) nv'.
Proof.
  unfold track_new. destruct nv as [w|]; [|now intros [= <- _ _]].
  intros E V W. run_step E u s1 N1. pose proof (framed_note _ _ _ _ N1) as F1.
  destruct (no_overflow_scalar_int (type_of w)); [|now injection E as <- _ _].
  run_step E p s2 E2. destruct p as [w' x]. run_step E tr s3 E3. injection E as <- _ _.
  exact (op_wf _ _ _ _ _ (info_operand mutate Mu _ _ _ _ _ E2 W (view_wf_kept _ _ F1 V))).
Qed.

Lemma track_new_names nn nv s nv' b s' ty env : track_new mutate nn nv s = ((nv', b), s') -> calm ty env s' ->
  holds_of (names ty env nn) nv.
Proof.
  intros E C. unfold track_new in E. destruct nv as [w|]; [|exact I].
  run_step E u s1 N1. injection N1 as _ <-. set (s1 := snd (note (Named nn w) s)).
  assert (G : calm ty env s1); [|exact (noted_ok ty env _ _ G)].
  destruct (no_overflow_scalar_int (type_of w)); [|now injection E as _ _ <-].
  run_step E p s2 E2. destruct p as [w' x]. run_step E tr s3 E3. injection E as _ _ <-.
  destruct (push_useful_spec _ _ _ _ _ E3) as [Gr _].
  exact (calm_back ty env _ _ (framed_info mutate Mu _ _ _ _ E2) (calm_grows ty env _ _ Gr C)).
Qed.

Lemma track_new_sound nn nv s nv' b s' ty env : track_new mutate nn nv s = ((nv', b), s') -> view_wf (view s) ->
  holds_of (fun w => wf w = true) nv -> sane_env env -> calm ty env s' -> known ty env (view s) ->
  holds_of (everywhere ty env) nv ->
  holds_of (names ty env nn) nv /\ holds_of (everywhere ty env) nv' /\ holds_of (names ty env nn) nv' /\
  known ty env (view s').
Proof.
  intros E V W N C K Ev. unfold track_new in E. destruct nv as [w|]; [|injection E as <- _ <-; cbn; auto].
  run_step E u s1 N1. injection N1 as _ <-. set (s1 := snd (note (Named nn w) s)).
  assert (G : names ty env nn w -> calm ty env s1 -> True) by auto.
  destruct (no_overflow_scalar_int (type_of w)) eqn:No.
  - run_step E p s2 E2. destruct p as [w' x]. run_step E tr s3 E3. injection E as <- <- <-.
    pose proof (info_operand mutate Mu _ _ _ _ _ E2 W V) as O. destruct (push_useful_spec _ _ _ _ _ E3) as [Gr Vw].
    pose proof (calm_grows ty env _ _ Gr C) as C2.
    assert (Nw : names ty env nn w) by exact (noted_ok ty env _ _ (calm_back ty env _ _ (op_frame _ _ _ _ _ O) C2)).
    destruct (op_sound _ _ _ _ _ O ty env N C2 K Ev) as [Gd H].
    split; [exact Nw|]. split; [apply Gd|]. split; [exact (names_good ty env _ _ _ (op_type _ _ _ _ _ O) Gd Nw)|].
    rewrite Vw. apply with_info_known; [rewrite (view_kept _ _ (op_frame _ _ _ _ _ O) V); exact K|].
    intros _ i L. rewrite (value_named ty env nn w) by auto. apply H. destruct Nw as [T _]. now rewrite T.
  - injection E as <- <- <-. assert (Nw : names ty env nn w) by exact (noted_ok ty env _ _ C). auto.
Qed.

(** What opening a let does. *)
Record opened (n : string) (v : Expr) (s : Run) (f : Frame) (s' : Run) : Prop := {
  on_grows : grows s s';
  on_view : view_ok (view s) -> exists r x1 x2, view s' = inside f r x1 x2 (view s);
  on_name : fr_name f = n;
  on_typed : wf v = true -> view_wf (view s) ->
    in_place v (fr_value f) /\ holds_of (fun w => wf w = true) (fr_new_value f) /\ view_wf (view s');
  on_sound : wf v = true -> view_wf (view s) -> forall ty env, sane_env env -> calm ty env s' -> known ty env (view s) ->
    everywhere ty env v -> names ty env n v ->
    good ty env v (fr_value f) /\ holds_of (everywhere ty env) (fr_new_value f) /\
    holds_of (names ty env (fr_new_name f)) (fr_new_value f) /\ known ty env (view s')
}.

Lemma replaced_wf nn value r nv : (r = None /\ nv = None) \/ (exists r0, r = Some r0 /\ replaced nn value r0 nv) ->
  holds_of (fun e => wf e = true) r /\ holds_of (fun w => wf w = true) nv.
Proof.
  intros [[-> ->]|(r0 & -> & P)]; [now split|]. split; [apply (rp_place _ _ _ _ P)|].
  pose proof (rp_wf _ _ _ _ P) as W. now destruct nv.
Qed.

(** The names the let introduces are known when the environment gives them
    their values. *)
Lemma replacement_known ty env n nn v0 r nv : names ty env n v0 -> wf v0 = true -> everywhere ty env v0 ->
  (r = None /\ nv = None) \/ (exists r0, r = Some r0 /\ replaced nn v0 r0 nv) ->
  holds_of (names ty env nn) nv ->
  holds_of (fun e => everywhere ty env e /\ forall i, lane_in (ty n) i -> ev env i e = value ty env i n) r.
Proof.
  intros N W E [[-> _]|(r0 & -> & P)] Nn; [exact I|].
  destruct (rp_good _ _ _ _ P ty env E) as [Er Vr]; [now destruct nv|]. split; [exact Er|].
  intros i L. rewrite (value_named ty env n v0) by auto. apply Vr. destruct N as [T _]. now rewrite T.
Qed.

Lemma replacement_everywhere ty env nn v0 r nv : everywhere ty env v0 ->
  (r = None /\ nv = None) \/ (exists r0, r = Some r0 /\ replaced nn v0 r0 nv) -> holds_of (everywhere ty env) nv.
Proof.
  intros E [[_ ->]|(r0 & _ & P)]; [exact I|]. pose proof (rp_everywhere _ _ _ _ P ty env E). now destruct nv.
Qed.

Lemma framed_unique n s : framed (if contains (var_info (knowledge s)) n then fail tt else done tt).
Proof. destruct (contains _ _); [apply framed_fail|apply framed_done]. Qed.

Lemma open_let_spec n v s f s' : open_let mutate n v s = (f, s') -> opened n v s f s'.
Proof.
  intros E. unfold open_let in E. run_step E s0 s1 E0. injection E0 as <- <-. run_step E u s1 E1.
  pose proof (framed_unique n s _ _ _ E1) as F1. run_step E p s2 E2. destruct p as [v0 x].
  run_step E q s3 E3. destruct q as [r nv]. run_step E u' s4 E4. run_step E p s5 E5. destruct p as [nv' tr].
  run_step E tr' s6 E6. injection E as <- <-.
  pose proof (framed_info mutate Mu _ _ _ _ E2) as F2. pose proof (framed_replacement _ _ _ _ _ E3) as F3.
  destruct (push_var_spec _ _ _ _ _ E4) as [G4 V4]. destruct (track_new_view _ _ _ _ _ _ E5) as [G5 V5].
  assert (P6 : grows s5 s6 /\ view s6 = with_info tr' n x (view s5)).
  { destruct (no_overflow_scalar_int (type_of v0)); [now apply push_useful_spec|]. injection E6 as <- <-.
    split; [apply grows_frame, frame_refl|reflexivity]. }
  destruct P6 as [G6 V6]. pose proof (frame_trans _ _ _ (frame_trans _ _ _ F1 F2) F3) as F.
  assert (V4' : view_ok (view s) -> view s4 = with_var n r (view s)) by (intros O; now rewrite V4, (frame_view _ _ F O)).
  assert (O4 : view_ok (view s) -> view_ok (view s4)).
  { intros O. rewrite V4' by exact O. split; [now apply push_scope_ok, O|apply O]. }
  split; cbn [fr_name fr_value fr_new_name fr_new_value fr_new_tracked fr_tracked].
  - exact (grows_trans _ _ _ (grows_frame _ _ F) (grows_trans _ _ _ G4 (grows_trans _ _ _ G5 G6))).
  - intros O. destruct (V5 (O4 O)) as [x1 V5']. exists r, x1, x. unfold inside. cbn. now rewrite V6, V5', V4'.
  - reflexivity.
  - intros W V. pose proof (view_wf_kept _ _ F1 V) as V1. pose proof (info_operand mutate Mu _ _ _ _ _ E2 W V1) as O.
    pose proof (operand_in_place _ _ _ _ _ O) as P. destruct (replaced_wf _ _ _ _ (let_replacement_spec _ _ _ _ _ _ E3 (proj1 P))) as [Wr Wn].
    assert (W4 : view_wf (view s4)) by (rewrite V4' by apply V; now apply with_var_wf).
    split; [exact P|]. split; [exact (track_new_typed _ _ _ _ _ _ E5 W4 Wn)|].
    destruct (V5 (wf_view_ok _ W4)) as [x1 V5']. rewrite V6, V5'. now apply with_info_wf, with_info_wf.
  - intros W V ty env N C K Ev Nv. pose proof (view_wf_kept _ _ F1 V) as V1.
    pose proof (info_operand mutate Mu _ _ _ _ _ E2 W V1) as O. pose proof (operand_in_place _ _ _ _ _ O) as P.
    pose proof (let_replacement_spec _ _ _ _ _ _ E3 (proj1 P)) as R. destruct (replaced_wf _ _ _ _ R) as [Wr Wn].
    assert (W4 : view_wf (view s4)) by (rewrite V4' by apply V; now apply with_var_wf).
    pose proof (calm_grows ty env _ _ G6 C) as C5. pose proof (calm_grows ty env _ _ G5 C5) as C4.
    pose proof (calm_back ty env _ _ F3 (calm_grows ty env _ _ G4 C4)) as C2.
    destruct (op_sound _ _ _ _ _ O ty env N C2 (known_kept ty env _ _ F1 V K) Ev) as [G H].
    pose proof (names_good ty env _ _ _ (proj2 P) G Nv) as N0. split; [exact G|].
    pose proof (replacement_everywhere ty env _ _ _ _ (proj1 G) R) as En.
    pose proof (track_new_names _ _ _ _ _ _ ty env E5 C5) as Nn.
    assert (K4 : known ty env (view s4)).
    { rewrite V4' by apply V. apply with_var_known; [exact K|].
      apply (replacement_known ty env n _ v0 r nv N0 (proj1 P) (proj1 G) R Nn). }
    destruct (track_new_sound _ _ _ _ _ _ ty env E5 W4 Wn N C5 K4 En) as (_ & En' & Nn' & K5).
    split; [exact En'|]. split; [exact Nn'|]. rewrite V6. apply with_info_known; [exact K5|].
    intros _ i L. rewrite (value_named ty env n v0 i (proj1 P) (proj1 G) N0 L).
    destruct N0 as [T0 _]. destruct P as [_ Tv]. rewrite (proj2 G) by (now rewrite <- Tv, T0). apply H. now rewrite <- Tv, T0.
Qed.
End Correct.

(** ** Closing a let *)

Lemma grows_same s s' : trace s' = trace s -> (failed s = true -> failed s' = true) -> grows s s'.
Proof. intros T F. split; [exists []; now rewrite T|exact F]. Qed.

Lemma pop_info_spec (tracked : bool) n s u s' : (if tracked then pop_info n else done tt) s = (u, s') ->
  grows s s' /\ forall x V, view_ok V -> view s = with_info tracked n x V -> view s' = V.
Proof.
  destruct tracked; [|intros [= _ <-]; split; [now apply grows_same|auto]].
  unfold pop_info. intros E. split.
  - destruct (pop _ n); injection E as _ <-; now apply grows_same.
  - intros x V [_ O] H. pose proof (f_equal seen_bounds H) as B. cbn [view seen_bounds with_info] in B.
    rewrite B, pop_push_scope in E by exact O. injection E as _ <-. destruct V, s. unfold view, with_info in *.
    cbn in *. now injection H as -> _ -> -> ->.
Qed.

Lemma take_var_spec n s i s' : take_var n s = (i, s') ->
  grows s s' /\ forall r V, view_ok V -> view s = with_var n r V -> view s' = V.
Proof.
  unfold take_var. intros E. split.
  - destruct (get (var_info (knowledge s)) n), (pop (var_info (knowledge s)) n); injection E as _ <-; now apply grows_same.
  - intros r V [O _] H. pose proof (f_equal seen_vars H) as B. cbn [view seen_vars with_var] in B.
    pose proof (map_get replacement (var_info (knowledge s)) n) as G. rewrite B, get_push in G.
    pose proof (map_pop replacement eq_refl (var_info (knowledge s)) n) as P. rewrite B, pop_push_scope in P by exact O.
    destruct (get (var_info (knowledge s)) n) as [j|]; [|discriminate G].
    destruct (pop (var_info (knowledge s)) n) as [v|]; [|discriminate P].
    cbn in P. injection P as P. injection E as _ <-. destruct V, s. unfold view, with_var in *. cbn in *.
    injection H as _ -> -> -> ->. now rewrite P.
Qed.

Lemma with_info_ok b n x V : view_ok V -> view_ok (with_info b n x V).
Proof. intros [O1 O2]. destruct b; [|now split]. split; [exact O1|now apply push_scope_ok]. Qed.

Lemma with_var_ok n r V : view_ok V -> view_ok (with_var n r V).
Proof. intros [O1 O2]. split; [now apply push_scope_ok|exact O2]. Qed.

Lemma close_let_spec f body uses s r uses' s' : close_let f body uses s = ((r, uses'), s') ->
  grows s s' /\
  (forall q x1 x2 V, view_ok V -> view s = inside f q x1 x2 V -> view s' = V) /\
  exists dead info, keep_lets dead info f body uses = (r, uses').
Proof.
  intros E. unfold close_let in E. run_step E u s1 E1. run_step E u' s2 E2. run_step E info s3 E3.
  run_step E s4 s5 E4. injection E4 as <- <-. injection E as E <-.
  destruct (pop_info_spec _ _ _ _ _ E1) as [G1 V1]. destruct (pop_info_spec _ _ _ _ _ E2) as [G2 V2].
  destruct (take_var_spec _ _ _ _ E3) as [G3 V3].
  split; [exact (grows_trans _ _ _ G1 (grows_trans _ _ _ G2 G3))|]. split; [|eauto].
  intros q x1 x2 V O H. unfold inside in H.
  pose proof (with_var_ok (fr_name f) q V O) as O1. pose proof (with_info_ok (fr_new_tracked f) (fr_new_name f) x1 _ O1) as O2.
  apply (V3 q V O), (V2 x1 _ O1), (V1 x2 _ O2 H).
Qed.

(** ** The visit as a whole *)

Section Visit.
Context (mutate : Mutate) (Mu : mutates mutate).

(** What the recursion delivers of a let, as of any node. *)
Lemma simplify_let_delivered e : forall bounds s r uses b' s',
  simplify_let mutate e bounds s = ((r, uses, b'), s') ->
  frame s s' /\ (wf e = true -> view_wf (view s) -> delivered e bounds s r b' s').
Proof.
  assert (Leaf : forall e bounds s r uses b' s',
    (let! '(r, bounds) := mutate e bounds in done (r, var_uses r, bounds)) s = ((r, uses, b'), s') ->
    frame s s' /\ (wf e = true -> view_wf (view s) -> delivered e bounds s r b' s')).
  { clear e. intros e bounds s r uses b' s' E. run_step E p s1 E1. destruct p as [r1 b1]. injection E as <- _ <- <-.
    destruct (Mu e bounds) as [F T S]. split; [exact (F _ _ _ E1)|]. intros W V. split; [exact (T _ _ _ _ E1 W V)|].
    intros ty env N C K Ev B. now apply (S ty env _ _ _ _ E1). }
  induction e as [| | | | | | | | | | | | | |n v b IHv IHb|] using Expr_ind'; try exact (Leaf _). clear Leaf.
  intros bounds s r uses b' s' E. cbn [simplify_let] in E. run_step E f s1 E1. run_step E p s2 E2.
  destruct p as [[body uses1] b1]. run_step E q s3 E3. destruct q as [r1 uses2]. injection E as <- _ <- <-.
  destruct (open_let_spec mutate Mu n v s f s1 E1) as [G1 V1 Nm Ty So].
  destruct (IHb _ _ _ _ _ _ E2) as [F2 D2]. destruct (close_let_spec _ _ _ _ _ _ _ E3) as (G3 & V3 & dead & info & Kp).
  split.
  - apply frame_grows; [exact (grows_trans _ _ _ G1 (grows_trans _ _ _ (grows_frame _ _ F2) G3))|].
    intros O. destruct (V1 O) as (q & x1 & x2 & Vi). apply (V3 q x1 x2); [exact O|].
    rewrite <- Vi. apply F2. rewrite Vi. now apply with_info_ok, with_info_ok, with_var_ok.
  - intros W V. cbn [wf] in W. apply andb_true_iff in W. destruct W as [Wv Wb].
    destruct (Ty Wv V) as (Pv & Wn & W1). destruct (D2 Wb W1) as [Pb S2].
    pose proof (keep_lets_typed _ _ _ _ _ _ _ Kp (proj1 Pb) (proj1 Pv) Wn) as Pr.
    pose proof (in_place_trans _ _ _ Pb Pr) as P.
    split; [exact P|]. intros ty env N C K Ev B. pose proof (everywhere_children _ _ _ Ev) as Ch.
    apply Forall_two in Ch as [Evv Evb]. pose proof (everywhere_local _ _ _ Ev) as (_ & _ & Nv). cbn [settled] in Nv.
    pose proof (calm_grows ty env _ _ G3 C) as C2.
    destruct (So Wv V ty env N (calm_back ty env _ _ F2 C2) K Evv Nv) as (Gv & En & Nn & K1).
    assert (Lv : forall i, lane_in (type_of b) i -> ev env i (ELet n v b) = ev env i b)
      by (intros i L; now apply (let_value ty)).
    destruct (S2 ty env N C2 K1 Evb) as [Gb Bb].
    { destruct bounds as [x|]; [|exact I]. intros i L. rewrite <- Lv by exact L. now apply B. }
    assert (Gr : good ty env body r1).
    { apply (keep_lets_good ty env _ _ _ _ _ _ _ Kp); auto; try apply Pb; try apply Pv; try apply Gb; try apply Gv.
      rewrite Nm. exact (names_good ty env _ _ _ (proj2 Pv) Gv Nv). }
    split.
    + split; [apply Gr|]. intros i L. change (lane_in (type_of b) i) in L. rewrite Lv by exact L.
      rewrite <- (proj2 Gb i L). apply (proj2 Gr). now rewrite (proj2 Pb).
    + destruct b1 as [x|]; [|exact I]. intros i L. rewrite Lv by exact L. now apply Bb.
Qed.

Lemma visit_let_visits e bounds : visits e bounds (visit_let mutate e bounds).
Proof.
  apply visits_intro.
  - intros s [r b'] s' E. unfold visit_let in E. run_step E p s1 E1. destruct p as [[r1 u] b1]. injection E as <- <- <-.
    apply (simplify_let_delivered _ _ _ _ _ _ _ E1).
  - intros s r b' s' E. unfold visit_let in E. run_step E p s1 E1. destruct p as [[r1 u] b1]. injection E as <- <- <-.
    apply (simplify_let_delivered _ _ _ _ _ _ _ E1).
Qed.
End Visit.
