(* ===== verification/SimplifyCall.v ===== *)
(** * Calls of intrinsics

    [Simplify::visit(const Call)] of src/Simplify_Call.cpp: integer intrinsics
    are folded, shifts become products and quotients, and the arguments of
    other calls are simplified.  The functions of the math library, and the
    intrinsics on strings, prefetches and requirements, are not modelled: a run
    that meets them is void. *)

From Stdlib Require Import ZArith Lia Bool List String DecimalString.
From S2P Require Import Prelude.
From S2P Require Import IntArith.
From S2P Require Import Scope.
From S2P Require Import HalideTypes.
From S2P Require Import IR.
From S2P Require Import Typing.
From S2P Require Import IRMatch.
From S2P Require Import MatchSound.
From S2P Require Import MakeSound.
From S2P Require Import RuleSound.
From S2P Require Import Visit.
From S2P Require Import Mutator.
From S2P Require Import ExprInfo.
From S2P Require Import ScopedFact.
From S2P Require Import SimplifyExprs.
From S2P Require Import Intrinsics.
From S2P Require Import SimplifyRun.
From S2P Require Import SimplifyNodes.
From S2P Require Import NamedValues.
From S2P Require Import ListNodes.
From S2P Require Import SimplifyNodesSound.
Import ListNotations.
Open Scope string_scope.
Open Scope list_scope.
Open Scope Z_scope.

(** ** Constants *)

(** [Simplify::const_int] and [const_uint]: scalars only. *)
Definition scalar_int (e : Expr) : option Z := if is_vector (type_of e) then None else as_const_int e.
Definition scalar_uint (e : Expr) : option Z := if is_vector (type_of e) then None else as_const_uint e.

(** Either, as a 64-bit pattern. *)
Definition const_word (e : Expr) : option Z :=
  match scalar_int e with Some v => Some (u64 v) | None => scalar_uint e end.

(** [is_const_power_of_two_integer]. *)
Fixpoint is_const_power_of_two_integer (e : Expr) : bool :=
  (is_int (type_of e) || is_uint (type_of e)) &&
  match e with
  | Broadcast v _ | Cast _ v => is_const_power_of_two_integer v
  | _ =>
      let val := match as_const_int e with
                 | Some i => if i <? 0 then 0 else i
                 | None => match as_const_uint e with Some u => u | None => 0 end
                 end in
      negb (val =? 0) && (Z.land val (val - 1) =? 0)
  end.

(** ** What the intrinsics fold to

    [again] is the call with its mutated arguments, [t] its type. *)

Definition count_step (c : BitCount) (t : HType) (a again : Expr) : Step :=
  match const_word a with
  | Some ua => Kept (make_const t (fold_count c (bits t) ua))
  | None => Kept again
  end.

Definition pure_call (t : HType) (name : string) (args : list Expr) : Expr := ECall t name args PureIntrinsic 0.

(** A constant shift by the width or more is a user error. *)
Definition shift_step (to_left : bool) (t : HType) (a b again : Expr) : option Step :=
  if is_zero b then Some (Kept a)
  else match scalar_uint b with
  | Some ub =>
      if negb (ub <? bits t) then None
      else
        let power := make_const t (i64 (Z.shiftl 1 ub)) in
        if is_uint (type_of a) || (ub <? bits t - 1) then
          Some (Resumed (EBin (if to_left then Mul else Div) a power))
        else if to_left then
          let low := pure_call (type_of a) "bitwise_and" [a; make_const (type_of a) 1] in
          Some (Resumed (Select (ECmp NE low (make_const (type_of a) 0)) power (make_zero t)))
        else
          Some (Resumed (Select (ECmp LT a (make_const (type_of a) 0)) (make_const t (-1)) (make_zero t)))
  | None => Some (Kept again)
  end.

Definition and_step (t : HType) (a b again : Expr) : Step :=
  let masked v := EBin Mod a (make_const (type_of a) (v + 1)) in
  match scalar_int a, scalar_int b, scalar_uint a, scalar_uint b with
  | Some ia, Some ib, _, _ => Kept (make_const t (Z.land ia ib))
  | _, _, Some ua, Some ub => Kept (make_const t (Z.land ua ub))
  | _, Some ib, _, _ =>
      if negb (is_max_i64 (type_of b) ib) && is_const_power_of_two_integer (make_const (type_of a) (ib + 1))
      then Kept (masked ib) else Kept again
  | _, _, _, Some ub =>
      if is_max_u64 (type_of b) ub then Kept a
      else if is_const_power_of_two_integer (make_const (type_of a) (ub + 1)) then Kept (masked ub) else Kept again
  | _, _, _, _ => Kept again
  end.

Definition bits_step (op : Z -> Z -> Z) (t : HType) (a b again : Expr) : Step :=
  match scalar_int a, scalar_int b, scalar_uint a, scalar_uint b with
  | Some ia, Some ib, _, _ => Kept (make_const t (op ia ib))
  | _, _, Some ua, Some ub => Kept (make_const t (op ua ub))
  | _, _, _, _ => Kept again
  end.

Definition not_step (t : HType) (a again : Expr) : Step :=
  match scalar_int a, scalar_uint a with
  | Some ia, _ => Kept (make_const t (Z.lnot ia))
  | None, Some ua => Kept (make_const t (u64 (Z.lnot ua)))
  | None, None => Kept again
  end.

Definition reinterpret_step (t : HType) (a again : Expr) : Step :=
  let vector := is_vector t || is_vector (type_of a) in
  if type_eqb t (type_of a) then Kept a
  else match scalar_int a, scalar_uint a with
  | Some ia, _ => if is_uint t && negb vector then Kept (make_const t (u64 ia)) else Kept again
  | None, Some ua => if is_int t && negb vector then Kept (make_const t (i64 ua)) else Kept again
  | None, None => Kept again
  end.

(** With what is known of the argument. *)
Definition abs_step (t : HType) (a : Expr) (A : ExprInfo) (again : Expr) : Step :=
  let ta := type_of a in
  match (if is_int ta then scalar_int a else None) with
  | Some ia => Kept (make_const t (if (ia <? 0) && negb (ia =? - 2 ^ 63) then - ia else ia))
  | None =>
      if is_uint ta then Kept a
      else if is_int ta && min_defined A && (0 <=? info_min A) then Kept (cast t a)
      else if is_int ta && max_defined A && (info_max A <=? 0) then Kept (cast t (EBin Sub (make_zero ta) a))
      else Kept again
  end.

Definition absd_step (t : HType) (a b again : Expr) : Step :=
  match (if is_int (type_of a) then scalar_int a else None), (if is_int (type_of a) then scalar_int b else None),
        (if is_uint (type_of a) then scalar_uint a else None), (if is_uint (type_of a) then scalar_uint b else None) with
  | Some ia, Some ib, _, _ => Kept (make_const t (if ib <? ia then u64 (ia - ib) else u64 (ib - ia)))
  | _, _, Some ua, Some ub => Kept (make_const t (if ub <? ua then ua - ub else ub - ua))
  | _, _, _, _ => Kept again
  end.

(** ** The visit *)

Inductive Kind :=
| KCount (c : BitCount) | KShift (to_left : bool) | KAnd | KOr | KNot | KXor | KReinterpret | KAbs | KAbsd.

Definition kind_name (k : Kind) : string :=
  match k with
  | KCount c => count_name c
  | KShift true => "shift_left" | KShift false => "shift_right"
  | KAnd => "bitwise_and" | KOr => "bitwise_or" | KNot => "bitwise_not" | KXor => "bitwise_xor"
  | KReinterpret => "reinterpret" | KAbs => "abs" | KAbsd => "absd"
  end.

Definition kinds : list Kind :=
  [KCount Popcount; KCount Leading; KCount Trailing; KShift true; KShift false; KAnd; KOr; KNot; KXor;
   KReinterpret; KAbs; KAbsd].

(** [op->is_intrinsic(...)], in the order of the code. *)
Definition kind_of (n : string) (ct : CallType) : option Kind :=
  find (fun k => is_intrinsic n ct (kind_name k)) kinds.

(** The type of distances between values of a type. *)
Definition distance_type (t : HType) : HType := if is_int t then UInt (bits t) (lanes t) else t.

(** The arguments the front end makes such calls with. *)
Definition shaped (k : Kind) (t : HType) (args : list Expr) : bool :=
  match k, args with
  | (KCount _ | KNot), [a] => type_eqb (type_of a) t
  | (KAnd | KOr | KXor), [a; b] => type_eqb (type_of a) t && type_eqb (type_of b) t
  | KShift _, [a; b] =>
      type_eqb (type_of a) t && is_uint (type_of b) && (bits (type_of b) =? bits t)
  | KReinterpret, [a] => bits (type_of a) * lanes (type_of a) =? bits t * lanes t
  | KAbs, [a] => type_eqb t (distance_type (type_of a))
  | KAbsd, [a; b] => type_eqb t (distance_type (type_of a)) && type_eqb (type_of b) (type_of a)
  | _, _ => false
  end.

Definition intrinsic_step (k : Kind) (t : HType) (args : list Expr) (A : ExprInfo) (again : Expr) : option Step :=
  match k, args with
  | KCount c, [a] => Some (count_step c t a again)
  | KShift to_left, [a; b] => shift_step to_left t a b again
  | KAnd, [a; b] => Some (and_step t a b again)
  | KOr, [a; b] => Some (bits_step Z.lor t a b again)
  | KXor, [a; b] => Some (bits_step Z.lxor t a b again)
  | KNot, [a] => Some (not_step t a again)
  | KReinterpret, [a] => Some (reinterpret_step t a again)
  | KAbs, [a] => Some (abs_step t a A again)
  | KAbsd, [a; b] => Some (absd_step t a b again)
  | _, _ => None
  end.

(** The call as it was when the arguments are the same, or made again by an
    operator of the front end. *)
Definition call_again (t : HType) (n : string) (ct : CallType) (vi : Z) (args args' : list Expr) : Expr :=
  if list_eqb equal args args' then ECall t n args' ct vi else pure_call t n args'.

(** Functions that are not modelled. *)
Definition unmodelled (n : string) (ct : CallType) : bool :=
  existsb (fun m => is_intrinsic n ct m) ["stringify"; "prefetch"; "require"] ||
  (call_type_eqb ct PureExtern && existsb (String.eqb n)
     ["is_nan_f16"; "is_nan_f32"; "is_nan_f64"; "sqrt_f32"; "log_f32"; "exp_f32"; "pow_f32";
      "floor_f32"; "ceil_f32"; "round_f32"; "trunc_f32"]).

(** [std::to_string]. *)
Definition dimension_name (n field : string) (i : nat) : string :=
  (n ++ field ++ DecimalString.NilEmpty.string_of_uint (Nat.to_uint i))%string.

(** [Simplify::found_buffer_reference]. *)
Fixpoint found_buffer_dims (n : string) (dims : list nat) (s : SimplifyState) : option SimplifyState :=
  match dims with
  | [] => found_buffer_reference n s
  | i :: dims =>
      match found_buffer_reference (dimension_name n ".stride." i) s with
      | Some s1 =>
          match found_buffer_reference (dimension_name n ".min." i) s1 with
          | Some s2 => found_buffer_dims n dims s2
          | None => None
          end
      | None => None
      end
  end.

Section Calls.
Context (mutate : Mutate).

(** The arguments, with bounds of their own or without. *)
Fixpoint mutate_args (info : bool) (args : list Expr) : R (list Expr * list ExprInfo) :=
  match args with
  | [] => done ([], [])
  | a :: args =>
      let! '(a', A) :=
        if info then mutate_info mutate a
        else let! a' := mutate_only mutate a in done (a', no_info) in
      let! '(args', infos) := mutate_args info args in
      done (a' :: args', A :: infos)
  end.

Definition wants_info (k : Kind) : bool := match k with KAbs | KAbsd => true | _ => false end.

Definition visit_intrinsic (k : Kind) (t : HType) (n : string) (args : list Expr) (ct : CallType) (vi : Z)
    (bounds : option ExprInfo) : R Result :=
  let e := ECall t n args ct vi in
  if shaped k t args then
    let! '(args', infos) := mutate_args (wants_info k) args in
    match intrinsic_step k t args' (hd no_info infos) (call_again t n ct vi args args') with
    | Some st => finish mutate e [] st bounds
    | None => fail (e, bounds)
    end
  else fail (e, bounds).

(** The argument of [strict_float] is mutated with the flag set. *)
Definition visit_strict (t : HType) (n : string) (args : list Expr) (ct : CallType) (vi : Z)
    (bounds : option ExprInfo) : R Result := fun s =>
  let old := no_float_simplify s in
  let '((args', _), s1) := mutate_args false args (set_no_float true s) in
  done (call_again t n ct vi args args', bounds) (set_no_float old s1).

Definition visit_other (t : HType) (n : string) (args : list Expr) (ct : CallType) (vi : Z)
    (bounds : option ExprInfo) : R Result :=
  let! '(args', _) := mutate_args false args in
  done (ECall t n args' ct vi, bounds).

Definition visit_args (t : HType) (n : string) (args : list Expr) (ct : CallType) (vi : Z)
    (bounds : option ExprInfo) : R Result :=
  if is_intrinsic n ct "strict_float" then visit_strict t n args ct vi bounds
  else match kind_of n ct with
  | Some k => visit_intrinsic k t n args ct vi bounds
  | None =>
      if unmodelled n ct then fail (ECall t n args ct vi, bounds)
      else visit_other t n args ct vi bounds
  end.

(** [Simplify::visit(const Call)]. *)
Definition visit_call (t : HType) (n : string) (args : list Expr) (ct : CallType) (vi : Z)
    (bounds : option ExprInfo) : R Result := fun s =>
  if call_type_eqb ct Image || call_type_eqb ct HalideCall then
    match found_buffer_dims n (seq 0 (List.length args)) (knowledge s) with
    | Some k => visit_args t n args ct vi bounds (set_knowledge k s)
    | None => fail (ECall t n args ct vi, bounds) s
    end
  else visit_args t n args ct vi bounds s.
End Calls.
