(* ===== verification/CallSound.v ===== *)
(** * Calls are visited correctly

    What the intrinsics fold to has the value they are documented to have, and
    the visit of a call keeps the promise of [mutate]. *)

From Stdlib Require Import ZArith Lia Bool List String.
From S2P Require Import Prelude.
From S2P Require Import IntArith.
From S2P Require Import Scope.
From S2P Require Import HalideTypes.
From S2P Require Import IR.
From S2P Require Import Typing.
From S2P Require Import IREquality.
From S2P Require Import IRMatch.
From S2P Require Import RuleSem.
From S2P Require Import RuleTac.
From S2P Require Import MatchSound.
From S2P Require Import MakeSound.
From S2P Require Import RuleSound.
From S2P Require Import Visit.
From S2P Require Import Mutator.
From S2P Require Import ExprInfo.
From S2P Require Import ScopedFact.
From S2P Require Import SimplifyExprs.
From S2P Require Import Intrinsics.
From S2P Require Import SimplifyRun.
From S2P Require Import SimplifyNodes.
From S2P Require Import NamedValues.
From S2P Require Import ListNodes.
From S2P Require Import SimplifyNodesSound.
From S2P Require Import SimplifyCall.
Import ListNotations.
Open Scope string_scope.
Open Scope list_scope.
Open Scope Z_scope.

(** ** Constants *)

Lemma as_int_node e v : wf e = true -> is_vector (type_of e) = false -> as_const_int e = Some v -> exists t, e = IntImm t v.
Proof.
  intros W N C. destruct e; try discriminate C; cbn [as_const_int] in C.
  - injection C as ->. eauto.
  - cbn [wf] in W. destr_and. unfold is_vector in N. cbn [type_of] in N.
    change (negb (is_scalar (with_lanes (type_of e) n)) = false) in N. now rewrite not_scalar_with in N.
Qed.

Lemma as_uint_node e v : wf e = true -> is_vector (type_of e) = false -> as_const_uint e = Some v -> exists t, e = UIntImm t v.
Proof.
  intros W N C. destruct e; try discriminate C; cbn [as_const_uint] in C.
  - injection C as ->. eauto.
  - cbn [wf] in W. destr_and. unfold is_vector in N. cbn [type_of] in N.
    change (negb (is_scalar (with_lanes (type_of e) n)) = false) in N. now rewrite not_scalar_with in N.
Qed.

(** A constant that is found: its value, and the kind of its type. *)
Lemma scalar_int_spec e v : wf e = true -> scalar_int e = Some v ->
  (forall env i, ev env i e = v) /\ is_int (type_of e) = true /\ is_scalar (type_of e) = true /\ in_type (type_of e) v.
Proof.
  intros W C. unfold scalar_int in C. destruct (is_vector (type_of e)) eqn:N; [discriminate|].
  destruct (as_int_node e v W N C) as [t ->]. cbn [wf] in W. destr_and. rewrite in_typeb_spec in *. auto.
Qed.

Lemma scalar_uint_spec e v : wf e = true -> scalar_uint e = Some v ->
  (forall env i, ev env i e = v) /\ is_uint (type_of e) = true /\ is_scalar (type_of e) = true /\ in_type (type_of e) v.
Proof.
  intros W C. unfold scalar_uint in C. destruct (is_vector (type_of e)) eqn:N; [discriminate|].
  destruct (as_uint_node e v W N C) as [t ->]. cbn [wf] in W. destr_and. rewrite in_typeb_spec in *. auto.
Qed.

Lemma const_word_spec e u : wf e = true -> const_word e = Some u ->
  forall env i, exists k, u = ev env i e + k * 2 ^ 64.
Proof.
  intros W. unfold const_word. destruct (scalar_int e) as [v|] eqn:C; intros H env i.
  - injection H as <-. destruct (scalar_int_spec e v W C) as [-> _]. apply wrap_u_cong. lia.
  - destruct (scalar_uint_spec e u W H) as [-> _]. exists 0. lia.
Qed.

(** A power of two has no bit in common with its predecessor. *)
Lemma land_pred_pow v : 0 < v -> Z.land v (v - 1) = 0 -> v = 2 ^ Z.log2 v.
Proof.
  intros P L. destruct (Z.log2_spec v P) as [Lo Hi]. destruct (Z.eq_dec v (2 ^ Z.log2 v)) as [E|N]; [exact E|exfalso].
  assert (L2 : Z.log2 (v - 1) = Z.log2 v) by (apply Z.log2_unique; [apply Z.log2_nonneg|lia]).
  assert (B : Z.testbit (Z.land v (v - 1)) (Z.log2 v) = true).
  { rewrite Z.land_spec, Z.bit_log2 by exact P. rewrite <- L2 at 1. apply Z.bit_log2. pose proof (Z.log2_nonneg v).
    assert (0 < 2 ^ Z.log2 v) by (now apply Z.pow_pos_nonneg). lia. }
  rewrite L, Z.bits_0 in B. discriminate.
Qed.

Lemma in_type_uint_nonneg t v : is_uint t = true -> in_type t v -> 0 <= v.
Proof. unfold in_type, tmin, is_uint, is_int. destruct (code t); try discriminate. intros _ [L _]. exact L. Qed.

Lemma power_of_two_const t v : wf_type t -> is_const_power_of_two_integer (make_const t v) = true ->
  0 < cast_val t v /\ cast_val t v = 2 ^ Z.log2 (cast_val t v).
Proof.
  intros T. destruct (make_const_spec t v T) as [W Ty V _ _].
  assert (G : forall e, wf e = true -> match e with IntImm _ _ | UIntImm _ _ => True | _ => False end ->
    is_const_power_of_two_integer e = true -> forall env i, 0 < ev env i e /\ ev env i e = 2 ^ Z.log2 (ev env i e)).
  { intros e We Sh P env i. destruct e as [u w|u w| | | | | | | | | | | | | | ]; try contradiction; cbn in P |- *;
      apply andb_true_iff in P; destruct P as [_ P]; apply andb_true_iff in P; destruct P as [N L];
      apply negb_true_iff, Z.eqb_neq in N; apply Z.eqb_eq in L.
    - destruct (Z.ltb_spec w 0); [easy|]. assert (0 < w) by lia. split; [lia|now apply land_pred_pow].
    - cbn [wf] in We. destr_and. assert (R : 0 <= w).
      { rewrite in_typeb_spec in *. apply (in_type_uint_nonneg u); assumption. }
      assert (0 < w) by lia. split; [lia|now apply land_pred_pow]. }
  assert (Sh : forall u, wf (make_const_scalar u v) = true ->
    match make_const_scalar u v with IntImm _ _ | UIntImm _ _ => True | _ => False end)
    by (intros u; unfold make_const_scalar; destruct (code u); try discriminate; easy).
  intros P. set (env := mkEnv (fun _ _ => 0) (fun _ _ => 0) (fun _ _ _ _ => 0)).
  rewrite <- (V env 0). unfold make_const in *. destruct (is_vector t).
  - cbn [is_const_power_of_two_integer] in P. apply andb_true_iff in P. destruct P as [_ P].
    cbn [wf] in W. destr_and. cbn [ev]. apply G; [assumption|now apply Sh|exact P].
  - apply G; [assumption|now apply Sh|exact P].
Qed.

(** ** The value of a call *)

Lemma kind_of_name n ct k : kind_of n ct = Some k ->
  n = kind_name k /\ is_intrinsic n ct (kind_name k) = true.
Proof.
  intros F. apply find_some in F. destruct F as [_ I]. split; [|exact I]. unfold is_intrinsic in I.
  destruct ct; try discriminate I; now apply String.eqb_eq.
Qed.

Lemma kind_not_likely k ct : is_likely (kind_name k) ct = false /\ is_poison (kind_name k) ct = false.
Proof. destruct k as [[]|[]| | | | | | |], ct; split; reflexivity. Qed.

Lemma call_value env i t k args ct vi :
  ev env i (ECall t (kind_name k) args ct vi) = cast_val t (ext env (kind_name k) t (lane_of t i) (map (ev env i) args)).
Proof.
  cbn [ev]. rewrite (proj1 (kind_not_likely k ct)). destruct args as [|a [|b l]]; reflexivity.
Qed.

(** The call made again keeps its meaning. *)
Lemma call_again_kept {prover : Prover} c c' K t k ct ct' vi vi' args0 args :
  let e := ECall t (kind_name k) args ct' vi' in wf e = true ->
  correct_when c c' K [] e (Kept (call_again t (kind_name k) ct vi args0 args)).
Proof.
  intros e W. assert (G : forall ct vi, correct_when c c' K [] e (Kept (ECall t (kind_name k) args ct vi))).
  { clear ct vi. intros ct vi. destruct (kind_not_likely k ct) as [L P], (kind_not_likely k ct') as [L' P'].
    apply correct_early; [|reflexivity|].
    - unfold e in W. cbn [wf] in W |- *. rewrite L' in W. rewrite L.
      exact W.
    - intros env i [[_ O] _] _ _. split; [split; [exact P|exact O]|].
      unfold e. now rewrite !call_value. }
  unfold call_again, pure_call. destruct (list_eqb _ _ _); apply G.
Qed.

(** ** The folds *)

(** Calls of intrinsics with what the steps of the visit rely on. *)
Section Steps.
Context {prover : Prover} (c c' : Simplifier).

(** The environment is sane, and what is known of the first argument
    holds. *)
Definition call_known (A : ExprInfo) (args : list Expr) (env : Env) (i : Z) : Prop :=
  sane_env env /\ match args with a :: _ => info_holds A (ev env i a) | [] => True end.

Lemma const_result K t k args ct vi v : let e := ECall t (kind_name k) args ct vi in wf e = true ->
  (forall env i, defined env i e -> K env i ->
    cast_val t (ext env (kind_name k) t (lane_of t i) (map (ev env i) args)) = cast_val t v) ->
  correct_when c c' K [] e (Kept (make_const t v)).
Proof.
  intros e W H. pose proof (wf_wf_type e W) as T. change (type_of e) with t in T.
  destruct (make_const_spec t v T) as [Wc Tc Ec Oc _]. apply correct_early; [exact Wc|exact Tc|].
  intros env i D _ Kn. split; [apply Oc|]. unfold e. rewrite Ec, call_value. symmetry. now apply H.
Qed.

Lemma count_correct A t cnt a ct vi again : let e := ECall t (count_name cnt) [a] ct vi in
  wf e = true -> wf a = true ->
  correct_when c c' (call_known A [a]) [] e (Kept again) ->
  correct_when c c' (call_known A [a]) [] e (count_step cnt t a again).
Proof.
  intros e W Wa Ag. unfold count_step. destruct (const_word a) as [ua|] eqn:C; [|exact Ag].
  apply (const_result _ t (KCount cnt)); [exact W|]. intros env i _ [Sn _]. pose proof (env_documented env Sn) as Do.
  pose proof (wf_wf_type e W) as [It _]. pose proof (int_type_bits t It) as B.
  cbn [map kind_name]. rewrite (doc_count env Do), fold_count_counted by exact B. do 2 f_equal.
  destruct (const_word_spec a ua Wa C env i) as [k ->].
  replace (k * 2 ^ 64) with (k * 2 ^ (64 - bits t) * 2 ^ bits t);
    [symmetry; apply wrap_u_shift; lia|]. rewrite <- Z.mul_assoc, <- Z.pow_add_r by lia. do 2 f_equal. lia.
Qed.

Lemma bits_correct A k op t a b ct vi again : let e := ECall t (kind_name k) [a; b] ct vi in
  (k = KOr /\ op = Z.lor) \/ (k = KXor /\ op = Z.lxor) ->
  wf e = true -> wf a = true -> wf b = true -> 
  correct_when c c' (call_known A [a; b]) [] e (Kept again) ->
  correct_when c c' (call_known A [a; b]) [] e (bits_step op t a b again).
Proof.
  intros e Kk W Wa Wb Ag.
  assert (G : forall va vb, (forall env i, ev env i a = va) -> (forall env i, ev env i b = vb) ->
    correct_when c c' (call_known A [a; b]) [] e (Kept (make_const t (op va vb)))).
  { intros va vb Va Vb. apply const_result; [exact W|]. intros env i _ [Sn _]. pose proof (env_documented env Sn) as Do. cbn [map]. rewrite Va, Vb.
    destruct Kk as [[-> ->]|[-> ->]]; cbn [kind_name]; [now rewrite (doc_or env Do)|now rewrite (doc_xor env Do)]. }
  unfold bits_step. destruct (scalar_int a) as [ia|] eqn:Ca, (scalar_int b) as [ib|] eqn:Cb;
    [apply G; [now apply scalar_int_spec|now apply scalar_int_spec]| | |];
    destruct (scalar_uint a) as [ua|] eqn:Da, (scalar_uint b) as [ub|] eqn:Db; try exact Ag;
    (apply G; [now apply scalar_uint_spec|now apply scalar_uint_spec]).
Qed.

Lemma not_correct A t a ct vi again : let e := ECall t "bitwise_not" [a] ct vi in
  wf e = true -> wf a = true ->
  correct_when c c' (call_known A [a]) [] e (Kept again) ->
  correct_when c c' (call_known A [a]) [] e (not_step t a again).
Proof.
  intros e W Wa Ag. pose proof (wf_wf_type e W) as [It _]. unfold not_step.
  destruct (scalar_int a) as [ia|] eqn:Ca; [|destruct (scalar_uint a) as [ua|] eqn:Cu; [|exact Ag]];
    (apply (const_result _ t KNot); [exact W|]); intros env i _ [Sn _]; pose proof (env_documented env Sn) as Do; cbn [map kind_name]; rewrite (doc_not env Do).
  - now rewrite (proj1 (scalar_int_spec a ia Wa Ca)).
  - rewrite (proj1 (scalar_uint_spec a ua Wa Cu)). symmetry. now apply cast_val_u64.
Qed.

Lemma reinterpret_correct A t a ct vi again : let e := ECall t "reinterpret" [a] ct vi in
  wf e = true -> wf a = true ->
  correct_when c c' (call_known A [a]) [] e (Kept again) ->
  correct_when c c' (call_known A [a]) [] e (reinterpret_step t a again).
Proof.
  intros e W Wa Ag. pose proof (wf_wf_type e W) as [It _]. change (type_of e) with t in It. unfold reinterpret_step. cbv zeta.
  destruct (type_eqb t (type_of a)) eqn:Te.
  - apply type_eqb_eq in Te. apply correct_early; [exact Wa|now rewrite <- Te|].
    intros env i [[_ [Oa _]] [_ [Fa _]]] _ [Sn _]. pose proof (env_documented env Sn) as Do. split; [exact Oa|]. unfold e.
    rewrite (call_value env i t KReinterpret). cbn [map kind_name]. rewrite (doc_reinterpret env Do).
    symmetry. apply cast_val_id; [exact It|]. rewrite Te. now apply fits_in_type.
  - destruct (scalar_int a) as [ia|] eqn:Ca; [|destruct (scalar_uint a) as [ua|] eqn:Cu; [|exact Ag]];
      (destruct (_ && _); [|exact Ag]);
      (apply (const_result _ t KReinterpret); [exact W|]); intros env i _ [Sn _]; pose proof (env_documented env Sn) as Do; cbn [map kind_name];
      rewrite (doc_reinterpret env Do).
    + rewrite (proj1 (scalar_int_spec a ia Wa Ca)). symmetry. now apply cast_val_u64.
    + rewrite (proj1 (scalar_uint_spec a ua Wa Cu)). symmetry. now apply cast_val_i64.
Qed.

Lemma int_zero_spec t : is_int t = true -> wf_type t -> let z := make_zero t in
  wf z = true /\ type_of z = t /\ (forall env i, ev env i z = 0) /\ (forall env i, ok env i z).
Proof.
  intros N T z. unfold z, make_zero. replace (is_handle t) with false by (unfold is_handle, is_int in *; now destruct (code t)).
  destruct (make_const_spec t 0 T) as [Wz Tz Ez Oz _]. rewrite cast_val_0 in Ez by apply T. auto.
Qed.

(** [-a]. *)
Lemma negated_spec a : wf a = true -> is_int (type_of a) = true ->
  let n := EBin Sub (make_zero (type_of a)) a in
  wf n = true /\ type_of n = type_of a /\
  (forall env i, ev env i n = norm (type_of a) (- ev env i a)) /\ (forall env i, ok env i a -> ok env i n).
Proof.
  intros W N n. destruct (int_zero_spec (type_of a) N (wf_wf_type a W)) as (Wz & Tz & Ez & Oz). unfold n.
  repeat split; cbn [wf type_of ev ok evbin]; auto.
  - now rewrite Wz, W, Tz, type_eqb_refl.
  - intros env i. now rewrite Tz, Ez.
Qed.

Lemma abs_correct A t a ct vi again : let e := ECall t "abs" [a] ct vi in
  wf e = true -> wf a = true -> t = distance_type (type_of a) ->
  correct_when c c' (call_known A [a]) [] e (Kept again) ->
  correct_when c c' (call_known A [a]) [] e (abs_step t a A again).
Proof.
  intros e W Wa Td Ag. pose proof (wf_wf_type e W) as T. change (type_of e) with t in T.
  pose proof (wf_wf_type a Wa) as Ta.
  assert (V : forall env i, call_known A [a] env i -> ev env i e = cast_val t (Z.abs (ev env i a))).
  { intros env i [Sn _]. unfold e. rewrite (call_value env i t KAbs). cbn [map kind_name].
    now rewrite (doc_abs env (env_documented env Sn)). }
  unfold abs_step. cbv zeta.
  destruct (if is_int (type_of a) then scalar_int a else None) as [ia|] eqn:Ca.
  { destruct (is_int (type_of a)); [|discriminate]. destruct (scalar_int_spec a ia Wa Ca) as (Va & _ & _ & _).
    apply (const_result _ t KAbs); [exact W|]. intros env i D K. pose proof (V env i K) as Ve. unfold e in Ve.
    rewrite (call_value env i t KAbs) in Ve. cbn [kind_name] in *. rewrite Ve, Va.
    destruct (Z.ltb_spec ia 0), (Z.eqb_spec ia (- 2 ^ 63)); cbn [andb negb]; try (f_equal; lia).
    subst ia. now apply (cast_val_64 t _ _ 1); [apply T|]. }
  clear Ca. destruct (is_uint (type_of a)) eqn:U.
  { assert (Q : t = type_of a) by (rewrite Td; unfold distance_type, is_int, is_uint in *; now destruct (code (type_of a))).
    apply correct_early; [exact Wa|now symmetry|]. intros env i [[_ [Oa _]] [_ [Fa _]]] _ K.
    split; [exact Oa|]. rewrite V by exact K. pose proof (fits_in_type _ _ _ Fa) as R.
    pose proof (in_type_uint_nonneg _ _ U R). rewrite Z.abs_eq by assumption. symmetry. apply cast_val_id; [apply T|now rewrite Q]. }
  destruct (is_int (type_of a)) eqn:I; [|exact Ag]. cbn [andb].
  assert (Q : t = UInt (bits (type_of a)) (lanes (type_of a))) by (rewrite Td; unfold distance_type; now rewrite I).
  assert (L : lanes (type_of a) = lanes t) by (now rewrite Q).
  assert (Ct : forall b, type_of b = type_of a -> forall v, cast_to t b v = cast_val t v).
  { intros b Tb v. unfold cast_to. rewrite Tb, Q. unfold is_int in I. destruct (type_of a) as [[] w n]; try discriminate I. reflexivity. }
  destruct (min_defined A && (0 <=? info_min A)) eqn:Mn; [|destruct (max_defined A && (info_max A <=? 0)) eqn:Mx; [|exact Ag]].
  - destruct (cast_ok t a Wa T (or_introl L)) as (Wc & Tc & Ec & Oc). apply correct_early; [exact Wc|exact Tc|].
    intros env i [[_ [Oa _]] _] _ K. split; [now apply Oc|]. rewrite V, Ec, Ct by auto.
    f_equal. destruct K as [_ [Hm _ _]]. apply andb_true_iff in Mn. destruct Mn as [Md Mn].
    apply Z.leb_le in Mn. specialize (Hm Md). lia.
  - destruct (negated_spec a Wa I) as (Wn & Tn & En & On).
    destruct (cast_ok t _ Wn T) as (Wc & Tc & Ec & Oc); [left; now rewrite Tn|]. apply correct_early; [exact Wc|exact Tc|].
    intros env i [[_ [Oa _]] _] _ K. split; [now apply Oc, On|]. rewrite V, Ec, Ct, En by auto.
    destruct (norm_cong (type_of a) (- ev env i a) (proj1 Ta)) as (k & -> & _).
    apply (wrap_congruent t _ _ k); [apply T|]. destruct K as [_ [_ Hm _]]. apply andb_true_iff in Mx. destruct Mx as [Md Mx].
    apply Z.leb_le in Mx. specialize (Hm Md). rewrite Q. cbn. lia.
Qed.

Lemma absd_correct A t a b ct vi again : let e := ECall t "absd" [a; b] ct vi in
  wf e = true -> wf a = true -> wf b = true -> t = distance_type (type_of a) ->
  correct_when c c' (call_known A [a; b]) [] e (Kept again) ->
  correct_when c c' (call_known A [a; b]) [] e (absd_step t a b again).
Proof.
  intros e W Wa Wb Td Ag. pose proof (wf_wf_type e W) as T. change (type_of e) with t in T.
  assert (G : forall va vb d, (forall env i, ev env i a = va) -> (forall env i, ev env i b = vb) ->
    cast_val t (Z.abs (va - vb)) = cast_val t d ->
    correct_when c c' (call_known A [a; b]) [] e (Kept (make_const t d))).
  { intros va vb d Va Vb H. apply (const_result _ t KAbsd); [exact W|]. intros env i _ [Sn _]. cbn [map kind_name].
    now rewrite (doc_absd env (env_documented env Sn)), Va, Vb. }
  assert (U : match (if is_uint (type_of a) then scalar_uint a else None), (if is_uint (type_of a) then scalar_uint b else None) with
    | Some ua, Some ub => correct_when c c' (call_known A [a; b]) [] e (Kept (make_const t (if ub <? ua then ua - ub else ub - ua)))
    | _, _ => True end).
  { destruct (is_uint (type_of a)); [|exact I]. destruct (scalar_uint a) as [ua|] eqn:Da, (scalar_uint b) as [ub|] eqn:Db; try exact I.
    apply (G ua ub); [now apply scalar_uint_spec|now apply scalar_uint_spec|]. destruct (Z.ltb_spec ub ua); f_equal; lia. }
  unfold absd_step. destruct (if is_int (type_of a) then scalar_int a else None) as [ia|] eqn:Ca,
    (if is_int (type_of a) then scalar_int b else None) as [ib|] eqn:Cb;
    destruct (if is_uint (type_of a) then scalar_uint a else None), (if is_uint (type_of a) then scalar_uint b else None);
    try exact Ag; try exact U;
    (destruct (is_int (type_of a)); [|discriminate]; apply (G ia ib); [now apply scalar_int_spec|now apply scalar_int_spec|];
     destruct (Z.ltb_spec ib ia); rewrite cast_val_u64 by apply T; f_equal; lia).
Qed.
(** The conjunction with one less than a power of two is a remainder. *)
Lemma land_pred x p : 0 < p -> p = 2 ^ Z.log2 p -> Z.land x (p - 1) = emod x p /\ 0 <= emod x p <= p - 1.
Proof.
  intros P E. pose proof (emod_bound x p ltac:(lia)). split; [|lia].
  unfold emod. rewrite Z.abs_eq by lia. replace (p - 1) with (Z.ones (Z.log2 p)) by (rewrite Z.ones_equiv; lia).
  rewrite Z.land_ones by apply Z.log2_nonneg. now rewrite <- E.
Qed.

Lemma land_all t x : int_type t = true -> is_uint t = true -> in_type t x -> Z.land x (2 ^ bits t - 1) = x.
Proof.
  unfold is_uint, in_type, tmin, tmax, is_int. intros I U R. pose proof (int_type_bits t I).
  destruct (code t); try discriminate U. replace (2 ^ bits t - 1) with (Z.ones (bits t)) by (now rewrite Z.ones_equiv, Z.sub_1_r).
  rewrite Z.land_ones by lia. apply Z.mod_small. cbn in R. lia.
Qed.

(** A value that is not the largest has a successor. *)
Lemma not_max_u64 t v : int_type t = true -> is_uint t = true -> in_type t v ->
  if is_max_u64 t v then v = 2 ^ bits t - 1 else in_type t (v + 1).
Proof.
  unfold is_max_u64, is_uint, in_type, tmin, tmax, is_int. intros I U R. pose proof (int_type_bits t I).
  destruct (code t); try discriminate U. cbn in *. rewrite max_uint_eq by lia.
  destruct (Z.eqb_spec v (2 ^ bits t - 1)); lia.
Qed.

Lemma not_max_i64 t v : int_type t = true -> is_int t = true -> in_type t v -> is_max_i64 t v = false ->
  in_type t (v + 1).
Proof.
  unfold is_max_i64, is_max_u64, in_type, tmin, tmax. intros I U R N. pose proof (int_type_bits t I) as B.
  rewrite U, max_int_eq in * by lia.
  assert (P : 2 <= 2 ^ (bits t - 1)).
  { assert (8 <= bits t) by (unfold int_type, is_int in *; destruct (code t); try discriminate U; lia).
    change 2 with (2 ^ 1). apply Z.pow_le_mono_r; lia. }
  destruct (Z.ltb_spec 0 v) as [L|L]; [|lia]. cbn [andb] in N. apply Z.eqb_neq in N.
  destruct (Z.eq_dec v (2 ^ (bits t - 1) - 1)) as [->|]; [contradiction|lia].
Qed.

Lemma masked_correct A t a b ct vi v : let e := ECall t "bitwise_and" [a; b] ct vi in
  wf e = true -> wf a = true -> type_of a = t -> (forall env i, ev env i b = v) -> in_type t (v + 1) -> in_type t v ->
  is_const_power_of_two_integer (make_const (type_of a) (v + 1)) = true ->
  correct_when c c' (call_known A [a; b]) [] e (Kept (EBin Mod a (make_const (type_of a) (v + 1)))).
Proof.
  intros e W Wa Ta Vb R1 R0 P. pose proof (wf_wf_type e W) as T. change (type_of e) with t in T.
  rewrite Ta in *. destruct (power_of_two_const t (v + 1) T P) as [Po Lg].
  destruct (make_const_spec t (v + 1) T) as [Wc Tc Ec Oc _]. rewrite cast_val_id in Po, Lg, Ec by (auto; apply T).
  apply correct_early.
  - cbn [wf]. now rewrite Wa, Wc, Ta, Tc, type_eqb_refl.
  - exact Ta.
  - intros env i [[_ [Oa _]] _] _ [Sn _]. split.
    + cbn [ok]. split; [exact Oa|]. split; [apply Oc|]. rewrite Ec. lia.
    + unfold e. rewrite (call_value env i t KAnd). cbn [map kind_name ev evbin].
      rewrite (doc_and env (env_documented env Sn)), Ec, Vb.
      destruct (land_pred (ev env i a) (v + 1) Po Lg) as [L B]. replace (v + 1 - 1) with v in L, B by lia. rewrite L.
      symmetry. apply cast_val_id; [apply T|]. unfold in_type in *.
      assert (tmin t <= 0) by (unfold tmin; destruct (is_int t); [|lia]; pose proof (int_type_bits t (proj1 T));
        assert (0 < 2 ^ (bits t - 1)) by (apply Z.pow_pos_nonneg; lia); lia). lia.
Qed.

Lemma and_correct A t a b ct vi again : let e := ECall t "bitwise_and" [a; b] ct vi in
  wf e = true -> wf a = true -> wf b = true -> type_of a = t -> type_of b = t ->
  correct_when c c' (call_known A [a; b]) [] e (Kept again) ->
  correct_when c c' (call_known A [a; b]) [] e (and_step t a b again).
Proof.
  intros e W Wa Wb Ta Tb Ag. pose proof (wf_wf_type e W) as T. change (type_of e) with t in T.
  assert (G : forall va vb, (forall env i, ev env i a = va) -> (forall env i, ev env i b = vb) ->
    correct_when c c' (call_known A [a; b]) [] e (Kept (make_const t (Z.land va vb)))).
  { intros va vb Va Vb. apply (const_result _ t KAnd); [exact W|]. intros env i _ [Sn _]. cbn [map kind_name].
    now rewrite (doc_and env (env_documented env Sn)), Va, Vb. }
  assert (Mi : forall ib, scalar_int b = Some ib -> correct_when c c' (call_known A [a; b]) [] e
    (if negb (is_max_i64 (type_of b) ib) && is_const_power_of_two_integer (make_const (type_of a) (ib + 1))
     then Kept (EBin Mod a (make_const (type_of a) (ib + 1))) else Kept again)).
  { intros ib Cb. destruct (scalar_int_spec b ib Wb Cb) as (Vb & I & _ & R). rewrite Tb in *.
    destruct (_ && _) eqn:P; [|exact Ag]. apply andb_true_iff in P. destruct P as [N P].
    apply masked_correct; auto.
    apply not_max_i64; auto; [apply T|]. now destruct (is_max_i64 t ib). }
  assert (Mu : forall ub, scalar_uint b = Some ub -> correct_when c c' (call_known A [a; b]) [] e
    (if is_max_u64 (type_of b) ub then Kept a
     else if is_const_power_of_two_integer (make_const (type_of a) (ub + 1))
     then Kept (EBin Mod a (make_const (type_of a) (ub + 1))) else Kept again)).
  { intros ub Cb. destruct (scalar_uint_spec b ub Wb Cb) as (Vb & I & _ & R). rewrite Tb in *.
    pose proof (not_max_u64 t ub (proj1 T) I R) as S. destruct (is_max_u64 t ub).
    - apply correct_early; [exact Wa|exact Ta|]. intros env i [[_ [Oa _]] [_ [Fa _]]] _ [Sn _]. split; [exact Oa|].
      unfold e. rewrite (call_value env i t KAnd). cbn [map kind_name]. rewrite (doc_and env (env_documented env Sn)), Vb, S.
      pose proof (fits_in_type _ _ _ Fa) as Ra. rewrite Ta in Ra. rewrite land_all by (auto; apply T).
      symmetry. apply cast_val_id; [apply T|exact Ra].
    - destruct (is_const_power_of_two_integer _) eqn:P; [|exact Ag]. now apply masked_correct. }
  unfold and_step. destruct (scalar_int a) as [ia|] eqn:Ca, (scalar_int b) as [ib|] eqn:Cb,
    (scalar_uint a) as [ua|] eqn:Da, (scalar_uint b) as [ub|] eqn:Db; auto;
    (apply G; auto; first [now apply scalar_int_spec|now apply scalar_uint_spec]).
Qed.

(** [a & 1]. *)
Lemma low_bit_spec t a : wf a = true -> type_of a = t -> is_int t = true ->
  let low := pure_call t "bitwise_and" [a; make_const t 1] in
  wf low = true /\ type_of low = t /\
  (forall env i, sane_env env -> ev env i low = b2z (Z.odd (ev env i a))) /\ (forall env i, ok env i a -> ok env i low).
Proof.
  intros W Ta I low. pose proof (wf_wf_type a W) as T. rewrite Ta in T.
  destruct (make_const_spec t 1 T) as [Wc Tc Ec Oc _]. pose proof (cast_val_1 t T) as C1.
  unfold low, pure_call. repeat match goal with |- _ /\ _ => split end.
  - cbn [wf forallb]. rewrite W, Wc, (proj1 T), (proj2 T). reflexivity.
  - reflexivity.
  - intros env i S. rewrite (call_value env i t KAnd). cbn [map kind_name].
    rewrite (doc_and env (env_documented env S)), Ec, C1. change 1 with (Z.ones 1). rewrite Z.land_ones by lia.
    change (2 ^ 1) with 2. rewrite Zmod_odd. destruct (Z.odd _); [exact C1|]. apply cast_val_0, T.
  - intros env i O. cbn [ok]. auto.
Qed.

(** A shift by a constant: the power is in the type unless it is the sign bit. *)
Lemma power_const t ub : wf_type t -> 0 <= ub < bits t ->
  let p := make_const t (i64 (Z.shiftl 1 ub)) in
  wf p = true /\ type_of p = t /\ (forall env i, ok env i p) /\ (forall env i, ev env i p = cast_val t (2 ^ ub)) /\
  (is_uint t || (ub <? bits t - 1) = true -> cast_val t (2 ^ ub) = 2 ^ ub).
Proof.
  intros T R p. destruct (make_const_spec t (i64 (Z.shiftl 1 ub)) T) as [Wc Tc Ec Oc _].
  repeat match goal with |- _ /\ _ => split end; auto.
  - intros env i. unfold p. rewrite Ec, cast_val_i64 by apply T. f_equal. rewrite Z.shiftl_mul_pow2 by lia. lia.
  - intros H. apply cast_val_id; [apply T|]. unfold in_type, tmin, tmax. pose proof (int_type_bits t (proj1 T)).
    assert (0 < 2 ^ ub) by (apply Z.pow_pos_nonneg; lia). destruct (is_int t) eqn:I.
    + assert (U : is_uint t = false) by (unfold is_int, is_uint in *; now destruct (code t)). rewrite U in H. cbn [orb] in H.
      apply Z.ltb_lt in H. assert (2 ^ ub < 2 ^ (bits t - 1)) by (apply Z.pow_lt_mono_r; lia). lia.
    + assert (2 ^ ub < 2 ^ bits t) by (apply Z.pow_lt_mono_r; lia). lia.
Qed.

(** A quotient by a power of two is in the type. *)
Lemma quotient_in_type t x k : 0 <= k -> in_type t x -> in_type t (x / 2 ^ k).
Proof.
  intros K [L H]. assert (P : 0 < 2 ^ k) by (now apply Z.pow_pos_nonneg).
  assert (T : tmin t <= 0 <= tmax t + 1).
  { unfold tmin, tmax. pose proof (Z.pow_nonneg 2 (bits t - 1)). pose proof (Z.pow_nonneg 2 (bits t)).
    destruct (is_int t); lia. }
  split.
  - apply Z.div_le_lower_bound; nia.
  - apply Z.lt_succ_r. apply Z.div_lt_upper_bound; nia.
Qed.

(** Shifting by all bits but one leaves the sign. *)
Lemma sign_shift t x : is_int t = true -> in_type t x -> 1 <= bits t -> x / 2 ^ (bits t - 1) = if x <? 0 then -1 else 0.
Proof.
  unfold in_type, tmin, tmax. intros I R B. rewrite I in R. assert (0 < 2 ^ (bits t - 1)) by (apply Z.pow_pos_nonneg; lia).
  destruct (Z.ltb_spec x 0); symmetry; [apply (Z.div_unique _ _ _ (x + 2 ^ (bits t - 1)))|apply (Z.div_unique _ _ _ x)]; lia.
Qed.

Definition shift_name (to_left : bool) : string := if to_left then "shift_left" else "shift_right".

Lemma shift_correct to_left A t a b ct vi again st : let e := ECall t (shift_name to_left) [a; b] ct vi in
  wf e = true -> wf a = true -> wf b = true -> type_of a = t ->
  correct_when c c' (call_known A [a; b]) [] e (Kept again) ->
  shift_step to_left t a b again = Some st ->
  correct_when c c' (fun env i => defined env i (step_expr st) /\ call_known A [a; b] env i) [] e st.
Proof.
  intros e W Wa Wb Ta Ag. pose proof (wf_wf_type e W) as T. change (type_of e) with t in T.
  pose proof (int_type_bits t (proj1 T)) as B.
  assert (V : forall env i, call_known A [a; b] env i -> 0 <= ev env i b < bits t -> ev env i e =
    cast_val t (if to_left then ev env i a * 2 ^ ev env i b else ev env i a / 2 ^ ev env i b)).
  { intros env i [Sn _] R. unfold e. destruct to_left.
    - rewrite (call_value env i t (KShift true)). cbn [map kind_name]. now rewrite (doc_shl env (env_documented env Sn)).
    - rewrite (call_value env i t (KShift false)). cbn [map kind_name]. now rewrite (doc_shr env (env_documented env Sn)). }
  unfold shift_step. destruct (is_zero b) eqn:Zb.
  { intros [= <-]. apply correct_early; [exact Wa|exact Ta|]. intros env i [[_ [Oa _]] [_ [Fa _]]] _ [_ K].
    split; [exact Oa|]. pose proof (is_zero_value env (env_zero env (proj1 K)) b i Wb Zb) as Z0.
    rewrite V, Z0, Z.mul_1_r, Z.div_1_r by (auto; lia). pose proof (fits_in_type _ _ _ Fa) as R. rewrite Ta in R.
    destruct to_left; symmetry; apply cast_val_id; auto; apply T. }
  destruct (scalar_uint b) as [ub|] eqn:Cb; [|intros [= <-]; revert Ag; apply correct_known; tauto].
  destruct (scalar_uint_spec b ub Wb Cb) as (Vb & Ub & _ & Rb). pose proof (in_type_uint_nonneg _ _ Ub Rb).
  destruct (Z.ltb_spec ub (bits t)) as [L|L]; cbn [negb]; [|discriminate].
  destruct (power_const t ub T ltac:(lia)) as (Wp & Tp & Op & Ep & Cp). rewrite Ta.
  assert (P : 0 < 2 ^ ub) by (apply Z.pow_pos_nonneg; lia).
  destruct (is_uint t || (ub <? bits t - 1)) eqn:Small.
  - intros [= <-]. specialize (Cp eq_refl). split.
    + split; [|destruct to_left; exact Ta]. cbn [step_expr wf]. rewrite Wa, Wp, Ta, Tp, type_eqb_refl. now destruct to_left.
    + intros env i [[_ [Oa _]] [_ [Fa _]]] _ [[_ [Fm _]] K] _ _. split.
      * cbn [step_expr ok]. split; [exact Oa|]. split; [apply Op|]. rewrite Ep, Cp. destruct to_left; [exact Logic.I|lia].
      * cbn [step_expr] in *. rewrite V, Vb by (rewrite ?Vb; auto; lia). pose proof (fits_in_type _ _ _ Fa) as R. rewrite Ta in R.
        destruct to_left; cbn [type_of ev evbin] in Fm |- *; rewrite Ta, Ep, Cp in *.
        -- rewrite <- cast_val_norm by apply T. symmetry. apply cast_val_id; [apply T|exact Fm].
        -- rewrite (ediv_unique _ _ (ev env i a / 2 ^ ub) (ev env i a mod 2 ^ ub)).
           ++ pose proof (quotient_in_type t (ev env i a) ub ltac:(lia) R) as Q.
              rewrite norm_id, cast_val_id by (auto; apply T). reflexivity.
           ++ lia.
           ++ apply Z.div_mod. lia.
           ++ rewrite Z.abs_eq by lia. now apply Z.mod_pos_bound.
  - clear Cp. apply orb_false_iff in Small. destruct Small as [Nu Nl]. apply Z.ltb_ge in Nl.
    assert (Eu : ub = bits t - 1) by lia. assert (I : is_int t = true).
    { destruct T as [T _]. unfold int_type, is_int, is_uint in *. destruct (code t); try discriminate; reflexivity. }
    destruct (int_zero_spec t I T) as (Wz & Tz & Ez & Oz). destruct to_left; intros [= <-].
    + destruct (low_bit_spec t a Wa Ta I) as (Wl & Tl & El & Ol). destruct (make_const_spec t 0 T) as [Wo To Eo Oo _].
      rewrite cast_val_0 in Eo by apply T. split.
      * split; [|exact Tp]. cbn [step_expr wf]. rewrite Wl, Wo, Wp, Wz, Tl, To, Tp, Tz, !type_eqb_refl.
        cbn [type_of]. rewrite Tl. cbn. now rewrite Z.eqb_refl, orb_true_r.
      * intros env i [[_ [Oa _]] _] _ [_ K] _ _. split.
        -- cbn [step_expr ok]. split; [split; [apply Ol, Oa|apply Oo]|split; auto].
        -- rewrite V, Vb by (rewrite ?Vb; auto; lia). cbn [step_expr ev evcmp]. rewrite El, Eo, Ep, Ez by apply K.
           rewrite Eu, shift_to_sign by apply T. now destruct (Z.odd (ev env i a)).
    + destruct (make_const_spec t 0 T) as [Wo To Eo Oo _]. rewrite cast_val_0 in Eo by apply T.
      destruct (make_const_spec t (-1) T) as [Wm Tm Em Om _]. split.
      * split; [|exact Tm]. cbn [step_expr wf]. rewrite Wa, Wo, Wm, Wz, Ta, To, Tm, Tz, !type_eqb_refl.
        cbn [type_of]. rewrite Ta. cbn. now rewrite Z.eqb_refl, orb_true_r.
      * intros env i [[_ [Oa _]] [_ [Fa _]]] _ [_ K] _ _. pose proof (fits_in_type _ _ _ Fa) as R. rewrite Ta in R. split.
        -- cbn [step_expr ok]. repeat split; auto.
        -- rewrite V, Vb by (rewrite ?Vb; auto; lia). cbn [step_expr ev evcmp]. rewrite Eo, Em, Ez.
           rewrite Eu, (sign_shift t _ I R (proj1 B)). destruct (_ <? 0); [reflexivity|].
           symmetry. exact (cast_val_0 t (proj1 T)).
Qed.

(** The intrinsics together. *)
Lemma intrinsic_step_correct k A t args ct vi again st : let e := ECall t (kind_name k) args ct vi in
  wf e = true -> shaped k t args = true ->
  correct_when c c' (call_known A args) [] e (Kept again) ->
  intrinsic_step k t args A again = Some st ->
  correct_when c c' (fun env i => defined env i (step_expr st) /\ call_known A args env i) [] e st.
Proof.
  intros e W Sh Ag E. pose proof (wf_call _ _ _ _ _ W) as Wa.
  assert (G : forall st, correct_when c c' (call_known A args) [] e st ->
    correct_when c c' (fun env i => defined env i (step_expr st) /\ call_known A args env i) [] e st)
    by (intros st'; apply correct_known; tauto).
  destruct k, args as [|a [|b [|]]]; try discriminate Sh; cbn [intrinsic_step shaped forallb] in *;
    try (injection E as <-; apply G); destr_and;
    repeat match goal with H : type_eqb _ _ = true |- _ => apply type_eqb_eq in H end.
  - now apply count_correct.
  - now apply (shift_correct to_left _ _ _ _ _ _ again).
  - now apply and_correct.
  - apply (bits_correct _ KOr); auto.
  - now apply not_correct.
  - apply (bits_correct _ KXor); auto.
  - now apply reinterpret_correct.
  - now apply abs_correct.
  - now apply absd_correct.
Qed.
End Steps.

Lemma shaped_remade k t args args' : Forall2 in_place args args' -> shaped k t args' = shaped k t args.
Proof.
  intros P. destruct P as [|a a' l l' [_ Ta] [|b b' m m' [_ Tb] [|]]]; destruct k; cbn [shaped]; rewrite ?Ta, ?Tb; reflexivity.
Qed.

(** ** The arguments *)

Section Visits.
Context (mutate : Mutate) (Mu : mutates mutate).

Record arguments (args args' : list Expr) (infos : list ExprInfo) (s s' : Run) : Prop := {
  args_frame : frame s s';
  args_in_place : Forall2 in_place args args';
  args_sound : forall ty env, sane_env env -> calm ty env s' -> known ty env (view s) ->
    Forall (everywhere ty env) args ->
    Forall2 (good ty env) args args' /\
    Forall2 (fun a p => forall i, lane_in (type_of a) i -> info_holds (snd p) (ev env i (fst p))) args (combine args' infos)
}.

Lemma mutate_args_spec info args : forall s args' infos s',
  mutate_args mutate info args s = ((args', infos), s') -> forallb wf args = true -> view_wf (view s) ->
  arguments args args' infos s s'.
Proof.
  induction args as [|a args IH]; intros s args' infos s' E W V; cbn [mutate_args] in E.
  - injection E as <- <- <-. split; [apply frame_refl|constructor|]. intros. split; constructor.
  - run_step E p s1 E1. destruct p as [a' A]. run_step E q s2 E2. destruct q as [r i]. injection E as <- <- <-.
    cbn [forallb] in W. apply andb_true_iff in W. destruct W as [Wa W].
    assert (O : operand a a' A s s1).
    { destruct info; [now apply (info_operand mutate Mu)|]. run_step E1 x s3 E3. injection E1 as <- <- <-.
      now apply (only_operand mutate Mu). }
    pose proof (op_frame _ _ _ _ _ O) as F1. pose proof (view_wf_kept _ _ F1 V) as V1.
    destruct (IH _ _ _ _ E2 W V1) as [F2 P S]. split.
    + exact (frame_trans _ _ _ F1 F2).
    + constructor; [exact (operand_in_place _ _ _ _ _ O)|exact P].
    + intros ty env N C K Ev. inversion Ev as [|? ? Ea Er]; subst.
      pose proof (calm_back ty env _ _ F2 C) as C1. pose proof (known_kept ty env _ _ F1 V K) as K1.
      destruct (S ty env N C K1 Er) as [G H]. destruct (op_sound _ _ _ _ _ O ty env N C1 K Ea) as [Ga _].
      split; [now constructor|]. cbn [combine]. constructor; [|exact H].
      intros j L. cbn [fst snd]. now apply (operand_known ty env _ _ _ _ _ j O).
Qed.

Lemma framed_args info args : framed (mutate_args mutate info args).
Proof.
  induction args as [|a args IH]; cbn [mutate_args]; [apply framed_done|].
  apply framed_bind; [|intros [a' A]; apply framed_bind; [exact IH|intros [r i]; apply framed_done]].
  destruct info; [now apply framed_info|]. apply framed_bind; [now apply framed_only|]. intros x. apply framed_done.
Qed.

(** The call with its mutated arguments. *)
Lemma remade_call info t n args ct vi ct' vi' args' infos s s1 bounds :
  mutate_args mutate info args s = ((args', infos), s1) -> wf (ECall t n args ct vi) = true -> view_wf (view s) ->
  is_likely n ct' = is_likely n ct -> is_poison n ct' = is_poison n ct ->
  delivered (ECall t n args ct vi) bounds s (ECall t n args' ct' vi') bounds s1.
Proof.
  intros E W V Kl Kp. destruct (mutate_args_spec _ _ _ _ _ _ E (wf_call _ _ _ _ _ W) V) as [F P S].
  split; [now apply rewf_call|]. intros ty env N C K Ev B. split; [|exact B].
  destruct (S ty env N C K (everywhere_children _ _ _ Ev)) as [G _]. now apply good_call.
Qed.

Lemma intrinsic_delivered k t n args ct vi bounds s r b' s' : kind_of n ct = Some k ->
  visit_intrinsic mutate k t n args ct vi bounds s = ((r, b'), s') ->
  wf (ECall t n args ct vi) = true -> view_wf (view s) -> delivered (ECall t n args ct vi) bounds s r b' s'.
Proof.
  intros Kd E W V. unfold visit_intrinsic in E. destruct (shaped k t args) eqn:Sh.
  2:{ injection E as <- <- <-. now apply fail_delivered. }
  run_step E p s1 E1. destruct p as [args' infos].
  destruct (mutate_args_spec _ _ _ _ _ _ E1 (wf_call _ _ _ _ _ W) V) as [F P S].
  destruct (kind_of_name _ _ _ Kd) as [-> _].
  pose proof (rewf_call _ _ _ _ _ _ ct vi W P eq_refl) as Pl.
  destruct (intrinsic_step _ _ _ _ _) as [st|] eqn:St.
  - eapply (close_step mutate Mu) with (K := call_known (hd no_info infos) args'); [exact E|exact Pl|exact V|exact F|apply frame_refl| |].
    + eapply intrinsic_step_correct; [apply Pl|now rewrite (shaped_remade _ _ _ _ P)| |exact St].
      apply (call_again_kept (prover := run_prover mutate)). apply Pl.
    + intros ty env N C K Ev B. destruct (S ty env N C K (everywhere_children _ _ _ Ev)) as [G H].
      split; [now apply good_call|]. split; [exact B|]. intros i L. split; [exact N|].
      destruct args' as [|a' l']; [exact I|]. destruct args as [|a l]; [inversion P|].
      destruct infos as [|A infos]; [apply no_info_holds|]. cbn [combine hd] in *.
      inversion H as [|? ? ? ? Ha _]; subst. apply Ha.
      pose proof (everywhere_local _ _ _ Ev) as (_ & _ & Ln). cbn [settled args_lanes] in Ln.
      apply Forall_inv in Ln. cbn [type_of] in L. destruct Ln as [Ln|Ln]; [now left|now apply (lane_in_lanes t)].
  - injection E as <- <- <-. apply (delivered_from _ _ s s1); auto. now apply fail_delivered.
Qed.

(** Setting the flag and putting it back is not seen. *)
Lemma framed_strict t n args ct vi bounds : framed (visit_strict mutate t n args ct vi bounds).
Proof.
  intros s [r b'] s' E. unfold visit_strict in E. destruct (mutate_args mutate false args _) as [[args' infos] s1] eqn:E1.
  injection E as _ _ <-. pose proof (framed_args false args _ _ _ E1) as [T F V]. split.
  - exact T.
  - exact F.
  - intros O. specialize (V O). unfold view in *. cbn in *. now injection V as -> -> -> _ ->.
Qed.

Lemma strict_delivered t n args ct vi bounds s r b' s' :
  visit_strict mutate t n args ct vi bounds s = ((r, b'), s') -> is_intrinsic n ct "strict_float" = true ->
  wf (ECall t n args ct vi) = true -> view_wf (view s) -> delivered (ECall t n args ct vi) bounds s r b' s'.
Proof.
  intros E I W V. unfold visit_strict in E. destruct (mutate_args mutate false args _) as [[args' infos] s1] eqn:E1.
  injection E as <- <- <-.
  assert (Kn : forall ct', is_likely n ct' = false /\ is_poison n ct' = false).
  { assert (n = "strict_float") as -> by (unfold is_intrinsic in I; destruct ct; try discriminate I; now apply String.eqb_eq).
    intros []; split; reflexivity. }
  assert (D : forall ct' vi', delivered (ECall t n args ct vi) bounds s (ECall t n args' ct' vi') bounds
    (set_no_float (no_float_simplify s) s1)).
  { intros ct' vi'. destruct (remade_call false t n args ct vi ct' vi' _ _ _ _ bounds E1 W) as [P S].
    - destruct V as [O R]. split; [exact O|exact R].
    - now rewrite (proj1 (Kn ct')), (proj1 (Kn ct)).
    - now rewrite (proj2 (Kn ct')), (proj2 (Kn ct)).
    - split; [exact P|]. intros ty env N C [K1 K2 K3] Ev B. apply (S ty env); auto. now split. }
  unfold call_again, pure_call. destruct (list_eqb _ _ _); apply D.
Qed.

Lemma framed_visit_args t n args ct vi bounds : framed (visit_args mutate t n args ct vi bounds).
Proof.
  unfold visit_args. destruct (is_intrinsic _ _ _); [apply framed_strict|].
  destruct (kind_of n ct) as [k|]; [|destruct (unmodelled n ct); [apply framed_fail|]].
  - unfold visit_intrinsic. destruct (shaped _ _ _); [|apply framed_fail]. apply framed_bind; [apply framed_args|].
    intros [args' infos]. destruct (intrinsic_step _ _ _ _ _); [now apply framed_finish|apply framed_fail].
  - unfold visit_other. apply framed_bind; [apply framed_args|]. intros [args' infos]. apply framed_done.
Qed.

Lemma visit_args_delivered t n args ct vi bounds s r b' s' :
  visit_args mutate t n args ct vi bounds s = ((r, b'), s') ->
  wf (ECall t n args ct vi) = true -> view_wf (view s) -> delivered (ECall t n args ct vi) bounds s r b' s'.
Proof.
  unfold visit_args. intros E W V. destruct (is_intrinsic _ _ _) eqn:I; [now apply strict_delivered|].
  destruct (kind_of n ct) as [k|] eqn:Kd; [now apply (intrinsic_delivered k)|].
  destruct (unmodelled n ct); [injection E as <- <- <-; now apply fail_delivered|].
  unfold visit_other in E. run_step E p s1 E1. destruct p as [args' infos]. injection E as <- <- <-.
  now apply (remade_call false _ _ _ _ _ _ _ _ infos).
Qed.

(** ** The visit *)

Lemma found_dims_view n dims : forall k k', found_buffer_dims n dims k = Some k' ->
  map_scope replacement (var_info k') = map_scope replacement (var_info k) /\
  bounds_and_alignment_info k' = bounds_and_alignment_info k /\ facts k' = facts k.
Proof.
  induction dims as [|d dims IH]; intros k k'; cbn [found_buffer_dims]; [apply found_buffer_view|].
  destruct (found_buffer_reference _ k) as [k1|] eqn:E1; [|discriminate].
  destruct (found_buffer_reference _ k1) as [k2|] eqn:E2; [|discriminate]. intros E3.
  destruct (found_buffer_view _ _ _ E1) as (V1 & B1 & F1).
  destruct (found_buffer_view _ _ _ E2) as (V2 & B2 & F2). destruct (IH _ _ E3) as (V3 & B3 & F3).
  split; [|split]; congruence.
Qed.

Lemma visit_call_visits t n args ct vi bounds :
  visits (ECall t n args ct vi) bounds (visit_call mutate t n args ct vi bounds).
Proof.
  apply visits_intro.
  - intros s r s'. unfold visit_call. destruct (_ || _); [|apply framed_visit_args].
    destruct (found_buffer_dims _ _ _) as [k|] eqn:Fd; [|eapply framed_fail].
    destruct (found_dims_view _ _ _ _ Fd) as (Vv & B & Fa). apply framed_set_knowledge; auto. apply framed_visit_args.
  - intros s r b' s'. unfold visit_call. intros E W V. destruct (_ || _); [|now apply visit_args_delivered].
    destruct (found_buffer_dims _ _ _) as [k|] eqn:Fd; [|injection E as <- <- <-; now apply fail_delivered].
    destruct (found_dims_view _ _ _ _ Fd) as (Vv & B & Fa).
    assert (F1 : frame s (set_knowledge k s))
      by (apply (framed_set_knowledge (done tt) s k tt _ (framed_done tt) Vv B Fa); reflexivity).
    apply (delivered_from _ _ s _ _ _ _ F1 V). apply visit_args_delivered; auto. now apply (view_wf_kept s).
Qed.
End Visits.
