(* ===== verification/SimplifyShuffle.v ===== *)
(** * Shuffles

    [Simplify::visit(const Shuffle)] of src/Simplify_Shuffle.cpp: lanes extracted
    from ramps and broadcasts, shuffles of loads, broadcasts, and interleaved or
    concatenated ramps, slices and scalars.  Definitions only; ShuffleSound has
    what they promise. *)

From Stdlib Require Import ZArith Lia Bool List String.
From S2P Require Import Prelude.
From S2P Require Import IntArith.
From S2P Require Import ModulusRemainder.
From S2P Require Import HalideTypes.
From S2P Require Import IR.
From S2P Require Import IRMatch.
From S2P Require Import Visit.
From S2P Require Import ExprInfo.
From S2P Require Import SimplifyExprs.
From S2P Require Import SimplifyRun.
From S2P Require Import SimplifyNodes.
From S2P Require Import ListNodes.
Import ListNotations.
Open Scope string_scope.
Open Scope list_scope.
Open Scope Z_scope.

(** ** Shapes *)

(** [Shuffle::is_interleave]. *)
Definition is_interleave (vs : list Expr) (ixs : list Z) : bool :=
  match vs with
  | [] => false
  | v :: _ =>
      let lanes_v := lanes (type_of v) in
      let terms := List.length vs in
      negb (lanes_v =? 1) &&
      forallb (fun u => lanes (type_of u) =? lanes_v) vs &&
      (lanes_v * Z.of_nat terms =? Z.of_nat (List.length ixs)) &&
      forallb (fun i => forallb (fun j =>
        nth (j * terms + i) ixs 0 =? Z.of_nat i * lanes_v + Z.of_nat j) (seq 0 (Z.to_nat lanes_v))) (seq 0 terms)
  end.

(** An [int] as a constant of a type; [check_representable] is a user error. *)
Definition int_const (t : HType) (v : Z) : option Expr :=
  if (Z.abs v <? 2 ^ 31) && can_represent_i64 t v then Some (make_const t v) else None.

(** The bounds of all the vectors so far, and of the next. *)
Definition shuffled_bounds (x V : ExprInfo) : ExprInfo :=
  mkInfo (Z.min (info_min x) (info_min V)) (Z.max (info_max x) (info_max V))
    (min_defined x && min_defined V) (max_defined x && max_defined V)
    (unify (info_alignment x) (info_alignment V)).

(** Predicates and indices of loads from one buffer. *)
Fixpoint loads_of (name : string) (vs : list Expr) : option (list Expr * list Expr) :=
  match vs with
  | [] => Some ([], [])
  | Load _ n p x _ :: vs =>
      if String.eqb n name then
        match loads_of name vs with Some (ps, xs) => Some (p :: ps, x :: xs) | None => None end
      else None
  | _ => None
  end.

(** The vectors a slice is of, if it begins at [begin] and has the stride. *)
Definition slice_at (begin stride : Z) (e : Expr) : option (list Expr) :=
  match e with
  | Shuffle us js =>
      if is_slice us js && (hd 0 js =? begin) && (slice_stride js =? stride) then Some us else None
  | _ => None
  end.

Fixpoint slices_from (first : list Expr) (i terms : Z) (vs : list Expr) : bool :=
  match vs with
  | [] => true
  | v :: vs =>
      match slice_at i terms v with
      | Some us => ((i =? 0) || list_eqb equal first us) && slices_from first (i + 1) terms vs
      | None => false
      end
  end.

(** [Shuffle::make] asserts that the vectors have one element type. *)
Definition same_elements (vs : list Expr) : bool :=
  match vs with
  | [] => false
  | v :: _ => forallb (fun u => type_eqb (element_of (type_of u)) (element_of (type_of v))) vs
  end.

(** ** Checks *)

Section Shuffles.
Context (mutate : Mutate).

(** An expression that is made to be simplified. *)
Definition mutate_new (e : Expr) : R Expr := let! _ := note (Met e) in mutate_only mutate e.
Definition mutate_new_info (e : Expr) : R (Expr * ExprInfo) := let! _ := note (Met e) in mutate_info mutate e.

(** All the vectors pass a check, or all pairs of neighbours. *)
Fixpoint all_pass (f : Expr -> R bool) (vs : list Expr) : R bool :=
  match vs with
  | [] => done true
  | v :: vs => let! b := f v in if b then all_pass f vs else done false
  end.

Fixpoint neighbours_pass (f : Expr -> Expr -> R bool) (v : Expr) (vs : list Expr) : R bool :=
  match vs with
  | [] => done true
  | u :: vs => let! b := f v u in if b then neighbours_pass f u vs else done false
  end.

Definition proves_zero (e : Expr) : R bool := let! check := mutate_new e in done (is_zero check).

(** ** The attempts

    Each returns how the visit ends, if it applies. *)

Definition attempt (m : R (option Step)) (otherwise : R Step) : R Step :=
  let! o := m in match o with Some st => done st | None => otherwise end.

Definition void : R (option Step) := fail None.

(** Loads with shuffled indices are a dense load. *)
Definition try_load (vs : list Expr) (ixs : list Z) : R (option Step) :=
  match vs with
  | Load t n _ _ _ :: _ =>
      match loads_of n vs with
      | Some (ps, xs) =>
          if same_elements xs then
            let! '(index, X) := mutate_new_info (Shuffle xs ixs) in
            match index with
            | Ramp b _ _ =>
                let! '(_, B) := mutate_info mutate b in
                let al := intersect (info_alignment B) (info_alignment X) in
                let! predicate :=
                  if forallb is_one ps then done (const_true (Z.of_nat (List.length ixs)))
                  else if same_elements ps then mutate_new (Shuffle ps ixs)
                  else fail (const_true (Z.of_nat (List.length ixs))) in
                done (Some (Kept (Load (with_lanes t (Z.of_nat (List.length ixs))) n predicate index al)))
            | _ => done None
            end
          else void
      | None => done None
      end
  | _ => done None
  end.

Definition same_broadcast (v1 v : Expr) : R bool :=
  match v with Broadcast v2 _ => proves_zero (EBin Sub v1 v2) | _ => done false end.

Definition try_broadcast (vs : list Expr) (ixs : list Z) : R (option Step) :=
  match vs with
  | Broadcast v1 _ :: vs =>
      let! b := all_pass (same_broadcast v1) vs in
      done (if b then Some (Kept (if Nat.eqb (List.length ixs) 1 then v1
                                  else Broadcast v1 (Z.of_nat (List.length ixs)))) else None)
  | _ => done None
  end.

(** The difference of adjacent ramps of an interleave is their stride divided by
    their number. *)
Definition interleaved (terms : Z) (stride v u : Expr) : R bool :=
  let! diff := mutate_new (EBin Sub u v) in
  match diff with
  | Broadcast b _ =>
      match int_const (type_of b) terms with
      | Some c => proves_zero (EBin Sub (EBin Mul b c) stride)
      | None => fail false
      end
  | _ => done false
  end.

Definition try_interleaved_ramps (vs : list Expr) : R (option Step) :=
  match vs with
  | Ramp b s n :: us =>
      let terms := Z.of_nat (List.length vs) in
      let! pass := neighbours_pass (interleaved terms s) (Ramp b s n) us in
      if pass then
        let! _ := note (Interleaved (type_of s)) in
        match int_const (type_of s) terms with
        | Some c => done (Some (Resumed (Ramp b (EBin Div s c) (n * terms))))
        | None => void
        end
      else done None
  | _ => done None
  end.

(** The code does not check that the slices together have the lanes of what they
    are slices of; where they do not, the run is void. *)
Definition try_interleaved_slices (vs : list Expr) (ixs : list Z) : R (option Step) :=
  match vs with
  | Shuffle us js :: _ =>
      if is_slice us js && slices_from us 0 (Z.of_nat (List.length vs)) vs then
        if total_lanes us =? Z.of_nat (List.length ixs) then done (Some (Kept (make_concat us)))
        else void
      else done None
  | _ => done None
  end.

(** A ramp goes on where its neighbour ends. *)
Definition continued (stride v u : Expr) : R bool :=
  if lanes (type_of u) =? lanes (type_of v) then
    let! diff := mutate_new (EBin Sub u v) in
    match diff with
    | Broadcast b _ =>
        match int_const (type_of stride) (lanes (type_of v)) with
        | Some c => proves_zero (EBin Sub b (EBin Mul stride c))
        | None => fail false
        end
    | _ => done false
    end
  else done false.

Definition try_concat_ramps (vs : list Expr) (ixs : list Z) : R (option Step) :=
  match vs with
  | Ramp b s n :: us =>
      let! pass := neighbours_pass (continued s) (Ramp b s n) us in
      done (if pass then Some (Kept (Ramp b s (Z.of_nat (List.length ixs)))) else None)
  | _ => done None
  end.

Definition next_scalar (stride v u : Expr) : R bool :=
  if is_scalar (type_of u) then proves_zero (EBin Sub (EBin Sub u v) stride) else done false.

(** A concatenation of one scalar reads past its vectors. *)
Definition try_concat_scalars (vs : list Expr) (ixs : list Z) : R (option Step) :=
  match vs with
  | v0 :: us =>
      if is_scalar (type_of v0) then
        match us with
        | v1 :: _ =>
            if is_scalar (type_of v1) then
              let! stride := mutate_new (EBin Sub v1 v0) in
              let! pass := neighbours_pass (next_scalar stride) v0 us in
              done (if pass then Some (Kept (Ramp v0 stride (Z.of_nat (List.length ixs)))) else None)
            else done None
        | [] => void
        end
      else done None
  | [] => done None
  end.

(** ** The visit *)

Definition shuffle_step (vs : list Expr) (ixs : list Z) : R Step :=
  let again := done (Kept (Shuffle vs ixs)) in
  attempt (try_load vs ixs)
    (attempt (try_broadcast vs ixs)
       (if is_interleave vs ixs then
          attempt (try_interleaved_ramps vs) (attempt (try_interleaved_slices vs ixs) again)
        else if is_concat vs ixs then
          attempt (try_concat_ramps vs ixs) (attempt (try_concat_scalars vs ixs) again)
        else again)).

(** The vectors are mutated and their bounds put together. *)
Fixpoint mutate_vectors (first : bool) (vs : list Expr) (bounds : option ExprInfo)
    : R (list Expr * option ExprInfo) :=
  match vs with
  | [] => done ([], bounds)
  | v :: vs =>
      let! '(v', V) := mutate_info mutate v in
      let! bounds :=
        match bounds with
        | None => done None
        | Some x =>
            if first then done (Some V)
            else let! _ := note (Combined Shuffled x V) in done (Some (shuffled_bounds x V))
        end in
      let! '(vs', bounds) := mutate_vectors false vs bounds in
      done (v' :: vs', bounds)
  end.

(** A lane of a ramp or of a broadcast.  The code takes the lane from the first
    vector, whichever vector the index is in. *)
Definition extracted (vs : list Expr) (ixs : list Z) : option (Z * Z * option Expr) :=
  match vs, ixs with
  | Ramp b s n :: _, [k] =>
      Some (k, n, match int_const (type_of s) k with Some c => Some (EBin Add b (EBin Mul c s)) | None => None end)
  | Broadcast v n :: _, [k] => Some (k, n, Some v)
  | _, _ => None
  end.

Definition visit_shuffle (vs : list Expr) (ixs : list Z) (bounds : option ExprInfo) : R Result :=
  let e := Shuffle vs ixs in
  match extracted vs ixs with
  | Some (k, n, Some r) => let! _ := note (Extracted k n) in finish mutate e [] (Resumed r) bounds
  | Some (_, _, None) => fail (e, bounds)
  | None =>
      let! '(vs', bounds) := mutate_vectors true vs bounds in
      let! st := shuffle_step vs' ixs in
      finish mutate e [] st bounds
  end.
End Shuffles.
