(* ===== verification/ShuffleSound.v ===== *)
(** * Shuffles are visited correctly

    What each attempt of [visit(const Shuffle)] finds: vectors in progression are
    ramps, shuffled loads are loads of the shuffled indices, and broadcasts and
    slices that belong together are one. *)

From Stdlib Require Import ZArith Lia Bool List String.
From S2P Require Import Prelude.
From S2P Require Import IntArith.
From S2P Require Import ModulusRemainder.
From S2P Require Import HalideTypes.
From S2P Require Import IR.
From S2P Require Import Typing.
From S2P Require Import IRMatch.
From S2P Require Import RuleSem.
From S2P Require Import RuleTac.
From S2P Require Import MatchSound.
From S2P Require Import Visit.
From S2P Require Import Mutator.
From S2P Require Import ExprInfo.
From S2P Require Import SimplifyExprs.
From S2P Require Import SimplifyRun.
From S2P Require Import SimplifyNodes.
From S2P Require Import NamedValues.
From S2P Require Import ListNodes.
From S2P Require Import SimplifyNodesSound.
From S2P Require Import SimplifyShuffle.
Import ListNotations.
Open Scope string_scope.
Open Scope list_scope.
Open Scope Z_scope.

Lemma scalar_has_lane t i : is_scalar t = true -> lane_in t i.
Proof. now left. Qed.

(** ** Neighbours *)

Fixpoint chain {A} (P : A -> A -> Prop) (v : A) (l : list A) : Prop :=
  match l with
  | [] => True
  | u :: l => P v u /\ chain P u l
  end.

Lemma chain_impl {A} (P Q : A -> A -> Prop) v l : (forall v u, P v u -> Q v u) -> chain P v l -> chain Q v l.
Proof. revert v. induction l as [|u l IH]; intros v H; [auto|]. cbn. intros [H1 H2]. auto. Qed.

(** The lane [i * L + j] of vectors of [L] lanes. *)
Lemma pick_nth env L : forall vs i w j, Forall (fun v => lanes (type_of v) = L) vs -> 0 <= j < L ->
  nth_error vs i = Some w -> pick env vs (Z.of_nat i * L + j) = ev env j w.
Proof.
  induction vs as [|v vs IH]; intros [|i] w j F J N; cbn [nth_error] in N; try discriminate;
    apply Forall_cons_iff in F as [Lv Fv]; cbn [pick]; rewrite Lv.
  - injection N as <-. replace (Z.of_nat 0 * L + j) with j by lia. now rewrite (proj2 (Z.ltb_lt _ _)) by lia.
  - rewrite (proj2 (Z.ltb_ge _ _)) by nia. rewrite <- (IH i w j) by auto. f_equal. lia.
Qed.

(** ** Progressions

    Vectors of [L] lanes, each [d] from the one before, the lanes of the first
    [s] apart. *)
Section Progression.
Context (env : Env) (t : HType) (It : int_type t = true) (L d s : Z).

Definition apart (v u : Expr) : Prop := lanes (type_of u) = L /\ forall j, 0 <= j < L -> ev env j u = norm t (ev env j v + d).

Lemma nth_progression : forall l v c, lanes (type_of v) = L -> (forall j, 0 <= j < L -> ev env j v = norm t (c + j * s)) ->
  chain apart v l -> forall i w, nth_error (v :: l) i = Some w ->
  lanes (type_of w) = L /\ forall j, 0 <= j < L -> ev env j w = norm t (c + Z.of_nat i * d + j * s).
Proof.
  induction l as [|u l IH]; intros v c Lv V C [|i] w N; cbn [nth_error] in N; try discriminate.
  - injection N as <-. split; [exact Lv|]. intros j J. rewrite V by exact J. f_equal. lia.
  - now destruct i.
  - injection N as <-. split; [exact Lv|]. intros j J. rewrite V by exact J. f_equal. lia.
  - destruct C as [[Lu Vu] C]. destruct (IH u (c + d) Lu) with (i := i) (w := w) as [Lw Vw]; auto.
    + intros j J. rewrite Vu, V by exact J. rewrite norm_add_l by exact It. f_equal. lia.
    + split; [exact Lw|]. intros j J. rewrite Vw by exact J. f_equal. lia.
Qed.

Lemma chain_lanes v l : lanes (type_of v) = L -> chain apart v l -> Forall (fun v => lanes (type_of v) = L) (v :: l).
Proof. revert v. induction l as [|u l IH]; intros v Lv C; constructor; auto. destruct C as [[Lu _] C]. now apply IH. Qed.

Lemma pick_progression v l c i j : lanes (type_of v) = L -> (forall j, 0 <= j < L -> ev env j v = norm t (c + j * s)) ->
  chain apart v l -> (i < List.length (v :: l))%nat -> 0 <= j < L ->
  pick env (v :: l) (Z.of_nat i * L + j) = norm t (c + Z.of_nat i * d + j * s).
Proof.
  intros Lv V C I J. destruct (nth_error (v :: l) i) as [w|] eqn:N; [|apply nth_error_None in N; lia].
  rewrite (pick_nth env L (v :: l) i w j) by (auto using chain_lanes). now apply (nth_progression l v c Lv V C i w N).
Qed.
End Progression.

(** Such vectors interleaved. *)
Lemma pick_interleaved env t (It : int_type t = true) L s q v l c i : let terms := Z.of_nat (List.length (v :: l)) in
  1 <= L -> lanes (type_of v) = L -> (forall j, 0 <= j < L -> ev env j v = norm t (c + j * s)) ->
  s = terms * q -> chain (apart env t L q) v l -> 0 <= i < L * terms ->
  pick env (v :: l) (i mod terms * L + i / terms) = norm t (c + i * q).
Proof.
  intros terms P Lv V Sq C R. assert (Pt : 1 <= terms) by (unfold terms; cbn [List.length]; lia).
  pose proof (Z.mod_pos_bound i terms ltac:(lia)) as B. pose proof (Z.div_mod i terms ltac:(lia)) as D.
  assert (Q : 0 <= i / terms < L) by (split; [apply Z.div_pos; lia|apply Z.div_lt_upper_bound; lia]).
  rewrite <- (Z2Nat.id (i mod terms)) at 1 by lia.
  rewrite (pick_progression env t It L q s v l c) by (auto; unfold terms in *; lia).
  f_equal. rewrite Z2Nat.id by lia. rewrite Sq. set (x := i mod terms) in *. set (y := i / terms) in *. rewrite D. ring.
Qed.

(** Vectors of [L] lanes, end to end. *)
Lemma same_lanes_total L vs : Forall (fun v => lanes (type_of v) = L) vs -> total_lanes vs = L * Z.of_nat (List.length vs).
Proof. unfold total_lanes. induction 1 as [|v vs E _ IH]; cbn [fold_right List.length]; lia. Qed.

Lemma pick_end_to_end env t L s v l c k : int_type t = true -> 1 <= L -> lanes (type_of v) = L ->
  (forall j, 0 <= j < L -> ev env j v = norm t (c + j * s)) -> chain (apart env t L (L * s)) v l ->
  0 <= k < total_lanes (v :: l) -> pick env (v :: l) k = norm t (c + k * s).
Proof.
  intros It P Lv V C R. pose proof (chain_lanes _ _ _ _ _ _ Lv C) as F. rewrite (same_lanes_total L) in R by exact F.
  pose proof (Z.div_mod k L ltac:(lia)) as E. pose proof (Z.mod_pos_bound k L ltac:(lia)) as B.
  assert (Q : 0 <= k / L < Z.of_nat (List.length (v :: l))).
  { split; [apply Z.div_pos; lia|]. apply Z.div_lt_upper_bound; lia. }
  rewrite E at 1. rewrite (Z.mul_comm L), <- (Z2Nat.id (k / L)) at 1 by lia.
  rewrite (pick_progression env t It L (L * s) s v l c) by (auto; lia). rewrite Z2Nat.id by lia. f_equal.
  rewrite E at 3. ring.
Qed.

(** ** Ramps *)

Lemma ramp_lanes b s0 m : wf (Ramp b s0 m) = true -> 2 <= m < lanes_limit.
Proof. intros Wr. cbn [wf] in Wr. destr_and. unfold vector_lanes in *. zify_bool. lia. Qed.

(** The lanes of a ramp. *)
Lemma ramp_facts b s0 m : wf (Ramp b s0 m) = true ->
  wf b = true /\ wf s0 = true /\ wf_type (type_of (Ramp b s0 m)) /\ type_of s0 = element_of (type_of (Ramp b s0 m)) /\
  type_of b = type_of s0 /\
  forall ty env, everywhere ty env (Ramp b s0 m) -> forall j,
    ev env j (Ramp b s0 m) = norm (type_of (Ramp b s0 m)) (ev env 0 b + j * ev env 0 s0).
Proof.
  intros Wr. pose proof (wf_wf_type _ Wr) as T. cbn [wf] in Wr. destr_and.
  repeat match goal with H : type_eqb _ _ = true |- _ => apply type_eqb_eq in H end.
  assert (Ts : type_of s0 = element_of (type_of (Ramp b s0 m))).
  { cbn [type_of]. unfold element_of, with_lanes, is_scalar in *. destruct (type_of b), (type_of s0). cbn in *. zify_bool. congruence. }
  repeat match goal with |- _ /\ _ => split end; auto. intros ty env E j. pose proof (everywhere_children _ _ _ E) as C.
  apply Forall_two in C as [Eb Es]. cbn [ev type_of].
  rewrite (everywhere_uniform ty env b j Eb), (everywhere_uniform ty env s0 j Es) by assumption. symmetry. apply norm_elt. now split.
Qed.

Lemma wf_ramp b s0 k : wf b = true -> wf s0 = true -> type_of s0 = type_of b -> is_scalar (type_of b) = true -> 2 <= k < lanes_limit ->
  wf (Ramp b s0 k) = true.
Proof. intros Wb Ws T S R. cbn [wf]. rewrite Wb, Ws, T, S, type_eqb_refl. unfold vector_lanes. zify_bool. intuition lia. Qed.

(** The neighbours share a quotient. *)
Lemma common_quotient env t L s0 terms v l : 1 <= terms -> terms = 1 + Z.of_nat (List.length l) ->
  chain (fun v u => exists q, ev env 0 s0 = terms * q /\ apart env t L q v u) v l ->
  exists q, ev env 0 s0 = terms * q /\ chain (apart env t L q) v l.
Proof.
  intros P Tl C. destruct l as [|u l]; [exists (ev env 0 s0); split; [cbn in Tl; lia|exact I]|].
  destruct C as [(q & Sq & A) C]. exists q. split; [exact Sq|]. split; [exact A|]. eapply chain_impl; [|exact C].
  intros x y (q' & Sq' & A'). replace q with q' by nia. exact A'.
Qed.

Lemma div_ramp_value env i b s0 c terms q k B : no_overflow_int (type_of s0) = true -> type_of b = type_of s0 ->
  ev env i b = B -> ev env i s0 = terms * q -> ev env i c = terms -> terms <> 0 ->
  ev env i (Ramp b (EBin Div s0 c) k) = norm (type_of s0) (B + i * q).
Proof.
  intros No Tb Vb Vs Vc P. cbn [ev evbin type_of]. rewrite Tb, Vb, Vs, Vc, (ediv_unique (terms * q) terms q 0) by lia.
  now rewrite (norm_no_overflow _ q No).
Qed.

Lemma same_elt_of_element a b : a = element_of b -> same_elt a b.
Proof. intros ->. apply same_elt_element. Qed.

(** ** Checks *)

Section Visits.
Context (mutate : Mutate) (Mu : mutates mutate).

(** What the simplifier made of an expression of its own. *)
Record new_operand (e e' : Expr) (A : ExprInfo) (s s' : Run) : Prop := {
  new_frame : frame s s';
  new_in_place : in_place e e';
  new_sound : forall ty env, sane_env env -> calm ty env s' -> known ty env (view s) ->
    everywhere ty env e /\ good ty env e e'
}.

Lemma new_from e e' A s s' : operand e e' A (snd (note (Met e) s)) s' -> view_wf (view s) -> new_operand e e' A s s'.
Proof.
  intros O V. pose proof (noted (Met e) s) as F. pose proof (op_frame _ _ _ _ _ O) as F1. split.
  - exact (frame_trans _ _ _ F F1).
  - exact (operand_in_place _ _ _ _ _ O).
  - intros ty env N C K.
    assert (Ev : everywhere ty env e).
    { destruct (calm_back ty env _ _ F1 C) as [_ T]. cbn in T. apply Forall_inv in T. apply T. }
    split; [exact Ev|]. apply (op_sound _ _ _ _ _ O ty env N C); [|exact Ev].
    exact (known_kept ty env _ _ F V K).
Qed.

Lemma new_spec e s e' s' : mutate_new mutate e s = (e', s') -> wf e = true -> view_wf (view s) ->
  new_operand e e' no_info s s'.
Proof.
  intros E W V. unfold mutate_new in E. run_step E u s1 E1. injection E1 as _ <-. apply new_from; [|exact V].
  now apply (only_operand mutate Mu).
Qed.

Lemma new_info_spec e s e' A s' : mutate_new_info mutate e s = ((e', A), s') -> wf e = true -> view_wf (view s) ->
  new_operand e e' A s s'.
Proof.
  intros E W V. unfold mutate_new_info in E. run_step E u s1 E1. injection E1 as _ <-. apply new_from; [|exact V].
  now apply (info_operand mutate Mu).
Qed.

Lemma framed_new e : framed (mutate_new mutate e).
Proof. unfold mutate_new. apply framed_bind; [apply framed_note|]. intros _. now apply framed_only. Qed.

Lemma framed_new_info e : framed (mutate_new_info mutate e).
Proof. unfold mutate_new_info. apply framed_bind; [apply framed_note|]. intros _. now apply framed_info. Qed.

Lemma framed_zero e : framed (proves_zero mutate e).
Proof. apply framed_bind; [apply framed_new|]. intros. apply framed_done. Qed.

Lemma zero_spec e s s' : proves_zero mutate e s = (true, s') -> wf e = true -> view_wf (view s) ->
  forall ty env, sane_env env -> calm ty env s' -> known ty env (view s) ->
  everywhere ty env e /\ forall i, lane_in (type_of e) i -> ev env i e = 0.
Proof.
  intros E W V ty env N C K. unfold proves_zero in E. run_step E e' s1 E1. injection E as Z <-.
  destruct (new_spec _ _ _ _ E1 W V) as [_ [We _] S]. destruct (S ty env N C K) as [Ev [_ Ve]].
  split; [exact Ev|]. intros i L. rewrite <- Ve by exact L. now apply is_zero_value; [apply N| |].
Qed.

(** *** All of them *)

(** What a passed check shows, when all goes well. *)
Definition finds (m : R bool) (P : (string -> HType) -> Env -> Prop) : Prop :=
  framed m /\ forall s s', m s = (true, s') -> view_wf (view s) -> forall ty env, sane_env env -> calm ty env s' ->
    known ty env (view s) -> P ty env.

Lemma all_find f P vs : Forall (fun v => finds (f v) (P v)) vs ->
  finds (all_pass f vs) (fun ty env => Forall (fun v => P v ty env) vs).
Proof.
  induction 1 as [|v vs [Fv Hv] _ [Fl Hl]]; cbn [all_pass].
  - split; [apply framed_done|]. constructor.
  - split; [apply framed_bind; [exact Fv|]; intros []; [exact Fl|apply framed_done]|].
    intros s s' E V ty env N C K. run_step E b s1 E1. destruct b; [|discriminate E].
    pose proof (Fv _ _ _ E1) as F1. pose proof (Fl _ _ _ E) as F2. constructor.
    + exact (Hv s s1 E1 V ty env N (calm_back ty env _ _ F2 C) K).
    + exact (Hl s1 s' E (view_wf_kept _ _ F1 V) ty env N C (known_kept ty env _ _ F1 V K)).
Qed.

(** A neighbour that passes keeps the invariant. *)
Lemma neighbours_find (Inv Q : Expr -> Prop) f P vs :
  (forall v u, Inv v -> Q u -> finds (f v u) (P v u) /\ forall s s', f v u s = (true, s') -> Inv u) ->
  Forall Q vs -> forall v, Inv v -> finds (neighbours_pass f v vs) (fun ty env => chain (fun v u => P v u ty env) v vs).
Proof.
  intros H. induction 1 as [|u vs Qu _ IH]; intros v Iv; cbn [chain neighbours_pass].
  - split; [apply framed_done|]. auto.
  - destruct (H v u Iv Qu) as [[Fv Hv] Nx]. split.
    + intros s b s' E. run_step E p s1 E1. apply (frame_trans s s1); [exact (Fv _ _ _ E1)|].
      destruct p; [exact (proj1 (IH u (Nx _ _ E1)) _ _ _ E)|exact (framed_done false _ _ _ E)].
    + intros s s' E V ty env N C K. run_step E b s1 E1. destruct b; [|discriminate E].
      destruct (IH u (Nx _ _ E1)) as [Fl Hl]. pose proof (Fv _ _ _ E1) as F1. pose proof (Fl _ _ _ E) as F2. split.
      * exact (Hv s s1 E1 V ty env N (calm_back ty env _ _ F2 C) K).
      * exact (Hl s1 s' E (view_wf_kept _ _ F1 V) ty env N C (known_kept ty env _ _ F1 V K)).
Qed.

(** What is found with an expression of the simplifier. *)
Lemma new_finds e k P : wf e = true -> (forall e', framed (k e')) ->
  (forall e', in_place e e' -> finds (k e') (fun ty env => everywhere ty env e -> good ty env e e' -> P ty env)) ->
  finds (let! e' := mutate_new mutate e in k e') P.
Proof.
  intros W Fk H. split; [apply framed_bind; [apply framed_new|exact Fk]|].
  intros s s' E V ty env N C K. run_step E e' s1 E1. destruct (new_spec _ _ _ _ E1 W V) as [F1 P1 S1].
  destruct (H e' P1) as [F2 H2]. pose proof (F2 _ _ _ E) as F.
  destruct (S1 ty env N (calm_back ty env _ _ F C) K) as [Ev G].
  exact (H2 _ _ E (view_wf_kept _ _ F1 V) ty env N C (known_kept ty env _ _ F1 V K) Ev G).
Qed.

Lemma finds_impl m (P Q : (string -> HType) -> Env -> Prop) : (forall ty env, P ty env -> Q ty env) -> finds m P -> finds m Q.
Proof. intros H [F G]. split; [exact F|]. intros. now apply H, (G s s'). Qed.

Lemma zero_finds e : wf e = true -> finds (proves_zero mutate e) (fun ty env => everywhere ty env e /\
  forall i, lane_in (type_of e) i -> ev env i e = 0).
Proof. intros W. split; [apply framed_zero|]. intros s s' E V ty env N C K. now apply (zero_spec e s s'). Qed.

Lemma never_finds {P} : finds (done false) P.
Proof. split; [apply framed_done|]. discriminate. Qed.

Lemma never_finds_void {P} : finds (fail false) P.
Proof. split; [apply framed_fail|]. intros s s' E. discriminate E. Qed.

(** ** Ramps side by side *)

Lemma int_const_spec u v c : wf_type u -> int_const u v = Some c ->
  wf c = true /\ type_of c = u /\ (forall env i, ev env i c = v) /\ forall env i, ok env i c.
Proof.
  intros Wu E. unfold int_const in E. destruct (_ && _) eqn:R; [|discriminate]. injection E as <-.
  apply andb_true_iff in R. destruct R as [B R]. apply Z.ltb_lt in B.
  destruct (make_const_spec u v Wu) as [Wc Tc Ec Oc _]. repeat match goal with |- _ /\ _ => split end; auto.
  intros env i. rewrite Ec. apply cast_val_in; [exact Wu|]. pose proof (int_type_bits u (proj1 Wu)).
  destruct Wu as [Iu _]. unfold can_represent_i64, in_type, tmin, tmax, is_int, is_uint, int_type in *.
  destruct (code u); try discriminate Iu; cbn [code_eqb] in *; apply andb_true_iff in R; destruct R as [R1 R2];
    apply Z.leb_le in R1, R2.
  - rewrite min_int_eq in R1 by lia. rewrite max_int_eq in R2 by lia. lia.
  - rewrite max_uint_eq in R2 by lia. unfold u64, wrap_u in R2. rewrite Z.mod_small in R2 by lia. lia.
Qed.


Lemma framed_checked {A} (o : option A) (k : A -> R bool) (d : R bool) : (forall a, framed (k a)) -> framed d ->
  framed (match o with Some a => k a | None => d end).
Proof. destruct o; auto. Qed.

Section Ramps.
Context (t : HType) (T : wf_type t) (stride : Expr) (Ws : wf stride = true) (Ts : type_of stride = element_of t).

Lemma broadcast_element e b n : type_of e = t -> in_place e (Broadcast b n) -> wf b = true /\ type_of b = element_of t.
Proof.
  intros Te [Wb Tb]. cbn [wf type_of] in Wb, Tb. destr_and. split; [assumption|]. rewrite Te in Tb.
  unfold element_of, with_lanes, is_scalar in *. destruct (type_of b), t. cbn in *. zify_bool. congruence.
Qed.

(** A broadcast difference. *)
Lemma broadcast_diff ty env u v b n : type_of v = t -> type_of u = t -> wf (EBin Sub u v) = true ->
  everywhere ty env (EBin Sub u v) -> in_place (EBin Sub u v) (Broadcast b n) ->
  good ty env (EBin Sub u v) (Broadcast b n) ->
  wf b = true /\ type_of b = element_of t /\ in_type t (ev env 0 b) /\
  forall j, lane_in t j -> norm t (ev env j u - ev env j v) = ev env 0 b /\ ev env j u = norm t (ev env j v + ev env 0 b).
Proof.
  intros Tv Tu W Ev Pb [Gb Vb]. pose proof (Forall_inv (everywhere_children _ _ _ Gb)) as Eb.
  destruct (broadcast_element (EBin Sub u v) b n Tu Pb) as [Wb Te]. split; [exact Wb|]. split; [exact Te|].
  assert (Ib : in_type t (ev env 0 b)).
  { apply (proj1 (in_type_element t _)). rewrite <- Te. apply fits_in_type, (everywhere_defined ty env b 0 Eb). left. now rewrite Te. }
  split; [exact Ib|]. intros j J. specialize (Vb j). cbn [type_of ev evbin] in Vb. rewrite Tu in Vb. specialize (Vb J).
  rewrite (everywhere_uniform ty env b j Eb) in Vb by (now rewrite Te). split; [now symmetry|].
  rewrite Vb, norm_add_r by apply T. replace (ev env j v + (ev env j u - ev env j v)) with (ev env j u) by ring.
  symmetry. apply norm_in; [exact T|]. pose proof (everywhere_children _ _ _ Ev) as C. apply Forall_two in C as [Eu _].
  rewrite <- Tu. apply fits_in_type, (everywhere_defined ty env u j Eu). now rewrite Tu.
Qed.

Lemma framed_interleaved terms v u : framed (interleaved mutate terms stride v u).
Proof.
  unfold interleaved. apply framed_bind; [apply framed_new|]. intros []; try apply framed_done.
  destruct (int_const _ _); [apply framed_zero|apply framed_fail].
Qed.

Lemma framed_continued v u : framed (continued mutate stride v u).
Proof.
  unfold continued. destruct (_ =? _); [|apply framed_done]. apply framed_bind; [apply framed_new|].
  intros []; try apply framed_done. destruct (int_const _ _); [apply framed_zero|apply framed_fail].
Qed.

Lemma difference_wf u v : wf u = true -> wf v = true -> type_of u = type_of v -> wf (EBin Sub u v) = true.
Proof. intros Wu Wv E. cbn [wf]. now rewrite Wu, Wv, E, type_eqb_refl. Qed.

Lemma stride_type : int_type (type_of stride) = true /\ forall v, norm (type_of stride) v = norm t v.
Proof. rewrite Ts. split; [apply T|]. intros v. apply norm_elt, same_elt_element. Qed.

(** The stride of an interleave is that of its ramps divided by their number. *)
Lemma interleaved_finds terms v u : 1 <= terms -> wf v = true -> wf u = true -> type_of v = t -> type_of u = t ->
  finds (interleaved mutate terms stride v u) (fun ty env => no_overflow_int (type_of stride) = true ->
    exists q, ev env 0 stride = terms * q /\ apart env t (lanes t) q v u).
Proof.
  intros P Wv Wu Tv Tu. pose proof (difference_wf u v Wu Wv ltac:(congruence)) as W. unfold interleaved. apply new_finds; [exact W| |].
  { intros []; try apply framed_done. destruct (int_const _ _); [apply framed_zero|apply framed_fail]. }
  intros d Pd. destruct d as [| | | | | | | | | | | |b n| | |]; try apply never_finds.
  destruct (int_const (type_of b) terms) as [c|] eqn:Ec; [|apply never_finds_void].
  destruct (broadcast_element _ b n Tu Pd) as [Wb Tb]. destruct (int_const_spec _ _ _ (wf_wf_type b Wb) Ec) as (Wc & Tc & Vc & _).
  eapply finds_impl; [|apply zero_finds].
  - intros ty env [Es Z] Ev G No. specialize (Z 0). pose proof (everywhere_children _ _ _ Es) as Cs.
    destruct (broadcast_diff ty env u v b n Tv Tu W Ev Pd G) as (_ & _ & Ib & D).
    cbn [type_of ev evbin] in Z. rewrite Vc, Tb in Z. exists (ev env 0 b).
    assert (Nn : forall x, norm (element_of t) x = x) by (intros x; apply norm_no_overflow; now rewrite <- Ts).
    rewrite !Nn in Z. split; [specialize (Z (or_introl eq_refl)); lia|]. split; [now rewrite Tu|].
    intros j J. apply D. now right.
  - cbn [wf type_of]. now rewrite Wb, Wc, Tc, Ws, Ts, Tb, !type_eqb_refl.
Qed.

(** A ramp goes on where the one before ends. *)
Lemma continued_finds v u : wf v = true -> wf u = true -> type_of v = t -> element_of (type_of u) = element_of t ->
  finds (continued mutate stride v u) (fun ty env => apart env t (lanes t) (lanes t * ev env 0 stride) v u) /\
  forall s s', continued mutate stride v u s = (true, s') -> type_of u = t.
Proof.
  intros Wv Wu Tv Tu. unfold continued. rewrite Tv. destruct (Z.eqb_spec (lanes (type_of u)) (lanes t)) as [L|L].
  2:{ split; [apply never_finds|discriminate]. }
  assert (Tu' : type_of u = t) by (rewrite <- (with_lanes_eta (type_of u) (lanes t) (eq_sym L)), Tu; now apply with_lanes_eta).
  split; [|auto]. pose proof (difference_wf u v Wu Wv ltac:(congruence)) as W. apply new_finds; [exact W| |].
  { intros []; try apply framed_done. destruct (int_const _ _); [apply framed_zero|apply framed_fail]. }
  intros d Pd. destruct d as [| | | | | | | | | | | |b n| | |]; try apply never_finds.
  destruct (int_const (type_of stride) (lanes t)) as [c|] eqn:Ec; [|apply never_finds_void].
  destruct (broadcast_element _ b n Tu' Pd) as [Wb Tb]. destruct (int_const_spec _ _ _ (wf_wf_type stride Ws) Ec) as (Wc & Tc & Vc & _).
  eapply finds_impl; [|apply zero_finds].
  - intros ty env [Es Z] Ev G. specialize (Z 0 (scalar_has_lane _ 0 (eq_trans (f_equal is_scalar Tb) eq_refl))).
    pose proof (everywhere_children _ _ _ Es) as Cs. apply Forall_two in Cs as [_ Em].
    destruct (broadcast_diff ty env u v b n Tv Tu' W Ev Pd G) as (_ & _ & Ib & D).
    pose proof (fits_in_type _ _ _ (proj2 (everywhere_defined ty env _ 0 Em (scalar_has_lane _ 0 (eq_trans (f_equal is_scalar Ts) eq_refl))))) as Im.
    cbn [type_of ev evbin] in Z, Im. rewrite Vc, Ts, Tb in *.
    apply Z.eqb_eq in Z. rewrite norm_sub_zero in Z; [apply Z.eqb_eq in Z| | |].
    + split; [now rewrite Tu'|]. intros j J. destruct (D j (or_intror J)) as [_ ->].
      rewrite Z, (norm_elt _ _ (same_elt_element t)), norm_add_r by apply T. f_equal. ring.
    + now apply wf_type_element.
    + now apply in_type_element.
    + exact Im.
  - cbn [wf type_of]. now rewrite Wb, Wc, Tc, Ws, Ts, Tb, !type_eqb_refl.
Qed.

(** A scalar goes on in steps. *)
Lemma next_scalar_finds v u : is_scalar t = true -> wf v = true -> wf u = true -> type_of v = t ->
  element_of (type_of u) = element_of t ->
  finds (next_scalar mutate stride v u) (fun ty env => apart env t 1 (ev env 0 stride) v u) /\
  forall s s', next_scalar mutate stride v u s = (true, s') -> type_of u = t.
Proof.
  intros Sc Wv Wu Tv Tu. unfold next_scalar. destruct (is_scalar (type_of u)) eqn:Su.
  2:{ split; [apply never_finds|discriminate]. }
  assert (Te : element_of t = t) by (unfold is_scalar in Sc; zify_bool; now apply with_lanes_eta).
  assert (Tu' : type_of u = t).
  { rewrite <- Te, <- Tu. unfold is_scalar in Su. zify_bool. symmetry. now apply with_lanes_eta. }
  split; [|auto]. eapply finds_impl; [|apply zero_finds].
  - intros ty env [Es Z]. specialize (Z 0 (scalar_has_lane _ 0 Su)).
    pose proof (everywhere_children _ _ _ Es) as Cs. apply Forall_two in Cs as [Ed Ess].
    pose proof (everywhere_children _ _ _ Ed) as Cd. apply Forall_two in Cd as [Eu _].
    assert (L0 : forall e, type_of e = t -> everywhere ty env e -> in_type t (ev env 0 e)).
    { intros e E Ee. rewrite <- E. apply fits_in_type, (everywhere_defined ty env e 0 Ee). left. now rewrite E. }
    pose proof (L0 (EBin Sub u v) Tu' Ed) as Id. pose proof (L0 stride ltac:(congruence) Ess) as Is.
    cbn [type_of ev evbin] in Z, Id. rewrite Tu' in *. apply Z.eqb_eq in Z. rewrite norm_sub_zero in Z by auto. apply Z.eqb_eq in Z.
    split; [rewrite Tu'; unfold is_scalar in Sc; now apply Z.eqb_eq|]. intros j J. replace j with 0 by lia.
    rewrite <- Z, norm_add_r by apply T. replace (ev env 0 v + (ev env 0 u - ev env 0 v)) with (ev env 0 u) by ring.
    symmetry. apply norm_in; [exact T|]. now apply L0.
  - cbn [wf type_of]. now rewrite Wu, Wv, Ws, Ts, Te, Tu', Tv, !type_eqb_refl.
Qed.
End Ramps.

(** ** Attempts *)

Section Attempts.
Context (vs : list Expr) (ixs : list Z) (W : wf (Shuffle vs ixs) = true).

Abbreviation e := (Shuffle vs ixs).
Abbreviation n := (Z.of_nat (List.length ixs)).

(** An attempt that ends the visit leads to the value of the shuffle. *)
Definition attempts (m : R (option Step)) : Prop :=
  framed m /\ forall s st s', m s = (Some st, s') -> view_wf (view s) -> step_typed e st /\
    forall ty env, sane_env env -> calm ty env s' -> known ty env (view s) -> everywhere ty env e ->
      everywhere ty env (step_expr st) -> forall i, lane_in (type_of e) i -> ev env i (step_expr st) = ev env i e.

Lemma attempts_none : attempts (done None).
Proof. split; [apply framed_done|]. discriminate. Qed.

Lemma attempts_void : attempts void.
Proof. split; [apply framed_fail|]. discriminate. Qed.

(** The lane that is picked. *)
Lemma shuffle_pick env i : lane_in (type_of e) i -> exists k, 0 <= k < total_lanes vs /\ ev env i e = pick env vs k.
Proof. intros L. eexists. split; [exact (shuffle_lane vs ixs i W L)|apply ev_shuffle]. Qed.

Lemma wf_vectors v l : vs = v :: l -> forallb wf vs = true /\
  Forall (fun u => element_of (type_of u) = element_of (type_of v)) vs /\ 1 <= n < lanes_limit /\
  type_of e = with_lanes (type_of v) n /\ wf_type (type_of e).
Proof.
  intros E. destruct (shuffle_vectors vs ixs W) as (v' & l' & E' & Wv & P & El & Vl & _). rewrite E in E'. injection E' as <- <-.
  split; [exact Wv|]. split.
  - apply Forall_forall. intros u U. rewrite forallb_forall in El. now apply type_eqb_eq, El.
  - assert (T : type_of e = with_lanes (type_of v) n) by (now rewrite E). split.
    + rewrite T in Vl. unfold valid_lanes, with_lanes in Vl. cbn [lanes] in Vl. zify_bool. lia.
    + split; [exact T|]. apply (wf_wf_type e W).
Qed.

Lemma pick_constant env x : forall us k, Forall (fun v => forall j, ev env j v = x) us -> 0 <= k < total_lanes us ->
  pick env us k = x.
Proof.
  induction us as [|u us IH]; intros k F R; [unfold total_lanes in R; cbn in R; lia|].
  apply Forall_cons_iff in F as [Fu F]. cbn [pick]. destruct (Z.ltb_spec k (lanes (type_of u))); [apply Fu|].
  apply IH; [exact F|]. unfold total_lanes in *. cbn [fold_right] in R. lia.
Qed.

Lemma same_broadcast_finds v1 v : wf v1 = true -> wf v = true -> is_scalar (type_of v1) = true ->
  element_of (type_of v) = type_of v1 ->
  finds (same_broadcast mutate v1 v) (fun ty env => forall j, ev env j v = ev env 0 v1).
Proof.
  intros W1 Wv S1 Te. destruct v as [| | | | | | | | | | | |v2 m| | |]; try apply never_finds. cbn [same_broadcast].
  assert (H : wf v2 = true /\ type_of v2 = type_of v1).
  { cbn [wf type_of] in Wv, Te. destr_and. split; [assumption|]. rewrite <- Te.
    unfold element_of, with_lanes, is_scalar in *. destruct (type_of v2). cbn in *. zify_bool. congruence. }
  destruct H as [W2 T2]. eapply finds_impl; [|apply zero_finds].
  - intros ty env [Es Z] j. specialize (Z 0 (scalar_has_lane _ 0 S1)). pose proof (everywhere_children _ _ _ Es) as C.
    apply Forall_two in C as [E1 E2]. cbn [ev].
    rewrite (everywhere_uniform ty env v2 j E2) by (now rewrite T2).
    assert (I1 : in_type (type_of v1) (ev env 0 v1)) by (apply fits_in_type, (everywhere_defined ty env v1 0 E1); now left).
    assert (I2 : in_type (type_of v1) (ev env 0 v2))
      by (rewrite <- T2; apply fits_in_type, (everywhere_defined ty env v2 0 E2); left; now rewrite T2).
    cbn [ev evbin] in Z. apply Z.eqb_eq in Z. rewrite norm_sub_zero in Z by (auto; now apply wf_wf_type).
    now apply Z.eqb_eq in Z.
  - now apply difference_wf.
Qed.

Lemma broadcast_attempts : attempts (try_broadcast mutate vs ixs).
Proof.
  unfold try_broadcast. case_eq vs; [intros _; apply attempts_none|intros v l Ev].
  destruct v as [| | | | | | | | | | | |v1 m| | |]; try apply attempts_none.
  destruct (wf_vectors _ _ Ev) as (Wv & El & Rn & Te & T). rewrite Ev in Wv, El. cbn [forallb wf] in Wv.
  apply andb_true_iff in Wv. destruct Wv as [W0 Wl]. destr_and. apply Forall_cons_iff in El as [_ El].
  change (type_of (Broadcast v1 m)) with (with_lanes (type_of v1) m) in *.
  assert (Ee : element_of (with_lanes (type_of v1) m) = type_of v1).
  { unfold element_of, with_lanes, is_scalar in *. destruct (type_of v1). cbn in *. zify_bool. congruence. }
  assert (F : finds (all_pass (same_broadcast mutate v1) l) (fun ty env => Forall (fun v => forall j, ev env j v = ev env 0 v1) l)).
  { apply (all_find (same_broadcast mutate v1) (fun v ty env => forall j, ev env j v = ev env 0 v1)).
    rewrite forallb_forall in Wl. rewrite Forall_forall in El |- *. intros u U. apply same_broadcast_finds; auto.
    rewrite <- Ee. now apply El. }
  destruct F as [Fr F]. split.
  - apply framed_bind; [exact Fr|]. intros b. apply framed_done.
  - intros s st s' E V. run_step E b s1 E1. destruct b; [|discriminate E]. injection E as <- <-.
    assert (Rs : wf (if Nat.eqb (List.length ixs) 1 then v1 else Broadcast v1 n) = true /\
      type_of (if Nat.eqb (List.length ixs) 1 then v1 else Broadcast v1 n) = type_of e /\
      forall env i, ev env i (if Nat.eqb (List.length ixs) 1 then v1 else Broadcast v1 n) = ev env i v1).
    { destruct (Nat.eqb_spec (List.length ixs) 1) as [L|L].
      - split; [assumption|]. split; [|reflexivity]. rewrite Te, L, <- Ee. reflexivity.
      - cbn [wf]. unfold vector_lanes. split; [|split; [now rewrite Te|reflexivity]]. zify_bool. intuition lia. }
    destruct Rs as (Wr & Tr & Vr). split; [now split|]. intros ty env N C K Es Er i Li. cbn [step_expr].
    destruct (shuffle_pick env i Li) as (k & Rk & ->). rewrite Vr. pose proof (everywhere_children _ _ _ Es) as Ch. cbn [children] in Ch.
    rewrite Ev in Ch. apply Forall_inv, everywhere_children, Forall_inv in Ch.
    rewrite (everywhere_uniform ty env v1 i Ch) by assumption. symmetry. apply pick_constant; [|exact Rk]. rewrite Ev. constructor.
    + intros j. cbn [ev]. now apply (everywhere_uniform ty).
    + exact (F s s1 E1 V ty env N C K).
Qed.

(** *** Interleaved vectors *)

Lemma interleave_lanes v l : vs = v :: l -> is_interleave vs ixs = true ->
  let L := lanes (type_of v) in let terms := Z.of_nat (List.length vs) in
  2 <= L /\ Forall (fun u => lanes (type_of u) = L) vs /\ n = L * terms /\ is_scalar (type_of e) = false /\
  forall env i, 0 <= i < n -> ev env i e = pick env vs (i mod terms * L + i / terms) /\ 0 <= i mod terms < terms /\ 0 <= i / terms < L.
Proof.
  intros Ev I L terms. destruct (wf_vectors v l Ev) as (Wv & _ & Rn & Te & _). unfold is_interleave in I. rewrite Ev in I at 1.
  cbv zeta in I. fold L in I. rewrite !andb_true_iff in I. destruct I as [[[N La] Ln] Ix].
  assert (Pl : 1 <= L).
  { rewrite Ev in Wv. cbn [forallb] in Wv. apply andb_true_iff in Wv. apply (wf_lanes v), Wv. }
  apply negb_true_iff, Z.eqb_neq in N. apply Z.eqb_eq in Ln. fold terms in Ln. assert (Pt : 1 <= terms) by (unfold terms; rewrite Ev; cbn [List.length]; lia).
  repeat match goal with |- _ /\ _ => split end.
  - lia.
  - apply Forall_forall. intros u U. rewrite forallb_forall in La. now apply Z.eqb_eq, La.
  - lia.
  - rewrite Te. unfold is_scalar, with_lanes. cbn [lanes]. apply Z.eqb_neq. nia.
  - intros env i R. pose proof (Z.mod_pos_bound i terms ltac:(lia)) as B. pose proof (Z.div_mod i terms ltac:(lia)) as D.
    assert (Q : 0 <= i / terms < L) by (split; [apply Z.div_pos; lia|apply Z.div_lt_upper_bound; lia]).
    split; [|split; [exact B|exact Q]]. rewrite ev_shuffle. f_equal.
    destruct (Nat.eqb_spec (List.length ixs) 1) as [O|_]; [nia|].
    rewrite forallb_forall in Ix. specialize (Ix (Z.to_nat (i mod terms))). rewrite in_seq in Ix.
    specialize (Ix ltac:(unfold terms in *; lia)). rewrite forallb_forall in Ix. specialize (Ix (Z.to_nat (i / terms))).
    rewrite in_seq in Ix. specialize (Ix ltac:(lia)). apply Z.eqb_eq in Ix. rewrite !Z2Nat.id in Ix by lia. rewrite <- Ix. f_equal.
    unfold terms in *. nia.
Qed.

Lemma in_range i : is_scalar (type_of e) = false -> lane_in (type_of e) i -> 0 <= i < n.
Proof.
  intros N [S|R]; [congruence|]. case_eq vs; [intros Ev; pose proof W as W0; rewrite Ev in W0; cbn in W0; destruct ixs; discriminate|].
  intros v l Ev. destruct (wf_vectors v l Ev) as (_ & _ & _ & Te & _). rewrite Te in R. exact R.
Qed.

Lemma interleaved_ramps_attempts : is_interleave vs ixs = true -> attempts (try_interleaved_ramps mutate vs).
Proof.
  intros I. unfold try_interleaved_ramps. case_eq vs; [intros _; apply attempts_none|intros v l Ev].
  destruct v as [| | | | | | | | | | |b s0 m| | | |]; try apply attempts_none.
  destruct (interleave_lanes _ l Ev I) as (PL & La & En & Sc & Pk). destruct (wf_vectors _ _ Ev) as (Wv & El & Rn & Te & T).
  rewrite <- Ev. set (terms := Z.of_nat (List.length vs)) in *. set (v := Ramp b s0 m) in *.
  assert (Pt : 1 <= terms) by (unfold terms; rewrite Ev; cbn [List.length]; lia).
  rewrite Ev in Wv, El, La. cbn [forallb] in Wv. apply andb_true_iff in Wv. destruct Wv as [W0 Wl].
  destruct (ramp_facts _ _ _ W0) as (Wb & Ws & Tv & Ts & Tb & Vr). fold v in Tv, Ts, Tb, Vr, Te, El, La, PL, En.
  apply Forall_cons_iff in La as [_ La]. apply Forall_cons_iff in El as [_ El].
  assert (Tl : Forall (fun u => wf u = true /\ type_of u = type_of v) l).
  { rewrite forallb_forall in Wl. rewrite Forall_forall in *. intros u U. split; [auto|].
    rewrite <- (with_lanes_eta (type_of u) (lanes (type_of v))) by (symmetry; now apply La). rewrite (El u U). now apply with_lanes_eta. }
  pose proof (neighbours_find (fun u => wf u = true /\ type_of u = type_of v) (fun u => wf u = true /\ type_of u = type_of v)
    (interleaved mutate terms s0) (fun v' u ty env => no_overflow_int (type_of s0) = true ->
      exists q, ev env 0 s0 = terms * q /\ apart env (type_of v) (lanes (type_of v)) q v' u) l) as F.
  assert (Fn : finds (neighbours_pass (interleaved mutate terms s0) v l) (fun ty env => chain (fun v' u =>
    no_overflow_int (type_of s0) = true -> exists q, ev env 0 s0 = terms * q /\ apart env (type_of v) (lanes (type_of v)) q v' u) v l)).
  { apply F; auto. intros v' u [Wv' Tv'] [Wu Tu]. split; [|auto]. now apply interleaved_finds. }
  clear F. destruct Fn as [Fr F]. split.
  - apply framed_bind; [exact Fr|]. intros [|]; [|apply framed_done]. apply framed_bind; [apply framed_note|]. intros _.
    destruct (int_const _ _); [apply framed_done|apply framed_fail].
  - intros s st s' E V. run_step E p s1 E1. destruct p; [|discriminate E]. run_step E u s2 E2. injection E2 as _ <-.
    destruct (int_const _ _) as [c|] eqn:Ec; [|discriminate E]. injection E as <- <-.
    destruct (int_const_spec _ _ _ (wf_wf_type s0 Ws) Ec) as (Wc & Tc & Vc & _).
    assert (Wd : wf (EBin Div s0 c) = true) by (cbn [wf]; now rewrite Ws, Wc, Tc, type_eqb_refl).
    split.
    + split; cbn [step_expr].
      * apply wf_ramp; auto; [now rewrite Tb, Ts|]. fold v in En. change m with (lanes (type_of v)). lia.
      * rewrite Te, En. reflexivity.
    + intros ty env N C K Es Er i Li. cbn [step_expr] in *. pose proof (in_range i Sc Li) as Ri.
      destruct (Pk env i Ri) as (-> & Rm & Rd).
      pose proof (everywhere_children _ _ _ Es) as Ch. cbn [children] in Ch. rewrite Ev in Ch. apply Forall_inv in Ch.
      destruct C as [Fs C]. cbn [snd note trace] in C. apply Forall_cons_iff in C as [No C]. cbn [event_ok] in No.
      specialize (F s s1 E1 V ty env N (conj Fs C) K). cbv beta in F.
      destruct (common_quotient env (type_of v) (lanes (type_of v)) s0 terms v l) as (q & Sq & Cq);
        [exact Pt|unfold terms; rewrite Ev; cbn [List.length]; clear; lia| |].
      { eapply chain_impl; [|exact F]. auto. }
      pose proof (everywhere_children _ _ _ Ch) as Cv. apply Forall_two in Cv as [Eb Es0].
      rewrite (div_ramp_value env i b s0 c terms q (m * terms) (ev env 0 b)); auto.
      * rewrite (norm_elt _ _ (same_elt_of_element _ _ Ts)). symmetry. rewrite Ev. unfold terms in *. rewrite Ev in *.
        apply (pick_interleaved env (type_of v) (proj1 Tv) (lanes (type_of v)) (ev env 0 s0)); auto.
        -- exact (Z.le_trans 1 2 _ ltac:(discriminate) PL).
        -- intros j _. now apply (Vr ty).
        -- now rewrite <- En.
      * apply (everywhere_uniform ty env b i Eb). now rewrite Tb, Ts.
      * rewrite <- Sq. apply (everywhere_uniform ty env s0 i Es0). now rewrite Ts.
      * clear - Pt. lia.
Qed.

(** *** Vectors end to end *)

Lemma framed_next_scalars stride us : forall v, framed (neighbours_pass (next_scalar mutate stride) v us).
Proof.
  induction us as [|u us IH]; intros v; [apply framed_done|]. cbn [neighbours_pass]. apply framed_bind.
  - unfold next_scalar. destruct (is_scalar _); [apply framed_zero|apply framed_done].
  - intros []; [apply IH|apply framed_done].
Qed.

Lemma concat_lane env i v l : vs = v :: l -> is_concat vs ixs = true -> lane_in (type_of e) i -> n = total_lanes vs /\
  exists k, 0 <= k < total_lanes vs /\ ev env i e = pick env vs k /\ (is_scalar (type_of e) = false -> k = i).
Proof.
  intros Ev C L. pose proof (concat_is vs ixs W C) as Ei. destruct (wf_vectors v l Ev) as (_ & _ & Rn & Te & _).
  assert (En : n = total_lanes vs) by (unfold is_concat in C; apply andb_true_iff in C; now apply Z.eqb_eq).
  split; [exact En|]. exists (if Nat.eqb (List.length ixs) 1 then 0 else i).
  assert (R : 0 <= (if Nat.eqb (List.length ixs) 1 then 0 else i) < total_lanes vs).
  { rewrite <- En. destruct (Nat.eqb_spec (List.length ixs) 1) as [O|O]; [lia|].
    rewrite Te in L. destruct L as [L|L]; [|exact L]. unfold is_scalar, with_lanes in L. cbn [lanes] in L. apply Z.eqb_eq in L. lia. }
  split; [exact R|]. split.
  - rewrite ev_shuffle. f_equal. rewrite Ei at 2. now apply nth_concat_indices.
  - intros N. destruct (Nat.eqb_spec (List.length ixs) 1) as [O|O]; [|reflexivity].
    rewrite Te in N. unfold is_scalar, with_lanes in N. cbn [lanes] in N. apply Z.eqb_neq in N. lia.
Qed.

Lemma concat_ramps_attempts : is_concat vs ixs = true -> attempts (try_concat_ramps mutate vs ixs).
Proof.
  intros I. unfold try_concat_ramps. case_eq vs; [intros _; apply attempts_none|intros v l Ev].
  destruct v as [| | | | | | | | | | |b s0 m| | | |]; try apply attempts_none.
  destruct (wf_vectors _ _ Ev) as (Wv & El & Rn & Te & T). set (v := Ramp b s0 m) in *.
  rewrite Ev in Wv, El. cbn [forallb] in Wv. apply andb_true_iff in Wv. destruct Wv as [W0 Wl].
  destruct (ramp_facts _ _ _ W0) as (Wb & Ws & Tv & Ts & Tb & Vr). fold v in Tv, Ts, Tb, Vr, Te, El.
  apply Forall_cons_iff in El as [_ El].
  assert (Fn : finds (neighbours_pass (continued mutate s0) v l) (fun ty env => chain (fun v' u =>
    apart env (type_of v) (lanes (type_of v)) (lanes (type_of v) * ev env 0 s0) v' u) v l)).
  { apply (neighbours_find (fun u => wf u = true /\ type_of u = type_of v) (fun u => wf u = true /\ element_of (type_of u) = element_of (type_of v))); auto.
    - intros v' u [Wv' Tv'] [Wu Tu].
      destruct (continued_finds (type_of v) Tv s0 Ws Ts v' u Wv' Wu Tv' Tu) as [Fi Ty]. split; [exact Fi|]. intros s s' E. split; [exact Wu|exact (Ty s s' E)].
    - rewrite forallb_forall in Wl. rewrite Forall_forall in *. auto. }
  destruct Fn as [Fr F]. split.
  - apply framed_bind; [exact Fr|]. intros p. apply framed_done.
  - intros s st s' E V. run_step E p s1 E1. destruct p; [|discriminate E]. injection E as <- <-.
    assert (Rv : 2 <= lanes (type_of v) < lanes_limit) by (now apply (ramp_lanes b s0)).
    assert (Rk : 2 <= n < lanes_limit).
    { pose proof (total_lanes_pos l Wl) as P. unfold is_concat in I. apply andb_true_iff in I. destruct I as [I _]. apply Z.eqb_eq in I.
      rewrite Ev in I. unfold total_lanes in *. cbn [fold_right] in I. clear - P I Rn Rv. fold v in I. lia. }
    assert (Sb : is_scalar (type_of b) = true) by (now rewrite Tb, Ts).
    split; [split; cbn [step_expr]; [now apply wf_ramp|exact (eq_sym Te)]|].
    intros ty env N C K Es Er i Li. cbn [step_expr] in *. destruct (concat_lane env i _ _ Ev I Li) as (En & k & Rk' & -> & Ki).
    assert (Sc : is_scalar (type_of e) = false) by (rewrite Te; unfold is_scalar, with_lanes; cbn [lanes]; apply Z.eqb_neq; clear - Rk; lia).
    rewrite (Ki Sc) in *. pose proof (everywhere_children _ _ _ Es) as Ch. cbn [children] in Ch. rewrite Ev in Ch. apply Forall_inv in Ch.
    rewrite Ev in Rk' |- *.
    rewrite (pick_end_to_end env (type_of v) (lanes (type_of v)) (ev env 0 s0) v l (ev env 0 b)); auto.
    + destruct (ramp_facts _ _ n (wf_ramp b s0 n Wb Ws (eq_sym Tb) Sb Rk)) as (_ & _ & _ & _ & _ & Vn).
      rewrite (Vn ty env Er). apply norm_elt. split; reflexivity.
    + apply Tv.
    + exact (Z.le_trans 1 2 _ ltac:(discriminate) (proj1 Rv)).
    + intros j _. now apply (Vr ty).
    + exact (F s s1 E1 V ty env N C K).
Qed.

Lemma scalar_value ty env u j : is_scalar (type_of u) = true -> everywhere ty env u -> ev env j u = ev env 0 u.
Proof. intros S E. now apply (everywhere_uniform ty). Qed.

Lemma concat_scalars_attempts : is_concat vs ixs = true -> attempts (try_concat_scalars mutate vs ixs).
Proof.
  intros I. unfold try_concat_scalars. case_eq vs; [intros _; apply attempts_none|intros v0 us Ev].
  destruct (is_scalar (type_of v0)) eqn:S0; [|apply attempts_none].
  case_eq us; [intros _; apply attempts_void|intros v1 l Eu]. destruct (is_scalar (type_of v1)) eqn:S1; [|apply attempts_none].
  rewrite <- Eu. destruct (wf_vectors _ _ Ev) as (Wv & El & Rn & Te & T).
  rewrite Ev in Wv, El. cbn [forallb] in Wv. apply andb_true_iff in Wv. destruct Wv as [W0 Wl].
  apply Forall_cons_iff in El as [_ El]. pose proof (wf_wf_type v0 W0) as T0.
  assert (Sc : forall u, In u us -> is_scalar (type_of u) = true -> type_of u = type_of v0).
  { intros u U Su. rewrite Forall_forall in El. specialize (El u U). unfold is_scalar, element_of, with_lanes in *.
    destruct (type_of u), (type_of v0). cbn in *. zify_bool. congruence. }
  assert (T1 : type_of v1 = type_of v0) by (apply Sc; [rewrite Eu; now left|exact S1]).
  assert (W1 : wf v1 = true) by (rewrite forallb_forall in Wl; apply Wl; rewrite Eu; now left).
  assert (Fn : forall stride, wf stride = true -> type_of stride = type_of v0 ->
    finds (neighbours_pass (next_scalar mutate stride) v0 us) (fun ty env => chain (fun v' u =>
    apart env (type_of v0) 1 (ev env 0 stride) v' u) v0 us)).
  { intros stride Ws Ts.
    assert (Ts' : type_of stride = element_of (type_of v0)) by (rewrite Ts; unfold is_scalar, element_of, with_lanes in *; destruct (type_of v0); cbn in *; zify_bool; congruence).
    apply (neighbours_find (fun u => wf u = true /\ type_of u = type_of v0) (fun u => wf u = true /\ element_of (type_of u) = element_of (type_of v0))); auto.
    - intros v' u [Wv' Tv'] [Wu Tu].
      destruct (next_scalar_finds (type_of v0) T0 stride Ws Ts' v' u S0 Wv' Wu Tv' Tu) as [Fi Ty]. split; [exact Fi|].
      intros s s' E. split; [exact Wu|exact (Ty s s' E)].
    - rewrite forallb_forall in Wl. rewrite Forall_forall in *. auto. }
  assert (Wd : wf (EBin Sub v1 v0) = true) by (now apply difference_wf).
  split.
  - apply framed_bind; [apply framed_new|]. intros stride. apply framed_bind; [apply framed_next_scalars|]. intros p. apply framed_done.
  - intros s st s' E V. run_step E stride s1 E1. run_step E p s2 E2. destruct p; [|discriminate E]. injection E as <- <-.
    destruct (new_spec _ _ _ _ E1 Wd V) as [F1 [Ws Ts] _]. change (type_of (EBin Sub v1 v0)) with (type_of v1) in Ts.
    assert (Ts' : type_of stride = type_of v0) by congruence. destruct (Fn stride Ws Ts') as [Fr F].
    assert (Rk : 2 <= n < lanes_limit).
    { assert (P : forallb wf l = true) by (rewrite Eu in Wl; cbn [forallb] in Wl; now apply andb_true_iff in Wl).
      apply total_lanes_pos in P. unfold is_concat in I. apply andb_true_iff in I. destruct I as [I _]. apply Z.eqb_eq in I.
      rewrite Ev, Eu in I. unfold total_lanes in *. cbn [fold_right] in I. pose proof (wf_lanes v0 W0). pose proof (wf_lanes v1 W1).
      clear - P I Rn H H0. lia. }
    split; [split; cbn [step_expr]; [now apply wf_ramp|exact (eq_sym Te)]|].
    intros ty env N C K Es Er i Li. cbn [step_expr] in *. destruct (concat_lane env i _ _ Ev I Li) as (En & k & Rk' & -> & Ki).
    assert (Nsc : is_scalar (type_of e) = false) by (rewrite Te; unfold is_scalar, with_lanes; cbn [lanes]; apply Z.eqb_neq; clear - Rk; lia).
    rewrite (Ki Nsc) in *. pose proof (everywhere_children _ _ _ Es) as Ch. cbn [children] in Ch. rewrite Ev in Ch. apply Forall_inv in Ch.
    assert (L0 : lanes (type_of v0) = 1) by (now apply Z.eqb_eq).
    rewrite Ev in Rk' |- *.
    rewrite (pick_end_to_end env (type_of v0) 1 (ev env 0 stride) v0 us (ev env 0 v0)); auto.
    + destruct (ramp_facts _ _ n (wf_ramp v0 stride n W0 Ws Ts' S0 Rk)) as (_ & _ & _ & _ & _ & Vn).
      rewrite (Vn ty env Er). apply norm_elt. split; reflexivity.
    + apply T0.
    + clear. lia.
    + intros j J. replace j with 0 by (clear - J; lia). rewrite Z.mul_0_l, Z.add_0_r. symmetry. apply norm_in; [exact T0|].
      apply fits_in_type, (everywhere_defined ty env v0 0 Ch). now left.
    + replace (1 * ev env 0 stride) with (ev env 0 stride) by ring.
      exact (F s1 s2 E2 (view_wf_kept _ _ F1 V) ty env N C (known_kept ty env _ _ F1 V K)).
Qed.

(** *** Slices of the same vectors *)

Lemma slice_at_spec begin stride u us : slice_at begin stride u = Some us -> exists js, u = Shuffle us js /\
  forall k, (k < List.length js)%nat -> nth k js 0 = begin + Z.of_nat k * stride.
Proof.
  unfold slice_at. destruct u as [| | | | | | | | | | | | | | |us' js]; try discriminate. destruct (_ && _) eqn:H; [|discriminate].
  intros [= ->]. apply andb_true_iff in H. destruct H as [H S]. apply andb_true_iff in H. destruct H as [Sl B].
  apply Z.eqb_eq in S, B. exists js. split; [reflexivity|]. unfold is_slice in Sl. apply andb_true_iff in Sl. destruct Sl as [_ R].
  rewrite S in R. clear - R B. revert begin B. induction js as [|j js IH]; intros begin B k Lk; [cbn in Lk; lia|].
  cbn [hd] in B. subst j. destruct k as [|k]; [cbn; lia|]. cbn [List.length] in Lk. cbn [nth]. destruct js as [|j js]; [cbn in Lk; lia|].
  cbn [is_ramp] in R. apply andb_true_iff in R. destruct R as [E R]. apply Z.eqb_eq in E.
  rewrite (IH R (begin + stride) E k) by lia. lia.
Qed.

Lemma slices_from_spec first terms : forall us i0, slices_from first i0 terms us = true -> forall i u, nth_error us i = Some u ->
  exists us' js, u = Shuffle us' js /\ (i0 + Z.of_nat i = 0 \/ Forall2 same_value first us') /\
    forall k, (k < List.length js)%nat -> nth k js 0 = i0 + Z.of_nat i + Z.of_nat k * terms.
Proof.
  induction us as [|u us IH]; intros i0 H [|i] w N; cbn [nth_error] in N; try discriminate; cbn [slices_from] in H;
    destruct (slice_at i0 terms u) as [us'|] eqn:S; try discriminate; apply andb_true_iff in H; destruct H as [Q H].
  - injection N as <-. destruct (slice_at_spec _ _ _ _ S) as (js & -> & J). exists us', js. split; [reflexivity|].
    split; [|intros k Lk; rewrite J by exact Lk; lia]. apply orb_true_iff in Q. destruct Q as [Q|Q]; [left; apply Z.eqb_eq in Q; lia|right].
    apply list_eqb_Forall2 in Q. clear - Q. induction Q; constructor; auto. now apply equal_sound.
  - destruct (IH _ H i w N) as (us1 & js & -> & Q1 & J). exists us1, js. split; [reflexivity|]. split.
    + destruct Q1 as [Q1|Q1]; [left; lia|now right].
    + intros k Lk. rewrite J by exact Lk. lia.
Qed.

Lemma shuffle_lanes us js : wf (Shuffle us js) = true -> lanes (type_of (Shuffle us js)) = Z.of_nat (List.length js).
Proof. intros Ws. destruct us as [|u us]; [destruct js; discriminate Ws|reflexivity]. Qed.

Lemma interleaved_slices_attempts : is_interleave vs ixs = true -> attempts (try_interleaved_slices vs ixs).
Proof.
  intros I. unfold try_interleaved_slices. case_eq vs; [intros _; apply attempts_none|intros v l Ev].
  destruct v as [| | | | | | | | | | | | | | |us js]; try apply attempts_none.
  destruct (_ && _) eqn:H; [|apply attempts_none]. apply andb_true_iff in H. destruct H as [_ Sl].
  destruct (Z.eqb_spec (total_lanes us) n) as [En|En]; [|apply attempts_void]. rewrite <- Ev in Sl.
  destruct (interleave_lanes _ l Ev I) as (PL & La & Ln & Sc & Pk). destruct (wf_vectors _ _ Ev) as (Wv & El & Rn & Te & T).
  split; [apply framed_done|]. intros s st s' E V. injection E as <- <-.
  set (L := lanes (type_of (Shuffle us js))) in *. set (terms := Z.of_nat (List.length vs)) in *.
  assert (Wu : wf (Shuffle us js) = true) by (rewrite Ev in Wv; cbn [forallb] in Wv; now apply andb_true_iff in Wv).
  destruct (shuffle_vectors us js Wu) as (u & l' & Eu & Wus & _). destruct (concat_type us js Wu) as [_ Tc]. specialize (Tc u l' Eu).
  split.
  - split; cbn [step_expr]; [apply (concat_wf us js Wu); rewrite En; apply Rn|].
    rewrite Te, Tc, En, Eu. reflexivity.
  - intros ty env N C K Es Er i Li. cbn [step_expr]. pose proof (in_range i Sc Li) as Ri. destruct (Pk env i Ri) as (-> & Rm & Rd).
    rewrite (concat_value us js Wu env i) by (now rewrite En).
    destruct (nth_error vs (Z.to_nat (i mod terms))) as [w|] eqn:Nw.
    2:{ apply nth_error_None in Nw. exfalso. clear - Nw Rm. unfold terms in *. lia. }
    rewrite <- (Z2Nat.id (i mod terms)) at 1 by apply Rm.
    rewrite (pick_nth env L vs _ w (i / terms) La Rd Nw).
    destruct (slices_from_spec us terms vs 0 Sl _ w Nw) as (us' & js' & Ew & Q & J). rewrite Z2Nat.id in Q, J by apply Rm.
    assert (Ww : wf (Shuffle us' js') = true).
    { rewrite <- Ew. rewrite forallb_forall in Wv. apply Wv. now apply nth_error_In in Nw. }
    assert (Lw : Z.of_nat (List.length js') = L).
    { rewrite <- (shuffle_lanes us' js' Ww), <- Ew. rewrite Forall_forall in La. apply La. now apply nth_error_In in Nw. }
    rewrite Ew, ev_shuffle. destruct (Nat.eqb_spec (List.length js') 1) as [O|_]; [exfalso; clear - O Lw PL; rewrite O in Lw; lia|].
    rewrite J by (clear - Lw Rd; lia). rewrite Z2Nat.id by apply Rd.
    replace (0 + i mod terms + i / terms * terms) with i.
    + destruct Q as [Q|Q]; [|now apply pick_same].
      assert (Z0 : Z.to_nat (i mod terms) = 0%nat) by (clear - Q; lia). rewrite Z0, Ev in Nw. cbn [nth_error] in Nw. congruence.
    + pose proof (Z.div_mod i terms) as D. rewrite D at 1; [ring|]. clear - Rm. lia.
Qed.

(** *** Loads from one buffer *)

Lemma loads_spec name : forall us ps xs, loads_of name us = Some (ps, xs) ->
  Forall2 (fun u q => exists t al, u = Load t name (fst q) (snd q) al) us (combine ps xs) /\
  List.length ps = List.length us /\ List.length xs = List.length us.
Proof.
  induction us as [|u us IH]; intros ps xs H; cbn [loads_of] in H; [injection H as <- <-; repeat split; constructor|].
  destruct u as [| | | | | | | | | |t m p x al| | | | |]; try discriminate. destruct (String.eqb_spec m name) as [->|]; [|discriminate].
  destruct (loads_of name us) as [[ps' xs']|]; [|discriminate]. injection H as <- <-. destruct (IH _ _ eq_refl) as (F & Lp & Lx).
  split; [|cbn [List.length]; now rewrite Lp, Lx]. cbn [combine]. constructor; [|exact F]. cbn. eauto.
Qed.

(** The shuffle of other vectors with as many lanes. *)
Lemma shuffle_of us : forallb wf us = true -> same_elements us = true -> total_lanes us = total_lanes vs ->
  wf (Shuffle us ixs) = true /\ lanes (type_of (Shuffle us ixs)) = n.
Proof.
  intros Wu S T. destruct us as [|u l]; [discriminate S|]. split; [|reflexivity].
  destruct (shuffle_vectors vs ixs W) as (v & l' & Ev & _ & _ & _ & Vl & Ix). cbn [wf]. rewrite Wu.
  unfold same_elements in S. rewrite S. cbn [andb]. fold (total_lanes (u :: l)). rewrite T, Ix.
  destruct (wf_vectors v l' Ev) as (_ & _ & R & Te & _). rewrite andb_true_r. unfold valid_lanes, type_of, with_lanes. cbn [lanes].
  clear - R. zify_bool. lia.
Qed.

Lemma loads_pick env name t : forall us qs,
  Forall2 (fun u q => exists t al, u = Load t name (fst q) (snd q) al) us qs ->
  Forall (fun u => wf u = true /\ element_of (type_of u) = element_of t) us ->
  forallb wf (map fst qs) = true /\ forallb wf (map snd qs) = true /\
  total_lanes (map fst qs) = total_lanes us /\ total_lanes (map snd qs) = total_lanes us /\
  forall k, 0 <= k < total_lanes us -> pick env us k = cast_val t (mem env name (pick env (map snd qs) k)).
Proof.
  induction 1 as [|u [p x] us qs (t0 & al & ->) F IH]; intros H.
  - repeat split. intros k R. unfold total_lanes in R. cbn in R. clear - R. lia.
  - apply Forall_cons_iff in H as [[Wu Eu] H]. destruct (IH H) as (Wp & Wx & Lp & Lx & V). cbn [map fst snd forallb] in *.
    destruct (wf_load _ _ _ _ _ Wu) as (Wp0 & Wx0 & Li & Lpr). rewrite Wp, Wx, Wp0, Wx0.
    unfold total_lanes in *. cbn [fold_right type_of pick] in *. rewrite Lp, Lx.
    repeat match goal with |- _ /\ _ => split end; auto; try (f_equal; congruence).
    intros k R. rewrite <- Li. destruct (Z.ltb_spec k (lanes t0)).
    + cbn [ev]. apply cast_val_elt. unfold element_of, with_lanes in Eu. injection Eu as C B. now split.
    + apply V. clear - R H0. lia.
Qed.

Lemma combine_maps {A B} (l1 : list A) : forall l2 : list B, List.length l1 = List.length l2 ->
  map fst (combine l1 l2) = l1 /\ map snd (combine l1 l2) = l2.
Proof.
  induction l1 as [|a l1 IH]; intros [|b l2] L; try discriminate L; [now split|]. cbn [List.length] in L.
  destruct (IH l2 (eq_add_S _ _ L)) as [E1 E2]. cbn [combine map fst snd]. now rewrite E1, E2.
Qed.

Definition load_predicate (ps : list Expr) : R Expr :=
  if forallb is_one ps then done (const_true n)
  else if same_elements ps then mutate_new mutate (Shuffle ps ixs) else fail (const_true n).

Lemma load_predicate_spec ps s p s' v l : vs = v :: l -> load_predicate ps s = (p, s') -> forallb wf ps = true ->
  total_lanes ps = total_lanes vs -> view_wf (view s) ->
  frame s s' /\ wf p = true /\ lanes (type_of p) = n.
Proof.
  intros Ev E Wp Lp V. destruct (wf_vectors v l Ev) as (_ & _ & Rn & _).
  assert (Tc : wf (const_true n) = true /\ lanes (type_of (const_true n)) = n).
  { destruct (make_const_spec (BoolT n) 1) as [Wc Tc _ _ _].
    - split; [reflexivity|]. unfold valid_lanes, BoolT, UInt. cbn [lanes]. clear - Rn. zify_bool. lia.
    - split; [exact Wc|]. unfold const_true. now rewrite Tc. }
  unfold load_predicate in E. destruct (forallb is_one ps); [injection E as <- <-; split; [apply frame_refl|exact Tc]|].
  destruct (same_elements ps) eqn:Sp.
  - destruct (shuffle_of ps Wp Sp Lp) as [Ws Ls]. destruct (new_spec _ _ _ _ E Ws V) as [F [Wr Tr] _].
    split; [exact F|]. split; [exact Wr|]. now rewrite Tr.
  - injection E as <- <-. split; [now apply (framed_fail tt s tt)|exact Tc].
Qed.

Lemma framed_load_predicate ps : framed (load_predicate ps).
Proof.
  unfold load_predicate. destruct (forallb is_one ps); [apply framed_done|].
  destruct (same_elements ps); [apply framed_new|apply framed_fail].
Qed.

Lemma load_attempts : attempts (try_load mutate vs ixs).
Proof.
  unfold try_load. case_eq vs; [intros _; apply attempts_none|intros v l Ev].
  destruct v as [| | | | | | | | | |t name p0 x0 al0| | | | |]; try apply attempts_none. rewrite <- Ev.
  destruct (loads_of name vs) as [[ps xs]|] eqn:Lo; [|apply attempts_none].
  destruct (same_elements xs) eqn:Sx; [|apply attempts_void].
  destruct (loads_spec _ _ _ _ Lo) as (F2 & Lp & Lx). destruct (wf_vectors _ _ Ev) as (Wv & El & Rn & Te & T).
  assert (Pk : forall env, _) by (intros env; refine (loads_pick env name t vs _ F2 _);
    rewrite forallb_forall in Wv; rewrite Forall_forall in *; auto).
  destruct (combine_maps ps xs ltac:(congruence)) as [-> ->] in Pk.
  destruct (Pk sample_env) as (Wp & Wx & Tp & Tx & _). destruct (shuffle_of xs Wx Sx Tx) as [Ws Ls]. split.
  - apply framed_bind; [apply framed_new_info|]. intros [x X]. destruct x as [| | | | | | | | | | |b s0 m| | | |]; try apply framed_done.
    apply framed_bind; [now apply framed_info|]. intros [b' B]. apply framed_bind; [apply framed_load_predicate|].
    intros p. apply framed_done.
  - intros s st s' E V. run_step E q s1 E1. destruct q as [x X]. destruct (new_info_spec _ _ _ _ _ E1 Ws V) as [F1 P1 S1].
    destruct x as [| | | | | | | | | | |b s0 m| | | |]; try discriminate E. set (x := Ramp b s0 m) in *.
    run_step E q s2 E2. destruct q as [b' B]. run_step E p s3 E3. injection E as <- <-.
    pose proof (framed_info mutate Mu _ _ _ _ E2) as F12. pose proof (frame_trans _ _ _ F1 F12) as F3.
    destruct (load_predicate_spec ps s2 p s3 _ _ Ev E3 Wp Tp (view_wf_kept _ _ F3 V)) as (F4 & Wr & Lr).
    destruct P1 as [Wx1 Tx1]. split.
    + split; cbn [step_expr].
      * cbn [wf]. rewrite Wx1, Wr, Tx1, Ls, Lr. cbn [lanes with_lanes]. rewrite Z.eqb_refl. destruct T as [I Vl]. rewrite Te in I, Vl.
        change (type_of (Load t name p0 x0 al0)) with t in I, Vl. now rewrite I, Vl.
      * exact (eq_sym Te).
    + intros ty env N C K Es Er i Li. cbn [step_expr].
      destruct (S1 ty env N (calm_back ty env _ _ (frame_trans _ _ _ F12 F4) C) K) as [Ex [_ Vx]].
      assert (Lx' : lane_in (type_of (Shuffle xs ixs)) i).
      { destruct Li as [Li|Li]; [left|right]; [|rewrite Ls; rewrite Te in Li; exact Li].
        unfold is_scalar in *. rewrite Ls. rewrite Te in Li. exact Li. }
      transitivity (cast_val (with_lanes t n) (mem env name (ev env i x))); [reflexivity|]. rewrite (Vx i Lx'). change (type_of (Load t name p0 x0 al0)) with t in Te.
      rewrite !ev_shuffle. destruct (Pk env) as (_ & _ & _ & _ & ->);
        [apply cast_val_elt; split; reflexivity|exact (shuffle_lane vs ixs i W Li)].
Qed.

(** *** All of them *)

Definition ends (m : R Step) : Prop :=
  framed m /\ forall s st s', m s = (st, s') -> view_wf (view s) -> step_typed e st /\
    forall ty env, sane_env env -> calm ty env s' -> known ty env (view s) -> everywhere ty env e ->
      everywhere ty env (step_expr st) -> forall i, lane_in (type_of e) i -> ev env i (step_expr st) = ev env i e.

Lemma attempt_ends m k : attempts m -> ends k -> ends (attempt m k).
Proof.
  intros [Fm Hm] [Fk Hk]. unfold attempt. split.
  - apply framed_bind; [exact Fm|]. intros [st|]; [apply framed_done|exact Fk].
  - intros s st s' E V. run_step E o s1 E1. destruct o as [st1|].
    + injection E as -> <-. now apply (Hm s).
    + pose proof (Fm _ _ _ E1) as F1. destruct (Hk s1 st s' E (view_wf_kept _ _ F1 V)) as [T S]. split; [exact T|].
      intros ty env N C K. apply S; auto. exact (known_kept ty env _ _ F1 V K).
Qed.

Lemma shuffle_step_ends : ends (shuffle_step mutate vs ixs).
Proof.
  assert (Again : ends (done (Kept (Shuffle vs ixs)))).
  { split; [apply framed_done|]. intros s st s' E V. injection E as <- <-. split; [now split|reflexivity]. }
  unfold shuffle_step. apply attempt_ends; [apply load_attempts|]. apply attempt_ends; [apply broadcast_attempts|].
  destruct (is_interleave vs ixs) eqn:I.
  - apply attempt_ends; [now apply interleaved_ramps_attempts|]. apply attempt_ends; [now apply interleaved_slices_attempts|exact Again].
  - destruct (is_concat vs ixs) eqn:C; [|exact Again].
    apply attempt_ends; [now apply concat_ramps_attempts|]. apply attempt_ends; [now apply concat_scalars_attempts|exact Again].
Qed.
End Attempts.

(** ** The vectors *)

Lemma pick_some env : forall vs k, 0 <= k < total_lanes vs ->
  exists u j, In u vs /\ 0 <= j < lanes (type_of u) /\ pick env vs k = ev env j u.
Proof.
  unfold total_lanes. induction vs as [|v vs IH]; intros k R; cbn [fold_right pick] in *; [lia|].
  destruct (Z.ltb_spec k (lanes (type_of v))).
  - exists v, k. split; [now left|]. split; [lia|reflexivity].
  - destruct (IH (k - lanes (type_of v))) as (u & j & U & J & P); [lia|]. exists u, j. split; [now right|]. now split.
Qed.

Definition holds_of (b : option ExprInfo) (v : Z) : Prop := match b with Some x => info_holds x v | None => True end.

Lemma shuffled_hold x V v : unify_safe (info_alignment x) (info_alignment V) -> info_holds x v \/ info_holds V v ->
  info_holds (shuffled_bounds x V) v.
Proof.
  intros U H. split; cbn [shuffled_bounds info_min info_max min_defined max_defined info_alignment].
  - intros D. apply andb_true_iff in D. destruct D as [D1 D2].
    destruct H as [[H _ _]|[H _ _]]; [specialize (H D1)|specialize (H D2)]; lia.
  - intros D. apply andb_true_iff in D. destruct D as [D1 D2].
    destruct H as [[_ H _]|[_ H _]]; [specialize (H D1)|specialize (H D2)]; lia.
  - apply unify_sound; [exact U|]. destruct H as [[_ _ H]|[_ _ H]]; auto.
Qed.

Record vectors (first : bool) (vs vs' : list Expr) (b b' : option ExprInfo) (s s' : Run) : Prop := {
  vec_frame : frame s s';
  vec_in_place : Forall2 in_place vs vs';
  vec_sound : forall ty env, sane_env env -> calm ty env s' -> known ty env (view s) -> Forall (everywhere ty env) vs ->
    Forall2 (good ty env) vs vs' /\
    (forall v, first = false -> holds_of b v -> holds_of b' v) /\
    Forall (fun u => forall j, lane_in (type_of u) j -> holds_of b' (ev env j u)) vs
}.

Lemma framed_vectors vs : forall first b, framed (mutate_vectors mutate first vs b).
Proof.
  induction vs as [|v vs IH]; intros first b; [apply framed_done|]. cbn [mutate_vectors].
  apply framed_bind; [now apply framed_info|]. intros [v' V]. apply framed_bind.
  - destruct b; [|apply framed_done]. destruct first; [apply framed_done|]. apply framed_bind; [apply framed_note|]. intros. apply framed_done.
  - intros b'. apply framed_bind; [apply IH|]. intros [vs' b'']. apply framed_done.
Qed.

Lemma vectors_spec vs : forall first b s vs' b' s', mutate_vectors mutate first vs b s = ((vs', b'), s') ->
  forallb wf vs = true -> view_wf (view s) -> vectors first vs vs' b b' s s'.
Proof.
  induction vs as [|v vs IH]; intros first b s vs' b' s' E W V; cbn [mutate_vectors] in E.
  - injection E as <- <- <-. split; [apply frame_refl|constructor|]. intros. repeat split; auto.
  - run_step E q s1 E1. destruct q as [v' A]. run_step E b1 s2 E2. run_step E q s3 E3. destruct q as [l b2]. injection E as <- <- <-.
    cbn [forallb] in W. apply andb_true_iff in W. destruct W as [Wv W].
    pose proof (info_operand mutate Mu _ _ _ _ _ E1 Wv V) as O. pose proof (op_frame _ _ _ _ _ O) as F1.
    assert (F2 : frame s1 s2 /\ forall ty env v, calm ty env s2 ->
      (info_holds A v \/ first = false /\ holds_of b v) -> holds_of b1 v).
    { destruct b as [x|]; [|injection E2 as <- <-; split; [apply frame_refl|now intros]]. destruct first.
      - injection E2 as <- <-. split; [apply frame_refl|]. intros ty env u _ [H|[H _]]; [exact H|discriminate H].
      - run_step E2 w s4 E4. injection E4 as _ <-. injection E2 as <- <-. split; [exact (noted _ s1)|].
        intros ty env u [_ C] H. cbn in C. apply Forall_inv in C. cbn [event_ok combination_ok] in C.
        apply shuffled_hold; [exact C|]. destruct H as [H|[_ H]]; auto. }
    destruct F2 as [F2 H2]. pose proof (frame_trans _ _ _ F1 F2) as F12.
    destruct (IH false b1 s2 l b2 s3 E3 W (view_wf_kept _ _ F12 V)) as [F3 P S]. split.
    + exact (frame_trans _ _ _ F12 F3).
    + constructor; [exact (operand_in_place _ _ _ _ _ O)|exact P].
    + intros ty env N C K Ev. apply Forall_cons_iff in Ev as [Ea Er].
      pose proof (calm_back ty env _ _ F3 C) as C2. pose proof (calm_back ty env _ _ F2 C2) as C1.
      destruct (S ty env N C (known_kept ty env _ _ F12 V K) Er) as (G & Kp & H).
      destruct (op_sound _ _ _ _ _ O ty env N C1 K Ea) as [Ga Ha]. split; [now constructor|]. split.
      * intros u Fst Hu. apply Kp; [reflexivity|]. apply (H2 ty env u C2). now right.
      * constructor; [|exact H]. intros j J. apply Kp; [reflexivity|]. apply (H2 ty env _ C2). left. now apply Ha.
Qed.

(** ** The visit *)

Lemma first_lane env i v l k : k < lanes (type_of v) -> ev env i (Shuffle (v :: l) [k]) = ev env k v.
Proof.
  intros L. rewrite ev_shuffle. transitivity (pick env (v :: l) k); [reflexivity|]. cbn [pick].
  now rewrite (proj2 (Z.ltb_lt _ _) L).
Qed.

Lemma extracted_spec vs ixs k m r : extracted vs ixs = Some (k, m, Some r) -> wf (Shuffle vs ixs) = true ->
  in_place (Shuffle vs ixs) r /\ forall ty env, everywhere ty env (Shuffle vs ixs) -> k < m ->
    forall i, ev env i r = ev env i (Shuffle vs ixs).
Proof.
  intros X W. unfold extracted in X. destruct vs as [|v l] eqn:Ev; [discriminate|].
  destruct (wf_vectors (v :: l) ixs W v l eq_refl) as (Wv & El & Rn & Te & T). cbn [forallb] in Wv. apply andb_true_iff in Wv.
  destruct Wv as [Wv _]. destruct (shuffle_vectors _ _ W) as (_ & _ & _ & _ & _ & _ & _ & Ix).
  destruct v as [| | | | | | | | | | |b s0 n|b n| | |]; try discriminate X; destruct ixs as [|k0 [|]]; try discriminate X.
  - destruct (int_const _ _) as [c|] eqn:Ec; [|discriminate X]. injection X as -> -> <-.
    destruct (ramp_facts _ _ _ Wv) as (Wb & Ws & Tv & Ts & Tb & Vr).
    destruct (int_const_spec _ _ _ (wf_wf_type s0 Ws) Ec) as (Wc & Tc & Vc & _). split.
    + split; [cbn [wf type_of]; now rewrite Wb, Ws, Wc, Tc, Tb, !type_eqb_refl|].
      rewrite Te. cbn [type_of]. rewrite Tb, Ts. reflexivity.
    + intros ty env E L i. pose proof (Forall_inv (everywhere_children _ _ _ E)) as Er.
      pose proof (everywhere_children _ _ _ Er) as C. apply Forall_two in C as [Eb Es].
      rewrite first_lane by exact L. rewrite (Vr ty env Er). cbn [ev evbin type_of].
      rewrite (everywhere_uniform ty env b i Eb), (everywhere_uniform ty env s0 i Es), Vc, Tc, Tb by (rewrite ?Tb, Ts; reflexivity).
      rewrite norm_add_r by (apply (wf_wf_type s0 Ws)). rewrite Ts. apply norm_elt, same_elt_element.
  - injection X as -> -> <-. cbn [wf] in Wv. destr_and. split.
    + split; [assumption|]. rewrite Te. cbn [type_of]. unfold is_scalar, with_lanes in *. destruct (type_of b). cbn in *. zify_bool. now f_equal.
    + intros ty env E L i. pose proof (Forall_inv (everywhere_children _ _ _ E)) as Er.
      pose proof (Forall_inv (everywhere_children _ _ _ Er)) as Eb.
      rewrite first_lane by exact L. cbn [ev]. rewrite (everywhere_uniform ty env b i Eb), (everywhere_uniform ty env b k Eb) by assumption.
      reflexivity.
Qed.

(** The end of the visit. *)
Lemma close_shuffle e e0 st b b0 b' s s0 s1 s' r : finish mutate e [] st b0 s1 = ((r, b'), s') -> view_wf (view s) ->
  frame s s0 -> frame s0 s1 -> in_place e e0 -> step_typed e0 st ->
  (forall ty env, sane_env env -> calm ty env s1 -> known ty env (view s) -> everywhere ty env e -> bounds_hold env e b ->
    bounds_hold env e b0 /\ (everywhere ty env (step_expr st) -> forall i, lane_in (type_of e) i ->
      ev env i (step_expr st) = ev env i e)) ->
  delivered e b s r b' s'.
Proof.
  intros E V F0 F1 [W0 T0] [Wt Tt] H. pose proof (framed_finish mutate Mu _ _ _ _ _ _ _ E) as F2.
  pose proof (frame_trans _ _ _ F0 F1) as F01.
  destruct (finish_finished mutate Mu _ _ _ _ _ _ _ _ E (conj Wt (eq_trans Tt T0)) (view_wf_kept _ _ F01 V)) as [Wr Tr S].
  split; [now split|]. intros ty env N C Kn Ev B.
  destruct (H ty env N (calm_back ty env _ _ F2 C) Kn Ev B) as [B0 Va].
  apply S; auto; [exact (known_kept ty env _ _ F01 V Kn)|]. intros Es i L _. split.
  - apply (everywhere_defined ty env _ i Es). now rewrite Tt, T0.
  - now apply Va.
Qed.

Lemma bounds_of_vectors vs ixs env b : wf (Shuffle vs ixs) = true ->
  Forall (fun u => forall j, lane_in (type_of u) j -> holds_of b (ev env j u)) vs -> bounds_hold env (Shuffle vs ixs) b.
Proof.
  intros W H. destruct b as [x|]; [|exact I]. intros i L. destruct (shuffle_pick vs ixs W env i L) as (k & Rk & ->).
  destruct (pick_some env vs k Rk) as (u & j & U & J & ->). rewrite Forall_forall in H. apply (H u U j). now right.
Qed.

Lemma visit_shuffle_delivered vs ixs bounds s r b' s' : visit_shuffle mutate vs ixs bounds s = ((r, b'), s') ->
  wf (Shuffle vs ixs) = true -> view_wf (view s) -> delivered (Shuffle vs ixs) bounds s r b' s'.
Proof.
  intros E W V. unfold visit_shuffle in E. destruct (extracted vs ixs) as [[[k m] [x|]]|] eqn:X.
  - destruct (extracted_spec _ _ _ _ _ X W) as [P Va]. run_step E u s1 E1. injection E1 as _ <-.
    eapply (close_shuffle (Shuffle vs ixs) (Shuffle vs ixs));
      [exact E|exact V|apply frame_refl|exact (noted _ s)|now split|exact P|].
    intros ty env N [_ C] K Ev B. split; [exact B|]. cbn in C. apply Forall_inv in C. intros _ i _. now apply (Va ty).
  - injection E as <- <- <-. now apply fail_delivered.
  - run_step E q s1 E1. destruct q as [vs' b1]. run_step E st s2 E2.
    assert (Wv : forallb wf vs = true) by (cbn [wf] in W; now apply andb_true_iff in W).
    destruct (vectors_spec _ _ _ _ _ _ _ E1 Wv V) as [F1 P S]. pose proof (rewf_shuffle _ _ _ W P) as Pl.
    destruct (shuffle_step_ends vs' ixs (proj1 Pl)) as [F2 H2].
    destruct (H2 _ _ _ E2 (view_wf_kept _ _ F1 V)) as [T H3].
    eapply (close_shuffle (Shuffle vs ixs) (Shuffle vs' ixs)); [exact E|exact V|exact F1|exact (F2 _ _ _ E2)|exact Pl|exact T|].
    intros ty env N C K Ev B. pose proof (calm_back ty env _ _ (F2 _ _ _ E2) C) as C1.
    destruct (S ty env N C1 K (everywhere_children _ _ _ Ev)) as (G & _ & Hb).
    pose proof (good_shuffle ty env _ _ _ W Ev P G) as [Ev' Va]. split; [now apply bounds_of_vectors|].
    intros Es i L. rewrite <- Va by exact L. apply (H3 ty env); auto; [exact (known_kept ty env _ _ F1 V K)|].
    now rewrite (proj2 Pl).
Qed.

Lemma framed_checks f vs : (forall v u, framed (f v u)) -> forall v, framed (neighbours_pass f v vs).
Proof.
  intros H. induction vs as [|u us IH]; intros v; [apply framed_done|]. cbn [neighbours_pass]. apply framed_bind; [apply H|].
  intros []; [apply IH|apply framed_done].
Qed.

Lemma framed_alls f vs : (forall v, framed (f v)) -> framed (all_pass f vs).
Proof.
  intros H. induction vs as [|u us IH]; [apply framed_done|]. cbn [all_pass]. apply framed_bind; [apply H|].
  intros []; [apply IH|apply framed_done].
Qed.

Lemma framed_attempt m k : framed m -> framed k -> framed (attempt m k).
Proof. intros Hm Hk. apply framed_bind; [exact Hm|]. intros [st|]; [apply framed_done|exact Hk]. Qed.

(** Whatever the vectors are. *)
Lemma framed_shuffle_step vs ixs : framed (shuffle_step mutate vs ixs).
Proof.
  assert (Again : framed (done (Kept (Shuffle vs ixs)))) by apply framed_done.
  unfold shuffle_step. repeat first [apply framed_attempt | case_goal]; try exact Again.
  - unfold try_load. repeat first [apply framed_done | apply framed_fail | apply framed_new | apply framed_new_info
      | apply framed_info; exact Mu | apply framed_bind; [|intros ?] | case_goal].
  - unfold try_broadcast, same_broadcast. repeat first [apply framed_done | apply framed_zero
      | apply framed_alls; intros ? | apply framed_bind; [|intros ?] | case_goal].
  - unfold try_interleaved_ramps. repeat first [apply framed_done | apply framed_fail | apply framed_note
      | apply framed_checks; intros ? ?; apply framed_interleaved | apply framed_bind; [|intros ?] | case_goal].
  - unfold try_interleaved_slices. repeat first [apply framed_done | apply framed_fail | case_goal].
  - unfold try_concat_ramps. repeat first [apply framed_done
      | apply framed_checks; intros ? ?; apply framed_continued | apply framed_bind; [|intros ?] | case_goal].
  - unfold try_concat_scalars. repeat first [apply framed_done | apply framed_fail | apply framed_new
      | apply framed_next_scalars | apply framed_bind; [|intros ?] | case_goal].
Qed.

Lemma visit_shuffle_visits vs ixs bounds : visits (Shuffle vs ixs) bounds (visit_shuffle mutate vs ixs bounds).
Proof.
  apply visits_intro.
  - unfold visit_shuffle. destruct (extracted vs ixs) as [[[k m] [x|]]|].
    + apply framed_bind; [apply framed_note|]. intros _. now apply framed_finish.
    + apply framed_fail.
    + apply framed_bind; [apply framed_vectors|]. intros [vs' b1]. apply framed_bind; [apply framed_shuffle_step|].
      intros st. now apply framed_finish.
  - intros. now apply visit_shuffle_delivered.
Qed.
End Visits.
