(* ===== verification/Monotonic.v ===== *)
(** * Monotonicity

    [MonotonicVisitor] and [is_monotonic] of src/Monotonic.cpp: whether an
    expression increases, decreases or stays the same when a variable grows. *)

From Stdlib Require Import ZArith Lia Bool List String SpecFloat.
From S2P Require Import Prelude.
From S2P Require Import IntArith.
From S2P Require Import Euclid.
From S2P Require Import HalideTypes.
From S2P Require Import IR.
From S2P Require Import Typing.
From S2P Require Import Scope.
From S2P Require Import IREquality.
From S2P Require Import IRMatch.
From S2P Require Import RuleSem.
From S2P Require Import MatchSound.
From S2P Require Import Mutator.
From S2P Require Import Substitute.
Import ListNotations.
Open Scope string_scope.
Open Scope list_scope.
Open Scope Z_scope.

(** ** Signs of constants (src/IROperator.cpp) *)

Fixpoint is_positive_const (e : Expr) : bool :=
  match e with
  | IntImm _ i => 0 <? i
  | UIntImm _ u => 0 <? u
  | FloatImm _ f => SFltb (S754_zero false) f
  | Cast _ v => is_positive_const v
  | Ramp b s _ => is_positive_const b && is_positive_const s
  | Broadcast v _ => is_positive_const v
  | _ => false
  end.

Fixpoint is_negative_const (e : Expr) : bool :=
  match e with
  | IntImm _ i => i <? 0
  | FloatImm _ f => SFltb f (S754_zero false)
  | Cast _ v => is_negative_const v
  | Ramp b s _ => is_negative_const b && is_negative_const s
  | Broadcast v _ => is_negative_const v
  | _ => false
  end.

(** ** The lattice of results *)

Inductive Monotonic := Constant | Increasing | Decreasing | Unknown.

#[export] Instance monotonic_inhabited : stdpp.base.Inhabited Monotonic := stdpp.base.populate Constant.
Definition monotonic_eqb (a b : Monotonic) : bool :=
  match a, b with
  | Constant, Constant | Increasing, Increasing | Decreasing, Decreasing | Unknown, Unknown => true
  | _, _ => false
  end.

Definition flip (r : Monotonic) : Monotonic :=
  match r with Increasing => Decreasing | Decreasing => Increasing | _ => r end.

Definition unify_results (a b : Monotonic) : Monotonic :=
  if monotonic_eqb a b then a
  else match a, b with
       | Unknown, _ | _, Unknown => Unknown
       | Constant, _ => b
       | _, Constant => a
       | _, _ => Unknown
       end.

Definition constant_result (r : Monotonic) : bool :=
  match r with Constant => true | _ => false end.

Definition constant_or_unknown (r : Monotonic) : Monotonic :=
  if constant_result r then Constant else Unknown.

(** ** What each [visit] makes of the results of the operands *)

Definition cast_rule (t from : HType) (r : Monotonic) : Monotonic :=
  if can_represent_type t from then r
  else if (32 <=? bits from) && (32 <=? bits t) then r
  else constant_or_unknown r.

Definition mul_rule (a b : Expr) (ra rb : Monotonic) : Monotonic :=
  if constant_result ra && constant_result rb then Constant
  else if is_positive_const a then rb
  else if is_positive_const b then ra
  else if is_negative_const a then flip rb
  else if is_negative_const b then flip ra
  else Unknown.

Definition div_rule (b : Expr) (ra rb : Monotonic) : Monotonic :=
  if constant_result ra && constant_result rb then Constant
  else if is_positive_const b then ra
  else if is_negative_const b then flip ra
  else Unknown.

(** [visit_eq] and [visit_lt]. *)
Definition eq_rule (ra rb : Monotonic) : Monotonic :=
  if constant_result ra && constant_result rb then Constant else Unknown.

Definition lt_rule (ra rb : Monotonic) : Monotonic := unify_results (flip ra) rb.

Definition select_rule (can_prove : Expr -> bool) (t f : Expr) (rcond ra rb : Monotonic) : Monotonic :=
  let unified := unify_results ra rb in
  if constant_result rcond then unified
  else
    let true_value_ge_false_value := can_prove (ECmp GE t f) in
    let true_value_le_false_value := can_prove (ECmp LE t f) in
    let switches_from_true_to_false := match rcond with Decreasing => true | _ => false end in
    let switches_from_false_to_true := match rcond with Increasing => true | _ => false end in
    if true_value_ge_false_value && true_value_le_false_value then ra
    else if match unified with Increasing | Constant => true | _ => false end &&
            ((switches_from_false_to_true && true_value_ge_false_value) ||
             (switches_from_true_to_false && true_value_le_false_value)) then Increasing
    else if match unified with Decreasing | Constant => true | _ => false end &&
            ((switches_from_false_to_true && true_value_le_false_value) ||
             (switches_from_true_to_false && true_value_ge_false_value)) then Decreasing
    else Unknown.

(** ** The visitor *)

Definition return_second_name : string := "return_second".
Definition require_name : string := "require".

Definition returns_last (name : string) (ct : CallType) : bool :=
  is_intrinsic name ct likely_name || is_intrinsic name ct likely_if_innermost_name ||
  is_intrinsic name ct return_second_name.

Abbreviation MonoM := (ScopeM (T := Monotonic)).

(** The loops over the arguments of a call and over the vectors of a shuffle. *)
Definition all_constant (f : Expr -> MonoM Monotonic) : list Expr -> MonoM Monotonic :=
  fix go l := match l with
    | [] => scope_ret Constant
    | a :: l' => scope_bind (f a) (fun r => if constant_result r then go l' else scope_ret Unknown)
    end.

(** [args.back()], which an empty vector does not have. *)
Definition visit_back (f : Expr -> MonoM Monotonic) : list Expr -> MonoM Monotonic :=
  fix go l := match l with
    | [] => scope_error
    | [a] => f a
    | _ :: l' => go l'
    end.

Section MonotonicVisitor.
Context (var : string).
(** The simplifier's [can_prove], and the name [unique_name('t')] makes. *)
Context (can_prove : Expr -> bool) (unique_t : string).

Definition visit_name (n : string) : MonoM Monotonic := fun s =>
  if String.eqb n var then Some (Increasing, s)
  else if contains s n then match get s n with Some r => Some (r, s) | None => None end
  else Some (Constant, s).

Fixpoint visit (e : Expr) : MonoM Monotonic :=
  match e with
  | IntImm _ _ | UIntImm _ _ | FloatImm _ _ | StringImm _ => scope_ret Constant
  | Cast t v => scope_map (cast_rule t (type_of v)) (visit v)
  | EVariable _ n => visit_name n
  | EBin (Add | Min | Max | And | Or) a b => scope_map2 unify_results (visit a) (visit b)
  | EBin Sub a b => scope_map2 (fun ra rb => unify_results ra (flip rb)) (visit a) (visit b)
  | EBin Mul a b => scope_map2 (mul_rule a b) (visit a) (visit b)
  | EBin Div a b => scope_map2 (div_rule b) (visit a) (visit b)
  | EBin Mod _ _ => scope_ret Unknown
  | ECmp (EQ | NE) a b => scope_map2 eq_rule (visit a) (visit b)
  | ECmp (LT | LE) a b => scope_map2 lt_rule (visit a) (visit b)
  | ECmp (GT | GE) a b => scope_map2 lt_rule (visit b) (visit a)
  | ENot a => scope_map flip (visit a)
  | Select c t f => scope_map3 (select_rule can_prove t f) (visit c) (visit t) (visit f)
  | Load _ _ _ i _ => scope_map constant_or_unknown (visit i)
  | Ramp b s _ =>
      let t := EVariable (type_of b) unique_t in
      scope_map2 unify_results (visit b) (scope_map2 (mul_rule t s) (visit_name unique_t) (visit s))
  | Broadcast v _ => visit v
  | ECall _ n args ct _ =>
      if returns_last n ct then visit_back visit args
      else if is_intrinsic n ct require_name
      then match args with _ :: a :: _ => visit a | _ => scope_error end
      else all_constant visit args
  | ELet n v b =>
      scope_bind (visit v) (fun r => if constant_result r then visit b else scoped n r (visit b))
  | Shuffle vs _ => all_constant visit vs
  end.

(** An undefined expression is [None]; the outer option is the internal error
    or the missing argument. *)
Definition is_monotonic (e : option Expr) (scope : Scope Monotonic) : option Monotonic :=
  match e with
  | None => Some Unknown
  | Some e =>
      match visit e (set_containing_scope empty_scope scope) with
      | Some (r, _) => Some r
      | None => None
      end
  end.
End MonotonicVisitor.

(** ** The order an answer stands for *)

(** [follows r a b]: how a value that was [a] may become [b] when the variable
    grows. *)
Definition follows (r : Monotonic) (a b : Z) : Prop :=
  match r with
  | Constant => a = b
  | Increasing => a <= b
  | Decreasing => b <= a
  | Unknown => True
  end.

Lemma follows_eq r a b : a = b -> follows r a b.
Proof. intros ->. destruct r; cbn; auto; lia. Qed.

Lemma constant_follows r a b : constant_result r = true -> follows r a b -> a = b.
Proof. now destruct r. Qed.

(** The join of two answers is implied by each of them. *)
Lemma unify_follows_l ra rb a b : follows ra a b -> follows (unify_results ra rb) a b.
Proof. destruct ra, rb; cbn; auto; lia. Qed.

Lemma unify_follows_r ra rb a b : follows rb a b -> follows (unify_results ra rb) a b.
Proof. destruct ra, rb; cbn; auto; lia. Qed.

Lemma follows_constant_or_unknown r a b a' b' : (a = b -> a' = b') -> follows r a b ->
  follows (constant_or_unknown r) a' b'.
Proof. destruct r; cbn; auto. Qed.

Section Lift.
Context (P : Z -> Prop) (f : Z -> Z -> Z).
Context (Mono : forall x x' y y', P x -> P x' -> P y -> P y' -> x <= x' -> y <= y' -> f x y <= f x' y').

Lemma lift_monotone r x x' y y' : P x -> P x' -> P y -> P y' ->
  follows r x x' -> follows r y y' -> follows r (f x y) (f x' y').
Proof. destruct r; cbn; intros; subst; auto. Qed.
End Lift.

Lemma flip_monotone r x x' g : (forall y y', (y = x \/ y = x') -> (y' = x \/ y' = x') -> y <= y' -> g y' <= g y) ->
  follows r x x' -> follows (flip r) (g x) (g x').
Proof. intros A. destruct r; cbn; intros; subst; auto. Qed.

Lemma flip_follows r x x' : follows r x x' -> follows (flip r) (- x) (- x').
Proof. apply (flip_monotone r x x' Z.opp). intros. lia. Qed.

(** ** The environments and the expressions compared *)

(** Arithmetic leaves the range of its type nowhere, casts between types of 32
    bits and above and casts of constants keep the value, and the two
    intrinsics have the value of the argument they stand for. *)
Definition node_regular (env : Env) (j : Z) (e : Expr) : Prop :=
  match e with
  | EBin Add a b => ev env j e = ev env j a + ev env j b
  | EBin Sub a b => ev env j e = ev env j a - ev env j b
  | EBin Mul a b => ev env j e = ev env j a * ev env j b
  | EBin Div a b => ev env j e = ediv (ev env j a) (ev env j b)
  | Ramp b s _ => ev env j e = ev env j b + j * ev env j s
  | Cast t v =>
      is_const v || ((32 <=? bits (type_of v)) && (32 <=? bits t)) = true ->
      ev env j e = ev env j v
  | ECall _ n args ct _ =>
      (returns_last n ct = true -> forall a l, args = l ++ [a] -> ev env j e = ev env j a) /\
      (is_intrinsic n ct require_name = true -> forall a, nth_error args 1 = Some a -> ev env j e = ev env j a)
  | _ => True
  end.

Fixpoint regular (env : Env) (e : Expr) : Prop :=
  (forall j, lane_in (type_of e) j -> defined env j e /\ node_regular env j e) /\
  match e with
  | IntImm _ _ | UIntImm _ _ | FloatImm _ _ | StringImm _ | EVariable _ _ => True
  | Cast _ a | ENot a | Broadcast a _ => regular env a
  | EBin _ a b | ECmp _ a b | Ramp a b _ => regular env a /\ regular env b
  | Load _ _ _ i _ => regular env i
  | Select c t f => regular env c /\ regular env t /\ regular env f
  | ECall _ _ args _ _ =>
      (fix all (l : list Expr) : Prop :=
         match l with [] => True | a :: l' => regular env a /\ all l' end) args
  | ELet n v b => regular env v /\ regular (bind env n (fun j => ev env j v)) b
  | Shuffle vs _ =>
      (fix all (l : list Expr) : Prop :=
         match l with [] => True | a :: l' => regular env a /\ all l' end) vs
  end.

Lemma regular_node env e j : regular env e -> lane_in (type_of e) j -> defined env j e /\ node_regular env j e.
Proof. destruct e; intros [H _]; apply H. Qed.

Lemma regular_range env e j : regular env e -> lane_in (type_of e) j -> in_type (type_of e) (ev env j e).
Proof. intros R L. destruct (regular_node env e j R L) as [[_ F] _]. now apply fits_in_type. Qed.

(** A name in scope is known to follow the variable as its entry says. *)
Section Compared.
Context (var : string) (can_prove : Expr -> bool) (unique_t : string).

Record comparable (g : Ctx) (s : Scope Monotonic) (env1 env2 : Env) : Prop := {
  same_mem : mem env1 = mem env2;
  same_ext : ext env1 = ext env2;
  names_follow : forall n t j r s', visit_name var n s = Some (r, s') ->
    agrees g n t = true -> lane_in t j ->
    follows r (cast_val t (IR.var env1 n (lane_of t j))) (cast_val t (IR.var env2 n (lane_of t j)))
}.

(** What is assumed of an expression. *)
Record analyzed (g : Ctx) (s : Scope Monotonic) (env1 env2 : Env) (e : Expr) : Prop := {
  an_wf : wf e = true;
  an_typed : typed g e = true;
  an_scope : scope_ok s;
  an_envs : comparable g s env1 env2;
  an_regular1 : regular env1 e;
  an_regular2 : regular env2 e;
  an_binders : ~ In var (binders e)
}.

(** An answer of the visitor is right. *)
Definition answers (e : Expr) : Prop := forall g s env1 env2 r s',
  analyzed g s env1 env2 e -> visit var can_prove unique_t e s = Some (r, s') ->
  forall j, lane_in (type_of e) j -> follows r (ev env1 j e) (ev env2 j e).

(** ** The scope is restored *)

Lemma all_constant_restores f l : Forall (fun a => restores (f a)) l -> restores (all_constant f l).
Proof.
  induction 1 as [|a l R _ IH]; cbn; [apply restores_ret|].
  apply restores_bind; [exact R|]. intros r. destruct (constant_result r); [exact IH|apply restores_ret].
Qed.

Lemma visit_back_restores f l : Forall (fun a => restores (f a)) l -> restores (visit_back f l).
Proof.
  induction 1 as [|a l R _ IH]; cbn; [apply restores_error|]. destruct l; [exact R|exact IH].
Qed.

Lemma visit_name_restores n : restores (visit_name var n).
Proof.
  intros s r s' _. unfold visit_name. destruct (String.eqb n var); [congruence|].
  destruct (contains s n); [destruct (get s n)|]; congruence.
Qed.

Lemma visit_restores e : restores (visit var can_prove unique_t e).
Proof.
  induction e using Expr_ind'; cbn [visit];
    auto using @restores_ret, @restores_map, visit_name_restores, all_constant_restores.
  - destruct op; auto using @restores_map2, @restores_ret.
  - destruct op; auto using @restores_map2.
  - now apply restores_map3.
  - auto using @restores_map2, visit_name_restores.
  - destruct (returns_last n ct); [now apply visit_back_restores|].
    destruct (is_intrinsic n ct require_name); [|now apply all_constant_restores].
    destruct H as [|a l _ [|b m]]; auto using @restores_error.
  - apply restores_bind; [assumption|]. intros r. destruct (constant_result r); auto using @restores_scoped.
Qed.

(** ** Parts of an analyzed expression *)

Ltac parts := intros [W Ty O C R1 R2 B]; cbn [typed regular binders] in Ty, R1, R2, B; destr_and;
  rewrite ?in_app_iff in B.

Ltac part := split; auto; tauto.

Lemma an_bin g s env1 env2 op a b : analyzed g s env1 env2 (EBin op a b) ->
  analyzed g s env1 env2 a /\ analyzed g s env1 env2 b /\
  forall j, lane_in (type_of (EBin op a b)) j -> lane_in (type_of a) j /\ lane_in (type_of b) j.
Proof.
  parts. destruct (wf_binary _ _ _ W) as (Wa & Wb & T & L). split; [part|]. split; [part|].
  intros j J. rewrite T. split; apply (lane_in_lanes _ _ _ L J).
Qed.

Lemma an_cmp g s env1 env2 op a b : analyzed g s env1 env2 (ECmp op a b) ->
  analyzed g s env1 env2 a /\ analyzed g s env1 env2 b /\
  forall j, lane_in (type_of (ECmp op a b)) j -> lane_in (type_of a) j /\ lane_in (type_of b) j.
Proof.
  parts. destruct (wf_comparison _ _ _ W) as (Wa & Wb & T). split; [part|]. split; [part|].
  intros j J. rewrite T. split; now apply (lane_in_lanes (BoolT (lanes (type_of a)))).
Qed.

Lemma an_select g s env1 env2 c t f : analyzed g s env1 env2 (Select c t f) ->
  analyzed g s env1 env2 c /\ analyzed g s env1 env2 t /\ analyzed g s env1 env2 f /\
  is_bool (type_of c) = true /\ type_of t = type_of f /\
  forall j, lane_in (type_of t) j -> lane_in (type_of c) j.
Proof.
  parts. destruct (wf_select _ _ _ W) as (Wc & Wt & Wf & T & L). cbn [wf] in W. destr_and.
  split; [part|]. split; [part|]. split; [part|]. split; [assumption|]. split; [assumption|].
  intros j J. destruct L as [L|L]; [now left|now apply (lane_in_lanes (type_of t))].
Qed.

Lemma an_cast g s env1 env2 t v : analyzed g s env1 env2 (Cast t v) ->
  analyzed g s env1 env2 v /\ int_type t = true /\ lanes t = lanes (type_of v).
Proof. parts. destruct (wf_cast _ _ W) as (Wv & I & L). split; [part|auto]. Qed.

Lemma an_not g s env1 env2 a : analyzed g s env1 env2 (ENot a) ->
  analyzed g s env1 env2 a /\ is_bool (type_of a) = true.
Proof. parts. cbn [wf] in W. destr_and. split; [part|assumption]. Qed.

Lemma an_load g s env1 env2 t n p i al : analyzed g s env1 env2 (Load t n p i al) ->
  analyzed g s env1 env2 i /\ lanes t = lanes (type_of i).
Proof. parts. destruct (wf_load _ _ _ _ _ W) as (_ & Wi & L & _). split; [part|assumption]. Qed.

Lemma an_ramp g s env1 env2 b t n : analyzed g s env1 env2 (Ramp b t n) ->
  analyzed g s env1 env2 b /\ analyzed g s env1 env2 t /\
  is_scalar (type_of b) = true /\ is_scalar (type_of t) = true /\ vector_lanes n = true.
Proof. parts. cbn [wf] in W. destr_and. split; [part|]. split; [part|auto]. Qed.

Lemma an_broadcast g s env1 env2 v n : analyzed g s env1 env2 (Broadcast v n) ->
  analyzed g s env1 env2 v /\ is_scalar (type_of v) = true.
Proof. parts. cbn [wf] in W. destr_and. split; [part|assumption]. Qed.

Lemma regular_all env l :
  (fix all (l : list Expr) : Prop :=
     match l with [] => True | a :: l' => regular env a /\ all l' end) l -> Forall (regular env) l.
Proof. induction l as [|a l IH]; constructor; tauto. Qed.

Lemma an_list g s env1 env2 l : forallb wf l = true -> forallb (typed g) l = true ->
  scope_ok s -> comparable g s env1 env2 -> Forall (regular env1) l -> Forall (regular env2) l ->
  ~ In var (List.concat (map binders l)) -> Forall (analyzed g s env1 env2) l.
Proof.
  rewrite !forallb_forall, !Forall_forall. intros W Ty O C R1 R2 B a A. split; auto.
  intros I. apply B. now apply (In_concat_map binders l a).
Qed.

Lemma an_call g s env1 env2 t n args ct vi : analyzed g s env1 env2 (ECall t n args ct vi) ->
  Forall (analyzed g s env1 env2) args /\
  Forall (fun a => forall j, lane_in t j -> lane_in (type_of a) j) args.
Proof.
  intros [W Ty O C [_ R1] [_ R2] B]. pose proof (typed_call _ _ _ _ _ _ Ty) as L. split.
  - cbn [wf typed binders] in *. destr_and. apply an_list; auto using regular_all.
  - eapply Forall_impl; [|exact L]. intros a [_ [S|S]] j J; [now left|now apply (lane_in_lanes t)].
Qed.

Lemma an_shuffle g s env1 env2 vs ixs : analyzed g s env1 env2 (Shuffle vs ixs) ->
  Forall (analyzed g s env1 env2) vs.
Proof.
  intros [W Ty O C [_ R1] [_ R2] B]. cbn [wf typed binders] in *. destr_and.
  apply an_list; auto using regular_all.
Qed.

(** The value a let gives its name. *)
Lemma an_let g s env1 env2 n v b r : analyzed g s env1 env2 (ELet n v b) ->
  analyzed g s env1 env2 v /\
  ((forall j, lane_in (type_of v) j -> follows r (ev env1 j v) (ev env2 j v)) ->
   analyzed ((n, type_of v) :: g) (if constant_result r then s else push s n r)
     (bind env1 n (fun j => ev env1 j v)) (bind env2 n (fun j => ev env2 j v)) b).
Proof.
  parts. cbn [wf In] in W, B. destr_and. rewrite in_app_iff in B. split; [part|]. intros V.
  split; auto; try tauto.
  - destruct (constant_result r); [assumption|]. now apply push_scope_ok.
  - destruct C as [Mem Ext N]. split; [assumption|assumption|]. intros m t j q s1 G A J.
    assert (D : n <> var) by (intros ->; tauto).
    destruct (String.eqb_spec m n) as [->|Ne].
    + apply agrees_same in A as ->. rewrite !bind_same. pose proof (lane_in_lane_of _ _ J) as J'.
      rewrite !cast_val_id by (try (apply (wf_wf_type v); assumption); now apply regular_range).
      unfold visit_name in G. rewrite (proj2 (String.eqb_neq n var) D) in G.
      destruct (constant_result r) eqn:K.
      * apply follows_eq. now apply (constant_follows r), V.
      * rewrite get_push in G.
        replace (contains (push s n r) n) with true in G
          by (symmetry; apply contains_get; rewrite get_push; eauto).
        injection G as <- _. now apply V.
    + rewrite agrees_other in A by congruence. rewrite !bind_other by assumption.
      assert (G' : exists s2, visit_name var m s = Some (q, s2)).
      { unfold visit_name in *. destruct (String.eqb m var); [injection G as <- _; eauto|].
        destruct (constant_result r); [eauto|].
        replace (contains (push s n r) m) with (contains s m) in G
          by (apply eq_true_iff_eq; now rewrite !contains_get, get_push_ne).
        rewrite get_push_ne in G by assumption.
        destruct (contains s m); [destruct (get s m)|]; try discriminate; injection G as <- _; eauto. }
      destruct G' as [s2 G']. now apply (N m t j q s2).
Qed.

(** ** Constants *)

Lemma const_ev e : forall env1 env2 j, is_const e = true -> ev env1 j e = ev env2 j e.
Proof.
  induction e using Expr_ind'; intros env1 env2 j K; try discriminate K; try reflexivity;
    cbn [is_const] in K; destr_and; cbn [ev].
  - now rewrite (IHe env1 env2).
  - now rewrite (IHe1 env1 env2), (IHe2 env1 env2).
  - now apply IHe.
Qed.

Lemma positive_is_const e : is_positive_const e = true -> is_const e = true.
Proof. induction e; cbn; intros; try discriminate; destr_and; auto. now rewrite IHe1, IHe2. Qed.

Lemma negative_is_const e : is_negative_const e = true -> is_const e = true.
Proof. induction e; cbn; intros; try discriminate; destr_and; auto. now rewrite IHe1, IHe2. Qed.

Lemma ramp_lane b n j : vector_lanes n = true -> lane_in (with_lanes (type_of b) n) j -> 0 <= j.
Proof.
  unfold vector_lanes, lane_in, is_scalar. cbn. intros V. zify_bool. rewrite Z.eqb_eq. lia.
Qed.

(** The two tests agree with a sign: [k] is 1 or -1. *)
Lemma signed_const (test : Expr -> bool) k :
  (forall e, test e = true -> match e with
     | IntImm _ i | UIntImm _ i => 0 < k * i
     | FloatImm _ _ => True
     | Cast _ v | Broadcast v _ => test v = true /\ is_const v = true
     | Ramp b s _ => test b = true /\ test s = true
     | _ => False
     end) ->
  forall e env j, test e = true -> wf e = true -> regular env e -> lane_in (type_of e) j -> 0 < k * ev env j e.
Proof.
  intros T e. induction e using Expr_ind'; intros env j P W R L; specialize (T _ P) as Te;
    cbn beta iota in Te; try contradiction; try exact Te; try discriminate W.
  - destruct (wf_cast _ _ W) as (Wv & _ & Ln). destruct (regular_node _ _ _ R L) as [_ N]. cbn [node_regular] in N.
    destruct Te as [Tv Kv]. rewrite N by now rewrite Kv. destruct R as [_ R].
    apply IHe; auto. now apply (lane_in_lanes t).
  - destruct (regular_node _ _ _ R L) as [_ N]. cbn [node_regular] in N. rewrite N.
    destruct R as (_ & R1 & R2), Te as [T1 T2]. cbn [wf] in W. destr_and.
    assert (J : 0 <= j) by now apply (ramp_lane e1 n).
    pose proof (IHe1 env j T1 H R1 (lane_in_scalar _ _ H3)).
    pose proof (IHe2 env j T2 H4 R2 (lane_in_scalar _ _ H2)). nia.
  - destruct R as [_ R], Te as [Tv _]. cbn [wf] in W. destr_and. cbn [ev]. apply IHe; auto.
    now apply lane_in_scalar.
Qed.

Lemma positive_const e env j : is_positive_const e = true -> wf e = true -> regular env e ->
  lane_in (type_of e) j -> 0 < ev env j e.
Proof.
  intros P W R L. replace (ev env j e) with (1 * ev env j e) by lia.
  apply (signed_const is_positive_const 1); auto. clear. intros e.
  destruct e; cbn; intros; try discriminate; destr_and; auto using positive_is_const; zify_bool; lia.
Qed.

Lemma negative_const e env j : is_negative_const e = true -> wf e = true -> regular env e ->
  lane_in (type_of e) j -> ev env j e < 0.
Proof.
  intros P W R L. enough (0 < -1 * ev env j e) by lia.
  apply (signed_const is_negative_const (-1)); auto. clear. intros e.
  destruct e; cbn; intros; try discriminate; destr_and; auto using negative_is_const; zify_bool; lia.
Qed.

Lemma const_value g s env1 env2 e j : analyzed g s env1 env2 e -> lane_in (type_of e) j ->
  ev env1 j e = ev env2 j e ->
  (is_positive_const e = true -> 0 < ev env2 j e) /\ (is_negative_const e = true -> ev env2 j e < 0).
Proof. intros [W _ _ _ _ R _] L _. split; intros; [now apply positive_const|now apply negative_const]. Qed.

(** ** The operators *)

Lemma cast_keeps t from v : int_type t = true -> int_type from = true ->
  can_represent_type t from = true -> in_type from v -> cast_val t v = v.
Proof.
  intros I J C R. apply cast_val_id; [exact I|].
  pose proof (int_type_bits t I). pose proof (int_type_bits from J).
  unfold in_type, can_represent_type, tmin, tmax in *. unfold is_int, is_uint, is_float in *.
  assert (P : forall a b, 0 <= a <= b -> 2 ^ a <= 2 ^ b) by (intros; apply Z.pow_le_mono_r; lia).
  unfold int_type in I, J. destruct (code t), (code from); try discriminate I; try discriminate J; cbn in *;
    destruct (negb _); try discriminate C; zify_bool; try discriminate C.
  - pose proof (P (bits from - 1) (bits t - 1)). lia.
  - pose proof (P (bits from) (bits t - 1)). lia.
  - pose proof (P (bits from) (bits t)). lia.
Qed.

Lemma cast_follows t v r x y : int_type t = true -> int_type (type_of v) = true ->
  in_type (type_of v) x -> in_type (type_of v) y ->
  ((32 <=? bits (type_of v)) && (32 <=? bits t) = true -> cast_val t x = x /\ cast_val t y = y) ->
  follows r x y -> follows (cast_rule t (type_of v) r) (cast_val t x) (cast_val t y).
Proof.
  intros I J X Y W F. unfold cast_rule. destruct (can_represent_type t (type_of v)) eqn:C.
  - now rewrite !(cast_keeps t (type_of v)).
  - destruct (_ && _); [now destruct (W eq_refl) as [-> ->]|].
    revert F. apply follows_constant_or_unknown. now intros ->.
Qed.

(** Quotients of a monotone numerator by a constant. *)
Lemma ediv_mono k x y : 0 < k -> x <= y -> ediv x k <= ediv y k.
Proof.
  intros K L. euclid_all. apply Z.le_ngt. intros G. nia.
Qed.

Lemma ediv_anti k x y : k < 0 -> x <= y -> ediv y k <= ediv x k.
Proof.
  intros K L. euclid_all. apply Z.le_ngt. intros G. nia.
Qed.

Lemma lift_unary r x y g : (forall a b, a <= b -> g a <= g b) -> follows r x y -> follows r (g x) (g y).
Proof. intros M. destruct r; cbn; intros; subst; auto. Qed.

Lemma lift_flip r x y g : (forall a b, a <= b -> g b <= g a) -> follows r x y -> follows (flip r) (g x) (g y).
Proof. intros M. apply flip_monotone. intros. now apply M. Qed.

Lemma scale_follows k r x y : 0 < k -> follows r x y -> follows r (k * x) (k * y).
Proof. intros K. apply lift_unary. intros. nia. Qed.

Lemma scale_flips k r x y : k < 0 -> follows r x y -> follows (flip r) (k * x) (k * y).
Proof. intros K. apply (lift_flip r x y (Z.mul k)). intros. nia. Qed.

(** The answer for a product, from what the operands are. *)
Lemma mul_follows a b ra rb x x' y y' :
  (is_positive_const a = true -> x = x' /\ 0 < x) -> (is_positive_const b = true -> y = y' /\ 0 < y) ->
  (is_negative_const a = true -> x = x' /\ x < 0) -> (is_negative_const b = true -> y = y' /\ y < 0) ->
  follows ra x x' -> follows rb y y' -> follows (mul_rule a b ra rb) (x * y) (x' * y').
Proof.
  intros Pa Pb Na Nb A B. unfold mul_rule.
  destruct (constant_result ra && constant_result rb) eqn:K.
  { apply andb_true_iff in K as [K1 K2]. cbn. now rewrite (constant_follows ra x x'), (constant_follows rb y y'). }
  destruct (is_positive_const a); [destruct Pa as [<- P]; auto; now apply scale_follows|].
  destruct (is_positive_const b).
  { destruct Pb as [<- P]; auto. rewrite (Z.mul_comm x), (Z.mul_comm x'). now apply scale_follows. }
  destruct (is_negative_const a); [destruct Na as [<- P]; auto; now apply scale_flips|].
  destruct (is_negative_const b); [|exact I].
  destruct Nb as [<- P]; auto. rewrite (Z.mul_comm x), (Z.mul_comm x'). now apply scale_flips.
Qed.

Lemma div_follows b ra rb x x' y y' :
  (is_positive_const b = true -> y = y' /\ 0 < y) -> (is_negative_const b = true -> y = y' /\ y < 0) ->
  follows ra x x' -> follows rb y y' -> follows (div_rule b ra rb) (ediv x y) (ediv x' y').
Proof.
  intros Pb Nb A B. unfold div_rule. destruct (constant_result ra && constant_result rb) eqn:K.
  { apply andb_true_iff in K as [K1 K2]. cbn. now rewrite (constant_follows ra x x'), (constant_follows rb y y'). }
  destruct (is_positive_const b).
  { destruct Pb as [<- P]; auto. apply (lift_unary ra x x' (fun z => ediv z y)); auto using ediv_mono. }
  destruct (is_negative_const b); [|exact I].
  destruct Nb as [<- P]; auto. apply (lift_flip ra x x' (fun z => ediv z y)); auto using ediv_anti.
Qed.

(** Comparisons of a decreasing left with an increasing right operand. *)
Lemma lt_follows (cmp : Z -> Z -> bool) ra rb x x' y y' :
  (forall a a' b b', a' <= a -> b <= b' -> cmp a b = true -> cmp a' b' = true) ->
  follows ra x x' -> follows rb y y' -> follows (lt_rule ra rb) (b2z (cmp x y)) (b2z (cmp x' y')).
Proof.
  intros M A B. unfold lt_rule.
  assert (L : forall a a' b b', a' <= a -> b <= b' -> b2z (cmp a b) <= b2z (cmp a' b')).
  { intros a a' b b' H1 H2. specialize (M a a' b b' H1 H2).
    destruct (cmp a b), (cmp a' b'); cbn; lia. }
  pose proof (unify_follows_l (flip ra) rb (- x) (- x') (flip_follows _ _ _ A)) as A'.
  pose proof (unify_follows_r (flip ra) rb y y' B) as B'.
  destruct (unify_results (flip ra) rb); cbn in *; auto; [|apply L; lia|apply L; lia].
  replace x' with x by lia. now subst.
Qed.

Lemma eq_follows (cmp : Z -> Z -> bool) ra rb x x' y y' : follows ra x x' -> follows rb y y' ->
  follows (eq_rule ra rb) (b2z (cmp x y)) (b2z (cmp x' y')).
Proof.
  intros A B. unfold eq_rule. destruct (constant_result ra && constant_result rb) eqn:K; [|exact I].
  apply andb_true_iff in K as [K1 K2]. cbn. now rewrite (constant_follows ra x x'), (constant_follows rb y y').
Qed.

(** A condition that switches between branches of known order. *)
Lemma select_follows t f rc ra rb c c' x x' y y' :
  0 <= c <= 1 -> 0 <= c' <= 1 ->
  (can_prove (ECmp GE t f) = true -> y <= x /\ y' <= x') ->
  (can_prove (ECmp LE t f) = true -> x <= y /\ x' <= y') ->
  follows rc c c' -> follows ra x x' -> follows rb y y' ->
  follows (select_rule can_prove t f rc ra rb) (if nz c then x else y) (if nz c' then x' else y').
Proof.
  intros C C' Ge Le H A B.
  assert (U : follows (unify_results ra rb) x x' /\ follows (unify_results ra rb) y y')
    by (split; [now apply unify_follows_l|now apply unify_follows_r]).
  unfold select_rule. set (u := unify_results ra rb) in *. destruct U as [Ux Uy].
  destruct (constant_result rc) eqn:K.
  { rewrite <- (constant_follows rc c c') by assumption. now destruct (nz c). }
  unfold nz. destruct (can_prove (ECmp GE t f)), (can_prove (ECmp LE t f));
    repeat match goal with H : true = true -> _ |- _ => specialize (H eq_refl) end; cbn [andb orb].
  - destruct (c =? 0), (c' =? 0); cbn; destruct ra; cbn in *; lia.
  - destruct rc; try discriminate K; cbn [andb orb follows] in *; destruct u; cbn [andb orb follows] in *;
      auto; destruct (Z.eqb_spec c 0), (Z.eqb_spec c' 0); cbn; lia.
  - destruct rc; try discriminate K; cbn [andb orb follows] in *; destruct u; cbn [andb orb follows] in *;
      auto; destruct (Z.eqb_spec c 0), (Z.eqb_spec c' 0); cbn; lia.
  - destruct rc; try discriminate K; cbn [andb orb]; rewrite ?andb_false_r; exact I.
Qed.

Lemma logic_monotone (f : bool -> bool -> bool) : (forall a a' b b', (a = true -> a' = true) -> (b = true -> b' = true) -> f a b = true -> f a' b' = true) ->
  forall x x' y y', 0 <= x -> 0 <= x' -> 0 <= y -> 0 <= y' -> x <= x' -> y <= y' ->
  b2z (f (nz x) (nz y)) <= b2z (f (nz x') (nz y')).
Proof.
  intros M x x' y y' X X' Y Y' A B.
  assert (N : forall a b, 0 <= a -> a <= b -> nz a = true -> nz b = true).
  { unfold nz. intros a b P Q H. zify_bool. lia. }
  specialize (M (nz x) (nz x') (nz y) (nz y') (N _ _ X A) (N _ _ Y B)).
  destruct (f (nz x) (nz y)), (f (nz x') (nz y')); cbn; lia.
Qed.

Lemma not_follows r x y : 0 <= x -> 0 <= y -> follows r x y -> follows (flip r) (b2z (negb (nz x))) (b2z (negb (nz y))).
Proof.
  intros X Y. apply (flip_monotone r x y (fun z => b2z (negb (nz z)))).
  unfold nz. intros a b [->| ->] [->| ->] L; destruct (Z.eqb_spec x 0), (Z.eqb_spec y 0); cbn; lia.
Qed.

Lemma bool_range t v : in_type t v -> is_bool t = true -> 0 <= v <= 1.
Proof.
  intros R B. revert B R. unfold is_bool, in_type, tmin, tmax, is_int. destruct (code t); try discriminate. cbn. intros B. zify_bool.
  rewrite B. cbn. lia.
Qed.

Lemma bool_operands op a b : is_bool_op op = true -> wf (EBin op a b) = true ->
  is_bool (type_of a) = true /\ is_bool (type_of b) = true.
Proof.
  intros B W. destruct (wf_binary _ _ _ W) as (_ & _ & T & _). cbn [wf] in W. rewrite B in W. destr_and.
  now rewrite T.
Qed.

(** ** Every answer is right *)

Lemma visit_map (f : Monotonic -> Monotonic) e s r s' : scope_map f (visit var can_prove unique_t e) s = Some (r, s') ->
  exists q s1, visit var can_prove unique_t e s = Some (q, s1) /\ r = f q.
Proof.
  unfold scope_map, scope_bind, scope_ret. destruct (visit _ _ _ e s) as [[q s1]|]; [|discriminate].
  intros [= <- _]. eauto.
Qed.

Lemma visit_map2 (f : Monotonic -> Monotonic -> Monotonic) a b s r s' : scope_ok s ->
  scope_map2 f (visit var can_prove unique_t a) (visit var can_prove unique_t b) s = Some (r, s') ->
  exists ra rb, visit var can_prove unique_t a s = Some (ra, s) /\
    visit var can_prove unique_t b s = Some (rb, s) /\ r = f ra rb.
Proof. apply scope_map2_some; apply visit_restores. Qed.

(** The two operands of a node, with what the answers for them say. *)
Lemma operand_answers g s env1 env2 a r j : answers a -> analyzed g s env1 env2 a ->
  visit var can_prove unique_t a s = Some (r, s) -> lane_in (type_of a) j ->
  follows r (ev env1 j a) (ev env2 j a) /\
  in_type (type_of a) (ev env1 j a) /\ in_type (type_of a) (ev env2 j a) /\
  (is_positive_const a = true -> ev env1 j a = ev env2 j a /\ 0 < ev env1 j a) /\
  (is_negative_const a = true -> ev env1 j a = ev env2 j a /\ ev env1 j a < 0).
Proof.
  intros A An V L. pose proof An as [W _ _ _ R1 R2 _]. split; [now apply (A g s env1 env2 r s)|].
  split; [now apply regular_range|]. split; [now apply regular_range|]. split; intros P.
  - split; [now apply const_ev, positive_is_const|now apply positive_const].
  - split; [now apply const_ev, negative_is_const|now apply negative_const].
Qed.

Lemma answers_bin op a b : answers a -> answers b -> answers (EBin op a b).
Proof.
  intros IHa IHb g s env1 env2 r s' An V j L.
  pose proof An as [W _ O _ R1 R2 _]. destruct (an_bin _ _ _ _ _ _ _ An) as (Aa & Ab & Ln).
  destruct (Ln j L) as [La Lb].
  destruct (regular_node _ _ _ R1 L) as [_ N1], (regular_node _ _ _ R2 L) as [_ N2].
  destruct op; cbn [visit] in V; try (injection V as <- _; exact I);
    destruct (visit_map2 _ _ _ _ _ _ O V) as (ra & rb & Va & Vb & ->);
    destruct (operand_answers _ _ _ _ _ _ _ IHa Aa Va La) as (Fa & Ia1 & Ia2 & Pa & Na);
    destruct (operand_answers _ _ _ _ _ _ _ IHb Ab Vb Lb) as (Fb & Ib1 & Ib2 & Pb & Nb);
    cbn [node_regular] in N1, N2; rewrite ?N1, ?N2; clear N1 N2.
  - apply (lift_monotone (fun _ => True)); auto using unify_follows_l, unify_follows_r. intros. lia.
  - apply unify_follows_l with (rb := flip rb) in Fa. apply flip_follows, (unify_follows_r ra) in Fb.
    replace (ev env1 j a - ev env1 j b) with (ev env1 j a + - ev env1 j b) by lia.
    replace (ev env2 j a - ev env2 j b) with (ev env2 j a + - ev env2 j b) by lia.
    apply (lift_monotone (fun _ => True)); auto. intros. lia.
  - now apply mul_follows.
  - now apply div_follows.
  - cbn [ev evbin]. apply (lift_monotone (fun _ => True)); auto using unify_follows_l, unify_follows_r.
    intros. lia.
  - cbn [ev evbin]. apply (lift_monotone (fun _ => True)); auto using unify_follows_l, unify_follows_r.
    intros. lia.
  - cbn [ev evbin]. pose proof (bool_operands And a b eq_refl W) as (Ba & Bb).
    apply (lift_monotone (fun z => 0 <= z) (fun x y => b2z (nz x && nz y)));
      try (eapply bool_range; eassumption); auto using unify_follows_l, unify_follows_r.
    apply logic_monotone. intros [] [] [] []; cbn; auto.
  - cbn [ev evbin]. pose proof (bool_operands Or a b eq_refl W) as (Ba & Bb).
    apply (lift_monotone (fun z => 0 <= z) (fun x y => b2z (nz x || nz y)));
      try (eapply bool_range; eassumption); auto using unify_follows_l, unify_follows_r.
    apply logic_monotone. intros [] [] [] []; cbn; auto.
Qed.

Lemma answers_cmp op a b : answers a -> answers b -> answers (ECmp op a b).
Proof.
  intros IHa IHb g s env1 env2 r s' An V j L. pose proof An as [_ _ O _ _ _ _].
  destruct (an_cmp _ _ _ _ _ _ _ An) as (Aa & Ab & Ln). destruct (Ln j L) as [La Lb].
  destruct op; cbn [visit] in V; destruct (visit_map2 _ _ _ _ _ _ O V) as (ra & rb & Va & Vb & ->); cbn [ev evcmp];
    first [destruct (operand_answers _ _ _ _ _ _ _ IHa Aa Va La) as [Fa _];
           destruct (operand_answers _ _ _ _ _ _ _ IHb Ab Vb Lb) as [Fb _]
          |destruct (operand_answers _ _ _ _ _ _ _ IHb Ab Va Lb) as [Fb _];
           destruct (operand_answers _ _ _ _ _ _ _ IHa Aa Vb La) as [Fa _]].
  - now apply (eq_follows Z.eqb).
  - now apply (eq_follows (fun x y => negb (x =? y))).
  - apply (lt_follows Z.ltb); auto. intros. zify_bool. lia.
  - apply (lt_follows Z.leb); auto. intros. zify_bool. lia.
  - apply (lt_follows Z.ltb); auto. intros. zify_bool. lia.
  - apply (lt_follows Z.leb); auto. intros. zify_bool. lia.
Qed.

Lemma answers_cast t v : answers v -> answers (Cast t v).
Proof.
  intros IH g s env1 env2 r s' An V j L. pose proof An as [_ _ O _ R1 R2 _].
  destruct (an_cast _ _ _ _ _ _ An) as (Av & I & Ln). cbn [visit] in V.
  destruct (visit_map _ _ _ _ _ V) as (q & s1 & Vv & ->).
  destruct (regular_node _ _ _ R1 L) as [_ N1], (regular_node _ _ _ R2 L) as [_ N2].
  cbn [node_regular ev type_of] in N1, N2, L |- *.
  assert (Lv : lane_in (type_of v) j) by now apply (lane_in_lanes t).
  pose proof Av as [Wv _ _ _ Rv1 Rv2 _]. pose proof (wf_wf_type v Wv) as [Iv _].
  apply cast_follows; auto using regular_range.
  - intros B. rewrite B, orb_true_r in *. auto.
  - now apply (IH g s env1 env2 q s1).
Qed.

Lemma answers_not a : answers a -> answers (ENot a).
Proof.
  intros IH g s env1 env2 r s' An V j L. destruct (an_not _ _ _ _ _ An) as (Aa & B). cbn [visit] in V.
  destruct (visit_map _ _ _ _ _ V) as (q & s1 & Va & ->). pose proof Aa as [_ _ _ _ R1 R2 _].
  assert (La : lane_in (type_of a) j) by now apply (lane_in_lanes (BoolT (lanes (type_of a)))).
  cbn [ev]. apply not_follows; try (eapply bool_range; [now apply regular_range|exact B]).
  now apply (IH g s env1 env2 q s1).
Qed.

Context (can_prove_sound : forall e env j, can_prove e = true -> wf e = true ->
  lane_in (type_of e) j -> defined env j e -> ev env j e <> 0).

(** What [can_prove] says of two branches. *)
Lemma proved_order op t f env j : match op with GE | LE => True | _ => False end ->
  can_prove (ECmp op t f) = true -> wf t = true -> wf f = true -> type_of t = type_of f ->
  lane_in (type_of t) j -> defined env j t -> defined env j f ->
  match op with GE => ev env j f <= ev env j t | _ => ev env j t <= ev env j f end.
Proof.
  intros G P Wt Wf T L [Ot Ft] [Of Ff].
  assert (W : wf (ECmp op t f) = true).
  { cbn [wf]. rewrite Wt, Wf, T. cbn. apply type_eqb_refl. }
  assert (D : defined env j (ECmp op t f)).
  { split; [now split|]. cbn [fits]. split; [|auto]. cbn [type_of ev]. apply in_type_bool.
    destruct (evcmp op _ _); cbn; auto. }
  pose proof (can_prove_sound _ env j P W) as N. cbn [ev] in N.
  assert (Lc : lane_in (type_of (ECmp op t f)) j) by now apply (lane_in_lanes (type_of t)).
  specialize (N Lc D). destruct op; try contradiction; cbn [evcmp] in N.
  - destruct (Z.leb_spec (ev env j t) (ev env j f)); [assumption|now destruct N].
  - destruct (Z.leb_spec (ev env j f) (ev env j t)); [assumption|now destruct N].
Qed.

Lemma answers_select c t f : answers c -> answers t -> answers f -> answers (Select c t f).
Proof.
  intros IHc IHt IHf g s env1 env2 r s' An V j L. pose proof An as [_ _ O _ _ _ _].
  destruct (an_select _ _ _ _ _ _ _ An) as (Ac & At & Af & B & T & Ln).
  cbn [visit type_of] in V, L. unfold scope_map3, scope_bind in V.
  destruct (visit var can_prove unique_t c s) as [[rc s1]|] eqn:Vc; [|discriminate].
  pose proof (visit_restores c s rc s1 O Vc) as ->.
  destruct (visit_map2 _ _ _ _ _ _ O V) as (ra & rb & Vt & Vf & ->). pose proof (Ln j L) as Lc.
  destruct (operand_answers _ _ _ _ _ _ _ IHc Ac Vc Lc) as (Fc & Ic1 & Ic2 & _).
  destruct (operand_answers _ _ _ _ _ _ _ IHt At Vt L) as [Ft _].
  assert (Lf : lane_in (type_of f) j) by now rewrite <- T.
  destruct (operand_answers _ _ _ _ _ _ _ IHf Af Vf Lf) as [Ff _].
  pose proof At as [Wt _ _ _ Rt1 Rt2 _]. pose proof Af as [Wf _ _ _ Rf1 Rf2 _].
  destruct (regular_node _ _ _ Rt1 L) as [Dt1 _], (regular_node _ _ _ Rt2 L) as [Dt2 _].
  destruct (regular_node _ _ _ Rf1 Lf) as [Df1 _], (regular_node _ _ _ Rf2 Lf) as [Df2 _].
  cbn [ev]. apply select_follows; try (eapply bool_range; eassumption); auto;
    intros P; split; first [now apply (proved_order GE)|now apply (proved_order LE)].
Qed.

Lemma answers_ramp b t n : answers b -> answers t -> answers (Ramp b t n).
Proof.
  intros IHb IHt g s env1 env2 r s' An V j L. pose proof An as [_ _ O _ R1 R2 _].
  destruct (an_ramp _ _ _ _ _ _ _ An) as (Ab & At & Sb & St & Vl). cbn [visit] in V.
  destruct (scope_map2_some _ _ _ _ _ _ (visit_restores b)
    (restores_map2 _ _ _ (visit_name_restores unique_t) (visit_restores t)) O V) as (rb & q & Vb & Vq & ->).
  destruct (scope_map2_some _ _ _ _ _ _ (visit_name_restores unique_t) (visit_restores t) O Vq)
    as (rt & rs & _ & Vt & ->).
  destruct (operand_answers _ _ _ _ _ _ j IHb Ab Vb (lane_in_scalar _ _ Sb)) as (Fb & _).
  destruct (operand_answers _ _ _ _ _ _ j IHt At Vt (lane_in_scalar _ _ St)) as (Ft & _ & _ & Pt & Nt).
  destruct (regular_node _ _ _ R1 L) as [_ N1], (regular_node _ _ _ R2 L) as [_ N2].
  cbn [node_regular] in N1, N2. rewrite N1, N2.
  assert (Fq : follows (mul_rule (EVariable (type_of b) unique_t) t rt rs) (j * ev env1 j t) (j * ev env2 j t)).
  { apply mul_follows; auto; try discriminate. now apply follows_eq. }
  apply (lift_monotone (fun _ => True)); auto using unify_follows_l, unify_follows_r. intros. lia.
Qed.

Lemma answers_broadcast v n : answers v -> answers (Broadcast v n).
Proof.
  intros IH g s env1 env2 r s' An V j L. destruct (an_broadcast _ _ _ _ _ _ An) as [Av S].
  cbn [visit ev] in *. apply (IH g s env1 env2 r s'); auto. now apply lane_in_scalar.
Qed.

Lemma answers_load t n p i al : answers i -> answers (Load t n p i al).
Proof.
  intros IH g s env1 env2 r s' An V j L. pose proof An as [_ _ _ [Mem _ _] _ _ _].
  destruct (an_load _ _ _ _ _ _ _ _ _ An) as [Ai Ln]. cbn [visit type_of ev] in *.
  destruct (visit_map _ _ _ _ _ V) as (q & s1 & Vi & ->).
  assert (Li : lane_in (type_of i) j) by now apply (lane_in_lanes t).
  apply follows_constant_or_unknown with (ev env1 j i) (ev env2 j i).
  - rewrite Mem. now intros ->.
  - now apply (IH g s env1 env2 q s1).
Qed.

(** In all of its lanes an expression has the same value. *)
Definition unchanged (env1 env2 : Env) (a : Expr) : Prop :=
  forall j, lane_in (type_of a) j -> ev env1 j a = ev env2 j a.

Lemma all_constant_unchanged g s env1 env2 l : Forall answers l -> Forall (analyzed g s env1 env2) l ->
  forall r s', all_constant (visit var can_prove unique_t) l s = Some (r, s') ->
  r = Unknown \/ Forall (unchanged env1 env2) l.
Proof.
  induction 1 as [|a l A _ IH]; intros An r s' V; [now right|].
  apply Forall_cons_iff in An as [Aa Al]. cbn [all_constant] in V. unfold scope_bind in V.
  destruct (visit var can_prove unique_t a s) as [[q s1]|] eqn:Va; [|discriminate].
  pose proof (visit_restores a s q s1 (an_scope _ _ _ _ _ Aa) Va) as ->.
  destruct (constant_result q) eqn:K; [|left; injection V as <- _; reflexivity].
  destruct (IH Al r s' V) as [->|U]; [now left|right]. constructor; [|exact U].
  intros j L. apply (constant_follows q); [exact K|]. now apply (A g s env1 env2 q s).
Qed.

Lemma unchanged_node g env1 env2 e : mem env1 = mem env2 -> ext env1 = ext env2 ->
  plain e = true -> wf e = true -> typed g e = true -> Forall (unchanged env1 env2) (children e) ->
  unchanged env1 env2 e.
Proof.
  intros Mem Ext N W Ty U j L.
  transitivity (ev env1 j (visit_children (fun a => a) e)).
  - f_equal. symmetry. apply visit_children_same. now apply Forall_forall.
  - apply (visit_children_value (fun a => a) env1 env2 Mem Ext); auto; [now apply (typed_args_lanes g)|].
    eapply Forall_impl; [|exact U]. intros a Ua. now split.
Qed.

Lemma visit_back_last f l s r s' : visit_back f l s = Some (r, s') ->
  exists k a, l = k ++ [a] /\ f a s = Some (r, s').
Proof.
  induction l as [|a l IH]; [discriminate|]. cbn [visit_back]. destruct l as [|b l].
  - intros V. now exists [], a.
  - intros V. destruct (IH V) as (k & c & E & Vc). exists (a :: k), c. now rewrite E.
Qed.

(** An argument a call stands for. *)
Lemma answers_arg g s env1 env2 t n args ct vi a r s' j : Forall answers args ->
  analyzed g s env1 env2 (ECall t n args ct vi) -> lane_in t j -> In a args ->
  visit var can_prove unique_t a s = Some (r, s') -> follows r (ev env1 j a) (ev env2 j a).
Proof.
  intros A An L I V. destruct (an_call _ _ _ _ _ _ _ _ _ An) as [Aa La].
  rewrite Forall_forall in A, Aa, La. apply (A a I g s env1 env2 r s'); auto.
Qed.

Lemma answers_call t n args ct vi : Forall answers args -> answers (ECall t n args ct vi).
Proof.
  intros IH g s env1 env2 r s' An V j L. pose proof An as [W Ty _ [Mem Ext _] R1 R2 _].
  destruct (regular_node _ _ _ R1 L) as [_ [B1 Q1]], (regular_node _ _ _ R2 L) as [_ [B2 Q2]].
  cbn [visit type_of] in V, L. destruct (returns_last n ct).
  - destruct (visit_back_last _ _ _ _ _ V) as (k & a & E & Va).
    rewrite (B1 eq_refl a k E), (B2 eq_refl a k E).
    apply (answers_arg g s env1 env2 t n args ct vi a r s'); auto. rewrite E, in_app_iff. right. now left.
  - destruct (is_intrinsic n ct require_name).
    + destruct args as [|b [|a l]]; try discriminate V. rewrite (Q1 eq_refl a eq_refl), (Q2 eq_refl a eq_refl).
      apply (answers_arg g s env1 env2 t n (b :: a :: l) ct vi a r s'); auto. right. now left.
    + destruct (an_call _ _ _ _ _ _ _ _ _ An) as [Aa _].
      destruct (all_constant_unchanged g s env1 env2 args IH Aa r s' V) as [->|U]; [exact I|].
      apply follows_eq. now apply (unchanged_node g env1 env2 (ECall t n args ct vi)).
Qed.

Lemma answers_shuffle vs ixs : Forall answers vs -> answers (Shuffle vs ixs).
Proof.
  intros IH g s env1 env2 r s' An V j L. pose proof An as [W Ty _ [Mem Ext _] _ _ _].
  destruct (all_constant_unchanged g s env1 env2 vs IH (an_shuffle _ _ _ _ _ _ An) r s' V) as [->|U]; [exact I|].
  apply follows_eq. now apply (unchanged_node g env1 env2 (Shuffle vs ixs)).
Qed.

Lemma answers_let n v b : answers v -> answers b -> answers (ELet n v b).
Proof.
  intros IHv IHb g s env1 env2 r s' An V j L. pose proof An as [_ _ O _ _ _ _].
  cbn [visit type_of ev] in *. unfold scope_bind in V.
  destruct (visit var can_prove unique_t v s) as [[q s1]|] eqn:Vv; [|discriminate].
  pose proof (visit_restores v s q s1 O Vv) as ->. destruct (an_let _ _ _ _ _ _ _ q An) as [Av Ab].
  assert (Fv : forall i, lane_in (type_of v) i -> follows q (ev env1 i v) (ev env2 i v)).
  { intros i Li. now apply (IHv g s env1 env2 q s). }
  specialize (Ab Fv). destruct (constant_result q); [now apply (IHb _ _ _ _ r s' Ab V)|].
  unfold scoped in V.
  destruct (visit var can_prove unique_t b (push s n q)) as [[q2 s2]|] eqn:Vb; [|discriminate].
  destruct (pop s2 n); [|discriminate]. injection V as <- _. now apply (IHb _ _ _ _ q2 s2 Ab Vb).
Qed.

Lemma visit_answers e : answers e.
Proof.
  induction e using Expr_ind'; auto using answers_bin, answers_cmp, answers_cast, answers_not, answers_select,
    answers_ramp, answers_broadcast, answers_load, answers_call, answers_shuffle, answers_let;
    intros g sc env1 env2 r sc' An V j L; try (injection V as <- _; reflexivity).
  destruct An as [_ Ty _ [_ _ N] _ _ _]. cbn [visit ev] in *. now apply (N n t j r sc').
Qed.
End Compared.

(** ** The visitor answers *)

(** The arguments the visitor takes for granted. *)
Fixpoint calls_complete (e : Expr) : bool :=
  match e with
  | IntImm _ _ | UIntImm _ _ | FloatImm _ _ | StringImm _ | EVariable _ _ => true
  | Cast _ a | ENot a | Broadcast a _ | Load _ _ _ a _ => calls_complete a
  | EBin _ a b | ECmp _ a b | Ramp a b _ | ELet _ a b => calls_complete a && calls_complete b
  | Select c t f => calls_complete c && calls_complete t && calls_complete f
  | ECall _ n args ct _ =>
      forallb calls_complete args &&
      (if returns_last n ct then negb (Nat.eqb (List.length args) 0)
       else if is_intrinsic n ct require_name then Nat.leb 2 (List.length args) else true)
  | Shuffle vs _ => forallb calls_complete vs
  end.

Section Total.
Context (var : string) (can_prove : Expr -> bool) (unique_t : string).

Definition total {A} (m : MonoM A) : Prop := forall s, scope_ok s -> exists a, m s = Some (a, s).

Lemma total_bind {A B} (m : MonoM A) (k : A -> MonoM B) :
  total m -> (forall a, total (k a)) -> total (scope_bind m k).
Proof. intros M K s O. unfold scope_bind. destruct (M s O) as [a ->]. now apply K. Qed.

Lemma total_ret {A} (a : A) : total (scope_ret a).
Proof. intros s _. now exists a. Qed.

Lemma total_map {A B} (f : A -> B) m : total m -> total (scope_map f m).
Proof. intros M. apply total_bind; auto using @total_ret. Qed.

Lemma total_map2 {A B C} (f : A -> B -> C) m k : total m -> total k -> total (scope_map2 f m k).
Proof. intros M K. apply total_bind; auto using @total_map. Qed.

Lemma total_map3 {A B C D} (f : A -> B -> C -> D) m k l : total m -> total k -> total l ->
  total (scope_map3 f m k l).
Proof. intros M K L. apply total_bind; auto using @total_map2. Qed.

Lemma total_scoped {A} n v (m : MonoM A) : total m -> total (scoped n v m).
Proof.
  intros M s O. unfold scoped. destruct (M (push s n v) (push_scope_ok s n v O)) as [a ->].
  rewrite pop_push_scope by exact O. now exists a.
Qed.

Lemma total_name n : total (visit_name var n).
Proof.
  intros s _. unfold visit_name. destruct (String.eqb n var); [eauto|].
  destruct (contains s n) eqn:C; [|eauto]. apply contains_get in C as [r ->]. eauto.
Qed.

Lemma total_all_constant f l : Forall (fun a => total (f a)) l -> total (all_constant f l).
Proof.
  induction 1 as [|a l R _ IH]; cbn; [apply total_ret|]. apply total_bind; [exact R|].
  intros r. destruct (constant_result r); auto using @total_ret.
Qed.

Lemma total_back f l : l <> [] -> Forall (fun a => total (f a)) l -> total (visit_back f l).
Proof.
  intros N. induction 1 as [|a l R H IH]; [contradiction|]. cbn. destruct l; [exact R|now apply IH].
Qed.

Lemma complete_total l :
  Forall (fun a => calls_complete a = true -> total (visit var can_prove unique_t a)) l ->
  forallb calls_complete l = true -> Forall (fun a => total (visit var can_prove unique_t a)) l.
Proof.
  rewrite forallb_Forall. intros H C. induction H; inversion C; subst; constructor; auto.
Qed.

Lemma visit_total e : calls_complete e = true -> total (visit var can_prove unique_t e).
Proof.
  induction e using Expr_ind'; cbn [calls_complete visit]; intros C; destr_and;
    auto using @total_ret, @total_map, @total_map3, total_name, total_all_constant, complete_total.
  - destruct op; auto using @total_map2, @total_ret.
  - destruct op; auto using @total_map2.
  - auto using @total_map2, total_name.
  - pose proof (complete_total args H H0) as T. destruct (returns_last n ct).
    + apply total_back; [|exact T]. now destruct args.
    + destruct (is_intrinsic n ct require_name); [|now apply total_all_constant].
      destruct T as [|a l _ [|b m Tb _]]; try discriminate; assumption.
  - apply total_bind; [auto|]. intros r. destruct (constant_result r); auto using @total_scoped.
Qed.
End Total.

(** ** Theorems *)


(** A prover of inequalities between an expression and the same expression
    with a constant added. *)
Definition offset (e : Expr) : Expr * Z :=
  match e with
  | EBin Add a (IntImm _ k) => (a, k)
  | EBin Sub a (IntImm _ k) => (a, - k)
  | _ => (e, 0)
  end.

Definition offset_prover (e : Expr) : bool :=
  match e with
  | ECmp op a b =>
      no_overflow_int (type_of a) && equal (fst (offset a)) (fst (offset b)) &&
      match op with
      | GE => snd (offset b) <=? snd (offset a)
      | LE => snd (offset a) <=? snd (offset b)
      | _ => false
      end
  | _ => false
  end.

Lemma offset_value env j a : no_overflow_int (type_of a) = true ->
  ev env j a = ev env j (fst (offset a)) + snd (offset a).
Proof.
  intros O. destruct a; try (cbn; lia). destruct op; try (cbn; lia); destruct a2; try (cbn; lia);
    cbn [offset fst snd ev evbin type_of] in *; rewrite norm_no_overflow by assumption; lia.
Qed.

Lemma offset_prover_sound e env j : offset_prover e = true -> wf e = true -> ev env j e <> 0.
Proof.
  destruct e; try discriminate. cbn [offset_prover]. intros P W. destr_and.
  destruct (wf_comparison _ _ _ W) as (_ & _ & T).
  match goal with H : equal _ _ = true |- _ => destruct (equal_sound _ _ H) as [_ E] end.
  assert (Oa : no_overflow_int (type_of e1) = true) by assumption.
  assert (Ob : no_overflow_int (type_of e2) = true) by now rewrite T.
  cbn [ev]. rewrite (offset_value env j e1 Oa), (offset_value env j e2 Ob), (E env j).
  destruct op; try discriminate; zify_bool; cbn [evcmp];
    match goal with |- b2z ?b <> 0 => destruct b eqn:X end; try discriminate; zify_bool; lia.
Qed.

(** The cases of [is_monotonic_test]. *)
Section Test.
Let x := EVariable (Int 32 1) "x".
Let y := EVariable (Int 32 1) "y".
Let k n := IntImm (Int 32 1) n.
Let add := EBin Add.
Let sub := EBin Sub.
Let mul := EBin Mul.
Let neg := sub (k 0).

Definition increasing_tests : list Expr :=
  [ x; add x (k 4); add x y; mul x (k 4); EBin Min (add x (k 4)) (add y (k 4));
    ECmp GE x y; ECmp GT x y;
    Select (ECmp EQ y (k 2)) x (add x (k 4));
    Select (ECmp GT x (k 2)) (add x (k 1)) x; Select (ECmp LT x (k 2)) x (add x (k 1));
    Select (ECmp LT x (k 17)) y (add y (k 1)); Select (ECmp GT x (k 17)) y (sub y (k 1));
    Select (ECmp EQ (EBin Mod x (k 2)) (k 0)) (add x (k 3)) (add x (k 3)) ].

Definition decreasing_tests : list Expr :=
  [ neg x; mul x (k (-4)); sub y x; ECmp LT x y; ECmp LE x y;
    Select (ECmp EQ y (k 2)) (neg x) (mul x (k (-4)));
    Select (ECmp GT x (k 2)) (sub (neg x) (k 1)) (neg x);
    Select (ECmp LT x (k 2)) (neg x) (sub (neg x) (k 1));
    Select (ECmp LT x (k 17)) y (sub y (k 1)); Select (ECmp GT x (k 17)) y (add y (k 1)) ].

Definition unknown_tests : list Expr :=
  [ ECmp EQ x y; ECmp NE x y; mul x y;
    Select (ECmp LT x (k 2)) x (sub x (k 5)); Select (ECmp GT x (k 2)) (sub x (k 5)) x ].

Definition constant_tests : list Expr :=
  [ y; Select (ECmp GT y (k 3)) (add y (k 23)) (sub y (k 65)) ].
End Test.

Definition test_answer (e : Expr) : option Monotonic :=
  is_monotonic "x" offset_prover "t" (Some e) empty_scope.

Example is_monotonic_tests :
  map test_answer increasing_tests = map (fun _ => Some Increasing) increasing_tests /\
  map test_answer decreasing_tests = map (fun _ => Some Decreasing) decreasing_tests /\
  map test_answer unknown_tests = map (fun _ => Some Unknown) unknown_tests /\
  map test_answer constant_tests = map (fun _ => Some Constant) constant_tests.
Proof. vm_compute. repeat split. Qed.

(** What the theorem excludes: a let that binds the variable itself, and a
    constant factor that a narrowing cast makes negative. *)
Example not_increasing :
  let x := EVariable (Int 32 1) "x" in let k n := IntImm (Int 32 1) n in
  let rebound := ELet "x" (EBin Sub (k 0) x) x in
  let narrow := EBin Mul (EVariable (Int 8 1) "x") (Cast (Int 8 1) (k 200)) in
  let env v := mkEnv (fun _ _ => v) (fun _ _ => 0) (fun _ _ _ _ => 0) in
  (test_answer rebound = Some Increasing /\ ev (env 1) 0 rebound = -1 /\ ev (env 2) 0 rebound = -2) /\
  (test_answer narrow = Some Increasing /\ ev (env 1) 0 narrow = -56 /\ ev (env 2) 0 narrow = -112).
Proof. vm_compute. repeat split. Qed.

(** [let z = x*2 in select(z > 2, z + 1, z)]. *)
Definition sample_monotonic : Expr :=
  let z := EVariable (Int 32 1) "z" in let k n := IntImm (Int 32 1) n in
  ELet "z" (EBin Mul (EVariable (Int 32 1) "x") (k 2))
    (Select (ECmp GT z (k 2)) (EBin Add z (k 1)) z).

