(* ===== verification/Simplifier.v ===== *)
(** * The simplifier

    [Simplify::mutate] and its dispatch, and the entry point [simplify] of
    src/Simplify.cpp.  The recursion is not structural: a visit may go on with
    what it has rewritten its node to.  So it has fuel, and a run that is out of
    fuel is void. *)

From Stdlib Require Import ZArith Lia Bool List String.
From S2P Require Import Prelude.
From S2P Require Import IntArith.
From S2P Require Import ModulusRemainder.
From S2P Require Import Scope.
From S2P Require Import HalideTypes.
From S2P Require Import IR.
From S2P Require Import Typing.
From S2P Require Import IRMatch.
From S2P Require Import RuleSem.
From S2P Require Import Visit.
From S2P Require Import Mutator.
From S2P Require Import ExprInfo.
From S2P Require Import Interval.
From S2P Require Import Alignment.
From S2P Require Import ScopedFact.
From S2P Require Import Intrinsics.
From S2P Require Import SimplifyExprs.
From S2P Require Import SimplifyRun.
From S2P Require Import SimplifyNodes.
From S2P Require Import SimplifyNodesSound.
From S2P Require Import SimplifyLet.
From S2P Require Import SimplifyCall.
From S2P Require Import CallSound.
From S2P Require Import SimplifyShuffle.
From S2P Require Import ShuffleSound.
Import ListNotations.
Open Scope string_scope.
Open Scope list_scope.
Open Scope Z_scope.

(** ** The recursion *)

Definition visit_others (mutate : Mutate) (e : Expr) (bounds : option ExprInfo) : R Result :=
  match e with
  | ECall t n args ct vi => visit_call mutate t n args ct vi bounds
  | Shuffle vs ixs => visit_shuffle mutate vs ixs bounds
  | _ => visit_let mutate e bounds
  end.

(** [VariadicVisitor::dispatch]. *)
Definition dispatch (mutate : Mutate) : Mutate := visit_node mutate (visit_others mutate).

Fixpoint mutate (fuel : nat) : Mutate :=
  match fuel with
  | O => fun e bounds => fail (e, bounds)
  | S fuel => dispatch (mutate fuel)
  end.

Lemma mutates_fail : mutates (fun e bounds => fail (e, bounds)).
Proof.
  intros e b. apply visits_intro; [apply framed_fail|]. intros s r b' s' [= <- <- <-] W V. now apply fail_delivered.
Qed.

Lemma mutates_dispatch m : mutates m -> mutates (dispatch m).
Proof.
  intros Mu e b. apply node_visits; [exact Mu|]. clear e b. intros e b. unfold visit_others.
  destruct e; try now apply visit_let_visits.
  - now apply visit_call_visits.
  - now apply visit_shuffle_visits.
Qed.

Lemma mutate_mutates fuel : mutates (mutate fuel).
Proof. induction fuel as [|fuel IH]; [apply mutates_fail|now apply mutates_dispatch]. Qed.

(** ** The entry point *)

(** What the constant bounds of an interval and an alignment say. *)
Definition interval_info (iv : Interval) (alignment : option ModulusRemainder) : ExprInfo :=
  mkInfo (match as_const_int (imin iv) with Some v => v | None => 0 end)
    (match as_const_int (imax iv) with Some v => v | None => 0 end)
    (match as_const_int (imin iv) with Some _ => true | None => false end)
    (match as_const_int (imax iv) with Some _ => true | None => false end)
    (match alignment with Some a => a | None => mr_top end).

Definition informative (x : ExprInfo) : bool :=
  min_defined x || max_defined x || negb (modulus (info_alignment x) =? 1).

Definition push_interval (ai : Scope ModulusRemainder) (s : Scope ExprInfo) (p : string * Interval) : Scope ExprInfo :=
  let x := interval_info (snd p) (if contains ai (fst p) then get ai (fst p) else None) in
  if informative x then push s (fst p) x else s.

Definition push_alignment (s : Scope ExprInfo) (p : string * ModulusRemainder) : Scope ExprInfo :=
  if contains s (fst p) then s else push s (fst p) (mkInfo 0 0 false false (snd p)).

(** [Simplify::Simplify]: the constant bounds and the alignments of the
    containing scopes. *)
Definition containing_info (bi : Scope Interval) (ai : Scope ModulusRemainder) : Scope ExprInfo :=
  fold_left push_alignment (entries ai) (fold_left (push_interval ai) (entries bi) empty_scope).

Definition simplifier (dead_lets : bool) (bi : Scope Interval) (ai : Scope ModulusRemainder) : Run :=
  set_knowledge (mkState empty_scope (containing_info bi ai) (mkFacts [] [])) (start dead_lets).

(** [simplify(Expr, ...)], with the run it takes. *)
Definition simplify (fuel : nat) (e : Expr) (dead_lets : bool) (bi : Scope Interval) (ai : Scope ModulusRemainder)
    : Expr * Run :=
  let '((r, _), s) := mutate fuel e None (simplifier dead_lets bi ai) in (r, s).

(** ** What the containing scopes say *)

(** Each name has the values its bounds and its alignment allow. *)
Record contained (ty : string -> HType) (env : Env) (bi : Scope Interval) (ai : Scope ModulusRemainder) : Prop := {
  contained_bounds : forall n iv i, ref bi n = Some iv -> lane_in (ty n) i ->
    (forall k, as_const_int (imin iv) = Some k -> k <= value ty env i n) /\
    (forall k, as_const_int (imax iv) = Some k -> value ty env i n <= k);
  contained_alignment : forall n al i, get ai n = Some al -> lane_in (ty n) i -> mr_contains al (value ty env i n)
}.

Section Containing.
Context (ty : string -> HType) (env : Env) (bi : Scope Interval) (ai : Scope ModulusRemainder).
Context (C : contained ty env bi ai).

Definition infos_hold (s : Scope ExprInfo) : Prop :=
  forall n x, get s n = Some x -> forall i, lane_in (ty n) i -> info_holds x (value ty env i n).

Lemma known_pushed s n x : infos_hold s -> (forall i, lane_in (ty n) i -> info_holds x (value ty env i n)) -> infos_hold (push s n x).
Proof.
  intros H X m z G i L. destruct (String.eqb_spec m n) as [->|N].
  - rewrite get_push in G. injection G as <-. now apply X.
  - rewrite get_push_ne in G by exact N. exact (H m z G i L).
Qed.

Lemma interval_info_holds n iv i : ref bi n = Some iv -> lane_in (ty n) i ->
  info_holds (interval_info iv (if contains ai n then get ai n else None)) (value ty env i n).
Proof.
  intros R L. destruct (contained_bounds _ _ _ _ C n iv i R L) as [Lo Hi].
  split; cbn [interval_info min_defined max_defined info_min info_max info_alignment].
  - destruct (as_const_int (imin iv)) as [k|]; [auto|discriminate].
  - destruct (as_const_int (imax iv)) as [k|]; [auto|discriminate].
  - destruct (contains ai n); [|apply mr_contains_top]. destruct (get ai n) as [al|] eqn:G; [|apply mr_contains_top].
    exact (contained_alignment _ _ _ _ C n al i G L).
Qed.

Lemma intervals_hold l : (forall n iv, In (n, iv) l -> ref bi n = Some iv) -> forall s, infos_hold s ->
  infos_hold (fold_left (push_interval ai) l s).
Proof.
  induction l as [|[n iv] l IH]; intros R s H; [exact H|]. cbn [fold_left]. apply IH; [intros; apply R; now right|].
  unfold push_interval. cbn [fst snd]. destruct (informative _); [|exact H]. apply known_pushed; [exact H|].
  intros i L. apply interval_info_holds; [apply R; now left|exact L].
Qed.

Lemma alignments_hold l : (forall n al, In (n, al) l -> ref ai n = Some al) -> forall s, infos_hold s ->
  infos_hold (fold_left push_alignment l s).
Proof.
  induction l as [|[n al] l IH]; intros R s H; [exact H|]. cbn [fold_left]. apply IH; [intros; apply R; now right|].
  unfold push_alignment. cbn [fst snd]. destruct (contains s n); [exact H|]. apply known_pushed; [exact H|].
  intros i L. split; cbn; try discriminate.
  exact (contained_alignment _ _ _ _ C n al i (get_ref ai n al (R n al (or_introl eq_refl))) L).
Qed.

Lemma containing_holds : infos_hold (containing_info bi ai).
Proof.
  apply alignments_hold; [intros n al; apply entries_ref|]. apply intervals_hold; [intros n iv; apply entries_ref|].
  intros n x G. discriminate G.
Qed.

Lemma simplifier_known dead_lets : known ty env (view (simplifier dead_lets bi ai)).
Proof.
  split.
  - intros n r G. discriminate G.
  - exact containing_holds.
  - intros i. split; intros e [].
Qed.
End Containing.

Lemma containing_ok bi ai : scope_ok (containing_info bi ai).
Proof.
  unfold containing_info. assert (A : forall l s, scope_ok s -> scope_ok (fold_left (push_interval ai) l s)).
  { induction l as [|p l IH]; intros s O; [exact O|]. cbn [fold_left]. apply IH. unfold push_interval.
    destruct (informative _); [now apply push_scope_ok|exact O]. }
  assert (B : forall l s, scope_ok s -> scope_ok (fold_left push_alignment l s)).
  { induction l as [|p l IH]; intros s O; [exact O|]. cbn [fold_left]. apply IH. unfold push_alignment.
    destruct (contains s (fst p)); [exact O|now apply push_scope_ok]. }
  apply B, A, empty_scope_ok.
Qed.

Lemma simplifier_wf dead_lets bi ai : view_wf (view (simplifier dead_lets bi ai)).
Proof.
  split; [split; [apply empty_scope_ok|apply containing_ok]|]. intros n r G. discriminate G.
Qed.

(** ** The simplifier is correct *)



(** ** The visits it is made of *)

(** A run of the simplifier on [e], from what is true, that meets no undefined
    behaviour. *)
Record sound_run (ty : string -> HType) (env : Env) (e : Expr) (bounds : option ExprInfo) (s s' : Run) : Prop := {
  sr_view : view_wf (view s);
  sr_sane : sane_env env;
  sr_calm : calm ty env s';
  sr_known : known ty env (view s);
  sr_everywhere : everywhere ty env e;
  sr_bounds : bounds_hold env e bounds
}.

(** [r] and the bounds reported stand for [e], and what is known is as before. *)
Record sound_result (ty : string -> HType) (env : Env) (e r : Expr) (bounds : option ExprInfo) (s s' : Run) : Prop := {
  so_wf : wf r = true;
  so_type : type_of r = type_of e;
  so_view : view s' = view s;
  so_good : good ty env e r;
  so_bounds : bounds_hold env e bounds
}.

Lemma visits_run m e bounds r b' s s' ty env : visits e bounds m -> m s = ((r, b'), s') -> wf e = true ->
  sound_run ty env e bounds s s' -> sound_result ty env e r b' s s'.
Proof.
  intros [F T S] M W [V N Ca K E B]. destruct (T _ _ _ _ M W V) as [Wr Tr].
  destruct (S ty env _ _ _ _ M W V N Ca K E B) as [G B']. split; auto. apply (F _ _ _ M), V.
Qed.

(** ** Runs of examples *)

Lemma standard_sane v m : sane_env (mkEnv v m standard_ext).
Proof.
  split; [| |apply standard_documented].
  - intros name t i l [-> | ->]; destruct l as [|y [|z l]]; reflexivity.
  - intros name t i x l [-> | ->] O; destruct l as [|y [|z l]]; exact O.
Qed.

(** A scalar expression without undefined behaviour, by computation. *)
Section Fine.
Context (ty : string -> HType) (env : Env).

Fixpoint fine (e : Expr) : bool :=
  is_scalar (type_of e) && in_typeb (type_of e) (ev env 0 e) &&
  match e with
  | IntImm _ _ | UIntImm _ _ => true
  | Cast _ v | ENot v => fine v
  | EVariable t n => type_eqb t (ty n)
  | EBin op a b => fine a && fine b && (if divides op then negb (ev env 0 b =? 0) else true)
  | ECmp _ a b => fine a && fine b
  | Select c t f => fine c && fine t && fine f
  | _ => false
  end.

Lemma fine_uniform e i : fine e = true -> ev env i e = ev env 0 e.
Proof.
  induction e; cbn [fine]; intros F; try (apply andb_true_iff in F; destruct F as [_ F]; discriminate F); try reflexivity; destr_and; cbn [ev].
  - now rewrite IHe.
  - unfold lane_of. cbn [type_of] in *. unfold is_scalar in *. now rewrite H.
  - now rewrite IHe1, IHe2.
  - now rewrite IHe1, IHe2.
  - now rewrite IHe.
  - now rewrite IHe1, IHe2, IHe3.
Qed.

Lemma fine_defined e i : fine e = true -> defined env i e.
Proof.
  intros F0. pose proof (fine_uniform e i F0) as U. revert F0 U.
  induction e; cbn [fine]; intros F U; try (apply andb_true_iff in F; destruct F as [_ F]; discriminate F);
    destr_and; repeat match goal with H : in_typeb _ _ = true |- _ => apply in_typeb_spec in H; rewrite <- U in H end;
    repeat match goal with H : fine ?e = true |- _ => lazymatch goal with K : ev env i e = ev env 0 e |- _ => fail | _ => pose proof (fine_uniform e i H) end end.
  - now split.
  - now split.
  - destruct IHe as [O Fi]; auto. now split.
  - now split.
  - destruct IHe1 as [O1 F1], IHe2 as [O2 F2]; auto. split; [|now split]. split; [exact O1|]. split; [exact O2|].
    destruct op; try exact I; cbn [divides] in *;
      match goal with H : negb (_ =? 0) = true |- _ => apply negb_true_iff, Z.eqb_neq in H; congruence end.
  - destruct IHe1 as [O1 F1], IHe2 as [O2 F2]; auto. split; now split.
  - destruct IHe as [O Fi]; auto. now split.
  - destruct IHe1 as [O1 F1], IHe2 as [O2 F2], IHe3 as [O3 F3]; auto. split; [now split|]. split; [assumption|now split].
Qed.

Lemma fine_everywhere e : fine e = true -> everywhere ty env e.
Proof.
  induction e; intros F0; pose proof F0 as F; cbn [fine] in F; try (apply andb_true_iff in F; destruct F as [_ F]; discriminate F);
    destr_and; (constructor; [split; [intros i _; now apply fine_defined|split; [intros _ i; now apply fine_uniform|]]|cbn [children]; auto]);
    try exact I.
  now apply type_eqb_eq.
Qed.

(** A ramp of such scalars. *)
Lemma fine_ramp b st n : fine b && fine st && is_scalar (type_of b) && is_scalar (type_of st) && (1 <? n) &&
  forallb (fun k => in_typeb (with_lanes (type_of b) n) (ev env (Z.of_nat k) (Ramp b st n))) (seq 0 (Z.to_nat n)) = true ->
  everywhere ty env (Ramp b st n).
Proof.
  intros F. destr_and. rewrite forallb_forall in H0. apply Z.ltb_lt in H1.
  constructor; [split; [|split; [|exact I]]|cbn [children]; auto using fine_everywhere].
  - intros i L. cbn [type_of] in L. destruct L as [L|L]; [apply Z.eqb_eq in L; change (n = 1) in L; lia|change (0 <= i < n) in L].
    destruct (fine_defined b i), (fine_defined st i); auto. split; [now split|]. cbn [fits type_of]. split; [|now split].
    apply in_typeb_spec. specialize (H0 (Z.to_nat i)). rewrite Z2Nat.id in H0 by lia. apply H0, in_seq. lia.
  - intros L. apply Z.eqb_eq in L. change (n = 1) in L. lia.
Qed.
End Fine.

(** [x / 4 * 4 + x % 4], where [x] is 5. *)
Definition int_names (n : string) : HType := Int 32 1.
Definition sample_run_env : Env := mkEnv (fun _ _ => 5) (fun _ _ => 0) standard_ext.

Definition rounded : Expr :=
  EBin Add (EBin Mul (EBin Div (int_var "x") (int_imm 4)) (int_imm 4)) (EBin Mod (int_var "x") (int_imm 4)).

Lemma nothing_contained ty env : contained ty env empty_scope empty_scope.
Proof. split; intros ? ? ? H; discriminate H. Qed.

(** Decides what the events of a run without exceptions ask for. *)
Ltac fine_now := first [apply fine_everywhere; vm_compute; reflexivity | apply fine_ramp; vm_compute; reflexivity].
Ltac calm_event := cbn [event_ok step_expr];
  first
    [ split; [reflexivity|fine_now]
    | split; [intros j _; first [exact I|split; [intros []|reflexivity]]|fine_now]
    | cbn [combination_ok]; unfold SimplifyMul.mul_signs; concrete; try solve [right; concrete] ].
Ltac calm_run m :=
  split; [vm_compute; reflexivity|];
  let t := eval vm_compute in (trace (snd m)) in change (trace (snd m)) with t;
  repeat (apply Forall_cons; [calm_event|]); apply Forall_nil.

Lemma rounded_calm : calm int_names sample_run_env (snd (simplify 40 rounded true empty_scope empty_scope)).
Proof. calm_run (simplify 40 rounded true empty_scope empty_scope). Qed.






(** [let y = x + 1 in y * y], [x & 3] and the concatenation of [x] and [x + 1],
    where [x] is 5. *)
Definition begin : Run := simplifier true empty_scope empty_scope.
Definition sample_let_env : Env := mkEnv (fun n _ => if String.eqb n "x" then 5 else 6) (fun _ _ => 0) standard_ext.
Definition next_x : Expr := EBin Add (int_var "x") (int_imm 1).
Definition squared : Expr := EBin Mul (int_var "y") (int_var "y").

Lemma begin_known ty env : known ty env (view begin).
Proof. apply simplifier_known, nothing_contained. Qed.

Lemma let_everywhere : everywhere int_names sample_let_env (ELet "y" next_x squared).
Proof.
  constructor; [split; [|split]|].
  - intros i _. split; cbn [ok fits type_of]; repeat split; try intros ? _; concrete.
  - reflexivity.
  - split; reflexivity.
  - cbn [children]. repeat apply Forall_cons; try apply Forall_nil; apply fine_everywhere; vm_compute; reflexivity.
Qed.

Lemma and_everywhere : everywhere int_names sample_run_env
  (ECall (Int 32 1) "bitwise_and" [int_var "x"; int_imm 3] PureIntrinsic 0).
Proof.
  constructor; [split; [|split]|].
  - intros i _. split; cbn [ok fits type_of]; repeat split; concrete.
  - reflexivity.
  - repeat constructor.
  - cbn [children]. repeat apply Forall_cons; try apply Forall_nil; apply fine_everywhere; vm_compute; reflexivity.
Qed.

Lemma pair_everywhere : everywhere int_names sample_run_env (Shuffle [int_var "x"; next_x] [0; 1]).
Proof.
  constructor; [split; [|split; [discriminate|exact I]]|].
  - intros i [L|L]; [discriminate L|]. change (0 <= i < 2) in L.
    assert (E : i = 0 \/ i = 1) by lia. split; cbn [ok fits type_of].
    + repeat split.
    + split; [destruct E as [-> | ->]|repeat split]; vm_compute; intuition congruence.
  - cbn [children]. repeat apply Forall_cons; try apply Forall_nil; apply fine_everywhere; vm_compute; reflexivity.
Qed.

Ltac sound_witness m :=
  constructor; [apply simplifier_wf|apply standard_sane|calm_run m|apply begin_known| |exact I].



