(* ===== verification/SimplifyFuel.v ===== *)
(** * Fuel

    The fuel of [mutate] is not part of what it computes: a run that ends within
    its fuel is the run of every larger fuel.  [refines m1 m2] says that [m2] does
    what [m1] does wherever [m1] raises no error; every visit method keeps this. *)

From Stdlib Require Import ZArith Lia Bool List String.
From S2P Require Import Prelude.
From S2P Require Import Scope.
From S2P Require Import HalideTypes.
From S2P Require Import IR.
From S2P Require Import IRMatch.
From S2P Require Import Visit.
From S2P Require Import ModulusRemainder.
From S2P Require Import ExprInfo.
From S2P Require Import Interval.
From S2P Require Import ScopedFact.
From S2P Require Import SimplifyAdd.
From S2P Require Import SimplifySub.
From S2P Require Import SimplifyMul.
From S2P Require Import SimplifyDiv.
From S2P Require Import SimplifyMod.
From S2P Require Import SimplifyMin.
From S2P Require Import SimplifyMax.
From S2P Require Import SimplifyEQ.
From S2P Require Import SimplifyLT.
From S2P Require Import SimplifyAnd.
From S2P Require Import SimplifyOr.
From S2P Require Import SimplifyNot.
From S2P Require Import SimplifySelect.
From S2P Require Import SimplifyCast.
From S2P Require Import SimplifyExprs.
From S2P Require Import SimplifyRun.
From S2P Require Import SimplifyNodes.
From S2P Require Import LetPeel.
From S2P Require Import SimplifyLet.
From S2P Require Import SimplifyCall.
From S2P Require Import SimplifyShuffle.
From S2P Require Import Simplifier.
Import ListNotations.
Open Scope string_scope.
Open Scope list_scope.
Open Scope Z_scope.

(** ** Refinement of computations *)

Record refines {A} (m1 m2 : R A) : Prop := {
  refines_sticky : forall s a s', m1 s = (a, s') -> failed s = true -> failed s' = true;
  refines_agree : forall s a s', m1 s = (a, s') -> failed s' = false -> m2 s = (a, s')
}.

Lemma refines_same {A} (m : R A) : (forall s a s', m s = (a, s') -> failed s = true -> failed s' = true) -> refines m m.
Proof. now split. Qed.

Lemma refines_done {A} (a : A) : refines (done a) (done a).
Proof. apply refines_same. now intros s b s' [= _ <-]. Qed.

Lemma refines_note e : refines (note e) (note e).
Proof. apply refines_same. now intros s b s' [= _ <-]. Qed.

Lemma refines_fail {A} (a : A) (m : R A) : refines (fail a) m.
Proof. split; intros s b s' [= _ <-]; [reflexivity|discriminate]. Qed.

Lemma refines_bind {A B} (m1 m2 : R A) (k1 k2 : A -> R B) : refines m1 m2 -> (forall a, refines (k1 a) (k2 a)) ->
  refines (let! a := m1 in k1 a) (let! a := m2 in k2 a).
Proof.
  intros [S1 A1] K. split; intros s b s'; destruct (m1 s) as [a s1] eqn:E; intros E2.
  - intros F. exact (refines_sticky _ _ (K a) _ _ _ E2 (S1 _ _ _ E F)).
  - intros F. assert (F1 : failed s1 = false).
    { destruct (failed s1) eqn:F1; [|reflexivity]. now rewrite (refines_sticky _ _ (K a) _ _ _ E2 F1) in F. }
    rewrite (A1 _ _ _ E F1). exact (refines_agree _ _ (K a) _ _ _ E2 F).
Qed.

(** A computation that reads the state first. *)
Lemma refines_read {A} (f1 f2 : Run -> R A) : (forall s0, refines (f1 s0) (f2 s0)) ->
  refines (fun s => f1 s s) (fun s => f2 s s).
Proof. intros H. split; intros s a s'; apply (H s). Qed.

(** One that changes what is known, but not whether there was an error. *)
Lemma refines_after {A} (f : Run -> Run) (m1 m2 : R A) : (forall s, failed (f s) = failed s) -> refines m1 m2 ->
  refines (fun s => m1 (f s)) (fun s => m2 (f s)).
Proof.
  intros F [S1 A1]. split; intros s a s' E; [|now apply A1]. intros Fs. apply (S1 _ _ _ E). now rewrite F.
Qed.

Definition refines_mutate (m1 m2 : Mutate) : Prop := forall e b, refines (m1 e b) (m2 e b).

Section Refines.
Context (m1 m2 : Mutate) (Mu : refines_mutate m1 m2).

Lemma refines_mutated e b : refines (m1 e b) (m2 e b).
Proof. apply Mu. Qed.

Lemma refines_info e : refines (mutate_info m1 e) (mutate_info m2 e).
Proof. apply refines_bind; [apply Mu|]. intros [e' b]. apply refines_done. Qed.

Lemma refines_only e : refines (mutate_only m1 e) (mutate_only m2 e).
Proof. apply refines_bind; [apply Mu|]. intros [e' b]. apply refines_done. Qed.

Lemma refines_finish e x st b : refines (finish m1 e x st b) (finish m2 e x st b).
Proof. unfold finish. apply refines_bind; [apply refines_note|]. intros _. destruct st; first [apply refines_done|apply Mu]. Qed.

Lemma refines_report test k A B f b : refines (report test k A B f b) (report test k A B f b).
Proof.
  unfold report. repeat case_goal; try apply refines_done. apply refines_bind; [apply refines_note|].
  intros. apply refines_done.
Qed.

(** ** The rewriter *)

Abbreviation p1 := (run_prover m1).
Abbreviation p2 := (run_prover m2).

Lemma refines_prove e : refines (prove (Prover := p1) e) (prove (Prover := p2) e).
Proof.
  apply (refines_bind (note (Met e)) (note (Met e)) (fun _ => mutate_only m1 e) (fun _ => mutate_only m2 e));
    [apply refines_note|]. intros _. apply refines_only.
Qed.

Lemma refines_ret {A} (a : A) : refines (ret (prover := p1) a) (ret (prover := p2) a).
Proof. apply (refines_done a). Qed.

Lemma refines_poison t : refines (make_indeterminate_expression (prover := p1) t) (make_indeterminate_expression (prover := p2) t).
Proof. apply refines_same. now intros s b s' [= _ <-]. Qed.

Lemma refines_overflow t : refines (make_signed_integer_overflow (prover := p1) t) (make_signed_integer_overflow (prover := p2) t).
Proof. apply refines_same. now intros s b s' [= _ <-]. Qed.

Lemma refines_const_expr v t : refines (make_const_expr (prover := p1) v t) (make_const_expr (prover := p2) v t).
Proof.
  unfold make_const_expr, make_const_special_expr.
  repeat case_goal; auto using refines_ret, refines_poison, refines_overflow.
Qed.

Lemma refines_special t : refines (make_const_special_expr (prover := p1) t) (make_const_special_expr (prover := p2) t).
Proof. unfold make_const_special_expr. repeat case_goal; auto using refines_poison, refines_overflow. Qed.

(** Making and folding a pattern. *)
Lemma refines_make args s p :
  (forall t, refines (make (prover := p1) args s p t) (make (prover := p2) args s p t)) /\
  (forall t, refines (make_folded_const (prover := p1) args s p t) (make_folded_const (prover := p2) args s p t)).
Proof.
  induction p; repeat match goal with H : _ /\ _ |- _ => destruct H end;
    split; intros h; cbn [make make_folded_const];
    repeat first [ apply refines_ret | apply refines_prove | apply refines_const_expr | apply refines_special
                 | apply refines_bind; [first [now auto|apply refines_prove]|intros ?] | now auto | case_goal ].
Qed.

Lemma refines_fires e r : refines (rule_fires (prover := p1) e r) (rule_fires (prover := p2) e r).
Proof.
  unfold rule_fires, evaluate_predicate. repeat case_goal; try apply refines_ret.
  apply refines_bind; [|intros; apply refines_ret]. apply refines_bind; [apply refines_make|].
  intros [v u]. apply refines_ret.
Qed.

Lemma refines_rewrite e t rules : refines (rewrite (prover := p1) e t rules) (rewrite (prover := p2) e t rules).
Proof.
  induction rules as [|r rules IH]; cbn [rewrite]; [apply refines_ret|].
  apply refines_bind; [apply refines_fires|]. intros [s|]; [|exact IH].
  apply refines_bind; [apply refines_make|]. intros. apply refines_ret.
Qed.

Lemma refines_tables e done again otherwise :
  refines (apply_tables (prover := p1) e done again otherwise) (apply_tables (prover := p2) e done again otherwise).
Proof.
  unfold apply_tables. apply refines_bind; [apply refines_rewrite|]. intros [[[r s] x]|]; [apply refines_ret|].
  apply refines_bind; [apply refines_rewrite|]. intros [[[r s] x]|]; apply refines_ret.
Qed.

Lemma refines_tables_again e done again otherwise :
  refines (apply_tables_again_first (prover := p1) e done again otherwise)
    (apply_tables_again_first (prover := p2) e done again otherwise).
Proof.
  unfold apply_tables_again_first. apply refines_bind; [apply refines_rewrite|]. intros [[[r s] x]|]; [apply refines_ret|].
  apply refines_bind; [apply refines_rewrite|]. intros [[[r s] x]|]; apply refines_ret.
Qed.


(** ** The visit methods *)

Lemma refines_current : refines current current.
Proof. apply refines_same. now intros s b s' [= _ <-]. Qed.

Lemma refines_may t : refines (may t) (may t).
Proof. apply refines_same. now intros s b s' [= _ <-]. Qed.

Lemma refines_report_int t k A B x b : refines (report_int t k A B x b) (report_int t k A B x b).
Proof. apply refines_report. Qed.

(** Two computations of the same shape, step by step. *)
Ltac refine_step := first
  [ apply refines_done | apply refines_ret | apply refines_note | apply refines_fail | apply refines_current | apply refines_may
  | apply refines_tables | apply refines_tables_again | apply refines_rewrite | apply refines_poison | apply refines_overflow
  | apply refines_finish | apply refines_info | apply refines_only | apply refines_report_int | apply refines_report
  | apply Mu | assumption ].
Ltac refine_steps := repeat first [refine_step | apply refines_bind; [|intros] | progress intros | case_goal].

(** The steps that end a visit. *)
Lemma refines_Add nf a b : refines (visit_Add (prover := p1) nf a b) (visit_Add (prover := p2) nf a b).
Proof. unfold visit_Add. refine_steps. Qed.
Lemma refines_Sub nf a b : refines (visit_Sub (prover := p1) nf a b) (visit_Sub (prover := p2) nf a b).
Proof. unfold visit_Sub. refine_steps. Qed.
Lemma refines_Mul nf a b : refines (visit_Mul (prover := p1) nf a b) (visit_Mul (prover := p2) nf a b).
Proof. unfold visit_Mul. refine_steps. Qed.
Lemma refines_Div nf w a b A B : refines (visit_Div (prover := p1) nf w a b A B) (visit_Div (prover := p2) nf w a b A B).
Proof. unfold visit_Div. refine_steps. Qed.
Lemma refines_Mod nf a b A B : refines (visit_Mod (prover := p1) nf a b A B) (visit_Mod (prover := p2) nf a b A B).
Proof. unfold visit_Mod. refine_steps. Qed.
Lemma refines_Min nf a b A B : refines (visit_Min (prover := p1) nf a b A B) (visit_Min (prover := p2) nf a b A B).
Proof. unfold visit_Min. refine_steps. Qed.
Lemma refines_Max nf a b A B : refines (visit_Max (prover := p1) nf a b A B) (visit_Max (prover := p2) nf a b A B).
Proof. unfold visit_Max. refine_steps. Qed.
Lemma refines_And k e a b : refines (visit_And (prover := p1) k e a b) (visit_And (prover := p2) k e a b).
Proof. unfold visit_And. refine_steps. Qed.
Lemma refines_Or k e a b : refines (visit_Or (prover := p1) k e a b) (visit_Or (prover := p2) k e a b).
Proof. unfold visit_Or. refine_steps. Qed.
Lemma refines_EQ_bool a b : refines (visit_EQ_bool (prover := p1) a b) (visit_EQ_bool (prover := p2) a b).
Proof. unfold visit_EQ_bool. refine_steps. Qed.
Lemma refines_EQ_delta a b d D : refines (visit_EQ_delta (prover := p1) a b d D) (visit_EQ_delta (prover := p2) a b d D).
Proof. unfold visit_EQ_delta. refine_steps. Qed.
Lemma refines_LT nf k e a b A B : refines (visit_LT (prover := p1) nf k e a b A B) (visit_LT (prover := p2) nf k e a b A B).
Proof. unfold visit_LT. refine_steps. Qed.
Lemma refines_Not a : refines (visit_Not (prover := p1) a) (visit_Not (prover := p2) a).
Proof. unfold visit_Not. refine_steps. Qed.
Lemma refines_Select nf c t f : refines (visit_Select (prover := p1) nf c t f) (visit_Select (prover := p2) nf c t f).
Proof. unfold visit_Select. refine_steps. Qed.
Lemma refines_Ramp b s n : refines (visit_Ramp (prover := p1) b s n) (visit_Ramp (prover := p2) b s n).
Proof. unfold visit_Ramp. refine_steps. Qed.
Lemma refines_Cast nf t v : refines (visit_Cast (prover := p1) nf t v) (visit_Cast (prover := p2) nf t v).
Proof. unfold visit_Cast. refine_steps. Qed.

(** ** The visits *)

Lemma refines_arith op a b bounds : refines (visit_arith m1 op a b bounds) (visit_arith m2 op a b bounds).
Proof.
  unfold visit_arith. apply refines_bind; [apply refines_info|]. intros [a' A].
  apply refines_bind; [apply refines_info|]. intros [b' B].
  destruct op; try apply refines_fail; (apply refines_bind; [refine_step|intros ?]).
  - apply refines_bind; [apply (refines_read _ _ (fun s => refines_Add (no_float_simplify s) a' b'))|intros; apply refines_finish].
  - apply refines_bind; [apply (refines_read _ _ (fun s => refines_Sub (no_float_simplify s) a' b'))|intros; apply refines_finish].
  - apply refines_bind; [apply (refines_read _ _ (fun s => refines_Mul (no_float_simplify s) a' b'))|intros; apply refines_finish].
  - apply refines_bind; [apply (refines_read _ _ (fun s => refines_Div (no_float_simplify s) _ a' b' A B))|intros; apply refines_finish].
  - apply refines_bind; [refine_step|intros ?].
    apply refines_bind; [apply (refines_read _ _ (fun s => refines_Mod (no_float_simplify s) a' b' A B))|intros; apply refines_finish].
  - apply refines_bind; [apply (refines_read _ _ (fun s => refines_Min (no_float_simplify s) a' b' A B))|intros; apply refines_finish].
  - apply refines_bind; [apply (refines_read _ _ (fun s => refines_Max (no_float_simplify s) a' b' A B))|intros; apply refines_finish].
Qed.

Lemma refines_junction op a b bounds : refines (visit_junction m1 op a b bounds) (visit_junction m2 op a b bounds).
Proof.
  unfold visit_junction. apply refines_bind; [apply refines_current|]. intros s.
  destruct op; cbv zeta; case_goal; try apply refines_finish;
    (apply refines_bind; [apply refines_only|intros]; apply refines_bind; [apply refines_only|intros];
     apply refines_bind; [first [apply refines_And|apply refines_Or]|intros; apply refines_finish]).
Qed.

Lemma refines_remake op a b bounds : refines (remake_cmp m1 op a b bounds) (remake_cmp m2 op a b bounds).
Proof. unfold remake_cmp. refine_steps. Qed.

Lemma refines_equation a b bounds : refines (visit_equation m1 a b bounds) (visit_equation m2 a b bounds).
Proof.
  unfold visit_equation. apply refines_bind; [apply refines_current|]. intros s. cbv zeta.
  repeat case_goal; try apply refines_finish; try apply refines_remake.
  - do 2 (apply refines_bind; [apply refines_only|intros]). apply refines_bind; [apply refines_EQ_bool|intros; apply refines_finish].
  - apply refines_bind; [apply refines_note|intros]. apply refines_bind; [apply refines_info|]. intros [delta D].
    apply refines_bind; [apply refines_note|intros]. apply refines_bind; [apply refines_EQ_delta|intros; apply refines_finish].
Qed.

Lemma refines_less a b bounds : refines (visit_less m1 a b bounds) (visit_less m2 a b bounds).
Proof.
  unfold visit_less. apply refines_bind; [apply refines_info|]. intros [a' A].
  apply refines_bind; [apply refines_info|]. intros [b' B].
  apply refines_bind; [apply (refines_read _ _ (fun s => refines_LT (no_float_simplify s) (facts (knowledge s)) _ a' b' A B))|].
  intros. apply refines_finish.
Qed.

Lemma refines_comparison op a b bounds : refines (visit_comparison m1 op a b bounds) (visit_comparison m2 op a b bounds).
Proof.
  unfold visit_comparison. destruct op; try apply refines_equation; try apply refines_less;
    (destruct (redirect_cmp _ a b); [|apply refines_fail]; apply refines_bind; [apply refines_may|intros [|]];
      [apply Mu|apply refines_remake]).
Qed.

Lemma refines_negation a bounds : refines (visit_negation m1 a bounds) (visit_negation m2 a bounds).
Proof.
  unfold visit_negation. apply refines_bind; [apply refines_only|intros].
  apply refines_bind; [apply refines_Not|intros; apply refines_finish].
Qed.

Lemma refines_selection c t f bounds : refines (visit_selection m1 c t f bounds) (visit_selection m2 c t f bounds).
Proof.
  unfold visit_selection. apply refines_bind; [apply refines_only|]. intros c'.
  apply refines_bind; [apply refines_info|]. intros [t' T]. apply refines_bind; [apply refines_info|]. intros [f' F].
  apply refines_bind; [apply refines_report|]. intros.
  apply refines_bind; [apply (refines_read _ _ (fun s => refines_Select (no_float_simplify s) c' t' f'))|].
  intros. apply refines_finish.
Qed.

Lemma refines_visit_ramp b s n bounds : refines (visit_ramp m1 b s n bounds) (visit_ramp m2 b s n bounds).
Proof.
  unfold visit_ramp. apply refines_bind; [apply refines_info|]. intros [b' B].
  apply refines_bind; [apply refines_info|]. intros [s' D].
  apply refines_bind; [apply refines_report_int|]. intros.
  apply refines_bind; [apply refines_Ramp|intros; apply refines_finish].
Qed.

Lemma refines_broadcast v n bounds : refines (visit_broadcast m1 v n bounds) (visit_broadcast m2 v n bounds).
Proof. unfold visit_broadcast. refine_steps. Qed.

Lemma refines_visit_cast t v bounds : refines (visit_cast m1 t v bounds) (visit_cast m2 t v bounds).
Proof.
  unfold visit_cast. apply refines_bind; [apply refines_only|]. intros v'.
  apply refines_bind; [apply (refines_read _ _ (fun s => refines_Cast (no_float_simplify s) t v'))|].
  intros. apply refines_finish.
Qed.

(** A computation that goes on with what is known changed, if it can be. *)
Lemma refines_known {A} (k : Run -> option SimplifyState) (n1 n2 : R A) (a : A) : refines n1 n2 ->
  refines (fun s => match k s with None => fail a s | Some x => n1 (set_knowledge x s) end)
    (fun s => match k s with None => fail a s | Some x => n2 (set_knowledge x s) end).
Proof.
  intros N. split; intros s r s'; destruct (k s) as [x|].
  - intros E F. now apply (refines_sticky _ _ N _ _ _ E).
  - now intros [= _ <-] _.
  - apply (refines_agree _ _ N).
  - intros [= _ <-]. discriminate.
Qed.

Lemma refines_load t n p x al bounds : refines (visit_load m1 t n p x al bounds) (visit_load m2 t n p x al bounds).
Proof.
  apply (refines_known (fun s => found_buffer_reference n (knowledge s))). unfold load_operands.
  apply refines_bind; [apply refines_only|]. intros p'. apply refines_bind; [apply refines_info|]. intros [x' X].
  apply refines_bind; [|intros; apply refines_finish].
  destruct x'; try apply refines_done. apply refines_bind; [apply refines_info|]. intros [b B]. apply refines_done.
Qed.

Lemma refines_name t n bounds : refines (SimplifyNodes.visit_name m1 t n bounds) (SimplifyNodes.visit_name m2 t n bounds).
Proof.
  unfold SimplifyNodes.visit_name. split; intros s r s'; cbv zeta; destruct (visit_Variable t n (knowledge s)) as [[st k']|].
  - intros E F. now apply (refines_sticky _ _ (refines_finish _ _ _ _) _ _ _ E).
  - now intros [= _ <-] _.
  - apply (refines_agree _ _ (refines_finish _ _ _ _)).
  - intros [= _ <-]. discriminate.
Qed.

Lemma refines_node o1 o2 e bounds : refines_mutate o1 o2 -> refines (visit_node m1 o1 e bounds) (visit_node m2 o2 e bounds).
Proof.
  intros O. destruct e as [| | | |t v|t n|op a b|op a b|a|c t f|t n p x al|b st n|v n| | |]; cbn [visit_node];
    try apply refines_done; try apply O.
  - apply refines_visit_cast.
  - apply refines_name.
  - destruct op; first [apply refines_arith|apply refines_junction].
  - apply refines_comparison.
  - apply refines_negation.
  - apply refines_selection.
  - apply refines_load.
  - apply refines_visit_ramp.
  - apply refines_broadcast.
Qed.

(** *** Lets *)

Lemma refines_pop_info n : refines (pop_info n) (pop_info n).
Proof.
  apply refines_same. intros s a s'. unfold pop_info. destruct (pop _ n); intros [= _ <-]; [easy|reflexivity].
Qed.

Lemma refines_take_var n : refines (take_var n) (take_var n).
Proof.
  apply refines_same. intros s a s'. unfold take_var. destruct (get _ n); [destruct (pop _ n)|]; intros [= _ <-]; easy.
Qed.

Lemma refines_push_var n i : refines (push_var n i) (push_var n i).
Proof. apply refines_same. now intros s b s' [= _ <-]. Qed.

Lemma refines_push_useful n x : refines (push_useful n x) (push_useful n x).
Proof. apply refines_same. intros s b s'. unfold push_useful. destruct (useful x); now intros [= _ <-]. Qed.

Lemma refines_replacement n v : refines (let_replacement n v) (let_replacement n v).
Proof. apply refines_same. intros s b s'. unfold let_replacement. repeat case_goal; now intros [= _ <-]. Qed.

Lemma refines_track n w : refines (track_new m1 n w) (track_new m2 n w).
Proof.
  unfold track_new. destruct w as [w|]; [|apply refines_done]. apply refines_bind; [apply refines_note|intros].
  case_goal; [|apply refines_done]. apply refines_bind; [apply refines_info|]. intros [w' x].
  apply refines_bind; [apply refines_push_useful|]. intros. apply refines_done.
Qed.

Lemma refines_open n v : refines (open_let m1 n v) (open_let m2 n v).
Proof.
  unfold open_let. apply refines_bind; [apply refines_current|]. intros s.
  apply refines_bind; [case_goal; [apply refines_fail|apply refines_done]|]. intros _.
  apply refines_bind; [apply refines_info|]. intros [value x]. cbv zeta.
  apply refines_bind; [apply refines_replacement|]. intros [r nv].
  apply refines_bind; [apply refines_push_var|]. intros _. apply refines_bind; [apply refines_track|]. intros [nv' tr].
  apply refines_bind; [case_goal; [apply refines_push_useful|apply refines_done]|]. intros. apply refines_done.
Qed.

Lemma refines_close f body uses : refines (close_let f body uses) (close_let f body uses).
Proof.
  unfold close_let. apply refines_bind; [case_goal; [apply refines_pop_info|apply refines_done]|]. intros _.
  apply refines_bind; [case_goal; [apply refines_pop_info|apply refines_done]|]. intros _.
  apply refines_bind; [apply refines_take_var|]. intros i. apply refines_bind; [apply refines_current|]. intros s.
  apply refines_done.
Qed.

Lemma refines_simplify_let e : forall bounds, refines (simplify_let m1 e bounds) (simplify_let m2 e bounds).
Proof.
  induction e; intros bounds; try (apply refines_bind; [apply Mu|]; intros [r b']; apply refines_done).
  cbn [simplify_let]. apply refines_bind; [apply refines_open|]. intros f.
  apply refines_bind; [apply IHe2|]. intros [[body uses] b']. apply refines_bind; [apply refines_close|].
  intros [r u]. apply refines_done.
Qed.

Lemma refines_let e bounds : refines (visit_let m1 e bounds) (visit_let m2 e bounds).
Proof.
  unfold visit_let. apply refines_bind; [apply refines_simplify_let|]. intros [[r u] b']. apply refines_done.
Qed.

(** *** Calls *)

Lemma refines_args info args : refines (mutate_args m1 info args) (mutate_args m2 info args).
Proof.
  induction args as [|a args IH]; cbn [mutate_args]; [apply refines_done|].
  apply refines_bind; [destruct info; [apply refines_info|]|].
  - apply refines_bind; [apply refines_only|]. intros. apply refines_done.
  - intros [a' A]. apply refines_bind; [exact IH|]. intros [args' infos]. apply refines_done.
Qed.

Lemma refines_intrinsic k t n args ct vi bounds :
  refines (visit_intrinsic m1 k t n args ct vi bounds) (visit_intrinsic m2 k t n args ct vi bounds).
Proof.
  unfold visit_intrinsic. case_goal; [|apply refines_fail]. apply refines_bind; [apply refines_args|].
  intros [args' infos]. case_goal; [apply refines_finish|apply refines_fail].
Qed.

Lemma refines_strict t n args ct vi bounds :
  refines (visit_strict m1 t n args ct vi bounds) (visit_strict m2 t n args ct vi bounds).
Proof.
  destruct (refines_args false args) as [S A]. unfold visit_strict.
  split; intros s r s'; destruct (mutate_args m1 false args (set_no_float true s)) as [[args' infos] s1] eqn:E;
    intros [= <- <-] F; cbn [failed set_no_float] in *.
  - exact (S _ _ _ E F).
  - now rewrite (A _ _ _ E F).
Qed.

Lemma refines_call_args t n args ct vi bounds :
  refines (visit_args m1 t n args ct vi bounds) (visit_args m2 t n args ct vi bounds).
Proof.
  unfold visit_args. repeat case_goal; [apply refines_strict|apply refines_intrinsic|apply refines_fail|].
  unfold visit_other. apply refines_bind; [apply refines_args|]. intros [args' infos]. apply refines_done.
Qed.

Lemma refines_call t n args ct vi bounds :
  refines (visit_call m1 t n args ct vi bounds) (visit_call m2 t n args ct vi bounds).
Proof.
  unfold visit_call. destruct (_ || _); [|apply refines_call_args].
  apply (refines_known (fun s => found_buffer_dims n (seq 0 (List.length args)) (knowledge s))), refines_call_args.
Qed.

(** *** Shuffles *)

Lemma refines_new e : refines (mutate_new m1 e) (mutate_new m2 e).
Proof. unfold mutate_new. refine_steps. Qed.

Lemma refines_new_info e : refines (mutate_new_info m1 e) (mutate_new_info m2 e).
Proof. unfold mutate_new_info. apply refines_bind; [apply refines_note|]. intros. apply refines_info. Qed.

Lemma refines_zero e : refines (proves_zero m1 e) (proves_zero m2 e).
Proof. unfold proves_zero. apply refines_bind; [apply refines_new|]. intros. apply refines_done. Qed.

Lemma refines_all f g vs : (forall v, refines (f v) (g v)) -> refines (all_pass f vs) (all_pass g vs).
Proof.
  intros H. induction vs as [|v vs IH]; cbn [all_pass]; [apply refines_done|].
  apply refines_bind; [apply H|]. intros [|]; [exact IH|apply refines_done].
Qed.

Lemma refines_neighbours f g vs : (forall v u, refines (f v u) (g v u)) ->
  forall v, refines (neighbours_pass f v vs) (neighbours_pass g v vs).
Proof.
  intros H. induction vs as [|u vs IH]; intros v; cbn [neighbours_pass]; [apply refines_done|].
  apply refines_bind; [apply H|]. intros [|]; [apply IH|apply refines_done].
Qed.

Lemma refines_attempt a1 a2 o1 o2 : refines a1 a2 -> refines o1 o2 -> refines (attempt a1 o1) (attempt a2 o2).
Proof. intros A O. unfold attempt. apply refines_bind; [exact A|]. intros [st|]; [apply refines_done|exact O]. Qed.

Ltac shuffle_steps := repeat first
  [ refine_step | apply refines_new | apply refines_new_info | apply refines_zero
  | apply refines_all | apply refines_neighbours | apply refines_bind; [|intros] | progress intros | case_goal ].

Lemma refines_try_load vs ixs : refines (try_load m1 vs ixs) (try_load m2 vs ixs).
Proof. unfold try_load, void. shuffle_steps. Qed.

Lemma refines_try_broadcast vs ixs : refines (try_broadcast m1 vs ixs) (try_broadcast m2 vs ixs).
Proof. unfold try_broadcast, same_broadcast. shuffle_steps. Qed.

Lemma refines_interleaved_ramps vs : refines (try_interleaved_ramps m1 vs) (try_interleaved_ramps m2 vs).
Proof. unfold try_interleaved_ramps, interleaved, void. shuffle_steps. Qed.

Lemma refines_interleaved_slices vs ixs : refines (try_interleaved_slices vs ixs) (try_interleaved_slices vs ixs).
Proof. unfold try_interleaved_slices, void. shuffle_steps. Qed.

Lemma refines_concat_ramps vs ixs : refines (try_concat_ramps m1 vs ixs) (try_concat_ramps m2 vs ixs).
Proof. unfold try_concat_ramps, continued. shuffle_steps. Qed.

Lemma refines_concat_scalars vs ixs : refines (try_concat_scalars m1 vs ixs) (try_concat_scalars m2 vs ixs).
Proof. unfold try_concat_scalars, next_scalar, void. shuffle_steps. Qed.

Lemma refines_shuffle_step vs ixs : refines (shuffle_step m1 vs ixs) (shuffle_step m2 vs ixs).
Proof.
  unfold shuffle_step. repeat case_goal; repeat first
    [ apply refines_attempt | apply refines_try_load | apply refines_try_broadcast | apply refines_interleaved_ramps
    | apply refines_interleaved_slices | apply refines_concat_ramps | apply refines_concat_scalars | apply refines_done ].
Qed.

Lemma refines_vectors vs : forall first bounds, refines (mutate_vectors m1 first vs bounds) (mutate_vectors m2 first vs bounds).
Proof.
  induction vs as [|v vs IH]; intros first bounds; cbn [mutate_vectors]; [apply refines_done|].
  apply refines_bind; [apply refines_info|]. intros [v' V].
  apply refines_bind; [repeat case_goal; try apply refines_done|].
  - apply refines_bind; [apply refines_note|intros; apply refines_done].
  - intros b. apply refines_bind; [apply IH|]. intros [vs' b']. apply refines_done.
Qed.

Lemma refines_shuffle vs ixs bounds : refines (visit_shuffle m1 vs ixs bounds) (visit_shuffle m2 vs ixs bounds).
Proof.
  unfold visit_shuffle. destruct (extracted vs ixs) as [[[k n] [r|]]|]; [|apply refines_fail|].
  - apply refines_bind; [apply refines_note|intros; apply refines_finish].
  - apply refines_bind; [apply refines_vectors|]. intros [vs' b]. apply refines_bind; [apply refines_shuffle_step|].
    intros. apply refines_finish.
Qed.

Lemma refines_dispatch : refines_mutate (dispatch m1) (dispatch m2).
Proof.
  intros e b. apply refines_node. intros e' b'. unfold visit_others.
  destruct e'; first [apply refines_call|apply refines_shuffle|apply refines_let].
Qed.
End Refines.

(** ** The simplifier *)

Lemma mutate_refines fuel more : refines_mutate (mutate fuel) (mutate (fuel + more)).
Proof.
  induction fuel as [|fuel IH]; [intros e b; apply refines_fail|]. cbn [mutate Nat.add]. now apply refines_dispatch.
Qed.


