(* ===== verification/Bounds.v ===== *)
(** * Bounds of expressions

    The visitor [Bounds] of src/Bounds.cpp on expressions: two expressions that
    bound the values of an expression, from the intervals the variables are in.
    Definitions only; BoundsSound has what they promise. *)

From Stdlib Require Import ZArith Lia Bool List String.
From S2P Require Import Prelude.
From S2P Require Import IntArith.
From S2P Require Import ModulusRemainder.
From S2P Require Import Scope.
From S2P Require Import HalideTypes.
From S2P Require Import IR.
From S2P Require Import IREquality.
From S2P Require Import IRMatch.
From S2P Require Import Substitute.
From S2P Require Import Interval.
From S2P Require Import Monotonic.
Import ListNotations.
Open Scope string_scope.
Open Scope list_scope.
Open Scope Z_scope.

#[export] Instance interval_inhabited : stdpp.base.Inhabited Interval := stdpp.base.populate everything.

(** ** Runs of the visitor *)

(** What a run relies on: an expression that was made, an answer of [simplify],
    what [can_prove] proved, the sign of a constant, the name of a bound, values a
    cast or a shift is taken to keep, an interval of a type that wraps, a call that
    stands for an expression, an amount that was cast, an interval that should be everything, the divisor of
    a quotient that may wrap, the amount of a shift, an operand taken not to be
    negative, a node taken to be a scalar, a call that only depends on its arguments,
    a call of the type of its argument, an expression in a given interval, and the
    free variable a ramp is read with. *)
Inductive Trust :=
| Made (e : Expr)
| Simplified (e r : Expr)
| Proved (e : Expr)
| Signed (s : Z) (e : Expr)
| Bound_to (name : string) (e : Expr)
| Keeps (to : HType) (e : Expr)
| Wraps (t : HType) (iv : Interval)
| Stands (e e' : Expr)
| Same (e e' : Expr)
| Unbounded (iv : Interval)
| Divisor (t : HType) (e : Expr)
| Amount (t : HType) (e : Expr)
| Shifted (a b : Expr)
| Nonnegative (e : Expr)
| Scalar (t : HType)
| Lanewise (name : string)
| Alike (t : HType) (e : Expr)
| Within (e : Expr) (iv : Interval)
| Laned (name : string) (t : HType) (n : Z) (sc : Scope Interval) (fresh : list Expr) (inner : list Trust).

Record BoundsState := mkBounds {
  scope : Scope Interval;
  const_bound : bool;
  next_name : nat;
  void : bool;
  relied : list Trust
}.

Definition B (A : Type) : Type := BoundsState -> A * BoundsState.
Definition give {A} (a : A) : B A := fun s => (a, s).
Definition rely (t : Trust) : B unit := fun s =>
  (tt, mkBounds (scope s) (const_bound s) (next_name s) (void s) (t :: relied s)).
(** An internal or user error. *)
Definition bad {A} (a : A) : B A := fun s => (a, mkBounds (scope s) (const_bound s) (next_name s) true (relied s)).
Definition constant_mode : B bool := fun s => (const_bound s, s).
Definition current_scope : B (Scope Interval) := fun s => (scope s, s).

(** [const_bound] set for a while. *)
Definition with_constants {A} (m : B A) : B A := fun s =>
  let '(a, s') := m (mkBounds (scope s) true (next_name s) (void s) (relied s)) in
  (a, mkBounds (scope s') (const_bound s) (next_name s') (void s') (relied s')).

(** A [ScopedBinding] on the scope. *)
Definition binding {A} (name : string) (iv : Interval) (m : B A) : B A := fun s =>
  let '(a, s') := m (mkBounds (push (scope s) name iv) (const_bound s) (next_name s) (void s) (relied s)) in
  match pop (scope s') name with
  | Some sc => (a, mkBounds sc (const_bound s') (next_name s') (void s') (relied s'))
  | None => bad a s'
  end.

(** What [m] relied on, apart. *)
Definition apart {A} (m : B A) : B (A * list Trust) := fun s =>
  let '(a, s') := m (mkBounds (scope s) (const_bound s) (next_name s) (void s) []) in
  ((a, relied s'), mkBounds (scope s') (const_bound s') (next_name s') (void s') (relied s)).

Section Visitor.
(** The simplifier and [can_prove]; node identity; the names [unique_name('t')]
    makes; and the bounds of functions. *)
Context (simplify_ : Expr -> Expr) (can_prove : Expr -> bool) (same_as : Expr -> Expr -> bool).
Context (unique_t : nat -> string) (func_bounds : string -> Z -> option Interval).

Definition simplified (e : Expr) : B Expr := let! _ := rely (Simplified e (simplify_ e)) in give (simplify_ e).
Definition proves (e : Expr) : B bool :=
  if can_prove e then let! _ := rely (Proved e) in give true else give false.
Definition positive_const (e : Expr) : B bool :=
  if is_positive_const e then let! _ := rely (Signed 1 e) in give true else give false.
Definition negative_const (e : Expr) : B bool :=
  if is_negative_const e then let! _ := rely (Signed (-1) e) in give true else give false.
Definition unique_name : B string := fun s =>
  (unique_t (next_name s), mkBounds (scope s) (const_bound s) (S (next_name s)) (void s) (relied s)).

Definition make_bound (e : Expr) : B Expr := let! _ := rely (Made e) in give e.
(** [Interval::single_point] of a new expression. *)
Definition point (e : Expr) : B Interval := let! _ := rely (Made e) in give (single_point e).
Definition make_least (a b : Expr) : B Expr := make_bound (make_min a b).
Definition make_greatest (a b : Expr) : B Expr := make_bound (make_max a b).

(** [Interval::is_single_point]. *)
Definition is_point (iv : Interval) : bool := same_as (imin iv) (imax iv).
Definition is_point_of (iv : Interval) (e : Expr) : bool := same_as (imin iv) e && same_as (imax iv) e.

(** [static_sign]. *)
Definition static_sign (e : Expr) : B Z :=
  let! p := positive_const e in
  if p : bool then give 1 else
  let! n := negative_const e in
  if n : bool then give (-1) else
  let zero := make_zero (type_of e) in
  let! above := simplified (ECmp GT e zero) in
  if ir_equal (const_true 1) above then give 1 else
  let! below := simplified (ECmp LT e zero) in
  if ir_equal (const_true 1) below then give (-1) else give 0.

Definition bounds_of_type (t : HType) : Interval :=
  let t := element_of t in
  if (is_uint t || is_int t) && (bits t <=? 16) then mkInterval (type_min t) (type_max t) else everything.

Definition bounds_of_func (name : string) (value_index : Z) (t : HType) : Interval :=
  let iv := bounds_of_type t in
  match func_bounds name value_index with
  | Some f => mkInterval (if has_lower_bound f then imin f else imin iv) (if has_upper_bound f then imax f else imax iv)
  | None => iv
  end.

(** Bounds of a type that does not wrap are not checked. *)
Definition may_wrap (t : HType) : bool := negb (is_float t) && (negb (is_int t) || (bits t <? 32)).
Definition as_int (e : Expr) : Expr := cast (Int 32 1) e.

Section Visits.
Context (visit : Expr -> B Interval).

(** ** Casts *)

(** Whether a bounded interval of constants surely fits a narrower type; then,
    the interval to use. *)
Definition narrowed (to from : HType) (a : Interval) : B (option Interval) :=
  let! lo := simplified (imin a) in
  let! hi := simplified (imax a) in
  let a := mkInterval lo hi in
  if can_represent_type from to then
    let! l := with_constants (visit lo) in
    let! h := with_constants (visit hi) in
    if has_lower_bound l && has_upper_bound h then
      let back e := cast from (cast to e) in
      let! ok := proves (EBin And (ECmp EQ (back (imin l)) (imin l)) (ECmp EQ (back (imax h)) (imax h))) in
      give (if ok : bool then Some (mkInterval (imin l) (imax h)) else None)
    else give None
  else
    match as_const_uint lo, as_const_uint hi, as_const_int lo, as_const_int hi with
    | Some l, Some h, _, _ => give (if can_represent_u64 to l && can_represent_u64 to h then Some a else None)
    | _, _, Some l, Some h => give (if can_represent_i64 to l && can_represent_i64 to h then Some a else None)
    | _, _, _, _ => give None
    end.

(** The interval of the value, if casting it changes nothing; and whether that
    is assumed, since overflow of 32 bits and more is undefined. *)
Definition no_overflow_cast (to from : HType) (value : Expr) (a : Interval) : B (option (Interval * bool)) :=
  if can_represent_type to from || is_float to then give (Some (a, false))
  else if is_int to && (32 <=? bits to) then let! _ := rely (Keeps to value) in give (Some (a, true))
  else if is_bounded a then let! r := narrowed to from a in give (option_map (fun a => (a, false)) r)
  else give None.

Definition cast_bound (assumed : bool) (to : HType) (e : Expr) : B Expr :=
  let! _ := if assumed then rely (Keeps to e) else give tt in make_bound (Cast to e).

Definition visit_Cast (t : HType) (value : Expr) : B Interval :=
  let! a := visit value in
  let to := element_of t in
  let from := element_of (type_of value) in
  if is_point_of a value then point (Cast t value)
  else if is_point a then point (Cast to (imin a))
  else
    let! fits := no_overflow_cast to from value a in
    match fits with
    | Some (a, assumed) =>
        let iv := bounds_of_type from in
        let lo := if has_lower_bound a then imin a else imin iv in
        let hi := if has_upper_bound a then imax a else imax iv in
        let iv := mkInterval lo hi in
        let! lo := if has_lower_bound iv then cast_bound assumed to lo else give lo in
        let! hi := if has_upper_bound (mkInterval lo hi) then cast_bound assumed to hi else give hi in
        give (mkInterval lo hi)
    | None => give (bounds_of_type to)
    end.

(** ** Variables *)

Definition visit_Variable (t : HType) (n : string) : B Interval :=
  let! constants := constant_mode in
  let! sc := current_scope in
  if constants : bool then
    let iv := bounds_of_type t in
    match (if contains sc n then get sc n else None) with
    | Some si =>
        let! hi := if has_upper_bound si && is_const (imax si) then make_least (imax iv) (imax si) else give (imax iv) in
        let! lo := if has_lower_bound si && is_const (imin si) then make_greatest (imin iv) (imin si) else give (imin iv) in
        give (mkInterval lo hi)
    | None => give iv
    end
  else if contains sc n then match get sc n with Some si => give si | None => bad everything end
  else if is_vector t then give (bounds_of_type t)
  else point (EVariable t n).

(** ** Arithmetic *)

(** The operands are points: their own nodes, or others. *)
Definition on_points (e : Expr) (node : Expr -> Expr -> Expr) (a b : Expr) (A B' : Interval) (otherwise : B Interval)
    : B Interval :=
  if is_point_of A a && is_point_of B' b then point e
  else if is_point A && is_point B' then point (node (imin A) (imin B'))
  else otherwise.

Definition bound_if (test : bool) (e otherwise : Expr) : B Expr := if test then make_bound e else give otherwise.

(** The interval of a sum or difference that may wrap, if it provably does not. *)
Definition unless_wrapped (t : HType) (iv : Interval) (upper lower : Expr) (otherwise : B Interval) : B Interval :=
  if may_wrap t then
    let! _ := rely (Wraps t iv) in
    let! ok := if has_upper_bound iv then proves (ECmp EQ upper (as_int (imax iv))) else give true in
    if ok : bool then
      let! ok := if has_lower_bound iv then proves (ECmp EQ lower (as_int (imin iv))) else give true in
      if ok : bool then otherwise else give (bounds_of_type t)
    else give (bounds_of_type t)
  else otherwise.

Definition visit_Add (e a b : Expr) : B Interval :=
  let t := type_of e in
  let! A := visit a in
  let! B' := visit b in
  on_points e (EBin Add) a b A B'
    (let! lo := bound_if (has_lower_bound A && has_lower_bound B') (EBin Add (imin A) (imin B')) neg_inf in
     let! hi := bound_if (has_upper_bound A && has_upper_bound B') (EBin Add (imax A) (imax B')) pos_inf in
     let iv := mkInterval lo hi in
     unless_wrapped t iv (EBin Add (as_int (imax A)) (as_int (imax B'))) (EBin Add (as_int (imin A)) (as_int (imin B')))
       (give iv)).

Definition visit_Sub (e a b : Expr) : B Interval :=
  let t := type_of e in
  let! A := visit a in
  let! B' := visit b in
  on_points e (EBin Sub) a b A B'
    (let! lo := bound_if (has_lower_bound A && has_upper_bound B') (EBin Sub (imin A) (imax B')) neg_inf in
     let! hi := bound_if (has_upper_bound A && has_lower_bound B') (EBin Sub (imax A) (imin B')) pos_inf in
     let iv := mkInterval lo hi in
     unless_wrapped t iv (EBin Sub (as_int (imax A)) (as_int (imin B'))) (EBin Sub (as_int (imin A)) (as_int (imax B')))
       (if is_uint t && has_lower_bound iv then
          let! ok := proves (ECmp LE (imax B') (imin A)) in
          give (if ok : bool then iv else bounds_of_type t)
        else give iv)).

(** [Interval::include], and the least interval around four bounds. *)
Definition include (iv : Interval) (e : Expr) : B Interval :=
  let! _ := rely (Made e) in
  let! hi := make_greatest (imax iv) e in
  let! lo := make_least (imin iv) e in
  give (mkInterval lo hi).

Definition hull (e1 e2 e3 e4 : Expr) : B Interval :=
  let! iv := include nothing e1 in
  let! iv := include iv e2 in
  let! iv := include iv e3 in
  include iv e4.

(** An interval whose ends a negative constant has turned around. *)
Definition turned (e1 e2 : Expr) : Interval :=
  mkInterval (if is_inf pos_inf e2 then neg_inf else e2) (if is_inf neg_inf e1 then pos_inf else e1).

(** The ends of a product or quotient by a single value, of unknown sign. *)
Definition by_sign (cmp e1 e2 : Expr) : B Interval :=
  let! lo := make_bound (Select cmp e1 e2) in
  let! hi := make_bound (Select cmp e2 e1) in
  give (mkInterval lo hi).

Definition scaled (t : HType) (A B' : Interval) : B Interval :=
  let! e1 := bound_if (has_lower_bound A) (EBin Mul (imin A) (imin B')) (imin A) in
  let! e2 := bound_if (has_upper_bound A) (EBin Mul (imax A) (imin B')) (imax A) in
  if is_zero (imin B') then give B'
  else
    let! pos := positive_const (imin B') in
    if (pos : bool) || is_uint t then give (mkInterval e1 e2)
    else
      let! neg := negative_const (imin B') in
      if neg : bool then give (turned e1 e2)
      else if is_bounded A then by_sign (ECmp GE (imin B') (make_zero (element_of (type_of (imin B'))))) e1 e2
      else give everything.

Definition product_tests (t : HType) (A B' : Interval) : Expr :=
  let t' := if is_uint t then UInt 32 1 else Int 32 1 in
  let test x y := ECmp EQ (EBin Mul (cast t' x) (cast t' y)) (cast t' (EBin Mul x y)) in
  EBin And (EBin And (EBin And (test (imin A) (imin B')) (test (imin A) (imax B'))) (test (imax A) (imin B')))
    (test (imax A) (imax B')).

Definition visit_Mul (e a b : Expr) : B Interval :=
  let t := type_of e in
  let! A0 := visit a in
  let! B0 := visit b in
  let '(A, B') := if is_point A0 && negb (is_point B0) then (B0, A0) else (A0, B0) in
  on_points e (EBin Mul) a b A B'
    (let! iv :=
       if is_point B' then scaled t A B'
       else if is_bounded A && is_bounded B' then
         hull (EBin Mul (imin A) (imin B')) (EBin Mul (imin A) (imax B'))
           (EBin Mul (imax A) (imin B')) (EBin Mul (imax A) (imax B'))
       else give everything in
     if may_wrap t then
       if is_bounded A && is_bounded B' then
         let! _ := rely (Wraps t iv) in
         let! ok := proves (product_tests t A B') in
         give (if ok : bool then iv else bounds_of_type t)
       else give (bounds_of_type t)
     else give iv).

(** A quotient by a single value, and by values of one sign. *)
Definition divided (t : HType) (A B' : Interval) : B Interval :=
  let! _ := rely (Divisor t (imin B')) in
  let! e1 := bound_if (has_lower_bound A) (EBin Div (imin A) (imin B')) (imin A) in
  let! e2 := bound_if (has_upper_bound A) (EBin Div (imax A) (imax B')) (imax A) in
  let! pos := positive_const (imin B') in
  if (pos : bool) || is_uint t then give (mkInterval e1 e2)
  else
    let! neg := negative_const (imin B') in
    if neg : bool then give (turned e1 e2)
    else if is_bounded A then by_sign (ECmp GT (imin B') (make_zero (element_of (type_of (imin B'))))) e1 e2
    else give everything.

Definition quotients (t : HType) (A B' : Interval) : B Interval :=
  let! min_sign := static_sign (imin B') in
  let! max_sign := static_sign (imax B') in
  if negb (min_sign =? max_sign) || (min_sign =? 0) || (max_sign =? 0) then give everything
  else
    let! _ := rely (Divisor t (imin B')) in
    let! _ := rely (Divisor t (imax B')) in
    hull (EBin Div (imin A) (imin B')) (EBin Div (imax A) (imin B'))
      (EBin Div (imin A) (imax B')) (EBin Div (imax A) (imax B')).

Definition visit_Div (e a b : Expr) : B Interval :=
  let! A := visit a in
  let! B' := visit b in
  if negb (is_bounded B') then give everything
  else if is_point_of A a && is_point_of B' b then point e
  else
    let! same := proves (ECmp EQ (imin B') (imax B')) in
    if same : bool then divided (type_of e) A B'
    else if is_bounded A then quotients (type_of e) A B'
    else give everything.

(** [abs(Expr)]. *)
Definition abs_of (e : Expr) : Expr :=
  if is_uint (type_of e) then e
  else ECall (if is_int (type_of e) then UInt (bits (type_of e)) (lanes (type_of e)) else type_of e) "abs" [e] PureIntrinsic 0.

Definition visit_Mod (e a b : Expr) : B Interval :=
  let t := element_of (type_of e) in
  let! A := visit a in
  let! B' := visit b in
  if negb (is_bounded B') then let! _ := rely (Unbounded B') in give B'
  else on_points e (EBin Mod) a b A B'
    (let one := make_const t 1 in
     let! pos := if is_int (type_of (imax B')) then positive_const (imin B') else give false in
     if is_uint (type_of (imax B')) || pos then
       let! hi := make_bound (EBin Sub (imax B') one) in give (mkInterval (make_zero t) hi)
     else if is_int (type_of (imax B')) then
       let! hi := make_bound (EBin Sub (cast t (EBin Max (abs_of (imin B')) (abs_of (imax B')))) one) in
       give (mkInterval (make_zero t) hi)
     else bad everything).

Definition visit_Min (e a b : Expr) : B Interval :=
  let! A := visit a in
  let! B' := visit b in
  if is_point_of A a && is_point_of B' b then point e
  else
    let! lo := make_least (imin A) (imin B') in
    let! hi := make_least (imax A) (imax B') in
    give (mkInterval lo hi).

Definition visit_Max (e a b : Expr) : B Interval :=
  let! A := visit a in
  let! B' := visit b in
  if is_point_of A a && is_point_of B' b then point e
  else
    let! lo := make_greatest (imin A) (imin B') in
    let! hi := make_greatest (imax A) (imax B') in
    give (mkInterval lo hi).

(** ** Comparisons and logic *)

(** The interval of [a op b] for [op] a strict or weak order, from [b]. *)
Definition visit_compare (op : CmpOp) (a b : Expr) : B Interval :=
  let! A := visit a in
  if negb (is_bounded A) then give (bounds_of_type (BoolT 1))
  else
    let! B' := visit b in
    if negb (is_bounded B') then give (bounds_of_type (BoolT 1))
    else
      let! lo := make_bound (ECmp op (imax A) (imin B')) in
      let! hi := make_bound (ECmp op (imin A) (imax B')) in
      give (mkInterval lo hi).

Definition visit_EQ (e a b : Expr) : B Interval :=
  let! A := visit a in
  let! B' := visit b in
  on_points e (ECmp EQ) a b A B'
    (let iv := bounds_of_type (type_of e) in
     let! hi := bound_if (is_bounded A && is_bounded B')
       (EBin And (ECmp LE (imin A) (imax B')) (ECmp LE (imin B') (imax A))) (imax iv) in
     give (mkInterval (imin iv) hi)).

Definition visit_NE (e a b : Expr) : B Interval :=
  let! A := visit a in
  let! B' := visit b in
  on_points e (ECmp NE) a b A B'
    (let iv := bounds_of_type (type_of e) in
     let! lo := bound_if (is_bounded A && is_bounded B')
       (EBin Or (ECmp GT (imin A) (imax B')) (ECmp GT (imin B') (imax A))) (imin iv) in
     give (mkInterval lo (imax iv))).

(** [make_and], [make_or] and [make_not]; the nodes assert that the operands
    are booleans, which infinities are not. *)
Definition make_and (a b : Expr) : Expr :=
  if is_one a then b else if is_one b then a else if is_zero a then a else if is_zero b then b else EBin And a b.
Definition make_or (a b : Expr) : Expr :=
  if is_one a then a else if is_one b then b else if is_zero a then b else if is_zero b then a else EBin Or a b.
Definition make_not (e : Expr) : Expr :=
  if is_one e then make_zero (type_of e) else if is_zero e then make_const (type_of e) 1 else ENot e.

Definition visit_logic (op : BinOp) (make_op : Expr -> Expr -> Expr) (e a b : Expr) : B Interval :=
  let! A := visit a in
  let! B' := visit b in
  on_points e (EBin op) a b A B'
    (if is_bounded A && is_bounded B' then
       let! lo := make_bound (make_op (imin A) (imin B')) in
       let! hi := make_bound (make_op (imax A) (imax B')) in
       give (mkInterval lo hi)
     else bad everything).

Definition visit_Not (e a : Expr) : B Interval :=
  let! A := visit a in
  if is_point_of A a then point e
  else if is_point A then point (ENot (imin A))
  else if is_bounded A then
    let! lo := make_bound (make_not (imax A)) in
    let! hi := make_bound (make_not (imin A)) in
    give (mkInterval lo hi)
  else bad everything.

(** ** Selections *)

(** One end of a selection, where both values have it: [limit] is [make_min] or
    [make_max]; a value used twice gets a name.  A condition that is an infinity
    is an error in [select]. *)
Definition named_value (t : HType) (value : Expr) : B (string * Expr) :=
  let! n := unique_name in
  let! _ := rely (Bound_to n value) in
  give (n, EVariable t n).

Definition selected_end (limit : Expr -> Expr -> Expr) (t : HType) (C : Interval) (x y : Expr) : B Expr :=
  if same_as x y then give x
  else if is_point C then make_bound (Select (imin C) x y)
  else if is_zero (imin C) && is_one (imax C) then make_bound (limit x y)
  else if negb (is_bounded C) then bad x
  else if is_one (imax C) then
    let! '(n, v) := named_value t x in
    let! _ := rely (Made (Select (imin C) v y)) in
    let! r := make_bound (limit (Select (imin C) v y) v) in
    make_bound (ELet n x r)
  else if is_zero (imin C) then
    let! '(n, v) := named_value t y in
    let! _ := rely (Made (Select (imax C) x v)) in
    let! r := make_bound (limit (Select (imax C) x v) v) in
    make_bound (ELet n y r)
  else
    let! '(n, v) := named_value t x in
    let! '(m, u) := named_value t y in
    let! _ := rely (Made (Select (imin C) v u)) in
    let! _ := rely (Made (Select (imax C) v u)) in
    let! r := make_bound (limit (Select (imin C) v u) (Select (imax C) v u)) in
    let! r := make_bound (ELet n x r) in
    make_bound (ELet m y r).

Definition visit_Select (c t f : Expr) : B Interval :=
  let! A := visit t in
  let! B' := visit f in
  let! C := visit c in
  if is_point C && is_one (imin C) then give A
  else if is_point C && is_zero (imin C) then give B'
  else
    let T := element_of (type_of t) in
    let! lo := if has_lower_bound A && has_lower_bound B' then selected_end make_min T C (imin A) (imin B') else give neg_inf in
    let! hi := if has_upper_bound A && has_upper_bound B' then selected_end make_max T C (imax A) (imax B') else give pos_inf in
    give (mkInterval lo hi).

(** ** Loads, ramps, broadcasts, shuffles *)

Definition visit_Load (t : HType) (n : string) (predicate index : Expr) : B Interval :=
  let! iv := visit index in
  let! constants := constant_mode in
  if negb constants && is_point iv && is_one predicate
  then point (Load (element_of t) n (const_true 1) (imin iv) mr_top)
  else give (bounds_of_type t).

(** The lane is a free variable. *)
Definition visit_Ramp (base stride : Expr) (n : Z) : B Interval :=
  let! name := unique_name in
  let! sc := current_scope in
  let t := type_of base in
  let lane := EBin Add base (EBin Mul (EVariable t name) stride) in
  let lanes_iv := mkInterval (make_const t 0) (make_const t (n - 1)) in
  let! '(iv, inner) := apart (let! _ := rely (Made lane) in binding name lanes_iv (visit lane)) in
  let! _ := rely (Laned name t n sc [base; stride; imin iv; imax iv] inner) in
  give iv.

Fixpoint visit_vectors (vs : list Expr) (iv : Interval) : B Interval :=
  match vs with
  | [] => give iv
  | v :: vs =>
      let! V := visit v in
      let! hi := make_greatest (imax iv) (imax V) in
      let! lo := make_least (imin iv) (imin V) in
      visit_vectors vs (mkInterval lo hi)
  end.

(** ** Calls *)

(** [lossless_cast] of src/IROperator.cpp, but for floating point literals. *)
Fixpoint lossless_cast (t : HType) (e : Expr) : option Expr :=
  if type_eqb t (type_of e) then Some e
  else if can_represent_type t (type_of e) then Some (cast t e)
  else
    match e with
    | Cast _ v => if can_represent_type t (type_of v) then lossless_cast t v else None
    | Broadcast v n => option_map (fun v => Broadcast v n) (lossless_cast (element_of t) v)
    | IntImm _ i => if can_represent_i64 t i then Some (make_const t i) else None
    | UIntImm _ u => if can_represent_u64 t u then Some (make_const t u) else None
    | _ => None
    end.

Definition intrinsic (t : HType) (name : string) (args : list Expr) : Expr := ECall t name args PureIntrinsic 0.

(** [operator<<] and [operator>>]; a user error if the amount is not unsigned. *)
Definition shift_amount (x y : Expr) : option Expr := lossless_cast (UInt (bits (type_of x)) (lanes (type_of y))) y.

Definition make_shift (name : string) (x y : Expr) : B Expr :=
  match shift_amount x y with
  | Some n => let! _ := rely (Same y n) in make_bound (intrinsic (type_of x) name [x; n])
  | None => bad x
  end.

(** The call with its arguments replaced, if they are points. *)
Fixpoint point_args (args : list Expr) : B (option (list Expr)) :=
  match args with
  | [] => give (Some [])
  | a :: args =>
      let! A := visit a in
      if is_point A then
        let! r := point_args args in give (option_map (cons (imin A)) r)
      else give None
  end.

Definition point_call (t : HType) (name : string) (args : list Expr) (ct : CallType) (vi : Z) : B (option Interval) :=
  let! constants := constant_mode in
  if negb constants && match ct with PureExtern | Image => true | _ => false end then
    let! r := point_args args in
    match r with
    | Some args => let! _ := rely (Lanewise name) in let! iv := point (ECall t name args ct vi) in give (Some iv)
    | None => give None
    end
  else give None.

Definition visit_abs (t : HType) (a : Expr) : B Interval :=
  let! A := visit a in
  let! _ := rely (Alike t (abs_of a)) in
  let abs e := intrinsic t "abs" [e] in
  if is_bounded A then
    if ir_equal (imin A) (imax A) then point (abs (imax A))
    else if is_int (type_of a) && (32 <=? bits (type_of a)) then
      let opposite := EBin Sub (make_zero (type_of (imin A))) (imin A) in
      let! hi := make_bound (EBin Max (Cast t opposite) (Cast t (imax A))) in
      give (mkInterval (make_zero t) hi)
    else
      let! hi := make_bound (EBin Max (abs (imin A)) (abs (imax A))) in
      give (mkInterval (make_zero t) hi)
  else give (mkInterval (make_zero t) pos_inf).

(** [absd(Expr, Expr)] of operands of the same type. *)
Definition absd_of (a b : Expr) : Expr :=
  intrinsic (if is_int (type_of a) then UInt (bits (type_of a)) (lanes (type_of a)) else type_of a) "absd" [a; b].

Definition visit_absd (t : HType) (a b : Expr) : B Interval :=
  if is_float t then bad everything
  else if negb (is_uint t && type_eqb (type_of a) (type_of b)) then bad everything
  else
    let! A := visit a in
    let! B' := visit b in
    let! _ := rely (Alike t (absd_of a b)) in
    if is_bounded A && is_bounded B' then
      let! hi := make_bound (EBin Max (absd_of (imax A) (imin B')) (absd_of (imin A) (imax B'))) in
      give (mkInterval (make_zero t) hi)
    else give (bounds_of_type t).

(** A visit of an expression made for the call. *)
Definition visit_instead (call e : Expr) : B Interval :=
  let! _ := rely (Made e) in
  let! _ := rely (Stands call e) in
  visit e.

(** [clamp]. *)
Definition clamp (a lo hi : Expr) : option Expr :=
  match lossless_cast (type_of a) lo, lossless_cast (type_of a) hi with
  | Some lo, Some hi => Some (EBin Max (EBin Min a hi) lo)
  | _, _ => None
  end.

Definition visit_clamped (call a lo hi : Expr) : B Interval :=
  match clamp a lo hi with Some e => visit_instead call e | None => bad everything end.

(** The call is the value of one of its arguments. *)
Definition visit_argument (call : Expr) (args : list Expr) (k : nat) : B Interval :=
  match nth_error args k with
  | Some a => let! _ := rely (Stands call a) in visit a
  | None => bad everything
  end.

(** ** Shifts and bit operations *)

(** [b >= 0 && b < t.bits()]. *)
Definition provable_amount (t : HType) (b : Expr) : B bool :=
  proves (EBin And (ECmp GE b (make_const (type_of b) 0)) (ECmp LT b (make_const (type_of b) (bits t)))).
Definition provably_positive (a : Expr) : B bool := proves (ECmp GE a (make_const (type_of a) 0)).

Definition make_shl (x y : Expr) : B Expr :=
  let! _ := rely (Nonnegative x) in let! _ := rely (Shifted x y) in make_shift "shift_left" x y.

Definition shifted_left (t : HType) (a b : Expr) (A B' : Interval) (iv : Interval) : B Interval :=
  if is_int t && (32 <=? bits t) then
    let! _ := rely (Shifted a b) in
    let! lo :=
      if has_lower_bound A && has_lower_bound B' then
        let! ok := provable_amount t (imin B') in
        if ok : bool then make_shl (imin A) (imin B') else give (imin iv)
      else give (imin iv) in
    let! hi :=
      if has_upper_bound A && has_upper_bound B' then
        let! ok := provable_amount t (imax B') in
        if ok : bool then make_shl (imax A) (imax B') else give (imax iv)
      else give (imax iv) in
    give (mkInterval lo hi)
  else if is_const b then
    match shift_amount (make_const t 1) b with
    | Some n =>
        let one := intrinsic t "shift_left" [make_const t 1; n] in
        let equiv := EBin Mul a (if is_vector (type_of a) then Broadcast one (lanes (type_of a)) else one) in
        let! _ := rely (Same b n) in
        let! _ := rely (Amount t b) in
        let! _ := rely (Made equiv) in
        visit equiv
    | None => bad everything
    end
  else give iv.

Definition shifted_right (t : HType) (b : Expr) (A B' : Interval) (iv : Interval) : B Interval :=
  if is_bounded B' then
    let! _ := rely (Amount t b) in
    let! min_ok := provable_amount t (imin B') in
    let! max_ok := provable_amount t (imax B') in
    let shr := make_shift "shift_right" in
    let! lo :=
      if has_lower_bound A then
        let! positive := provably_positive (imin A) in
        if (positive : bool) && (max_ok : bool) then shr (imin A) (imax B')
        else if (min_ok : bool) && max_ok then
          let! x := shr (imin A) (imin B') in
          let! y := shr (imin A) (imax B') in
          make_bound (EBin Min x y)
        else give (imin iv)
      else give (imin iv) in
    let! hi :=
      if has_upper_bound A then
        let! positive := provably_positive (imax A) in
        if (positive : bool) && (min_ok : bool) then shr (imax A) (imin B')
        else if (min_ok : bool) && max_ok then
          let! x := shr (imax A) (imax B') in
          let! y := shr (imax A) (imin B') in
          make_bound (EBin Max x y)
        else give (imax iv)
      else give (imax iv) in
    give (mkInterval lo hi)
  else give iv.

Definition conjoined (t : HType) (A B' : Interval) (iv : Interval) : B Interval :=
  if has_upper_bound A && has_upper_bound B' then
    let! a_positive := if has_lower_bound A then provably_positive (imin A) else give false in
    let! b_positive := if has_lower_bound B' then provably_positive (imin B') else give false in
    if (a_positive : bool) && (b_positive : bool) then
      let! hi := make_bound (EBin Min (imax A) (imax B')) in give (mkInterval (make_zero t) hi)
    else if is_int t then
      if b_positive : bool then give (mkInterval (make_zero t) (imax B'))
      else if a_positive : bool then give (mkInterval (make_zero t) (imax A))
      else let! hi := make_bound (EBin Max (imax A) (imax B')) in give (mkInterval (imin iv) hi)
    else give iv
  else give iv.

Definition disjoined (t : HType) (A B' : Interval) (iv : Interval) : B Interval :=
  if has_lower_bound A && has_lower_bound B' then
    if is_int t then let! lo := make_bound (EBin Min (imin A) (imin B')) in give (mkInterval lo (imax iv))
    else if is_uint t then let! lo := make_bound (EBin Max (imin A) (imin B')) in give (mkInterval lo (imax iv))
    else give iv
  else give iv.

Definition visit_bits (e : Expr) (T : HType) (name : string) (ct : CallType) (a b : Expr) : B Interval :=
  let t := element_of T in
  let! A := visit a in
  let! B' := visit b in
  let! _ := rely (Alike t a) in
  if is_point_of A a && is_point_of B' b then let! _ := rely (Scalar T) in point e
  else if is_point A && is_point B' then
    let! _ := rely (Scalar T) in point (ECall T name [imin A; imin B'] ct 0)
  else
    let iv := bounds_of_type t in
    if is_int t || is_uint t then
      if String.eqb name "shift_left" then shifted_left t a b A B' iv
      else if String.eqb name "shift_right" then shifted_right t b A B' iv
      else if String.eqb name "bitwise_and" then let! _ := rely (Alike t b) in conjoined t A B' iv
      else if String.eqb name "bitwise_or" then let! _ := rely (Alike t b) in disjoined t A B' iv
      else give iv
    else give iv.

Definition bit_not (e : Expr) : Expr := intrinsic (type_of e) "bitwise_not" [e].

Definition visit_bit_not (e : Expr) (T : HType) (a : Expr) : B Interval :=
  let! A := visit a in
  let! _ := rely (Alike T a) in
  if is_point_of A a then let! _ := rely (Scalar T) in point e
  else if is_point A then point (bit_not (imin A))
  else
    let iv := bounds_of_type (element_of T) in
    if is_int T || is_uint T then
      let! lo := if has_upper_bound A then make_bound (bit_not (imax A)) else give (imin iv) in
      let! hi := if has_lower_bound A then make_bound (bit_not (imin A)) else give (imax iv) in
      give (mkInterval lo hi)
    else give iv.

(** ** Counts of bits *)

Definition visit_count (T : HType) (name : string) (a : Expr) : B Interval :=
  let t := element_of T in
  let! _ := rely (Alike T a) in
  let lo := make_zero t in
  let hi := make_const t (bits (type_of a)) in
  if String.eqb name "count_leading_zeros" then
    let word := cast (UInt (bits T) (lanes T)) a in
    let! _ := rely (Made word) in
    let! A := visit word in
    let clz e := cast t (intrinsic (type_of e) "count_leading_zeros" [e]) in
    let! hi := if has_lower_bound A then make_bound (clz (imin A)) else give hi in
    let! lo := if has_upper_bound A then make_bound (clz (imax A)) else give lo in
    give (mkInterval lo hi)
  else give (mkInterval lo hi).

(** ** The visit *)

Definition is_bit_op (name : string) : bool :=
  existsb (String.eqb name) ["shift_left"; "shift_right"; "bitwise_xor"; "bitwise_and"; "bitwise_or"].
Definition is_count (name : string) : bool :=
  existsb (String.eqb name) ["popcount"; "count_leading_zeros"; "count_trailing_zeros"].
Definition is_monotonic_float (name : string) : bool :=
  existsb (String.eqb name) ["ceil_f32"; "ceil_f64"; "floor_f32"; "floor_f64"; "round_f32"; "round_f64";
    "exp_f32"; "exp_f64"; "log_f32"; "log_f64"].

(** The arguments of an intrinsic. *)
Definition with1 (args : list Expr) (k : Expr -> B Interval) : B Interval :=
  match args with [a] => k a | _ => bad everything end.
Definition with2 (args : list Expr) (k : Expr -> Expr -> B Interval) : B Interval :=
  match args with [a; b] => k a b | _ => bad everything end.
Definition with3 (args : list Expr) (k : Expr -> Expr -> Expr -> B Interval) : B Interval :=
  match args with [a; b; c] => k a b c | _ => bad everything end.

(** Calls that are not intrinsics with bounds of their own. *)
Definition visit_extern (e : Expr) (T : HType) (name : string) (args : list Expr) (ct : CallType) (vi : Z) : B Interval :=
  let! constants := constant_mode in
  if negb constants && (String.eqb name "_halide_buffer_get_min" || String.eqb name "_halide_buffer_get_max") then
    let query name := ECall (Int 32 1) name args Extern 0 in
    let iv := mkInterval (query "_halide_buffer_get_min") (query "_halide_buffer_get_max") in
    let! _ := rely (Within e iv) in give iv
  else if is_intrinsic name ct name && is_count name then with1 args (visit_count T name)
  else if is_intrinsic name ct "memoize_expr" then visit_argument e args 0
  else match ct with
    | HalideCall =>
        let iv := bounds_of_func name vi T in
        let! _ := rely (Within e iv) in give iv
    | _ => give (bounds_of_type (element_of T))
    end.

Definition visit_Call (e : Expr) (T : HType) (name : string) (args : list Expr) (ct : CallType) (vi : Z) : B Interval :=
  let t := element_of T in
  let intrin := is_intrinsic name ct in
  if intrin "strict_float" then with1 args (fun _ => visit_argument e args 0)
  else if is_handle t then give everything
  else
    let! p := point_call t name args ct vi in
    match p with
    | Some iv => give iv
    | None =>
        if intrin "abs" then with1 args (visit_abs t)
        else if intrin "absd" then with2 args (visit_absd t)
        else if intrin "unsafe_promise_clamped" then with3 args (visit_clamped e)
        else if is_likely name ct then with1 args visit
        else if intrin "return_second" then with2 args (fun _ _ => visit_argument e args 1)
        else if intrin "if_then_else" then with3 args (fun a b c => visit_instead e (Select a b c))
        else if intrin "require" then with3 args (fun _ _ _ => visit_argument e args 1)
        else if is_intrinsic name ct name && is_bit_op name then with2 args (visit_bits e T name ct)
        else if intrin "bitwise_not" then with1 args (visit_bit_not e T)
        else if Nat.eqb (List.length args) 1 && is_monotonic_float name then bad everything
        else visit_extern e T name args ct vi
    end.

(** ** Lets *)

Definition undefined_or_same (a b : option Expr) : bool :=
  match a, b with Some x, Some y => same_as x y | None, None => true | _, _ => false end.

(** A bound is substituted if it is constant, and else gets a name. *)
Definition let_around (name : string) (v e : Expr) : B Expr :=
  if expr_uses_var e name then let! _ := rely (Bound_to name v) in make_bound (ELet name v e) else give e.

Definition wrap_let (vmin vmax : option Expr) (min_name max_name : string) (e : Expr) : B Expr :=
  let! e := match vmin with Some v => let_around min_name v e | None => give e end in
  match vmax with
  | Some v => if negb (undefined_or_same vmin vmax) then let_around max_name v e else give e
  | None => give e
  end.

Definition named_end (t : HType) (name : string) (value : Expr) : B Expr :=
  let! _ := rely (Bound_to name value) in make_bound (EVariable t name).

Definition visit_Let (name : string) (value body : Expr) : B Interval :=
  let! val := visit value in
  let t := element_of (type_of value) in
  let min_name := (name ++ ".min")%string in
  let max_name := (name ++ ".max")%string in
  let! lo :=
    if has_lower_bound val then
      if is_const (imin val) then give (imin val) else named_end t min_name (imin val)
    else give neg_inf in
  let vmin := if has_lower_bound val && is_const (imin val) then None else Some (imin val) in
  let! hi :=
    if has_upper_bound (mkInterval (match vmin with Some v => v | None => lo end) (imax val)) then
      if is_const (imax val) then give (imax val)
      else if undefined_or_same vmin (Some (imax val)) then give lo
      else named_end t max_name (imax val)
    else give pos_inf in
  let vmax :=
    if has_upper_bound (mkInterval (match vmin with Some v => v | None => lo end) (imax val)) && is_const (imax val)
    then None else Some (imax val) in
  let! iv := binding name (mkInterval lo hi) (visit body) in
  let single := is_point iv in
  let! lo := if has_lower_bound iv then wrap_let vmin vmax min_name max_name (imin iv) else give (imin iv) in
  let! hi :=
    if single then give lo
    else if has_upper_bound (mkInterval lo (imax iv)) then wrap_let vmin vmax min_name max_name (imax iv)
    else give (imax iv) in
  give (mkInterval lo hi).

(** ** The dispatch *)

(** [accept]; [GT] and [GE] are turned around. *)
Definition dispatch (e : Expr) : B Interval :=
  match e with
  | IntImm _ _ | UIntImm _ _ | FloatImm _ _ => point e
  | StringImm _ => bad everything
  | Cast t v => visit_Cast t v
  | EVariable t n => visit_Variable t n
  | EBin Add a b => visit_Add e a b
  | EBin Sub a b => visit_Sub e a b
  | EBin Mul a b => visit_Mul e a b
  | EBin Div a b => visit_Div e a b
  | EBin Mod a b => visit_Mod e a b
  | EBin Min a b => visit_Min e a b
  | EBin Max a b => visit_Max e a b
  | EBin And a b => visit_logic And make_and e a b
  | EBin Or a b => visit_logic Or make_or e a b
  | ECmp EQ a b => visit_EQ e a b
  | ECmp NE a b => visit_NE e a b
  | ECmp LT a b => visit_compare LT a b
  | ECmp LE a b => visit_compare LE a b
  | ECmp GT a b => visit_compare LT b a
  | ECmp GE a b => visit_compare LE b a
  | ENot a => visit_Not e a
  | Select c t f => visit_Select c t f
  | Load t n p i _ => visit_Load t n p i
  | Ramp b s n => visit_Ramp b s n
  | Broadcast v _ => visit v
  | ECall t n args ct vi => visit_Call e t n args ct vi
  | ELet n v b => visit_Let n v b
  | Shuffle vs _ => visit_vectors vs nothing
  end.
End Visits.

(** A visitor may visit expressions it makes, so it has fuel; a run out of it is void. *)
Fixpoint visit (fuel : nat) (e : Expr) : B Interval :=
  match fuel with
  | O => bad everything
  | S n => dispatch (visit n) e
  end.

(** ** Entry points *)

Definition typed_end (expected : HType) (has : bool) (e : Expr) : bool := negb has || type_eqb (type_of e) expected.

Definition bounds_of_expr_in_scope (fuel : nat) (e : Expr) (sc : Scope Interval) (constants : bool)
    : Interval * BoundsState :=
  let s := mkBounds (set_containing_scope empty_scope sc) constants 0 false [] in
  let '(iv, s) := visit fuel e s in
  let expected := element_of (type_of e) in
  if typed_end expected (has_lower_bound iv) (imin iv) && typed_end expected (has_upper_bound iv) (imax iv)
  then (iv, s) else bad iv s.

Definition find_constant_bounds (fuel : nat) (e : Expr) (sc : Scope Interval) : Interval * BoundsState :=
  let '(iv, s) := bounds_of_expr_in_scope fuel e sc true in
  let '(lo, s) := simplified (imin iv) s in
  let '(hi, s) := simplified (imax iv) s in
  (mkInterval (if is_const lo then lo else neg_inf) (if is_const hi then hi else pos_inf), s).

Inductive Direction := Upper | Lower.

Definition find_constant_bound (fuel : nat) (e : Expr) (d : Direction) (sc : Scope Interval) : option Expr * BoundsState :=
  let '(iv, s) := find_constant_bounds fuel e sc in
  (match d with
   | Lower => if has_lower_bound iv then Some (imin iv) else None
   | Upper => if has_upper_bound iv then Some (imax iv) else None
   end, s).
End Visitor.
