(* ===== verification/BoundsFuel.v ===== *)
(** * Fuel of bounds inference

    What a visit of the bounds visitor depends on: two visitors that agree on the
    expressions a visit visits give the same run.  So fuel only decides whether a
    run ends, and it does for expressions whose visits only visit lighter ones. *)

From Stdlib Require Import ZArith Lia Bool List String.
From S2P Require Import Prelude.
From S2P Require Import HalideTypes.
From S2P Require Import Scope.
From S2P Require Import IR.
From S2P Require Import IRMatch.
From S2P Require Import Mutator.
From S2P Require Import SimplifyNodes.
From S2P Require Import Interval.
From S2P Require Import Bounds.
Import ListNotations.
Open Scope string_scope.
Open Scope list_scope.
Open Scope Z_scope.

(** ** Relations on computations *)

Record lawful (R : forall A, B A -> B A -> Prop) (unique_t : nat -> string) : Prop := {
  law_give : forall A (a : A), R A (give a) (give a);
  law_rely : forall t, R unit (rely t) (rely t);
  law_bad : forall A (a : A), R A (bad a) (bad a);
  law_mode : R bool constant_mode constant_mode;
  law_scope : R (Scope Interval) current_scope current_scope;
  law_unique : R string (unique_name unique_t) (unique_name unique_t);
  law_bind : forall A C (m1 m2 : B A) (k1 k2 : A -> B C), R A m1 m2 -> (forall a, R C (k1 a) (k2 a)) ->
    R C (let! a := m1 in k1 a) (let! a := m2 in k2 a);
  law_bind_pair : forall A A' C (m1 m2 : B (A * A')) (k1 k2 : A -> A' -> B C), R (A * A')%type m1 m2 -> (forall a a', R C (k1 a a') (k2 a a')) ->
    R C (let! '(a, a') := m1 in k1 a a') (let! '(a, a') := m2 in k2 a a');
  law_constants : forall A (m1 m2 : B A), R A m1 m2 -> R A (with_constants m1) (with_constants m2);
  law_binding : forall A n iv (m1 m2 : B A), R A m1 m2 -> R A (binding n iv m1) (binding n iv m2);
  law_apart : forall A (m1 m2 : B A), R A m1 m2 -> R (A * list Trust)%type (apart m1) (apart m2)
}.

(** The same run. *)
Definition same_run A (m1 m2 : B A) : Prop := forall s, m1 s = m2 s.

Lemma same_lawful u : lawful same_run u.
Proof.
  split; unfold same_run; intros; try reflexivity.
  - rewrite H. destruct (m2 s). apply H0.
  - rewrite H. destruct (m2 s) as [[a a'] s']. apply H0.
  - unfold with_constants. now rewrite H.
  - unfold binding. now rewrite H.
  - unfold apart. now rewrite H.
Qed.

(** The same run where the first is not void. *)
Definition refines_run A (m1 m2 : B A) : Prop := forall s,
  (void s = true -> void (snd (m1 s)) = true) /\ (void (snd (m1 s)) = false -> m2 s = m1 s).

Lemma refines_run_bind A C (m1 m2 : B A) (k1 k2 : A -> B C) (s : BoundsState) : refines_run A m1 m2 -> (forall a, refines_run C (k1 a) (k2 a)) ->
  (void s = true -> void (snd (let '(a, s1) := m1 s in k1 a s1)) = true) /\
  (void (snd (let '(a, s1) := m1 s in k1 a s1)) = false -> (let '(a, s1) := m2 s in k2 a s1) = (let '(a, s1) := m1 s in k1 a s1)).
Proof.
  intros H K. destruct (H s) as [V E]. destruct (m1 s) as [a s1]. destruct (K a s1) as [V' E']. cbn [snd] in *. split; [auto|].
  intros F. destruct (void s1); [now rewrite V' in F|]. rewrite E by reflexivity. now apply E'.
Qed.

Lemma refines_lawful u : lawful refines_run u.
Proof.
  split; unfold refines_run; intros; try (split; [intros V; first [exact V|reflexivity]|reflexivity]).
  - now apply refines_run_bind.
  - pose proof (refines_run_bind (A * A') C m1 m2 (fun p => k1 (fst p) (snd p)) (fun p => k2 (fst p) (snd p)) s H (fun p => H0 (fst p) (snd p))) as G.
    destruct (m1 s) as [[a a'] s1], (m2 s) as [[b b'] s2]. exact G.
  - unfold with_constants. destruct (H (mkBounds (scope s) true (next_name s) (void s) (relied s))) as [V E].
    destruct (m1 _) as [a s1]. cbn [snd void] in *. split; [exact V|]. intros F. now rewrite E.
  - unfold binding. destruct (H (mkBounds (push (scope s) n iv) (const_bound s) (next_name s) (void s) (relied s))) as [V E].
    destruct (m1 _) as [a s1]. cbn [snd void] in *. destruct (pop (scope s1) n) eqn:P; cbn [snd void]; (split; [auto|]); intros F.
    + now rewrite E, P.
    + discriminate F.
  - unfold apart. destruct (H (mkBounds (scope s) (const_bound s) (next_name s) (void s) [])) as [V E].
    destruct (m1 _) as [a s1]. cbn [snd void] in *. split; [exact V|]. intros F. now rewrite E.
Qed.

(** ** What a visit depends on *)

(** The constants of an interval need to be visited to see what a cast keeps. *)
Definition casts_directly (to from : HType) : bool :=
  let to := element_of to in
  can_represent_type to (element_of from) || is_float to || (is_int to && (32 <=? bits to)).

(** The expressions a visit visits. *)
Inductive visits_expr : Expr -> Expr -> Prop :=
| visits_child e a : In a (children e) -> visits_expr e a
| visits_end t v x : casts_directly t (type_of v) = false -> visits_expr (Cast t v) x
| visits_lane b s n name : visits_expr (Ramp b s n) (EBin Add b (EBin Mul (EVariable (type_of b) name) s))
| visits_choice t n a b c ct vi : visits_expr (ECall t n [a; b; c] ct vi) (Select a b c)
| visits_clamp t n a lo hi ct vi e : clamp a lo hi = Some e -> visits_expr (ECall t n [a; lo; hi] ct vi) e
| visits_product t a b ct vi n : is_int t && (32 <=? bits t) = false -> is_const b = true ->
    visits_expr (ECall t "shift_left" [a; b] ct vi)
      (EBin Mul a (let one := intrinsic (element_of t) "shift_left" [make_const (element_of t) 1; n] in
         if is_vector (type_of a) then Broadcast one (lanes (type_of a)) else one))
| visits_word t a ct vi : visits_expr (ECall t "count_leading_zeros" [a] ct vi) (cast (UInt (bits t) (lanes t)) a).

Section Congruence.
Context (simplify_ : Expr -> Expr) (can_prove : Expr -> bool) (same_as : Expr -> Expr -> bool).
Context (unique_t : nat -> string) (func_bounds : string -> Z -> option Interval).
Context (R : forall A, B A -> B A -> Prop) (Law : lawful R unique_t).
Context (v1 v2 : Expr -> B Interval).

Ltac law_step :=
  lazymatch goal with
  | |- R _ (give _) _ => apply (law_give _ _ Law)
  | |- R _ (rely _) _ => apply (law_rely _ _ Law)
  | |- R _ (bad _) _ => apply (law_bad _ _ Law)
  | |- R _ constant_mode _ => apply (law_mode _ _ Law)
  | |- R _ current_scope _ => apply (law_scope _ _ Law)
  | |- R _ (unique_name _) _ => apply (law_unique _ _ Law)
  | |- R _ (with_constants _) _ => apply (law_constants _ _ Law)
  | |- R _ (binding _ _ _) _ => apply (law_binding _ _ Law)
  | |- R _ (apart _) _ => apply (law_apart _ _ Law)
  | |- R ?A (fun s => ?f s) (fun s' => ?g s') => change (R A f g)
  | |- R _ (fun _ => _) _ => first [apply (law_bind_pair _ _ Law); [|intros ? ?] | apply (law_bind _ _ Law); [|intros ?]]
  | _ => first [assumption | match goal with H : forall _, R _ _ _ |- _ => apply H end]
  end.
Ltac law_steps := repeat first [law_step | case_goal].

(** *** Parts that visit nothing *)

Lemma same_make e : R _ (make_bound e) (make_bound e). Proof. unfold make_bound. law_steps. Qed.
Lemma same_point e : R _ (point e) (point e). Proof. unfold point. law_steps. Qed.
Lemma same_simplified e : R _ (simplified simplify_ e) (simplified simplify_ e). Proof. unfold simplified. law_steps. Qed.
Lemma same_proves e : R _ (proves can_prove e) (proves can_prove e). Proof. unfold proves. law_steps. Qed.
Lemma same_positive e : R _ (positive_const e) (positive_const e). Proof. unfold positive_const. law_steps. Qed.
Lemma same_negative e : R _ (negative_const e) (negative_const e). Proof. unfold negative_const. law_steps. Qed.
Lemma same_bound_if (c : bool) e o : R _ (bound_if c e o) (bound_if c e o). Proof. unfold bound_if, make_bound. destruct c; law_steps. Qed.
Lemma same_named t x : R _ (named_value unique_t t x) (named_value unique_t t x). Proof. unfold named_value. law_steps. Qed.

(** What is proved of the parts so far. *)
Ltac basic :=
  lazymatch goal with
  | |- R _ (make_bound _) _ => apply same_make
  | |- R _ (point _) _ => apply same_point
  | |- R _ (simplified _ _) _ => apply same_simplified
  | |- R _ (proves _ _) _ => apply same_proves
  | |- R _ (positive_const _) _ => apply same_positive
  | |- R _ (negative_const _) _ => apply same_negative
  | |- R _ (bound_if _ _ _) _ => apply same_bound_if
  | |- R _ (named_value _ _ _) _ => apply same_named
  | _ => law_step
  end.
Ltac basics := repeat first [basic | case_goal].

Lemma same_sign e : R _ (static_sign simplify_ e) (static_sign simplify_ e). Proof. unfold static_sign. basics. Qed.
Lemma same_include iv e : R _ (include iv e) (include iv e). Proof. unfold include, make_greatest, make_least. basics. Qed.

Lemma same_hull a b c d : R _ (hull a b c d) (hull a b c d).
Proof. unfold hull. repeat (apply (law_bind _ _ Law); [apply same_include|intros ?]). apply same_include. Qed.

Lemma same_by_sign c a b : R _ (by_sign c a b) (by_sign c a b). Proof. unfold by_sign. basics. Qed.

Ltac part :=
  lazymatch goal with
  | |- R _ (static_sign _ _) _ => apply same_sign
  | |- R _ (hull _ _ _ _) _ => apply same_hull
  | |- R _ (by_sign _ _ _) _ => apply same_by_sign
  | _ => basic
  end.
Ltac parts := repeat first [part | case_goal].

Lemma same_scaled t A B' : R _ (scaled t A B') (scaled t A B'). Proof. unfold scaled. parts. Qed.
Lemma same_divided t A B' : R _ (divided t A B') (divided t A B'). Proof. unfold divided. parts. Qed.
Lemma same_quotients t A B' : R _ (quotients simplify_ t A B') (quotients simplify_ t A B'). Proof. unfold quotients. parts. Qed.

Lemma same_selected limit t C x y : R _ (selected_end same_as unique_t limit t C x y) (selected_end same_as unique_t limit t C x y).
Proof. unfold selected_end. parts. Qed.

Lemma same_wrap_let vmin vmax n m e : R _ (wrap_let same_as vmin vmax n m e) (wrap_let same_as vmin vmax n m e).
Proof. unfold wrap_let, let_around. parts. Qed.

Lemma same_named_end t n x : R _ (named_end t n x) (named_end t n x). Proof. unfold named_end. parts. Qed.

Lemma same_shift n x y : R _ (make_shift n x y) (make_shift n x y). Proof. unfold make_shift. parts. Qed.

Lemma same_on_points e node a b A B' o1 o2 : R _ o1 o2 ->
  R _ (on_points same_as e node a b A B' o1) (on_points same_as e node a b A B' o2).
Proof. intros H. unfold on_points. parts. Qed.

Lemma same_unless_wrapped t iv u l o1 o2 : R _ o1 o2 ->
  R _ (unless_wrapped can_prove t iv u l o1) (unless_wrapped can_prove t iv u l o2).
Proof. intros H. unfold unless_wrapped. parts. Qed.

Ltac node :=
  lazymatch goal with
  | |- R _ (scaled _ _ _) _ => apply same_scaled
  | |- R _ (divided _ _ _) _ => apply same_divided
  | |- R _ (quotients _ _ _ _) _ => apply same_quotients
  | |- R _ (selected_end _ _ _ _ _ _ _) _ => apply same_selected
  | |- R _ (wrap_let _ _ _ _ _ _) _ => apply same_wrap_let
  | |- R _ (named_end _ _ _) _ => apply same_named_end
  | |- R _ (make_shift _ _ _) _ => apply same_shift
  | |- R _ (on_points _ _ _ _ _ _ _ _) _ => apply same_on_points
  | |- R _ (unless_wrapped _ _ _ _ _ _) _ => apply same_unless_wrapped
  | _ => part
  end.
Ltac nodes := repeat first [node | case_goal].

(** *** Nodes *)

Lemma same_Add e a b : R _ (v1 a) (v2 a) -> R _ (v1 b) (v2 b) -> R _ (visit_Add can_prove same_as v1 e a b) (visit_Add can_prove same_as v2 e a b).
Proof. intros Ha Hb. unfold visit_Add. nodes. Qed.
Lemma same_Sub e a b : R _ (v1 a) (v2 a) -> R _ (v1 b) (v2 b) -> R _ (visit_Sub can_prove same_as v1 e a b) (visit_Sub can_prove same_as v2 e a b).
Proof. intros Ha Hb. unfold visit_Sub. nodes. Qed.
Lemma same_Mul e a b : R _ (v1 a) (v2 a) -> R _ (v1 b) (v2 b) -> R _ (visit_Mul can_prove same_as v1 e a b) (visit_Mul can_prove same_as v2 e a b).
Proof. intros Ha Hb. unfold visit_Mul. nodes. Qed.
Lemma same_Div e a b : R _ (v1 a) (v2 a) -> R _ (v1 b) (v2 b) -> R _ (visit_Div simplify_ can_prove same_as v1 e a b) (visit_Div simplify_ can_prove same_as v2 e a b).
Proof. intros Ha Hb. unfold visit_Div. nodes. Qed.
Lemma same_Mod e a b : R _ (v1 a) (v2 a) -> R _ (v1 b) (v2 b) -> R _ (visit_Mod same_as v1 e a b) (visit_Mod same_as v2 e a b).
Proof. intros Ha Hb. unfold visit_Mod. nodes. Qed.
Lemma same_Min e a b : R _ (v1 a) (v2 a) -> R _ (v1 b) (v2 b) -> R _ (visit_Min same_as v1 e a b) (visit_Min same_as v2 e a b).
Proof. intros Ha Hb. unfold visit_Min, make_least. nodes. Qed.
Lemma same_Max e a b : R _ (v1 a) (v2 a) -> R _ (v1 b) (v2 b) -> R _ (visit_Max same_as v1 e a b) (visit_Max same_as v2 e a b).
Proof. intros Ha Hb. unfold visit_Max, make_greatest. nodes. Qed.
Lemma same_logic op mk e a b : R _ (v1 a) (v2 a) -> R _ (v1 b) (v2 b) -> R _ (visit_logic same_as v1 op mk e a b) (visit_logic same_as v2 op mk e a b).
Proof. intros Ha Hb. unfold visit_logic. nodes. Qed.
Lemma same_compare op a b : R _ (v1 a) (v2 a) -> R _ (v1 b) (v2 b) -> R _ (visit_compare v1 op a b) (visit_compare v2 op a b).
Proof. intros Ha Hb. unfold visit_compare. nodes. Qed.
Lemma same_EQ e a b : R _ (v1 a) (v2 a) -> R _ (v1 b) (v2 b) -> R _ (visit_EQ same_as v1 e a b) (visit_EQ same_as v2 e a b).
Proof. intros Ha Hb. unfold visit_EQ. nodes. Qed.
Lemma same_NE e a b : R _ (v1 a) (v2 a) -> R _ (v1 b) (v2 b) -> R _ (visit_NE same_as v1 e a b) (visit_NE same_as v2 e a b).
Proof. intros Ha Hb. unfold visit_NE. nodes. Qed.
Lemma same_Not e a : R _ (v1 a) (v2 a) -> R _ (visit_Not same_as v1 e a) (visit_Not same_as v2 e a).
Proof. intros Ha. unfold visit_Not. nodes. Qed.
Lemma same_Select c t f : R _ (v1 c) (v2 c) -> R _ (v1 t) (v2 t) -> R _ (v1 f) (v2 f) ->
  R _ (visit_Select same_as unique_t v1 c t f) (visit_Select same_as unique_t v2 c t f).
Proof. intros Hc Ht Hf. unfold visit_Select. nodes. Qed.
Lemma same_Load t n p x : R _ (v1 x) (v2 x) -> R _ (visit_Load same_as v1 t n p x) (visit_Load same_as v2 t n p x).
Proof. intros Hx. unfold visit_Load. nodes. Qed.
Lemma same_Variable t n : R _ (visit_Variable t n) (visit_Variable t n).
Proof. unfold visit_Variable, make_least, make_greatest. nodes. Qed.
Lemma same_Let n v b : R _ (v1 v) (v2 v) -> R _ (v1 b) (v2 b) -> R _ (visit_Let same_as v1 n v b) (visit_Let same_as v2 n v b).
Proof. intros Hv Hb. unfold visit_Let. cbv zeta. nodes. Qed.

Lemma same_Cast t v : R _ (v1 v) (v2 v) -> (casts_directly t (type_of v) = false -> forall x, R _ (v1 x) (v2 x)) ->
  R _ (visit_Cast simplify_ can_prove same_as v1 t v) (visit_Cast simplify_ can_prove same_as v2 t v).
Proof.
  intros Hv Hx. unfold visit_Cast. cbv zeta. apply (law_bind _ _ Law); [exact Hv|]. intros A.
  case_goal; [apply same_point|]. case_goal; [apply same_point|].
  apply (law_bind _ _ Law); [|intros [[a' asm]|]; unfold cast_bound; nodes].
  unfold no_overflow_cast, casts_directly in *. destruct (can_represent_type _ _ || is_float _); [nodes|].
  destruct (is_int _ && _); [nodes|]. specialize (Hx eq_refl). unfold narrowed. cbv zeta. nodes.
Qed.

Lemma same_Ramp b s n : (forall name, R _ (v1 (EBin Add b (EBin Mul (EVariable (type_of b) name) s))) (v2 (EBin Add b (EBin Mul (EVariable (type_of b) name) s)))) ->
  R _ (visit_Ramp unique_t v1 b s n) (visit_Ramp unique_t v2 b s n).
Proof. intros H. unfold visit_Ramp. cbv zeta. nodes. Qed.

Lemma same_vectors vs : (forall v, In v vs -> R _ (v1 v) (v2 v)) -> forall iv, R _ (visit_vectors v1 vs iv) (visit_vectors v2 vs iv).
Proof.
  induction vs as [|v vs IH]; intros H iv; cbn [visit_vectors]; [nodes|]. apply (law_bind _ _ Law); [apply H; cbn; auto|]. intros V.
  unfold make_least, make_greatest. apply (law_bind _ _ Law); [apply same_make|]. intros hi.
  apply (law_bind _ _ Law); [apply same_make|]. intros lo. apply IH. intros u I. apply H. cbn. auto.
Qed.

(** *** Calls *)

Lemma same_point_args args : (forall a, In a args -> R _ (v1 a) (v2 a)) -> R _ (point_args same_as v1 args) (point_args same_as v2 args).
Proof.
  induction args as [|a args IH]; intros H; cbn [point_args]; [nodes|]. apply (law_bind _ _ Law); [apply H; cbn; auto|]. intros A.
  case_goal; [|nodes]. apply (law_bind _ _ Law); [|intros r; nodes]. apply IH. intros u I. apply H. cbn. auto.
Qed.

Lemma same_point_call t n args ct vi : (forall a, In a args -> R _ (v1 a) (v2 a)) ->
  R _ (point_call same_as v1 t n args ct vi) (point_call same_as v2 t n args ct vi).
Proof.
  intros H. unfold point_call. apply (law_bind _ _ Law); [nodes|]. intros b. destruct (negb b && _); [|nodes]. apply (law_bind _ _ Law); [now apply same_point_args|]. intros r. nodes.
Qed.

Lemma same_argument e args k : (forall a, In a args -> R _ (v1 a) (v2 a)) -> R _ (visit_argument v1 e args k) (visit_argument v2 e args k).
Proof.
  intros H. unfold visit_argument. destruct (nth_error args k) as [a|] eqn:E; [|nodes]. apply nth_error_In in E.
  apply (law_bind _ _ Law); [nodes|]. intros u. now apply H.
Qed.

Lemma same_shifted_left t a b A B' iv :
  (forall n, is_int t && (32 <=? bits t) = false -> is_const b = true -> shift_amount (make_const t 1) b = Some n ->
    let e := EBin Mul a (let one := intrinsic t "shift_left" [make_const t 1; n] in if is_vector (type_of a) then Broadcast one (lanes (type_of a)) else one) in
    R _ (v1 e) (v2 e)) ->
  R _ (shifted_left can_prove v1 t a b A B' iv) (shifted_left can_prove v2 t a b A B' iv).
Proof.
  intros H. unfold shifted_left, make_shl, provable_amount. cbv zeta. destruct (is_int t && (32 <=? bits t)); [nodes|].
  destruct (is_const b); [|nodes]. destruct (shift_amount (make_const t 1) b) as [n|]; [|nodes].
  specialize (H n eq_refl eq_refl eq_refl). cbv zeta in H. nodes.
Qed.

Lemma same_bits e T n ct a b : R _ (v1 a) (v2 a) -> R _ (v1 b) (v2 b) ->
  (n = "shift_left" -> forall m, is_int T && (32 <=? bits T) = false -> is_const b = true ->
    let t := element_of T in
    let e := EBin Mul a (let one := intrinsic t "shift_left" [make_const t 1; m] in if is_vector (type_of a) then Broadcast one (lanes (type_of a)) else one) in
    R _ (v1 e) (v2 e)) ->
  R _ (visit_bits can_prove same_as v1 e T n ct a b) (visit_bits can_prove same_as v2 e T n ct a b).
Proof.
  intros Ha Hb H. unfold visit_bits. cbv zeta. apply (law_bind _ _ Law); [exact Ha|]. intros A. apply (law_bind _ _ Law); [exact Hb|]. intros B'.
  apply (law_bind _ _ Law); [nodes|]. intros u. case_goal; [nodes|]. case_goal; [nodes|]. case_goal; [|nodes].
  destruct (String.eqb_spec n "shift_left"); [apply same_shifted_left; intros m I C _; now apply H|].
  unfold shifted_right, conjoined, disjoined, provable_amount, provably_positive. cbv zeta. nodes.
Qed.

Lemma same_bit_not e T a : R _ (v1 a) (v2 a) -> R _ (visit_bit_not same_as v1 e T a) (visit_bit_not same_as v2 e T a).
Proof. intros Ha. unfold visit_bit_not. cbv zeta. nodes. Qed.

Lemma same_count T n a : (n = "count_leading_zeros" -> R _ (v1 (cast (UInt (bits T) (lanes T)) a)) (v2 (cast (UInt (bits T) (lanes T)) a))) ->
  R _ (visit_count v1 T n a) (visit_count v2 T n a).
Proof.
  intros H. unfold visit_count. cbv zeta. apply (law_bind _ _ Law); [nodes|]. intros u.
  destruct (String.eqb_spec n "count_leading_zeros") as [E|_]; [specialize (H E)|]; nodes.
Qed.

Lemma same_extern e T n args ct vi : (forall a, In a args -> R _ (v1 a) (v2 a)) ->
  (forall a, args = [a] -> n = "count_leading_zeros" -> R _ (v1 (cast (UInt (bits T) (lanes T)) a)) (v2 (cast (UInt (bits T) (lanes T)) a))) ->
  R _ (visit_extern func_bounds v1 e T n args ct vi) (visit_extern func_bounds v2 e T n args ct vi).
Proof.
  intros H Hw. unfold visit_extern. cbv zeta. apply (law_bind _ _ Law); [now nodes|]. intros b.
  destruct (negb b && _); [now nodes|]. destruct (is_intrinsic n ct n && is_count n).
  { unfold with1. destruct args as [|a [|b' l]]; try (now nodes). apply same_count. intros E. now apply Hw. }
  destruct (is_intrinsic n ct "memoize_expr"); [now apply same_argument|]. nodes.
Qed.

Lemma same_Call T n args ct vi : let e := ECall T n args ct vi in (forall x, visits_expr e x -> R _ (v1 x) (v2 x)) ->
  R _ (visit_Call can_prove same_as func_bounds v1 e T n args ct vi) (visit_Call can_prove same_as func_bounds v2 e T n args ct vi).
Proof.
  intros e H. assert (Ha : forall a, In a args -> R _ (v1 a) (v2 a)) by (intros a I; apply H; now constructor).
  unfold visit_Call. cbv zeta. unfold with1, with2, with3.
  destruct (is_intrinsic n ct "strict_float").
  { destruct args as [|a [|b l]]; try (now nodes). now apply same_argument. }
  destruct (is_handle _); [now nodes|]. apply (law_bind _ _ Law); [now apply same_point_call|]. intros [iv|]; [now nodes|].
  destruct (is_intrinsic n ct "abs").
  { destruct args as [|a [|b l]]; try (now nodes). specialize (Ha a (or_introl eq_refl)). unfold visit_abs. cbv zeta. nodes. }
  destruct (is_intrinsic n ct "absd").
  { destruct args as [|a [|b [|c l]]]; try (now nodes). pose proof (Ha a (or_introl eq_refl)). pose proof (Ha b (or_intror (or_introl eq_refl))).
    unfold visit_absd. nodes. }
  destruct (is_intrinsic n ct "unsafe_promise_clamped").
  { destruct args as [|a [|b [|c [|d l]]]]; try (now nodes). unfold visit_clamped. destruct (clamp a b c) as [x|] eqn:C; [|nodes].
    assert (Hx : R _ (v1 x) (v2 x)) by (apply H; now apply visits_clamp). unfold visit_instead. nodes. }
  destruct (is_likely n ct).
  { destruct args as [|a [|b l]]; try (now nodes). apply Ha. cbn. auto. }
  destruct (is_intrinsic n ct "return_second").
  { destruct args as [|a [|b [|c l]]]; try (now nodes). now apply same_argument. }
  destruct (is_intrinsic n ct "if_then_else").
  { destruct args as [|a [|b [|c [|d l]]]]; try (now nodes). assert (Hx : R _ (v1 (Select a b c)) (v2 (Select a b c))) by apply H, visits_choice.
    unfold visit_instead. nodes. }
  destruct (is_intrinsic n ct "require").
  { destruct args as [|a [|b [|c [|d l]]]]; try (now nodes). now apply same_argument. }
  destruct (is_intrinsic n ct n && is_bit_op n).
  { destruct args as [|a [|b [|c l]]]; try (now nodes). apply same_bits; [apply Ha; cbn; auto|apply Ha; cbn; auto|].
    intros E m N C. cbv zeta. apply H. unfold e. rewrite E. now apply visits_product. }
  destruct (is_intrinsic n ct "bitwise_not").
  { destruct args as [|a [|b l]]; try (now nodes). apply same_bit_not. apply Ha. cbn. auto. }
  destruct (_ && is_monotonic_float n); [now nodes|]. apply same_extern; [exact Ha|]. intros a E N. apply H. unfold e. rewrite E, N. apply visits_word.
Qed.

(** The run of a visit is decided by those of the expressions it visits. *)
Lemma dispatch_congruent e : (forall x, visits_expr e x -> R _ (v1 x) (v2 x)) ->
  R _ (dispatch simplify_ can_prove same_as unique_t func_bounds v1 e) (dispatch simplify_ can_prove same_as unique_t func_bounds v2 e).
Proof.
  intros H. assert (C : forall a, In a (children e) -> R _ (v1 a) (v2 a)) by (intros a I; apply H; now constructor).
  destruct e; cbn [dispatch children] in *; try solve [nodes].
  - apply same_Cast; [apply C; cbn; auto|]. intros D x. apply H. now constructor.
  - apply same_Variable.
  - pose proof (C e1 (or_introl eq_refl)). pose proof (C e2 (or_intror (or_introl eq_refl))). destruct op; cbn beta iota.
    + now apply same_Add.
    + now apply same_Sub.
    + now apply same_Mul.
    + now apply same_Div.
    + now apply same_Mod.
    + now apply same_Min.
    + now apply same_Max.
    + now apply same_logic.
    + now apply same_logic.
  - pose proof (C e1 (or_introl eq_refl)). pose proof (C e2 (or_intror (or_introl eq_refl))). destruct op; cbn beta iota.
    + now apply same_EQ.
    + now apply same_NE.
    + now apply same_compare.
    + now apply same_compare.
    + now apply same_compare.
    + now apply same_compare.
  - apply same_Not. apply C. cbn. auto.
  - apply same_Select; apply C; cbn; auto.
  - apply same_Load. apply C. cbn. auto.
  - apply same_Ramp. intros nm. apply H, visits_lane.
  - apply C. cbn. auto.
  - now apply same_Call.
  - apply same_Let; apply C; cbn; auto.
  - now apply same_vectors.
Qed.
End Congruence.

(** ** More fuel *)

Section Fuel.
Context (simplify_ : Expr -> Expr) (can_prove : Expr -> bool) (same_as : Expr -> Expr -> bool).
Context (unique_t : nat -> string) (func_bounds : string -> Z -> option Interval).
Abbreviation run := (visit simplify_ can_prove same_as unique_t func_bounds).

Lemma more_fuel n : forall m e, (n <= m)%nat -> refines_run _ (run n e) (run m e).
Proof.
  induction n as [|n IH]; intros m e L; [intros s; split; [reflexivity|discriminate]|].
  destruct m as [|m]; [lia|]. cbn [visit]. apply (dispatch_congruent _ _ _ _ _ _ (refines_lawful unique_t)). intros x _. apply IH. lia.
Qed.
End Fuel.

(** ** Enough fuel *)

(** How deep the visits of an expression go: ramps and calls are visited as
    expressions that are made for them. *)
Fixpoint weight (e : Expr) : nat :=
  match e with
  | IntImm _ _ | UIntImm _ _ | FloatImm _ _ | StringImm _ | EVariable _ _ => 1
  | Cast _ v | ENot v | Broadcast v _ => 1 + weight v
  | EBin _ a b | ECmp _ a b | Load _ _ a b _ | ELet _ a b => 1 + weight a + weight b
  | Ramp a b _ => 4 + weight a + weight b
  | Select c t f => 1 + weight c + weight t + weight f
  | ECall _ _ args _ _ => 10 + list_sum (map weight args)
  | Shuffle vs _ => 1 + list_sum (map weight vs)
  end.

(** No cast makes the visitor visit bounds, and no shift of a narrow value by a
    constant is visited as a product. *)
Fixpoint direct (e : Expr) : bool :=
  match e with
  | IntImm _ _ | UIntImm _ _ | FloatImm _ _ | StringImm _ | EVariable _ _ => true
  | Cast t v => casts_directly t (type_of v) && direct v
  | ENot v | Broadcast v _ => direct v
  | EBin _ a b | ECmp _ a b | Load _ _ a b _ | ELet _ a b | Ramp a b _ => direct a && direct b
  | Select c t f => direct c && direct t && direct f
  | ECall t n args _ _ =>
      forallb direct args &&
      match args with
      | [a] => negb (String.eqb n "count_leading_zeros") || casts_directly (UInt (bits t) (lanes t)) (type_of a)
      | [a; b] => negb (String.eqb n "shift_left" && is_const b) || (is_int t && (32 <=? bits t))
      | _ => true
      end
  | Shuffle vs _ => forallb direct vs
  end.

Lemma weight_const t v : (weight (make_const t v) <= 2)%nat /\ direct (make_const t v) = true.
Proof.
  unfold make_const, make_const_scalar. destruct (is_vector t); destruct (code _); cbn; auto.
Qed.

Lemma weight_pos e : (1 <= weight e)%nat.
Proof. destruct e; cbn; lia. Qed.

Lemma weight_cast_scalar t a : casts_directly t (type_of a) = true -> direct a = true ->
  (weight (cast_scalar t a) <= weight a + 1)%nat /\ direct (cast_scalar t a) = true.
Proof.
  intros C D. unfold cast_scalar. pose proof (weight_pos a). destruct (type_eqb _ _); [split; [lia|exact D]|].
  destruct (as_const_int a) as [i|]; [destruct (weight_const t i); split; [lia|assumption]|].
  destruct (as_const_uint a) as [u|]; [destruct (weight_const t u); split; [lia|assumption]|]. cbn. rewrite C, D. split; [lia|reflexivity].
Qed.

Lemma directly_elements t u t' u' : element_of t' = element_of t -> element_of u' = element_of u -> casts_directly t' u' = casts_directly t u.
Proof. intros E F. unfold casts_directly. now rewrite E, F. Qed.

Lemma weight_cast t a : casts_directly t (type_of a) = true -> direct a = true ->
  (weight (cast t a) <= weight a + 2)%nat /\ direct (cast t a) = true.
Proof.
  intros C D. unfold cast. pose proof (weight_pos a). destruct (type_eqb _ _); [split; [lia|exact D]|].
  destruct (as_const_int a) as [i|]; [destruct (weight_const t i); split; [lia|assumption]|].
  destruct (as_const_uint a) as [u|]; [destruct (weight_const t u); split; [lia|assumption]|].
  assert (G : (weight (Cast t a) <= weight a + 2)%nat /\ direct (Cast t a) = true) by (cbn; rewrite C, D; split; [lia|reflexivity]).
  destruct (is_vector t); [|exact G]. destruct (is_scalar (type_of a)).
  { destruct (weight_cast_scalar (element_of t) a) as [W E]; auto. cbn. split; [lia|exact E]. }
  destruct a; try exact G. cbn [direct] in D. destruct (weight_cast_scalar (element_of t) a) as [W E]; auto.
  cbn. split; [lia|exact E].
Qed.

Lemma represented_directly t u : can_represent_type t u = true -> casts_directly t u = true.
Proof.
  intros C. unfold casts_directly, can_represent_type in *. destruct (lanes t =? lanes u); [|discriminate C]. cbn [negb] in C.
  change (negb (lanes (element_of t) =? lanes (element_of u))) with false. cbv iota.
  change (is_int (element_of t)) with (is_int t). change (is_uint (element_of t)) with (is_uint t). change (is_float (element_of t)) with (is_float t).
  change (is_int (element_of u)) with (is_int u). change (is_uint (element_of u)) with (is_uint u). change (is_float (element_of u)) with (is_float u).
  change (bits (element_of t)) with (bits t). change (bits (element_of u)) with (bits u). now rewrite C.
Qed.

Lemma weight_lossless e : forall t r, direct e = true -> lossless_cast t e = Some r -> (weight r <= weight e + 2)%nat /\ direct r = true.
Proof.
  induction e; intros t' r D H; cbn [lossless_cast] in H;
    (match type of H with (if ?c then _ else _) = _ => destruct c; [injection H as <-; split; [lia|exact D]|] end);
    (match type of H with (if ?c then _ else _) = _ => destruct c eqn:C; [injection H as <-; apply weight_cast; [now apply represented_directly|exact D]|] end);
    try discriminate H.
  - destruct (can_represent_i64 t' value); [|discriminate H]. injection H as <-. destruct (weight_const t' value). cbn. split; [lia|assumption].
  - destruct (can_represent_u64 t' value); [|discriminate H]. injection H as <-. destruct (weight_const t' value). cbn. split; [lia|assumption].
  - destruct (can_represent_type t' (type_of e)); [|discriminate H]. cbn [direct] in D. apply andb_true_iff in D.
    destruct (IHe t' r (proj2 D) H). cbn. split; [lia|assumption].
  - destruct (lossless_cast (element_of t') e) as [v|] eqn:E; [|discriminate H]. injection H as <-. cbn [direct] in D.
    destruct (IHe _ _ D E). cbn. split; [lia|assumption].
Qed.

Lemma list_sum_in l x : In x l -> (x <= list_sum l)%nat.
Proof. induction l as [|y l IH]; [intros []|]. cbn. intros [->|I]; [lia|]. specialize (IH I). unfold list_sum in IH. lia. Qed.

Lemma child_lighter e x : direct e = true -> In x (children e) -> direct x = true /\ (weight x < weight e)%nat.
Proof.
  destruct e; cbn [direct children weight In]; intros D I; try contradiction.
  all: try (apply andb_true_iff in D; destruct D as [D1 D2]).
  all: try (apply andb_true_iff in D1; destruct D1 as [D1 D3]).
  all: repeat (destruct I as [I|I]; [subst x; split; [assumption|cbn; lia]|]); try contradiction.
  - rewrite forallb_forall in D1. split; [now apply D1|].
    pose proof (list_sum_in _ _ (in_map weight _ _ I)). lia.
  - rewrite forallb_forall in D. split; [now apply D|]. pose proof (list_sum_in _ _ (in_map weight _ _ I)). lia.
Qed.

Lemma visited_lighter e x : direct e = true -> visits_expr e x -> direct x = true /\ (weight x < weight e)%nat.
Proof.
  intros D V. destruct V.
  - now apply child_lighter.
  - cbn [direct] in D. now rewrite H in D.
  - cbn [direct weight] in *. apply andb_true_iff in D. destruct D as [D1 D2]. rewrite D1, D2. split; [reflexivity|lia].
  - cbn [direct weight forallb map list_sum fold_right] in *. destr_and. split; [|lia]. repeat (apply andb_true_iff; split); assumption.
  - unfold clamp in H. destruct (lossless_cast _ lo) as [l|] eqn:L; [|discriminate H]. destruct (lossless_cast _ hi) as [h|] eqn:U; [|discriminate H].
    injection H as <-. cbn [direct weight forallb map list_sum fold_right] in *. destr_and.
    destruct (weight_lossless lo (type_of a) l) as [Wl Dl], (weight_lossless hi (type_of a) h) as [Wh Dh]; auto. split; [|lia]. repeat (apply andb_true_iff; split); assumption.
  - cbn [direct] in D. rewrite H, H0 in D. cbn in D. now rewrite andb_false_r in D.
  - cbn [direct weight forallb map list_sum fold_right] in *. destr_and. cbn [String.eqb] in *.
    destruct (weight_cast (UInt (bits t) (lanes t)) a) as [W E]; auto. split; [exact E|lia].
Qed.

Section Enough.
Context (simplify_ : Expr -> Expr) (can_prove : Expr -> bool) (same_as : Expr -> Expr -> bool).
Context (unique_t : nat -> string) (func_bounds : string -> Z -> option Interval).
Abbreviation run := (visit simplify_ can_prove same_as unique_t func_bounds).
Abbreviation bounds := (bounds_of_expr_in_scope simplify_ can_prove same_as unique_t func_bounds).

Lemma enough_fuel n : forall m e, direct e = true -> (weight e < n)%nat -> (weight e < m)%nat -> same_run _ (run n e) (run m e).
Proof.
  induction n as [|n IH]; intros [|m] e D L M; try lia. cbn [visit].
  apply (dispatch_congruent _ _ _ _ _ _ (same_lawful unique_t)). intros x V. destruct (visited_lighter e x D V) as [Dx Wx]. apply IH; auto; lia.
Qed.

Lemma entry_same n m e sc constants : let s := mkBounds (set_containing_scope empty_scope sc) constants 0 false [] in
  run m e s = run n e s -> bounds m e sc constants = bounds n e sc constants.
Proof. unfold bounds_of_expr_in_scope. cbv zeta. now intros ->. Qed.

End Enough.

