(* ===== verification/BoundsTrust.v ===== *)
(** * What runs of the bounds visitor are trusted with

    The meaning of the events of Bounds, of intervals that enclose an
    expression, and of computations that leave the scope as they found it. *)

From Stdlib Require Import ZArith Lia Bool List String.
From S2P Require Import Prelude.
From S2P Require Import IntArith.
From S2P Require Import HalideTypes.
From S2P Require Import Scope.
From S2P Require Import IR.
From S2P Require Import IRMatch.
From S2P Require Import Typing.
From S2P Require Import Visit.
From S2P Require Import Mutator.
From S2P Require Import SimplifyRun.
From S2P Require Import SimplifyNodes.
From S2P Require Import Interval.
From S2P Require Import Bounds.
Import ListNotations.
Open Scope string_scope.
Open Scope list_scope.
Open Scope Z_scope.

Section Meaning.
Context (ty : string -> HType).

(** ** Intervals around a value *)

Section Env.
Context (env : Env).

(** A scalar expression of the type that is free of undefined behaviour. *)
Definition fine_end (T : HType) (e : Expr) : Prop := wf e = true /\ type_of e = T /\ everywhere ty env e.

Definition lower (T : HType) (x : Z) (e : Expr) : Prop := e = neg_inf \/ fine_end T e /\ ev env 0 e <= x.
Definition upper (T : HType) (x : Z) (e : Expr) : Prop := e = pos_inf \/ fine_end T e /\ x <= ev env 0 e.
Definition within (T : HType) (iv : Interval) (x : Z) : Prop := lower T x (imin iv) /\ upper T x (imax iv).

(** Every lane of the expression is in the interval. *)
Definition encloses (e : Expr) (iv : Interval) : Prop :=
  forall i, lane_in (type_of e) i -> within (element_of (type_of e)) iv (ev env i e).

Definition scope_holds (sc : Scope Interval) : Prop :=
  forall n iv, get sc n = Some iv -> encloses (EVariable (ty n) n) iv.

(** An expression that was made, or an infinity. *)
Definition meant (e : Expr) : Prop := is_inf pos_inf e = true \/ is_inf neg_inf e = true \/ everywhere ty env e.

(** The expression means the same in another environment. *)
Definition unaffected (env' : Env) (e : Expr) : Prop :=
  (everywhere ty env' e <-> everywhere ty env e) /\ forall i, ev env' i e = ev env i e.
End Env.

(** ** Events *)

Fixpoint trusted (env : Env) (t : Trust) {struct t} : Prop :=
  match t with
  | Made e => meant env e
  | Simplified e r =>
      if is_inf pos_inf e || is_inf neg_inf e then r = e
      else wf e = true -> everywhere ty env e -> wf r = true /\ type_of r = type_of e /\ good ty env e r
  | Proved e => forall i, lane_in (type_of e) i -> ev env i e <> 0
  | Signed s e => forall i, lane_in (type_of e) i -> 0 < s * ev env i e
  | Bound_to n e => wf e = true /\ names ty env n e
  | Keeps to e => forall i, lane_in (type_of e) i -> in_type to (ev env i e)
  | Wraps t iv => bits t < 32 /\ has_upper_bound iv = has_lower_bound iv
  | Stands e e' => wf e' = true /\ type_of e' = type_of e /\ good ty env e e'
  | Same e e' => forall i, lane_in (type_of e) i -> ev env i e' = ev env i e
  | Unbounded iv => is_everything iv = true
  | Divisor t e => no_overflow_int t = true \/ is_uint t = true \/ ev env 0 e <> -1
  | Amount t e => forall i, lane_in (type_of e) i -> 0 <= ev env i e < bits t
  | Shifted a b => forall i, lane_in (type_of a) i ->
      0 <= ev env i b < bits (type_of a) /\ in_type (type_of a) (ev env i a * 2 ^ ev env i b)
  | Nonnegative e => 0 <= ev env 0 e
  | Scalar t => is_scalar t = true
  | Lanewise name => forall t i l, ext env name t i l = ext env name (element_of t) 0 l
  | Alike t e => element_of (type_of e) = element_of t
  | Within e iv => encloses env e iv
  | Laned n t k sc fresh inner =>
      ty n = t /\ in_type t (k - 1) /\
      forall j, 0 <= j < k ->
        Forall (unaffected env (bind env n (fun _ => j))) fresh /\
        (forall m iv, get sc m = Some iv -> unaffected env (bind env n (fun _ => j)) (imin iv) /\
           unaffected env (bind env n (fun _ => j)) (imax iv)) /\
        (fix all (l : list Trust) : Prop :=
           match l with [] => True | t :: l => trusted (bind env n (fun _ => j)) t /\ all l end) inner
  end.

Lemma trusted_all env l :
  (fix all (l : list Trust) : Prop := match l with [] => True | t :: l => trusted env t /\ all l end) l <->
  Forall (trusted env) l.
Proof.
  induction l as [|t l IH]; [split; auto|]. rewrite IH. split; [intros [? ?]; now constructor|]. intros H. now inversion H.
Qed.

(** ** Computations *)

(** The computation restores the scope and the mode; if it meets no error and
    what it relies on holds, its result has the property. *)
Record outcome (env : Env) (s s' : BoundsState) (Q : Prop) : Prop := {
  same_scope : scope s' = scope s;
  same_mode : const_bound s' = const_bound s;
  new_trust : exists new, relied s' = new ++ relied s /\
    (void s' = false -> void s = false /\ (Forall (trusted env) new -> Q))
}.

Definition safe (env : Env) (sc : Scope Interval) (constants : bool) {A} (m : B A) (Q : A -> Prop) : Prop :=
  forall s, scope s = sc -> const_bound s = constants -> outcome env s (snd (m s)) (Q (fst (m s))).

Section Rules.
Context (env : Env) (sc : Scope Interval) (constants : bool).
Abbreviation safe := (safe env sc constants).

Lemma safe_give {A} (a : A) (Q : A -> Prop) : Q a -> safe (give a) Q.
Proof. intros H s _ _. split; [reflexivity|reflexivity|]. exists []. split; [reflexivity|]. now intros V. Qed.

Lemma safe_rely t : safe (rely t) (fun _ => trusted env t).
Proof.
  intros s _ _. split; [reflexivity|reflexivity|]. exists [t]. split; [reflexivity|]. intros V. split; [exact V|].
  intros F. now inversion F.
Qed.

Lemma safe_bad {A} (a : A) Q : safe (bad a) Q.
Proof. intros s _ _. split; [reflexivity|reflexivity|]. exists []. now split. Qed.

Lemma safe_mode : safe constant_mode (fun b => b = constants).
Proof. intros s _ M. split; [reflexivity|reflexivity|]. exists []. split; [reflexivity|]. now split. Qed.

Lemma safe_scope : safe current_scope (fun c => c = sc).
Proof. intros s M _. split; [reflexivity|reflexivity|]. exists []. split; [reflexivity|]. now split. Qed.

Lemma safe_unique u : safe (unique_name u) (fun _ => True).
Proof. intros s _ _. split; [reflexivity|reflexivity|]. exists []. now repeat split. Qed.

Lemma safe_weaken {A} (m : B A) (Q R : A -> Prop) : safe m Q -> (forall a, Q a -> R a) -> safe m R.
Proof.
  intros H I s E1 E2. destruct (H s E1 E2) as [S M (new & N & T)]. split; [exact S|exact M|]. exists new. split; [exact N|].
  intros V. destruct (T V) as [V' T']. split; [exact V'|auto].
Qed.

Lemma safe_bind {A C} (m : B A) (k : A -> B C) (Q : A -> Prop) (R : C -> Prop) :
  safe m Q -> (forall a, safe (k a) (fun c => Q a -> R c)) -> safe (let! a := m in k a) R.
Proof.
  intros H K s E1 E2. destruct (H s E1 E2) as [S M (new & N & T)]. destruct (m s) as [a s1]. cbn [fst snd] in *.
  destruct (K a s1) as [S1 M1 (new1 & N1 & T1)]; try congruence.
  split; [congruence|congruence|]. exists (new1 ++ new). rewrite N1, N, app_assoc. split; [reflexivity|].
  intros V. destruct (T1 V) as [V1 G]. destruct (T V1) as [V0 G0]. split; [exact V0|]. intros F.
  apply Forall_app in F. destruct F as [F1 F0]. auto.
Qed.

Lemma safe_bind_pair {A A' C} (m : B (A * A')) (k : A -> A' -> B C) (Q : A * A' -> Prop) (R : C -> Prop) :
  safe m Q -> (forall a a', safe (k a a') (fun c => Q (a, a') -> R c)) -> safe (let! '(a, a') := m in k a a') R.
Proof.
  intros H K s E1 E2. destruct (H s E1 E2) as [S M (new & N & T)]. destruct (m s) as [[a a'] s1]. cbn [fst snd] in *.
  destruct (K a a' s1) as [S1 M1 (new1 & N1 & T1)]; try congruence.
  split; [congruence|congruence|]. exists (new1 ++ new). rewrite N1, N, app_assoc. split; [reflexivity|].
  intros V. destruct (T1 V) as [V1 G]. destruct (T V1) as [V0 G0]. split; [exact V0|]. intros F.
  apply Forall_app in F. destruct F as [F1 F0]. auto.
Qed.
End Rules.

Lemma safe_binding env sc constants {A} n iv (m : B A) Q : scope_ok sc -> safe env (push sc n iv) constants m Q ->
  safe env sc constants (binding n iv m) Q.
Proof.
  intros Ok H s E1 E2. unfold binding. rewrite E1. specialize (H (mkBounds (push sc n iv) (const_bound s) (next_name s) (void s) (relied s)) eq_refl E2).
  destruct (m _) as [a s']. destruct H as [S M T]. cbn [fst snd scope const_bound relied void] in *.
  rewrite S, pop_push_scope by exact Ok. now split.
Qed.

Lemma safe_constants env sc constants {A} (m : B A) Q : safe env sc true m Q ->
  safe env sc constants (with_constants m) Q.
Proof.
  intros H s E1 E2. unfold with_constants. specialize (H (mkBounds (scope s) true (next_name s) (void s) (relied s)) E1 eq_refl).
  destruct (m _) as [a s']. destruct H as [S M T]. now split.
Qed.

(** What is set apart is trusted in environments of its own. *)
Lemma safe_apart env sc constants {A} (m : B A) (R : Env -> A -> Prop) :
  (forall env', safe env' sc constants m (R env')) ->
  safe env sc constants (apart m) (fun r => forall env', Forall (trusted env') (snd r) -> R env' (fst r)).
Proof.
  intros H s E1 E2. unfold apart.
  assert (K : forall env', outcome env' (mkBounds (scope s) (const_bound s) (next_name s) (void s) [])
    (snd (m (mkBounds (scope s) (const_bound s) (next_name s) (void s) [])))
    (R env' (fst (m (mkBounds (scope s) (const_bound s) (next_name s) (void s) []))))) by (intros env'; now apply H).
  destruct (m _) as [a s']. cbn [fst snd] in *. destruct (K env) as [S M (new & N & T)]. cbn [scope const_bound relied void] in *.
  split; [exact S|exact M|]. exists []. split; [reflexivity|]. intros V. destruct (T V) as [V' _]. split; [exact V'|].
  intros _ env' F. destruct (K env') as [_ _ (new' & N' & T')]. cbn [relied void] in *. rewrite app_nil_r in N'.
  rewrite <- N' in T'. now apply T'.
Qed.
End Meaning.
