(* ===== verification/BoundsEnds.v ===== *)
(** * Ends of intervals

    What is known of the ends of an interval around a value, and how the
    values of the expressions the bounds visitor makes compare. *)

From Stdlib Require Import ZArith Lia Bool List String.
From S2P Require Import Prelude.
From S2P Require Import IntArith.
From S2P Require Import Euclid.
From S2P Require Import HalideTypes.
From S2P Require Import IR.
From S2P Require Import IREquality.
From S2P Require Import IRMatch.
From S2P Require Import Typing.
From S2P Require Import MatchSound.
From S2P Require Import MakeSound.
From S2P Require Import Visit.
From S2P Require Import Mutator.
From S2P Require Import SimplifyRun.
From S2P Require Import SimplifyNodes.
From S2P Require Import Interval.
From S2P Require Import Bounds.
From S2P Require Import BoundsTrust.
Import ListNotations.
Open Scope string_scope.
Open Scope list_scope.
Open Scope Z_scope.

Lemma element_scalar t : is_scalar (element_of t) = true.
Proof. reflexivity. Qed.
#[export] Hint Resolve element_scalar : core.

Lemma scalar_is_element t : is_scalar t = true -> element_of t = t.
Proof. unfold is_scalar, element_of, with_lanes. destruct t as [c b l]. cbn. intros E. apply Z.eqb_eq in E. now subst. Qed.

Lemma own_element t : t = element_of t -> is_scalar t = true.
Proof. intros ->. reflexivity. Qed.

Lemma ir_equal_eq a b : wf a = true -> ir_equal a b = true -> a = b.
Proof. intros W E. unfold ir_equal in E. apply compare_expr_eq; [exact W|]. now destruct (compare_expr a b). Qed.

Section Ends.
Context (ty : string -> HType) (env : Env).

Abbreviation fine_end := (fine_end ty env).
Abbreviation lower := (lower ty env).
Abbreviation upper := (upper ty env).
Abbreviation within := (within ty env).
Abbreviation meant := (meant ty env).

Lemma meant_everywhere e : wf e = true -> meant e -> everywhere ty env e.
Proof. intros W. destruct (finite_inf e W) as (_ & _ & _ & _ & P & N). intros [H|[H|H]]; congruence. Qed.

Lemma fine_value T e i : is_scalar T = true -> fine_end T e -> ev env i e = ev env 0 e.
Proof. intros S (W & <- & E). now apply (everywhere_uniform ty). Qed.

Lemma fine_range T e : fine_end T e -> is_scalar T = true -> in_type T (ev env 0 e).
Proof. intros (W & <- & E) S. apply fits_in_type, (everywhere_defined ty env e 0 E). now left. Qed.

Lemma everywhere_range e i : everywhere ty env e -> lane_in (type_of e) i -> in_type (type_of e) (ev env i e).
Proof. intros E L. now apply fits_in_type, (everywhere_defined ty env e i E). Qed.

(** ** The ends an interval has *)

Lemma has_wf_ends iv : imin iv = neg_inf \/ wf (imin iv) = true -> imax iv = pos_inf \/ wf (imax iv) = true ->
  has_lower_bound iv = negb (is_inf neg_inf (imin iv)) /\ has_upper_bound iv = negb (is_inf pos_inf (imax iv)).
Proof.
  intros L U. unfold has_lower_bound, has_upper_bound, is_empty.
  assert (E1 : is_inf pos_inf (imin iv) = false) by (destruct L as [-> |W]; [reflexivity|apply (finite_inf _ W)]).
  assert (E2 : is_inf neg_inf (imax iv) = false) by (destruct U as [-> |W]; [reflexivity|apply (finite_inf _ W)]).
  rewrite E1, E2. split; apply andb_true_r.
Qed.

Lemma has_ends T iv : (imin iv = neg_inf \/ fine_end T (imin iv)) -> (imax iv = pos_inf \/ fine_end T (imax iv)) ->
  has_lower_bound iv = negb (is_inf neg_inf (imin iv)) /\ has_upper_bound iv = negb (is_inf pos_inf (imax iv)).
Proof. intros L U. apply has_wf_ends; [destruct L as [L|[L _]]|destruct U as [U|[U _]]]; auto. Qed.

Lemma lower_finite T iv x : within T iv x -> has_lower_bound iv = negb (is_inf neg_inf (imin iv)).
Proof.
  intros [L U]. apply (has_ends T iv); [destruct L as [L|[L _]]|destruct U as [U|[U _]]]; auto.
Qed.

Lemma upper_finite T iv x : within T iv x -> has_upper_bound iv = negb (is_inf pos_inf (imax iv)).
Proof.
  intros [L U]. apply (has_ends T iv); [destruct L as [L|[L _]]|destruct U as [U|[U _]]]; auto.
Qed.

Inductive lower_view T iv x : bool -> Prop :=
| lower_some : fine_end T (imin iv) -> ev env 0 (imin iv) <= x -> lower_view T iv x true
| lower_none : imin iv = neg_inf -> lower_view T iv x false.

Inductive upper_view T iv x : bool -> Prop :=
| upper_some : fine_end T (imax iv) -> x <= ev env 0 (imax iv) -> upper_view T iv x true
| upper_none : imax iv = pos_inf -> upper_view T iv x false.

Lemma lower_end T iv x : within T iv x -> lower_view T iv x (has_lower_bound iv).
Proof.
  intros H. rewrite (lower_finite T iv x H). destruct H as [[E|[F L]] _].
  - rewrite E. now constructor.
  - destruct (finite_inf _ (proj1 F)) as (_ & _ & _ & _ & _ & N). rewrite N. now constructor.
Qed.

Lemma upper_end T iv x : within T iv x -> upper_view T iv x (has_upper_bound iv).
Proof.
  intros H. rewrite (upper_finite T iv x H). destruct H as [_ [E|[F L]]].
  - rewrite E. now constructor.
  - destruct (finite_inf _ (proj1 F)) as (_ & _ & _ & _ & P & _). rewrite P. now constructor.
Qed.

Lemma bounded_ends T iv x : within T iv x -> is_bounded iv = true ->
  fine_end T (imin iv) /\ fine_end T (imax iv) /\ ev env 0 (imin iv) <= x <= ev env 0 (imax iv).
Proof.
  intros H B. unfold is_bounded in B. apply andb_true_iff in B. destruct B as [U L].
  destruct (lower_end T iv x H); [|discriminate]. destruct (upper_end T iv x H); [|discriminate]. auto.
Qed.

Lemma within_everything T x : within T everything x.
Proof. split; now left. Qed.

Lemma within_bounds T lo hi x : lower T x lo -> upper T x hi -> within T (mkInterval lo hi) x.
Proof. now split. Qed.

(** ** Constants *)

Lemma imm_everywhere e : wf e = true -> match e with IntImm _ _ | UIntImm _ _ => True | _ => False end -> everywhere ty env e.
Proof.
  intros W H. destruct e; try tauto; cbn [wf] in W; destr_and; constructor; cbn [children]; try constructor;
    try (split; [|now split]); intros; split; try exact I; split; try exact I; now apply in_typeb_spec.
Qed.

Lemma const_everywhere t v : wf_type t -> is_scalar t = true -> everywhere ty env (make_const t v).
Proof.
  intros W S. pose proof (make_const_spec t v W) as [Wf _ _ _ _].
  assert (K : match make_const t v with IntImm _ _ | UIntImm _ _ => True | _ => False end).
  { unfold make_const. replace (is_vector t) with false by (unfold is_vector, is_scalar in *; now rewrite S).
    destruct W as [I _]. unfold make_const_scalar.
    destruct (int_type_code t I) as [H|H]; unfold is_int, is_uint in *; destruct (code t); try discriminate; exact Logic.I. }
  now apply imm_everywhere.
Qed.

Lemma fine_const t v : wf_type t -> is_scalar t = true -> in_type t v -> fine_end t (make_const t v) /\ ev env 0 (make_const t v) = v.
Proof.
  intros W S R. pose proof (make_const_spec t v W) as [Wf Ty Ev _ _].
  split; [split; [exact Wf|split; [exact Ty|now apply const_everywhere]]|]. rewrite Ev. now apply cast_val_id, R; apply W.
Qed.

Lemma fine_zero t : wf_type t -> is_scalar t = true -> fine_end t (make_zero t) /\ ev env 0 (make_zero t) = 0.
Proof.
  intros W S. assert (E : make_zero t = make_const t 0).
  { destruct W as [I _]. unfold make_zero, is_handle. unfold int_type in I. now destruct (code t). }
  rewrite E. apply fine_const; auto. pose proof (tmin_tmax_width t (proj1 W)). unfold in_type. lia.
Qed.

Lemma within_type t x : wf_type t -> in_type t x -> within (element_of t) (bounds_of_type t) x.
Proof.
  intros W R. pose proof (wf_type_element t W) as We. apply in_type_element in R. unfold bounds_of_type.
  destruct ((is_uint _ || is_int _) && _); [|apply within_everything].
  rewrite type_max_const, type_min_const by exact We.
  destruct (fine_const (element_of t) (tmin (element_of t)) We) as [F1 E1]; [reflexivity|now apply in_type_tmin, We|].
  destruct (fine_const (element_of t) (tmax (element_of t)) We) as [F2 E2]; [reflexivity|now apply in_type_tmax, We|].
  apply within_bounds; right; (split; [assumption|]); rewrite ?E1, ?E2; apply R.
Qed.

Lemma type_encloses e iv i : wf e = true -> everywhere ty env e -> lane_in (type_of e) i ->
  iv = bounds_of_type (type_of e) -> within (element_of (type_of e)) iv (ev env i e).
Proof. intros W E L ->. apply within_type; [now apply wf_wf_type|now apply everywhere_range]. Qed.

(** ** Points *)

Lemma within_point e i : wf e = true -> everywhere ty env e -> is_scalar (type_of e) = true ->
  within (element_of (type_of e)) (single_point e) (ev env i e).
Proof.
  intros W E S. rewrite (everywhere_uniform ty env e i E S), scalar_is_element by exact S.
  assert (F : fine_end (type_of e) e) by now split. apply within_bounds; right; split; try exact F; lia.
Qed.

Lemma point_value T x y e : fine_end T e -> y = x -> ev env 0 e = y -> within T (single_point e) x.
Proof. intros F -> E. apply within_bounds; right; (split; [exact F|]); lia. Qed.

Section Same.
Context (same_as : Expr -> Expr -> bool) (same_eq : forall a b, same_as a b = true -> a = b).

Lemma equal_ends T iv x : within T iv x -> imin iv = imax iv ->
  imax iv = imin iv /\ fine_end T (imin iv) /\ ev env 0 (imin iv) = x.
Proof.
  intros [L U] P. destruct L as [E|[F L]].
  - rewrite E in P. destruct U as [E'|[[W _] _]]; [rewrite E' in P; discriminate P|]. rewrite <- P in W. discriminate W.
  - destruct U as [E'|[_ U]].
    + destruct F as [W _]. rewrite P, E' in W. discriminate W.
    + rewrite <- P in U. split; [now symmetry|]. split; [exact F|lia].
Qed.

Lemma point_ends T iv x : within T iv x -> is_point same_as iv = true ->
  imax iv = imin iv /\ fine_end T (imin iv) /\ ev env 0 (imin iv) = x.
Proof. intros H P. now apply equal_ends, same_eq. Qed.

Lemma point_of T iv x e : within T iv x -> is_point_of same_as iv e = true -> imin iv = e /\ imax iv = e /\ fine_end T e.
Proof.
  intros H P. unfold is_point_of in P. apply andb_true_iff in P. destruct P as [P1 P2]. apply same_eq in P1, P2.
  split; [exact P1|]. split; [exact P2|]. rewrite <- P1. apply (equal_ends T iv x H). congruence.
Qed.
End Same.

(** ** Limits *)

Definition mend (T : HType) (e : Expr) : Prop := e = pos_inf \/ e = neg_inf \/ fine_end T e.

Lemma mend_value T e : mend T e ->
  (e = pos_inf /\ end_value env 0 e = PosInf) \/ (e = neg_inf /\ end_value env 0 e = NegInf) \/
  (fine_end T e /\ end_value env 0 e = Fin (ev env 0 e)).
Proof.
  intros [-> |[-> |F]]; auto. right. right. split; [exact F|]. apply end_finite, F.
Qed.

Lemma mend_End T e : mend T e -> End T e /\ (is_scalar T = true -> end_defined env 0 e).
Proof.
  intros [-> |[-> |(W & Ty & E)]]; (split; [now constructor|]); intros S.
  - now left.
  - right. now left.
  - right. right. apply (everywhere_defined ty env e 0 E). left. now rewrite Ty.
Qed.

Lemma lower_iff T x e : lower T x e <-> mend T e /\ ext_le (end_value env 0 e) (Fin x).
Proof.
  unfold lower, BoundsTrust.lower, mend. split.
  - intros [-> |[F L]]; [split; [auto|exact I]|]. split; [auto|]. now rewrite (end_finite env 0 e (proj1 F)).
  - intros [H L]. destruct (mend_value T e H) as [[-> E]|[[-> E]|[F E]]]; rewrite E in L; cbn in L; auto; tauto.
Qed.

Lemma upper_iff T x e : upper T x e <-> mend T e /\ ext_le (Fin x) (end_value env 0 e).
Proof.
  unfold upper, BoundsTrust.upper, mend. split.
  - intros [-> |[F L]]; [split; [auto|exact I]|]. split; [auto|]. now rewrite (end_finite env 0 e (proj1 F)).
  - intros [H L]. destruct (mend_value T e H) as [[-> E]|[[-> E]|[F E]]]; rewrite E in L; cbn in L; auto; tauto.
Qed.

Lemma lower_mend T x e : lower T x e -> mend T e.
Proof. rewrite lower_iff. tauto. Qed.
Lemma upper_mend T x e : upper T x e -> mend T e.
Proof. rewrite upper_iff. tauto. Qed.

Lemma lower_le T x y e : lower T x e -> x <= y -> lower T y e.
Proof. intros [-> |[F L]] H; [now left|]. right. split; [exact F|lia]. Qed.
Lemma upper_ge T x y e : upper T x e -> y <= x -> upper T y e.
Proof. intros [-> |[F L]] H; [now left|]. right. split; [exact F|lia]. Qed.

Section Scalar.
Context (T : HType) (S : is_scalar T = true).

Lemma limit_mend ext r a b : limit_of T ext a b r -> mend T a -> mend T b -> meant r ->
  mend T r /\ end_value env 0 r = ext (end_value env 0 a) (end_value env 0 b).
Proof.
  intros [E V] Ma Mb M. destruct (V env 0 (or_introl S)) as [_ Ev].
  - now apply (mend_End T).
  - now apply (mend_End T).
  - split; [|exact Ev]. destruct E as [| |e W Ty]; unfold mend; auto. right. right.
    split; [exact W|]. split; [exact Ty|]. now apply meant_everywhere.
Qed.

Lemma min_mend a b : mend T a -> mend T b -> meant (make_min a b) ->
  mend T (make_min a b) /\ end_value env 0 (make_min a b) = ext_min (end_value env 0 a) (end_value env 0 b).
Proof. intros Ma Mb. apply limit_mend; auto. apply limit_is_min; [apply (mend_End T a Ma)|apply (mend_End T b Mb)]. Qed.

Lemma max_mend a b : mend T a -> mend T b -> meant (make_max a b) ->
  mend T (make_max a b) /\ end_value env 0 (make_max a b) = ext_max (end_value env 0 a) (end_value env 0 b).
Proof. intros Ma Mb. apply limit_mend; auto. apply limit_is_max; [apply (mend_End T a Ma)|apply (mend_End T b Mb)]. Qed.

Lemma min_lower a b x : mend T a -> mend T b -> meant (make_min a b) -> lower T x a \/ lower T x b ->
  lower T x (make_min a b).
Proof.
  intros Ma Mb M H. destruct (min_mend a b Ma Mb M) as [Mr V]. apply lower_iff. split; [exact Mr|]. rewrite V, ext_min_ge.
  rewrite !lower_iff in H. tauto.
Qed.

Lemma max_upper a b x : mend T a -> mend T b -> meant (make_max a b) -> upper T x a \/ upper T x b ->
  upper T x (make_max a b).
Proof.
  intros Ma Mb M H. destruct (max_mend a b Ma Mb M) as [Mr V]. apply upper_iff. split; [exact Mr|]. rewrite V, ext_max_le.
  rewrite !upper_iff in H. tauto.
Qed.

Lemma max_lower a b x : lower T x a -> lower T x b -> meant (make_max a b) -> lower T x (make_max a b).
Proof.
  rewrite !lower_iff. intros [Ma La] [Mb Lb] M. destruct (max_mend a b Ma Mb M) as [Mr V]. split; [exact Mr|].
  rewrite V, ext_max_ge. tauto.
Qed.

Lemma min_upper a b x : upper T x a -> upper T x b -> meant (make_min a b) -> upper T x (make_min a b).
Proof.
  rewrite !upper_iff. intros [Ma La] [Mb Lb] M. destruct (min_mend a b Ma Mb M) as [Mr V]. split; [exact Mr|].
  rewrite V, ext_min_le. tauto.
Qed.

(** ** Nodes of ends *)

Lemma fine_bin op a b : is_bool_op op = false -> fine_end T a -> fine_end T b -> meant (EBin op a b) ->
  fine_end T (EBin op a b) /\ ev env 0 (EBin op a b) = evbin op T (ev env 0 a) (ev env 0 b).
Proof.
  intros O (Wa & Ta & Ea) (Wb & Tb & Eb) M.
  assert (W : wf (EBin op a b) = true) by (cbn [wf]; now rewrite Wa, Wb, Ta, Tb, type_eqb_refl, O).
  split; [|cbn [ev]; now rewrite Ta]. split; [exact W|]. split; [destruct op; try discriminate O; exact Ta|].
  now apply meant_everywhere.
Qed.

Lemma fine_cmp op a b : fine_end T a -> fine_end T b -> meant (ECmp op a b) ->
  fine_end (BoolT 1) (ECmp op a b) /\ ev env 0 (ECmp op a b) = b2z (evcmp op (ev env 0 a) (ev env 0 b)).
Proof.
  intros (Wa & Ta & Ea) (Wb & Tb & Eb) M.
  assert (W : wf (ECmp op a b) = true) by (cbn [wf]; now rewrite Wa, Wb, Ta, Tb, type_eqb_refl).
  split; [|reflexivity]. split; [exact W|]. split; [|now apply meant_everywhere].
  cbn [type_of]. rewrite Ta. unfold is_scalar in S. apply Z.eqb_eq in S. now rewrite S.
Qed.

Lemma fine_select c a b : fine_end (BoolT 1) c -> fine_end T a -> fine_end T b -> meant (Select c a b) ->
  fine_end T (Select c a b) /\ ev env 0 (Select c a b) = if nz (ev env 0 c) then ev env 0 a else ev env 0 b.
Proof.
  intros (Wc & Tc & Ec) (Wa & Ta & Ea) (Wb & Tb & Eb) M.
  assert (W : wf (Select c a b) = true) by (cbn [wf]; now rewrite Wc, Wa, Wb, Ta, Tb, Tc, type_eqb_refl).
  split; [|reflexivity]. split; [exact W|]. split; [exact Ta|]. now apply meant_everywhere.
Qed.

Lemma fine_cast t a : int_type t = true -> is_scalar t = true -> fine_end T a -> meant (Cast t a) ->
  fine_end t (Cast t a) /\ ev env 0 (Cast t a) = cast_val t (ev env 0 a).
Proof.
  intros I St (Wa & Ta & Ea) M.
  assert (W : wf (Cast t a) = true).
  { cbn [wf]. rewrite Wa, I, Ta. unfold is_scalar in *. apply Z.eqb_eq in S, St. now rewrite S, St. }
  split; [|reflexivity]. split; [exact W|]. split; [reflexivity|]. now apply meant_everywhere.
Qed.
End Scalar.

Lemma fine_logic op a b : is_bool_op op = true -> fine_end (BoolT 1) a -> fine_end (BoolT 1) b -> meant (EBin op a b) ->
  fine_end (BoolT 1) (EBin op a b) /\ ev env 0 (EBin op a b) = evbin op (BoolT 1) (ev env 0 a) (ev env 0 b).
Proof.
  intros O (Wa & Ta & Ea) (Wb & Tb & Eb) M.
  assert (W : wf (EBin op a b) = true) by (cbn [wf]; now rewrite Wa, Wb, Ta, Tb, type_eqb_refl, O).
  split; [|cbn [ev]; now rewrite Ta]. split; [exact W|].
  split; [destruct op; try discriminate O; cbn [type_of]; now rewrite Ta|]. now apply meant_everywhere.
Qed.

Lemma fine_not a : fine_end (BoolT 1) a -> meant (ENot a) ->
  fine_end (BoolT 1) (ENot a) /\ ev env 0 (ENot a) = b2z (negb (nz (ev env 0 a))).
Proof.
  intros (Wa & Ta & Ea) M. assert (W : wf (ENot a) = true) by (cbn [wf]; now rewrite Wa, Ta).
  split; [|reflexivity]. split; [exact W|]. split; [cbn [type_of]; now rewrite Ta|]. now apply meant_everywhere.
Qed.

Lemma evbin_element op t x y : evbin op (element_of t) x y = evbin op t x y.
Proof. destruct op; cbn [evbin]; try reflexivity; apply norm_elt, same_elt_element. Qed.

(** ** Casts of ends *)

Lemma cast_end T t e : is_scalar T = true -> wf_type t -> is_scalar t = true -> fine_end T e ->
  wf (cast t e) = true /\ type_of (cast t e) = t /\ ev env 0 (cast t e) = cast_val t (ev env 0 e).
Proof.
  intros S Wt St (W & Ty & Ev). destruct (cast_ok t e W Wt) as (We & Te & Ee & _).
  { right. now rewrite Ty. }
  split; [exact We|]. split; [exact Te|]. rewrite Ee. unfold cast_to. rewrite !scalar_is_element by (now rewrite ?Ty).
  destruct (type_eqb (type_of e) t) eqn:E; [|reflexivity].
  apply type_eqb_eq in E. symmetry. apply cast_val_id; [apply Wt|]. rewrite <- E, Ty. now apply fine_range.
Qed.

Lemma narrow_in_int32 t v : int_type t = true -> bits t < 32 -> in_type t v -> in_type (Int 32 1) v.
Proof.
  intros I B R. pose proof (int_type_bits t I). unfold in_type, tmin, tmax in *.
  assert (P : 2 ^ bits t <= 2 ^ 31) by (apply Z.pow_le_mono_r; lia).
  assert (P' : 2 ^ (bits t - 1) <= 2 ^ 31) by (apply Z.pow_le_mono_r; lia).
  change (is_int (Int 32 1)) with true. change (bits (Int 32 1)) with 32. cbn iota. change (32 - 1) with 31. cbv beta iota in R.
  destruct (is_int t); cbn iota in R. all: lia.
Qed.

Lemma as_int_end T e : is_scalar T = true -> int_type T = true -> bits T < 32 -> fine_end T e ->
  type_of (as_int e) = Int 32 1 /\ ev env 0 (as_int e) = ev env 0 e.
Proof.
  intros S I B F. destruct (cast_end T (Int 32 1) e S) as (_ & Ty & V); auto; [now split|].
  split; [exact Ty|]. unfold as_int. rewrite V. apply cast_val_id; [reflexivity|].
  apply (narrow_in_int32 T); auto. now apply fine_range.
Qed.

(** The interval of a monotonic operation, where its ends do not wrap. *)
Lemma unwrapped_within T (lo hi : Expr) (ll hh : bool) v1 v2 z : int_type T = true ->
  (if ll then fine_end T lo /\ ev env 0 lo = norm T v1 else lo = neg_inf) ->
  (if hh then fine_end T hi /\ ev env 0 hi = norm T v2 else hi = pos_inf) ->
  (ll = true -> v1 <= z) -> (hh = true -> z <= v2) ->
  (no_overflow_int T = false -> ll = hh /\ (ll = true -> norm T v1 = v1) /\ (hh = true -> norm T v2 = v2)) ->
  within T (mkInterval lo hi) (norm T z).
Proof.
  intros I L H Lz Hz N. destruct (no_overflow_int T) eqn:O.
  - rewrite !norm_no_overflow in * by exact O. split; cbn [imin imax].
    + destruct ll; [right|now left]. destruct L as [F E]. split; [exact F|]. rewrite E. auto.
    + destruct hh; [right|now left]. destruct H as [F E]. split; [exact F|]. rewrite E. auto.
  - destruct (N eq_refl) as (<- & N1 & N2). destruct ll.
    + specialize (N1 eq_refl). specialize (N2 eq_refl). specialize (Lz eq_refl). specialize (Hz eq_refl).
      destruct L as [Fl El], H as [Fh Eh].
      assert (R1 : in_type T v1) by (rewrite <- N1; now apply norm_range).
      assert (R2 : in_type T v2) by (rewrite <- N2; now apply norm_range).
      assert (R : in_type T z) by (unfold in_type in *; lia).
      rewrite (norm_id T z I R). split; cbn [imin imax]; right; (split; [assumption|]); lia.
    + subst. apply within_everything.
Qed.
End Ends.
