(* ===== verification/BoundsArith.v ===== *)
(** * Bounds of arithmetic

    The visits of sums, differences, minima, maxima, comparisons and logic give
    intervals around the values. *)

From Stdlib Require Import ZArith Lia Bool List String.
From S2P Require Import Prelude.
From S2P Require Import IntArith.
From S2P Require Import Euclid.
From S2P Require Import HalideTypes.
From S2P Require Import Scope.
From S2P Require Import IR.
From S2P Require Import IREquality.
From S2P Require Import IRMatch.
From S2P Require Import Typing.
From S2P Require Import MatchSound.
From S2P Require Import Visit.
From S2P Require Import Mutator.
From S2P Require Import Monotonic.
From S2P Require Import Intrinsics.
From S2P Require Import SimplifyRun.
From S2P Require Import SimplifyNodes.
From S2P Require Import Interval.
From S2P Require Import Bounds.
From S2P Require Import BoundsTrust.
From S2P Require Import BoundsEnds.
Import ListNotations.
Open Scope string_scope.
Open Scope list_scope.
Open Scope Z_scope.

(** What a visit relies on: the expression has a meaning, and the scope holds. *)
Record settles (ty : string -> HType) (env : Env) (sc : Scope Interval) (e : Expr) : Prop := {
  settles_wf : wf e = true;
  settles_everywhere : everywhere ty env e;
  settles_scope : scope_holds ty env sc;
  settles_sane : sane_env env
}.

Definition visits_soundly (visit : Expr -> B Interval) : Prop :=
  forall ty env sc constants e, scope_ok sc ->
    safe ty env sc constants (visit e) (fun iv => settles ty env sc e -> encloses ty env e iv).

Section Visits.
Context (can_prove : Expr -> bool) (same_as : Expr -> Expr -> bool).
Context (same_eq : forall a b, same_as a b = true -> a = b).
Context (visit : Expr -> B Interval) (Hv : visits_soundly visit).
Context (ty : string -> HType) (env : Env) (sc : Scope Interval) (constants : bool) (Ok : scope_ok sc).

Abbreviation safe := (safe ty env sc constants).
Abbreviation settles := (settles ty env sc).
Abbreviation encloses := (encloses ty env).
Abbreviation within := (within ty env).
Abbreviation fine_end := (fine_end ty env).
Abbreviation meant := (meant ty env).
Abbreviation sound e m := (BoundsTrust.safe ty env sc constants m (fun result => settles e -> encloses e result)).

Lemma settles_child e a : settles e -> In a (children e) -> settles a.
Proof.
  intros [W E S D] I. split; auto.
  - pose proof (wf_children e W) as F. rewrite Forall_forall in F. now apply F.
  - pose proof (everywhere_children _ _ _ E) as F. rewrite Forall_forall in F. now apply F.
Qed.

Lemma settles_range e i : settles e -> lane_in (type_of e) i -> in_type (type_of e) (ev env i e).
Proof. intros [W E _ _] L. now apply (everywhere_range ty). Qed.

Lemma settles_type e : settles e -> encloses e (bounds_of_type (type_of e)).
Proof. intros H i L. apply within_type; [apply wf_wf_type, H|now apply settles_range]. Qed.

(** ** Steps *)

Lemma safe_make e : safe (make_bound e) (fun r => r = e /\ meant e).
Proof. eapply safe_bind; [apply safe_rely|]. intros u. now apply safe_give. Qed.

Lemma safe_point e : safe (point e) (fun iv => iv = single_point e /\ meant e).
Proof. eapply safe_bind; [apply safe_rely|]. intros u. now apply safe_give. Qed.

Lemma safe_bound_if (test : bool) e o :
  safe (bound_if test e o) (fun r => if test then r = e /\ meant e else r = o).
Proof. destruct test; [apply safe_make|now apply safe_give]. Qed.

Lemma safe_proves e : safe (proves can_prove e) (fun b => b = true -> forall i, lane_in (type_of e) i -> ev env i e <> 0).
Proof.
  unfold proves. destruct (can_prove e); [|now apply safe_give].
  eapply safe_bind; [apply safe_rely|]. intros u. now apply safe_give.
Qed.

Lemma safe_positive e : safe (positive_const e) (fun b => b = true -> forall i, lane_in (type_of e) i -> 0 < ev env i e).
Proof.
  unfold positive_const. destruct (is_positive_const e); [|now apply safe_give].
  eapply safe_bind; [apply safe_rely|]. intros u. apply safe_give. intros H _ i L. specialize (H i L). lia.
Qed.

Lemma safe_negative e : safe (negative_const e) (fun b => b = true -> forall i, lane_in (type_of e) i -> ev env i e < 0).
Proof.
  unfold negative_const. destruct (is_negative_const e); [|now apply safe_give].
  eapply safe_bind; [apply safe_rely|]. intros u. apply safe_give. intros H _ i L. specialize (H i L). lia.
Qed.

Lemma safe_visit e : sound e (visit e).
Proof. now apply Hv. Qed.

Lemma safe_const {A} (a : A) : safe (give a) (fun b => b = a).
Proof. now apply safe_give. Qed.

(** ** Points *)

Lemma point_encloses e : settles e -> is_scalar (type_of e) = true -> encloses e (single_point e).
Proof. intros [W E _ _] S i L. now apply within_point. Qed.

Lemma lane_zero e : settles e -> exists i, lane_in (type_of e) i.
Proof.
  intros [W _ _ _]. destruct (wf_wf_type e W) as [_ V]. exists 0. unfold valid_lanes in V.
  apply andb_true_iff in V. destruct V as [V _]. apply Z.leb_le in V. right. lia.
Qed.

(** An expression whose interval is the point at itself is a scalar. *)
Lemma self_point e a iv : settles a -> encloses a iv -> is_point_of same_as iv e = true -> fine_end (element_of (type_of a)) e.
Proof.
  intros H E P. destruct (lane_zero a H) as [i L]. eapply (point_of ty env same_as same_eq); [exact (E i L)|exact P].
Qed.

Lemma self_scalar a iv : settles a -> encloses a iv -> is_point_of same_as iv a = true -> is_scalar (type_of a) = true.
Proof. intros H E P. destruct (self_point a a iv H E P) as (_ & T & _). now apply own_element. Qed.

Lemma safe_on_points e node a b A B' otherwise (Q : Interval -> Prop) :
  safe otherwise Q ->
  (is_point_of same_as A a = true -> is_point_of same_as B' b = true -> Q (single_point e)) ->
  (is_point same_as A = true -> is_point same_as B' = true -> meant (node (imin A) (imin B')) ->
     Q (single_point (node (imin A) (imin B')))) ->
  safe (on_points same_as e node a b A B' otherwise) Q.
Proof.
  intros O S M. unfold on_points. destruct (is_point_of same_as A a && is_point_of same_as B' b) eqn:E1.
  - apply andb_true_iff in E1. eapply safe_weaken; [apply safe_point|]. intros iv [-> _]. now apply S.
  - destruct (is_point same_as A && is_point same_as B') eqn:E2; [|exact O].
    apply andb_true_iff in E2. eapply safe_weaken; [apply safe_point|]. intros iv [-> H]. now apply M.
Qed.

Section Binary.
Context (op : BinOp) (a b : Expr).

Lemma settles_bin : settles (EBin op a b) -> settles a /\ settles b /\ type_of b = type_of a /\
  element_of (type_of (EBin op a b)) = (if is_bool_op op then BoolT 1 else element_of (type_of a)) /\
  (is_bool_op op = true -> element_of (type_of a) = BoolT 1).
Proof.
  intros H. split; [apply (settles_child _ _ H); cbn; auto|]. split; [apply (settles_child _ _ H); cbn; auto|].
  destruct H as [W _ _ _]. destruct (wf_bin_inv _ _ _ W) as (_ & _ & T). split; [exact T|]. split; [now destruct op|].
  intros O. cbn [wf] in W. rewrite O in W. destr_and.
  unfold is_bool, is_uint in *. destruct (type_of a) as [c n l]. cbn in *. destr_and.
  destruct c; try discriminate. match goal with H : (n =? 1) = true |- _ => apply Z.eqb_eq in H; now subst end.
Qed.

Lemma bin_at i : settles (EBin op a b) -> lane_in (type_of (EBin op a b)) i ->
  lane_in (type_of a) i /\ lane_in (type_of b) i /\
  ev env i (EBin op a b) = evbin op (element_of (type_of a)) (ev env i a) (ev env i b).
Proof.
  intros [W _ _ _] L. destruct (bin_lanes op a b i W L) as [La Lb]. split; [exact La|]. split; [exact Lb|].
  cbn [ev]. now rewrite evbin_element.
Qed.

Lemma bin_scalar : settles (EBin op a b) -> is_scalar (type_of a) = true -> is_scalar (type_of (EBin op a b)) = true.
Proof.
  intros H S. pose proof (settles_wf _ _ _ _ H) as W. destruct (wf_bin_inv _ _ _ W) as (_ & _ & T).
  apply (scalar_lanes (type_of a)); [|exact S]. apply Z.eqb_eq. now destruct op.
Qed.

Lemma self_points_bin A : settles (EBin op a b) -> encloses a A -> is_point_of same_as A a = true ->
  encloses (EBin op a b) (single_point (EBin op a b)).
Proof.
  intros H E P. apply point_encloses; [exact H|]. apply bin_scalar; [exact H|].
  apply (self_scalar a A); auto. apply (settles_bin H).
Qed.

Lemma made_points_bin A B' : settles (EBin op a b) -> encloses a A -> encloses b B' ->
  is_point same_as A = true -> is_point same_as B' = true -> meant (EBin op (imin A) (imin B')) ->
  encloses (EBin op a b) (single_point (EBin op (imin A) (imin B'))).
Proof.
  intros H Ea Eb Pa Pb M i L. destruct (settles_bin H) as (Ha & Hb & T & Te & Tb).
  destruct (bin_at i H L) as (La & Lb & V). specialize (Ea i La). specialize (Eb i Lb). rewrite T in Eb.
  destruct (point_ends ty env same_as same_eq _ _ _ Ea Pa) as (_ & Fa & Va).
  destruct (point_ends ty env same_as same_eq _ _ _ Eb Pb) as (_ & Fb & Vb).
  rewrite Te. destruct (is_bool_op op) eqn:O.
  - rewrite (Tb eq_refl) in *. destruct (fine_logic ty env op _ _ O Fa Fb M) as [F W].
    eapply point_value; [exact F| |exact W]; now rewrite V, Va, Vb.
  - destruct (fine_bin ty env _ op _ _ O Fa Fb M) as [F W]. eapply point_value; [exact F| |exact W]; now rewrite V, Va, Vb.
Qed.
End Binary.

Lemma safe_points_bin op a b A B' otherwise :
  safe otherwise (fun iv => settles (EBin op a b) -> encloses a A -> encloses b B' -> encloses (EBin op a b) iv) ->
  safe (on_points same_as (EBin op a b) (EBin op) a b A B' otherwise)
    (fun iv => (settles b -> encloses b B') -> (settles a -> encloses a A) -> settles (EBin op a b) -> encloses (EBin op a b) iv).
Proof.
  intros H. apply safe_on_points.
  - eapply safe_weaken; [exact H|]. intros iv I Eb Ea S. destruct (settles_bin _ _ _ S) as (Sa & Sb & _). auto.
  - intros P _ Eb Ea S. destruct (settles_bin _ _ _ S) as (Sa & _). apply (self_points_bin op a b A); auto.
  - intros Pa Pb M Eb Ea S. destruct (settles_bin _ _ _ S) as (Sa & Sb & _). apply (made_points_bin op a b A B'); auto.
Qed.

(** ** Sums and differences *)

Lemma may_wrap_narrow t : int_type t = true -> may_wrap t = negb (no_overflow_int t).
Proof.
  intros I. unfold may_wrap, no_overflow_int, is_float, is_int. unfold int_type in I.
  destruct (code t); try discriminate; cbn; [|reflexivity]. destruct (Z.ltb_spec (bits t) 32), (Z.leb_spec 32 (bits t)); lia || reflexivity.
Qed.

(** What passing the tests of [unless_wrapped] shows. *)
Definition unwrapped (t : HType) (iv : Interval) (up low : Expr) : Prop :=
  bits t < 32 /\ has_upper_bound iv = has_lower_bound iv /\
  (has_upper_bound iv = true -> ev env 0 (ECmp EQ up (as_int (imax iv))) <> 0) /\
  (has_lower_bound iv = true -> ev env 0 (ECmp EQ low (as_int (imin iv))) <> 0).

Lemma safe_proves_eq a b : is_scalar (type_of a) = true ->
  safe (proves can_prove (ECmp EQ a b)) (fun ok => ok = true -> ev env 0 (ECmp EQ a b) <> 0).
Proof. intros S. eapply safe_weaken; [apply safe_proves|]. intros b' H E. apply (H E). left. exact S. Qed.

Lemma safe_unless_wrapped t iv up low otherwise Q :
  is_scalar (type_of up) = true -> is_scalar (type_of low) = true ->
  safe otherwise (fun r => (may_wrap t = true -> unwrapped t iv up low) -> Q r) -> Q (bounds_of_type t) ->
  safe (unless_wrapped can_prove t iv up low otherwise) Q.
Proof.
  intros Su Sl H T. unfold unless_wrapped. destruct (may_wrap t).
  - eapply safe_bind; [apply safe_rely|]. intros _u. cbv beta.
    eapply safe_bind with (Q := fun ok : bool => ok = true -> has_upper_bound iv = true -> ev env 0 (ECmp EQ up (as_int (imax iv))) <> 0).
    { destruct (has_upper_bound iv); [|apply safe_give; discriminate]. eapply safe_weaken; [now apply safe_proves_eq|]. auto. }
    intros [|]; [|apply safe_give; auto]. cbv beta.
    eapply safe_bind with (Q := fun ok : bool => ok = true -> has_lower_bound iv = true -> ev env 0 (ECmp EQ low (as_int (imin iv))) <> 0).
    { destruct (has_lower_bound iv); [|apply safe_give; discriminate]. eapply safe_weaken; [now apply safe_proves_eq|]. auto. }
    intros [|]; [|apply safe_give; auto]. eapply safe_weaken; [exact H|]. cbv beta.
    intros r I H1 H2 [H3 H4]. apply I. intros _. unfold unwrapped. auto.
  - eapply safe_weaken; [exact H|]. intros r I. apply I. discriminate.
Qed.

(** The tests compare sums at 32 bits. *)
Lemma test_exact (op : BinOp) T x y r : op = Add \/ op = Sub -> int_type T = true -> is_scalar T = true -> bits T < 32 ->
  fine_end T x -> fine_end T y -> fine_end T r ->
  ev env 0 (ECmp EQ (EBin op (as_int x) (as_int y)) (as_int r)) <> 0 ->
  match op with Sub => ev env 0 x - ev env 0 y | _ => ev env 0 x + ev env 0 y end = ev env 0 r.
Proof.
  intros O I S Bt Fx Fy Fr H. destruct (as_int_end ty env T x S I Bt Fx) as [Tx Vx], (as_int_end ty env T y S I Bt Fy) as [Ty Vy].
  destruct (as_int_end ty env T r S I Bt Fr) as [Tr Vr]. cbn [ev evcmp] in H. rewrite Tx in H.
  destruct O as [-> | ->]; cbn [evbin] in H; rewrite norm_no_overflow, Vx, Vy, Vr in H by reflexivity;
    destruct (Z.eqb_spec (match Add with Sub => ev env 0 x - ev env 0 y | _ => ev env 0 x + ev env 0 y end) (ev env 0 r)) as [E|E];
    destruct (Z.eqb_spec (ev env 0 x - ev env 0 y) (ev env 0 r)) as [E'|E'];
    try assumption; exfalso; apply H; cbn; now rewrite ?(proj2 (Z.eqb_neq _ _) E), ?(proj2 (Z.eqb_neq _ _) E').
Qed.

Lemma as_int_scalar e : is_scalar (type_of (as_int e)) = true.
Proof.
  unfold as_int, cast. destruct (type_eqb _ _) eqn:Q; [apply type_eqb_eq in Q; now rewrite Q|].
  destruct (as_const_int e); [reflexivity|]. destruct (as_const_uint e); reflexivity.
Qed.

(** An end made of two ends, if both are there. *)
Lemma made_end op T x y (has : bool) r : is_bool_op op = false -> is_scalar T = true -> (has = true -> fine_end T x /\ fine_end T y) ->
  forall o, (if has then r = EBin op x y /\ meant (EBin op x y) else r = o) ->
  if has then fine_end T r /\ ev env 0 r = evbin op T (ev env 0 x) (ev env 0 y) else r = o.
Proof.
  intros O S F o H. destruct has; [|exact H]. destruct H as [-> M]. destruct (F eq_refl) as [Fx Fy].
  now apply fine_bin.
Qed.

Lemma both_lower T A B' x y : within T A x -> within T B' y -> has_lower_bound A && has_lower_bound B' = true ->
  (fine_end T (imin A) /\ fine_end T (imin B')) /\ ev env 0 (imin A) <= x /\ ev env 0 (imin B') <= y.
Proof.
  intros HA HB E. apply andb_true_iff in E. destruct E as [E1 E2].
  destruct (lower_end ty env T A x HA); [|discriminate]. destruct (lower_end ty env T B' y HB); [|discriminate]. auto.
Qed.

Lemma both_upper T A B' x y : within T A x -> within T B' y -> has_upper_bound A && has_upper_bound B' = true ->
  (fine_end T (imax A) /\ fine_end T (imax B')) /\ x <= ev env 0 (imax A) /\ y <= ev env 0 (imax B').
Proof.
  intros HA HB E. apply andb_true_iff in E. destruct E as [E1 E2].
  destruct (upper_end ty env T A x HA); [|discriminate]. destruct (upper_end ty env T B' y HB); [|discriminate]. auto.
Qed.

Lemma upper_lower T A B' x y : within T A x -> within T B' y -> has_upper_bound A && has_lower_bound B' = true ->
  (fine_end T (imax A) /\ fine_end T (imin B')) /\ x <= ev env 0 (imax A) /\ ev env 0 (imin B') <= y.
Proof.
  intros HA HB E. apply andb_true_iff in E. destruct E as [E1 E2].
  destruct (upper_end ty env T A x HA); [|discriminate]. destruct (lower_end ty env T B' y HB); [|discriminate]. auto.
Qed.

(** The ends of a sum or difference, and the tests on them. *)
Lemma linear_within op T x1 y1 x2 y2 (ll hh : bool) lo hi v1 v2 z : op = Add \/ op = Sub -> int_type T = true -> is_scalar T = true ->
  (ll = true -> fine_end T x1 /\ fine_end T y1) -> (hh = true -> fine_end T x2 /\ fine_end T y2) ->
  (if ll then lo = EBin op x1 y1 /\ meant (EBin op x1 y1) else lo = neg_inf) ->
  (if hh then hi = EBin op x2 y2 /\ meant (EBin op x2 y2) else hi = pos_inf) ->
  v1 = match op with Sub => ev env 0 x1 - ev env 0 y1 | _ => ev env 0 x1 + ev env 0 y1 end ->
  v2 = match op with Sub => ev env 0 x2 - ev env 0 y2 | _ => ev env 0 x2 + ev env 0 y2 end ->
  (ll = true -> v1 <= z) -> (hh = true -> z <= v2) ->
  (may_wrap T = true -> unwrapped T (mkInterval lo hi) (EBin op (as_int x2) (as_int y2)) (EBin op (as_int x1) (as_int y1))) ->
  within T (mkInterval lo hi) (norm T z).
Proof.
  intros O I S F1 F2 L H E1 E2 Lz Hz U. assert (Ob : is_bool_op op = false) by (destruct O as [-> | ->]; reflexivity).
  apply (made_end op T) in L; auto. apply (made_end op T) in H; auto.
  assert (N1 : evbin op T (ev env 0 x1) (ev env 0 y1) = norm T v1) by (subst v1; destruct O as [-> | ->]; reflexivity).
  assert (N2 : evbin op T (ev env 0 x2) (ev env 0 y2) = norm T v2) by (subst v2; destruct O as [-> | ->]; reflexivity).
  rewrite N1 in L. rewrite N2 in H.
  assert (Ll : lo = neg_inf \/ fine_end T lo) by (destruct ll; [right; apply L|now left]).
  assert (Hh : hi = pos_inf \/ fine_end T hi) by (destruct hh; [right; apply H|now left]).
  destruct (has_ends ty env T (mkInterval lo hi) Ll Hh) as [HL HH]. cbn [imin imax] in HL, HH.
  assert (HL' : has_lower_bound (mkInterval lo hi) = ll).
  { rewrite HL. destruct ll; [|now subst]. destruct (finite_inf lo (proj1 (proj1 L))) as (_ & _ & _ & _ & _ & ->). reflexivity. }
  assert (HH' : has_upper_bound (mkInterval lo hi) = hh).
  { rewrite HH. destruct hh; [|now subst]. destruct (finite_inf hi (proj1 (proj1 H))) as (_ & _ & _ & _ & -> & _). reflexivity. }
  apply (unwrapped_within ty env T lo hi ll hh v1 v2 z); auto. intros N.
  destruct U as (Bt & Same & Tu & Tl); [rewrite may_wrap_narrow by exact I; now rewrite N|].
  rewrite HL', HH' in *. split; [now symmetry|]. cbn [imin imax] in Tu, Tl. split.
  - intros ->. destruct (F1 eq_refl) as [Fx Fy]. destruct L as [Fl El]. rewrite <- El, E1. symmetry.
    apply (test_exact op T); auto.
  - intros ->. destruct (F2 eq_refl) as [Fx Fy]. destruct H as [Fh Eh]. rewrite <- Eh, E2. symmetry.
    apply (test_exact op T); auto.
Qed.

Lemma element_int e : settles e -> int_type (element_of (type_of e)) = true.
Proof. intros [W _ _ _]. apply wf_type_element, wf_wf_type, W. Qed.

Lemma may_wrap_element t : may_wrap (element_of t) = may_wrap t.
Proof. reflexivity. Qed.

Lemma visit_Add_sound a b : sound (EBin Add a b) (visit_Add can_prove same_as visit (EBin Add a b) a b).
Proof.
  unfold visit_Add. eapply safe_bind; [apply safe_visit|]. intros A. eapply safe_bind; [apply safe_visit|]. intros B'.
  apply safe_points_bin. eapply safe_bind; [apply safe_bound_if|]. intros lo. eapply safe_bind; [apply safe_bound_if|]. intros hi.
  apply safe_unless_wrapped; try apply as_int_scalar.
  - apply safe_give. intros U Hhi Hlo Set_ EA EB i L. destruct (settles_bin _ _ _ Set_) as (Sa & Sb & T & _).
    destruct (bin_at _ _ _ i Set_ L) as (La & Lb & ->). specialize (EA i La). specialize (EB i Lb). rewrite T in EB.
    change (type_of (EBin Add a b)) with (type_of a) in *. cbn [evbin].
    eapply (linear_within Add); try reflexivity; try exact Hlo; try exact Hhi; auto.
    + now apply element_int.
    + intros E. eapply both_lower; eauto.
    + intros E. eapply both_upper; eauto.
    + intros E. pose proof (both_lower _ _ _ _ _ EA EB E). lia.
    + intros E. pose proof (both_upper _ _ _ _ _ EA EB E). lia.
  - intros Hhi Hlo Set_ _ _. now apply settles_type.
Qed.

Lemma visit_Sub_sound a b : sound (EBin Sub a b) (visit_Sub can_prove same_as visit (EBin Sub a b) a b).
Proof.
  unfold visit_Sub. eapply safe_bind; [apply safe_visit|]. intros A. eapply safe_bind; [apply safe_visit|]. intros B'.
  apply safe_points_bin. eapply safe_bind; [apply safe_bound_if|]. intros lo. eapply safe_bind; [apply safe_bound_if|]. intros hi.
  apply safe_unless_wrapped; try apply as_int_scalar.
  - match goal with |- BoundsTrust.safe _ _ _ _ _ ?Q => assert (G : Q (mkInterval lo hi)) end.
    { intros U Hhi Hlo Set_ EA EB i L. destruct (settles_bin _ _ _ Set_) as (Sa & Sb & T & _).
      destruct (bin_at _ _ _ i Set_ L) as (La & Lb & ->). specialize (EA i La). specialize (EB i Lb). rewrite T in EB.
      change (type_of (EBin Sub a b)) with (type_of a) in *. cbn [evbin].
      eapply (linear_within Sub); try reflexivity; try exact Hlo; try exact Hhi; auto.
      + now apply element_int.
      + intros E. rewrite andb_comm in E. pose proof (upper_lower _ _ _ _ _ EB EA E). tauto.
      + intros E. eapply upper_lower; eauto.
      + intros E. rewrite andb_comm in E. pose proof (upper_lower _ _ _ _ _ EB EA E). lia.
      + intros E. pose proof (upper_lower _ _ _ _ _ EA EB E). lia. }
    case_goal; [|now apply safe_give].
    eapply safe_bind; [apply safe_proves|]. intros [|]; apply safe_give; [auto|]. intros _ _ _ _ Set_ _ _. now apply settles_type.
  - intros Hhi Hlo Set_ _ _. now apply settles_type.
Qed.

(** ** Minima and maxima *)

Lemma safe_least a b : safe (make_least a b) (fun r => r = make_min a b /\ meant r).
Proof. eapply safe_weaken; [apply safe_make|]. now intros r [-> M]. Qed.

Lemma safe_greatest a b : safe (make_greatest a b) (fun r => r = make_max a b /\ meant r).
Proof. eapply safe_weaken; [apply safe_make|]. now intros r [-> M]. Qed.

(** The operands are points at themselves, or else. *)
Lemma safe_self_points e a b A B' otherwise (Q : Interval -> Prop) :
  safe otherwise Q -> (is_point_of same_as A a = true -> is_point_of same_as B' b = true -> Q (single_point e)) ->
  safe (if is_point_of same_as A a && is_point_of same_as B' b then point e else otherwise) Q.
Proof.
  intros O S. destruct (is_point_of same_as A a && is_point_of same_as B' b) eqn:E1; [|exact O].
  apply andb_true_iff in E1. eapply safe_weaken; [apply safe_point|]. intros iv [-> _]. now apply S.
Qed.

Lemma visit_Min_sound a b : sound (EBin Min a b) (visit_Min same_as visit (EBin Min a b) a b).
Proof.
  unfold visit_Min. eapply safe_bind; [apply safe_visit|]. intros A. eapply safe_bind; [apply safe_visit|]. intros B'.
  apply safe_self_points.
  - eapply safe_bind; [apply safe_least|]. intros lo. eapply safe_bind; [apply safe_least|]. intros hi. apply safe_give.
    intros [-> Mh] [-> Ml] EB EA Set_ i L. destruct (settles_bin _ _ _ Set_) as (Sa & Sb & T & _).
    destruct (bin_at _ _ _ i Set_ L) as (La & Lb & ->). destruct (EA Sa i La) as [LA UA], (EB Sb i Lb) as [LB UB].
    rewrite T in LB, UB. change (type_of (EBin Min a b)) with (type_of a). cbn [evbin]. apply within_bounds.
    + apply min_lower; auto; try (eapply lower_mend; eassumption).
      destruct (Z.min_spec (ev env i a) (ev env i b)) as [[_ ->]|[_ ->]]; auto.
    + apply min_upper; auto; (eapply upper_ge; [eassumption|]); lia.
  - intros P _ EB EA Set_. apply (self_points_bin Min a b A); auto. apply EA, (settles_bin _ _ _ Set_).
Qed.

Lemma visit_Max_sound a b : sound (EBin Max a b) (visit_Max same_as visit (EBin Max a b) a b).
Proof.
  unfold visit_Max. eapply safe_bind; [apply safe_visit|]. intros A. eapply safe_bind; [apply safe_visit|]. intros B'.
  apply safe_self_points.
  - eapply safe_bind; [apply safe_greatest|]. intros lo. eapply safe_bind; [apply safe_greatest|]. intros hi. apply safe_give.
    intros [-> Mh] [-> Ml] EB EA Set_ i L. destruct (settles_bin _ _ _ Set_) as (Sa & Sb & T & _).
    destruct (bin_at _ _ _ i Set_ L) as (La & Lb & ->). destruct (EA Sa i La) as [LA UA], (EB Sb i Lb) as [LB UB].
    rewrite T in LB, UB. change (type_of (EBin Max a b)) with (type_of a). cbn [evbin]. apply within_bounds.
    + apply max_lower; auto; (eapply lower_le; [eassumption|]); lia.
    + apply max_upper; auto; try (eapply upper_mend; eassumption).
      destruct (Z.max_spec (ev env i a) (ev env i b)) as [[_ ->]|[_ ->]]; auto.
  - intros P _ EB EA Set_. apply (self_points_bin Max a b A); auto. apply EA, (settles_bin _ _ _ Set_).
Qed.

(** ** Comparisons *)

Lemma settles_cmp op a b : settles (ECmp op a b) -> settles a /\ settles b /\ type_of b = type_of a.
Proof.
  intros H. split; [apply (settles_child _ _ H); cbn; auto|]. split; [apply (settles_child _ _ H); cbn; auto|].
  destruct H as [W _ _ _]. now destruct (wf_comparison _ _ _ W) as (_ & _ & T).
Qed.

(** Ends that are implied by, and imply, a condition. *)
Lemma bool_within lo hi (v : bool) : fine_end (BoolT 1) lo -> fine_end (BoolT 1) hi ->
  (ev env 0 lo <> 0 -> v = true) -> (v = true -> ev env 0 hi <> 0) -> within (BoolT 1) (mkInterval lo hi) (b2z v).
Proof.
  intros Fl Fh Hl Hh. pose proof (fine_range ty env _ _ Fl eq_refl) as Rl. pose proof (fine_range ty env _ _ Fh eq_refl) as Rh.
  apply in_type_bool in Rl, Rh. apply within_bounds; right; (split; [assumption|]).
  - destruct Rl as [-> | Rl]; [destruct v; cbn; lia|]. rewrite Hl by lia. rewrite Rl. cbn. lia.
  - destruct v; cbn; [specialize (Hh eq_refl); lia|lia].
Qed.

Lemma b2z_least v : b2z false <= b2z v.
Proof. destruct v; cbn; lia. Qed.
Lemma b2z_most v : b2z v <= b2z (negb false).
Proof. destruct v; cbn; lia. Qed.

Lemma nonzero_b2z v : v = true -> b2z v <> 0.
Proof. now intros ->. Qed.

Lemma b2z_nonzero v : b2z v <> 0 -> v = true.
Proof. now destruct v. Qed.

Lemma is_bounded_within T A B' x y : within T A x -> within T B' y -> is_bounded A = true -> is_bounded B' = true ->
  (fine_end T (imin A) /\ fine_end T (imax A) /\ ev env 0 (imin A) <= x <= ev env 0 (imax A)) /\
  (fine_end T (imin B') /\ fine_end T (imax B') /\ ev env 0 (imin B') <= y <= ev env 0 (imax B')).
Proof. intros HA HB EA EB. split; now apply bounded_ends. Qed.

Lemma visit_compare_sound e op a b : op = LT \/ op = LE ->
  (settles e -> settles a /\ settles b /\ type_of b = type_of a /\ type_of e = BoolT (lanes (type_of a)) /\
     (forall i, lane_in (type_of e) i -> lane_in (type_of a) i /\ lane_in (type_of b) i /\
        ev env i e = b2z (evcmp op (ev env i a) (ev env i b)))) ->
  sound e (visit_compare visit op a b).
Proof.
  intros O H. unfold visit_compare.
  assert (T : settles e -> encloses e (bounds_of_type (BoolT 1))).
  { intros Set_. pose proof (settles_type e Set_) as G. destruct (H Set_) as (_ & _ & _ & Te & _). now rewrite Te in G. }
  eapply safe_bind; [apply safe_visit|]. intros A. destruct (negb (is_bounded A)) eqn:BA; [apply safe_give; auto|].
  eapply safe_bind; [apply safe_visit|]. intros B'. destruct (negb (is_bounded B')) eqn:BB; [apply safe_give; auto|].
  apply negb_false_iff in BA, BB.
  eapply safe_bind; [apply safe_make|]. intros lo. eapply safe_bind; [apply safe_make|]. intros hi. apply safe_give.
  intros [-> Mh] [-> Ml] EB EA Set_ i L. destruct (H Set_) as (Sa & Sb & T' & Te & V). destruct (V i L) as (La & Lb & ->).
  specialize (EA Sa i La). specialize (EB Sb i Lb). rewrite T' in EB. rewrite Te.
  destruct (is_bounded_within _ _ _ _ _ EA EB BA BB) as [(F1 & F2 & R1) (F3 & F4 & R2)].
  destruct (fine_cmp ty env _ (element_scalar _) op _ _ F2 F3 Ml) as [G1 E1].
  destruct (fine_cmp ty env _ (element_scalar _) op _ _ F1 F4 Mh) as [G2 E2].
  apply bool_within; auto; rewrite ?E1, ?E2; destruct O as [-> | ->]; cbn [evcmp]; intros E; try apply b2z_nonzero in E;
    try (rewrite Z.ltb_lt in * || rewrite Z.leb_le in *; lia).
Qed.

Section Comparison.
Context (op : CmpOp) (a b : Expr).

Lemma cmp_at i : settles (ECmp op a b) -> lane_in (type_of (ECmp op a b)) i ->
  lane_in (type_of a) i /\ lane_in (type_of b) i /\ ev env i (ECmp op a b) = b2z (evcmp op (ev env i a) (ev env i b)).
Proof. intros [W _ _ _] L. destruct (cmp_lanes op a b i W L) as [La Lb]. now repeat split. Qed.

Lemma safe_points_cmp A B' otherwise :
  safe otherwise (fun iv => settles (ECmp op a b) -> encloses a A -> encloses b B' -> encloses (ECmp op a b) iv) ->
  safe (on_points same_as (ECmp op a b) (ECmp op) a b A B' otherwise)
    (fun iv => (settles b -> encloses b B') -> (settles a -> encloses a A) -> settles (ECmp op a b) -> encloses (ECmp op a b) iv).
Proof.
  intros H. apply safe_on_points.
  - eapply safe_weaken; [exact H|]. intros iv I Eb Ea S. destruct (settles_cmp _ _ _ S) as (Sa & Sb & _). auto.
  - intros P _ Eb Ea S. destruct (settles_cmp _ _ _ S) as (Sa & _). apply point_encloses; [exact S|].
    apply (scalar_lanes (type_of a)); [apply Z.eqb_eq; reflexivity|]. apply (self_scalar a A); auto.
  - intros Pa Pb M Eb Ea S i L. destruct (settles_cmp _ _ _ S) as (Sa & Sb & T). destruct (cmp_at i S L) as (La & Lb & V).
    specialize (Ea Sa i La). specialize (Eb Sb i Lb). rewrite T in Eb.
    destruct (point_ends ty env same_as same_eq _ _ _ Ea Pa) as (_ & Fa & Va).
    destruct (point_ends ty env same_as same_eq _ _ _ Eb Pb) as (_ & Fb & Vb).
    destruct (fine_cmp ty env _ (element_scalar _) op _ _ Fa Fb M) as [F W].
    eapply point_value; [exact F| |exact W]. now rewrite V, Va, Vb.
Qed.
End Comparison.

(** Two comparisons of ends. *)
Lemma fine_pair o op T x y u v : is_bool_op o = true -> is_scalar T = true ->
  fine_end T x -> fine_end T y -> fine_end T u -> fine_end T v -> meant (EBin o (ECmp op x y) (ECmp op u v)) ->
  fine_end (BoolT 1) (EBin o (ECmp op x y) (ECmp op u v)) /\
  ev env 0 (EBin o (ECmp op x y) (ECmp op u v)) =
    evbin o (BoolT 1) (b2z (evcmp op (ev env 0 x) (ev env 0 y))) (b2z (evcmp op (ev env 0 u) (ev env 0 v))).
Proof.
  intros O S Fx Fy Fu Fv M.
  assert (W : forall x y, fine_end T x -> fine_end T y -> wf (ECmp op x y) = true /\ type_of (ECmp op x y) = BoolT 1).
  { clear - S. intros x y (Wx & Tx & _) (Wy & Ty & _). split; [cbn [wf]; now rewrite Wx, Wy, Tx, Ty, type_eqb_refl|].
    cbn [type_of]. rewrite Tx. unfold is_scalar in S. apply Z.eqb_eq in S. now rewrite S. }
  destruct (W x y Fx Fy) as [W1 T1], (W u v Fu Fv) as [W2 T2].
  assert (Wb : wf (EBin o (ECmp op x y) (ECmp op u v)) = true).
  { cbn [wf] in *. rewrite W1, W2, O. cbn [type_of] in T1, T2 |- *. now rewrite T1, T2. }
  pose proof (everywhere_children _ _ _ (meant_everywhere ty env _ Wb M)) as C. cbn [children] in C.
  assert (M1 : meant (ECmp op x y)) by (right; right; now inversion C).
  assert (M2 : meant (ECmp op u v)) by (right; right; inversion C as [|? ? ? C']; now inversion C').
  destruct (fine_cmp ty env T S op x y Fx Fy M1) as [F1 E1], (fine_cmp ty env T S op u v Fu Fv M2) as [F2 E2].
  destruct (fine_logic ty env o _ _ O F1 F2 M) as [F E]. split; [exact F|]. now rewrite E, E1, E2.
Qed.

Lemma type_ends e i : settles e -> lane_in (type_of e) i ->
  BoundsTrust.lower ty env (element_of (type_of e)) (ev env i e) (imin (bounds_of_type (type_of e))) /\
  BoundsTrust.upper ty env (element_of (type_of e)) (ev env i e) (imax (bounds_of_type (type_of e))).
Proof. intros H L. exact (settles_type e H i L). Qed.

Lemma visit_EQ_sound a b : sound (ECmp EQ a b) (visit_EQ same_as visit (ECmp EQ a b) a b).
Proof.
  unfold visit_EQ. eapply safe_bind; [apply safe_visit|]. intros A. eapply safe_bind; [apply safe_visit|]. intros B'.
  apply safe_points_cmp. eapply safe_bind; [apply safe_bound_if|]. intros hi. apply safe_give.
  intros Hh Set_ EA EB i L. destruct (settles_cmp _ _ _ Set_) as (Sa & Sb & T). destruct (type_ends _ i Set_ L) as [TL TU].
  apply within_bounds; [exact TL|]. destruct (is_bounded A && is_bounded B') eqn:Bd; [|now subst].
  destruct Hh as [-> M]. apply andb_true_iff in Bd. destruct Bd as [BA BB]. destruct (cmp_at EQ a b i Set_ L) as (La & Lb & ->).
  specialize (EA i La). specialize (EB i Lb). rewrite T in EB.
  destruct (is_bounded_within _ _ _ _ _ EA EB BA BB) as [(F1 & F2 & R1) (F3 & F4 & R2)].
  destruct (fine_pair And LE _ _ _ _ _ eq_refl (element_scalar _) F1 F4 F3 F2 M) as [F E].
  right. split; [exact F|]. rewrite E. cbn [evbin evcmp].
  destruct (Z.eqb_spec (ev env i a) (ev env i b)) as [Eq|Ne]; [|apply b2z_least].
  destruct (Z.leb_spec (ev env 0 (imin A)) (ev env 0 (imax B'))); [|lia].
  destruct (Z.leb_spec (ev env 0 (imin B')) (ev env 0 (imax A))); [|lia]. vm_compute; discriminate.
Qed.

Lemma visit_NE_sound a b : sound (ECmp NE a b) (visit_NE same_as visit (ECmp NE a b) a b).
Proof.
  unfold visit_NE. eapply safe_bind; [apply safe_visit|]. intros A. eapply safe_bind; [apply safe_visit|]. intros B'.
  apply safe_points_cmp. eapply safe_bind; [apply safe_bound_if|]. intros lo. apply safe_give.
  intros Hl Set_ EA EB i L. destruct (settles_cmp _ _ _ Set_) as (Sa & Sb & T). destruct (type_ends _ i Set_ L) as [TL TU].
  apply within_bounds; [|exact TU]. destruct (is_bounded A && is_bounded B') eqn:Bd; [|now subst].
  destruct Hl as [-> M]. apply andb_true_iff in Bd. destruct Bd as [BA BB]. destruct (cmp_at NE a b i Set_ L) as (La & Lb & ->).
  specialize (EA i La). specialize (EB i Lb). rewrite T in EB.
  destruct (is_bounded_within _ _ _ _ _ EA EB BA BB) as [(F1 & F2 & R1) (F3 & F4 & R2)].
  destruct (fine_pair Or GT _ _ _ _ _ eq_refl (element_scalar _) F1 F4 F3 F2 M) as [F E].
  right. split; [exact F|]. rewrite E. cbn [evbin evcmp].
  destruct (Z.eqb_spec (ev env i a) (ev env i b)) as [Eq|Ne]; [|apply b2z_most].
  destruct (Z.ltb_spec (ev env 0 (imax B')) (ev env 0 (imin A))); [lia|].
  destruct (Z.ltb_spec (ev env 0 (imax A)) (ev env 0 (imin B'))); [lia|]. vm_compute; discriminate.
Qed.

(** ** Logic *)

(** [is_one] and [is_zero] of a boolean. *)
Lemma one_value x : sane_env env -> fine_end (BoolT 1) x -> is_one x = true -> ev env 0 x = 1.
Proof.
  intros Sn F O. pose proof (is_one_nonzero env x 0 Sn (proj1 F) O) as N. pose proof (fine_range ty env _ _ F eq_refl) as R.
  apply in_type_bool in R. destruct R as [R|R]; [contradiction|exact R].
Qed.

Lemma zero_value T x : sane_env env -> fine_end T x -> is_zero x = true -> ev env 0 x = 0.
Proof. intros Sn F O. apply (is_zero_value env (env_zero env Sn)); [apply F|exact O]. Qed.

Lemma bool_end_value x : fine_end (BoolT 1) x -> ev env 0 x = b2z (nz (ev env 0 x)).
Proof. intros F. pose proof (fine_range ty env _ _ F eq_refl) as R. apply in_type_bool in R. destruct R as [-> | ->]; reflexivity. Qed.

Lemma fine_make_and x y : sane_env env -> fine_end (BoolT 1) x -> fine_end (BoolT 1) y -> meant (make_and x y) ->
  fine_end (BoolT 1) (make_and x y) /\ ev env 0 (make_and x y) = b2z (nz (ev env 0 x) && nz (ev env 0 y)).
Proof.
  intros Sn Fx Fy M. unfold make_and in *.
  destruct (is_one x) eqn:E1; [split; [exact Fy|]; rewrite (one_value x Sn Fx E1); now apply bool_end_value|].
  destruct (is_one y) eqn:E2; [split; [exact Fx|]; rewrite (one_value y Sn Fy E2), andb_comm; now apply bool_end_value|].
  destruct (is_zero x) eqn:E3; [split; [exact Fx|]; now rewrite (zero_value _ x Sn Fx E3)|].
  destruct (is_zero y) eqn:E4; [split; [exact Fy|]; now rewrite (zero_value _ y Sn Fy E4), andb_comm|].
  now apply (fine_logic ty env And).
Qed.

Lemma fine_make_or x y : sane_env env -> fine_end (BoolT 1) x -> fine_end (BoolT 1) y -> meant (make_or x y) ->
  fine_end (BoolT 1) (make_or x y) /\ ev env 0 (make_or x y) = b2z (nz (ev env 0 x) || nz (ev env 0 y)).
Proof.
  intros Sn Fx Fy M. unfold make_or in *.
  destruct (is_one x) eqn:E1; [split; [exact Fx|]; now rewrite (one_value x Sn Fx E1)|].
  destruct (is_one y) eqn:E2; [split; [exact Fy|]; now rewrite (one_value y Sn Fy E2), orb_comm|].
  destruct (is_zero x) eqn:E3; [split; [exact Fy|]; rewrite (zero_value _ x Sn Fx E3); now apply bool_end_value|].
  destruct (is_zero y) eqn:E4; [split; [exact Fx|]; rewrite (zero_value _ y Sn Fy E4), orb_comm; now apply bool_end_value|].
  now apply (fine_logic ty env Or).
Qed.

Lemma fine_make_not x : sane_env env -> fine_end (BoolT 1) x -> meant (make_not x) ->
  fine_end (BoolT 1) (make_not x) /\ ev env 0 (make_not x) = b2z (negb (nz (ev env 0 x))).
Proof.
  intros Sn Fx M. unfold make_not in *. assert (Wb : wf_type (BoolT 1)) by now split.
  assert (Tx : type_of x = BoolT 1) by apply Fx. rewrite Tx in *.
  destruct (is_one x) eqn:E1.
  { destruct (fine_zero ty env (BoolT 1) Wb eq_refl) as [F E]. split; [exact F|]. now rewrite E, (one_value x Sn Fx E1). }
  destruct (is_zero x) eqn:E2.
  { destruct (fine_const ty env (BoolT 1) 1 Wb eq_refl) as [F E]; [apply in_type_bool; auto|].
    split; [exact F|]. now rewrite E, (zero_value _ x Sn Fx E2). }
  now apply fine_not.
Qed.

Lemma nz_up x y : nz x = true -> in_type (BoolT 1) x -> x <= y -> nz y = true.
Proof.
  intros N R L. apply in_type_bool in R. unfold nz in *. apply negb_true_iff in N. apply Z.eqb_neq in N.
  apply negb_true_iff, Z.eqb_neq. lia.
Qed.

Ltac nz_up_by H :=
  apply (nz_up _ _ H); [first [assumption|apply (fine_range ty env (BoolT 1)); [assumption|reflexivity]]|lia].

Lemma visit_logic_sound op make_op a b : (op = And /\ make_op = make_and) \/ (op = Or /\ make_op = make_or) ->
  sound (EBin op a b) (visit_logic same_as visit op make_op (EBin op a b) a b).
Proof.
  intros O. unfold visit_logic. eapply safe_bind; [apply safe_visit|]. intros A. eapply safe_bind; [apply safe_visit|]. intros B'.
  apply safe_points_bin. destruct (is_bounded A && is_bounded B') eqn:Bd; [|apply safe_bad].
  apply andb_true_iff in Bd. destruct Bd as [BA BB].
  eapply safe_bind; [apply safe_make|]. intros lo. eapply safe_bind; [apply safe_make|]. intros hi. apply safe_give.
  intros [-> Mh] [-> Ml] Set_ EA EB i L. destruct (settles_bin _ _ _ Set_) as (Sa & Sb & T & Te & Tb).
  destruct (bin_at _ _ _ i Set_ L) as (La & Lb & V). specialize (EA i La). specialize (EB i Lb). rewrite T in EB.
  pose proof (settles_sane _ _ _ _ Set_) as Sn.
  destruct (is_bounded_within _ _ _ _ _ EA EB BA BB) as [(F1 & F2 & R1) (F3 & F4 & R2)].
  assert (Ob : is_bool_op op = true) by (destruct O as [[-> _]|[-> _]]; reflexivity). rewrite Ob in *. rewrite Te.
  rewrite (Tb eq_refl) in *.
  pose proof (settles_range a i Sa La) as Ra. pose proof (settles_range b i Sb Lb) as Rb.
  rewrite <- in_type_element, Tb in Ra by reflexivity. rewrite <- in_type_element, T, Tb in Rb by reflexivity.
  rewrite V. destruct O as [[-> ->]|[-> ->]]; cbn [evbin].
  - destruct (fine_make_and _ _ Sn F1 F3 Ml) as [G1 E1], (fine_make_and _ _ Sn F2 F4 Mh) as [G2 E2].
    apply bool_within; auto; rewrite ?E1, ?E2; intros E; [apply b2z_nonzero in E|apply nonzero_b2z];
      apply andb_true_iff in E; destruct E as [X Y]; apply andb_true_iff; split.
    all: first [nz_up_by X|nz_up_by Y].
  - destruct (fine_make_or _ _ Sn F1 F3 Ml) as [G1 E1], (fine_make_or _ _ Sn F2 F4 Mh) as [G2 E2].
    apply bool_within; auto; rewrite ?E1, ?E2; intros E; [apply b2z_nonzero in E|apply nonzero_b2z];
      apply orb_true_iff in E; destruct E as [X|X]; apply orb_true_iff; [left|right|left|right].
    all: nz_up_by X.
Qed.

Lemma visit_Not_sound a : sound (ENot a) (visit_Not same_as visit (ENot a) a).
Proof.
  unfold visit_Not. eapply safe_bind; [apply safe_visit|]. intros A.
  assert (G : settles (ENot a) -> settles a /\ element_of (type_of a) = BoolT 1 /\ is_scalar (type_of (ENot a)) = is_scalar (type_of a)).
  { intros S. split; [apply (settles_child _ _ S); cbn; auto|]. split; [|reflexivity]. destruct S as [W _ _ _]. cbn [wf] in W. destr_and.
    match goal with H : is_bool _ = true |- _ => apply is_bool_elt in H; destruct H as [C Bt] end.
    unfold element_of, with_lanes. now rewrite C, Bt. }
  assert (V : forall i, settles (ENot a) -> lane_in (type_of (ENot a)) i -> (settles a -> encloses a A) ->
    settles a /\ lane_in (type_of a) i /\ within (BoolT 1) A (ev env i a) /\ in_type (BoolT 1) (ev env i a)).
  { intros i Set_ L EA. destruct (G Set_) as (Sa & T & _).
    assert (La : lane_in (type_of a) i) by (eapply lane_in_lanes; [|exact L]; reflexivity).
    pose proof (settles_range a i Sa La) as Ra. rewrite <- in_type_element, T in Ra. specialize (EA Sa i La). rewrite T in EA. auto. }
  destruct (is_point_of same_as A a) eqn:P.
  - eapply safe_weaken; [apply safe_point|]. intros iv [-> _] EA Set_. destruct (G Set_) as (Sa & _ & S).
    apply point_encloses; [exact Set_|]. rewrite S. apply (self_scalar a A); auto.
  - destruct (is_point same_as A) eqn:Q.
    + eapply safe_weaken; [apply safe_point|]. intros iv [-> M] EA Set_ i L. destruct (V i Set_ L EA) as (Sa & La & W & _).
      destruct (point_ends ty env same_as same_eq _ _ _ W Q) as (_ & Fa & Va).
      destruct (fine_not ty env _ Fa M) as [F E]. eapply point_value; [exact F| |exact E]. cbn [ev]. now rewrite Va.
    + destruct (is_bounded A) eqn:Bd; [|apply safe_bad].
      eapply safe_bind; [apply safe_make|]. intros lo. eapply safe_bind; [apply safe_make|]. intros hi. apply safe_give.
      intros [-> Mh] [-> Ml] EA Set_ i L. destruct (V i Set_ L EA) as (Sa & La & W & Ra).
      destruct (bounded_ends ty env _ _ _ W Bd) as (F1 & F2 & R). pose proof (settles_sane _ _ _ _ Set_) as Sn.
      destruct (fine_make_not _ Sn F2 Ml) as [G1 E1], (fine_make_not _ Sn F1 Mh) as [G2 E2].
      change (element_of (type_of (ENot a))) with (BoolT 1). cbn [ev].
      apply bool_within; auto; rewrite ?E1, ?E2; intros E; [apply b2z_nonzero in E|apply nonzero_b2z];
        apply negb_true_iff in E; apply negb_true_iff, not_true_iff_false; intros X; apply not_true_iff_false in E; apply E.
      all: nz_up_by X.
Qed.
End Visits.
