(* ===== verification/BoundsProducts.v ===== *)
(** * Bounds of products, quotients and remainders *)

From Stdlib Require Import ZArith Lia Bool List String.
From S2P Require Import Prelude.
From S2P Require Import IntArith.
From S2P Require Import Euclid.
From S2P Require Import HalideTypes.
From S2P Require Import Scope.
From S2P Require Import IR.
From S2P Require Import IREquality.
From S2P Require Import IRMatch.
From S2P Require Import Typing.
From S2P Require Import MatchSound.
From S2P Require Import MakeSound.
From S2P Require Import Visit.
From S2P Require Import Mutator.
From S2P Require Import Monotonic.
From S2P Require Import Intrinsics.
From S2P Require Import SimplifyDiv.
From S2P Require Import SimplifyRun.
From S2P Require Import SimplifyNodes.
From S2P Require Import SimplifyNodesSound.
From S2P Require Import Interval.
From S2P Require Import Bounds.
From S2P Require Import BoundsTrust.
From S2P Require Import BoundsEnds.
From S2P Require Import BoundsArith.
Import ListNotations.
Open Scope string_scope.
Open Scope list_scope.
Open Scope Z_scope.

(** ** Corners *)

(** One of four values is not above, and one not below. *)
Definition among (v1 v2 v3 v4 z : Z) : Prop :=
  (v1 <= z \/ v2 <= z \/ v3 <= z \/ v4 <= z) /\ (z <= v1 \/ z <= v2 \/ z <= v3 \/ z <= v4).

Lemma product_corners a b c d x y : a <= x <= b -> c <= y <= d -> among (a * c) (a * d) (b * c) (b * d) (x * y).
Proof.
  intros [A1 A2] [C1 C2]. unfold among.
  assert (L : a * y <= x * y \/ b * y <= x * y) by (destruct (Z.le_ge_cases 0 y); [left|right]; nia).
  assert (U : x * y <= a * y \/ x * y <= b * y) by (destruct (Z.le_ge_cases 0 y); [right|left]; nia).
  assert (K : forall k, (k * c <= k * y \/ k * d <= k * y) /\ (k * y <= k * c \/ k * y <= k * d)).
  { intros k. destruct (Z.le_ge_cases 0 k); split; [left|right|right|left]; nia. }
  destruct (K a) as [Ka1 Ka2], (K b) as [Kb1 Kb2]. split; lia.
Qed.

Lemma quotient_corners a b c d x y : 0 < c \/ d < 0 -> a <= x <= b -> c <= y <= d ->
  among (ediv a c) (ediv b c) (ediv a d) (ediv b d) (ediv x y).
Proof.
  intros S [A1 A2] [C1 C2]. unfold among.
  assert (N : forall k y1 y2, 0 < y1 -> y1 <= y2 ->
    (0 <= k -> ediv k y2 <= ediv k y1) /\ (k <= 0 -> ediv k y1 <= ediv k y2)).
  { intros k y1 y2 P L. rewrite !ediv_pos by lia. split; intros K; [apply Z.div_le_compat_l; lia|].
    apply Z.div_le_lower_bound; [lia|]. pose proof (Z.mul_div_le k y1 P).
    assert (k / y1 <= 0) by (apply Z.div_le_upper_bound; lia). nia. }
  assert (M : forall k y, 0 < y -> ediv k (- y) = - ediv k y).
  { intros k y' P. rewrite ediv_neg, ediv_pos by lia. now rewrite Z.opp_involutive. }
  assert (L : (ediv a y <= ediv x y <= ediv b y) \/ (ediv b y <= ediv x y <= ediv a y)).
  { destruct (Z.lt_ge_cases 0 y); [left; split; apply ediv_mono|right; split; apply ediv_anti]; lia. }
  assert (K : forall k, (ediv k c <= ediv k y \/ ediv k d <= ediv k y) /\ (ediv k y <= ediv k c \/ ediv k y <= ediv k d)).
  { intros k. destruct S as [S|S].
    - destruct (N k c y S C1) as [N1 N2], (N k y d ltac:(lia) C2) as [N3 N4].
      destruct (Z.le_ge_cases 0 k) as [G|G]; [specialize (N1 G); specialize (N3 G)|specialize (N2 G); specialize (N4 G)]; lia.
    - destruct (N k (- d) (- y) ltac:(lia) ltac:(lia)) as [N1 N2], (N k (- y) (- c) ltac:(lia) ltac:(lia)) as [N3 N4].
      pose proof (M k (- d) ltac:(lia)) as Md. pose proof (M k (- y) ltac:(lia)) as My. pose proof (M k (- c) ltac:(lia)) as Mc.
      rewrite Z.opp_involutive in Md, My, Mc.
      destruct (Z.le_ge_cases 0 k) as [G|G]; [specialize (N1 G); specialize (N3 G)|specialize (N2 G); specialize (N4 G)]; lia. }
  destruct (K a) as [Ka1 Ka2], (K b) as [Kb1 Kb2]. split; lia.
Qed.

(** A quotient stays in the type, unless the least value is divided by -1. *)
Lemma quotient_range T x y : int_type T = true -> in_type T x -> in_type T y -> y <> 0 ->
  is_uint T = true \/ y <> -1 -> in_type T (ediv x y).
Proof.
  intros I Rx Ry N D. pose proof (int_type_bits T I) as B. pose proof (ediv_emod x y N) as E. pose proof (emod_bound x y N) as R.
  destruct (int_type_code T I) as [C|C]; unfold in_type, tmin, tmax in *.
  - assert (P : 2 ^ (bits T - 1) >= 1) by (pose proof (Z.pow_pos_nonneg 2 (bits T - 1)); lia).
    rewrite C in *. destruct D as [D|D]; [unfold is_int, is_uint in *; destruct (code T); discriminate|].
    destruct (Z.lt_ge_cases 0 y).
    + rewrite ediv_pos by lia. split; [apply Z.div_le_lower_bound; nia|apply Z.div_le_upper_bound; nia].
    + rewrite ediv_neg by lia. split.
      * enough (x / - y <= 2 ^ (bits T - 1)) by lia. apply Z.div_le_upper_bound; nia.
      * enough (- (2 ^ (bits T - 1) - 1) <= x / - y) by lia. apply Z.div_le_lower_bound; nia.
  - assert (Ci : is_int T = false) by (unfold is_int, is_uint in *; destruct (code T); auto; discriminate). rewrite Ci in *.
    rewrite ediv_pos by lia. split; [apply Z.div_pos; lia|]. apply Z.div_le_upper_bound; nia.
Qed.

Section Visits.
Context (simplify_ : Expr -> Expr) (can_prove : Expr -> bool) (same_as : Expr -> Expr -> bool).
Context (same_eq : forall a b, same_as a b = true -> a = b).
Context (visit : Expr -> B Interval) (Hv : visits_soundly visit).
Context (ty : string -> HType) (env : Env) (sc : Scope Interval) (constants : bool) (Ok : scope_ok sc).

Abbreviation safe := (safe ty env sc constants).
Abbreviation settles := (settles ty env sc).
Abbreviation encloses := (encloses ty env).
Abbreviation within := (within ty env).
Abbreviation fine_end := (fine_end ty env).
Abbreviation meant := (meant ty env).
Abbreviation mend := (mend ty env).
Abbreviation value_of := (end_value env 0).
Abbreviation sound e m := (BoundsTrust.safe ty env sc constants m (fun result => settles e -> encloses e result)).

(** ** The interval around four bounds *)

Lemma safe_include iv e : safe (include iv e) (fun r => forall T, is_scalar T = true -> mend T (imin iv) -> mend T (imax iv) ->
  wf e = true -> type_of e = T -> fine_end T e /\ mend T (imin r) /\ mend T (imax r) /\
  value_of (imin r) = ext_min (value_of (imin iv)) (Fin (ev env 0 e)) /\
  value_of (imax r) = ext_max (value_of (imax iv)) (Fin (ev env 0 e))).
Proof.
  unfold include. eapply safe_bind; [apply safe_rely|]. intros u. eapply safe_bind; [apply safe_greatest|]. intros hi.
  eapply safe_bind; [apply safe_least|]. intros lo. apply safe_give. intros [-> Ml] [-> Mh] M T S Li Hi W Ty. cbn [trusted] in M.
  assert (F : fine_end T e) by (split; [exact W|split; [exact Ty|now apply meant_everywhere]]).
  assert (Me : mend T e) by (right; now right). cbn [imin imax].
  destruct (min_mend ty env T S _ _ Li Me Ml) as [M1 V1], (max_mend ty env T S _ _ Hi Me Mh) as [M2 V2].
  rewrite (end_finite env 0 e W) in V1, V2. auto.
Qed.

Lemma safe_hull e1 e2 e3 e4 : safe (hull e1 e2 e3 e4) (fun r => forall T z, is_scalar T = true ->
  Forall (fun e => wf e = true /\ type_of e = T) [e1; e2; e3; e4] ->
  (Forall (fun e => fine_end T e) [e1; e2; e3; e4] ->
   among (ev env 0 e1) (ev env 0 e2) (ev env 0 e3) (ev env 0 e4) z) -> within T r z).
Proof.
  unfold hull. eapply safe_bind; [apply safe_include|]. intros i1. eapply safe_bind; [apply safe_include|]. intros i2.
  eapply safe_bind; [apply safe_include|]. intros i3. eapply safe_weaken; [apply safe_include|]. intros i4 H4 H3 H2 H1 T z S F A.
  rewrite !Forall_cons_iff in F. destruct F as ([W1 T1] & [W2 T2] & [W3 T3] & [W4 T4] & _).
  destruct (H1 T S (or_introl eq_refl) (or_intror (or_introl eq_refl)) W1 T1) as (G1 & M1 & N1 & L1 & U1).
  destruct (H2 T S M1 N1 W2 T2) as (G2 & M2 & N2 & L2 & U2).
  destruct (H3 T S M2 N2 W3 T3) as (G3 & M3 & N3 & L3 & U3).
  destruct (H4 T S M3 N3 W4 T4) as (G4 & M4 & N4 & L4 & U4).
  destruct A as [Al Au]; [apply Forall_cons; [exact G1|]; apply Forall_cons; [exact G2|]; apply Forall_cons; [exact G3|]; now apply Forall_cons|].
  change (value_of (imin nothing)) with PosInf in L1. change (value_of (imax nothing)) with NegInf in U1.
  rewrite L3, L2, L1 in L4. rewrite U3, U2, U1 in U4. cbn [ext_min ext_max] in L4, U4.
  split; [apply lower_iff; rewrite L4|apply upper_iff; rewrite U4]; (split; [assumption|]); cbn [ext_le]; lia.
Qed.

(** ** Products *)

(** Products of the values and of their bounds do not wrap. *)
Definition exact_products (T : HType) (A B' : Interval) : Prop :=
  no_overflow_int T = true \/
  is_bounded A = true /\ is_bounded B' = true /\
  forall u v, u = imin A \/ u = imax A -> v = imin B' \/ v = imax B' -> norm T (ev env 0 u * ev env 0 v) = ev env 0 u * ev env 0 v.

Lemma exact_at T A B' x y : int_type T = true -> exact_products T A B' -> within T A x -> within T B' y ->
  norm T (x * y) = x * y.
Proof.
  intros I [N|(BA & BB & P)] HA HB; [now apply norm_no_overflow|].
  destruct (no_overflow_int T) eqn:N; [now apply norm_no_overflow|].
  destruct (bounded_ends ty env T A x HA BA) as (F1 & F2 & R1), (bounded_ends ty env T B' y HB BB) as (F3 & F4 & R2).
  destruct (product_corners _ _ _ _ _ _ R1 R2) as [L U]. apply norm_id; [exact I|].
  assert (Q : forall u v, u = imin A \/ u = imax A -> v = imin B' \/ v = imax B' -> in_type T (ev env 0 u * ev env 0 v)).
  { intros u v Hu Hw. rewrite <- (P u v Hu Hw). now apply norm_range. }
  pose proof (Q (imin A) (imin B') ltac:(auto) ltac:(auto)). pose proof (Q (imin A) (imax B') ltac:(auto) ltac:(auto)).
  pose proof (Q (imax A) (imin B') ltac:(auto) ltac:(auto)). pose proof (Q (imax A) (imax B') ltac:(auto) ltac:(auto)).
  unfold in_type in *. lia.
Qed.

(** The product of an end and the single value of the other interval. *)
Lemma end_product T A B' (has : bool) e r o : is_scalar T = true -> exact_products T A B' -> fine_end T (imin B') ->
  (has = true -> (e = imin A \/ e = imax A) /\ fine_end T e) ->
  (if has then r = EBin Mul e (imin B') /\ meant (EBin Mul e (imin B')) else r = o) ->
  if has then fine_end T r /\ ev env 0 r = ev env 0 e * ev env 0 (imin B') else r = o.
Proof.
  intros S X Fk Fe H. destruct has; [|exact H]. destruct H as [-> M]. destruct (Fe eq_refl) as [I F].
  destruct (fine_bin ty env T Mul e (imin B') eq_refl F Fk M) as [G E]. split; [exact G|]. rewrite E. cbn [evbin].
  destruct X as [N|(_ & _ & P)]; [now apply norm_no_overflow|]. apply P; auto.
Qed.

(** Ends put the right way round. *)
Lemma upwards T A e1 e2 z v1 v2 : (if has_lower_bound A then fine_end T e1 /\ ev env 0 e1 = v1 else e1 = neg_inf) ->
  (if has_upper_bound A then fine_end T e2 /\ ev env 0 e2 = v2 else e2 = pos_inf) ->
  (has_lower_bound A = true -> v1 <= z) -> (has_upper_bound A = true -> z <= v2) -> within T (mkInterval e1 e2) z.
Proof.
  intros H1 H2 L U. apply within_bounds.
  - destruct (has_lower_bound A); [right|now left]. destruct H1 as [F ->]. auto.
  - destruct (has_upper_bound A); [right|now left]. destruct H2 as [F ->]. auto.
Qed.

Lemma downwards T A e1 e2 z v1 v2 : (if has_lower_bound A then fine_end T e1 /\ ev env 0 e1 = v1 else e1 = neg_inf) ->
  (if has_upper_bound A then fine_end T e2 /\ ev env 0 e2 = v2 else e2 = pos_inf) ->
  (has_lower_bound A = true -> z <= v1) -> (has_upper_bound A = true -> v2 <= z) -> within T (turned e1 e2) z.
Proof.
  intros H1 H2 L U. unfold turned. apply within_bounds.
  - destruct (has_upper_bound A); [|subst e2; now left]. destruct H2 as [F E].
    destruct (finite_inf e2 (proj1 F)) as (_ & _ & _ & _ & -> & _). right. rewrite E. auto.
  - destruct (has_lower_bound A); [|subst e1; now left]. destruct H1 as [F E].
    destruct (finite_inf e1 (proj1 F)) as (_ & _ & _ & _ & _ & ->). right. rewrite E. auto.
Qed.

Lemma safe_by_sign cmp e1 e2 : safe (by_sign cmp e1 e2) (fun r => forall T z, is_scalar T = true ->
  wf cmp = true -> type_of cmp = BoolT 1 -> fine_end T e1 -> fine_end T e2 ->
  (if nz (ev env 0 cmp) then ev env 0 e1 <= z <= ev env 0 e2 else ev env 0 e2 <= z <= ev env 0 e1) -> within T r z).
Proof.
  unfold by_sign. eapply safe_bind; [apply safe_make|]. intros lo. eapply safe_bind; [apply safe_make|]. intros hi.
  apply safe_give. intros [-> Mh] [-> Ml] T z S W Ty F1 F2 V.
  assert (E : everywhere ty env cmp).
  { destruct F1 as (W1 & T1 & _), F2 as (W2 & T2 & _).
    assert (Ws : wf (Select cmp e1 e2) = true) by (cbn [wf]; now rewrite W, W1, W2, T1, T2, Ty, type_eqb_refl).
    pose proof (everywhere_children _ _ _ (meant_everywhere ty env _ Ws Ml)) as C. now inversion C. }
  assert (Fc : fine_end (BoolT 1) cmp) by now split.
  destruct (fine_select ty env T cmp e1 e2 Fc F1 F2 Ml) as [G1 E1], (fine_select ty env T cmp e2 e1 Fc F2 F1 Mh) as [G2 E2].
  apply within_bounds; right; (split; [assumption|]); rewrite ?E1, ?E2; destruct (nz (ev env 0 cmp)); lia.
Qed.

(** A single value compared with zero. *)
Lemma sign_test op k T : is_scalar T = true -> wf_type T -> fine_end T k ->
  wf (ECmp op k (make_zero (element_of (type_of k)))) = true /\ type_of (ECmp op k (make_zero (element_of (type_of k)))) = BoolT 1 /\
  nz (ev env 0 (ECmp op k (make_zero (element_of (type_of k))))) = evcmp op (ev env 0 k) 0.
Proof.
  intros S W (Wk & Tk & Ek). rewrite Tk, scalar_is_element by exact S. destruct (fine_zero ty env T W S) as [(Wz & Tz & _) Ez].
  split; [cbn [wf]; now rewrite Wk, Wz, Tk, Tz, type_eqb_refl|]. split.
  - cbn [type_of]. rewrite Tk. unfold is_scalar in S. apply Z.eqb_eq in S. now rewrite S.
  - cbn [ev]. rewrite Ez. now destruct (evcmp _ _ _).
Qed.

Lemma safe_scaled t A B' : safe (scaled t A B') (fun r => forall T x y, T = element_of t -> wf_type T -> sane_env env ->
  exact_products T A B' -> within T A x -> within T B' y -> imax B' = imin B' -> fine_end T (imin B') -> ev env 0 (imin B') = y ->
  within T r (norm T (x * y))).
Proof.
  unfold scaled. eapply safe_bind; [apply safe_bound_if|]. intros e1. eapply safe_bind; [apply safe_bound_if|]. intros e2.
  set (k := imin B').
  (* What is known of the ends. *)
  match goal with |- BoundsTrust.safe _ _ _ _ _ ?Q =>
    assert (K : forall r, (forall T x y, wf_type T -> T = element_of t -> sane_env env -> exact_products T A B' -> within T A x -> within T B' y ->
      imax B' = k -> fine_end T k -> ev env 0 k = y -> norm T (x * y) = x * y ->
      (if has_lower_bound A then fine_end T e1 /\ ev env 0 e1 = ev env 0 (imin A) * y else e1 = neg_inf) ->
      (if has_upper_bound A then fine_end T e2 /\ ev env 0 e2 = ev env 0 (imax A) * y else e2 = pos_inf) ->
      within T r (x * y)) -> Q r) end.
  { intros r H H2 H1 T x y E W Sn X HA HB P F V. rewrite (exact_at T A B' x y) by (apply W || assumption).
    assert (S : is_scalar T = true) by now subst. apply H; auto.
    - now apply exact_at with A B'; [apply W| | |].
    - pose proof (lower_end ty env T A x HA) as VL. rewrite <- V.
      assert (H1' : if has_lower_bound A then e1 = EBin Mul (imin A) k /\ meant (EBin Mul (imin A) k) else e1 = neg_inf)
        by (inversion VL as [Fa La Eb|Ea Eb]; rewrite <- Eb in H1; [exact H1|now rewrite Ea in H1]).
      apply (end_product T A B' _ _ _ _ S X F) in H1'; [exact H1'|]. intros Eb. inversion VL; [auto|congruence].
    - pose proof (upper_end ty env T A x HA) as VU. rewrite <- V.
      assert (H2' : if has_upper_bound A then e2 = EBin Mul (imax A) k /\ meant (EBin Mul (imax A) k) else e2 = pos_inf)
        by (inversion VU as [Fa La Eb|Ea Eb]; rewrite <- Eb in H2; [exact H2|now rewrite Ea in H2]).
      apply (end_product T A B' _ _ _ _ S X F) in H2'; [exact H2'|]. intros Eb. inversion VU; [auto|congruence]. }
  destruct (is_zero k) eqn:Z0.
  { apply safe_give, K. intros T x y W E Sn X HA HB P F V N L U.
    rewrite <- V, (zero_value ty env T k Sn F Z0) in *. now rewrite Z.mul_0_r. }
  eapply safe_bind; [apply safe_positive|]. intros pos. destruct ((pos : bool) || is_uint t) eqn:Pu.
  { apply safe_give. intros Hp. apply K. intros T x y W E Sn X HA HB P F V N L U.
    assert (Y : 0 <= y).
    { apply orb_true_iff in Pu. destruct Pu as [Pu|Pu].
      - specialize (Hp Pu 0). rewrite V in Hp. enough (0 < y) by lia. apply Hp. left. destruct F as (_ & -> & _). now subst.
      - pose proof (fine_range ty env T k F) as R. rewrite V in R. specialize (R ltac:(now subst)).
        unfold in_type, tmin in R. subst T. change (is_int (element_of t)) with (is_int t) in R.
        unfold is_int, is_uint in *. destruct (code t); try discriminate; cbn in R; lia. }
    pose proof (lower_end ty env T A x HA) as VL. pose proof (upper_end ty env T A x HA) as VU.
    eapply upwards; [exact L|exact U| |]; intros Eb; [inversion VL as [Fa La Ec|Ea Ec]|inversion VU as [Fa La Ec|Ea Ec]]; try congruence; nia. }
  eapply safe_bind; [apply safe_negative|]. intros [|].
  { apply safe_give. intros Hn _. apply K. intros T x y W E Sn X HA HB P F V N L U.
    assert (Y : y < 0) by (specialize (Hn eq_refl 0); rewrite V in Hn; apply Hn; left; destruct F as (_ & -> & _); now subst).
    pose proof (lower_end ty env T A x HA) as VL. pose proof (upper_end ty env T A x HA) as VU.
    eapply downwards; [exact L|exact U| |]; intros Eb; [inversion VL as [Fa La Ec|Ea Ec]|inversion VU as [Fa La Ec|Ea Ec]]; try congruence; nia. }
  destruct (is_bounded A) eqn:Bd; [|apply safe_give; intros _ _; apply K; intros; apply within_everything].
  eapply safe_weaken; [apply safe_by_sign|]. intros r Hr _ _. apply K. intros T x y W E Sn X HA HB P F V N L U.
  assert (S : is_scalar T = true) by now subst.
  destruct (bounded_ends ty env T A x HA Bd) as (Fa & Fb & R). unfold is_bounded in Bd. apply andb_true_iff in Bd.
  destruct Bd as [Bu Bl]. rewrite Bl in L. rewrite Bu in U. destruct L as [F1 V1], U as [F2 V2].
  destruct (sign_test GE k T S W F) as (Wc & Tc & Vc). apply Hr; auto. rewrite Vc, V1, V2, V. cbn [evcmp].
  destruct (Z.leb_spec 0 y); nia.
Qed.

(** A cast to a wider type keeps values. *)
Lemma cast_wider t x : is_scalar t = true -> wf_type t -> wf x = true -> is_scalar (type_of x) = true -> bits (type_of x) < bits t ->
  type_of (cast t x) = t /\ ev env 0 (cast t x) = cast_val t (ev env 0 x).
Proof.
  intros St Wt W S B. destruct (cast_ok t x W Wt (or_intror S)) as (_ & Te & Ee & _). split; [exact Te|].
  rewrite Ee. unfold cast_to. rewrite !scalar_is_element by assumption. destruct (type_eqb (type_of x) t) eqn:E; [|reflexivity].
  apply type_eqb_eq in E. rewrite E in B. lia.
Qed.

Definition wide_type (t : HType) : HType := if is_uint t then UInt 32 1 else Int 32 1.

Lemma wide_product T u v : int_type T = true -> bits T < 32 -> in_type T u -> in_type T v ->
  cast_val (wide_type T) u = u /\ cast_val (wide_type T) v = v /\ norm (wide_type T) (u * v) = u * v /\
  cast_val (wide_type T) (norm T (u * v)) = norm T (u * v).
Proof.
  intros I B Ru Rv.
  assert (N : no_overflow_int T = false) by (unfold no_overflow_int; destruct (Z.leb_spec 32 (bits T)); [lia|apply andb_false_r]).
  pose proof (norm_range T (u * v) I N) as Rn. set (n := norm T (u * v)) in *. clearbody n. clear N.
  assert (Iw : int_type (wide_type T) = true) by (unfold wide_type; now destruct (is_uint T)).
  assert (B16 : bits T <= 16).
  { unfold int_type in I. destruct (code T); try discriminate; repeat (apply orb_true_iff in I; destruct I as [I|I]); apply Z.eqb_eq in I; lia. }
  pose proof (int_type_bits T I) as B1.
  assert (P : 2 ^ bits T <= 2 ^ 16) by (apply Z.pow_le_mono_r; lia). change (2 ^ 16) with 65536 in P.
  assert (K : forall w, in_type T w -> in_type (wide_type T) w /\ (is_uint T = true -> 0 <= w < 65536)).
  { intros w. unfold wide_type. destruct (int_type_code T I) as [C|C].
    - assert (C' : is_uint T = false) by (unfold is_int, is_uint in *; destruct (code T); auto; discriminate). rewrite C'.
      intros R. split; [|discriminate]. now apply (narrow_in_int32 T).
    - rewrite C. assert (C' : is_int T = false) by (unfold is_int, is_uint in *; destruct (code T); auto; discriminate).
      unfold in_type, tmin, tmax. rewrite C'. change (is_int (UInt 32 1)) with false. change (bits (UInt 32 1)) with 32.
      cbv iota. intros R. lia. }
  destruct (K u Ru) as [Wu Xu], (K v Rv) as [Wv Xv], (K n Rn) as [Wn _].
  split; [now apply cast_val_id|]. split; [now apply cast_val_id|]. split; [|now apply cast_val_id].
  unfold wide_type in *. destruct (is_uint T); [|now apply norm_no_overflow].
  apply norm_id; [exact Iw|]. specialize (Xu eq_refl). specialize (Xv eq_refl). unfold in_type, tmin, tmax.
  change (is_int (UInt 32 1)) with false. change (bits (UInt 32 1)) with 32. cbv iota. change (2 ^ 32) with 4294967296. nia.
Qed.

Lemma product_test T x y : int_type T = true -> is_scalar T = true -> bits T < 32 -> fine_end T x -> fine_end T y ->
  let test := ECmp EQ (EBin Mul (cast (wide_type T) x) (cast (wide_type T) y)) (cast (wide_type T) (EBin Mul x y)) in
  ev env 0 test <> 0 -> norm T (ev env 0 x * ev env 0 y) = ev env 0 x * ev env 0 y.
Proof.
  intros I S B Fx Fy test H.
  assert (Sw : is_scalar (wide_type T) = true /\ wf_type (wide_type T) /\ bits (wide_type T) = 32)
    by (unfold wide_type; destruct (is_uint T); now repeat split).
  destruct Sw as (Sw & Ww & Bw). pose proof (fine_range ty env T x Fx S) as Rx. pose proof (fine_range ty env T y Fy S) as Ry.
  destruct Fx as (Wx & Tx & _), Fy as (Wy & Ty & _).
  destruct (cast_wider _ x Sw Ww Wx) as [T1 V1]; [now rewrite Tx|now rewrite Tx, Bw|].
  destruct (cast_wider _ y Sw Ww Wy) as [T2 V2]; [now rewrite Ty|now rewrite Ty, Bw|].
  destruct (cast_wider (wide_type T) (EBin Mul x y) Sw Ww) as [T3 V3].
  { cbn [wf]. now rewrite Wx, Wy, Tx, Ty, type_eqb_refl. }
  { cbn [type_of]. now rewrite Tx. } { cbn [type_of]. now rewrite Tx, Bw. }
  unfold test in H. cbn [ev evcmp] in H. apply b2z_nonzero, Z.eqb_eq in H. rewrite V3 in H. cbn [ev evbin] in H.
  rewrite T1, V1, V2, Tx in H. destruct (wide_product T _ _ I B Rx Ry) as (U1 & U2 & N & C).
  rewrite U1, U2, N, C in H. now symmetry.
Qed.

(** The interval of a product, before it is asked whether it may wrap. *)
Lemma safe_products t A B' : safe
  (if is_point same_as B' then scaled t A B'
   else if is_bounded A && is_bounded B' then
     hull (EBin Mul (imin A) (imin B')) (EBin Mul (imin A) (imax B')) (EBin Mul (imax A) (imin B')) (EBin Mul (imax A) (imax B'))
   else give everything)
  (fun r => forall T x y, T = element_of t -> wf_type T -> sane_env env -> exact_products T A B' -> within T A x -> within T B' y ->
     within T r (norm T (x * y))).
Proof.
  destruct (is_point same_as B') eqn:P.
  - eapply safe_weaken; [apply safe_scaled|]. intros r H T x y E W Sn X HA HB.
    destruct (point_ends ty env same_as same_eq T B' y HB P) as (Q & F & V). now apply H.
  - destruct (is_bounded A && is_bounded B') eqn:Bd; [|apply safe_give; intros; apply within_everything].
    apply andb_true_iff in Bd. destruct Bd as [BA BB]. eapply safe_weaken; [apply safe_hull|].
    intros r H T x y E W Sn X HA HB. rewrite (exact_at T A B' x y) by (apply W || assumption).
    assert (S : is_scalar T = true) by now subst.
    destruct (is_bounded_within _ _ _ _ _ _ _ HA HB BA BB) as [(F1 & F2 & R1) (F3 & F4 & R2)].
    assert (N : forall u v, u = imin A \/ u = imax A -> v = imin B' \/ v = imax B' -> norm T (ev env 0 u * ev env 0 v) = ev env 0 u * ev env 0 v).
    { intros u v Hu Hw. destruct X as [X|(_ & _ & X)]; [now apply norm_no_overflow|now apply X]. }
    apply H; [exact S| |].
    + destruct F1 as (W1 & T1 & _), F2 as (W2 & T2 & _), F3 as (W3 & T3 & _), F4 as (W4 & T4 & _).
      repeat (apply Forall_cons; [split; [cbn [wf]; rewrite ?W1, ?W2, ?W3, ?W4, ?T1, ?T2, ?T3, ?T4, type_eqb_refl; reflexivity|cbn [type_of]; assumption]|]).
      apply Forall_nil.
    + intros _. cbn [ev evbin]. rewrite !(proj1 (proj2 F1)), !(proj1 (proj2 F2)), !N by auto. now apply product_corners.
Qed.

Lemma tests_scalar t A B' : is_scalar (type_of (product_tests t A B')) = true.
Proof.
  assert (C : forall t x, wf_type t -> is_scalar t = true -> type_of (cast t x) = t).
  { clear. intros t x W S. assert (Vf : is_vector t = false) by (unfold is_vector, is_scalar in *; now rewrite S). unfold cast.
    destruct (type_eqb _ _) eqn:Q; [now apply type_eqb_eq in Q|].
    destruct (as_const_int x); [apply (make_const_spec t); exact W|]. destruct (as_const_uint x); [apply (make_const_spec t); exact W|].
    now rewrite Vf. }
  unfold product_tests. cbn [type_of]. rewrite C; destruct (is_uint t); now try split.
Qed.

(** The tests on a product show that it does not wrap. *)
Lemma tests_exact T A B' x y : wf_type T -> is_scalar T = true -> within T A x -> within T B' y -> is_bounded A = true -> is_bounded B' = true ->
  bits T < 32 -> ev env 0 (product_tests T A B') <> 0 -> exact_products T A B'.
Proof.
  intros W S HA HB BA BB B H. right. split; [exact BA|]. split; [exact BB|].
  destruct (is_bounded_within _ _ _ _ _ _ _ HA HB BA BB) as [(F1 & F2 & _) (F3 & F4 & _)].
  assert (And_ : forall p q, ev env 0 (EBin And p q) <> 0 -> ev env 0 p <> 0 /\ ev env 0 q <> 0).
  { intros p q E. cbn [ev evbin] in E. apply b2z_nonzero, andb_true_iff in E. unfold nz in E. destruct E as [E1 E2].
    apply negb_true_iff in E1, E2. now apply Z.eqb_neq in E1, E2. }
  unfold product_tests in H. apply And_ in H. destruct H as [H H4]. apply And_ in H. destruct H as [H H3]. apply And_ in H.
  destruct H as [H1 H2]. change (if is_uint T then UInt 32 1 else Int 32 1) with (wide_type T) in *.
  intros u v [-> | ->] [-> | ->]; eapply product_test; eauto; apply W.
Qed.

Lemma visit_Mul_sound a b : sound (EBin Mul a b) (visit_Mul can_prove same_as visit (EBin Mul a b) a b).
Proof.
  unfold visit_Mul. eapply safe_bind; [now apply safe_visit|]. intros A0. eapply safe_bind; [now apply safe_visit|]. intros B0.
  set (e := EBin Mul a b). set (T := element_of (type_of a)).
  destruct (if is_point same_as A0 && negb (is_point same_as B0) then (B0, A0) else (A0, B0)) as [A B'] eqn:Sw.
  (* The intervals, in either order. *)
  assert (K : settles e -> (settles b -> encloses b B0) -> (settles a -> encloses a A0) -> forall i, lane_in (type_of e) i ->
    exists x y, within T A x /\ within T B' y /\ ev env i e = norm T (x * y) /\ element_of (type_of e) = T).
  { intros Set_ EB EA i L. destruct (settles_bin _ _ _ _ _ _ Set_) as (Sa & Sb & Tb & Te & _).
    destruct (bin_at _ _ _ _ _ _ i Set_ L) as (La & Lb & V). specialize (EA Sa i La). specialize (EB Sb i Lb). rewrite Tb in EB.
    fold T in EA, EB. destruct (is_point same_as A0 && negb (is_point same_as B0)); inversion Sw; subst A B'.
    - exists (ev env i b), (ev env i a). rewrite Z.mul_comm. auto.
    - exists (ev env i a), (ev env i b). auto. }
  apply safe_on_points.
  - eapply safe_bind; [apply safe_products|]. intros iv.
    destruct (may_wrap (type_of e)) eqn:Mw.
    + destruct (is_bounded A && is_bounded B') eqn:Bd; [|apply safe_give; intros _ _ _ Set_; now apply (settles_type ty env sc)].
      apply andb_true_iff in Bd. destruct Bd as [BA BB].
      eapply safe_bind; [apply safe_rely|]. intros u. eapply safe_bind; [apply safe_proves|]. intros [|]; apply safe_give;
        [|intros _ _ _ _ _ Set_; now apply (settles_type ty env sc)].
      intros Hp [Hb _] Hiv EB EA Set_ i L. destruct (K Set_ EB EA i L) as (x & y & HA & HB & V & Te).
      pose proof (wf_type_element _ (wf_wf_type _ (settles_wf _ _ _ _ Set_))) as W. rewrite Te, V. rewrite Te in W.
      apply Hiv; auto; [now apply settles_sane in Set_|]. apply (tests_exact T A B' x y); auto.
      apply (Hp eq_refl). left. apply tests_scalar.
    + apply safe_give. intros Hiv EB EA Set_ i L. destruct (K Set_ EB EA i L) as (x & y & HA & HB & V & Te).
      pose proof (wf_type_element _ (wf_wf_type _ (settles_wf _ _ _ _ Set_))) as W. rewrite Te, V. rewrite Te in W.
      apply Hiv; auto; [now apply settles_sane in Set_|]. left.
      rewrite may_wrap_narrow in Mw by apply wf_wf_type, Set_. now apply negb_false_iff in Mw.
  - intros P _ EB EA Set_. destruct (lane_zero _ _ _ _ Set_) as [i L]. destruct (K Set_ EB EA i L) as (x & y & HA & HB & V & Te).
    apply (point_encloses ty env sc); [exact Set_|]. apply (bin_scalar _ _ sc Mul a b Set_).
    destruct (point_of ty env same_as same_eq _ _ _ _ HA P) as (_ & _ & (_ & E & _)). now apply own_element.
  - intros Pa Pb M EB EA Set_ i L. destruct (K Set_ EB EA i L) as (x & y & HA & HB & V & Te).
    destruct (point_ends ty env same_as same_eq _ _ _ HA Pa) as (_ & Fa & Va).
    destruct (point_ends ty env same_as same_eq _ _ _ HB Pb) as (_ & Fb & Vb).
    destruct (fine_bin ty env _ Mul _ _ eq_refl Fa Fb M) as [F W]. rewrite Te. eapply point_value; [exact F| |exact W].
    rewrite V, Va, Vb. reflexivity.
Qed.

(** ** Quotients *)

Lemma safe_simplified e : safe (simplified simplify_ e) (fun r => wf e = true -> everywhere ty env e ->
  wf r = true /\ type_of r = type_of e /\ good ty env e r).
Proof.
  eapply safe_bind; [apply safe_rely|]. intros u. apply safe_give. cbn [trusted]. intros H W.
  destruct (finite_inf e W) as (_ & _ & _ & _ & P & N). rewrite P, N in H. now apply H.
Qed.

(** A condition the simplifier turns into [true]. *)
Lemma simplified_true op e r : wf_type (type_of e) -> is_scalar (type_of e) = true -> fine_end (type_of e) e ->
  (wf (ECmp op e (make_zero (type_of e))) = true -> everywhere ty env (ECmp op e (make_zero (type_of e))) ->
   wf r = true /\ type_of r = type_of (ECmp op e (make_zero (type_of e))) /\ good ty env (ECmp op e (make_zero (type_of e))) r) ->
  ir_equal (const_true 1) r = true -> evcmp op (ev env 0 e) 0 = true.
Proof.
  intros W S F H Q. apply ir_equal_eq in Q; [|reflexivity]. subst r.
  destruct (fine_zero ty env _ W S) as [(Wz & Tz & Ez) Vz]. destruct F as (We & Te & Ee).
  assert (Wc : wf (ECmp op e (make_zero (type_of e))) = true) by (cbn [wf]; now rewrite We, Wz, Tz, type_eqb_refl).
  destruct (H Wc (everywhere_cmp ty env op _ _ Wc Ee Ez)) as (_ & _ & [_ G]).
  assert (L : lane_in (type_of (ECmp op e (make_zero (type_of e)))) 0) by (left; exact S).
  specialize (G 0 L). cbn [ev] in G. rewrite Vz in G. cbn in G. now destruct (evcmp op (ev env 0 e) 0).
Qed.

Lemma safe_static_sign e : safe (static_sign simplify_ e) (fun s => forall T, is_scalar T = true -> wf_type T -> fine_end T e ->
  (s = 1 -> 0 < ev env 0 e) /\ (s = -1 -> ev env 0 e < 0) /\ (s = 0 \/ s = 1 \/ s = -1)).
Proof.
  unfold static_sign. eapply safe_bind; [apply safe_positive|]. intros [|].
  { apply safe_give. intros H T S W (_ & Ty & _). split; [intros _; apply (H eq_refl); left; now rewrite Ty|]. split; [discriminate|auto]. }
  eapply safe_bind; [apply safe_negative|]. intros [|].
  { apply safe_give. intros H _ T S W (_ & Ty & _). split; [discriminate|]. split; [intros _; apply (H eq_refl); left; now rewrite Ty|auto]. }
  eapply safe_bind; [apply safe_simplified|]. intros r1. destruct (ir_equal (const_true 1) r1) eqn:Q1.
  { apply safe_give. intros H _ _ T S W F. pose proof F as (_ & Ty & _). subst T.
    split; [intros _; apply Z.ltb_lt, (simplified_true GT e r1); auto|]. split; [discriminate|auto]. }
  eapply safe_bind; [apply safe_simplified|]. intros r2. destruct (ir_equal (const_true 1) r2) eqn:Q2.
  { apply safe_give. intros H _ _ _ T S W F. pose proof F as (_ & Ty & _). subst T.
    split; [discriminate|]. split; [intros _; apply Z.ltb_lt, (simplified_true LT e r2); auto|auto]. }
  apply safe_give. intros _ _ _ _ T S W F. split; [discriminate|]. split; [discriminate|auto].
Qed.

Lemma quotient_exact T x y : int_type T = true -> in_type T x -> in_type T y -> y <> 0 ->
  no_overflow_int T = true \/ is_uint T = true \/ y <> -1 -> norm T (ediv x y) = ediv x y.
Proof. intros I Rx Ry N [D|D]; [now apply norm_no_overflow|]. apply norm_id; [exact I|]. now apply quotient_range. Qed.

Lemma divisor_nonzero a b i : settles (EBin Div a b) \/ settles (EBin Mod a b) -> lane_in (type_of a) i -> ev env i b <> 0.
Proof.
  intros [H|H] L; destruct H as [W E _ _].
  - apply (everywhere_defined ty env (EBin Div a b) i E L).
  - apply (everywhere_defined ty env (EBin Mod a b) i E L).
Qed.

(** The quotient of ends. *)
Lemma fine_quotient T u v : wf_type T -> is_scalar T = true -> fine_end T u -> fine_end T v -> meant (EBin Div u v) ->
  ev env 0 v <> 0 -> no_overflow_int T = true \/ is_uint T = true \/ ev env 0 v <> -1 ->
  fine_end T (EBin Div u v) /\ ev env 0 (EBin Div u v) = ediv (ev env 0 u) (ev env 0 v).
Proof.
  intros W S Fu Fv M N D. destruct (fine_bin ty env T Div u v eq_refl Fu Fv M) as [F E]. split; [exact F|]. rewrite E. cbn [evbin].
  apply quotient_exact; auto; try (now apply (fine_range ty env)). apply W.
Qed.

Lemma uint_nonneg t T y : T = element_of t -> is_uint t = true -> in_type T y -> 0 <= y.
Proof.
  intros -> U R. unfold in_type, tmin in R. change (is_int (element_of t)) with (is_int t) in R.
  unfold is_int, is_uint in *. destruct (code t); try discriminate; cbn in R; lia.
Qed.

Lemma safe_divided t A B' : safe (divided t A B') (fun r => forall T x y, T = element_of t -> wf_type T ->
  within T A x -> within T B' y -> in_type T x -> in_type T y -> is_bounded B' = true ->
  ev env 0 (imin B') = ev env 0 (imax B') -> y <> 0 -> within T r (norm T (ediv x y))).
Proof.
  unfold divided. eapply safe_bind; [apply safe_rely|]. intros u. eapply safe_bind; [apply safe_bound_if|]. intros e1.
  eapply safe_bind; [apply safe_bound_if|]. intros e2. set (k := imin B').
  match goal with |- BoundsTrust.safe _ _ _ _ _ ?Q =>
    assert (K : forall r, (forall T x y, T = element_of t -> wf_type T -> within T A x -> in_type T y -> fine_end T k -> ev env 0 k = y -> y <> 0 ->
      (if has_lower_bound A then fine_end T e1 /\ ev env 0 e1 = ediv (ev env 0 (imin A)) y else e1 = neg_inf) ->
      (if has_upper_bound A then fine_end T e2 /\ ev env 0 e2 = ediv (ev env 0 (imax A)) y else e2 = pos_inf) ->
      within T r (ediv x y)) -> Q r) end.
  { intros r H H2 H1 D T x y E W HA HB Rx Ry BB Same N. assert (S : is_scalar T = true) by now subst.
    destruct (bounded_ends ty env T B' y HB BB) as (F1 & F2 & R). fold k in F1, Same, R. assert (V : ev env 0 k = y) by lia.
    assert (Dk : no_overflow_int T = true \/ is_uint T = true \/ ev env 0 k <> -1) by (subst T; exact D).
    rewrite (quotient_exact T x y) by (try (apply W); try assumption; now rewrite <- V).
    apply H; auto.
    - destruct (lower_end ty env T A x HA) as [Fa La|Ea]; [|congruence]. destruct H1 as [-> M].
      rewrite <- V. apply fine_quotient; auto. now rewrite V.
    - destruct (upper_end ty env T A x HA) as [Fa La|Ea]; [|congruence]. destruct H2 as [-> M].
      assert (V2 : ev env 0 (imax B') = y) by lia. rewrite <- V2. apply fine_quotient; auto; rewrite V2, <- V; auto. now rewrite V. }
  eapply safe_bind; [apply safe_positive|]. intros pos. destruct ((pos : bool) || is_uint t) eqn:Pu.
  { apply safe_give. intros Hp. apply K. intros T x y E W HA Ry F V N L U.
    assert (Y : 0 < y).
    { apply orb_true_iff in Pu. destruct Pu as [Pu|Pu].
      - specialize (Hp Pu 0). rewrite V in Hp. apply Hp. left. destruct F as (_ & -> & _). now subst.
      - pose proof (uint_nonneg t T y E Pu Ry). lia. }
    pose proof (lower_end ty env T A x HA) as VL. pose proof (upper_end ty env T A x HA) as VU.
    eapply upwards; [exact L|exact U| |]; intros Eb; [inversion VL as [Fa La Ec|Ea Ec]|inversion VU as [Fa La Ec|Ea Ec]];
      try congruence; now apply ediv_mono. }
  eapply safe_bind; [apply safe_negative|]. intros [|].
  { apply safe_give. intros Hn _. apply K. intros T x y E W HA Ry F V N L U.
    assert (Y : y < 0) by (specialize (Hn eq_refl 0); rewrite V in Hn; apply Hn; left; destruct F as (_ & -> & _); now subst).
    pose proof (lower_end ty env T A x HA) as VL. pose proof (upper_end ty env T A x HA) as VU.
    eapply downwards; [exact L|exact U| |]; intros Eb; [inversion VL as [Fa La Ec|Ea Ec]|inversion VU as [Fa La Ec|Ea Ec]];
      try congruence; now apply ediv_anti. }
  destruct (is_bounded A) eqn:Bd; [|apply safe_give; intros _ _; apply K; intros; apply within_everything].
  eapply safe_weaken; [apply safe_by_sign|]. intros r Hr _ _. apply K. intros T x y E W HA Ry F V N L U.
  assert (S : is_scalar T = true) by now subst.
  destruct (bounded_ends ty env T A x HA Bd) as (Fa & Fb & R). unfold is_bounded in Bd. apply andb_true_iff in Bd.
  destruct Bd as [Bu Bl]. rewrite Bl in L. rewrite Bu in U. destruct L as [F1 V1], U as [F2 V2].
  destruct (sign_test GT k T S W F) as (Wc & Tc & Vc). apply Hr; auto. rewrite Vc, V1, V2, V. cbn [evcmp].
  destruct (Z.ltb_spec 0 y); [split; apply ediv_mono; lia|split; apply ediv_anti; lia].
Qed.

Lemma safe_quotients t A B' : safe (quotients simplify_ t A B') (fun r => forall T x y, T = element_of t -> wf_type T ->
  within T A x -> within T B' y -> in_type T x -> in_type T y -> is_bounded A = true -> is_bounded B' = true ->
  within T r (norm T (ediv x y))).
Proof.
  unfold quotients. eapply safe_bind; [apply safe_static_sign|]. intros s1. eapply safe_bind; [apply safe_static_sign|]. intros s2.
  destruct (negb (s1 =? s2) || (s1 =? 0) || (s2 =? 0)) eqn:Sg; [apply safe_give; intros; apply within_everything|].
  apply orb_false_iff in Sg. destruct Sg as [Sg Z2]. apply orb_false_iff in Sg. destruct Sg as [Eq Z1].
  apply negb_false_iff, Z.eqb_eq in Eq. apply Z.eqb_neq in Z1. subst s2. clear Z2.
  eapply safe_bind; [apply safe_rely|]. intros u1. eapply safe_bind; [apply safe_rely|]. intros u2.
  eapply safe_weaken; [apply safe_hull|]. intros r H D2 D1 G2 G1 T x y E W HA HB Rx Ry BA BB. cbn [trusted] in D1, D2.
  assert (S : is_scalar T = true) by now subst.
  destruct (is_bounded_within _ _ _ _ _ _ _ HA HB BA BB) as [(F1 & F2 & R1) (F3 & F4 & R2)].
  destruct (G1 T S W F3) as (P1 & N1 & C1), (G2 T S W F4) as (P2 & N2 & _).
  assert (Y : 0 < ev env 0 (imin B') \/ ev env 0 (imax B') < 0) by (destruct C1 as [C|[C|C]]; [congruence|left; auto|right; auto]).
  assert (Dm : forall d, no_overflow_int t = true \/ is_uint t = true \/ d <> -1 -> no_overflow_int T = true \/ is_uint T = true \/ d <> -1)
    by (intros d Hd; subst T; exact Hd).
  rewrite (quotient_exact T x y); [| apply W|exact Rx|exact Ry|lia|apply Dm; destruct D2 as [D|[D|D]]; auto; right; right; lia].
  apply H; [exact S| |].
  - destruct F1 as (W1 & T1 & _), F2 as (W2 & T2 & _), F3 as (W3 & T3 & _), F4 as (W4 & T4 & _).
    repeat (apply Forall_cons; [split; [cbn [wf]; rewrite ?W1, ?W2, ?W3, ?W4, ?T1, ?T2, ?T3, ?T4, type_eqb_refl; reflexivity|cbn [type_of]; assumption]|]).
    apply Forall_nil.
  - intros _. cbn [ev evbin]. rewrite !(proj1 (proj2 F1)), !(proj1 (proj2 F2)).
    pose proof (fine_range ty env T _ F1 S). pose proof (fine_range ty env T _ F2 S).
    pose proof (fine_range ty env T _ F3 S). pose proof (fine_range ty env T _ F4 S).
    rewrite !quotient_exact; auto; try (apply W); try lia. now apply quotient_corners.
Qed.

Lemma visit_Div_sound a b : sound (EBin Div a b) (visit_Div simplify_ can_prove same_as visit (EBin Div a b) a b).
Proof.
  unfold visit_Div. eapply safe_bind; [now apply safe_visit|]. intros A. eapply safe_bind; [now apply safe_visit|]. intros B'.
  destruct (negb (is_bounded B')) eqn:BB; [apply safe_give; intros _ _ _ i L; apply within_everything|]. apply negb_false_iff in BB.
  assert (K : settles (EBin Div a b) -> (settles b -> encloses b B') -> (settles a -> encloses a A) -> forall i, lane_in (type_of (EBin Div a b)) i ->
    let T := element_of (type_of a) in wf_type T /\ within T A (ev env i a) /\ within T B' (ev env i b) /\
    in_type T (ev env i a) /\ in_type T (ev env i b) /\ ev env i b <> 0 /\
    ev env i (EBin Div a b) = norm T (ediv (ev env i a) (ev env i b))).
  { intros Set_ EB EA i L T. destruct (settles_bin _ _ _ _ _ _ Set_) as (Sa & Sb & Tb & _).
    destruct (bin_at _ _ _ _ _ _ i Set_ L) as (La & Lb & V). specialize (EA Sa i La). specialize (EB Sb i Lb). rewrite Tb in EB.
    split; [apply wf_type_element, wf_wf_type, Sa|]. split; [exact EA|]. split; [exact EB|].
    split; [apply in_type_element; now apply (settles_range ty env sc)|].
    split; [apply in_type_element; rewrite <- Tb; now apply (settles_range ty env sc)|]. split; [|exact V].
    apply (divisor_nonzero a b i); auto. }
  apply safe_self_points.
  - eapply safe_bind; [apply safe_proves|]. intros [|].
    + eapply safe_weaken; [apply safe_divided|]. intros r H P EB EA Set_ i L.
      destruct (K Set_ EB EA i L) as (W & HA & HB & Rx & Ry & N & V). rewrite V. change (type_of (EBin Div a b)) with (type_of a) in *.
      apply H; auto. destruct (bounded_ends ty env _ _ _ HB BB) as ((_ & Ty & _) & _).
      specialize (P eq_refl 0). cbn [ev evcmp] in P. apply Z.eqb_eq, b2z_nonzero, P. left. cbn [type_of]. now rewrite Ty.
    + destruct (is_bounded A) eqn:BA; [|apply safe_give; intros _ _ _ _ i L; apply within_everything].
      eapply safe_weaken; [apply safe_quotients|]. intros r H _ EB EA Set_ i L.
      destruct (K Set_ EB EA i L) as (W & HA & HB & Rx & Ry & N & V). rewrite V. change (type_of (EBin Div a b)) with (type_of a) in *.
      now apply H.
  - intros P _ EB EA Set_. apply (self_points_bin same_as same_eq ty env sc Div a b A); auto.
    apply EA, (settles_bin _ _ _ _ _ _ Set_).
Qed.

(** ** Remainders *)

Lemma is_inf_eq inf e : is_inf inf e = true -> e = inf.
Proof.
  destruct inf, e; try discriminate. cbn [is_inf]. intros H. apply andb_true_iff in H. destruct H as [H1 H2].
  apply type_eqb_eq in H1. apply String.eqb_eq in H2. congruence.
Qed.

Lemma abs_node T e : documented env -> is_int T = true -> is_scalar T = true -> fine_end T e ->
  let U := UInt (bits T) 1 in
  wf (abs_of e) = true /\ type_of (abs_of e) = U /\ ev env 0 (abs_of e) = Z.abs (ev env 0 e).
Proof.
  intros D I S F U. pose proof (fine_range ty env T e F S) as R. destruct F as (W & Ty & E).
  pose proof (wf_wf_type e W) as [It Vl]. rewrite Ty in It. pose proof (int_type_sbits T It I) as B.
  assert (Nu : is_uint T = false) by (unfold is_int, is_uint in *; destruct (code T); auto; discriminate).
  assert (IU : int_type U = true).
  { unfold int_type, U in *. cbn. unfold is_int in I. destruct (code T); try discriminate. clear - It.
    repeat (apply orb_true_iff in It; destruct It as [It|It]); rewrite It, ?orb_true_r; reflexivity. }
  assert (L1 : lanes T = 1) by (unfold is_scalar in S; now apply Z.eqb_eq).
  unfold abs_of. rewrite Ty, Nu, I, L1. split; [|split; [reflexivity|]].
  - cbn [wf forallb]. fold U. rewrite W, IU. reflexivity.
  - cbn [ev map]. change (is_likely "abs" PureIntrinsic) with false. cbv iota. rewrite (doc_abs env D). fold U.
    apply cast_val_id; [exact IU|]. unfold in_type, tmin, tmax in *. rewrite I in R. change (is_int U) with false. cbv iota.
    change (bits U) with (bits T). replace (2 ^ bits T) with (2 * 2 ^ (bits T - 1)) by (rewrite <- Z.pow_succ_r by lia; f_equal; lia). lia.
Qed.

Lemma abs_range T x : is_int T = true -> in_type T x -> Z.abs x <= 2 ^ (bits T - 1).
Proof. intros I R. unfold in_type, tmin, tmax in R. rewrite I in R. lia. Qed.

(** One less than a magnitude cast to the type. *)
Lemma below_magnitude T m : int_type T = true -> is_int T = true -> 1 <= m <= 2 ^ (bits T - 1) ->
  in_type T (norm T (cast_val T m - 1)) -> norm T (cast_val T m - 1) = m - 1.
Proof.
  intros It I M R. pose proof (int_type_sbits T It I) as B.
  assert (P : 2 ^ bits T = 2 * 2 ^ (bits T - 1)) by (rewrite <- Z.pow_succ_r by lia; f_equal; lia).
  assert (Rm : in_type T (m - 1)) by (unfold in_type, tmin, tmax; rewrite I; lia).
  destruct (no_overflow_int T) eqn:N.
  - rewrite norm_no_overflow in * by exact N. pose proof (cast_val_range T m It) as Rc.
    assert (C : exists k, cast_val T m = m + k * 2 ^ bits T).
    { unfold cast_val. unfold is_int in I. destruct (code T); try discriminate. apply wrap_s_cong. lia. }
    destruct C as [k C]. unfold in_type, tmin, tmax in *. rewrite I, C in *. rewrite P in *.
    assert (K : k = 0) by nia. subst k. lia.
  - assert (E : cast_val T m = norm T m) by (unfold norm; now rewrite N). rewrite E, norm_sub_l by exact It. now apply norm_id.
Qed.

Lemma fine_one T : wf_type T -> is_scalar T = true -> fine_end T (make_const T 1) /\ ev env 0 (make_const T 1) = 1.
Proof. intros W S. apply fine_const; [exact W|exact S|]. pose proof (tmin_tmax_width T (proj1 W)). unfold in_type. lia. Qed.

(** A remainder is below the upper end of a positive divisor. *)
Lemma remainder_below T hi x y : wf_type T -> is_scalar T = true -> fine_end T hi -> 1 <= y <= ev env 0 hi ->
  meant (EBin Sub hi (make_const T 1)) -> BoundsTrust.upper ty env T (emod x y) (EBin Sub hi (make_const T 1)).
Proof.
  intros W S F Y M. destruct (fine_one T W S) as [Fo Vo].
  destruct (fine_bin ty env T Sub _ _ eq_refl F Fo M) as [G E]. right. split; [exact G|]. pose proof (emod_bound x y ltac:(lia)).
  rewrite E. cbn [evbin]. rewrite Vo, norm_id; [lia|apply W|].
  pose proof (fine_range ty env T _ F S) as R. pose proof (tmin_tmax_width T (proj1 W)). unfold in_type in *. lia.
Qed.

(** The larger of the magnitudes of two ends, cast to their type. *)
Lemma magnitude_node T u v (mx := EBin Max (abs_of u) (abs_of v)) : documented env -> wf_type T -> is_scalar T = true -> is_int T = true ->
  fine_end T u -> fine_end T v -> wf (cast T mx) = true /\ type_of (cast T mx) = T /\
  ev env 0 (cast T mx) = cast_val T (Z.max (Z.abs (ev env 0 u)) (Z.abs (ev env 0 v))).
Proof.
  intros D W S I Fu Fv. destruct (abs_node T u D I S Fu) as (Wa1 & Ta1 & Va1), (abs_node T v D I S Fv) as (Wa2 & Ta2 & Va2).
  assert (Wm : wf mx = true) by (unfold mx; cbn [wf]; now rewrite Wa1, Wa2, Ta1, Ta2, type_eqb_refl).
  assert (Tm : type_of mx = UInt (bits T) 1) by (unfold mx; cbn [type_of]; exact Ta1).
  assert (Vm : ev env 0 mx = Z.max (Z.abs (ev env 0 u)) (Z.abs (ev env 0 v))) by (unfold mx; cbn [ev evbin]; now rewrite Va1, Va2).
  destruct (cast_ok T mx Wm W) as (Wc & Tc & Ec & _); [right; now rewrite Tm|]. split; [exact Wc|]. split; [exact Tc|].
  rewrite Ec, Vm. unfold cast_to. rewrite Tm, (scalar_is_element T S). change (element_of (UInt (bits T) 1)) with (UInt (bits T) 1).
  destruct (type_eqb _ T) eqn:E; [|reflexivity]. apply type_eqb_eq in E. rewrite <- E in I. discriminate I.
Qed.

(** A remainder is below the magnitude of the divisor. *)
Lemma remainder_below_magnitude T u v x y (hi := EBin Sub (cast T (EBin Max (abs_of u) (abs_of v))) (make_const T 1)) :
  documented env -> wf_type T -> is_scalar T = true -> is_int T = true -> fine_end T u -> fine_end T v ->
  ev env 0 u <= y <= ev env 0 v -> y <> 0 -> meant hi -> BoundsTrust.upper ty env T (emod x y) hi.
Proof.
  intros D W S I Fu Fv R N M. destruct (magnitude_node T u v D W S I Fu Fv) as (Wc & Tc & Vc), (fine_one T W S) as [Fo Vo].
  assert (Ws : wf hi = true) by (unfold hi; cbn [wf]; now rewrite Wc, (proj1 Fo), Tc, (proj1 (proj2 Fo)), type_eqb_refl).
  assert (F : fine_end T hi) by (split; [exact Ws|split; [exact Tc|now apply meant_everywhere]]). right. split; [exact F|].
  pose proof (fine_range ty env T _ F S) as Rs. unfold hi in *. cbn [ev evbin] in Rs |- *. rewrite Tc, Vc, Vo in *.
  pose proof (abs_range T _ I (fine_range ty env T _ Fu S)). pose proof (abs_range T _ I (fine_range ty env T _ Fv S)).
  pose proof (emod_bound x y N). rewrite below_magnitude; [|apply W|exact I| |exact Rs]; lia.
Qed.

Lemma visit_Mod_sound a b : sound (EBin Mod a b) (visit_Mod same_as visit (EBin Mod a b) a b).
Proof.
  unfold visit_Mod. eapply safe_bind; [now apply safe_visit|]. intros A. eapply safe_bind; [now apply safe_visit|]. intros B'.
  destruct (negb (is_bounded B')) eqn:BB.
  { eapply safe_bind; [apply safe_rely|]. intros u. apply safe_give. intros Un _ _ _ i L. cbn [trusted] in Un.
    unfold is_everything in Un. apply andb_true_iff in Un. destruct Un as [U1 U2]. split; left; now apply is_inf_eq. }
  apply negb_false_iff in BB. apply safe_points_bin; [exact same_eq|].
  assert (K : settles (EBin Mod a b) -> encloses b B' -> forall i, lane_in (type_of (EBin Mod a b)) i ->
    let T := element_of (type_of a) in wf_type T /\ fine_end T (imin B') /\ fine_end T (imax B') /\
    ev env 0 (imin B') <= ev env i b <= ev env 0 (imax B') /\ ev env i b <> 0 /\ in_type T (ev env i b) /\
    ev env i (EBin Mod a b) = emod (ev env i a) (ev env i b)).
  { intros Set_ EB i L T. destruct (settles_bin _ _ _ _ _ _ Set_) as (Sa & Sb & Tb & _).
    destruct (bin_at _ _ _ _ _ _ i Set_ L) as (La & Lb & V). specialize (EB i Lb). rewrite Tb in EB.
    destruct (bounded_ends ty env _ _ _ EB BB) as (F1 & F2 & R).
    split; [apply wf_type_element, wf_wf_type, Sa|]. split; [exact F1|]. split; [exact F2|]. split; [exact R|].
    split; [apply (divisor_nonzero a b i); auto|]. split; [|exact V].
    apply in_type_element. rewrite <- Tb. now apply (settles_range ty env sc). }
  change (type_of (EBin Mod a b)) with (type_of a) in *. set (T := element_of (type_of a)) in *.
  assert (Z0 : forall x y, wf_type T -> y <> 0 -> BoundsTrust.lower ty env T (emod x y) (make_zero T)).
  { intros x y W N. destruct (fine_zero ty env T W eq_refl) as [F E]. right. split; [exact F|]. rewrite E. now apply emod_bound. }
  eapply safe_bind with (Q := fun pos : bool => pos = true -> is_int (type_of (imax B')) = true /\
    forall i, lane_in (type_of (imin B')) i -> 0 < ev env i (imin B')).
  { destruct (is_int (type_of (imax B'))); [|apply safe_give; discriminate].
    eapply safe_weaken; [apply safe_positive|]. intros p H E. auto. }
  intros pos. destruct (is_uint (type_of (imax B')) || pos) eqn:Pu.
  - eapply safe_bind; [apply safe_make|]. intros hi. apply safe_give. intros [-> M] Hp Set_ EA EB i L.
    destruct (K Set_ EB i L) as (W & F1 & F2 & R & N & Ry & V). rewrite V. apply within_bounds; [now apply Z0|].
    apply (remainder_below T); auto. split; [|apply R]. apply orb_true_iff in Pu. destruct Pu as [Pu|Pu].
    + destruct F2 as (_ & T2 & _). rewrite T2 in Pu. pose proof (uint_nonneg T T _ eq_refl Pu Ry). lia.
    + destruct (Hp Pu) as [_ Hq]. specialize (Hq 0). destruct F1 as (_ & T1 & _). rewrite T1 in Hq. specialize (Hq (or_introl eq_refl)). lia.
  - destruct (is_int (type_of (imax B'))) eqn:I; [|apply safe_bad].
    eapply safe_bind; [apply safe_make|]. intros hi. apply safe_give. intros [-> M] _ Set_ EA EB i L.
    destruct (K Set_ EB i L) as (W & F1 & F2 & R & N & Ry & V). rewrite V. apply within_bounds; [now apply Z0|].
    apply (remainder_below_magnitude T); auto; [exact (env_documented env (settles_sane _ _ _ _ Set_))|].
    destruct F2 as (_ & T2 & _). now rewrite T2 in I.
Qed.
End Visits.
