(* ===== verification/BoundsNodes.v ===== *)
(** * Bounds of casts, variables, selections, memory and vectors *)

From Stdlib Require Import ZArith Lia Bool List String.
From S2P Require Import Prelude.
From S2P Require Import IntArith.
From S2P Require Import ModulusRemainder.
From S2P Require Import HalideTypes.
From S2P Require Import Scope.
From S2P Require Import IR.
From S2P Require Import IREquality.
From S2P Require Import IRMatch.
From S2P Require Import Typing.
From S2P Require Import MatchSound.
From S2P Require Import MakeSound.
From S2P Require Import Visit.
From S2P Require Import Mutator.
From S2P Require Import Substitute.
From S2P Require Import ExprInfo.
From S2P Require Import Monotonic.
From S2P Require Import ScopedFact.
From S2P Require Import SimplifyRun.
From S2P Require Import SimplifyNodes.
From S2P Require Import NamedValues.
From S2P Require Import CallSound.
From S2P Require Import ListNodes.
From S2P Require Import ShuffleSound.
From S2P Require Import Interval.
From S2P Require Import Bounds.
From S2P Require Import BoundsTrust.
From S2P Require Import BoundsEnds.
From S2P Require Import BoundsArith.
From S2P Require Import BoundsProducts.
Import ListNotations.
Open Scope string_scope.
Open Scope list_scope.
Open Scope Z_scope.

(** ** Values a type represents *)

Lemma can_represent_values t u v : int_type t = true -> int_type u = true -> can_represent_type t u = true ->
  in_type u v -> in_type t v.
Proof. intros It Iu C R. rewrite <- (cast_keeps t u v It Iu C R). now apply cast_val_range. Qed.

Lemma represents_u64 t v : int_type t = true -> 0 <= v -> can_represent_u64 t v = true -> in_type t v.
Proof.
  intros I P C. pose proof (int_type_bits t I) as B. unfold can_represent_u64 in C. unfold in_type, tmin, tmax.
  destruct (int_type_code t I) as [K|K].
  - rewrite K in *. apply Z.leb_le in C. rewrite max_int_eq in C by lia.
    pose proof (Z.pow_pos_nonneg 2 (bits t - 1) ltac:(lia) ltac:(lia)).
    pose proof (Z.pow_le_mono_r 2 (bits t - 1) 63 ltac:(lia) ltac:(lia)). change (2 ^ 63) with 9223372036854775808 in *.
    unfold u64, wrap_u in C. rewrite Z.mod_small in C by (change (2 ^ 64) with 18446744073709551616; lia). lia.
  - assert (N : is_int t = false) by (unfold is_int, is_uint in *; destruct (code t); auto; discriminate). rewrite N, K in *.
    apply Z.leb_le in C. rewrite max_uint_eq in C by lia. lia.
Qed.

Lemma represents_i64 t v : int_type t = true -> in_int 64 v -> can_represent_i64 t v = true -> in_type t v.
Proof.
  intros I P C. pose proof (int_type_bits t I) as B. unfold can_represent_i64 in C. unfold in_type, tmin, tmax.
  destruct (int_type_code t I) as [K|K].
  - rewrite K in *. apply andb_true_iff in C. destruct C as [C1 C2]. apply Z.leb_le in C1, C2.
    rewrite max_int_eq in C2 by lia. rewrite min_int_eq in C1 by lia. lia.
  - assert (N : is_int t = false) by (unfold is_int, is_uint in *; destruct (code t); auto; discriminate). rewrite N, K in *.
    apply andb_true_iff in C. destruct C as [C1 C2]. apply Z.leb_le in C1, C2. rewrite max_uint_eq in C2 by lia.
    unfold in_int in P. cbn in P. unfold u64, wrap_u in C2. rewrite Z.mod_small in C2 by (change (2 ^ 64) with 18446744073709551616; lia). lia.
Qed.

Lemma as_const_uint_ev env i e : forall k, as_const_uint e = Some k -> ev env i e = k.
Proof. induction e; cbn; intros k E; try discriminate; [congruence|auto]. Qed.

Section Visits.
Context (simplify_ : Expr -> Expr) (can_prove : Expr -> bool) (same_as : Expr -> Expr -> bool).
Context (same_eq : forall a b, same_as a b = true -> a = b).
Context (visit : Expr -> B Interval) (Hv : visits_soundly visit).
Context (ty : string -> HType) (env : Env) (sc : Scope Interval) (constants : bool) (Ok : scope_ok sc).

Abbreviation safe := (safe ty env sc constants).
Abbreviation settles := (settles ty env sc).
Abbreviation encloses := (encloses ty env).
Abbreviation within := (within ty env).
Abbreviation fine_end := (fine_end ty env).
Abbreviation meant := (meant ty env).
Abbreviation mend := (mend ty env).
Abbreviation sound e m := (BoundsTrust.safe ty env sc constants m (fun result => settles e -> encloses e result)).

(** ** Casts *)

(** A visit of a scalar in the mode for constants. *)
Lemma safe_visit_constant e : safe (with_constants (visit e)) (fun iv => settles e -> encloses e iv).
Proof. apply safe_constants. now apply Hv. Qed.

Lemma fine_settles T e x : fine_end T e -> settles x -> settles e.
Proof. intros (W & _ & E) [_ _ S D]. now split. Qed.

(** A cast there and back that changes nothing. *)
Lemma cast_any t x : wf x = true -> is_scalar t = true -> wf_type t -> is_scalar (type_of x) = true ->
  (type_of x = t -> in_type t (ev env 0 x)) ->
  wf (cast t x) = true /\ type_of (cast t x) = t /\ ev env 0 (cast t x) = cast_val t (ev env 0 x).
Proof.
  intros W St Wt S R. destruct (cast_ok t x W Wt (or_intror S)) as (We & Te & Ee & _). split; [exact We|]. split; [exact Te|].
  rewrite Ee. unfold cast_to. rewrite !scalar_is_element by assumption. destruct (type_eqb (type_of x) t) eqn:E; [|reflexivity].
  apply type_eqb_eq in E. symmetry. apply cast_val_id; [apply Wt|auto].
Qed.

Lemma cast_back to from e : is_scalar to = true -> is_scalar from = true -> wf_type to -> wf_type from -> fine_end from e ->
  can_represent_type from to = true -> ev env 0 (cast from (cast to e)) = ev env 0 e -> in_type to (ev env 0 e).
Proof.
  intros St Sf Wt Wf F C E. pose proof (fine_range ty env from e F Sf) as R. destruct F as (W & T & _).
  destruct (cast_any to e W St Wt) as (W1 & T1 & V1); [now rewrite T|rewrite T; now intros ->|].
  pose proof (cast_val_range to (ev env 0 e) (proj1 Wt)) as R1.
  destruct (cast_any from (cast to e) W1 Sf Wf) as (_ & _ & V2); [now rewrite T1|rewrite T1, V1; now intros <-|].
  rewrite V2, V1 in E. rewrite <- E. rewrite (cast_keeps from to); auto; [apply Wf|apply Wt].
Qed.

Lemma uint_end_nonneg T e k : is_scalar T = true -> fine_end T e -> as_const_uint e = Some k -> 0 <= k.
Proof.
  intros S (W & Ty & _) E. assert (V : is_vector (type_of e) = false) by (rewrite Ty; unfold is_vector, is_scalar in *; now rewrite S).
  destruct (as_uint_node e k W V E) as [t ->]. cbn [wf] in W. destr_and.
  match goal with H : in_typeb _ _ = true |- _ => apply in_typeb_spec in H; unfold in_type, tmin in H end.
  match goal with H : is_uint t = true |- _ => unfold is_int, is_uint in *; destruct (code t); try discriminate H end. cbn in *. lia.
Qed.

Definition narrowed_ok (to from : HType) (x : Z) (a : Interval) : Prop :=
  within from a x /\ fine_end from (imin a) /\ fine_end from (imax a) /\
  in_type to (ev env 0 (imin a)) /\ in_type to (ev env 0 (imax a)).

Lemma int_end_range T e k : is_scalar T = true -> fine_end T e -> as_const_int e = Some k -> in_int 64 k.
Proof.
  intros S (W & Ty & _) E. assert (V : is_vector (type_of e) = false) by (rewrite Ty; unfold is_vector, is_scalar in *; now rewrite S).
  destruct (as_int_node e k W V E) as [t ->]. cbn [wf] in W. destr_and.
  match goal with H : in_typeb _ _ = true, I : int_type t = true, J : is_int t = true |- _ =>
    apply in_typeb_spec in H; pose proof (int_type_sbits t I J) as B; unfold in_type, tmin, tmax in H; rewrite J in H end.
  pose proof (Z.pow_le_mono_r 2 (bits t - 1) 63 ltac:(lia) ltac:(lia)). unfold in_int. change (64 - 1) with 63. lia.
Qed.

Lemma ints_narrowed to from lo hi l h x a' : is_scalar from = true -> wf_type to -> fine_end from lo -> fine_end from hi ->
  as_const_int lo = Some l -> as_const_int hi = Some h -> ev env 0 lo <= x <= ev env 0 hi ->
  (if can_represent_i64 to l && can_represent_i64 to h then Some (mkInterval lo hi) else None) = Some a' -> narrowed_ok to from x a'.
Proof.
  intros S W Fl Fh El Eh R E. destruct (can_represent_i64 to l && can_represent_i64 to h) eqn:Cr; [|discriminate].
  inversion E; subst a'. apply andb_true_iff in Cr. destruct Cr as [C1 C2].
  split; [apply within_bounds; right; (split; [assumption|lia])|]. split; [exact Fl|]. split; [exact Fh|]. cbn [imin imax].
  rewrite (as_const_int_ev env 0 lo l El), (as_const_int_ev env 0 hi h Eh).
  split; apply represents_i64; auto; try apply W; [now apply (int_end_range from lo)|now apply (int_end_range from hi)].
Qed.

(** The test that two ends come back from a narrower type. *)
Lemma comes_back to from u v (back := fun x => cast from (cast to x)) : is_scalar to = true -> is_scalar from = true ->
  wf_type to -> wf_type from -> fine_end from u ->
  (forall i, lane_in (type_of (EBin And (ECmp EQ (back u) u) (ECmp EQ (back v) v))) i ->
     ev env i (EBin And (ECmp EQ (back u) u) (ECmp EQ (back v) v)) <> 0) ->
  ev env 0 (back u) = ev env 0 u /\ ev env 0 (back v) = ev env 0 v.
Proof.
  intros St Sf Wt Wf Fu P. specialize (P 0). cbn [ev evbin evcmp] in P. assert (T1 : lanes (type_of (back u)) = 1).
  { pose proof (fine_range ty env from _ Fu Sf) as R1. destruct Fu as (W1 & T1 & _). unfold back.
    destruct (cast_any to u W1 St Wt) as (W1' & T1' & V1'); [now rewrite T1|rewrite T1; now intros <-|].
    destruct (cast_any from (cast to u) W1' Sf Wf) as (_ & T1'' & _).
    - now rewrite T1'.
    - rewrite T1', V1'. intros <-. apply cast_val_range, Wt.
    - rewrite T1''. now apply Z.eqb_eq. }
  assert (N := P ltac:(left; cbn [type_of]; rewrite T1; reflexivity)). apply b2z_nonzero, andb_true_iff in N.
  unfold nz in N. destruct N as [N1 N2]. apply negb_true_iff, Z.eqb_neq in N1. apply negb_true_iff, Z.eqb_neq in N2.
  apply b2z_nonzero, Z.eqb_eq in N1. apply b2z_nonzero, Z.eqb_eq in N2. now split.
Qed.

Lemma safe_narrowed to from a : safe (narrowed simplify_ can_prove visit to from a) (fun r => forall v x a',
  settles v -> is_scalar to = true -> is_scalar from = true -> wf_type to -> wf_type from ->
  within from a x -> is_bounded a = true -> r = Some a' -> narrowed_ok to from x a').
Proof.
  unfold narrowed. eapply safe_bind; [apply safe_simplified|]. intros lo. eapply safe_bind; [apply safe_simplified|]. intros hi.
  set (S := fun e x => wf e = true /\ everywhere ty env e /\ type_of e = from /\ ev env 0 e = x).
  match goal with |- BoundsTrust.safe _ _ _ _ _ ?Q =>
    assert (K : forall m, safe m (fun r => forall v x a', settles v -> is_scalar to = true -> is_scalar from = true -> wf_type to -> wf_type from ->
      fine_end from lo -> fine_end from hi -> ev env 0 lo <= x <= ev env 0 hi -> r = Some a' -> narrowed_ok to from x a') -> safe m Q) end.
  { intros m H. eapply safe_weaken; [exact H|]. clear H. intros r H Hhi Hlo v x a' Sv St Sf Wt Wf HA BA E.
    destruct (bounded_ends ty env from a x HA BA) as ((W1 & T1 & E1) & (W2 & T2 & E2) & R).
    destruct (Hlo W1 E1) as (Wl & Tl & [El Vl]), (Hhi W2 E2) as (Wh & Th & [Eh Vh]).
    specialize (Vl 0 ltac:(left; now rewrite T1)). specialize (Vh 0 ltac:(left; now rewrite T2)).
    apply (H v x a'); auto; [split; [exact Wl|split; [congruence|exact El]]|split; [exact Wh|split; [congruence|exact Eh]]|lia]. }
  destruct (can_represent_type from to) eqn:C.
  - apply K. eapply safe_bind; [apply safe_visit_constant|]. intros l. eapply safe_bind; [apply safe_visit_constant|]. intros h.
    destruct (has_lower_bound l && has_upper_bound h) eqn:Bd; [|apply safe_give; discriminate].
    eapply safe_bind; [apply safe_proves|]. intros [|]; apply safe_give; [|discriminate].
    intros P Hh Hl v x a' Sv St Sf Wt Wf Fl Fh R E. inversion E; subst a'; clear E. apply andb_true_iff in Bd. destruct Bd as [BL BH].
    assert (El : element_of (type_of lo) = from) by (destruct Fl as (_ & -> & _); now apply scalar_is_element).
    assert (Eh : element_of (type_of hi) = from) by (destruct Fh as (_ & -> & _); now apply scalar_is_element).
    assert (Wl : within from l (ev env 0 lo)).
    { rewrite <- El. apply Hl; [now apply (fine_settles from lo v)|left; destruct Fl as (_ & -> & _); exact Sf]. }
    assert (Wh : within from h (ev env 0 hi)).
    { rewrite <- Eh. apply Hh; [now apply (fine_settles from hi v)|left; destruct Fh as (_ & -> & _); exact Sf]. }
    destruct (lower_end ty env from l _ Wl) as [F1 L1|]; [|discriminate].
    destruct (upper_end ty env from h _ Wh) as [F2 L2|]; [|discriminate].
    destruct (comes_back to from (imin l) (imax h) St Sf Wt Wf F1 (P eq_refl)) as [V1 V2].
    split; [apply within_bounds; right; (split; [assumption|lia])|].
    split; [exact F1|]. split; [exact F2|]. split; now apply (cast_back to from).
  - apply K. unfold S. destruct (as_const_uint lo) as [l|] eqn:Ul; [destruct (as_const_uint hi) as [h|] eqn:Uh|].
    + apply safe_give. intros v x a' Sv St Sf Wt Wf Fl Fh R E.
      destruct (can_represent_u64 to l && can_represent_u64 to h) eqn:Cr; [|discriminate]. inversion E; subst a'.
      apply andb_true_iff in Cr. destruct Cr as [C1 C2].
      split; [apply within_bounds; right; (split; [assumption|lia])|]. split; [exact Fl|]. split; [exact Fh|]. cbn [imin imax].
      rewrite (as_const_uint_ev env 0 lo l Ul), (as_const_uint_ev env 0 hi h Uh).
      split; apply represents_u64; auto; try apply Wt; [now apply (uint_end_nonneg from lo)|now apply (uint_end_nonneg from hi)].
    + destruct (as_const_int lo) eqn:Il; [destruct (as_const_int hi) eqn:Ih|]; apply safe_give; try discriminate.
      intros v x a' Sv St Sf Wt Wf Fl Fh R E. now apply (ints_narrowed to from lo hi z z0).
    + destruct (as_const_int lo) eqn:Il; [destruct (as_const_int hi) eqn:Ih|]; apply safe_give; try discriminate.
      intros v x a' Sv St Sf Wt Wf Fl Fh R E. now apply (ints_narrowed to from lo hi z z0).
Qed.

(** The interval a cast keeps. *)
Definition kept (to from : HType) (x : Z) (a : Interval) (assumed : bool) : Prop :=
  within from a x /\ in_type to x /\
  (assumed = false -> (forall v, in_type from v -> in_type to v) \/ narrowed_ok to from x a).

Lemma safe_no_overflow_cast to from value a : safe (no_overflow_cast simplify_ can_prove visit to from value a) (fun r => forall i a' assumed,
  settles value -> lane_in (type_of value) i -> from = element_of (type_of value) -> wf_type to -> is_scalar to = true ->
  within from a (ev env i value) -> r = Some (a', assumed) -> kept to from (ev env i value) a' assumed).
Proof.
  unfold no_overflow_cast. destruct (can_represent_type to from || is_float to) eqn:C.
  - apply safe_give. intros i a' asm Sv L E Wt St H R. inversion R; subst a' asm from.
    pose proof (wf_type_element _ (wf_wf_type _ (settles_wf _ _ _ _ Sv))) as Wf.
    assert (K : forall v, in_type (element_of (type_of value)) v -> in_type to v).
    { apply orb_true_iff in C. destruct C as [C|C]; [intros v; apply can_represent_values; [apply Wt|apply Wf|exact C]|].
      destruct Wt as [I _]. unfold is_float, int_type in *. destruct (code to); discriminate. }
    split; [exact H|]. split; [apply K, in_type_element; now apply (settles_range ty env sc)|auto].
  - destruct (is_int to && (32 <=? bits to)).
    + eapply safe_bind; [apply safe_rely|]. intros u. apply safe_give. cbn [trusted]. intros Kp i a' asm Sv L E Wt St H R.
      inversion R; subst. split; [exact H|]. split; [now apply Kp|discriminate].
    + destruct (is_bounded a) eqn:B; [|apply safe_give; intros; discriminate].
      eapply safe_bind; [apply safe_narrowed|]. intros r. apply safe_give. intros Hr i a' asm Sv L E Wt St H R.
      destruct r as [a1|]; [|discriminate]. inversion R; subst a' asm.
      assert (Sf : is_scalar from = true) by now subst.
      assert (Wf : wf_type from) by (subst; apply wf_type_element, wf_wf_type, Sv).
      pose proof (Hr value _ a1 Sv St Sf Wt Wf H B eq_refl) as N. pose proof N as (W & F1 & F2 & R1 & R2).
      split; [exact W|]. split; [|auto].
      assert (Bd : ev env 0 (imin a1) <= ev env i value <= ev env 0 (imax a1)).
      { destruct W as [[El|[_ L1]] [Eu|[_ U1]]]; try lia.
        - destruct F1 as (W1 & _). rewrite El in W1. discriminate.
        - destruct F1 as (W1 & _). rewrite El in W1. discriminate.
        - destruct F2 as (W2 & _). rewrite Eu in W2. discriminate. }
      unfold in_type in *. lia.
Qed.

Lemma safe_cast_bound assumed to e : safe (cast_bound assumed to e) (fun r => r = Cast to e /\ meant (Cast to e) /\
  (assumed = true -> forall i, lane_in (type_of e) i -> in_type to (ev env i e))).
Proof.
  unfold cast_bound. eapply safe_bind with (Q := fun _ => assumed = true -> forall i, lane_in (type_of e) i -> in_type to (ev env i e)).
  { destruct assumed; [eapply safe_weaken; [apply safe_rely|]; auto|apply safe_give; discriminate]. }
  intros u. eapply safe_weaken; [apply safe_make|]. intros r [-> M] H. auto.
Qed.

(** An end cast along. *)
Lemma cast_lower to from x e : is_scalar from = true -> is_scalar to = true -> int_type to = true -> in_type to x ->
  fine_end from e -> ev env 0 e <= x -> meant (Cast to e) -> in_type to (ev env 0 e) -> BoundsTrust.lower ty env to x (Cast to e).
Proof.
  intros Sf St I Rx F L M R. destruct (fine_cast ty env from Sf to e I St F M) as [G E]. right. split; [exact G|].
  rewrite E, cast_val_id by assumption. exact L.
Qed.

Lemma cast_upper to from x e : is_scalar from = true -> is_scalar to = true -> int_type to = true -> in_type to x ->
  fine_end from e -> x <= ev env 0 e -> meant (Cast to e) -> in_type to (ev env 0 e) -> BoundsTrust.upper ty env to x (Cast to e).
Proof.
  intros Sf St I Rx F L M R. destruct (fine_cast ty env from Sf to e I St F M) as [G E]. right. split; [exact G|].
  rewrite E, cast_val_id by assumption. exact L.
Qed.

(** The ends of the kept interval, or of the type where there is none. *)
Definition low_or_type (from : HType) (a : Interval) : Expr := if has_lower_bound a then imin a else imin (bounds_of_type from).
Definition high_or_type (from : HType) (a : Interval) : Expr := if has_upper_bound a then imax a else imax (bounds_of_type from).

(** They bound the value, and keep theirs in the cast. *)
Lemma kept_ends to from x a assumed (lo := low_or_type from a) (hi := high_or_type from a) :
  wf_type from -> is_scalar from = true -> in_type from x -> kept to from x a assumed ->
  within from (mkInterval lo hi) x /\
  (fine_end from lo -> assumed = false -> in_type to (ev env 0 lo)) /\ (fine_end from hi -> assumed = false -> in_type to (ev env 0 hi)).
Proof.
  intros Wf Sf Rf (Wa & _ & Keep). destruct (within_type ty env from x Wf Rf) as [TL TU].
  rewrite (scalar_is_element from Sf) in TL, TU. unfold lo, hi, low_or_type, high_or_type. split; [split; cbn [imin imax]|split].
  - destruct (has_lower_bound a); [apply Wa|exact TL].
  - destruct (has_upper_bound a); [apply Wa|exact TU].
  - intros F E. destruct (Keep E) as [Kp|(_ & F1 & _ & R1 & _)]; [apply Kp; now apply (fine_range ty env from)|].
    destruct (lower_end ty env from a x Wa) as [_ _|N]; [exact R1|]. rewrite N in F1. destruct F1 as [F1 _]. discriminate.
  - intros F E. destruct (Keep E) as [Kp|(_ & _ & F2 & _ & R2)]; [apply Kp; now apply (fine_range ty env from)|].
    destruct (upper_end ty env from a x Wa) as [_ _|N]; [exact R2|]. rewrite N in F2. destruct F2 as [F2 _]. discriminate.
Qed.

(** An end that was cast, if it was there. *)
Definition end_cast (to : HType) (assumed has : bool) (e r : Expr) : Prop :=
  if has then r = Cast to e /\ meant (Cast to e) /\ (assumed = true -> forall i, lane_in (type_of e) i -> in_type to (ev env i e))
  else r = e.

Lemma safe_end_cast to assumed (has : bool) e : safe (if has then cast_bound assumed to e else give e) (end_cast to assumed has e).
Proof. unfold end_cast. destruct has; [apply safe_cast_bound|now apply safe_give]. Qed.

Lemma cast_ends to from x a assumed lo' hi' (lo := low_or_type from a) (hi := high_or_type from a) :
  wf_type from -> wf_type to -> is_scalar from = true -> is_scalar to = true -> in_type from x -> kept to from x a assumed ->
  end_cast to assumed (has_lower_bound (mkInterval lo hi)) lo lo' -> end_cast to assumed (has_upper_bound (mkInterval lo' hi)) hi hi' ->
  within to (mkInterval lo' hi') x.
Proof.
  intros Wf Wt Sf St Rf Ka Hl Hh. destruct (kept_ends to from x a assumed Wf Sf Rf Ka) as (W0 & Kl & Kh). fold lo hi in W0, Kl, Kh.
  destruct Ka as (_ & Rx & _). pose proof W0 as [Lo Hi]. cbn [imin imax] in Lo, Hi.
  assert (Ra : forall e, fine_end from e -> (assumed = true -> forall i, lane_in (type_of e) i -> in_type to (ev env i e)) ->
    (assumed = false -> in_type to (ev env 0 e)) -> in_type to (ev env 0 e)).
  { intros e (_ & T & _) Ke Kf. destruct assumed; [|auto]. apply (Ke eq_refl). left. now rewrite T. }
  assert (Lo' : BoundsTrust.lower ty env to x lo').
  { destruct (lower_end ty env from _ x W0) as [F Le|N]; [|unfold end_cast in Hl; subst lo'; left; exact N].
    destruct Hl as (-> & M & Ke). cbn [imin imax] in F, Le. apply (cast_lower to from); auto; apply Wt. }
  assert (Hu : has_upper_bound (mkInterval lo' hi) = negb (is_inf pos_inf hi)).
  { apply has_wf_ends; [destruct Lo' as [->|[[W _] _]]; auto|destruct Hi as [->|[[W _] _]]; auto]. }
  split; [exact Lo'|]. rewrite Hu in Hh. unfold end_cast in Hh. destruct Hi as [E|[F Le]]; [rewrite E in Hh; left; exact Hh|].
  destruct (finite_inf hi (proj1 F)) as (_ & _ & _ & _ & N & _). rewrite N in Hh. destruct Hh as (-> & M & Ke).
  apply (cast_upper to from); auto; apply Wt.
Qed.

Lemma visit_Cast_sound t value : sound (Cast t value) (visit_Cast simplify_ can_prove same_as visit t value).
Proof.
  unfold visit_Cast. eapply safe_bind; [now apply safe_visit|]. intros A.
  assert (K : settles (Cast t value) -> (settles value -> encloses value A) -> forall i, lane_in t i ->
    settles value /\ lane_in (type_of value) i /\ within (element_of (type_of value)) A (ev env i value) /\ wf_type (element_of t) /\
    lanes t = lanes (type_of value)).
  { intros Set_ EA i L. assert (Sv : settles value) by (apply (settles_child _ _ _ _ _ Set_); cbn; auto).
    pose proof (settles_wf _ _ _ _ Set_) as W. destruct (wf_cast _ _ W) as (_ & _ & El).
    assert (Lv : lane_in (type_of value) i) by now apply (cast_lanes t). split; [exact Sv|]. split; [exact Lv|].
    split; [now apply EA|]. split; [|exact El]. apply wf_type_element, (wf_wf_type _ W). }
  destruct (is_point_of same_as A value) eqn:P.
  { eapply safe_weaken; [apply safe_point|]. intros iv [-> _] EA Set_. destruct (lane_zero _ _ _ _ Set_) as [i L].
    destruct (K Set_ EA i L) as (Sv & Lv & HA & Wt & El). apply (point_encloses ty env sc); [exact Set_|].
    apply (scalar_lanes (type_of value)); [now apply Z.eqb_eq|]. eapply (self_scalar same_as same_eq ty env sc); eauto. }
  destruct (is_point same_as A) eqn:Q.
  { eapply safe_weaken; [apply safe_point|]. intros iv [-> M] EA Set_ i L. destruct (K Set_ EA i L) as (Sv & Lv & HA & Wt & El).
    destruct (point_ends ty env same_as same_eq _ _ _ HA Q) as (_ & F & V). cbn [type_of].
    destruct (fine_cast ty env _ (element_scalar _) (element_of t) _ (proj1 Wt) eq_refl F M) as [G E].
    eapply point_value; [exact G| |exact E]. cbn [ev]. rewrite V. apply cast_val_elt, same_elt_element. }
  eapply safe_bind; [apply safe_no_overflow_cast|]. intros [[a assumed]|].
  2:{ apply safe_give. intros _ _ Set_. apply (settles_type ty env sc (Cast t value) Set_). }
  set (to := element_of t). set (from := element_of (type_of value)).
  change (if has_lower_bound a then imin a else imin (bounds_of_type from)) with (low_or_type from a).
  change (if has_upper_bound a then imax a else imax (bounds_of_type from)) with (high_or_type from a).
  eapply safe_bind; [apply safe_end_cast|]. intros lo'. eapply safe_bind; [apply safe_end_cast|].
  intros hi'. apply safe_give. intros Hh Hl Hc EA Set_ i L. destruct (K Set_ EA i L) as (Sv & Lv & HA & Wt & El).
  pose proof (Hc i a assumed Sv Lv eq_refl Wt eq_refl HA eq_refl) as Ka. pose proof Ka as (_ & Rx & _).
  cbn [type_of ev]. rewrite <- (cast_val_elt to t (same_elt_element t)), cast_val_id; [|apply Wt|exact Rx].
  apply (cast_ends to from _ a assumed); auto; [apply wf_type_element, wf_wf_type, Sv|].
  apply in_type_element; now apply (settles_range ty env sc).
Qed.

(** ** Variables *)

Lemma visit_Variable_sound t n : sound (EVariable t n) (visit_Variable t n).
Proof.
  unfold visit_Variable. eapply safe_bind; [apply safe_mode|]. intros b. eapply safe_bind; [apply safe_scope|]. intros c.
  assert (K : forall si, c = sc -> get c n = Some si -> settles (EVariable t n) -> encloses (EVariable t n) si).
  { intros si -> G [_ E S _]. pose proof (everywhere_local _ _ _ E) as (_ & _ & T). cbn [settled] in T. subst t. now apply S. }
  destruct b.
  - destruct (if contains c n then get c n else None) as [si|] eqn:G.
    + assert (G' : get c n = Some si) by (destruct (contains c n); [exact G|discriminate]).
      eapply safe_bind with (Q := fun r => r = imax (bounds_of_type t) \/ (r = make_min (imax (bounds_of_type t)) (imax si) /\ meant r)).
      { case_goal; [|apply safe_give; auto]. eapply safe_weaken; [apply safe_least|]. auto. }
      intros hi. eapply safe_bind with (Q := fun r => r = imin (bounds_of_type t) \/ (r = make_max (imin (bounds_of_type t)) (imin si) /\ meant r)).
      { case_goal; [|apply safe_give; auto]. eapply safe_weaken; [apply safe_greatest|]. auto. }
      intros lo. apply safe_give. intros Hl Hh E _ Set_ i L. destruct (K si E G' Set_ i L) as [Ls Us].
      destruct (settles_type ty env sc _ Set_ i L) as [Lt Ut]. cbn [type_of] in *. apply within_bounds.
      * destruct Hl as [-> |[-> M]]; [exact Lt|]. now apply max_lower.
      * destruct Hh as [-> |[-> M]]; [exact Ut|]. now apply min_upper.
    + apply safe_give. intros _ _ Set_. now apply (settles_type ty env sc (EVariable t n)).
  - destruct (contains c n).
    + destruct (get c n) as [si|] eqn:G; [|apply safe_bad]. apply safe_give. auto.
    + destruct (is_vector t) eqn:V; [apply safe_give; intros _ _ Set_; now apply (settles_type ty env sc (EVariable t n))|].
      eapply safe_weaken; [apply safe_point|]. intros iv [-> _] _ _ Set_. apply (point_encloses ty env sc); [exact Set_|].
      cbn [type_of]. unfold is_vector, is_scalar in *. now apply negb_false_iff in V.
Qed.

(** ** Loads *)

Lemma visit_Load_sound t n p x al : sound (Load t n p x al) (visit_Load same_as visit t n p x).
Proof.
  unfold visit_Load. eapply safe_bind; [now apply safe_visit|]. intros A. eapply safe_bind; [apply safe_mode|]. intros b.
  destruct (negb b && is_point same_as A && is_one p) eqn:C; [|apply safe_give; intros _ _ Set_; now apply (settles_type ty env sc (Load t n p x al))].
  apply andb_true_iff in C. destruct C as [C _]. apply andb_true_iff in C. destruct C as [_ P].
  eapply safe_weaken; [apply safe_point|]. intros iv [-> M] _ EA Set_ i L. cbn [type_of].
  assert (Sx : settles x) by (apply (settles_child _ _ _ _ _ Set_); cbn; auto).
  pose proof (settles_wf _ _ _ _ Set_) as W. destruct (load_lanes _ _ _ _ _ i W L) as [_ Lx]. specialize (EA Sx i Lx).
  destruct (point_ends ty env same_as same_eq _ _ _ EA P) as (_ & (Wx & Tx & Ex) & V).
  assert (Wl : wf (Load (element_of t) n (const_true 1) (imin A) mr_top) = true).
  { destruct (wf_wf_type _ W) as [It _]. cbn [type_of] in It. cbn [wf] in *. rewrite Wx, Tx.
    change (int_type (element_of t)) with (int_type t). rewrite It. reflexivity. }
  eapply point_value; [split; [exact Wl|split; [reflexivity|now apply meant_everywhere]]| |reflexivity].
  cbn [ev]. rewrite V. apply cast_val_elt, same_elt_element.
Qed.

(** ** Vectors *)

Lemma visit_Broadcast_sound v n : sound (Broadcast v n) (visit v).
Proof.
  eapply safe_weaken; [now apply safe_visit|]. intros iv H Set_ i L.
  assert (Sv : settles v) by (apply (settles_child _ _ _ _ _ Set_); cbn; auto).
  apply (H Sv i). now apply (broadcast_scalar v n), (settles_wf _ _ _ _ Set_).
Qed.

Lemma safe_vectors vs : forall iv, safe (visit_vectors visit vs iv) (fun r => forall T, is_scalar T = true ->
  Forall (fun v => settles v /\ element_of (type_of v) = T) vs -> mend T (imin iv) -> mend T (imax iv) ->
  (forall z, BoundsTrust.lower ty env T z (imin iv) -> BoundsTrust.lower ty env T z (imin r)) /\
  (forall z, BoundsTrust.upper ty env T z (imax iv) -> BoundsTrust.upper ty env T z (imax r)) /\
  forall v, In v vs -> encloses v r).
Proof.
  induction vs as [|v vs IH]; intros iv; cbn [visit_vectors].
  - apply safe_give. intros T S _ _ _. split; [auto|]. split; [auto|]. intros v [].
  - eapply safe_bind; [now apply safe_visit|]. intros V. eapply safe_bind; [apply safe_greatest|]. intros hi.
    eapply safe_bind; [apply safe_least|]. intros lo. eapply safe_weaken; [apply IH|]. intros r H [-> Ml] [-> Mh] HV T S F Mi Ma.
    apply Forall_cons_iff in F. destruct F as [[Sv Tv] F]. cbn [imin imax] in H. specialize (HV Sv).
    destruct (lane_zero _ _ _ _ Sv) as [j J]. pose proof (HV j J) as [Lj Uj]. rewrite Tv in Lj, Uj.
    apply lower_mend in Lj. apply upper_mend in Uj.
    destruct (min_mend ty env T S _ _ Mi Lj Ml) as [M1 _], (max_mend ty env T S _ _ Ma Uj Mh) as [M2 _].
    destruct (H T S F M1 M2) as (HL & HU & HE). split; [|split].
    + intros z Z. apply HL, min_lower; auto.
    + intros z Z. apply HU, max_upper; auto.
    + intros u [<-|I]; [|now apply HE]. intros i L. destruct (HV i L) as [Lo Up]. rewrite Tv in *.
      split; [apply HL, min_lower; auto|apply HU, max_upper; auto].
Qed.

Lemma visit_Shuffle_sound vs ixs : sound (Shuffle vs ixs) (visit_vectors visit vs nothing).
Proof.
  eapply safe_weaken; [apply safe_vectors|]. intros r H Set_ i L. pose proof (settles_wf _ _ _ _ Set_) as W.
  destruct (shuffle_pick vs ixs W env i L) as (k & Rk & ->). destruct (pick_some env vs k Rk) as (u & j & I & J & ->).
  destruct vs as [|v l]; [contradiction|]. destruct (wf_vectors (v :: l) ixs W v l eq_refl) as (_ & El & _ & Te & _).
  rewrite Te, element_of_with. rewrite Forall_forall in El. rewrite <- (El u I).
  destruct (H (element_of (type_of v)) eq_refl) as (_ & _ & HE).
  - apply Forall_forall. intros w Iw. split; [now apply (settles_child _ _ _ _ _ Set_)|now apply El].
  - now left.
  - right. now left.
  - apply (HE u I j). right. exact J.
Qed.
End Visits.
