(* ===== verification/BoundsNames.v ===== *)
(** * Bounds of what introduces names: ramps, selections and lets *)

From Stdlib Require Import ZArith Lia Bool List String.
From S2P Require Import Prelude.
From S2P Require Import IntArith.
From S2P Require Import HalideTypes.
From S2P Require Import Scope.
From S2P Require Import IR.
From S2P Require Import IREquality.
From S2P Require Import IRMatch.
From S2P Require Import Typing.
From S2P Require Import MatchSound.
From S2P Require Import MakeSound.
From S2P Require Import Visit.
From S2P Require Import Mutator.
From S2P Require Import Substitute.
From S2P Require Import Intrinsics.
From S2P Require Import SimplifyRun.
From S2P Require Import SimplifyNodes.
From S2P Require Import NamedValues.
From S2P Require Import LetPeel.
From S2P Require Import Interval.
From S2P Require Import Bounds.
From S2P Require Import BoundsTrust.
From S2P Require Import BoundsEnds.
From S2P Require Import BoundsArith.
From S2P Require Import BoundsProducts.
Import ListNotations.
Open Scope string_scope.
Open Scope list_scope.
Open Scope Z_scope.

Section Visits.
Context (simplify_ : Expr -> Expr) (can_prove : Expr -> bool) (same_as : Expr -> Expr -> bool).
Context (same_eq : forall a b, same_as a b = true -> a = b).
Context (unique_t : nat -> string).
Context (visit : Expr -> B Interval) (Hv : visits_soundly visit).
Context (ty : string -> HType) (env : Env) (sc : Scope Interval) (constants : bool) (Ok : scope_ok sc).

Abbreviation safe := (safe ty env sc constants).
Abbreviation settles := (settles ty env sc).
Abbreviation encloses := (encloses ty env).
Abbreviation within := (within ty env).
Abbreviation fine_end := (fine_end ty env).
Abbreviation meant := (meant ty env).
Abbreviation sound e m := (BoundsTrust.safe ty env sc constants m (fun result => settles e -> encloses e result)).

(** ** Ramps *)

Lemma sane_bind n f : sane_env env -> sane_env (bind env n f).
Proof. intros [Z O [D1 D2 D3 D4 D5 D6 D7 D8 D9 D10]]. split; [exact Z|exact O|now split]. Qed.

(** Ends that mean the same in another environment bound the same values there. *)
Lemma unaffected_fine env' T e : unaffected ty env env' e -> BoundsTrust.fine_end ty env' T e <-> fine_end T e.
Proof. intros [E _]. unfold BoundsTrust.fine_end. now rewrite E. Qed.

Lemma unaffected_within env' T iv x : unaffected ty env env' (imin iv) -> unaffected ty env env' (imax iv) ->
  BoundsTrust.within ty env' T iv x <-> within T iv x.
Proof.
  intros L U. unfold BoundsTrust.within, BoundsTrust.lower, BoundsTrust.upper.
  rewrite (unaffected_fine env' T _ L), (unaffected_fine env' T _ U), (proj2 L), (proj2 U). reflexivity.
Qed.

Lemma scope_bind n t k lo hi j : scope_holds ty env sc -> ty n = t -> wf_type t -> is_scalar t = true -> in_type t (k - 1) -> 0 <= j < k ->
  lo = make_const t 0 -> hi = make_const t (k - 1) ->
  (forall m iv, get sc m = Some iv -> unaffected ty env (bind env n (fun _ => j)) (imin iv) /\
     unaffected ty env (bind env n (fun _ => j)) (imax iv)) ->
  scope_holds ty (bind env n (fun _ => j)) (push sc n (mkInterval lo hi)).
Proof.
  intros H T W S R J -> -> U m iv G. destruct (String.eqb_spec m n) as [->|N].
  - rewrite get_push in G. injection G as <-. intros i L. rewrite T in *.
    pose proof (tmin_tmax_width t (proj1 W)) as Tw. unfold in_type in R.
    assert (V : ev (bind env n (fun _ => j)) i (EVariable t n) = j).
    { cbn [ev]. rewrite bind_same. apply cast_val_id; [apply W|]. unfold in_type. lia. }
    rewrite V. cbn [type_of]. rewrite scalar_is_element by exact S.
    destruct (fine_const ty (bind env n (fun _ => j)) t 0 W S) as [F0 E0]; [unfold in_type; lia|].
    destruct (fine_const ty (bind env n (fun _ => j)) t (k - 1) W S) as [F1 E1]; [exact R|].
    apply within_bounds; right; (split; [assumption|]); lia.
  - rewrite get_push_ne in G by congruence. destruct (U m iv G) as [U1 U2]. intros i L.
    assert (V : ev (bind env n (fun _ => j)) i (EVariable (ty m) m) = ev env i (EVariable (ty m) m)).
    { cbn [ev]. now rewrite bind_other by congruence. }
    rewrite V. apply (unaffected_within (bind env n (fun _ => j))); auto. now apply (H m iv G i).
Qed.

Lemma visit_Ramp_sound base stride n : sound (Ramp base stride n) (visit_Ramp unique_t visit base stride n).
Proof.
  unfold visit_Ramp. eapply safe_bind; [apply safe_unique|]. intros name. eapply safe_bind; [apply safe_scope|]. intros c.
  set (t := type_of base). set (lane := EBin Add base (EBin Mul (EVariable t name) stride)).
  set (lanes_iv := mkInterval (make_const t 0) (make_const t (n - 1))).
  eapply safe_bind_pair.
  { apply (safe_apart ty env sc constants _ (fun env' iv => BoundsTrust.meant ty env' lane /\
      (BoundsArith.settles ty env' (push sc name lanes_iv) lane -> BoundsTrust.encloses ty env' lane iv))).
    intros env'. eapply safe_bind; [apply safe_rely|]. intros u. cbn [trusted].
    apply safe_binding; [exact Ok|]. eapply safe_weaken; [apply Hv, push_scope_ok, Ok|]. auto. }
  intros iv inner. eapply safe_bind; [apply safe_rely|]. intros u. apply safe_give. cbn [trusted fst snd].
  intros (T & R & Tr) H -> _ Set_ i L. pose proof (settles_wf _ _ _ _ Set_) as W. cbn [wf] in W. destr_and.
  match goal with H : type_eqb _ _ = true |- _ => apply type_eqb_eq in H; rename H into Ts end.
  match goal with H : is_scalar (type_of base) = true |- _ => rename H into S end. fold t in S, Ts.
  match goal with H : wf base = true |- _ => rename H into Wb end.
  match goal with H : wf stride = true |- _ => rename H into Ws end.
  match goal with H : vector_lanes n = true |- _ => rename H into Vn end.
  pose proof (wf_wf_type base Wb) as Wt. fold t in Wt. cbn [type_of] in L |- *. fold t in L |- *. rewrite element_of_with.
  assert (J : 0 <= i < n) by (destruct L as [L|L]; [now rewrite (not_scalar_with t n Vn) in L|exact L]).
  destruct (Tr i J) as (Fr & Sc & In). apply trusted_all in In. destruct (H _ In) as [M E].
  inversion Fr as [|? ? Ub Fr1]; subst. inversion Fr1 as [|? ? Us Fr2]; subst. inversion Fr2 as [|? ? Ul Fr3]; subst.
  inversion Fr3 as [|? ? Uh _]; subst. clear Fr Fr1 Fr2 Fr3.
  set (env' := bind env name (fun _ => i)) in *.
  assert (Sb : settles base) by (apply (settles_child _ _ _ _ _ Set_); cbn; auto).
  assert (Ss : settles stride) by (apply (settles_child _ _ _ _ _ Set_); cbn; auto).
  assert (Wl : wf lane = true).
  { unfold lane. cbn [wf type_of]. rewrite Wb, Ws. destruct Wt as [It Vt]. rewrite It, Vt. fold t. rewrite Ts, type_eqb_refl. reflexivity. }
  assert (Wi : BoundsTrust.within ty env' (element_of t) iv (ev env' 0 lane)).
  { apply E; [|left; exact S]. split; [exact Wl|now apply meant_everywhere| |now apply sane_bind; apply Set_].
    unfold env', lanes_iv. apply (scope_bind name t n _ _ i); auto; apply Set_. }
  assert (V : ev env' 0 lane = ev env i (Ramp base stride n)).
  { unfold lane. cbn [ev evbin type_of]. fold t. unfold env' at 2. rewrite bind_same, (proj2 Ub), (proj2 Us).
    rewrite (everywhere_uniform ty env base i (settles_everywhere _ _ _ _ Sb) S).
    rewrite (everywhere_uniform ty env stride i (settles_everywhere _ _ _ _ Ss)) by now rewrite Ts.
    rewrite cast_val_id; [now apply norm_add_r, Wt|apply Wt|].
    pose proof (tmin_tmax_width t (proj1 Wt)). unfold in_type in *. lia. }
  rewrite <- V. now apply (unaffected_within env').
Qed.

(** ** Selections *)

(** A name that has the value of an end. *)
Lemma safe_named t value : safe (named_value unique_t t value) (fun r => snd r = EVariable t (fst r) /\
  wf value = true /\ names ty env (fst r) value).
Proof.
  unfold named_value. eapply safe_bind; [apply safe_unique|]. intros n. eapply safe_bind; [apply safe_rely|]. intros u.
  apply safe_give. cbn [trusted fst snd]. auto.
Qed.

Lemma named_fine T n x : is_scalar T = true -> fine_end T x -> names ty env n x -> everywhere ty env (EVariable T n) ->
  fine_end T (EVariable T n) /\ ev env 0 (EVariable T n) = ev env 0 x.
Proof.
  intros S F [Ty V] E. pose proof (fine_range ty env T x F S) as R. pose proof F as (W & Tx & _).
  destruct (wf_wf_type x W) as [It Vt]. rewrite Tx in *.
  split; [split; [cbn [wf]; now rewrite It, Vt|now split]|].
  cbn [ev]. rewrite (scalar_lane T 0 S), V by (left; now rewrite <- Ty). now apply cast_val_id.
Qed.

(** A let around an end that names what it uses. *)
Lemma fine_let T n x e : is_scalar T = true -> wf x = true -> everywhere ty env x -> names ty env n x -> fine_end T e -> meant (ELet n x e) ->
  fine_end T (ELet n x e) /\ ev env 0 (ELet n x e) = ev env 0 e.
Proof.
  intros S Wx Ex N (W & Te & Ee) M. assert (Wl : wf (ELet n x e) = true) by (cbn [wf]; now rewrite Wx, W).
  split; [split; [exact Wl|split; [exact Te|now apply meant_everywhere]]|].
  destruct (let_value ty env n x e 0 Wx W Ex Ee N) as [V _]; [left; now rewrite Te|exact V].
Qed.

(** A selection whose values may be names of ends. *)
Definition stands_for (T : HType) (v x : Expr) : Prop := v = x \/ exists n, v = EVariable T n /\ names ty env n x.

Lemma named_select T c v u x y : is_scalar T = true -> fine_end (BoolT 1) c -> fine_end T x -> fine_end T y ->
  stands_for T v x -> stands_for T u y -> meant (Select c v u) ->
  (fine_end T v /\ ev env 0 v = ev env 0 x) /\ (fine_end T u /\ ev env 0 u = ev env 0 y) /\
  fine_end T (Select c v u) /\ ev env 0 (Select c v u) = if nz (ev env 0 c) then ev env 0 x else ev env 0 y.
Proof.
  intros S Fc Fx Fy Sv Su M.
  assert (K : forall v x, stands_for T v x -> fine_end T x -> wf v = true /\ type_of v = T).
  { clear. intros v x [-> |(n & -> & _)] (W & Tx & _); [now split|]. destruct (wf_wf_type x W) as [It Vt]. rewrite Tx in *.
    split; [cbn [wf]; now rewrite It, Vt|reflexivity]. }
  assert (N : forall v x, stands_for T v x -> fine_end T x -> everywhere ty env v -> fine_end T v /\ ev env 0 v = ev env 0 x).
  { intros v' x' [-> |(n & -> & Nm)] F E; [now split|]. now apply named_fine. }
  destruct (K v x Sv Fx) as [Wv Tv], (K u y Su Fy) as [Wu Tu]. pose proof Fc as (Wc & Tc & _).
  assert (Ws : wf (Select c v u) = true) by (cbn [wf]; now rewrite Wc, Wv, Wu, Tv, Tu, Tc, type_eqb_refl).
  pose proof (everywhere_children _ _ _ (meant_everywhere ty env _ Ws M)) as Ch. cbn [children] in Ch.
  rewrite !Forall_cons_iff in Ch. destruct Ch as (_ & Ev & Eu & _).
  destruct (N v x Sv Fx Ev) as [Fv Vv], (N u y Su Fy Eu) as [Fu Vu].
  destruct (fine_select ty env T c v u Fc Fv Fu M) as [F V]. rewrite V, Vv, Vu. auto.
Qed.

Lemma condition_ends C c : within (BoolT 1) C c -> in_type (BoolT 1) c -> is_bounded C = true ->
  fine_end (BoolT 1) (imin C) /\ fine_end (BoolT 1) (imax C) /\
  (nz (ev env 0 (imin C)) = true -> nz c = true) /\ (nz c = true -> nz (ev env 0 (imax C)) = true).
Proof.
  intros H Rc B. destruct (bounded_ends ty env _ C c H B) as (F1 & F2 & R). split; [exact F1|]. split; [exact F2|].
  pose proof (fine_range ty env _ _ F1 eq_refl) as R1.
  split; intros N; [apply (nz_up _ _ N R1)|apply (nz_up _ _ N Rc)]; lia.
Qed.

(** One side of a selection: [R] is the order towards the values, and [limit] an
    expression on that side of both. *)
Section Side.
Context (T : HType) (S : is_scalar T = true) (limit : Expr -> Expr -> Expr) (R : Z -> Z -> Prop).
Context (R_trans : forall x y z, R x y -> R y z -> R x z).
Context (limit_fine : forall a b, fine_end T a -> fine_end T b -> meant (limit a b) ->
  fine_end T (limit a b) /\ R (ev env 0 (limit a b)) (ev env 0 a) /\ R (ev env 0 (limit a b)) (ev env 0 b)).

(** What is selected by conditions around the one of the node. *)
Lemma safe_selected C x y : safe (selected_end same_as unique_t limit T C x y) (fun r => forall c xv yv, sane_env env ->
  within (BoolT 1) C c -> in_type (BoolT 1) c -> fine_end T x -> fine_end T y -> R (ev env 0 x) xv -> R (ev env 0 y) yv ->
  fine_end T r /\ R (ev env 0 r) (if nz c then xv else yv)).
Proof.
  unfold selected_end. destruct (same_as x y) eqn:E0.
  { apply safe_give. intros c xv yv Sn HC Rc Fx Fy Rx Ry. apply same_eq in E0. subst y. split; [exact Fx|]. now destruct (nz c). }
  destruct (is_point same_as C) eqn:P.
  { eapply safe_weaken; [apply safe_make|]. intros r [-> M] c xv yv Sn HC Rc Fx Fy Rx Ry.
    destruct (point_ends ty env same_as same_eq _ _ _ HC P) as (_ & Fc & Vc).
    destruct (fine_select ty env T _ _ _ Fc Fx Fy M) as [F V]. split; [exact F|]. rewrite V, Vc. now destruct (nz c). }
  destruct (is_zero (imin C) && is_one (imax C)).
  { eapply safe_weaken; [apply safe_make|]. intros r [-> M] c xv yv Sn HC Rc Fx Fy Rx Ry.
    destruct (limit_fine x y Fx Fy M) as (F & L1 & L2). split; [exact F|]. destruct (nz c); [now apply R_trans with (ev env 0 x)|now apply R_trans with (ev env 0 y)]. }
  destruct (negb (is_bounded C)) eqn:Bd; [apply safe_bad|]. apply negb_false_iff in Bd.
  destruct (is_one (imax C)) eqn:O1.
  { eapply safe_bind_pair; [apply safe_named|]. intros n v. eapply safe_bind; [apply safe_rely|]. intros u.
    eapply safe_bind; [apply safe_make|]. intros r. eapply safe_weaken; [apply safe_make|]. cbn [fst snd trusted].
    intros l [-> Ml] [-> Mr] Ms (-> & Wx & N) c xv yv Sn HC Rc Fx Fy Rx Ry.
    destruct (condition_ends C c HC Rc Bd) as (F1 & F2 & I1 & I2).
    destruct (named_select T (imin C) (EVariable T n) y x y S F1 Fx Fy) as ((Fv & Vv) & _ & Fs & Vs); [right; eauto|now left|exact Ms|].
    destruct (limit_fine _ _ Fs Fv Mr) as (Fl & L1 & L2).
    destruct (fine_let T n x _ S Wx (proj2 (proj2 Fx)) N Fl Ml) as [F V]. split; [exact F|]. rewrite V.
    destruct (nz c) eqn:Nc; [apply R_trans with (ev env 0 x); [now rewrite <- Vv|exact Rx]|].
    apply R_trans with (ev env 0 y); [|exact Ry]. rewrite Vs in L1. destruct (nz (ev env 0 (imin C))); [now specialize (I1 eq_refl)|exact L1]. }
  destruct (is_zero (imin C)) eqn:Z0.
  { eapply safe_bind_pair; [apply safe_named|]. intros n v. eapply safe_bind; [apply safe_rely|]. intros u.
    eapply safe_bind; [apply safe_make|]. intros r. eapply safe_weaken; [apply safe_make|]. cbn [fst snd trusted].
    intros l [-> Ml] [-> Mr] Ms (-> & Wy & N) c xv yv Sn HC Rc Fx Fy Rx Ry.
    destruct (condition_ends C c HC Rc Bd) as (F1 & F2 & I1 & I2).
    destruct (named_select T (imax C) x (EVariable T n) x y S F2 Fx Fy) as (_ & (Fv & Vv) & Fs & Vs); [now left|right; eauto|exact Ms|].
    destruct (limit_fine _ _ Fs Fv Mr) as (Fl & L1 & L2).
    destruct (fine_let T n y _ S Wy (proj2 (proj2 Fy)) N Fl Ml) as [F V]. split; [exact F|]. rewrite V.
    destruct (nz c) eqn:Nc; [|apply R_trans with (ev env 0 y); [now rewrite <- Vv|exact Ry]].
    apply R_trans with (ev env 0 x); [|exact Rx]. rewrite Vs, (I2 eq_refl) in L1. exact L1. }
  eapply safe_bind_pair; [apply safe_named|]. intros n v. eapply safe_bind_pair; [apply safe_named|]. intros m w.
  eapply safe_bind; [apply safe_rely|]. intros u1. eapply safe_bind; [apply safe_rely|]. intros u2.
  eapply safe_bind; [apply safe_make|]. intros r1. eapply safe_bind; [apply safe_make|]. intros r2.
  eapply safe_weaken; [apply safe_make|]. cbn [fst snd trusted].
  intros l [-> Ml2] [-> Ml1] [-> Mr] Ms2 Ms1 (-> & Wy & Ny) (-> & Wx & Nx) c xv yv Sn HC Rc Fx Fy Rx Ry.
  destruct (condition_ends C c HC Rc Bd) as (F1 & F2 & I1 & I2).
  destruct (named_select T (imin C) (EVariable T n) (EVariable T m) x y S F1 Fx Fy) as (_ & _ & Fs1 & Vs1); [right; eauto|right; eauto|exact Ms1|].
  destruct (named_select T (imax C) (EVariable T n) (EVariable T m) x y S F2 Fx Fy) as (_ & _ & Fs2 & Vs2); [right; eauto|right; eauto|exact Ms2|].
  destruct (limit_fine _ _ Fs1 Fs2 Mr) as (Fl & L1 & L2).
  destruct (fine_let T n x _ S Wx (proj2 (proj2 Fx)) Nx Fl Ml1) as [Fa Va].
  destruct (fine_let T m y _ S Wy (proj2 (proj2 Fy)) Ny Fa Ml2) as [Fb Vb]. split; [exact Fb|]. rewrite Vb, Va. rewrite Vs1 in L1. rewrite Vs2 in L2.
  destruct (nz c) eqn:Nc.
  - rewrite (I2 eq_refl) in L2. now apply R_trans with (ev env 0 x).
  - destruct (nz (ev env 0 (imin C))); [now specialize (I1 eq_refl)|]. now apply R_trans with (ev env 0 y).
Qed.
End Side.

(** The limits as sides. *)
Lemma min_side T a b : is_scalar T = true -> fine_end T a -> fine_end T b -> meant (make_min a b) ->
  fine_end T (make_min a b) /\ ev env 0 (make_min a b) <= ev env 0 a /\ ev env 0 (make_min a b) <= ev env 0 b.
Proof.
  intros S Fa Fb M. destruct (min_mend ty env T S a b (or_intror (or_intror Fa)) (or_intror (or_intror Fb)) M) as [G V].
  rewrite (end_finite env 0 a (proj1 Fa)), (end_finite env 0 b (proj1 Fb)) in V. cbn [ext_min] in V.
  destruct (mend_value ty env T _ G) as [[_ E]|[[_ E]|[F E]]]; rewrite V in E; try discriminate. split; [exact F|]. injection E. lia.
Qed.

Lemma max_side T a b : is_scalar T = true -> fine_end T a -> fine_end T b -> meant (make_max a b) ->
  fine_end T (make_max a b) /\ ev env 0 (make_max a b) >= ev env 0 a /\ ev env 0 (make_max a b) >= ev env 0 b.
Proof.
  intros S Fa Fb M. destruct (max_mend ty env T S a b (or_intror (or_intror Fa)) (or_intror (or_intror Fb)) M) as [G V].
  rewrite (end_finite env 0 a (proj1 Fa)), (end_finite env 0 b (proj1 Fb)) in V. cbn [ext_max] in V.
  destruct (mend_value ty env T _ G) as [[_ E]|[[_ E]|[F E]]]; rewrite V in E; try discriminate. split; [exact F|]. injection E. lia.
Qed.

Lemma visit_Select_sound c t f : sound (Select c t f) (visit_Select same_as unique_t visit c t f).
Proof.
  unfold visit_Select. eapply safe_bind; [now apply safe_visit|]. intros A. eapply safe_bind; [now apply safe_visit|]. intros B'.
  eapply safe_bind; [now apply safe_visit|]. intros C.
  assert (K : settles (Select c t f) -> (settles c -> encloses c C) -> (settles f -> encloses f B') -> (settles t -> encloses t A) ->
    forall i, lane_in (type_of t) i -> let T := element_of (type_of t) in
    sane_env env /\ within (BoolT 1) C (ev env i c) /\ in_type (BoolT 1) (ev env i c) /\ within T A (ev env i t) /\ within T B' (ev env i f)).
  { intros Set_ EC EB EA i L T. pose proof (settles_wf _ _ _ _ Set_) as W. destruct (wf_select _ _ _ W) as (_ & _ & _ & Tf & _).
    destruct (select_lanes _ _ _ i W L) as [Lc Lf].
    assert (Sc : settles c) by (apply (settles_child _ _ _ _ _ Set_); cbn; auto).
    assert (St : settles t) by (apply (settles_child _ _ _ _ _ Set_); cbn; auto).
    assert (Sf : settles f) by (apply (settles_child _ _ _ _ _ Set_); cbn; auto).
    assert (Tc : element_of (type_of c) = BoolT 1).
    { cbn [wf] in W. destr_and. match goal with H : is_bool (type_of c) = true |- _ => apply is_bool_elt in H; destruct H as [Cd Bt] end.
      unfold element_of, with_lanes. now rewrite Cd, Bt. }
    split; [apply Set_|]. rewrite <- Tc. split; [now apply EC|]. split; [apply in_type_element; now apply (settles_range ty env sc)|].
    split; [now apply EA|]. unfold T. assert (E : type_of f = type_of t) by (rewrite <- Tf; reflexivity). rewrite <- E. now apply EB. }
  destruct (is_point same_as C && is_one (imin C)) eqn:P1.
  { apply safe_give. intros EC EB EA Set_ i L. cbn [type_of] in *. destruct (K Set_ EC EB EA i L) as (Sn & HC & Rc & HA & HB).
    apply andb_true_iff in P1. destruct P1 as [P O]. destruct (point_ends ty env same_as same_eq _ _ _ HC P) as (_ & F & V).
    cbn [ev]. rewrite <- V, (one_value ty env _ Sn F O). exact HA. }
  destruct (is_point same_as C && is_zero (imin C)) eqn:P0.
  { apply safe_give. intros EC EB EA Set_ i L. cbn [type_of] in *. destruct (K Set_ EC EB EA i L) as (Sn & HC & Rc & HA & HB).
    apply andb_true_iff in P0. destruct P0 as [P O]. destruct (point_ends ty env same_as same_eq _ _ _ HC P) as (_ & F & V).
    cbn [ev]. rewrite <- V, (zero_value ty env _ _ Sn F O). exact HB. }
  set (T := element_of (type_of t)).
  eapply safe_bind with (Q := fun r => forall c xv yv, sane_env env -> within (BoolT 1) C c -> in_type (BoolT 1) c ->
    within T A xv -> within T B' yv -> BoundsTrust.lower ty env T (if nz c then xv else yv) r).
  { destruct (has_lower_bound A && has_lower_bound B') eqn:H; [|apply safe_give; intros; now left].
    eapply safe_weaken; [apply (safe_selected T eq_refl make_min Z.le Z.le_trans)|]; [intros; now apply min_side|].
    intros r G c0 xv yv Sn HC Rc HA HB. destruct (both_lower ty env _ _ _ _ _ HA HB H) as ((Fa & Fb) & La & Lb).
    right. now apply G. }
  intros lo. eapply safe_bind with (Q := fun r => forall c xv yv, sane_env env -> within (BoolT 1) C c -> in_type (BoolT 1) c ->
    within T A xv -> within T B' yv -> BoundsTrust.upper ty env T (if nz c then xv else yv) r).
  { destruct (has_upper_bound A && has_upper_bound B') eqn:H; [|apply safe_give; intros; now left].
    eapply safe_weaken; [apply (safe_selected T eq_refl make_max Z.ge)|]; [intros; lia|intros; now apply max_side|].
    intros r G c0 xv yv Sn HC Rc HA HB. destruct (both_upper ty env _ _ _ _ _ HA HB H) as ((Fa & Fb) & La & Lb).
    destruct (G c0 xv yv Sn HC Rc Fa Fb) as [F V]; [lia|lia|]. right. split; [exact F|]. lia. }
  intros hi. apply safe_give. intros Hh Hl EC EB EA Set_ i L. cbn [type_of] in *. destruct (K Set_ EC EB EA i L) as (Sn & HC & Rc & HA & HB).
  cbn [ev]. split; [now apply (Hl (ev env i c))|now apply (Hh (ev env i c))].
Qed.

(** ** Lets *)

Lemma safe_let_around name v e : safe (let_around name v e) (fun r => forall T, is_scalar T = true -> fine_end T e ->
  fine_end T r /\ ev env 0 r = ev env 0 e).
Proof.
  unfold let_around. destruct (expr_uses_var e name); [|now apply safe_give].
  eapply safe_bind; [apply safe_rely|]. intros u. eapply safe_weaken; [apply safe_make|]. cbn [trusted].
  intros r [-> M] [Wv N] T S F. assert (Wl : wf (ELet name v e) = true) by (cbn [wf]; now rewrite Wv, (proj1 F)).
  pose proof (everywhere_children _ _ _ (meant_everywhere ty env _ Wl M)) as Ch. cbn [children] in Ch.
  rewrite !Forall_cons_iff in Ch. destruct Ch as (Ev & _). now apply fine_let.
Qed.

Lemma safe_wrap_let vmin vmax n m e : safe (wrap_let same_as vmin vmax n m e) (fun r => forall T, is_scalar T = true -> fine_end T e ->
  fine_end T r /\ ev env 0 r = ev env 0 e).
Proof.
  unfold wrap_let. eapply safe_bind with (Q := fun r => forall T, is_scalar T = true -> fine_end T e -> fine_end T r /\ ev env 0 r = ev env 0 e).
  { destruct vmin; [apply safe_let_around|now apply safe_give]. }
  intros e1. destruct vmax as [v|]; [destruct (negb (undefined_or_same same_as vmin (Some v)))|]; [|now apply safe_give..].
  eapply safe_weaken; [apply safe_let_around|]. intros r H H1 T S F. destruct (H1 T S F) as [F1 V1]. destruct (H T S F1) as [F2 V2].
  split; [exact F2|congruence].
Qed.

Lemma safe_named_end t n value : safe (named_end t n value) (fun r => r = EVariable t n /\ wf value = true /\ names ty env n value /\ meant r).
Proof.
  unfold named_end. eapply safe_bind; [apply safe_rely|]. intros u. eapply safe_weaken; [apply safe_make|]. cbn [trusted].
  intros r [-> M] [W N]. auto.
Qed.

(** The name of an end stands for it. *)
Lemma named_end_fine T n x : is_scalar T = true -> fine_end T x -> names ty env n x -> meant (EVariable T n) ->
  fine_end T (EVariable T n) /\ ev env 0 (EVariable T n) = ev env 0 x.
Proof.
  intros S F N M. apply named_fine; auto. apply (meant_everywhere ty env); [|exact M].
  pose proof F as (W & Tx & _). destruct (wf_wf_type x W) as [It Vt]. rewrite Tx in *. cbn [wf]. now rewrite It, Vt.
Qed.

(** The scope in the body of a let. *)
Lemma scope_let name value iv : settles value -> names ty env name value -> encloses value iv ->
  scope_holds ty env (push sc name iv).
Proof.
  intros Sv N H m iv' G. destruct (String.eqb_spec m name) as [->|Ne].
  - rewrite get_push in G. injection G as <-. intros i L. destruct N as [T V]. rewrite <- T in *.
    cbn [type_of] in L |- *. assert (E : ev env i (EVariable (type_of value) name) = ev env i value).
    { apply (LetPeel.named_value ty); auto; [apply Sv|apply Sv|]. split; [exact T|]. now rewrite <- T. }
    rewrite E. now apply H.
  - rewrite get_push_ne in G by congruence. now apply (settles_scope _ _ _ _ Sv).
Qed.

(** The lower end of the value of a let, named where it is no constant. *)
Definition low_named (T : HType) (iv : Interval) (lo : Expr) : Prop :=
  if has_lower_bound iv then fine_end T lo /\ ev env 0 lo = ev env 0 (imin iv) else lo = imin iv.

(** It bounds what its interval bounds. *)
Lemma low_named_lower T iv lo x : within T iv x -> low_named T iv lo -> BoundsTrust.lower ty env T x lo.
Proof.
  intros H L. unfold low_named in L. destruct (lower_end ty env T iv x H) as [F1 L1|E1]; [|left; congruence].
  destruct L as [Fl Vl]. right. split; [exact Fl|lia].
Qed.

(** The lower end of a single value is an upper end too. *)
Lemma low_named_upper T iv lo x : within T iv x -> imin iv = imax iv -> low_named T iv lo -> BoundsTrust.upper ty env T x lo.
Proof.
  intros H U L. destruct (equal_ends ty env T iv x H U) as (_ & F1 & V1). unfold low_named in L.
  destruct (lower_end ty env T iv x H) as [_ _|E1]; [|rewrite E1 in F1; destruct F1 as [F1 _]; discriminate].
  destruct L as [Fl Vl]. right. split; [exact Fl|]. lia.
Qed.

Lemma safe_let_low T n val : is_scalar T = true -> safe
  (if has_lower_bound val then if is_const (imin val) then give (imin val) else named_end T n (imin val) else give neg_inf)
  (fun lo => forall x, within T val x -> low_named T val lo).
Proof.
  intros S. unfold low_named. destruct (has_lower_bound val) eqn:E.
  2:{ apply safe_give. intros x H. pose proof (lower_end ty env T val x H) as V. rewrite E in V. now inversion V. }
  destruct (is_const (imin val)).
  - apply safe_give. intros x H. pose proof (lower_end ty env T val x H) as V. rewrite E in V. inversion V. auto.
  - eapply safe_weaken; [apply safe_named_end|]. intros r (-> & _ & N & M) x H.
    pose proof (lower_end ty env T val x H) as V. rewrite E in V. inversion V. now apply named_end_fine.
Qed.

(** The field val.min once it may have been reset to no expression. *)
Abbreviation rest_min val := (if has_lower_bound val && is_const (imin val) then None else Some (imin val)).
Abbreviation reset_min val lo := (match rest_min val with Some v => v | None => lo end).

Lemma reset_upper T val lo x : within T val x -> low_named T val lo ->
  has_upper_bound (mkInterval (reset_min val lo) (imax val)) = has_upper_bound val.
Proof.
  intros H L. rewrite (upper_finite ty env T val x H). apply (has_wf_ends (mkInterval (reset_min val lo) (imax val))); cbn [imin imax];
    [|destruct H as [_ [E|[[W _] _]]]; auto].
  unfold low_named in L. destruct (lower_end ty env T val x H) as [[W _] _|E]; cbn [andb]; [|auto].
  destruct (is_const (imin val)); [right; apply L|auto].
Qed.

Lemma safe_let_high T n val lo : is_scalar T = true -> safe
  (if has_upper_bound (mkInterval (reset_min val lo) (imax val)) then
     if is_const (imax val) then give (imax val)
     else if undefined_or_same same_as (rest_min val) (Some (imax val)) then give lo
     else named_end T n (imax val)
   else give pos_inf)
  (fun hi => forall x, within T val x -> low_named T val lo -> BoundsTrust.upper ty env T x hi).
Proof.
  intros S. match goal with |- BoundsTrust.safe _ _ _ _ (if ?c then _ else _) _ => destruct c eqn:E end.
  2:{ apply safe_give. intros x H L. now left. }
  assert (K : forall x, within T val x -> low_named T val lo -> fine_end T (imax val) /\ x <= ev env 0 (imax val)).
  { intros x H L. rewrite (reset_upper T val lo x H L) in E.
    pose proof (upper_end ty env T val x H) as V. rewrite E in V. inversion V. auto. }
  destruct (is_const (imax val)); [apply safe_give; intros x H L; right; exact (K x H L)|].
  destruct (undefined_or_same same_as (rest_min val) (Some (imax val))) eqn:U.
  - apply safe_give. intros x H L. destruct (has_lower_bound val && is_const (imin val)); [discriminate U|].
    cbn [undefined_or_same] in U. apply same_eq in U. now apply (low_named_upper T val).
  - eapply safe_weaken; [apply safe_named_end|]. intros r (-> & _ & N & M) x H L. destruct (K x H L) as [Fm Le].
    destruct (named_end_fine T n (imax val) S Fm N M) as [Fr Vr]. right. split; [exact Fr|]. lia.
Qed.

(** The ends of the body with the lets of the names around them. *)
Lemma safe_body_low vmin vmax n m iv : safe
  (if has_lower_bound iv then wrap_let same_as vmin vmax n m (imin iv) else give (imin iv))
  (fun r => forall T x, is_scalar T = true -> within T iv x -> low_named T iv r).
Proof.
  unfold low_named. destruct (has_lower_bound iv) eqn:E; [|now apply safe_give]. eapply safe_weaken; [apply safe_wrap_let|].
  intros r G T x S H. pose proof (lower_end ty env T iv x H) as V. rewrite E in V. inversion V. now apply G.
Qed.

Lemma safe_body_high vmin vmax n m iv lo : safe
  (if is_point same_as iv then give lo
   else if has_upper_bound (mkInterval lo (imax iv)) then wrap_let same_as vmin vmax n m (imax iv) else give (imax iv))
  (fun r => forall T x, is_scalar T = true -> within T iv x -> low_named T iv lo -> BoundsTrust.upper ty env T x r).
Proof.
  destruct (is_point same_as iv) eqn:P.
  - apply safe_give. intros T x S H L. apply (low_named_upper T iv); auto.
  - match goal with |- BoundsTrust.safe _ _ _ _ (if ?c then _ else _) _ => destruct c eqn:E end.
    + eapply safe_weaken; [apply safe_wrap_let|]. intros r G T x S [_ U] L.
      destruct U as [U|[Fu Le]]; [rewrite U in E; unfold has_upper_bound in E; discriminate E|].
      destruct (G T S Fu) as [Fr Vr]. right. split; [exact Fr|]. lia.
    + apply safe_give. intros T x S [_ U] L. exact U.
Qed.

Lemma visit_Let_sound name value body : sound (ELet name value body) (visit_Let same_as visit name value body).
Proof.
  unfold visit_Let. eapply safe_bind; [now apply safe_visit|]. intros val. set (T := element_of (type_of value)).
  eapply safe_bind; [now apply (safe_let_low T)|]. intros lo. eapply safe_bind; [now apply (safe_let_high T)|]. intros hi.
  eapply safe_bind; [apply safe_binding; [exact Ok|]; apply Hv; now apply push_scope_ok|]. intros iv.
  eapply safe_bind; [apply safe_body_low|]. intros lo'. eapply safe_bind; [apply safe_body_high|].
  intros hi'. apply safe_give. intros Hh Hl Hb Hhi Hlo Hval Set_ i L. cbn [type_of ev] in *.
  assert (Sv : settles value) by (apply (settles_child _ _ _ _ _ Set_); cbn; auto).
  assert (Sb : settles body) by (apply (settles_child _ _ _ _ _ Set_); cbn; auto).
  pose proof (everywhere_local _ _ _ (settles_everywhere _ _ _ _ Set_)) as (_ & _ & N). cbn [settled] in N.
  destruct (let_value ty env name value body i) as [V _];
    [apply Sv|apply Sb|apply Sv|apply Sb|exact N|exact L|]. cbn [ev] in V. rewrite V.
  assert (Hs : BoundsArith.settles ty env (push sc name (mkInterval lo hi)) body).
  { split; [apply Sb|apply Sb| |apply Sb]. apply (scope_let name value); auto. intros j J. specialize (Hval Sv j J). fold T in Hval |- *.
    pose proof (Hlo _ Hval) as Lo. split; [now apply (low_named_lower T val)|now apply Hhi]. }
  pose proof (Hb Hs i L) as H. pose proof (Hl _ _ (element_scalar _) H) as Lo.
  split; [now apply (low_named_lower _ iv)|now apply Hh].
Qed.
End Visits.
