(* ===== verification/BoundsBits.v ===== *)
(** * Bits of bounded integers

    Conjunction, disjunction, shifts and counts of bits between bounds. *)

From Stdlib Require Import ZArith Lia Bool.
From S2P Require Import Prelude.
From S2P Require Import IntArith.
From S2P Require Import HalideTypes.
From S2P Require Import Intrinsics.
Open Scope Z_scope.

(** ** Conjunction and disjunction *)

Lemma land_ldiff x y : y = Z.land x y + Z.ldiff y x.
Proof.
  rewrite (Z.land_comm x y), Z.add_nocarry_lxor.
  - rewrite Z.lxor_lor.
    + symmetry. rewrite Z.lor_comm. apply Z.lor_ldiff_and.
    + apply Z.bits_inj'. intros n N. rewrite !Z.land_spec, Z.ldiff_spec, Z.bits_0 by lia.
      now destruct (Z.testbit y n), (Z.testbit x n).
  - apply Z.bits_inj'. intros n N. rewrite !Z.land_spec, Z.ldiff_spec, Z.bits_0 by lia.
    now destruct (Z.testbit y n), (Z.testbit x n).
Qed.

Lemma land_le_r x y : 0 <= y \/ x < 0 -> Z.land x y <= y.
Proof. intros H. pose proof (land_ldiff x y). pose proof (proj2 (Z.ldiff_nonneg y x) H). lia. Qed.

Lemma land_le_max x y : Z.land x y <= Z.max x y.
Proof.
  destruct (Z.lt_ge_cases x 0); [pose proof (land_le_r x y ltac:(lia)); lia|].
  rewrite Z.land_comm. pose proof (land_le_r y x ltac:(lia)). lia.
Qed.

Lemma lor_complement x y : Z.lor x y = Z.lnot (Z.land (Z.lnot x) (Z.lnot y)).
Proof. now rewrite <- Z.lnot_lor, Z.lnot_involutive. Qed.

Lemma lnot_eq x : Z.lnot x = - x - 1.
Proof. unfold Z.lnot. lia. Qed.

Lemma min_le_lor x y : Z.min x y <= Z.lor x y.
Proof. rewrite lor_complement, lnot_eq. pose proof (land_le_max (Z.lnot x) (Z.lnot y)) as H. rewrite !lnot_eq in *. lia. Qed.

Lemma max_le_lor x y : 0 <= x -> 0 <= y -> Z.max x y <= Z.lor x y.
Proof.
  intros X Y. rewrite lor_complement, lnot_eq.
  pose proof (land_le_r (Z.lnot x) (Z.lnot y)) as H1. pose proof (land_le_r (Z.lnot y) (Z.lnot x)) as H2.
  rewrite (Z.land_comm (Z.lnot y)) in H2. rewrite !lnot_eq in *. lia.
Qed.

Lemma lor_below x y k : 0 <= k -> 0 <= x < 2 ^ k -> 0 <= y < 2 ^ k -> 0 <= Z.lor x y < 2 ^ k.
Proof.
  intros K X Y. assert (N : 0 <= Z.lor x y) by (apply Z.lor_nonneg; lia). split; [exact N|].
  destruct (Z.eq_dec (Z.lor x y) 0) as [->|Nz]; [lia|]. apply Z.log2_lt_pow2; [lia|]. rewrite Z.log2_lor by lia.
  destruct (Z.eq_dec x 0) as [->|Nx]; [|destruct (Z.eq_dec y 0) as [->|Ny]].
  - rewrite Z.lor_0_l in Nz. rewrite Z.max_r by apply Z.log2_nonneg. apply Z.log2_lt_pow2; lia.
  - rewrite Z.max_l by apply Z.log2_nonneg. apply Z.log2_lt_pow2; lia.
  - apply Z.max_lub_lt; apply Z.log2_lt_pow2; lia.
Qed.

Lemma land_above x y k : 0 <= k -> - 2 ^ k <= x -> - 2 ^ k <= y -> - 2 ^ k <= Z.land x y.
Proof.
  intros K X Y. pose proof (Z.pow_pos_nonneg 2 k ltac:(lia) K).
  destruct (Z.lt_ge_cases x 0), (Z.lt_ge_cases y 0); try (pose proof (proj2 (Z.land_nonneg x y) ltac:(lia)); lia).
  pose proof (lor_below (Z.lnot x) (Z.lnot y) k K) as L. rewrite lor_complement, !Z.lnot_involutive, !lnot_eq in L. lia.
Qed.

Lemma land_in_type t x y : int_type t = true -> in_type t x -> in_type t y -> in_type t (Z.land x y).
Proof.
  intros I X Y. pose proof (int_type_bits t I) as B. unfold in_type, tmin, tmax in *. pose proof (land_le_max x y).
  destruct (is_int t); [pose proof (land_above x y (bits t - 1)); lia|]. pose proof (proj2 (Z.land_nonneg x y) ltac:(lia)). lia.
Qed.

Lemma lor_in_type t x y : int_type t = true -> in_type t x -> in_type t y -> in_type t (Z.lor x y).
Proof.
  intros I X Y. pose proof (int_type_bits t I) as B. unfold in_type, tmin, tmax in *.
  destruct (is_int t); [|pose proof (lor_below x y (bits t)); lia].
  split; [pose proof (min_le_lor x y); lia|]. rewrite lor_complement, lnot_eq.
  pose proof (land_above (Z.lnot x) (Z.lnot y) (bits t - 1)) as H. rewrite !lnot_eq in *. lia.
Qed.

(** ** Shifts *)

Lemma shiftr_in_type t x y : int_type t = true -> in_type t x -> 0 <= y -> in_type t (x / 2 ^ y).
Proof.
  intros I X Y. pose proof (int_type_bits t I) as B. pose proof (Z.pow_pos_nonneg 2 y ltac:(lia) Y) as P.
  pose proof (tmin_tmax_width t I) as T. unfold in_type in *.
  split; [apply Z.div_le_lower_bound; nia|apply Z.div_le_upper_bound; nia].
Qed.

Lemma shl_mono x y x' y' : 0 <= x' <= x -> 0 <= y' <= y -> x' * 2 ^ y' <= x * 2 ^ y.
Proof.
  intros X Y. pose proof (Z.pow_le_mono_r 2 y' y ltac:(lia) ltac:(lia)). pose proof (Z.pow_pos_nonneg 2 y' ltac:(lia) ltac:(lia)). nia.
Qed.

Lemma shl_mono_r x y x' y' : 0 <= x' -> x <= x' -> 0 <= y <= y' -> x * 2 ^ y <= x' * 2 ^ y'.
Proof.
  intros X0 X Y. pose proof (Z.pow_le_mono_r 2 y y' ltac:(lia) ltac:(lia)). pose proof (Z.pow_pos_nonneg 2 y ltac:(lia) ltac:(lia)).
  destruct (Z.lt_ge_cases x 0); nia.
Qed.

Lemma shr_mono x x' y : 0 <= y -> x' <= x -> x' / 2 ^ y <= x / 2 ^ y.
Proof. intros Y X. apply Z.div_le_mono; [apply Z.pow_pos_nonneg; lia|exact X]. Qed.

(** A longer shift of a value goes towards zero, or towards -1. *)
Lemma shr_amounts x y y' : 0 <= y <= y' ->
  (0 <= x -> x / 2 ^ y' <= x / 2 ^ y) /\ (x < 0 -> x / 2 ^ y <= x / 2 ^ y').
Proof.
  intros Y. pose proof (Z.pow_le_mono_r 2 y y' ltac:(lia) ltac:(lia)) as P. pose proof (Z.pow_pos_nonneg 2 y ltac:(lia) ltac:(lia)) as Q.
  split; intros X; [apply Z.div_le_compat_l; lia|].
  apply Z.div_le_lower_bound; [lia|]. pose proof (Z.mul_div_le x (2 ^ y) Q).
  assert (x / 2 ^ y < 0) by (apply Z.div_lt_upper_bound; lia). nia.
Qed.

(** ** Counts *)

Lemma counted_range c n u : 0 <= n -> 0 <= counted c n u <= n.
Proof.
  intros N. assert (E : n = Z.of_nat (Z.to_nat n)) by lia. rewrite E at 3. unfold counted. clear E N. generalize (Z.to_nat n). clear n. intros n. destruct c.
  - induction n as [|n IH]; [cbn; lia|]. cbn [ones]. destruct (Z.testbit u (Z.of_nat n)); lia.
  - induction n as [|n IH]; [cbn; lia|]. cbn [leading_zeros]. destruct (Z.testbit u (Z.of_nat n)); lia.
  - revert u. induction n as [|n IH]; intros u; [cbn; lia|]. cbn [trailing_zeros]. destruct (Z.odd u); [lia|]. specialize (IH (Z.div2 u)). lia.
Qed.

Lemma leading_mono n u v : 0 <= n -> 0 <= u <= v -> v < 2 ^ n -> counted Leading n v <= counted Leading n u.
Proof.
  intros N U V. unfold counted. assert (E : Z.of_nat (Z.to_nat n) = n) by lia. rewrite <- E in V.
  destruct (Z.eq_dec u 0) as [->|Nu].
  - rewrite leading_zero. pose proof (counted_range Leading n v N) as R. unfold counted in R. lia.
  - rewrite !leading_log2 by lia. pose proof (Z.log2_le_mono u v ltac:(lia)). lia.
Qed.

Lemma bits_in_type t : int_type t = true -> in_type t (bits t).
Proof.
  intros I. unfold in_type, tmin, tmax. unfold int_type in I. unfold is_int.
  destruct (code t); try discriminate; cbn;
    repeat (apply orb_true_iff in I; destruct I as [I|I]); apply Z.eqb_eq in I; rewrite I; cbn; lia.
Qed.

Lemma cast_val_le t v : int_type t = true -> 0 <= v -> cast_val t v <= v.
Proof.
  intros I V. pose proof (int_type_bits t I) as B. pose proof (cast_val_range t v I) as R. unfold in_type, tmin, tmax in R.
  assert (C : exists k, cast_val t v = v + k * 2 ^ bits t).
  { unfold cast_val, int_type in *. destruct (code t); try discriminate; [apply wrap_s_cong|apply wrap_u_cong]; lia. }
  destruct C as [k E]. rewrite E in *. destruct (Z.lt_ge_cases 0 k); [|nia].
  pose proof (Z.pow_le_mono_r 2 (bits t - 1) (bits t) ltac:(lia) ltac:(lia)). destruct (is_int t); nia.
Qed.
