(* ===== verification/BoundsCall.v ===== *)
(** * Bounds of calls

    Calls of points, calls that stand for expressions, distances, and counts
    of bits. *)

From Stdlib Require Import ZArith Lia Bool List String.
From S2P Require Import Prelude.
From S2P Require Import IntArith.
From S2P Require Import HalideTypes.
From S2P Require Import Scope.
From S2P Require Import IR.
From S2P Require Import IREquality.
From S2P Require Import IRMatch.
From S2P Require Import Typing.
From S2P Require Import MatchSound.
From S2P Require Import MakeSound.
From S2P Require Import Visit.
From S2P Require Import Mutator.
From S2P Require Import Intrinsics.
From S2P Require Import SimplifyRun.
From S2P Require Import SimplifyNodes.
From S2P Require Import Interval.
From S2P Require Import Bounds.
From S2P Require Import BoundsTrust.
From S2P Require Import BoundsEnds.
From S2P Require Import BoundsArith.
From S2P Require Import BoundsProducts.
From S2P Require Import BoundsBits.
Import ListNotations.
Open Scope string_scope.
Open Scope list_scope.
Open Scope Z_scope.

(** ** Types of the same width *)

Lemma uint_type b n : int_type (UInt b n) = (b =? 1) || (b =? 8) || (b =? 16) || (b =? 32) || (b =? 64).
Proof. reflexivity. Qed.

Lemma int_type_uint t n : int_type t = true -> int_type (UInt (bits t) n) = true.
Proof.
  unfold int_type. destruct (code t); try discriminate; cbn; [|auto].
  intros H. repeat (apply orb_true_iff in H; destruct H as [H|H]); rewrite H, ?orb_true_r; reflexivity.
Qed.

Lemma wf_type_uint t n : int_type t = true -> valid_lanes (UInt (bits t) n) = true -> wf_type (UInt (bits t) n).
Proof. split; [now apply int_type_uint|assumption]. Qed.

Lemma abs_in_uint t x : int_type t = true -> in_type t x -> in_type (UInt (bits t) 1) (Z.abs x).
Proof.
  intros I R. pose proof (int_type_bits t I) as B. unfold in_type, tmin, tmax in *. change (is_int (UInt (bits t) 1)) with false.
  change (bits (UInt (bits t) 1)) with (bits t). cbv iota. destruct (is_int t); [|lia].
  assert (P : 2 ^ bits t = 2 * 2 ^ (bits t - 1)) by (rewrite <- Z.pow_succ_r by lia; f_equal; lia). lia.
Qed.

Lemma distance_in_uint t x y : int_type t = true -> in_type t x -> in_type t y -> in_type (UInt (bits t) 1) (Z.abs (x - y)).
Proof.
  intros I X Y. pose proof (int_type_bits t I) as B. unfold in_type, tmin, tmax in *. change (is_int (UInt (bits t) 1)) with false.
  change (bits (UInt (bits t) 1)) with (bits t). cbv iota.
  assert (P : 2 ^ bits t = 2 * 2 ^ (bits t - 1)) by (rewrite <- Z.pow_succ_r by lia; f_equal; lia). destruct (is_int t); lia.
Qed.

(** ** Casts without loss *)

Lemma lossless_spec : forall e t n, wf e = true -> wf_type t -> lanes t = lanes (type_of e) ->
  lossless_cast t e = Some n -> wf n = true /\ type_of n = t.
Proof.
  assert (C : forall e t n, wf e = true -> wf_type t -> lanes t = lanes (type_of e) ->
    (if type_eqb t (type_of e) then Some e else if can_represent_type t (type_of e) then Some (cast t e) else None) = Some n ->
    wf n = true /\ type_of n = t).
  { intros e t n W Wt L. destruct (type_eqb t (type_of e)) eqn:E.
    - intros [= <-]. apply type_eqb_eq in E. now split.
    - destruct (can_represent_type t (type_of e)); [|discriminate]. intros [= <-].
      destruct (cast_ok t e W Wt (or_introl (eq_sym L))) as (We & Te & _). now split. }
  induction e; intros t' m W Wt L H; cbn [lossless_cast] in H;
    match type of H with (if ?a then _ else if ?b then _ else _) = _ => destruct a eqn:E1; [|destruct b eqn:E2] end;
    try discriminate H;
    try (match type of E1 with type_eqb t' (type_of ?e) = _ => apply (C e t' m); auto; now rewrite ?E1, ?E2 end).
  - destruct (can_represent_i64 t' value); [|discriminate H]. injection H as <-. now destruct (make_const_spec t' value Wt).
  - destruct (can_represent_u64 t' value); [|discriminate H]. injection H as <-. now destruct (make_const_spec t' value Wt).
  - destruct (can_represent_type t' (type_of e)); [|discriminate H]. destruct (wf_cast _ _ W) as (We & _ & Le).
    apply IHe; auto. cbn [type_of] in L. congruence.
  - destruct (lossless_cast (element_of t') e) as [r|] eqn:R; [|discriminate H]. injection H as <-. cbn [wf type_of] in W, L |- *. destr_and.
    destruct (IHe (element_of t') r) as [Wr Tr]; auto; [now apply wf_type_element|symmetry; now apply Z.eqb_eq|].
    rewrite Wr, Tr. split; [cbn; now rewrite element_scalar|]. destruct t' as [c b l]. cbn in L |- *. unfold with_lanes. cbn. now subst.
Qed.

Section Visits.
Context (can_prove : Expr -> bool) (same_as : Expr -> Expr -> bool).
Context (same_eq : forall a b, same_as a b = true -> a = b).
Context (visit : Expr -> B Interval) (Hv : visits_soundly visit).
Context (ty : string -> HType) (env : Env) (sc : Scope Interval) (constants : bool) (Ok : scope_ok sc).

Abbreviation safe := (safe ty env sc constants).
Abbreviation settles := (settles ty env sc).
Abbreviation encloses := (encloses ty env).
Abbreviation within := (within ty env).
Abbreviation fine_end := (fine_end ty env).
Abbreviation meant := (meant ty env).
Abbreviation sound e m := (BoundsTrust.safe ty env sc constants m (fun result => settles e -> encloses e result)).

(** ** Values of calls *)

Lemma call_ev t n args ct vi i : is_likely n ct = false ->
  ev env i (ECall t n args ct vi) = cast_val t (ext env n t (lane_of t i) (map (ev env i) args)).
Proof. intros L. cbn [ev]. rewrite L. now destruct args as [|a [|b l]]. Qed.

Lemma call_args t n args ct vi i : settles (ECall t n args ct vi) -> lane_in t i ->
  Forall (fun a => settles a /\ lane_in (type_of a) i) args.
Proof.
  intros H L. pose proof (everywhere_local _ _ _ (settles_everywhere _ _ _ _ H)) as (_ & _ & A). cbn [settled args_lanes] in A.
  apply Forall_forall. intros a I. split; [now apply (settles_child ty env sc _ a H)|].
  rewrite Forall_forall in A. destruct (A a I) as [S|E]; [now left|]. now apply (lane_in_lanes t).
Qed.

Lemma fine_call t n args ct vi : is_likely n ct = false -> wf_type t -> is_scalar t = true -> forallb wf args = true ->
  meant (ECall t n args ct vi) ->
  fine_end t (ECall t n args ct vi) /\ ev env 0 (ECall t n args ct vi) = cast_val t (ext env n t 0 (map (ev env 0) args)).
Proof.
  intros L [It Vt] S W M. assert (Wc : wf (ECall t n args ct vi) = true) by (cbn [wf]; now rewrite W, It, Vt, L).
  split; [split; [exact Wc|split; [reflexivity|now apply meant_everywhere]]|]. rewrite call_ev by exact L. now rewrite scalar_lane.
Qed.

Lemma intrinsic_name n ct k : is_intrinsic n ct k = true -> n = k /\ (ct = Intrinsic \/ ct = PureIntrinsic).
Proof. unfold is_intrinsic. destruct ct; try discriminate; intros E; apply String.eqb_eq in E; auto. Qed.

(** A call of one end, or of two. *)
Lemma fine_intrinsic1 t n x T : is_likely n PureIntrinsic = false -> wf_type t -> is_scalar t = true -> fine_end T x ->
  meant (intrinsic t n [x]) ->
  fine_end t (intrinsic t n [x]) /\ ev env 0 (intrinsic t n [x]) = cast_val t (ext env n t 0 [ev env 0 x]).
Proof. intros L W S F M. apply fine_call; auto. cbn. now rewrite (proj1 F). Qed.

Lemma fine_intrinsic2 t n x y T : is_likely n PureIntrinsic = false -> wf_type t -> is_scalar t = true -> fine_end T x -> wf y = true ->
  meant (intrinsic t n [x; y]) ->
  fine_end t (intrinsic t n [x; y]) /\ ev env 0 (intrinsic t n [x; y]) = cast_val t (ext env n t 0 [ev env 0 x; ev env 0 y]).
Proof. intros L W S F Wy M. apply fine_call; auto. cbn. now rewrite (proj1 F), Wy. Qed.

(** ** Calls that stand for expressions *)

Lemma stands_encloses call e iv : wf e = true -> type_of e = type_of call -> good ty env call e -> settles call ->
  (settles e -> encloses e iv) -> encloses call iv.
Proof.
  intros W T [E V] [_ _ S D] H i L. rewrite <- T, <- (V i L). apply H; [now split|]. now rewrite T.
Qed.

Lemma visit_instead_sound call e : sound call (visit_instead visit call e).
Proof.
  unfold visit_instead. eapply safe_bind; [apply safe_rely|]. intros u. eapply safe_bind; [apply safe_rely|]. intros u'.
  eapply safe_weaken; [now apply safe_visit|]. cbn [trusted]. intros iv H (W & T & G) _ Set_. now apply (stands_encloses call e).
Qed.

Lemma visit_argument_sound call args k : sound call (visit_argument visit call args k).
Proof.
  unfold visit_argument. destruct (nth_error args k) as [a|]; [|apply safe_bad].
  eapply safe_bind; [apply safe_rely|]. intros u. eapply safe_weaken; [now apply safe_visit|].
  cbn [trusted]. intros iv H (W & T & G) Set_. now apply (stands_encloses call a).
Qed.

Lemma visit_clamped_sound call a lo hi : sound call (visit_clamped visit call a lo hi).
Proof. unfold visit_clamped. destruct (clamp a lo hi); [apply visit_instead_sound|apply safe_bad]. Qed.

Lemma visit_likely_sound t n a ct vi : is_likely n ct = true -> sound (ECall t n [a] ct vi) (visit a).
Proof.
  intros Lk. eapply safe_weaken; [now apply safe_visit|]. intros iv H Set_ i L. pose proof (settles_wf _ _ _ _ Set_) as W.
  cbn [wf] in W. rewrite Lk in W. destr_and.
  match goal with H : type_eqb _ _ = true |- _ => apply type_eqb_eq in H; rename H into T end.
  assert (Sa : settles a) by (apply (settles_child _ _ _ _ _ Set_); cbn; auto).
  cbn [type_of ev] in *. rewrite Lk. rewrite <- T in *. now apply H.
Qed.

(** ** Calls of points *)

Lemma safe_point_args args : safe (point_args same_as visit args) (fun r => forall args' i, r = Some args' ->
  Forall (fun a => settles a /\ lane_in (type_of a) i) args ->
  forallb wf args' = true /\ map (ev env 0) args' = map (ev env i) args).
Proof.
  induction args as [|a args IH]; cbn [point_args].
  - apply safe_give. intros args' i [= <-] _. now split.
  - eapply safe_bind; [now apply safe_visit|]. intros A. destruct (is_point same_as A) eqn:P; [|apply safe_give; discriminate].
    eapply safe_bind; [exact IH|]. intros r. apply safe_give. intros H HA args' i E F.
    destruct r as [args1|]; [|discriminate E]. injection E as <-. apply Forall_cons_iff in F. destruct F as [[Sa La] F].
    destruct (H args1 i eq_refl F) as [W M]. destruct (point_ends ty env same_as same_eq _ _ _ (HA Sa i La) P) as (_ & Fa & Va).
    cbn. now rewrite W, (proj1 Fa), M, Va.
Qed.

Lemma safe_point_call T name args ct vi : safe (point_call same_as visit (element_of T) name args ct vi)
  (fun r => forall iv, r = Some iv -> settles (ECall T name args ct vi) -> encloses (ECall T name args ct vi) iv).
Proof.
  unfold point_call. eapply safe_bind; [apply safe_mode|]. intros b.
  destruct (negb b && match ct with PureExtern | Image => true | _ => false end) eqn:C; [|apply safe_give; discriminate].
  assert (Lk : is_likely name ct = false).
  { apply andb_true_iff in C. destruct C as [_ C]. unfold is_likely, is_intrinsic. now destruct ct. }
  eapply safe_bind; [apply safe_point_args|]. intros [args'|]; [|apply safe_give; discriminate].
  eapply safe_bind; [apply safe_rely|]. intros u. eapply safe_bind; [apply safe_point|]. intros iv. apply safe_give.
  cbn [trusted]. intros [-> M] Ln H _ iv' [= <-] Set_ i L. cbn [type_of] in *.
  destruct (H args' i eq_refl (call_args _ _ _ _ _ i Set_ L)) as [W V].
  pose proof (wf_type_element _ (wf_wf_type _ (settles_wf _ _ _ _ Set_))) as Wt. cbn [type_of] in Wt.
  destruct (fine_call (element_of T) name args' ct vi Lk Wt eq_refl W M) as [F E].
  eapply point_value; [exact F| |exact E]. rewrite call_ev by exact Lk. rewrite V, (Ln T).
  apply cast_val_elt, same_elt_element.
Qed.
(** ** Distances *)

Lemma abs_type a T : wf a = true -> element_of (type_of (abs_of a)) = element_of T ->
  bits T = bits (type_of a) /\ (forall x, in_type (type_of a) x -> in_type T (Z.abs x)).
Proof.
  intros W E. pose proof (wf_wf_type a W) as [I _].
  assert (K : bits T = bits (element_of (type_of (abs_of a)))) by (rewrite E; reflexivity).
  assert (R : forall v, in_type (element_of (type_of (abs_of a))) v -> in_type T v) by (intros v; rewrite E; now apply in_type_element).
  clear E. unfold abs_of in *. destruct (is_uint (type_of a)) eqn:U.
  - split; [exact K|]. intros x X. apply R, in_type_element. pose proof (uint_nonneg (type_of a) (element_of (type_of a)) x eq_refl U) as P.
    rewrite Z.abs_eq; [exact X|]. apply P. now apply in_type_element.
  - destruct (int_type_code _ I) as [J|J]; [|congruence]. rewrite J in *. split; [exact K|].
    intros x X. apply R. exact (abs_in_uint _ x I X).
Qed.

Section Abs.
Context (T : HType) (a : Expr) (ct : CallType) (vi : Z).
Let t := element_of T.
Let Ta := element_of (type_of a).

(** The type of the distances of an element type. *)
Definition holds_distances : Prop := wf_type t /\ wf_type Ta /\ (forall x, in_type Ta x -> in_type t (Z.abs x)) /\ sane_env env.

Lemma abs_at A i : is_intrinsic "abs" ct "abs" = true -> element_of (type_of (abs_of a)) = t -> (settles a -> encloses a A) ->
  settles (ECall T "abs" [a] ct vi) -> lane_in T i ->
  holds_distances /\ within Ta A (ev env i a) /\ in_type Ta (ev env i a) /\ ev env i (ECall T "abs" [a] ct vi) = Z.abs (ev env i a).
Proof.
  intros Ic Al HA Set_ L. pose proof (call_args _ _ _ _ _ i Set_ L) as F. apply Forall_cons_iff in F. destruct F as [[Sa La] _].
  pose proof (wf_wf_type _ (settles_wf _ _ _ _ Set_)) as Wt. cbn [type_of] in Wt.
  destruct (abs_type a T (settles_wf _ _ _ _ Sa) Al) as [B R].
  pose proof (settles_range ty env sc a i Sa La) as Ra.
  split; [split; [now apply wf_type_element|]|].
  - split; [apply wf_type_element, wf_wf_type, Sa|]. split; [|apply Set_].
    intros x X. apply in_type_element, R. now apply in_type_element in X.
  - split; [now apply HA|]. split; [now apply in_type_element|].
    assert (Lk : is_likely "abs" ct = false) by (destruct ct; reflexivity). rewrite call_ev by exact Lk. cbn [map].
    rewrite (doc_abs env (env_documented env (settles_sane _ _ _ _ Set_))). apply cast_val_id; [apply Wt|auto].
Qed.

Lemma zero_lower x : wf_type t -> BoundsTrust.lower ty env t (Z.abs x) (make_zero t).
Proof. intros W. destruct (fine_zero ty env t W eq_refl) as [F E]. right. split; [exact F|]. rewrite E. lia. Qed.

Lemma fine_abs x : holds_distances -> fine_end Ta x -> meant (intrinsic t "abs" [x]) ->
  fine_end t (intrinsic t "abs" [x]) /\ ev env 0 (intrinsic t "abs" [x]) = Z.abs (ev env 0 x).
Proof.
  intros (W & _ & R & D) F M. destruct (fine_intrinsic1 t "abs" x _ eq_refl W eq_refl F M) as [G E]. split; [exact G|].
  rewrite E, (doc_abs env (env_documented env D)). apply cast_val_id; [apply W|]. apply R. now apply (fine_range ty env _ x F).
Qed.

(** The larger of the distances of the ends. *)
Lemma opposite_upper A x : no_overflow_int Ta = true -> holds_distances -> within Ta A x -> is_bounded A = true ->
  let hi := EBin Max (Cast t (EBin Sub (make_zero (type_of (imin A))) (imin A))) (Cast t (imax A)) in
  meant hi -> BoundsTrust.upper ty env t (Z.abs x) hi.
Proof.
  intros Ov (W & Wa & R & _) HW BA hi M. destruct (bounded_ends ty env _ _ _ HW BA) as (F1 & F2 & Le). right.
  set (op := EBin Sub (make_zero (type_of (imin A))) (imin A)) in *.
  assert (T1 : type_of (imin A) = Ta) by apply F1. destruct (fine_zero ty env Ta Wa eq_refl) as [Fz Ez].
  assert (Wo : wf op = true) by (unfold op; cbn [wf]; rewrite T1, (proj1 Fz), (proj1 F1), (proj1 (proj2 Fz)), type_eqb_refl; reflexivity).
  assert (To : type_of op = Ta) by (unfold op; cbn [type_of]; rewrite T1; apply Fz).
  assert (Wm : wf hi = true).
  { unfold hi. cbn [wf]. rewrite Wo, To, (proj1 F2), (proj1 (proj2 F2)), (proj1 W). cbn [type_of is_bool_op andb]. rewrite type_eqb_refl. reflexivity. }
  pose proof (meant_everywhere ty env _ Wm M) as Em. split; [split; [exact Wm|split; [reflexivity|exact Em]]|].
  assert (Vo : ev env 0 op = - ev env 0 (imin A)).
  { unfold op. cbn [ev evbin]. rewrite T1, (proj1 (proj2 Fz)), Ez, norm_no_overflow by exact Ov. lia. }
  unfold hi. cbn [ev evbin]. rewrite Vo. pose proof (fine_range ty env Ta _ F1 eq_refl) as R1. pose proof (fine_range ty env Ta _ F2 eq_refl) as R2.
  destruct (Z.lt_ge_cases x 0).
  - rewrite (cast_val_id t (- ev env 0 (imin A))); [lia|apply W|]. rewrite <- Z.abs_neq by lia. now apply R.
  - rewrite (cast_val_id t (ev env 0 (imax A))); [lia|apply W|]. rewrite <- (Z.abs_eq (ev env 0 (imax A))) by lia. now apply R.
Qed.

Lemma distances_upper A x : holds_distances -> within Ta A x -> is_bounded A = true ->
  let hi := EBin Max (intrinsic t "abs" [imin A]) (intrinsic t "abs" [imax A]) in
  meant hi -> BoundsTrust.upper ty env t (Z.abs x) hi.
Proof.
  intros H HW BA hi M. pose proof H as (W & _). destruct (bounded_ends ty env _ _ _ HW BA) as (F1 & F2 & Le). right.
  assert (Wc : forall x, wf x = true -> wf (intrinsic t "abs" [x]) = true) by (intros y Wy; cbn; rewrite Wy; cbn; now rewrite (proj1 W)).
  assert (Wm : wf hi = true).
  { unfold hi. cbn [wf]. rewrite !Wc by (apply F1 || apply F2). cbn [type_of intrinsic]. now rewrite type_eqb_refl. }
  pose proof (meant_everywhere ty env _ Wm M) as Em. pose proof (everywhere_children _ _ _ Em) as C. cbn [children hi] in C.
  apply Forall_cons_iff in C. destruct C as [C1 C]. apply Forall_cons_iff in C. destruct C as [C2 _].
  destruct (fine_abs (imin A) H F1 ltac:(right; right; exact C1)) as [_ E1], (fine_abs (imax A) H F2 ltac:(right; right; exact C2)) as [_ E2].
  split; [split; [exact Wm|split; [reflexivity|exact Em]]|]. unfold hi.
  change (ev env 0 (EBin Max ?u ?v)) with (Z.max (ev env 0 u) (ev env 0 v)). rewrite E1, E2. lia.
Qed.

Lemma visit_abs_sound : is_intrinsic "abs" ct "abs" = true ->
  sound (ECall T "abs" [a] ct vi) (visit_abs visit t a).
Proof.
  intros Ic. unfold visit_abs. eapply safe_bind; [now apply safe_visit|]. intros A. eapply safe_bind; [apply safe_rely|].
  intros u. cbn [trusted]. change (element_of t) with t.
  destruct (is_bounded A) eqn:BA;
    [|apply safe_give; intros Al HA Set_ i L; destruct (abs_at A i Ic Al HA Set_ L) as (H & _ & _ & ->);
      apply within_bounds; [now apply zero_lower, H|now left]].
  destruct (ir_equal (imin A) (imax A)) eqn:Q; [|destruct (is_int (type_of a) && (32 <=? bits (type_of a))) eqn:O].
  - eapply safe_weaken; [apply safe_point|]. intros iv [-> M] Al HA Set_ i L.
    destruct (abs_at A i Ic Al HA Set_ L) as (H & HW & Rx & V). rewrite V.
    destruct (bounded_ends ty env _ _ _ HW BA) as (F1 & F2 & Le). apply ir_equal_eq in Q; [|apply F1].
    destruct (equal_ends ty env _ _ _ HW Q) as (E1 & _ & E2). destruct (fine_abs (imax A) H F2 M) as [G E].
    eapply point_value; [exact G| |exact E]. rewrite E1, E2. reflexivity.
  - eapply safe_bind; [apply safe_make|]. intros hi. apply safe_give. intros [-> M] Al HA Set_ i L.
    destruct (abs_at A i Ic Al HA Set_ L) as (H & HW & Rx & V). rewrite V.
    apply within_bounds; [now apply zero_lower, H|now apply opposite_upper].
  - eapply safe_bind; [apply safe_make|]. intros hi. apply safe_give. intros [-> M] Al HA Set_ i L.
    destruct (abs_at A i Ic Al HA Set_ L) as (H & HW & Rx & V). rewrite V.
    apply within_bounds; [now apply zero_lower, H|now apply distances_upper].
Qed.
End Abs.

Section Absd.
Context (T : HType) (a b : Expr) (ct : CallType) (vi : Z).
Let t := element_of T.
Let Ta := element_of (type_of a).

Lemma absd_type x y u : int_type u = true -> type_of x = u -> element_of (type_of (absd_of x y)) = UInt (bits u) 1.
Proof.
  intros I <-. unfold absd_of, intrinsic. cbn [type_of]. destruct (is_int (type_of x)) eqn:J; [reflexivity|].
  destruct (int_type_code _ I) as [K|K]; [congruence|]. unfold element_of, with_lanes, is_uint in *. destruct (type_of x) as [c n l]. cbn in *. now destruct c.
Qed.

Lemma absd_node x y : wf_type Ta -> t = UInt (bits Ta) 1 -> fine_end Ta x -> fine_end Ta y ->
  wf_type t /\ absd_of x y = intrinsic t "absd" [x; y] /\ wf (absd_of x y) = true /\ type_of (absd_of x y) = t.
Proof.
  intros W Et (Wx & Tx & _) (Wy & _).
  assert (Tt : type_of (absd_of x y) = t).
  { rewrite Et, <- (absd_type x y Ta (proj1 W) Tx). symmetry. apply scalar_is_element. unfold absd_of, intrinsic. cbn [type_of].
    rewrite Tx. now destruct (is_int Ta). }
  assert (Wt : wf_type t) by (rewrite Et; apply wf_type_uint; [apply W|reflexivity]).
  assert (E : absd_of x y = intrinsic t "absd" [x; y]) by (rewrite <- Tt; reflexivity).
  split; [exact Wt|]. split; [exact E|]. split; [|exact Tt]. rewrite E. cbn [wf intrinsic forallb]. now rewrite Wx, Wy, (proj1 Wt).
Qed.

Lemma fine_absd x y : wf_type Ta -> t = UInt (bits Ta) 1 -> sane_env env -> fine_end Ta x -> fine_end Ta y -> everywhere ty env (absd_of x y) ->
  ev env 0 (absd_of x y) = Z.abs (ev env 0 x - ev env 0 y).
Proof.
  intros W Et D Fx Fy M. destruct (absd_node x y W Et Fx Fy) as (Wt & E & _). rewrite E in *.
  destruct (fine_intrinsic2 t "absd" x y Ta eq_refl Wt eq_refl Fx (proj1 Fy) ltac:(right; right; exact M)) as [_ V].
  rewrite V, (doc_absd env (env_documented env D)). apply cast_val_id; [apply Wt|]. rewrite Et.
  apply distance_in_uint; [apply W| |]; now apply (fine_range ty env Ta).
Qed.

(** The distances of opposite ends. *)
Lemma opposite_ends_upper A B' x y : wf_type Ta -> t = UInt (bits Ta) 1 -> sane_env env -> within Ta A x -> within Ta B' y ->
  is_bounded A = true -> is_bounded B' = true -> let hi := EBin Max (absd_of (imax A) (imin B')) (absd_of (imin A) (imax B')) in
  meant hi -> BoundsTrust.upper ty env t (Z.abs (x - y)) hi.
Proof.
  intros Wa Et D HA HB BA BB hi M. destruct (is_bounded_within ty env _ _ _ _ _ HA HB BA BB) as [(F1 & F2 & R1) (F3 & F4 & R2)].
  destruct (absd_node _ _ Wa Et F2 F3) as (_ & _ & W1 & T1), (absd_node _ _ Wa Et F1 F4) as (_ & _ & W2 & T2).
  assert (W : wf hi = true) by (unfold hi; cbn [wf]; now rewrite W1, W2, T1, T2, type_eqb_refl).
  pose proof (meant_everywhere ty env _ W M) as Em. pose proof (everywhere_children _ _ _ Em) as C. cbn [children hi] in C.
  apply Forall_cons_iff in C. destruct C as [C1 C]. apply Forall_cons_iff in C. destruct C as [C2 _].
  right. split; [split; [exact W|split; [exact T1|exact Em]]|]. unfold hi.
  change (ev env 0 (EBin Max ?u ?v)) with (Z.max (ev env 0 u) (ev env 0 v)). rewrite !fine_absd by assumption. lia.
Qed.

Lemma visit_absd_sound : is_intrinsic "absd" ct "absd" = true ->
  sound (ECall T "absd" [a; b] ct vi) (visit_absd visit t a b).
Proof.
  intros Ic. unfold visit_absd. destruct (is_float t); [apply safe_bad|].
  destruct (is_uint t && type_eqb (type_of a) (type_of b)) eqn:Ut; [|apply safe_bad]. cbn [negb].
  apply andb_true_iff in Ut. destruct Ut as [Ut Tb]. apply type_eqb_eq in Tb.
  eapply safe_bind; [now apply safe_visit|]. intros A. eapply safe_bind; [now apply safe_visit|]. intros B'.
  eapply safe_bind; [apply safe_rely|]. intros u. cbn [trusted]. change (element_of t) with t.
  destruct (is_bounded A && is_bounded B') eqn:Bd.
  2:{ apply safe_give. intros _ _ _ Set_. exact (settles_type ty env sc _ Set_). }
  apply andb_true_iff in Bd. destruct Bd as [BA BB]. eapply safe_bind; [apply safe_make|]. intros hi. apply safe_give.
  intros [-> M] Al HB HA Set_ i L. cbn [type_of] in *. fold t.
  pose proof (call_args _ _ _ _ _ i Set_ L) as F. apply Forall_cons_iff in F. destruct F as [[Sa La] F].
  apply Forall_cons_iff in F. destruct F as [[Sb Lb] _].
  pose proof (wf_type_element _ (wf_wf_type _ (settles_wf _ _ _ _ Sa))) as Wa. fold Ta in Wa.
  rewrite (absd_type a b (type_of a)) in Al; [|apply wf_wf_type, Sa|reflexivity]. symmetry in Al. change (bits (type_of a)) with (bits Ta) in Al.
  pose proof (HA Sa i La) as WA. pose proof (HB Sb i Lb) as WB. rewrite <- Tb in WB. fold Ta in WA, WB.
  pose proof (settles_range ty env sc a i Sa La) as Ra. pose proof (settles_range ty env sc b i Sb Lb) as Rb. rewrite <- Tb in Rb.
  rewrite <- in_type_element in Ra, Rb. fold Ta in Ra, Rb.
  pose proof (settles_sane _ _ _ _ Set_) as D. assert (Lk : is_likely "absd" ct = false) by (destruct ct; reflexivity).
  assert (Wt : wf_type t) by (rewrite Al; apply wf_type_uint; [apply Wa|reflexivity]).
  rewrite call_ev by exact Lk. cbn [map]. rewrite (doc_absd env (env_documented env D)), <- (cast_val_elt t T (same_elt_element T)).
  rewrite cast_val_id; [|apply Wt|rewrite Al; apply distance_in_uint; [apply Wa|exact Ra|exact Rb]].
  apply within_bounds; [now apply zero_lower|now apply opposite_ends_upper].
Qed.
End Absd.
End Visits.
