(* ===== verification/BoundsShift.v ===== *)
(** * Bounds of bit operations

    Shifts, conjunctions and disjunctions of bits, complements and counts. *)

From Stdlib Require Import ZArith Lia Bool List String.
From S2P Require Import Prelude.
From S2P Require Import IntArith.
From S2P Require Import HalideTypes.
From S2P Require Import Scope.
From S2P Require Import IR.
From S2P Require Import IREquality.
From S2P Require Import IRMatch.
From S2P Require Import Typing.
From S2P Require Import MatchSound.
From S2P Require Import MakeSound.
From S2P Require Import Visit.
From S2P Require Import Mutator.
From S2P Require Import Intrinsics.
From S2P Require Import SimplifyRun.
From S2P Require Import SimplifyNodes.
From S2P Require Import Interval.
From S2P Require Import Bounds.
From S2P Require Import BoundsTrust.
From S2P Require Import BoundsEnds.
From S2P Require Import BoundsArith.
From S2P Require Import BoundsProducts.
From S2P Require Import BoundsBits.
From S2P Require Import BoundsCall.
Import ListNotations.
Open Scope string_scope.
Open Scope list_scope.
Open Scope Z_scope.

Section Visits.
Context (can_prove : Expr -> bool) (same_as : Expr -> Expr -> bool).
Context (same_eq : forall a b, same_as a b = true -> a = b).
Context (visit : Expr -> B Interval) (Hv : visits_soundly visit).
Context (ty : string -> HType) (env : Env) (sc : Scope Interval) (constants : bool) (Ok : scope_ok sc).

Abbreviation safe := (safe ty env sc constants).
Abbreviation settles := (settles ty env sc).
Abbreviation encloses := (encloses ty env).
Abbreviation within := (within ty env).
Abbreviation fine_end := (fine_end ty env).
Abbreviation meant := (meant ty env).
Abbreviation sound e m := (BoundsTrust.safe ty env sc constants m (fun result => settles e -> encloses e result)).

(** ** Tests *)

Lemma safe_amount t b : safe (provable_amount can_prove t b) (fun ok => ok = true -> int_type t = true -> forall T, wf_type T -> is_scalar T = true ->
  fine_end T b -> 0 <= ev env 0 b < bits t).
Proof.
  eapply safe_weaken; [apply safe_proves|]. intros ok H E It T W S (Wb & Tb & _).
  assert (L : lane_in (type_of (EBin And (ECmp GE b (make_const (type_of b) 0)) (ECmp LT b (make_const (type_of b) (bits t))))) 0).
  { left. cbn [type_of]. rewrite Tb. exact S. }
  specialize (H E 0 L). cbn [ev evbin evcmp] in H. rewrite Tb in H.
  destruct (make_const_spec T 0 W) as [_ _ V0 _ _], (make_const_spec T (bits t) W) as [_ _ V1 _ _]. rewrite V0, V1 in H.
  apply b2z_nonzero, andb_true_iff in H. destruct H as [H1 H2]. unfold nz in *.
  apply negb_true_iff, Z.eqb_neq, b2z_nonzero, Z.leb_le in H1. apply negb_true_iff, Z.eqb_neq, b2z_nonzero, Z.ltb_lt in H2.
  pose proof (int_type_bits t It). pose proof (cast_val_le T (bits t) (proj1 W) ltac:(lia)). rewrite cast_val_0 in H1 by apply W. lia.
Qed.

Lemma safe_nonneg a : safe (provably_positive can_prove a) (fun ok => ok = true -> forall T, wf_type T -> is_scalar T = true ->
  fine_end T a -> 0 <= ev env 0 a).
Proof.
  eapply safe_weaken; [apply safe_proves|]. intros ok H E T W S (Wa & Ta & _).
  assert (L : lane_in (type_of (ECmp GE a (make_const (type_of a) 0))) 0) by (left; cbn [type_of]; rewrite Ta; exact S).
  specialize (H E 0 L). cbn [ev evcmp] in H. rewrite Ta in H. destruct (make_const_spec T 0 W) as [_ _ V0 _ _]. rewrite V0 in H.
  apply b2z_nonzero, Z.leb_le in H. rewrite cast_val_0 in H by apply W. lia.
Qed.

(** ** Shifts of ends *)

Lemma safe_make_shift name x y : is_likely name PureIntrinsic = false -> safe (make_shift name x y) (fun r => forall T T',
  wf_type T -> is_scalar T = true -> wf_type T' -> is_scalar T' = true -> fine_end T x -> fine_end T' y ->
  fine_end T r /\ ev env 0 r = cast_val T (ext env name T 0 [ev env 0 x; ev env 0 y])).
Proof.
  intros Lk. unfold make_shift. destruct (shift_amount x y) as [n|] eqn:N; [|apply safe_bad].
  eapply safe_bind; [apply safe_rely|]. intros u. eapply safe_weaken; [apply safe_make|]. cbn [trusted].
  intros r [-> M] Eq T T' W S W' S' F F'. pose proof F as (Wx & Tx & _). pose proof F' as (Wy & Ty & _).
  unfold shift_amount in N. rewrite Tx, Ty in *. apply lossless_spec in N.
  - destruct (fine_intrinsic2 ty env T name x n T Lk W S F (proj1 N) M) as [G E]. split; [exact G|]. rewrite E, (Eq 0); [reflexivity|now left].
  - exact Wy.
  - apply wf_type_uint; [apply W|]. apply W'.
  - rewrite Ty. reflexivity.
Qed.

Section Bits.
Context (T : HType) (name : string) (a b : Expr) (ct : CallType) (vi : Z) (Lk : is_likely name ct = false).
Let t := element_of T.
Let Tb := element_of (type_of b).
Let e := ECall T name [a; b] ct vi.

(** What is known of the operands. *)
Record operands (A B' : Interval) (i : Z) : Prop := {
  op_lane : lane_in (type_of a) i;
  op_amount_lane : lane_in (type_of b) i;
  op_type : wf_type t;
  op_amount_type : wf_type Tb;
  op_within : within t A (ev env i a);
  op_amount : within Tb B' (ev env i b);
  op_range : in_type t (ev env i a);
  op_amount_range : in_type Tb (ev env i b);
  op_settled : settles a;
  op_amount_settled : settles b;
  op_value : ev env i e = cast_val t (ext env name T (lane_of T i) [ev env i a; ev env i b]);
  op_documented : documented env
}.

Definition bit_operands A B' : Prop := element_of (type_of a) = t /\ settles e /\ encloses a A /\ encloses b B'.

Lemma operands_at A B' i : bit_operands A B' -> lane_in T i -> operands A B' i.
Proof.
  intros (Al & Set_ & HA & HB) L. pose proof (call_args ty env sc _ _ _ _ _ i Set_ L) as F. apply Forall_cons_iff in F. destruct F as [[Sa La] F].
  apply Forall_cons_iff in F. destruct F as [[Sb Lb] _].
  pose proof (wf_type_element _ (wf_wf_type _ (settles_wf _ _ _ _ Set_))) as Wt.
  split; try assumption.
  - apply wf_type_element, wf_wf_type, Sb.
  - rewrite <- Al. now apply HA.
  - now apply HB.
  - rewrite <- Al. apply in_type_element. now apply (settles_range ty env sc).
  - apply in_type_element. now apply (settles_range ty env sc).
  - unfold e. rewrite call_ev by exact Lk. symmetry. apply cast_val_elt, same_elt_element.
  - apply Set_.
Qed.

Lemma bit_type A B' : bit_operands A B' -> encloses e (bounds_of_type t).
Proof. intros (_ & Set_ & _). exact (settles_type ty env sc e Set_). Qed.

(** *** To the left *)

Lemma safe_make_shl x y : safe (make_shl x y) (fun r => wf_type t -> wf_type Tb -> documented env -> fine_end t x -> fine_end Tb y ->
  0 <= ev env 0 x /\ 0 <= ev env 0 y < bits t /\ fine_end t r /\ ev env 0 r = ev env 0 x * 2 ^ ev env 0 y).
Proof.
  unfold make_shl. eapply safe_bind; [apply safe_rely|]. intros u. eapply safe_bind; [apply safe_rely|]. intros u'.
  eapply safe_weaken; [now apply safe_make_shift|]. cbn [trusted]. intros r H Sh P Wt Wb D F F'.
  assert (Tx : type_of x = t) by apply F. rewrite Tx in Sh. destruct (Sh 0) as [Am R]; [left; reflexivity|].
  destruct (H t Tb Wt eq_refl Wb eq_refl F F') as [G E]. split; [exact P|]. split; [exact Am|]. split; [exact G|].
  rewrite E, (doc_shl env D) by exact Am. now apply cast_val_id; [apply Wt|].
Qed.
Lemma shifted_wide A B' : is_int t = true -> 32 <= bits t -> name = "shift_left" ->
  safe (shifted_left can_prove visit t a b A B' (bounds_of_type t)) (fun r => bit_operands A B' -> encloses e r).
Proof.
  intros It Bt N. unfold shifted_left. replace (is_int t && (32 <=? bits t)) with true by (symmetry; apply andb_true_iff; split; [exact It|now apply Z.leb_le]).
  eapply safe_bind; [apply safe_rely|]. intros u.
  eapply safe_bind with (Q := fun r => wf_type t -> wf_type Tb -> documented env -> forall x y, within t A x -> within Tb B' y ->
    BoundsTrust.lower ty env t (x * 2 ^ y) r \/ r = imin (bounds_of_type t)).
  { destruct (has_lower_bound A && has_lower_bound B') eqn:E; [|apply safe_give; auto]. apply andb_true_iff in E. destruct E as [E1 E2].
    eapply safe_bind with (Q := fun _ => True); [eapply safe_weaken; [apply safe_proves|]; auto|]. intros [|]; [|apply safe_give; auto].
    eapply safe_weaken; [apply safe_make_shl|]. intros r H _ Wt Wb D x y HA HB. left.
    destruct (lower_end ty env t A x HA) as [F1 L1|]; [|discriminate]. destruct (lower_end ty env Tb B' y HB) as [F2 L2|]; [|discriminate].
    destruct (H Wt Wb D F1 F2) as (P & Am & G & V). right. split; [exact G|]. rewrite V. apply shl_mono; lia. }
  intros lo. eapply safe_bind with (Q := fun r => wf_type t -> wf_type Tb -> documented env -> forall x y, 0 <= y -> within t A x -> within Tb B' y ->
    BoundsTrust.upper ty env t (x * 2 ^ y) r \/ r = imax (bounds_of_type t)).
  { destruct (has_upper_bound A && has_upper_bound B') eqn:E; [|apply safe_give; auto]. apply andb_true_iff in E. destruct E as [E1 E2].
    eapply safe_bind with (Q := fun _ => True); [eapply safe_weaken; [apply safe_proves|]; auto|]. intros [|]; [|apply safe_give; auto].
    eapply safe_weaken; [apply safe_make_shl|]. intros r H _ Wt Wb D x y Y HA HB. left.
    destruct (upper_end ty env t A x HA) as [F1 L1|]; [|discriminate]. destruct (upper_end ty env Tb B' y HB) as [F2 L2|]; [|discriminate].
    destruct (H Wt Wb D F1 F2) as (P & Am & G & V). right. split; [exact G|]. rewrite V. apply shl_mono_r; lia. }
  intros hi. apply safe_give. cbn [trusted]. intros Hh Hl Sh H i L. destruct (operands_at A B' i H L) as [La Lb Wt Wb HA HB Ra Rb Sa Sb V D].
  destruct (Sh i La) as [Am R]. destruct H as (Al & H). assert (Bits : bits (type_of a) = bits t) by (rewrite <- Al; reflexivity). rewrite Bits in Am.
  rewrite <- in_type_element, Al in R. destruct (settles_type ty env sc e (proj1 H) i L) as [TL TU]. change (type_of e) with T in TL, TU |- *. fold t in TL, TU |- *.
  assert (Ve : ev env i e = ev env i a * 2 ^ ev env i b).
  { rewrite V, N, (doc_shl env D) by exact Am. now apply cast_val_id; [apply Wt|]. }
  rewrite Ve in *. apply within_bounds.
  - destruct (Hl Wt Wb D _ _ HA HB) as [G| ->]; [exact G|exact TL].
  - destruct (Hh Wt Wb D _ _ (proj1 Am) HA HB) as [G| ->]; [exact G|exact TU].
Qed.
(** The product that is visited instead. *)
Lemma multiplied_value n A B' i : no_overflow_int t = false -> name = "shift_left" -> bit_operands A B' -> lane_in T i ->
  let one := intrinsic t "shift_left" [make_const t 1; n] in
  let equiv := EBin Mul a (if is_vector (type_of a) then Broadcast one (lanes (type_of a)) else one) in
  shift_amount (make_const t 1) b = Some n -> (forall j, lane_in (type_of b) j -> ev env j n = ev env j b) ->
  (forall j, lane_in (type_of b) j -> 0 <= ev env j b < bits t) -> meant equiv ->
  settles equiv /\ type_of equiv = type_of a /\ ev env i equiv = ev env i e.
Proof.
  intros No N H L one equiv Sh Eq Am M. destruct (operands_at A B' i H L) as [La Lb Wt Wb HA HB Ra Rb Sa Sb V D]. destruct H as (Al & Set_ & _).
  destruct (make_const_spec t 1 Wt) as [W1 T1 V1 _ _].
  unfold shift_amount in Sh. rewrite T1 in Sh. pose proof (settles_wf _ _ _ _ Sb) as Wfb. pose proof (wf_wf_type b Wfb) as Wtb.
  apply lossless_spec in Sh; [|exact Wfb|apply wf_type_uint; [apply Wt|apply Wtb]|reflexivity]. destruct Sh as [Wn Tn].
  assert (Wo : wf one = true) by (unfold one; cbn [wf intrinsic forallb]; rewrite W1, Wn, (proj1 Wt); reflexivity).
  pose proof (settles_wf _ _ _ _ Sa) as Wfa. pose proof (wf_wf_type a Wfa) as Wta.
  assert (Ty : type_of (if is_vector (type_of a) then Broadcast one (lanes (type_of a)) else one) = type_of a).
  { destruct (is_vector (type_of a)) eqn:Ve; cbn [type_of one intrinsic].
    - rewrite <- Al. destruct (type_of a). reflexivity.
    - rewrite <- Al. apply scalar_is_element. unfold is_vector, is_scalar in *. now apply negb_false_iff in Ve. }
  assert (We : wf equiv = true).
  { unfold equiv. cbn [wf]. rewrite Wfa, Ty, type_eqb_refl. destruct (is_vector (type_of a)) eqn:Ve; [|now rewrite Wo].
    change (wf (Broadcast one (lanes (type_of a)))) with (wf one && is_scalar t && vector_lanes (lanes (type_of a))). rewrite Wo. cbn [andb is_bool_op].
    destruct Wta as [_ Vl]. unfold valid_lanes, vector_lanes, is_vector in *. apply andb_true_iff in Vl. destruct Vl as [V2 V3]. rewrite V3.
    change (is_scalar t) with true. cbn [andb]. replace (1 <? lanes (type_of a)) with true; [reflexivity|]. apply Z.leb_le in V2.
    apply negb_true_iff, Z.eqb_neq in Ve. symmetry. apply Z.ltb_lt. lia. }
  assert (Me : everywhere ty env equiv) by now apply meant_everywhere.
  split; [split; [exact We|exact Me|apply Set_|apply Set_]|]. split; [reflexivity|].
  assert (Vo : forall j, ev env j one = cast_val t (ext env "shift_left" t (lane_of t j) [1; ev env j n])).
  { intros j. unfold one, intrinsic. rewrite call_ev by reflexivity. cbn [map]. rewrite V1. f_equal. f_equal. f_equal.
    apply cast_val_id; [apply Wt|]. pose proof (tmin_tmax_width t (proj1 Wt)). unfold in_type. lia. }
  assert (Vm : ev env i equiv = norm t (ev env i a * ev env i one)).
  { unfold equiv. cbn [ev evbin]. rewrite <- (norm_elt _ _ (same_elt_element (type_of a))), Al.
    destruct (is_vector (type_of a)); reflexivity. }
  rewrite Vm, V, N, Vo, (Eq i Lb). specialize (Am i Lb). rewrite !(doc_shl env D) by exact Am.
  replace (cast_val t (1 * 2 ^ ev env i b)) with (norm t (1 * 2 ^ ev env i b)) by (unfold norm; now rewrite No).
  rewrite norm_mul_r by apply Wt. unfold norm. rewrite No. f_equal. lia.
Qed.

Lemma shifted_left_sound A B' : name = "shift_left" ->
  safe (shifted_left can_prove visit t a b A B' (bounds_of_type t)) (fun r => bit_operands A B' -> encloses e r).
Proof.
  intros N. destruct (is_int t && (32 <=? bits t)) eqn:O.
  { apply andb_true_iff in O. destruct O as [O1 O2]. apply shifted_wide; auto. now apply Z.leb_le. }
  unfold shifted_left. rewrite O. destruct (is_const b); [|apply safe_give; apply bit_type].
  destruct (shift_amount (make_const t 1) b) as [n|] eqn:Sh; [|apply safe_bad].
  eapply safe_bind; [apply safe_rely|]. intros u. eapply safe_bind; [apply safe_rely|]. intros u'. eapply safe_bind; [apply safe_rely|].
  intros u''. eapply safe_weaken; [now apply safe_visit|]. cbn [trusted]. intros iv HE M Am Eq H i L. cbn [type_of e] in L.
  destruct (multiplied_value n A B' i O N H L Sh Eq Am M) as (Se & Te & Ve). destruct (operands_at A B' i H L) as [La].
  specialize (HE Se i). rewrite Te, Ve in HE. destruct H as (Al & _). rewrite Al in HE. now apply HE.
Qed.

(** *** To the right *)

Lemma safe_make_shr x y : safe (make_shift "shift_right" x y) (fun r => wf_type t -> wf_type Tb -> documented env -> fine_end t x -> fine_end Tb y ->
  0 <= ev env 0 y < bits t -> fine_end t r /\ ev env 0 r = ev env 0 x / 2 ^ ev env 0 y).
Proof.
  eapply safe_weaken; [now apply safe_make_shift|]. intros r H Wt Wb D F F' Am.
  destruct (H t Tb Wt eq_refl Wb eq_refl F F') as [G E]. split; [exact G|].
  rewrite E, (doc_shr env D) by exact Am. apply cast_val_id; [apply Wt|]. apply shiftr_in_type; [apply Wt| |lia].
  now apply (fine_range ty env t).
Qed.

(** A shift of an end by both amounts. *)
Lemma safe_both op x y z : op = Min \/ op = Max -> safe (let! u := make_shift "shift_right" x y in let! v := make_shift "shift_right" x z in make_bound (EBin op u v))
  (fun r => wf_type t -> wf_type Tb -> documented env -> fine_end t x -> fine_end Tb y -> fine_end Tb z ->
    0 <= ev env 0 y < bits t -> 0 <= ev env 0 z < bits t ->
    fine_end t r /\ ev env 0 r = evbin op t (ev env 0 x / 2 ^ ev env 0 y) (ev env 0 x / 2 ^ ev env 0 z)).
Proof.
  intros O. eapply safe_bind; [apply safe_make_shr|]. intros u. eapply safe_bind; [apply safe_make_shr|]. intros v.
  eapply safe_weaken; [apply safe_make|]. intros r [-> M] Hv' Hu Wt Wb D F F1 F2 A1 A2.
  destruct (Hu Wt Wb D F F1 A1) as [G1 E1], (Hv' Wt Wb D F F2 A2) as [G2 E2]. rewrite <- E1, <- E2.
  apply fine_bin; auto. now destruct O as [-> | ->].
Qed.

Lemma shr_lower A B' x y r1 r2 : 0 <= y -> r1 <= y <= r2 -> 0 <= r1 -> A <= x -> B' = A / 2 ^ r2 ->
  (0 <= A -> B' <= x / 2 ^ y) /\ Z.min (A / 2 ^ r1) B' <= x / 2 ^ y.
Proof.
  intros Y R R1 L ->. pose proof (shr_mono x A y Y L). destruct (shr_amounts A y r2 ltac:(lia)) as [P _], (shr_amounts A r1 y ltac:(lia)) as [_ Q].
  destruct (Z.lt_ge_cases A 0); [specialize (Q ltac:(lia))|specialize (P ltac:(lia))]; lia.
Qed.

Lemma shr_upper A B' x y r1 r2 : 0 <= y -> r1 <= y <= r2 -> 0 <= r1 -> x <= A -> B' = A / 2 ^ r1 ->
  (0 <= A -> x / 2 ^ y <= B') /\ x / 2 ^ y <= Z.max (A / 2 ^ r2) B'.
Proof.
  intros Y R R1 L ->. pose proof (shr_mono A x y Y L). destruct (shr_amounts A y r2 ltac:(lia)) as [_ Q], (shr_amounts A r1 y ltac:(lia)) as [P _].
  destruct (Z.lt_ge_cases A 0); [specialize (Q ltac:(lia))|specialize (P ltac:(lia))]; lia.
Qed.
(** What is tested of the amounts. *)
Definition amount_ok (x : Expr) (ok : bool) : Prop :=
  ok = true -> int_type t = true -> forall T, wf_type T -> is_scalar T = true -> fine_end T x -> 0 <= ev env 0 x < bits t.

Lemma safe_right_lower A B' (lo_ok hi_ok : bool) d : safe (if has_lower_bound A then
      let! positive := provably_positive can_prove (imin A) in
      if (positive : bool) && (hi_ok : bool) then make_shift "shift_right" (imin A) (imax B')
      else if (lo_ok : bool) && hi_ok then
        let! x := make_shift "shift_right" (imin A) (imin B') in
        let! y := make_shift "shift_right" (imin A) (imax B') in
        make_bound (EBin Min x y)
      else give d
    else give d)
  (fun r => amount_ok (imin B') lo_ok -> amount_ok (imax B') hi_ok -> wf_type Tb -> documented env ->
    forall x y, 0 <= y -> is_bounded B' = true -> within t A x -> within Tb B' y -> wf_type t ->
    r = d \/ BoundsTrust.lower ty env t (x / 2 ^ y) r).
Proof.
  destruct (has_lower_bound A) eqn:HL; [|apply safe_give; auto].
  eapply safe_bind; [apply safe_nonneg|]. intros positive. destruct (positive && hi_ok) eqn:E1; [|destruct (lo_ok && hi_ok) eqn:E2; [|apply safe_give; auto]].
  - apply andb_true_iff in E1. destruct E1 as [-> ->]. eapply safe_weaken; [apply safe_make_shr|]. intros r H P _ O2 Wb D x y Y BB HA HB Wt.
    right. destruct (lower_end ty env t A x HA) as [F1 L1|]; [|discriminate]. destruct (bounded_ends ty env _ _ _ HB BB) as (F3 & F4 & R).
    specialize (O2 eq_refl (proj1 Wt) Tb Wb eq_refl F4). specialize (P eq_refl t Wt eq_refl F1). destruct (H Wt Wb D F1 F4 O2) as [G V].
    right. split; [exact G|]. rewrite V. pose proof (shr_mono x (ev env 0 (imin A)) y Y L1).
    destruct (shr_amounts (ev env 0 (imin A)) y (ev env 0 (imax B')) ltac:(lia)) as [Q _]. specialize (Q P). lia.
  - apply andb_true_iff in E2. destruct E2 as [-> ->]. eapply safe_weaken; [apply safe_both; auto|]. intros r H P O1 O2 Wb D x y Y BB HA HB Wt.
    right. destruct (lower_end ty env t A x HA) as [F1 L1|]; [|discriminate]. destruct (bounded_ends ty env _ _ _ HB BB) as (F3 & F4 & R).
    specialize (O1 eq_refl (proj1 Wt) Tb Wb eq_refl F3). specialize (O2 eq_refl (proj1 Wt) Tb Wb eq_refl F4). destruct (H Wt Wb D F1 F3 F4 O1 O2) as [G V].
    right. split; [exact G|]. rewrite V. cbn [evbin]. apply (shr_lower (ev env 0 (imin A)) _ x y (ev env 0 (imin B')) (ev env 0 (imax B'))); auto; lia.
Qed.

Lemma safe_right_upper A B' (lo_ok hi_ok : bool) d : safe (if has_upper_bound A then
      let! positive := provably_positive can_prove (imax A) in
      if (positive : bool) && (lo_ok : bool) then make_shift "shift_right" (imax A) (imin B')
      else if (lo_ok : bool) && hi_ok then
        let! x := make_shift "shift_right" (imax A) (imax B') in
        let! y := make_shift "shift_right" (imax A) (imin B') in
        make_bound (EBin Max x y)
      else give d
    else give d)
  (fun r => amount_ok (imin B') lo_ok -> amount_ok (imax B') hi_ok -> wf_type Tb -> documented env ->
    forall x y, 0 <= y -> is_bounded B' = true -> within t A x -> within Tb B' y -> wf_type t ->
    r = d \/ BoundsTrust.upper ty env t (x / 2 ^ y) r).
Proof.
  destruct (has_upper_bound A) eqn:HL; [|apply safe_give; auto].
  eapply safe_bind; [apply safe_nonneg|]. intros positive. destruct (positive && lo_ok) eqn:E1; [|destruct (lo_ok && hi_ok) eqn:E2; [|apply safe_give; auto]].
  - apply andb_true_iff in E1. destruct E1 as [-> ->]. eapply safe_weaken; [apply safe_make_shr|]. intros r H P O1 _ Wb D x y Y BB HA HB Wt.
    right. destruct (upper_end ty env t A x HA) as [F1 L1|]; [|discriminate]. destruct (bounded_ends ty env _ _ _ HB BB) as (F3 & F4 & R).
    specialize (O1 eq_refl (proj1 Wt) Tb Wb eq_refl F3). specialize (P eq_refl t Wt eq_refl F1). destruct (H Wt Wb D F1 F3 O1) as [G V].
    right. split; [exact G|]. rewrite V. pose proof (shr_mono (ev env 0 (imax A)) x y Y L1).
    destruct (shr_amounts (ev env 0 (imax A)) (ev env 0 (imin B')) y ltac:(lia)) as [Q _]. specialize (Q P). lia.
  - apply andb_true_iff in E2. destruct E2 as [-> ->]. eapply safe_weaken; [apply safe_both; auto|]. intros r H P O1 O2 Wb D x y Y BB HA HB Wt.
    right. destruct (upper_end ty env t A x HA) as [F1 L1|]; [|discriminate]. destruct (bounded_ends ty env _ _ _ HB BB) as (F3 & F4 & R).
    specialize (O1 eq_refl (proj1 Wt) Tb Wb eq_refl F3). specialize (O2 eq_refl (proj1 Wt) Tb Wb eq_refl F4). destruct (H Wt Wb D F1 F4 F3 O2 O1) as [G V].
    right. split; [exact G|]. rewrite V. cbn [evbin]. apply (shr_upper (ev env 0 (imax A)) _ x y (ev env 0 (imin B')) (ev env 0 (imax B'))); auto; lia.
Qed.

Lemma shifted_right_sound A B' : name = "shift_right" ->
  safe (shifted_right can_prove t b A B' (bounds_of_type t)) (fun r => bit_operands A B' -> encloses e r).
Proof.
  intros N. unfold shifted_right. destruct (is_bounded B') eqn:BB; [|apply safe_give; apply bit_type].
  eapply safe_bind; [apply safe_rely|]. intros u. eapply safe_bind; [apply safe_amount|]. intros lo_ok. eapply safe_bind; [apply safe_amount|]. intros hi_ok.
  cbv zeta. eapply safe_bind; [apply safe_right_lower|]. intros lo. eapply safe_bind; [apply safe_right_upper|]. intros hi. apply safe_give.
  cbn [trusted]. intros Hh Hl O2 O1 Am H i L. cbn [type_of e] in L. destruct (operands_at A B' i H L) as [La Lb Wt Wb HA HB Ra Rb Sa Sb V D].
  destruct (settles_type ty env sc e (proj1 (proj2 H)) i L) as [TL TU]. change (type_of e) with T in TL, TU |- *. fold t in TL, TU |- *.
  specialize (Am i Lb). assert (Ve : ev env i e = ev env i a / 2 ^ ev env i b).
  { rewrite V, N, (doc_shr env D) by exact Am. apply cast_val_id; [apply Wt|]. apply shiftr_in_type; [apply Wt|exact Ra|lia]. }
  rewrite Ve in *. clear V Ve.
  apply within_bounds.
  - destruct (Hl O1 O2 Wb D _ _ (proj1 Am) BB HA HB Wt) as [-> |G]; [exact TL|exact G].
  - destruct (Hh O1 O2 Wb D _ _ (proj1 Am) BB HA HB Wt) as [-> |G]; [exact TU|exact G].
Qed.

(** *** Conjunction and disjunction *)

Lemma both_at A B' i : element_of (type_of b) = t -> operands A B' i -> within t B' (ev env i b) /\ in_type t (ev env i b).
Proof. intros Al [La Lb Wt Wb HA HB Ra Rb Sa Sb V D]. unfold Tb in *. rewrite Al in *. now split. Qed.

Lemma provable_end A x : within t A x -> wf_type t -> forall ok : bool,
  (ok = true -> has_lower_bound A = true /\ forall T, wf_type T -> is_scalar T = true -> fine_end T (imin A) -> 0 <= ev env 0 (imin A)) ->
  ok = true -> 0 <= x.
Proof.
  intros H Wt ok P E. destruct (P E) as [L Q]. destruct (lower_end ty env t A x H) as [F Le|]; [|discriminate].
  specialize (Q t Wt eq_refl F). lia.
Qed.

Lemma safe_provable_end A : safe (if has_lower_bound A then provably_positive can_prove (imin A) else give false) (fun ok : bool =>
  ok = true -> has_lower_bound A = true /\ forall T, wf_type T -> is_scalar T = true -> fine_end T (imin A) -> 0 <= ev env 0 (imin A)).
Proof. destruct (has_lower_bound A); [|apply safe_give; discriminate]. eapply safe_weaken; [apply safe_nonneg|]. intros ok H E. split; [reflexivity|now apply H]. Qed.

Lemma conjoined_sound A B' : name = "bitwise_and" ->
  safe (conjoined can_prove t A B' (bounds_of_type t)) (fun r => element_of (type_of b) = t -> bit_operands A B' -> encloses e r).
Proof.
  intros N. unfold conjoined. destruct (has_upper_bound A && has_upper_bound B') eqn:U; [|apply safe_give; intros _; apply bit_type].
  eapply safe_bind; [apply safe_provable_end|]. intros pa. eapply safe_bind; [apply safe_provable_end|]. intros pb.
  assert (K : forall i, element_of (type_of b) = t -> bit_operands A B' -> lane_in T i -> wf_type t /\ within t A (ev env i a) /\ within t B' (ev env i b) /\
    ev env i e = Z.land (ev env i a) (ev env i b) /\ (fine_end t (imax A) /\ fine_end t (imax B')) /\
    ev env i a <= ev env 0 (imax A) /\ ev env i b <= ev env 0 (imax B') /\ BoundsTrust.lower ty env t (ev env i e) (imin (bounds_of_type t))).
  { intros i Al H L. pose proof (operands_at A B' i H L) as P. destruct (both_at A B' i Al P) as [HB Rb]. destruct P as [La Lb Wt Wb HA _ Ra _ Sa Sb V D].
    pose proof (both_upper ty env _ _ _ _ _ HA HB U) as (F & U1 & U2). split; [exact Wt|]. split; [exact HA|]. split; [exact HB|].
    destruct (settles_type ty env sc e (proj1 (proj2 H)) i L) as [TL _]. split; [|auto].
    rewrite V, N, (doc_and env D). apply cast_val_id; [apply Wt|]. apply land_in_type; auto. apply Wt. }
  assert (Z0 : forall v, 0 <= v -> wf_type t -> BoundsTrust.lower ty env t v (make_zero t)).
  { intros v P Wt. destruct (fine_zero ty env t Wt eq_refl) as [F E]. right. split; [exact F|]. now rewrite E. }
  destruct (pa && pb) eqn:P; [|destruct (is_int t); [destruct pb; [|destruct pa]|apply safe_give; intros _ _ _; apply bit_type]].
  - apply andb_true_iff in P. destruct P as [-> ->]. eapply safe_bind; [apply safe_make|]. intros hi. apply safe_give.
    intros [-> M] Pb Pa Al H i L. destruct (K i Al H L) as (Wt & HA & HB & V & (F1 & F2) & U1 & U2 & TL).
    pose proof (provable_end A _ HA Wt true Pa eq_refl). pose proof (provable_end B' _ HB Wt true Pb eq_refl).
    destruct (fine_bin ty env t Min _ _ eq_refl F1 F2 M) as [G E]. change (element_of (type_of e)) with t. rewrite V.
    apply within_bounds; [apply Z0; [apply Z.land_nonneg; auto|exact Wt]|]. right. split; [exact G|]. rewrite E. cbn [evbin].
    pose proof (land_le_r (ev env i a) (ev env i b) ltac:(lia)). pose proof (land_le_r (ev env i b) (ev env i a) ltac:(lia)) as Q.
    rewrite Z.land_comm in Q. lia.
  - apply safe_give. intros Pb _ Al H i L. destruct (K i Al H L) as (Wt & HA & HB & V & (F1 & F2) & U1 & U2 & TL).
    pose proof (provable_end B' _ HB Wt true Pb eq_refl). change (element_of (type_of e)) with t. rewrite V.
    apply within_bounds; [apply Z0; [apply Z.land_nonneg; auto|exact Wt]|]. right. split; [exact F2|].
    pose proof (land_le_r (ev env i a) (ev env i b) ltac:(lia)). lia.
  - apply safe_give. intros _ Pa Al H i L. destruct (K i Al H L) as (Wt & HA & HB & V & (F1 & F2) & U1 & U2 & TL).
    pose proof (provable_end A _ HA Wt true Pa eq_refl). change (element_of (type_of e)) with t. rewrite V.
    apply within_bounds; [apply Z0; [apply Z.land_nonneg; auto|exact Wt]|]. right. split; [exact F1|].
    pose proof (land_le_r (ev env i b) (ev env i a) ltac:(lia)) as Q. rewrite Z.land_comm in Q. lia.
  - eapply safe_bind; [apply safe_make|]. intros hi. apply safe_give. intros [-> M] _ _ Al H i L.
    destruct (K i Al H L) as (Wt & HA & HB & V & (F1 & F2) & U1 & U2 & TL). change (element_of (type_of e)) with t.
    destruct (fine_bin ty env t Max _ _ eq_refl F1 F2 M) as [G E]. apply within_bounds; [exact TL|]. right. split; [exact G|].
    rewrite V, E. cbn [evbin]. pose proof (land_le_max (ev env i a) (ev env i b)). lia.
Qed.

Lemma disjoined_sound A B' : name = "bitwise_or" ->
  safe (disjoined t A B' (bounds_of_type t)) (fun r => element_of (type_of b) = t -> bit_operands A B' -> encloses e r).
Proof.
  intros N. unfold disjoined. destruct (has_lower_bound A && has_lower_bound B') eqn:U; [|apply safe_give; intros _; apply bit_type].
  assert (K : forall i, element_of (type_of b) = t -> bit_operands A B' -> lane_in T i -> wf_type t /\ in_type t (ev env i a) /\ in_type t (ev env i b) /\
    ev env i e = Z.lor (ev env i a) (ev env i b) /\ (fine_end t (imin A) /\ fine_end t (imin B')) /\
    ev env 0 (imin A) <= ev env i a /\ ev env 0 (imin B') <= ev env i b /\ BoundsTrust.upper ty env t (ev env i e) (imax (bounds_of_type t))).
  { intros i Al H L. pose proof (operands_at A B' i H L) as P. destruct (both_at A B' i Al P) as [HB Rb]. destruct P as [La Lb Wt Wb HA _ Ra _ Sa Sb V D].
    pose proof (both_lower ty env _ _ _ _ _ HA HB U) as (F & U1 & U2). split; [exact Wt|]. split; [exact Ra|]. split; [exact Rb|].
    destruct (settles_type ty env sc e (proj1 (proj2 H)) i L) as [_ TU]. split; [|auto].
    rewrite V, N, (doc_or env D). apply cast_val_id; [apply Wt|]. apply lor_in_type; auto. apply Wt. }
  destruct (is_int t); [|destruct (is_uint t) eqn:Ut; [|apply safe_give; intros _; apply bit_type]]; (eapply safe_bind; [apply safe_make|]); intros lo; apply safe_give;
    intros [-> M] Al H i L; destruct (K i Al H L) as (Wt & Ra & Rb & V & (F1 & F2) & U1 & U2 & TU); change (element_of (type_of e)) with t.
  - destruct (fine_bin ty env t Min _ _ eq_refl F1 F2 M) as [G E]. apply within_bounds; [|exact TU]. right. split; [exact G|].
    rewrite V, E. cbn [evbin]. pose proof (min_le_lor (ev env i a) (ev env i b)). lia.
  - destruct (fine_bin ty env t Max _ _ eq_refl F1 F2 M) as [G E]. apply within_bounds; [|exact TU]. right. split; [exact G|].
    rewrite V, E. cbn [evbin]. pose proof (uint_nonneg t t _ eq_refl Ut Ra). pose proof (uint_nonneg t t _ eq_refl Ut Rb).
    pose proof (max_le_lor (ev env i a) (ev env i b)). lia.
Qed.
(** *** The visit *)

Lemma visit_bits_sound : sound e (visit_bits can_prove same_as visit e T name ct a b).
Proof.
  unfold visit_bits. fold t. eapply safe_bind; [now apply safe_visit|]. intros A. eapply safe_bind; [now apply safe_visit|]. intros B'.
  eapply safe_bind; [apply safe_rely|]. intros u. cbn [trusted]. change (element_of t) with t.
  assert (K : forall m, safe m (fun r => bit_operands A B' -> encloses e r) -> safe m (fun r => element_of (type_of a) = element_of T ->
    (settles b -> encloses b B') -> (settles a -> encloses a A) -> settles e -> encloses e r)).
  { intros m H. eapply safe_weaken; [exact H|]. intros r G Al HB HA Set_. apply G. split; [exact Al|]. split; [exact Set_|].
    split; [apply HA|apply HB]; apply (settles_child ty env sc e); cbn; auto. }
  change (element_of T) with t in K |- *. apply K. clear K.
  destruct (is_point_of same_as A a && is_point_of same_as B' b).
  { eapply safe_bind; [apply safe_rely|]. intros u'. eapply safe_weaken; [apply safe_point|]. cbn [trusted]. intros iv [-> _] S (_ & Set_ & _).
    now apply (point_encloses ty env sc). }
  destruct (is_point same_as A && is_point same_as B') eqn:P.
  { apply andb_true_iff in P. destruct P as [PA PB]. eapply safe_bind; [apply safe_rely|]. intros u'. eapply safe_weaken; [apply safe_point|].
    cbn [trusted]. intros iv [-> M] S H i L. destruct (operands_at A B' i H L) as [La Lb Wt Wb HA HB Ra Rb Sa Sb V D].
    destruct (point_ends ty env same_as same_eq _ _ _ HA PA) as (_ & Fa & Va), (point_ends ty env same_as same_eq _ _ _ HB PB) as (_ & Fb & Vb).
    change (type_of e) with T. fold t. assert (Et : t = T) by now apply scalar_is_element.
    destruct (fine_call ty env T name [imin A; imin B'] ct 0 Lk) as [G E]; [now rewrite <- Et|exact S|cbn; now rewrite (proj1 Fa), (proj1 Fb)|exact M|].
    rewrite Et. eapply point_value; [exact G| |exact E]. cbn [map]. rewrite V, Va, Vb, Et. now rewrite scalar_lane by exact S. }
  destruct (is_int t || is_uint t) eqn:I; [|apply safe_give; apply bit_type].
  destruct (String.eqb_spec name "shift_left"); [now apply shifted_left_sound|].
  destruct (String.eqb_spec name "shift_right"); [now apply shifted_right_sound|].
  destruct (String.eqb_spec name "bitwise_and").
  { eapply safe_bind; [apply safe_rely|]. intros u'. eapply safe_weaken; [now apply conjoined_sound|]. auto. }
  destruct (String.eqb_spec name "bitwise_or").
  { eapply safe_bind; [apply safe_rely|]. intros u'. eapply safe_weaken; [now apply disjoined_sound|]. auto. }
  apply safe_give, bit_type.
Qed.
End Bits.

(** ** Complements *)

(** Complements turn the values of a type around. *)
Lemma complement_value t x : int_type t = true -> in_type t x -> cast_val t (Z.lnot x) = tmin t + tmax t - x.
Proof.
  intros I R. pose proof (int_type_bits t I) as B. rewrite (wrap_congruent t (Z.lnot x) (tmin t + tmax t - x) (if is_int t then 0 else -1) I).
  - apply cast_val_id; [exact I|]. unfold in_type in *. lia.
  - unfold tmin, tmax, Z.lnot. destruct (is_int t); lia.
Qed.

Lemma visit_bit_not_sound T a ct vi : is_likely "bitwise_not" ct = false ->
  sound (ECall T "bitwise_not" [a] ct vi) (visit_bit_not same_as visit (ECall T "bitwise_not" [a] ct vi) T a).
Proof.
  intros Lk. set (e := ECall T "bitwise_not" [a] ct vi). set (t := element_of T). unfold visit_bit_not. fold t.
  eapply safe_bind; [now apply safe_visit|]. intros A. eapply safe_bind; [apply safe_rely|]. intros u. cbn [trusted]. fold t.
  assert (K : element_of (type_of a) = t -> (settles a -> encloses a A) -> settles e -> forall i, lane_in T i ->
    wf_type t /\ within t A (ev env i a) /\ in_type t (ev env i a) /\ documented env /\ ev env i e = tmin t + tmax t - ev env i a).
  { intros Al HA Set_ i L. pose proof (call_args ty env sc _ _ _ _ _ i Set_ L) as F. apply Forall_cons_iff in F. destruct F as [[Sa La] _].
    pose proof (wf_type_element _ (wf_wf_type _ (settles_wf _ _ _ _ Set_))) as Wt. change (element_of (type_of e)) with t in Wt.
    pose proof (settles_range ty env sc a i Sa La) as Ra. rewrite <- in_type_element, Al in Ra.
    assert (D : documented env) by apply Set_. split; [exact Wt|]. split; [rewrite <- Al; now apply HA|]. split; [exact Ra|]. split; [exact D|].
    unfold e. rewrite call_ev by exact Lk. cbn [map]. rewrite (doc_not env D), <- (cast_val_elt t T (same_elt_element T)).
    apply complement_value; [apply Wt|exact Ra]. }
  assert (N : forall x, wf_type t -> documented env -> fine_end t x -> meant (bit_not x) ->
    fine_end t (bit_not x) /\ ev env 0 (bit_not x) = tmin t + tmax t - ev env 0 x).
  { intros x W D F M. unfold bit_not in *. pose proof F as (_ & Tx & _). rewrite Tx in *.
    destruct (fine_intrinsic1 ty env t "bitwise_not" x t eq_refl W eq_refl F M) as [G E]. split; [exact G|]. rewrite E, (doc_not env D).
    apply complement_value; [apply W|]. now apply (fine_range ty env t). }
  destruct (is_point_of same_as A a).
  { eapply safe_bind; [apply safe_rely|]. intros u'. eapply safe_weaken; [apply safe_point|]. cbn [trusted]. intros iv [-> _] S _ _ Set_.
    now apply (point_encloses ty env sc). }
  destruct (is_point same_as A) eqn:P.
  { eapply safe_weaken; [apply safe_point|]. intros iv [-> M] Al HA Set_ i L. destruct (K Al HA Set_ i L) as (W & HW & R & D & V).
    destruct (point_ends ty env same_as same_eq _ _ _ HW P) as (_ & Fa & Va). destruct (N _ W D Fa M) as [G E].
    eapply point_value; [exact G| |exact E]. now rewrite V, Va. }
  destruct (is_int T || is_uint T); [|apply safe_give; intros _ _ Set_; exact (settles_type ty env sc e Set_)].
  eapply safe_bind with (Q := fun r => if has_upper_bound A then r = bit_not (imax A) /\ meant (bit_not (imax A)) else r = imin (bounds_of_type t)).
  { destruct (has_upper_bound A); [apply safe_make|now apply safe_give]. }
  intros lo. eapply safe_bind with (Q := fun r => if has_lower_bound A then r = bit_not (imin A) /\ meant (bit_not (imin A)) else r = imax (bounds_of_type t)).
  { destruct (has_lower_bound A); [apply safe_make|now apply safe_give]. }
  intros hi. apply safe_give. intros Hh Hl Al HA Set_ i L. destruct (K Al HA Set_ i L) as (W & HW & R & D & V).
  destruct (settles_type ty env sc e Set_ i L) as [TL TU]. change (type_of e) with T in TL, TU |- *. fold t in TL, TU |- *. rewrite V in *.
  apply within_bounds.
  - destruct (upper_end ty env t A _ HW) as [F U|]; [|subst lo; exact TL]. destruct Hl as [-> M]. destruct (N _ W D F M) as [G E].
    right. split; [exact G|]. lia.
  - destruct (lower_end ty env t A _ HW) as [F U|]; [|subst hi; exact TU]. destruct Hh as [-> M]. destruct (N _ W D F M) as [G E].
    right. split; [exact G|]. lia.
Qed.

(** ** Counts *)

Lemma word_range b x : in_type (UInt b 1) x -> 0 <= x < 2 ^ b.
Proof.
  unfold in_type, tmin, tmax. change (is_int (UInt b 1)) with false. change (bits (UInt b 1)) with b. cbv iota. lia.
Qed.

Lemma count_in_type t c u : int_type t = true -> in_type t (counted c (bits t) u) /\ 0 <= counted c (bits t) u <= bits t.
Proof.
  intros I. pose proof (int_type_bits t I) as B. pose proof (counted_range c (bits t) u ltac:(lia)) as R. split; [|exact R].
  pose proof (bits_in_type t I) as Rb. pose proof (tmin_tmax_width t I). unfold in_type in *. lia.
Qed.

(** A count of the bits of an end, cast. *)
Lemma fine_leading t U x : wf_type t -> is_scalar t = true -> U = UInt (bits t) 1 -> documented env -> fine_end U x ->
  let r := cast t (intrinsic (type_of x) "count_leading_zeros" [x]) in meant r ->
  fine_end t r /\ ev env 0 r = counted Leading (bits t) (ev env 0 x).
Proof.
  intros Wt S EU D F r M. pose proof F as (Wx & Tx & _). unfold r in *. clear r. rewrite Tx in *.
  assert (WU : wf_type U) by (subst U; apply wf_type_uint; [apply Wt|reflexivity]).
  assert (SU : is_scalar U = true) by now subst U.
  set (n := intrinsic U "count_leading_zeros" [x]) in *.
  assert (Wn : wf n = true) by (unfold n; cbn [wf intrinsic forallb]; rewrite Wx, (proj1 WU), (proj2 WU); reflexivity).
  assert (Vn : ev env 0 n = counted Leading (bits t) (ev env 0 x)).
  { unfold n, intrinsic. rewrite call_ev by reflexivity. cbn [map]. pose proof (doc_count env D Leading) as Dc. cbn [count_name] in Dc. rewrite Dc.
    assert (Bu : bits U = bits t) by now subst U. rewrite Bu. pose proof (fine_range ty env U x F SU) as R.
    replace (wrap_u (bits t) (ev env 0 x)) with (ev env 0 x); [|rewrite <- Bu; rewrite EU in R |- *; symmetry; exact (cast_val_id _ _ (proj1 (wf_type_uint t 1 (proj1 Wt) eq_refl)) R)].
    rewrite <- Bu. apply cast_val_id; [apply WU|]. apply count_in_type, WU. }
  assert (Rn : in_type t (ev env 0 n)) by (rewrite Vn; apply count_in_type, Wt).
  destruct (cast_ok t n Wn Wt (or_intror SU)) as (Wr & Tr & Vr & _).
  split; [split; [exact Wr|split; [exact Tr|now apply meant_everywhere]]|]. rewrite Vr, <- Vn. unfold cast_to.
  destruct (type_eqb _ _); [reflexivity|]. apply cast_val_id; [apply Wt|exact Rn].
Qed.

(** The number of bits counted in a lane, and what it is counted in. *)
Lemma count_value T c a ct vi i (e := ECall T (count_name c) [a] ct vi) (t := element_of T) : is_likely (count_name c) ct = false ->
  element_of (type_of a) = t -> settles e -> lane_in T i -> settles a /\ lane_in (type_of a) i /\
  (lanes (type_of a) = lanes T \/ is_scalar (type_of a) = true) /\ wf_type t /\ in_type t (ev env i a) /\ documented env /\
  ev env i e = counted c (bits t) (wrap_u (bits t) (ev env i a)).
Proof.
  intros Lk Al Set_ L. pose proof (call_args ty env sc _ _ _ _ _ i Set_ L) as F. apply Forall_cons_iff in F. destruct F as [[Sa La] _].
  pose proof (wf_type_element _ (wf_wf_type _ (settles_wf _ _ _ _ Set_))) as Wt. change (element_of (type_of e)) with t in Wt.
  pose proof (settles_range ty env sc a i Sa La) as Ra. rewrite <- in_type_element, Al in Ra. assert (D : documented env) by apply Set_.
  split; [exact Sa|]. split; [exact La|]. split.
  { pose proof (everywhere_local _ _ _ (settles_everywhere _ _ _ _ Set_)) as (_ & _ & A). cbn [settled args_lanes e] in A.
    apply Forall_cons_iff in A. destruct A as [[A|A] _]; auto. }
  split; [exact Wt|]. split; [exact Ra|]. split; [exact D|]. unfold e. rewrite call_ev by exact Lk. cbn [map]. rewrite (doc_count env D).
  rewrite <- (cast_val_elt t T (same_elt_element T)). apply cast_val_id; [apply Wt|]. change (bits T) with (bits t). apply count_in_type, Wt.
Qed.

Lemma visit_count_sound T c a ct vi : is_likely (count_name c) ct = false ->
  sound (ECall T (count_name c) [a] ct vi) (visit_count visit T (count_name c) a).
Proof.
  intros Lk. set (e := ECall T (count_name c) [a] ct vi). set (t := element_of T). unfold visit_count. fold t.
  eapply safe_bind; [apply safe_rely|]. intros u. cbn [trusted]. fold t.
  pose proof (fun Al Set_ i => count_value T c a ct vi i Lk Al Set_) as K. fold e t in K.
  assert (Z0 : element_of (type_of a) = t -> settles e -> forall i, lane_in T i -> BoundsTrust.lower ty env t (ev env i e) (make_zero t)).
  { intros Al Set_ i L. destruct (K Al Set_ i L) as (_ & _ & _ & W & _ & _ & V). destruct (fine_zero ty env t W eq_refl) as [F E]. right. split; [exact F|].
    rewrite E, V. apply count_in_type, W. }
  assert (All : element_of (type_of a) = t -> settles e -> forall i, lane_in T i -> BoundsTrust.upper ty env t (ev env i e) (make_const t (bits (type_of a)))).
  { intros Al Set_ i L. destruct (K Al Set_ i L) as (_ & _ & _ & W & _ & _ & V). replace (bits (type_of a)) with (bits t) by (rewrite <- Al; reflexivity).
    destruct (fine_const ty env t (bits t) W eq_refl (bits_in_type t (proj1 W))) as [F E]. right. split; [exact F|].
    rewrite E, V. apply count_in_type, W. }
  destruct (String.eqb_spec (count_name c) "count_leading_zeros") as [E|_].
  2:{ apply safe_give. intros Al Set_ i L. apply within_bounds; auto. }
  assert (Ec : c = Leading) by (destruct c; [discriminate E|reflexivity|discriminate E]).
  set (U := UInt (bits T) (lanes T)). set (word := cast U a).
  eapply safe_bind; [apply safe_rely|]. intros u'. eapply safe_bind; [now apply safe_visit|]. intros A. cbv zeta. cbn [trusted].
  set (clz := fun x => cast t (intrinsic (type_of x) "count_leading_zeros" [x])).
  eapply safe_bind with (Q := fun r => if has_lower_bound A then r = clz (imin A) /\ meant (clz (imin A)) else r = make_const t (bits (type_of a))).
  { destruct (has_lower_bound A); [apply safe_make|now apply safe_give]. }
  intros hi. eapply safe_bind with (Q := fun r => if has_upper_bound A then r = clz (imax A) /\ meant (clz (imax A)) else r = make_zero t).
  { destruct (has_upper_bound A); [apply safe_make|now apply safe_give]. }
  intros lo. apply safe_give. intros Hl Hh HA Mw Al Set_ i L. destruct (K Al Set_ i L) as (Sa & La & Ln & W & Ra & D & V).
  assert (WU : wf_type U).
  { apply wf_type_uint; [apply W|]. pose proof (wf_wf_type _ (settles_wf _ _ _ _ Set_)) as Wt. apply Wt. }
  destruct (cast_ok U a (settles_wf _ _ _ _ Sa) WU) as (Ww & Tw & Vw & _); [exact Ln|]. fold word in Ww, Tw, Vw.
  assert (HW : within (UInt (bits t) 1) A (wrap_u (bits t) (ev env i a))).
  { replace (wrap_u (bits t) (ev env i a)) with (ev env i word).
    - change (UInt (bits t) 1) with (element_of U). rewrite <- Tw. apply HA; [|rewrite Tw; exact L].
      split; [exact Ww|now apply meant_everywhere|apply Set_|apply Set_].
    - rewrite Vw. unfold cast_to. rewrite Al. destruct (type_eqb t (element_of U)) eqn:Q; [|reflexivity]. apply type_eqb_eq in Q.
      symmetry. change (wrap_u (bits t) (ev env i a)) with (cast_val (element_of U) (ev env i a)). rewrite <- Q. apply cast_val_id; [apply W|exact Ra]. }
  change (type_of e) with T. fold t. pose proof (int_type_bits t (proj1 W)) as B. pose proof (wrap_u_range (bits t) ltac:(lia) (ev env i a)) as Rw.
  rewrite Ec in V. apply within_bounds; rewrite ?V.
  - destruct (upper_end ty env _ A _ HW) as [F Le|]; [|subst lo; rewrite <- V; now apply Z0]. destruct Hl as [-> M].
    destruct (fine_leading t _ _ W eq_refl eq_refl D F M) as [G Ev]. right. split; [exact G|]. fold (clz (imax A)) in Ev. rewrite Ev.
    apply leading_mono; [lia|lia|]. pose proof (fine_range ty env _ _ F eq_refl) as Rf. apply word_range in Rf. lia.
  - destruct (lower_end ty env _ A _ HW) as [F Le|]; [|subst hi; rewrite <- V; now apply All]. destruct Hh as [-> M].
    destruct (fine_leading t _ _ W eq_refl eq_refl D F M) as [G Ev]. right. split; [exact G|]. fold (clz (imin A)) in Ev. rewrite Ev.
    apply leading_mono; [lia| |lia]. pose proof (fine_range ty env _ _ F eq_refl) as Rf. apply word_range in Rf. lia.
Qed.
End Visits.
