(* ===== verification/BoundsSound.v ===== *)
(** * Bounds of expressions are sound

    The visitor keeps the promise of its parts for every fuel, and with it
    [bounds_of_expr_in_scope] gives bounds of the values of the expression. *)

From Stdlib Require Import ZArith Lia Bool List String.
From S2P Require Import Prelude.
From S2P Require Import IntArith.
From S2P Require Import HalideTypes.
From S2P Require Import Scope.
From S2P Require Import IR.
From S2P Require Import IREquality.
From S2P Require Import IRMatch.
From S2P Require Import Typing.
From S2P Require Import MatchSound.
From S2P Require Import Visit.
From S2P Require Import Mutator.
From S2P Require Import Intrinsics.
From S2P Require Import SimplifyRun.
From S2P Require Import SimplifyNodes.
From S2P Require Import Interval.
From S2P Require Import Simplifier.
From S2P Require Import Bounds.
From S2P Require Import BoundsFuel.
From S2P Require Import BoundsTrust.
From S2P Require Import BoundsEnds.
From S2P Require Import BoundsArith.
From S2P Require Import BoundsProducts.
From S2P Require Import BoundsNodes.
From S2P Require Import BoundsNames.
From S2P Require Import BoundsCall.
From S2P Require Import BoundsShift.
Import ListNotations.
Open Scope string_scope.
Open Scope list_scope.
Open Scope Z_scope.

Section Visitor.
Context (simplify_ : Expr -> Expr) (can_prove : Expr -> bool) (same_as : Expr -> Expr -> bool).
Context (same_eq : forall a b, same_as a b = true -> a = b).
Context (unique_t : nat -> string) (func_bounds : string -> Z -> option Interval).

Section Visits.
Context (visit : Expr -> B Interval) (Hv : visits_soundly visit).
Context (ty : string -> HType) (env : Env) (sc : Scope Interval) (constants : bool) (Ok : scope_ok sc).

Abbreviation settles := (settles ty env sc).
Abbreviation encloses := (encloses ty env).
Abbreviation sound e m := (BoundsTrust.safe ty env sc constants m (fun result => settles e -> encloses e result)).

(** ** Calls *)

Lemma count_named name ct : is_intrinsic name ct name && is_count name = true ->
  exists c, name = count_name c /\ is_likely name ct = false.
Proof.
  intros H. apply andb_true_iff in H. destruct H as [I H]. unfold is_count in H. apply existsb_exists in H.
  destruct H as (k & [<-|[<-|[<-|[]]]] & E); apply String.eqb_eq in E; subst name;
    [exists Popcount|exists Leading|exists Trailing]; (split; [reflexivity|]); now destruct ct.
Qed.

Lemma bit_op_not_likely name ct : is_bit_op name = true -> is_likely name ct = false.
Proof.
  intros H. unfold is_bit_op in H. apply existsb_exists in H.
  destruct H as (k & [<-|[<-|[<-|[<-|[<-|[]]]]]] & E); apply String.eqb_eq in E; subst name; now destruct ct.
Qed.

Lemma visit_extern_sound T name args ct vi : let e := ECall T name args ct vi in
  sound e (visit_extern func_bounds visit e T name args ct vi).
Proof.
  intros e. assert (G : settles e -> encloses e (bounds_of_type (element_of T))) by (intros H; exact (settles_type ty env sc e H)).
  assert (W : forall iv, sound e (let! _ := rely (Within e iv) in give iv)).
  { intros iv. eapply safe_bind; [apply safe_rely|]. intros u. apply safe_give. auto. }
  unfold visit_extern. eapply safe_bind; [apply safe_mode|]. intros b.
  match goal with |- BoundsTrust.safe _ _ _ _ ?m _ => enough (K : sound e m) by (eapply safe_weaken; [exact K|]; auto) end.
  destruct (negb b && _); [apply W|]. destruct (is_intrinsic name ct name && is_count name) eqn:C.
  { destruct (count_named name ct C) as (c & -> & Lk). unfold with1. destruct args as [|a [|b' l]]; try apply safe_bad.
    now apply visit_count_sound. }
  destruct (is_intrinsic name ct "memoize_expr"); [now apply visit_argument_sound|].
  destruct ct; try apply W; now apply safe_give.
Qed.

Lemma visit_Call_sound T name args ct vi : let e := ECall T name args ct vi in
  sound e (visit_Call can_prove same_as func_bounds visit e T name args ct vi).
Proof.
  intros e. unfold visit_Call.
  destruct (is_intrinsic name ct "strict_float").
  { unfold with1. destruct args as [|a [|b l]]; try apply safe_bad. now apply visit_argument_sound. }
  destruct (is_handle (element_of T)); [apply safe_give; intros _ i L; apply within_everything|].
  eapply safe_bind; [now apply safe_point_call|]. intros [iv|]; [apply safe_give; auto|].
  match goal with |- BoundsTrust.safe _ _ _ _ ?m _ => enough (K : sound e m) by (eapply safe_weaken; [exact K|]; auto) end.
  unfold with1, with2, with3.
  destruct (is_intrinsic name ct "abs") eqn:I1.
  { destruct (intrinsic_name _ _ _ I1) as [-> _]. destruct args as [|a [|b l]]; try apply safe_bad. now apply visit_abs_sound. }
  destruct (is_intrinsic name ct "absd") eqn:I2.
  { destruct (intrinsic_name _ _ _ I2) as [-> _]. destruct args as [|a [|b [|c l]]]; try apply safe_bad. now apply visit_absd_sound. }
  destruct (is_intrinsic name ct "unsafe_promise_clamped").
  { destruct args as [|a [|b [|c [|d l]]]]; try apply safe_bad. now apply visit_clamped_sound. }
  destruct (is_likely name ct) eqn:Lk.
  { destruct args as [|a [|b l]]; try apply safe_bad. now apply visit_likely_sound. }
  destruct (is_intrinsic name ct "return_second").
  { destruct args as [|a [|b [|c l]]]; try apply safe_bad. now apply visit_argument_sound. }
  destruct (is_intrinsic name ct "if_then_else").
  { destruct args as [|a [|b [|c [|d l]]]]; try apply safe_bad. now apply visit_instead_sound. }
  destruct (is_intrinsic name ct "require").
  { destruct args as [|a [|b [|c [|d l]]]]; try apply safe_bad. now apply visit_argument_sound. }
  destruct (is_intrinsic name ct name && is_bit_op name).
  { destruct args as [|a [|b [|c l]]]; try apply safe_bad. now apply visit_bits_sound. }
  destruct (is_intrinsic name ct "bitwise_not") eqn:I3.
  { destruct (intrinsic_name _ _ _ I3) as [-> _]. destruct args as [|a [|b l]]; try apply safe_bad. now apply visit_bit_not_sound. }
  destruct (_ && is_monotonic_float name); [apply safe_bad|]. apply visit_extern_sound.
Qed.

(** ** The dispatch *)

Lemma turned_around op op' a b : (forall x y, evcmp op' x y = evcmp op y x) ->
  settles (ECmp op' a b) -> settles b /\ settles a /\ type_of a = type_of b /\ type_of (ECmp op' a b) = BoolT (lanes (type_of b)) /\
  (forall i, lane_in (type_of (ECmp op' a b)) i -> lane_in (type_of b) i /\ lane_in (type_of a) i /\
     ev env i (ECmp op' a b) = b2z (evcmp op (ev env i b) (ev env i a))).
Proof.
  intros E H. destruct (settles_cmp ty env sc _ _ _ H) as (Sa & Sb & T). split; [exact Sb|]. split; [exact Sa|]. split; [now symmetry|].
  split; [cbn [type_of]; now rewrite T|]. intros i L. destruct (cmp_at ty env sc _ _ _ i H L) as (La & Lb & V). rewrite V, E. auto.
Qed.

Lemma straight op a b : settles (ECmp op a b) -> settles a /\ settles b /\ type_of b = type_of a /\ type_of (ECmp op a b) = BoolT (lanes (type_of a)) /\
  (forall i, lane_in (type_of (ECmp op a b)) i -> lane_in (type_of a) i /\ lane_in (type_of b) i /\
     ev env i (ECmp op a b) = b2z (evcmp op (ev env i a) (ev env i b))).
Proof.
  intros H. destruct (settles_cmp ty env sc _ _ _ H) as (Sa & Sb & T). split; [exact Sa|]. split; [exact Sb|]. split; [exact T|].
  split; [reflexivity|]. intros i L. exact (cmp_at ty env sc _ _ _ i H L).
Qed.

Lemma dispatch_sound e : sound e (dispatch simplify_ can_prove same_as unique_t func_bounds visit e).
Proof.
  destruct e; cbn [dispatch].
  - eapply safe_weaken; [apply safe_point|]. intros iv [-> _] H. apply (point_encloses ty env sc); [exact H|]. pose proof (settles_wf _ _ _ _ H) as W. cbn [wf] in W. now destr_and.
  - eapply safe_weaken; [apply safe_point|]. intros iv [-> _] H. apply (point_encloses ty env sc); [exact H|]. pose proof (settles_wf _ _ _ _ H) as W. cbn [wf] in W. now destr_and.
  - eapply safe_weaken; [apply safe_point|]. intros iv _ H. discriminate (settles_wf _ _ _ _ H).
  - apply safe_bad.
  - now apply visit_Cast_sound.
  - now apply visit_Variable_sound.
  - destruct op.
    + now apply visit_Add_sound.
    + now apply visit_Sub_sound.
    + now apply visit_Mul_sound.
    + now apply visit_Div_sound.
    + now apply visit_Mod_sound.
    + now apply visit_Min_sound.
    + now apply visit_Max_sound.
    + apply visit_logic_sound; auto.
    + apply visit_logic_sound; auto.
  - destruct op.
    + now apply visit_EQ_sound.
    + now apply visit_NE_sound.
    + apply visit_compare_sound; auto. apply straight.
    + apply visit_compare_sound; auto. apply straight.
    + apply visit_compare_sound; auto. now apply turned_around.
    + apply visit_compare_sound; auto. now apply turned_around.
  - now apply visit_Not_sound.
  - now apply visit_Select_sound.
  - now apply visit_Load_sound.
  - now apply visit_Ramp_sound.
  - now apply visit_Broadcast_sound.
  - now apply visit_Call_sound.
  - now apply visit_Let_sound.
  - now apply visit_Shuffle_sound.
Qed.
End Visits.

Lemma visit_sound fuel : visits_soundly (visit simplify_ can_prove same_as unique_t func_bounds fuel).
Proof.
  induction fuel as [|n IH]; intros ty env sc constants e Ok; cbn [visit]; [apply safe_bad|]. now apply dispatch_sound.
Qed.

(** ** The entry points *)

Lemma containing_get (sc : Scope Interval) n : get (set_containing_scope empty_scope sc) n = get sc n.
Proof. reflexivity. Qed.

Lemma typed_bad (test : bool) (iv r : Interval) (s s' : BoundsState) :
  (if test then (iv, s) else bad iv s) = (r, s') -> void s' = false -> r = iv /\ s' = s.
Proof. destruct test; intros [= <- <-]; [auto|discriminate]. Qed.

Lemma bounds_enclose fuel e sc constants iv s ty env :
  bounds_of_expr_in_scope simplify_ can_prove same_as unique_t func_bounds fuel e sc constants = (iv, s) ->
  wf e = true -> sane_env env -> everywhere ty env e -> scope_holds ty env sc ->
  void s = false -> Forall (trusted ty env) (relied s) ->
  encloses ty env e iv.
Proof.
  intros E W Sn Ev H V F. unfold bounds_of_expr_in_scope in E.
  pose proof (visit_sound fuel ty env (set_containing_scope empty_scope sc) constants e empty_scope_ok) as K.
  specialize (K (mkBounds (set_containing_scope empty_scope sc) constants 0 false []) eq_refl eq_refl).
  destruct (visit _ _ _ _ _ _ _ _) as [iv0 s0]. destruct (typed_bad _ _ _ _ _ E V) as [-> ->].
  destruct K as [_ _ (new & N & T)]. cbn [snd fst relied void] in *. rewrite app_nil_r in N. subst new.
  apply T; [exact V|exact F|]. now split.
Qed.

(** C3: Bounds inference is sound: where the variables are in the intervals of the
    scope, the expression has no undefined behaviour, and the run met no error and
    what it relied on holds, each end of the interval is an infinity or a scalar
    expression of the element type without undefined behaviour, and the value of
    the expression in every lane is between them. *)
Theorem bounds_of_expr_sound fuel e sc constants iv s ty env :
  bounds_of_expr_in_scope simplify_ can_prove same_as unique_t func_bounds fuel e sc constants = (iv, s) ->
  wf e = true -> sane_env env -> everywhere ty env e -> scope_holds ty env sc ->
  void s = false -> Forall (trusted ty env) (relied s) ->
  encloses ty env e iv.
Proof. apply bounds_enclose. Qed.

(** The simplifier keeps the meaning of the ends. *)
Lemma simplified_end ty env T x : trusted ty env (Simplified x (simplify_ x)) -> fine_end ty env T x -> is_scalar T = true ->
  fine_end ty env T (simplify_ x) /\ ev env 0 (simplify_ x) = ev env 0 x.
Proof.
  intros H (W & Tx & E) S. cbn [trusted] in H. destruct (finite_inf x W) as (_ & _ & _ & _ & P & N). rewrite P, N in H.
  destruct (H W E) as (Wr & Tr & Er & Vr). split; [split; [exact Wr|split; [congruence|exact Er]]|]. apply Vr. left. now rewrite Tx.
Qed.

Lemma find_constant_bounds_sound fuel e sc iv s ty env :
  find_constant_bounds simplify_ can_prove same_as unique_t func_bounds fuel e sc = (iv, s) ->
  wf e = true -> sane_env env -> everywhere ty env e -> scope_holds ty env sc ->
  void s = false -> Forall (trusted ty env) (relied s) ->
  encloses ty env e iv /\ (imin iv = neg_inf \/ is_const (imin iv) = true) /\ (imax iv = pos_inf \/ is_const (imax iv) = true).
Proof.
  intros E W Sn Ev H V F. unfold find_constant_bounds in E.
  destruct (bounds_of_expr_in_scope _ _ _ _ _ _ _ _ _) as [a s0] eqn:B. cbn [fst snd simplified rely give] in E.
  injection E as <- <-. cbn [void relied] in V, F. apply Forall_cons_iff in F. destruct F as [Fh F].
  apply Forall_cons_iff in F. destruct F as [Fl F].
  pose proof (bounds_enclose fuel e sc true a s0 ty env B W Sn Ev H V F) as K.
  split; [|cbn [imin imax]; destruct (is_const (simplify_ (imin a))) eqn:C1, (is_const (simplify_ (imax a))) eqn:C2; auto].
  intros i L. destruct (K i L) as [Lo Up]. apply within_bounds.
  - destruct (is_const (simplify_ (imin a))) eqn:C; [|now left]. destruct Lo as [E|[Fx Le]].
    + rewrite E in *. cbn [trusted] in Fl. now rewrite Fl in C.
    + destruct (simplified_end ty env _ _ Fl Fx eq_refl) as [Gr Vr]. right. split; [exact Gr|lia].
  - destruct (is_const (simplify_ (imax a))) eqn:C; [|now left]. destruct Up as [E|[Fx Le]].
    + rewrite E in *. cbn [trusted] in Fh. now rewrite Fh in C.
    + destruct (simplified_end ty env _ _ Fh Fx eq_refl) as [Gr Vr]. right. split; [exact Gr|lia].
Qed.
End Visitor.

(** ** Runs with the simplifier *)

Definition same_node (a b : Expr) : bool := wf a && ir_equal a b.

Lemma same_node_eq a b : same_node a b = true -> a = b.
Proof. intros H. apply andb_true_iff in H. destruct H as [W E]. now apply ir_equal_eq. Qed.

Definition simplified_expr (e : Expr) : Expr := fst (simplify 40 e true empty_scope empty_scope).
Definition proved_expr (e : Expr) : bool := is_one (simplified_expr e).
Definition infer : nat -> Expr -> Scope Interval -> bool -> Interval * BoundsState :=
  bounds_of_expr_in_scope simplified_expr proved_expr same_node (fun _ => "t") (fun _ _ => None).

Definition in_bounds (sc : Scope Interval) (name : string) (lo hi : Expr) : Scope Interval := push sc name (mkInterval lo hi).

(** [max(x * 2 + 3, y)], where [x] is in [0, 10]. *)
Definition doubled : Expr := EBin Max (EBin Add (EBin Mul (int_var "x") (int_imm 2)) (int_imm 3)) (int_var "y").
Definition x_to_ten : Scope Interval := in_bounds empty_scope "x" (int_imm 0) (int_imm 10).

Lemma x_to_ten_holds : scope_holds int_names sample_run_env x_to_ten.
Proof.
  intros n iv G i L. unfold x_to_ten, in_bounds in G. destruct (String.eqb_spec n "x") as [->|N].
  - rewrite get_push in G. injection G as <-.
    assert (F : forall v, in_typeb (Int 32 1) v = true -> fine_end int_names sample_run_env (Int 32 1) (int_imm v)).
    { intros v R. split; [exact R|]. split; [reflexivity|]. apply fine_everywhere. cbn. now rewrite R. }
    split; right; (split; [now apply F|]); vm_compute; discriminate.
  - rewrite get_push_ne in G by congruence. discriminate G.
Qed.

Lemma bounds_of_expr_sound_witness :
  let iv := fst (infer 10 doubled x_to_ten false) in
  imin iv = EBin Max (EBin Add (EBin Mul (int_imm 0) (int_imm 2)) (int_imm 3)) (int_var "y") /\
  ev sample_run_env 0 (imin iv) <= ev sample_run_env 0 doubled.
Proof.
  cbv zeta. assert (E : encloses int_names sample_run_env doubled (fst (infer 10 doubled x_to_ten false))).
  { apply (bounds_of_expr_sound simplified_expr proved_expr same_node same_node_eq (fun _ => "t") (fun _ _ => None) 10 doubled x_to_ten false
      (fst (infer 10 doubled x_to_ten false)) (snd (infer 10 doubled x_to_ten false)) int_names sample_run_env);
      [vm_compute; reflexivity|reflexivity|apply standard_sane|apply fine_everywhere; vm_compute; reflexivity|
       exact x_to_ten_holds|vm_compute; reflexivity|].
    let t := eval vm_compute in (relied (snd (infer 10 doubled x_to_ten false))) in
      change (relied (snd (infer 10 doubled x_to_ten false))) with t.
    repeat (apply Forall_cons; [cbn [trusted];
      first [right; right; apply fine_everywhere; vm_compute; reflexivity|intros j _; vm_compute; reflexivity]|]).
    apply Forall_nil. }
  split; [vm_compute; reflexivity|]. destruct (E 0 (or_introl eq_refl)) as [[N|[_ L]] _]; [vm_compute in N; discriminate N|exact L].
Defined.

(** ** What is relied on does not always hold *)

(** Bounds of a shift to the left of what may be negative: [x << y] is -8 where [x]
    is -1, in [-2, -1], and [y] is 3, in [0, 3], but the lower bound is [-2 << 0]. *)
Definition shifted_env : Env := mkEnv (fun n _ => if String.eqb n "x" then -1 else 3) (fun _ _ => 0) standard_ext.
Definition shifted_sample : Expr := intrinsic (Int 32 1) "shift_left" [int_var "x"; EVariable (UInt 32 1) "y"].

Lemma shift_left_bounds_wrong :
  let '(iv, s) := infer 10 shifted_sample (in_bounds (in_bounds empty_scope "x" (int_imm (-2)) (int_imm (-1)))
    "y" (UIntImm (UInt 32 1) 0) (UIntImm (UInt 32 1) 3)) false in
  void s = false /\ ev shifted_env 0 shifted_sample = -8 /\ ev shifted_env 0 (imin iv) = -2.
Proof. vm_compute. auto. Qed.

(** The interval of a remainder by what is not bounded is that of the divisor:
    [x % y] is 0 where [x] is 0 and [y] is 1, but the lower bound is that of [y], 1. *)
Definition remainder_env : Env := mkEnv (fun n _ => if String.eqb n "x" then 0 else 1) (fun _ _ => 0) standard_ext.
Definition remainder_sample : Expr := EBin Mod (int_var "x") (int_var "y").

Lemma mod_bounds_wrong :
  let '(iv, s) := infer 10 remainder_sample (in_bounds (in_bounds empty_scope "x" (int_imm 0) (int_imm 10)) "y" (int_imm 1) pos_inf) false in
  void s = false /\ ev remainder_env 0 remainder_sample = 0 /\ ev remainder_env 0 (imin iv) = 1.
Proof. vm_compute. auto. Qed.

(** A narrow value shifted to the left by a constant is visited as a product with a
    shift of one; when the constant is a ramp, so is that shift, without end. *)
Abbreviation run := (visit simplified_expr proved_expr same_node (fun _ => "t") (fun _ _ => None)).
Definition word_imm (v : Z) : Expr := UIntImm (UInt 16 1) v.
Definition shifts : Expr := Ramp (word_imm 0) (word_imm 1) 4.
Definition shifted_one : Expr := intrinsic (UInt 16 1) "shift_left" [word_imm 1; shifts].
Definition shifted_product : Expr := EBin Mul (word_imm 1) shifted_one.

Definition at_start (k : nat) (v : bool) (r : list Trust) : BoundsState := mkBounds (set_containing_scope empty_scope empty_scope) false k v r.

Lemma shifts_interval n k v r : exists iv r', run (S (S (S (S n)))) shifts (at_start k v r) = (iv, at_start (S k) v r') /\
  is_point same_node iv = false /\ is_point_of same_node iv shifts = false.
Proof. do 2 eexists. split; [vm_compute; reflexivity|]. split; vm_compute; reflexivity. Qed.

Section Loop.
Context (visit : Expr -> B Interval).
Abbreviation step := (dispatch simplified_expr proved_expr same_node (fun _ => "t") (fun _ _ => None) visit).

(** The shift is visited as a product that has it as an operand. *)
Lemma shift_visits k v r iv r1 r2 : visit (word_imm 1) (at_start k v r) = (single_point (word_imm 1), at_start k v r1) ->
  visit shifts (at_start k v r1) = (iv, at_start (S k) v r2) -> is_point same_node iv = false -> is_point_of same_node iv shifts = false ->
  exists r3, step shifted_one (at_start k v r) = visit shifted_product (at_start (S k) v r3).
Proof.
  intros E1 E2 P1 P2.
  change (step shifted_one (at_start k v r)) with
    (visit_bits proved_expr same_node visit shifted_one (UInt 16 1) "shift_left" PureIntrinsic (word_imm 1) shifts (at_start k v r)).
  unfold visit_bits. rewrite E1, E2. cbn [rely scope const_bound next_name Bounds.void relied at_start].
  rewrite P1, P2, !andb_false_r.
  exists (Made shifted_product :: Amount (UInt 16 1) shifts :: Same shifts shifts :: Alike (UInt 16 1) (word_imm 1) :: r2). reflexivity.
Qed.

(** What comes after a visit does not undo an error. *)
Lemma product_stays_void s : (forall A s1, visit (word_imm 1) s = (A, s1) -> Bounds.void (snd (visit shifted_one s1)) = true) ->
  Bounds.void (snd (step shifted_product s)) = true.
Proof.
  intros H. change (step shifted_product s) with (visit_Mul proved_expr same_node visit shifted_product (word_imm 1) shifted_one s).
  assert (U : visit_Mul proved_expr same_node visit shifted_product (word_imm 1) shifted_one s =
    (let '(A, s1) := visit (word_imm 1) s in let '(B', s2) := visit shifted_one s1 in
     visit_Mul proved_expr same_node (fun x => match x with ECall _ _ _ _ _ => give B' | _ => give A end) shifted_product (word_imm 1) shifted_one s2)).
  { unfold visit_Mul. destruct (visit (word_imm 1) s) as [A s1]. destruct (visit shifted_one s1) as [B' s2]. reflexivity. }
  rewrite U. destruct (visit (word_imm 1) s) as [A s1]. specialize (H A s1 eq_refl). destruct (visit shifted_one s1) as [B' s2].
  apply (same_Mul proved_expr same_node (fun _ => "t") _ (refines_lawful (fun _ => "t")) _ (fun x => match x with ECall _ _ _ _ _ => give B' | _ => give A end)); try apply (law_give _ _ (refines_lawful (fun _ => "t"))). exact H.
Qed.
End Loop.

(** Bounds inference of a narrow value shifted to the left by a ramp never ends. *)
Lemma shift_by_ramp_never_ends fuel : forall k v r, Bounds.void (snd (run fuel shifted_one (at_start k v r))) = true.
Proof.
  induction fuel as [fuel IH] using lt_wf_ind. intros k v r.
  do 5 (destruct fuel as [|fuel]; [vm_compute; reflexivity|]).
  destruct fuel as [|fuel]; [vm_compute; reflexivity|].
  set (n := S (S (S (S fuel)))). change (run (S (S n)) shifted_one (at_start k v r)) with
    (dispatch simplified_expr proved_expr same_node (fun _ => "t") (fun _ _ => None) (run (S n)) shifted_one (at_start k v r)).
  destruct (shifts_interval (S fuel) k v (Made (word_imm 1) :: r)) as (iv & r' & E & P1 & P2).
  destruct (shift_visits (run (S n)) k v r iv (Made (word_imm 1) :: r) r' eq_refl E P1 P2) as [r3 ->].
  apply (product_stays_void (run n)). intros A s1 [= _ <-].
  apply (IH n ltac:(unfold n; lia) (S k) v (Made (word_imm 1) :: r3)).
Qed.
